(* ===== verification/_CoqProject ===== *)
-Q . S2P
Prelude.v
Memory.v
Text.v
System.v
Position.v
ByteView.v
Lines.v
Resource.v
Pools.v
Segment.v
Pipeline.v
PipelineProofs.v
PipelineSpace.v
PipelineTheorems.v
PipelineSystem.v
PipelineSpec.v
PipelineEvents.v
PipeUtils.v
PipeCopy.v
LineReader.v
LineReaderEnds.v
PipelineSample.v
StdinSample.v
Channel.v
ChannelSystem.v
ChannelSpec.v
ChannelCalls.v
Cache.v
CacheSpec.v
CacheSystem.v
LogMessage.v
Sinks.v
Json.v
Utf8.v
OtelSerializer.v
OtelSink.v
Logger.v
LoggingSystem.v
HttpRequest.v
NativeTransport.v
CurlTransport.v
Commands.v
ChannelSample.v
Connection.v
ConnectionSystem.v
Server.v
ServerClients.v
ServerLoop.v
ChatSystem.v
ChatMain.v
