(* ===== verification/Prelude.v ===== *)
(** * A verification of xtd: byte pipelines, channels, a cache, logging, a chat server

    This library models the C++ headers of the repository in Rocq, by shallow
    embedding, and proves that they do what they promise.  File names below
    are those under src/src, and under src/samples for the samples.

    ** The program

    - [pipeline/]: a bounded byte pipe.  A [pipe_writer] copies bytes into
      [data_segment]s, whose buffers come from a [memory_resource]; a
      [pipe_reader] gets snapshots of them as [segmented_byte_view]s and says
      with [advance] what it consumed and what it only examined.  A writer
      above the pause threshold waits for the reader.
    - [channel/]: a queue of values, bounded or not, for several producers and
      consumers.
    - [cache/]: a sharded map with expiration and single-flight creation.
    - [logging/]: a logger whose worker thread takes messages from a channel
      and gives them to its sinks; the OpenTelemetry sink has a channel and a
      worker of its own, serialises messages to JSON and sends batches over
      one of two HTTP transports.
    - [samples/chat/]: a TCP server; each client has a handler with a pipeline
      and a thread that reads commands from it line by line.
    - [samples/pipeline.cpp], [samples/stdin.cpp], [samples/channel.cpp]: programs
      of two threads over one pipeline, of five over one channel.

    ** The files

    Shared: Prelude.v ([std::size_t] with its wrap-around, outcomes, stop
    tokens, generic lemmas), Memory.v (the byte store, spans, [operator new]
    and [delete]), Text.v (what the code uses of the standard library on
    strings), Lines.v (texts as lines, and the slices that take one line off a
    view), System.v (the kernel as the list of its answers); as specifications
    Json.v (the grammar of JSON), Utf8.v (its encoding) and HttpRequest.v (how
    a receiver reads a request).

    Pipeline: Position.v (position.h), ByteView.v (segmented_byte_view.h),
    Resource.v (the class [MemoryResource] and its laws [ResourceLaws]: the
    interface between a pipeline and its allocator), Pools.v (the instances
    for fixed_pool_resource.h and arena_pool_resource.h), Segment.v
    (data_segment.h), Pipeline.v (pipeline_impl.h, read_result.h,
    pipe_writer.h, pipe_reader.h), PipelineProofs.v and PipelineTheorems.v
    (invariant and contracts of the operations), PipelineSpace.v (the room
    left for a writer, and that a write wastes none), PipelineSystem.v (writer and
    reader as two threads), PipelineSpec.v (the bounded byte pipe they
    refine), PipelineEvents.v (what the events of one thread leave to the
    other), PipeUtils.v (pipe_utils.h) and PipeCopy.v (its file thread at work
    on a pipeline).

    Programs over one pipeline: LineReader.v (a producer thread and a main
    thread that reads lines, against the class [LineClient] of what it does
    with one) and LineReaderEnds.v (its programs end), with the instances
    PipelineSample.v (samples/pipeline.cpp) and StdinSample.v
    (samples/stdin.cpp).

    Channel: Channel.v (channel_impl.h and its endpoints), ChannelSystem.v
    (any number of threads), ChannelSpec.v (the bounded queue they refine),
    ChannelCalls.v (the calls of a thread, one after the other) and
    ChannelSample.v (samples/channel.cpp).

    Cache: Cache.v (concurrent_cache.h), CacheSpec.v (the map with expiration
    it refines), CacheSystem.v (concurrent creations).

    Logging: LogMessage.v (log_message.h), Sinks.v (sinks_opts.h, log_sink.h,
    file_sink.h), Logger.v (logging.h, against the class [LogSink]; the text
    sinks are its instance), OtelSerializer.v (otel_serializer.h), OtelSink.v
    (otel_sink.h), LoggingSystem.v (a logger with its sinks, all their threads
    together), NativeTransport.v (transport_base.h, native.h), CurlTransport.v
    (curl.h).

    Chat: Commands.v (commands_parser.h), Connection.v and ConnectionSystem.v
    (connection_handler.h), Server.v (server.h, what it asks of the kernel)
    and ServerClients.v (server.h, the table of clients and their lifetimes),
    ServerLoop.v (the operations of the event loop, whole, on that table),
    ChatSystem.v (the table, the handlers and what they send, together),
    ChatMain.v (samples/chat.cpp).

    ** How code becomes definitions

    A struct or class is a record with the members' names, an enum an
    inductive type, a method a function from the state to the new state and a
    result.  An exception is [Throw], a failed assertion or undefined
    behaviour [Undef] (a [memcpy] outside a live block and a second
    [operator delete] among them); sizes are integers with [+!], [-!] and [*!] for 64-bit
    arithmetic.

    A method that takes a lock is one definition per critical section, cut
    where it parks in a condition variable.  The files named ...System run
    these sections as the steps of a relation, one for each section, each
    notification after an unlock, each wake-up and each change of a stop
    token, so that a theorem about reachable states is a theorem about every
    interleaving.  History that only the theorems need (what was written,
    consumed, pushed, popped, delivered) is kept in extra fields.  The same
    sections are also composed into the sequential operation that runs when
    no other thread does.

    System calls are answered from a list: each element is the answer to the
    next call, and the list ends where the observation ends
    ([LoopBlocked]).  Theorems about what a loop did hold for every list;
    theorems that it ends assume that the answers make progress.

    ** What the theorems show

    - Pipeline, as one queue of bytes: [stream_integrity] (nothing lost,
      repeated or reordered under any interleaving and cancellation),
      [pipeline_refines_pipe] (every run is one of a bounded pipe),
      [file_reaches_reader] (a copied file arrives whole),
      [no_undefined_behaviour] (no assertion, no access outside a live buffer,
      no block given back twice), [no_lost_wakeup], [memory_bounded]; section by
      section [write_exact], [advance_correct], [read_at_least_correct],
      [write_read_advance], [construct_correct].  All for any memory resource
      with the laws of Resource.v, which [fixed_pool_correct] and
      [arena_pool_correct] discharge.
    - Programs: [pipeline_sample_counts], [stdin_echoes] and
      [channel_sample_delivers] follow a whole program to its end: its threads
      never all wait, no exception or assertion ends the process, and it
      returns, after boundedly many steps but for spurious wake-ups, with
      every line counted or echoed, every value printed once
      ([channel_sample_ends] has the bound for the last); [chat_main_exits]
      accounts for every exit of the chat program.
    - Views: [slice_correct], [copy_to_correct], [position_of_sequence_correct]
      and their companions equate each operation with a list operation on the
      joined bytes.
    - Channel: [channel_refines_queue] (every run is one of a bounded queue),
      [channel_no_lost_wakeup], [emplace_correct], [read_correct].
    - Cache: [cache_refines_map] (every sequence of calls answers as a map
      with expiration does, and how far the documented map is from it),
      [single_factory] and [waiters_are_served] for
      concurrent creations.
    - Logging: [logged_messages_are_exported] follows a message from [log] to
      the JSON of its request, through both channels and destructors;
      [logger_delivers] and [logger_destructor_drains] for any sink,
      [stream_sink_output] for what a descriptor receives;
      [serialize_record_correct] reads the JSON back, and says which texts keep
      it UTF-8; [otel_sink_delivers] and
      [otel_destructor_drains] account for every message up to the requests;
      [parse_endpoint_roundtrip], [send_request_correct] (what goes
      out, and what its receiver reads) and [curl_transport_releases] for the transports.
    - Chat: [messages_reach_clients] follows the lines received from one
      client to the sockets of the others; [parse_command_correct] equates the parser on views with one on
      bytes; [connection_refines_lines] shows that the concurrent handler
      refines a fold over lines, [waiting_connection_is_up_to_date],
      [connection_names_and_broadcasts] and [closed_connection_ends] that it
      leaves no line behind, stays within its lines and ends;
      [client_sockets_closed_once], [send_data_correct], [run_correct] (the
      event loop) and [event_loop_keeps_registry] (what it makes of the
      clients, to the end of the destructor, while no handler's thread makes a
      call and [receive_data] returns) for the server.
    - Some theorems show a run in which the code departs from its intention
      ([low_resume_threshold_never_resumes], [cancelled_paused_write_spins],
      [cancelled_write_loses_wakeup], [cancelled_reader_swallows_wakeup],
      [get_removes_a_live_entry], [get_keeps_an_expired_entry],
      [max_ttl_overflows], [invalid_utf8_is_passed_on],
      [service_fields_are_not_escaped], [long_line_blocks_the_server],
      [stdin_loses_the_start_of_a_long_line],
      [failed_reply_terminates_the_server], [reply_reaches_another_client],
      [stale_event_disconnects_new_client] and others beside them).

    ** Fuel

    The inner loop of [write] copies at least one byte a round, so its fuel is
    the length of the data; the outer loop's is a parameter of the theorems,
    which say how much is enough.  [read_all] takes as many items as its fuel;
    the threads of Logger.v, OtelSink.v and ConnectionSystem.v run for
    [logger_work], [work_left] and five steps, in which they are proved to
    end.  Decimal printing gets the number of binary digits, the JSON parser
    the length of its input, and a file copy one round more than its bytes.
    Releasing a client in ServerLoop.v nests three deep.
    The programs over a pipeline run without fuel, as steps; [work] in
    LineReaderEnds.v bounds them.

    ** What is not modelled

    [std::pmr::unsynchronized_pool_resource], libcurl, name resolution, the
    time-zone tables, [std::vformat] over the user's types, the hash and the
    factory of a cache are parameters: their code is not here.  Allocation
    failure is not modelled, nor is weak memory: atomics and locks are
    sequentially consistent steps.  PipelineSystem.v has one writer thread,
    as the code requires, so a handler closed by one thread while another
    writes to its pipeline is outside ConnectionSystem.v; there, [close] comes
    between the writer's sections; and a copying thread whose [write] throws,
    which ends the process, is outside PipeCopy.v, whose statements are about
    an open reader.  In ChatSystem.v the farewell of a handler's destructor is
    left out; ServerLoop.v has it.  The process-wide logger instance, the logging macros,
    debug output, umbrella headers, tests and benchmarks
    are left out. *)

From stdpp Require Export base tactics list gmap strings numbers relations.
From Stdlib Require Export ZArith Lia.
From Stdlib Require Export Strings.Byte.

#[global] Open Scope Z_scope.

(** ** Bytes and text *)

Abbreviation byte := Init.Byte.byte.
Abbreviation bytes := (list byte).

#[export] Instance byte_eq_decision : EqDecision byte := Byte.byte_eq_dec.

(** The bytes of a C++ string literal. *)
Definition text (s : string) : bytes := String.list_byte_of_string s.

(** ** [std::size_t]

    Machine arithmetic on 64-bit unsigned integers, with its wrap-around
    written out.  A size is an integer [0 <= z < size_modulus]. *)

Definition size_modulus : Z := 18446744073709551616.

Definition wrap (z : Z) : Z := z `mod` size_modulus.

Declare Scope size_scope.
Delimit Scope size_scope with size.
Notation "a +! b" := (wrap (a + b)) (at level 50, left associativity) : size_scope.
Notation "a -! b" := (wrap (a - b)) (at level 50, left associativity) : size_scope.
Notation "a *! b" := (wrap (a * b)) (at level 40, left associativity) : size_scope.
#[global] Open Scope size_scope.

Definition is_size (z : Z) : Prop := 0 <= z < size_modulus.

(** [container.size()]. *)
Definition len {A : Type} (l : list A) : Z := Z.of_nat (length l).

Lemma wrap_small z : is_size z -> wrap z = z.
Proof. intros H. apply Z.mod_small, H. Qed.

Lemma wrap_range z : is_size (wrap z).
Proof. apply Z.mod_pos_bound. reflexivity. Qed.

Lemma size_modulus_pos : 0 < size_modulus.
Proof. reflexivity. Qed.

Lemma wrap_add_sub a b : is_size a -> ((a +! b) -! b) = a.
Proof.
  intros Ha. unfold wrap. rewrite Zminus_mod_idemp_l.
  replace (a + b - b) with a by lia. by apply Z.mod_small.
Qed.

Lemma wrap_sub_add a b : is_size a -> ((a -! b) +! b) = a.
Proof.
  intros Ha. unfold wrap. rewrite Zplus_mod_idemp_l.
  replace (a - b + b) with a by lia. by apply Z.mod_small.
Qed.

Lemma wrap_assoc a b c : ((a +! b) +! c) = (a +! (b + c)).
Proof. unfold wrap. rewrite Zplus_mod_idemp_l. f_equal. lia. Qed.

(** Removes every wrap-around whose argument is in range. *)
Ltac unwrap :=
  repeat match goal with
  | |- context [wrap ?z] => rewrite (wrap_small z) by (unfold is_size in *; lia)
  end.
Tactic Notation "unwrap" "in" hyp(H) :=
  repeat match type of H with
  | context [wrap ?z] => rewrite (wrap_small z) in H by (unfold is_size in *; lia)
  end.

(** ** Exceptions

    [Undef] is the outcome of an execution the C++ code leaves undefined
    (a failed [assert], [front()] of an empty container,
    [std::unreachable()]); correctness theorems show it does not occur. *)

Inductive exn_kind :=
  | invalid_argument | out_of_range | logic_error | runtime_error
  | ios_failure | system_error.

Record exn := Exn { exn_class : exn_kind; exn_what : string }.

Inductive outcome (A : Type) : Type :=
  | Ret (a : A)
  | Throw (e : exn)
  | Undef.
Arguments Ret {A} a.
Arguments Throw {A} e.
Arguments Undef {A}.

#[export] Instance outcome_ret : MRet outcome := @Ret.
#[export] Instance outcome_bind : MBind outcome := fun A B f m =>
  match m with
  | Ret a => f a
  | Throw e => Throw e
  | Undef => Undef
  end.

Definition outcome_map {A B} (f : A -> B) (m : outcome A) : outcome B :=
  a ← m; Ret (f a).

Definition throw {A} (k : exn_kind) (what : string) : outcome A :=
  Throw (Exn k what).

#[export] Instance exn_kind_eq_decision : EqDecision exn_kind.
Proof. solve_decision. Defined.
#[export] Instance exn_eq_decision : EqDecision exn.
Proof. solve_decision. Defined.
#[export] Instance outcome_eq_decision {A} `{EqDecision A} : EqDecision (outcome A).
Proof. solve_decision. Defined.

(** ** Cooperative cancellation

    A stop token, seen by the operation that polls it: [None] is a token
    that is never stopped; [Some n] answers [false] to the next [n] polls
    and [true] to every later one.  Quantifying over tokens is quantifying
    over every moment at which another thread may request the stop. *)

Definition stop_token : Type := option nat.

Definition no_stop : stop_token := None.
Definition stopped : stop_token := Some O.

Definition stop_requested (t : stop_token) : bool * stop_token :=
  match t with
  | None => (false, None)
  | Some O => (true, Some O)
  | Some (S n) => (false, Some n)
  end.

(** One round of [condition_variable_any::wait(lock, token, pred)],
    which the C++ standard defines as
    [while (!token.stop_requested()) { if (pred()) return true; wait(lock); }
     return pred();]:
    the lock is held; the round either returns or parks the thread. *)

Inductive cv_round :=
  | CvReturn (satisfied : bool)
  | CvSleep.

Definition cv_wait_round (pred : bool) (t : stop_token) : cv_round * stop_token :=
  let '(stop, t) := stop_requested t in
  if stop then (CvReturn pred, t)
  else if pred then (CvReturn true, t)
  else (CvSleep, t).

(** A parked thread may leave [wait] once it was notified or a stop was
    requested (spurious wake-ups are allowed by the step relations). *)
Definition stop_pending (t : stop_token) : bool :=
  match t with Some O => true | _ => false end.

(** Whether one of the next [k] polls answers [true], and the token after
    [k] polls. *)
Definition stops_within (k : nat) (t : stop_token) : bool :=
  match t with None => false | Some n => Nat.ltb n k end.

Fixpoint after_polls (k : nat) (t : stop_token) : stop_token :=
  match k with
  | O => t
  | S k => after_polls k (stop_requested t).2
  end.

Lemma cv_sleep_iff pred t t' :
  cv_wait_round pred t = (CvSleep, t') -> pred = false /\ stop_pending t = false.
Proof.
  unfold cv_wait_round. destruct t as [[|n]|]; destruct pred; naive_solver.
Qed.

Lemma cv_return_no_stop pred :
  cv_wait_round pred no_stop = if pred then (CvReturn true, no_stop) else (CvSleep, no_stop).
Proof. by destruct pred. Qed.

(** ** Counting threads *)

Fixpoint countb {A} (f : A -> bool) (l : list A) : nat :=
  match l with
  | [] => 0
  | x :: l => (if f x then 1 else 0) + countb f l
  end.

Lemma countb_app {A} (f : A -> bool) (l k : list A) :
  countb f (l ++ k) = (countb f l + countb f k)%nat.
Proof. induction l as [|x l IH]; [done|]. simpl. rewrite IH. lia. Qed.

Lemma countb_insert {A} (f : A -> bool) (l : list A) i x y :
  l !! i = Some x ->
  (countb f (<[i:=y]> l) + (if f x then 1 else 0)
   = countb f l + (if f y then 1 else 0))%nat.
Proof.
  revert i. induction l as [|z l IH]; intros [|i] Hi; simplify_eq/=.
  - lia.
  - specialize (IH i Hi). lia.
Qed.

Lemma sum_list_with_insert {A} (f : A -> nat) (l : list A) i x y :
  l !! i = Some x -> (sum_list_with f (<[i := y]> l) + f x = sum_list_with f l + f y)%nat.
Proof.
  revert i. induction l as [|z l IH]; intros [|i] Hi; simplify_eq/=.
  - lia.
  - specialize (IH i Hi). unfold insert in *. lia.
Qed.

Lemma countb_zero {A} (f : A -> bool) (l : list A) :
  countb f l = 0%nat <-> forall i x, l !! i = Some x -> f x = false.
Proof.
  split.
  - revert l. induction l as [|z l IH]; intros H [|i] x Hx; simplify_eq/=.
    + destruct (f x); [lia | done].
    + eapply IH; [destruct (f z); lia | done].
  - induction l as [|z l IH]; intros H; simpl; [done|].
    rewrite (H 0%nat z) by done. apply IH. intros i x Hx. by apply (H (S i)).
Qed.

Lemma countb_pos {A} (f : A -> bool) (l : list A) i x :
  l !! i = Some x -> f x = true -> (0 < countb f l)%nat.
Proof.
  intros Hi Hf. destruct (countb f l) eqn:E; [|lia].
  rewrite countb_zero in E. specialize (E i x Hi). congruence.
Qed.

(** ** Rounding up *)

Definition ceil_div (a b : Z) : Z := a / b + (if (a `mod` b) =? 0 then 0 else 1).

Lemma ceil_div_spec a b : 0 < a -> 0 < b -> 0 < ceil_div a b <= a /\ a <= b * ceil_div a b < a + b.
Proof.
  intros Ha Hb. unfold ceil_div. pose proof (Z.div_mod a b ltac:(lia)) as E.
  pose proof (Z.mod_pos_bound a b Hb). destruct (Z.eqb_spec (a `mod` b) 0); nia.
Qed.

(** ** Reachability *)

Lemma rtc_invariant {A} (R : relation A) (I : A -> Prop) x y :
  (forall x y, I x -> R x y -> I y) -> rtc R x y -> I x -> I y.
Proof. intros Hstep Hrtc. induction Hrtc; eauto. Qed.

(** ** Lists *)

Lemma len_nonneg {A} (l : list A) : 0 <= len l.
Proof. unfold len. lia. Qed.

Lemma len_app {A} (l k : list A) : len (l ++ k) = len l + len k.
Proof. unfold len. rewrite length_app. lia. Qed.

Lemma len_cons {A} (x : A) (l : list A) : len (x :: l) = 1 + len l.
Proof. unfold len. cbn [length]. lia. Qed.

Lemma len_singleton {A} (x : A) : len [x] = 1.
Proof. done. Qed.

Lemma len_nil_iff {A} (l : list A) : len l = 0 <-> l = [].
Proof. unfold len. destruct l; simpl; split; (done || lia). Qed.

Lemma concat_app_singleton {A} (ls : list (list A)) (l : list A) :
  concat (ls ++ [l]) = concat ls ++ l.
Proof. by rewrite concat_app, concat_cons, concat_nil, app_nil_r. Qed.

Lemma omap_insert_permutation {A B} (f : A -> option B) (l : list A) i x y :
  l !! i = Some x ->
  omap f (<[i := y]> l) ++ option_list (f x) ≡ₚ omap f l ++ option_list (f y).
Proof.
  revert i. induction l as [|z l IH]; intros [|i] Hi; simplify_eq/=.
  - destruct (f x), (f y); simpl; solve_Permutation.
  - specialize (IH i Hi). destruct (f z); simpl; [|exact IH]. by rewrite IH.
Qed.

Create HintDb xtd.
Create Rewrite HintDb xtd.
#[export] Hint Resolve len_nonneg wrap_range size_modulus_pos : xtd.
#[export] Hint Rewrite @len_app : xtd.
