(* ===== verification/Memory.v ===== *)
(** The byte store under the pipeline: blocks obtained from
    [::operator new], pointers into them, [std::span]s over them and the
    reads and writes the code performs through those spans.  Writing outside
    a live block, and giving back what [::operator new] did not return or
    what was given back before, is undefined behaviour.  Views and
    segments alias this one store, so that a theorem about a snapshot is a
    theorem about memory the writer keeps writing to. *)

From S2P Require Import Prelude.

(** [std::byte*]: a block and an offset in it. *)
Record ptr := Ptr { p_block : N; p_off : Z }.

#[export] Instance ptr_eq_decision : EqDecision ptr.
Proof. solve_decision. Defined.

(** [std::span<std::byte>] (and [std::span<const std::byte>]). *)
Record span := Span { s_data : ptr; s_size : Z }.

#[export] Instance span_eq_decision : EqDecision span.
Proof. solve_decision. Defined.

Record memory := Mem { m_next : N; m_blocks : gmap N bytes }.

Definition empty_memory : memory := Mem 0 ∅.

Definition ptr_add (p : ptr) (n : Z) : ptr := Ptr (p_block p) (p_off p + n).

(** [::operator new(size)]: a block no live pointer refers to.  Its bytes
    are indeterminate in C++; the model fills them with zeros, and the
    theorems on readable spans show no read depends on that choice. *)
Definition operator_new (size : Z) (m : memory) : ptr * memory :=
  (Ptr (m_next m) 0,
   Mem (N.succ (m_next m)) (<[m_next m := replicate (Z.to_nat size) x00]> (m_blocks m))).

(** [::operator delete(p)]: [p] is the start of a block not given back yet. *)
Definition free_block (p : ptr) (m : memory) : memory :=
  Mem (m_next m) (delete (p_block p) (m_blocks m)).

Definition operator_delete (p : ptr) (m : memory) : outcome memory :=
  if (p_off p =? 0) && bool_decide (is_Some (m_blocks m !! p_block p)) then Ret (free_block p m) else Undef.

Definition block (m : memory) (b : N) : bytes := default [] (m_blocks m !! b).

(** The [n] bytes at [p]. *)
Definition load (m : memory) (p : ptr) (n : Z) : bytes :=
  take (Z.to_nat n) (drop (Z.to_nat (p_off p)) (block m (p_block p))).

(** The memory after a write of [bs] at [p]. *)
Definition store (m : memory) (p : ptr) (bs : bytes) : memory :=
  Mem (m_next m)
      (<[p_block p := list_inserts (Z.to_nat (p_off p)) bs (block m (p_block p))]> (m_blocks m)).

Definition span_bytes (m : memory) (s : span) : bytes := load m (s_data s) (s_size s).

(** [span.subspan(offset)] and [span.subspan(offset, count)]. *)
Definition subspan (s : span) (offset : Z) : span :=
  Span (ptr_add (s_data s) offset) (s_size s - offset).
Definition subspan_n (s : span) (offset count : Z) : span :=
  Span (ptr_add (s_data s) offset) count.

Definition span_empty (s : span) : bool := s_size s =? 0.

(** The range [p, p + n) lies inside a live block. *)
Definition valid_range (m : memory) (p : ptr) (n : Z) : Prop :=
  0 <= n /\ 0 <= p_off p /\
  exists bs, m_blocks m !! p_block p = Some bs /\ p_off p + n <= len bs.

Definition valid_rangeb (m : memory) (p : ptr) (n : Z) : bool :=
  (0 <=? n) && (0 <=? p_off p) &&
  match m_blocks m !! p_block p with Some bs => p_off p + n <=? len bs | None => false end.

(** [std::memcpy(p, bs, bs.size())]: the range is inside a live block. *)
Definition memcpy (m : memory) (p : ptr) (bs : bytes) : outcome memory :=
  if valid_rangeb m p (len bs) then Ret (store m p bs) else Undef.

Definition valid_span (m : memory) (s : span) : Prop := valid_range m (s_data s) (s_size s).

(** Two ranges share no byte. *)
Definition disjoint_range (p : ptr) (n : Z) (q : ptr) (k : Z) : Prop :=
  p_block p ≠ p_block q \/ p_off p + n <= p_off q \/ p_off q + k <= p_off p.

(** [m'] still has every block of [m], at the same size. *)
Definition same_layout (m m' : memory) : Prop :=
  m_next m = m_next m' /\
  forall b, length <$> m_blocks m !! b = length <$> m_blocks m' !! b.

Lemma valid_rangeb_spec m p n : valid_rangeb m p n = true <-> valid_range m p n.
Proof.
  unfold valid_rangeb, valid_range. destruct (m_blocks m !! p_block p) as [bs|]; split.
  - intros H. split; [lia|]. split; [lia|]. exists bs. split; [done|lia].
  - intros (? & ? & bs' & [= <-] & ?). lia.
  - lia.
  - by intros (_ & _ & bs & ? & _).
Qed.

Lemma memcpy_ret m p bs : valid_range m p (len bs) -> memcpy m p bs = Ret (store m p bs).
Proof. unfold memcpy. by intros ->%valid_rangeb_spec. Qed.

Lemma operator_delete_ret p m :
  p_off p = 0 -> is_Some (m_blocks m !! p_block p) -> operator_delete p m = Ret (free_block p m).
Proof. intros Ho Hb. unfold operator_delete. by rewrite Ho, bool_decide_true. Qed.

Lemma valid_range_block m p n :
  valid_range m p n -> 0 <= n /\ 0 <= p_off p /\ p_off p + n <= len (block m (p_block p)).
Proof.
  intros (Hn & Ho & bs & Hb & Hl). unfold block. rewrite Hb. simpl. lia.
Qed.

Lemma valid_range_sub m p n o k :
  valid_range m p n -> 0 <= o -> 0 <= k -> o + k <= n -> valid_range m (ptr_add p o) k.
Proof.
  intros (Hn & Ho & bs & Hb & Hl) ???. split; [lia|]. simpl. split; [lia|].
  exists bs. split; [done|]. lia.
Qed.

Lemma length_load m p n : valid_range m p n -> len (load m p n) = n.
Proof.
  intros (? & ? & ?)%valid_range_block. unfold load, len in *.
  rewrite length_take, length_drop. lia.
Qed.

Lemma length_span_bytes m s : valid_span m s -> len (span_bytes m s) = s_size s.
Proof. apply length_load. Qed.

Lemma ptr_add_0 p : ptr_add p 0 = p.
Proof. destruct p. unfold ptr_add. simpl. by rewrite Z.add_0_r. Qed.

Lemma ptr_add_add p a b : ptr_add (ptr_add p a) b = ptr_add p (a + b).
Proof. unfold ptr_add. simpl. f_equal. lia. Qed.

Lemma load_zero m p : load m p 0 = [].
Proof. done. Qed.

Lemma load_split m p n k :
  0 <= p_off p -> 0 <= n -> 0 <= k -> load m p (n + k) = load m p n ++ load m (ptr_add p n) k.
Proof.
  intros. unfold load. simpl. rewrite !Z2Nat.inj_add by lia.
  rewrite <- list.take_take_drop, drop_drop. done.
Qed.

Lemma load_sub m p n o k :
  0 <= p_off p -> 0 <= o -> 0 <= k -> o + k <= n ->
  load m (ptr_add p o) k = take (Z.to_nat k) (drop (Z.to_nat o) (load m p n)).
Proof.
  intros. unfold load. simpl.
  rewrite skipn_firstn_comm, take_take, drop_drop, Z2Nat.inj_add by lia.
  f_equal. lia.
Qed.

Lemma block_store m p bs b :
  block (store m p bs) b =
  if decide (b = p_block p) then list_inserts (Z.to_nat (p_off p)) bs (block m b) else block m b.
Proof.
  unfold block, store. simpl. case_decide as E.
  - subst. by rewrite lookup_insert_eq.
  - by rewrite lookup_insert_ne.
Qed.

Lemma lookup_load m p n i :
  0 <= p_off p -> Z.of_nat i < n -> load m p n !! i = block m (p_block p) !! (Z.to_nat (p_off p) + i)%nat.
Proof.
  intros. unfold load. rewrite lookup_take_lt by lia. by rewrite lookup_drop.
Qed.

(** Reading back what was just written. *)
Lemma load_store_same m p bs :
  valid_range m p (len bs) -> load (store m p bs) p (len bs) = bs.
Proof.
  intros (? & ? & Hl)%valid_range_block. unfold load. rewrite block_store.
  rewrite decide_True by done. apply list_eq. intros i.
  destruct (decide (i < length bs)%nat).
  - rewrite lookup_take_lt by (unfold len; lia). rewrite lookup_drop.
    rewrite list_lookup_inserts by (unfold len in *; lia). f_equal. lia.
  - rewrite !lookup_ge_None_2; [done| |]; rewrite ?length_take, ?length_drop; unfold len in *; lia.
Qed.

(** Writing does not change bytes outside the written range. *)
Lemma load_store_disjoint m p bs q n :
  0 <= p_off p -> 0 <= p_off q -> disjoint_range p (len bs) q n ->
  load (store m p bs) q n = load m q n.
Proof.
  intros Hp Hq Hd. unfold load. rewrite block_store. case_decide as E; [|done].
  destruct Hd as [?|Hd]; [congruence|].
  apply list_eq. intros i. destruct (decide (Z.of_nat i < n)).
  - rewrite !lookup_take_lt, !lookup_drop by lia. unfold len in *.
    destruct Hd; [apply list_lookup_inserts_ge|apply list_lookup_inserts_lt]; lia.
  - rewrite !lookup_take_ge by lia. done.
Qed.

Lemma store_same_layout m p bs n : valid_range m p n -> same_layout m (store m p bs).
Proof.
  intros (_ & _ & blk & Hb & _). split; [done|]. intros b. unfold store, block. simpl.
  destruct (decide (b = p_block p)) as [->|].
  - rewrite lookup_insert_eq, Hb. simpl. by rewrite length_inserts.
  - by rewrite lookup_insert_ne.
Qed.

Lemma same_layout_valid m m' p n : same_layout m m' -> valid_range m p n -> valid_range m' p n.
Proof.
  intros [_ Hl] (? & ? & bs & Hb & Hlen). split; [done|]. split; [done|].
  specialize (Hl (p_block p)). rewrite Hb in Hl. simpl in Hl.
  destruct (m_blocks m' !! p_block p) as [bs'|] eqn:E; simplify_eq/=.
  exists bs'. split; [done|]. unfold len in *. lia.
Qed.

Lemma store_valid m p bs n q k :
  valid_range m p n -> valid_range m q k -> valid_range (store m p bs) q k.
Proof. intros Hp. apply same_layout_valid. by eapply store_same_layout. Qed.

(** *** Allocation *)

(** Blocks are numbered from below [m_next]. *)
Definition memory_ok (m : memory) : Prop :=
  forall b bs, m_blocks m !! b = Some bs -> (b < m_next m)%N.

Lemma empty_memory_ok : memory_ok empty_memory.
Proof. intros b bs. simpl. by rewrite lookup_empty. Qed.

Lemma operator_new_ok size m : memory_ok m -> memory_ok (operator_new size m).2.
Proof.
  intros Hm b bs. simpl. destruct (decide (b = m_next m)) as [->|].
  - intros _. lia.
  - rewrite lookup_insert_ne by done. intros ?%Hm. lia.
Qed.

Lemma store_ok m p bs n : memory_ok m -> valid_range m p n -> memory_ok (store m p bs).
Proof.
  intros Hm (_ & _ & blk & Hb & _) b bs'. simpl. destruct (decide (b = p_block p)) as [->|].
  - intros _. by eapply Hm.
  - rewrite lookup_insert_ne by done. apply Hm.
Qed.

Lemma free_block_ok p m : memory_ok m -> memory_ok (free_block p m).
Proof. intros Hm b bs. simpl. rewrite lookup_delete_Some. intros [_ ?]. by eapply Hm. Qed.

Lemma operator_new_valid size m :
  0 <= size -> valid_range (operator_new size m).2 (operator_new size m).1 size.
Proof.
  intros. split; [done|]. simpl. split; [done|]. eexists. rewrite lookup_insert_eq.
  split; [done|]. unfold len. rewrite length_replicate. lia.
Qed.

Lemma operator_new_block size m b bs :
  memory_ok m -> m_blocks m !! b = Some bs -> m_blocks (operator_new size m).2 !! b = Some bs.
Proof.
  intros Hm Hb. simpl. rewrite lookup_insert_ne; [done|]. apply Hm in Hb. lia.
Qed.

Lemma load_block_eq m m' p n :
  m_blocks m !! p_block p = m_blocks m' !! p_block p -> load m p n = load m' p n.
Proof. intros E. unfold load, block. by rewrite E. Qed.

Lemma valid_range_block_eq m m' p n :
  m_blocks m !! p_block p = m_blocks m' !! p_block p -> valid_range m p n -> valid_range m' p n.
Proof. intros E. unfold valid_range. by rewrite E. Qed.

#[export] Hint Resolve empty_memory_ok operator_new_ok free_block_ok store_ok store_valid
  valid_range_sub : xtd.

(** ** Which blocks are allocated *)

(** Every allocated block is listed in [bs]. *)
Definition owned (m : memory) (bs : list N) : Prop :=
  forall b, is_Some (m_blocks m !! b) -> b ∈ bs.

Lemma owned_layout m m' bs : same_layout m m' -> owned m bs -> owned m' bs.
Proof.
  intros [_ Hl] Ho b [x E]. apply Ho. specialize (Hl b). rewrite E in Hl.
  destruct (m_blocks m !! b); [by eexists|done].
Qed.

Lemma owned_new size m bs : owned m bs -> owned (operator_new size m).2 (bs ++ [m_next m]).
Proof.
  intros Ho b [x E]. simpl in E. apply elem_of_app. destruct (decide (b = m_next m)) as [->|Hne].
  - right. by left.
  - rewrite lookup_insert_ne in E by done. left. apply Ho. by eexists.
Qed.

Lemma owned_free p m bs : owned m (p_block p :: bs) -> owned (free_block p m) bs.
Proof.
  intros Ho b [x E]. simpl in E. apply lookup_delete_Some in E as [Hne E].
  assert (b ∈ p_block p :: bs) as [->|]%elem_of_cons by (apply Ho; by eexists); done.
Qed.

Lemma owned_perm m bs bs' : bs ≡ₚ bs' -> owned m bs -> owned m bs'.
Proof. intros Hp Ho b Hb. rewrite <- Hp. by apply Ho. Qed.

Lemma owned_nil m : owned m [] -> m_blocks m = ∅.
Proof.
  intros Ho. apply map_empty. intros b. destruct (m_blocks m !! b) eqn:E; [|done].
  assert (b ∈ []) by (apply Ho; by eexists). set_solver.
Qed.

(** Giving back every block of a list. *)
Fixpoint delete_all (ps : list ptr) (m : memory) : outcome memory :=
  match ps with
  | [] => Ret m
  | p :: ps => m' ← operator_delete p m; delete_all ps m'
  end.

Lemma delete_all_owned ps m :
  Forall (fun p => p_off p = 0 /\ is_Some (m_blocks m !! p_block p)) ps -> NoDup (p_block <$> ps) ->
  owned m (p_block <$> ps) -> exists m', delete_all ps m = Ret m' /\ m_blocks m' = ∅.
Proof.
  revert m. induction ps as [|p ps IH]; intros m Hv Hnd Ho; cbn [delete_all].
  { eexists. split; [done|by apply owned_nil]. }
  apply Forall_cons in Hv as [[Hp0 Hp] Hv]. apply NoDup_cons in Hnd as [Hnin Hnd].
  rewrite operator_delete_ret by done. apply IH; [|done|by apply owned_free].
  apply Forall_forall. intros q Hq. rewrite Forall_forall in Hv. destruct (Hv q Hq) as [Hq0 Hqb]. split; [done|].
  simpl. rewrite lookup_delete_ne; [done|]. intros E. apply Hnin. rewrite E. by apply list_elem_of_fmap_2.
Qed.
