(* ===== verification/Text.v ===== *)
(** Text the way the C++ standard library handles it, as far as the program
    uses it: character classes of the C locale, the searches of
    [std::string_view], numbers in decimal and hexadecimal, [std::stoi] and
    the replacement fields of [std::format] that occur in the source. *)

From S2P Require Import Prelude.

Definition code (b : byte) : Z := Z.of_N (Byte.to_N b).
Definition char_of (z : Z) : byte := default x00 (Byte.of_N (Z.to_N z)).

Lemma code_range b : 0 <= code b < 256.
Proof. destruct b; vm_compute; split; congruence. Qed.

Lemma char_of_code b : char_of (code b) = b.
Proof. by destruct b. Qed.

Lemma code_char_of z : 0 <= z < 256 -> code (char_of z) = z.
Proof.
  intros H. unfold code, char_of. destruct (Byte.of_N (Z.to_N z)) as [b|] eqn:E.
  - apply Byte.to_of_N in E. simpl. rewrite E. lia.
  - apply Byte.of_N_None_iff in E. lia.
Qed.

Lemma code_inj a b : code a = code b -> a = b.
Proof. intros H. rewrite <- (char_of_code a), <- (char_of_code b). by f_equal. Qed.

(** ** [<cctype>], in the C locale *)

Definition isspace (b : byte) : bool := (code b =? 32) || ((9 <=? code b) && (code b <=? 13)).
Definition isdigit (b : byte) : bool := (48 <=? code b) && (code b <=? 57).
Definition tolower (b : byte) : byte :=
  if (65 <=? code b) && (code b <=? 90) then char_of (code b + 32) else b.

(** ** [std::string_view] *)

(** [find_first_not_of] and [find_last_not_of], for a set of characters
    given by its membership test; [None] is [npos]. *)
Fixpoint find_first_not (f : byte -> bool) (l : bytes) : option nat :=
  match l with
  | [] => None
  | x :: l => if f x then S <$> find_first_not f l else Some O
  end.

Fixpoint find_last_not (f : byte -> bool) (l : bytes) : option nat :=
  match l with
  | [] => None
  | x :: l =>
      match find_last_not f l with
      | Some i => Some (S i)
      | None => if f x then None else Some O
      end
  end.

(** [substr(pos, count)] with [pos <= size()]. *)
Definition substr (l : bytes) (pos count : nat) : bytes := take count (drop pos l).

(** [dropWhile]: what [find_first_not] leaves. *)
Fixpoint drop_while (f : byte -> bool) (l : bytes) : bytes :=
  match l with
  | [] => []
  | x :: l' => if f x then drop_while f l' else l
  end.

Fixpoint take_until (f : byte -> bool) (l : bytes) : bytes :=
  match l with
  | [] => []
  | x :: l' => if f x then [] else x :: take_until f l'
  end.

(** Lists of texts with a separator between them. *)
Fixpoint join_with (sep : byte) (ls : list bytes) : bytes :=
  match ls with
  | [] => []
  | [l] => l
  | l :: ls => l ++ sep :: join_with sep ls
  end.

Lemma join_snoc sep ls l : ls ≠ [] -> join_with sep (ls ++ [l]) = join_with sep ls ++ sep :: l.
Proof.
  induction ls as [|x ls IH]; [done|]. intros _. destruct ls as [|y ls]; [done|].
  change ((x :: y :: ls) ++ [l]) with (x :: (y :: ls) ++ [l]). cbn [join_with app] in *.
  rewrite IH by done. by rewrite <- app_assoc.
Qed.

(** ** Numbers *)

Definition digit (d : Z) : byte := char_of (if d <? 10 then 48 + d else 87 + d).

Fixpoint digits (base : Z) (fuel : nat) (n : Z) (acc : bytes) : bytes :=
  match fuel with
  | O => acc
  | S fuel =>
      let acc := digit (n mod base) :: acc in
      if n / base =? 0 then acc else digits base fuel (n / base) acc
  end.

(** A non-negative number; the fuel is its number of binary digits. *)
Definition to_base (base n : Z) : bytes := digits base (S (Z.to_nat (Z.log2 n))) n [].

(** [std::to_string], and ["{}"] on an integer. *)
Definition to_decimal (n : Z) : bytes :=
  if n <? 0 then x2d :: to_base 10 (- n) else to_base 10 n.

(** The number a run of decimal digits denotes. *)
Fixpoint decimal_value (l : bytes) (acc : Z) : Z :=
  match l with
  | [] => acc
  | x :: l => decimal_value l (acc * 10 + (code x - 48))
  end.

Fixpoint take_digits (l : bytes) : bytes :=
  match l with
  | [] => []
  | x :: l => if isdigit x then x :: take_digits l else []
  end.

Definition int_min : Z := - 2147483648.
Definition int_max : Z := 2147483647.

(** An optional sign and what follows it. *)
Definition scan_sign (l : bytes) : Z * bytes :=
  match l with
  | c :: r => if Byte.eqb c x2b then (1, r) else if Byte.eqb c x2d then (-1, r) else (1, l)
  | [] => (1, l)
  end.

(** [std::stoi(value, &parsed)]: the number and the count of characters
    taken (blanks, an optional sign, digits). *)
Definition stoi (value : bytes) : outcome (Z * Z) :=
  let '(sign, signless) := scan_sign (drop_while isspace value) in
  let ds := take_digits signless in
  if len ds =? 0 then throw invalid_argument "stoi"
  else
    let n := sign * decimal_value ds 0 in
    if (n <? int_min) || (n >? int_max) then throw out_of_range "stoi"
    else Ret (n, len value - len signless + len ds).

(** ** [std::format] *)

Inductive format_arg :=
  | Str (s : bytes)
  | Int (n : Z).

(** Zero padding on the left to [width] characters, after the sign. *)
Definition zero_pad (width : nat) (negative : bool) (ds : bytes) : bytes :=
  let ds' := replicate (width - length ds - (if negative then 1 else 0)) x30 ++ ds in
  if negative then x2d :: ds' else ds'.

Definition upper_hex (b : byte) : byte :=
  if (97 <=? code b) && (code b <=? 102) then char_of (code b - 32) else b.

(** One replacement field with the specification [spec]. *)
Definition format_field (spec : bytes) (a : format_arg) : bytes :=
  match a with
  | Str s => s
  | Int n =>
      if bool_decide (spec = text ":06") then zero_pad 6 (n <? 0) (to_base 10 (Z.abs n))
      else if bool_decide (spec = text ":04x") then zero_pad 4 (n <? 0) (to_base 16 (Z.abs n))
      else if bool_decide (spec = text ":X") then map upper_hex (to_base 16 n)
      else to_decimal n
  end.

(** [field] is the specification read so far, reversed, inside a field. *)
Fixpoint format_loop (fmt : bytes) (args : list format_arg) (field : option bytes) : bytes :=
  match fmt with
  | [] => []
  | c :: rest =>
      match field with
      | Some spec =>
          if bool_decide (c = x7d) then
            match args with
            | a :: args => format_field (reverse spec) a ++ format_loop rest args None
            | [] => format_loop rest [] None
            end
          else format_loop rest args (Some (c :: spec))
      | None =>
          if bool_decide (c = x7b) then
            match rest with
            | x7b :: rest' => x7b :: format_loop rest' args None
            | _ => format_loop rest args (Some [])
            end
          else if bool_decide (c = x7d) then
            match rest with
            | x7d :: rest' => x7d :: format_loop rest' args None
            | _ => x7d :: format_loop rest args None
            end
          else c :: format_loop rest args None
      end
  end.

Definition format (fmt : string) (args : list format_arg) : bytes :=
  format_loop (text fmt) args None.

(** ** Lemmas *)

Lemma decimal_value_app l k acc : decimal_value (l ++ k) acc = decimal_value k (decimal_value l acc).
Proof. revert acc. induction l as [|x l IH]; intros acc; [done|]. simpl. apply IH. Qed.

Lemma decimal_value_acc l acc :
  decimal_value l acc = acc * 10 ^ len l + decimal_value l 0.
Proof.
  revert acc. induction l as [|x l IH]; intros acc; [simpl; unfold len; simpl; lia|].
  simpl. rewrite IH, (IH (0 * 10 + _)), len_cons. rewrite Z.pow_add_r by (pose proof (len_nonneg l); lia). lia.
Qed.

Lemma code_digit d : 0 <= d < 10 -> code (digit d) = 48 + d.
Proof. intros H. unfold digit. destruct (Z.ltb_spec d 10); [|lia]. apply code_char_of. lia. Qed.

Lemma isdigit_digit d : 0 <= d < 10 -> isdigit (digit d) = true.
Proof. intros H. unfold isdigit. rewrite code_digit by done. lia. Qed.

(** [digits 10] writes a number whose value is the one it was given. *)
Lemma digits_spec fuel n acc :
  0 <= n < 2 ^ Z.of_nat fuel -> (1 <= fuel)%nat ->
  exists ds, digits 10 fuel n acc = ds ++ acc /\ ds ≠ [] /\
    Forall (fun x => isdigit x = true) ds /\ decimal_value ds 0 = n /\ (n ≠ 0 -> head ds ≠ Some x30).
Proof.
  revert n acc. induction fuel as [|fuel IH]; intros n acc Hn Hf; [lia|].
  pose proof (Z.mod_pos_bound n 10 ltac:(lia)) as Hm. pose proof (Z.div_mod n 10 ltac:(lia)) as Hd.
  cbn [digits]. destruct (Z.eqb_spec (n / 10) 0) as [E|E].
  - exists [digit (n mod 10)]. split_and!; [done|done| | |].
    + apply Forall_singleton, isdigit_digit. lia.
    + cbn [decimal_value]. rewrite code_digit by lia. lia.
    + intros Hn0 [= E0]. apply (f_equal code) in E0. rewrite code_digit in E0 by lia.
      change (code x30) with 48 in E0. lia.
  - assert (0 < n / 10) as Hpos by (pose proof (Z.div_pos n 10); lia).
    assert (n / 10 < 2 ^ Z.of_nat fuel) as Hlt.
    { rewrite Nat2Z.inj_succ, Z.pow_succ_r in Hn by lia. apply Z.div_lt_upper_bound; lia. }
    destruct (IH (n / 10) (digit (n mod 10) :: acc)) as (ds & Eds & Hne & Hall & Hv & Hz).
    { lia. }
    { destruct fuel; [simpl in Hlt; lia|lia]. }
    exists (ds ++ [digit (n mod 10)]). split_and!.
    + by rewrite Eds, <- app_assoc.
    + by destruct ds.
    + apply Forall_app. split; [done|]. apply Forall_singleton, isdigit_digit. lia.
    + rewrite decimal_value_app, Hv. cbn [decimal_value]. rewrite code_digit by lia. lia.
    + intros _. destruct ds; [done|]. apply Hz. lia.
Qed.

Lemma to_decimal_spec n :
  0 <= n ->
  to_decimal n ≠ [] /\ Forall (fun x => isdigit x = true) (to_decimal n) /\ decimal_value (to_decimal n) 0 = n /\
  (n ≠ 0 -> head (to_decimal n) ≠ Some x30).
Proof.
  intros Hn. unfold to_decimal, to_base. destruct (Z.ltb_spec n 0); [lia|].
  destruct (digits_spec (S (Z.to_nat (Z.log2 n))) n []) as (ds & E & Hne & Hall & Hv & Hz); [|lia|].
  - split; [done|]. pose proof (Z.log2_nonneg n). rewrite Nat2Z.inj_succ, Z2Nat.id by done.
    destruct (decide (n = 0)) as [->|]; [done|]. apply Z.log2_spec. lia.
  - rewrite E, app_nil_r. by split_and!.
Qed.

Lemma take_digits_app l r :
  Forall (fun x => isdigit x = true) l -> take_digits (l ++ r) = l ++ take_digits r.
Proof. induction 1 as [|x l Hx _ IH]; [done|]. simpl. by rewrite Hx, IH. Qed.

(** [stoi] reads back what [to_string] writes. *)
Lemma stoi_to_decimal n :
  0 <= n <= int_max -> stoi (to_decimal n) = Ret (n, len (to_decimal n)).
Proof.
  intros Hn. destruct (to_decimal_spec n ltac:(lia)) as (Hne & Hall & Hv & _). unfold stoi.
  destruct (to_decimal n) as [|x ds] eqn:E; [done|]. rewrite <- E in *.
  assert (isdigit x = true) as Hx by (rewrite E in Hall; by apply Forall_cons in Hall as [? _]).
  assert (drop_while isspace (to_decimal n) = to_decimal n) as ->.
  { rewrite E. simpl. unfold isdigit, isspace in *.
    by replace (_ || _) with false by (clear -Hx; lia). }
  assert (scan_sign (to_decimal n) = (1, to_decimal n)) as -> by (rewrite E; by destruct x).
  assert (take_digits (to_decimal n) = to_decimal n) as ->.
  { rewrite <- (app_nil_r (to_decimal n)) at 1. rewrite take_digits_app by done. simpl. by rewrite app_nil_r. }
  destruct (Z.eqb_spec (len (to_decimal n)) 0) as [E0|]; [by apply len_nil_iff in E0|].
  rewrite Hv. unfold int_max, int_min in *.
  destruct (Z.ltb_spec (1 * n) (-2147483648)); [lia|]. destruct (Z.gtb_spec (1 * n) 2147483647); [lia|].
  simpl. f_equal. f_equal; lia.
Qed.

Lemma drop_while_find f l :
  drop_while f l = match find_first_not f l with None => [] | Some i => drop i l end.
Proof. induction l as [|x l IH]; [done|]. simpl. destruct (f x); [|done]. rewrite IH. by destruct (find_first_not f l). Qed.

Lemma find_last_not_app f l k :
  find_last_not f (l ++ k) =
  match find_last_not f k with
  | Some i => Some (length l + i)%nat
  | None => find_last_not f l
  end.
Proof.
  induction l as [|x l IH]; simpl; [by destruct (find_last_not f k)|].
  rewrite IH. destruct (find_last_not f k); [done|]. done.
Qed.

Lemma find_last_not_lt f l i : find_last_not f l = Some i -> (i < length l)%nat.
Proof.
  revert i. induction l as [|y l IH]; intros i E; [done|]. simpl in E.
  destruct (find_last_not f l) as [j|]; simplify_eq/=; [specialize (IH j eq_refl); lia|].
  destruct (f y); simplify_eq/=. lia.
Qed.

Lemma reverse_drop_while_find f l :
  reverse (drop_while f (reverse l)) =
  match find_last_not f l with None => [] | Some i => take (S i) l end.
Proof.
  induction l as [|x l IH] using rev_ind; [done|].
  rewrite reverse_snoc, find_last_not_app. cbn [drop_while find_last_not]. destruct (f x).
  - rewrite IH. destruct (find_last_not f l) as [i|] eqn:E; [|done].
    rewrite take_app_le; [done|]. by eapply find_last_not_lt.
  - rewrite reverse_cons, reverse_involutive, take_ge; [done|]. rewrite length_app. simpl. lia.
Qed.

Lemma take_until_find f l :
  take_until f l = match find_first_not (fun x => negb (f x)) l with None => l | Some i => take i l end.
Proof.
  induction l as [|x l IH]; [done|]. simpl. destruct (f x); [done|]. simpl. rewrite IH.
  by destruct (find_first_not (fun x => negb (f x)) l).
Qed.

(** A number below [10^k] has at most [k] digits. *)
Lemma digits_length k fuel n acc :
  0 <= n < 10 ^ Z.of_nat k -> (1 <= k)%nat -> (length (digits 10 fuel n acc) <= k + length acc)%nat.
Proof.
  revert k n acc. induction fuel as [|fuel IH]; intros k n acc Hn Hk; cbn [digits]; [lia|].
  destruct (Z.eqb_spec (n / 10) 0) as [|Hq]; [cbn [length]; lia|].
  destruct k as [|[|k]]; [lia| |].
  - exfalso. apply Hq, Z.div_small. cbn in Hn. lia.
  - rewrite Nat2Z.inj_succ, Z.pow_succ_r in Hn by lia.
    pose proof (IH (S k) (n / 10) (digit (n mod 10) :: acc)) as H. cbn [length] in H.
    enough (length (digits 10 fuel (n / 10) (digit (n mod 10) :: acc)) <= S k + S (length acc))%nat by lia.
    apply H; [|lia]. split; [apply Z.div_pos; lia|]. apply Z.div_lt_upper_bound; lia.
Qed.

Lemma to_decimal_length k n :
  0 <= n < 10 ^ Z.of_nat k -> (1 <= k)%nat -> (length (to_decimal n) <= k)%nat.
Proof.
  intros Hn Hk. unfold to_decimal. destruct (Z.ltb_spec n 0); [lia|]. unfold to_base.
  pose proof (digits_length k (S (Z.to_nat (Z.log2 n))) n [] Hn Hk) as Hd. cbn [length] in Hd. lia.
Qed.
