(* ===== verification/System.v ===== *)
(** The operating system as the program sees it: the answers of the system
    calls, given one by one as a list.  The list ends where the observation
    ends: a call without an answer has not returned yet.  What the answers
    may be (a [write] reports at most what it was offered) is a hypothesis of
    the theorems, [answer_within]. *)

From S2P Require Import Prelude.

Inductive errno_t := EINTR | EAGAIN | EOTHER (code : Z).

Inductive sys_result :=
  | SysOk (n : Z)
  | SysErr (e : errno_t).

#[export] Instance errno_eq_decision : EqDecision errno_t.
Proof. solve_decision. Defined.
#[export] Instance sys_result_eq_decision : EqDecision sys_result.
Proof. solve_decision. Defined.

(** How a loop of calls stands after the answers it was given. *)
Inductive loop_state (A : Type) :=
  | LoopDone (a : A)
  | LoopBlocked. (* in a call that has not returned *)
Arguments LoopDone {A} a.
Arguments LoopBlocked {A}.

(** What [write] and [send] may answer to a request for [size] bytes. *)
Definition answer_within (size : Z) (r : sys_result) : Prop :=
  match r with SysOk n => 0 <= n <= size | SysErr _ => True end.

(** An answer after which a loop over [write] or [send] is closer to its end. *)
Definition progress (r : sys_result) : bool :=
  match r with SysOk n => 0 <? n | SysErr _ => false end.

(** An answer after which such a loop goes on. *)
Definition retried (r : sys_result) : bool :=
  match r with SysOk n => 0 <? n | SysErr EINTR => true | SysErr _ => false end.

(** The answers to the calls of a loop that offers the rest of [remaining]
    bytes each time. *)
Fixpoint answers_within (remaining : Z) (answers : list sys_result) : Prop :=
  match answers with
  | [] => True
  | SysOk n :: rest => 0 <= n <= remaining /\ answers_within (remaining - n) rest
  | SysErr _ :: rest => answers_within remaining rest
  end.

(** The number of answers that made progress. *)
Definition progress_count (answers : list sys_result) : Z := Z.of_nat (countb progress answers).

Lemma progress_count_cons r answers :
  progress_count (r :: answers) = (if progress r then 1 else 0) + progress_count answers.
Proof. unfold progress_count. simpl. destruct (progress r); lia. Qed.

Lemma progress_count_nil : progress_count [] = 0.
Proof. done. Qed.

(** The bytes the answers report in all. *)
Fixpoint taken_total (answers : list sys_result) : Z :=
  match answers with
  | [] => 0
  | SysOk n :: rest => n + taken_total rest
  | SysErr _ :: rest => taken_total rest
  end.

(** The kernel takes every request of a loop in the end, in pieces or
    interrupted. *)
Definition serves (size : Z) (answers : list sys_result) : Prop :=
  answers_within size answers /\ Forall (fun r => retried r = true) answers /\ taken_total answers = size.

(** What [::recv] and [::read] answer. *)
Inductive recv_result :=
  | RecvData (data : bytes) (* [[]] is the end of the stream *)
  | RecvError (e : errno_t).
