(* ===== verification/Position.v ===== *)
(** [xtd::position] (src/pipeline/position.h): the absolute offset of a byte
    in a pipeline snapshot, with a flag that tells a search hit from a miss. *)

From S2P Require Import Prelude.

Record position := Position { m_offset : Z; found : bool }.

(** [position{offset}] and [position{}]. *)
Definition position_at (offset : Z) : position := Position offset true.
Definition position_none : position := Position 0 false.

(** [explicit operator bool] and [operator()]. *)
Definition position_bool (p : position) : bool := found p.
Definition position_call (p : position) : bool := found p.

Definition sequence_offset (p : position) : Z := m_offset p.

(** [operator+], [operator-]: the result is always a found position. *)
Definition position_add (p : position) (offset : Z) : position :=
  position_at (m_offset p +! offset).
Definition position_sub (p : position) (offset : Z) : position :=
  position_at (m_offset p -! offset).

(** [operator+=], [operator-=]: the flag is kept. *)
Definition position_add_assign (p : position) (offset : Z) : position :=
  Position (m_offset p +! offset) (found p).
Definition position_sub_assign (p : position) (offset : Z) : position :=
  Position (m_offset p -! offset) (found p).

(** [++p], [--p]. *)
Definition position_pre_inc (p : position) : position :=
  Position (m_offset p +! 1) (found p).
Definition position_pre_dec (p : position) : position :=
  Position (m_offset p -! 1) (found p).

(** [p++], [p--]: the returned value and the new state of [p]. *)
Definition position_post_inc (p : position) : position * position :=
  let previous := p in (previous, position_pre_inc p).
Definition position_post_dec (p : position) : position * position :=
  let previous := p in (previous, position_pre_dec p).

Definition position_eqb (p q : position) : bool := m_offset p =? m_offset q.
Definition position_neb (p q : position) : bool := negb (position_eqb p q).
Definition position_gtb (p q : position) : bool := m_offset p >? m_offset q.
Definition position_ltb (p q : position) : bool := m_offset p <? m_offset q.
Definition position_geb (p q : position) : bool := m_offset p >=? m_offset q.
Definition position_leb (p q : position) : bool := m_offset p <=? m_offset q.

#[export] Instance position_eq_decision : EqDecision position.
Proof. solve_decision. Defined.

Definition position_ok (p : position) : Prop := is_size (m_offset p).

(** ** [operator==] compares offsets only: it is an equivalence coarser than
    equality, and every operator respects it. *)

#[export] Instance position_equiv : Equiv position := fun p q => position_eqb p q = true.

Lemma position_equiv_iff p q : p ≡ q <-> m_offset p = m_offset q.
Proof. apply Z.eqb_eq. Qed.

#[export] Instance position_equivalence : Equivalence (≡@{position}).
Proof.
  split.
  - intros p. by apply position_equiv_iff.
  - intros p q. rewrite !position_equiv_iff. congruence.
  - intros p q r. rewrite !position_equiv_iff. congruence.
Qed.

#[export] Instance position_add_proper : Proper ((≡) ==> eq ==> (≡)) position_add.
Proof. intros p q H n ? <-. rewrite position_equiv_iff in *. simpl. by rewrite H. Qed.
#[export] Instance position_sub_proper : Proper ((≡) ==> eq ==> (≡)) position_sub.
Proof. intros p q H n ? <-. rewrite position_equiv_iff in *. simpl. by rewrite H. Qed.
#[export] Instance position_pre_inc_proper : Proper ((≡) ==> (≡)) position_pre_inc.
Proof. intros p q H. rewrite position_equiv_iff in *. simpl. by rewrite H. Qed.
#[export] Instance position_pre_dec_proper : Proper ((≡) ==> (≡)) position_pre_dec.
Proof. intros p q H. rewrite position_equiv_iff in *. simpl. by rewrite H. Qed.
#[export] Instance position_ltb_proper : Proper ((≡) ==> (≡) ==> eq) position_ltb.
Proof. intros p q H r s K. rewrite !position_equiv_iff in *. unfold position_ltb. by rewrite H, K. Qed.
#[export] Instance position_leb_proper : Proper ((≡) ==> (≡) ==> eq) position_leb.
Proof. intros p q H r s K. rewrite !position_equiv_iff in *. unfold position_leb. by rewrite H, K. Qed.
#[export] Instance sequence_offset_proper : Proper ((≡) ==> eq) sequence_offset.
Proof. intros p q H. by apply position_equiv_iff. Qed.

(** ** Arithmetic *)

Lemma position_step_defs p :
  position_pre_inc p = position_add_assign p 1 /\ position_pre_dec p = position_sub_assign p 1.
Proof. done. Qed.

(** Moving forward and back by the same distance returns to the same byte,
    wrap-around included; the increments are the unit moves; the comparison
    operators are the total order of the offsets. *)
Theorem position_arith p q n (Hp : position_ok p) (Hq : position_ok q) :
  position_sub (position_add p n) n ≡ p /\
  position_add (position_sub p n) n ≡ p /\
  position_pre_dec (position_pre_inc p) = p /\
  position_pre_inc (position_pre_dec p) = p /\
  position_post_inc p = (p, position_pre_inc p) /\
  position_pre_inc p ≡ position_add p 1 /\
  position_ok (position_add p n) /\
  (p ≡ q <-> position_leb p q = true /\ position_geb p q = true) /\
  position_ltb p q = negb (position_geb p q) /\
  position_gtb p q = negb (position_leb p q).
Proof.
  rewrite !position_equiv_iff. unfold position_pre_dec, position_pre_inc,
    position_leb, position_geb, position_ltb, position_gtb. simpl.
  rewrite wrap_add_sub, wrap_sub_add, wrap_add_sub, wrap_sub_add by done.
  destruct p, q. simpl in *. unfold position_ok in *. simpl in *.
  split_and!; try done; auto with xtd; lia.
Qed.

Lemma position_arith_witness :
  position_sub (position_add (position_at 5) 7) 7 ≡ position_at 5 /\
  position_add (position_sub (position_at 5) 7) 7 ≡ position_at 5 /\
  position_pre_dec (position_pre_inc (position_at 5)) = position_at 5 /\
  position_pre_inc (position_pre_dec (position_at 5)) = position_at 5 /\
  position_post_inc (position_at 5) = (position_at 5, position_pre_inc (position_at 5)) /\
  position_pre_inc (position_at 5) ≡ position_add (position_at 5) 1 /\
  position_ok (position_add (position_at 5) 7) /\
  (position_at 5 ≡ position_none <->
     position_leb (position_at 5) position_none = true /\ position_geb (position_at 5) position_none = true) /\
  position_ltb (position_at 5) position_none = negb (position_geb (position_at 5) position_none) /\
  position_gtb (position_at 5) position_none = negb (position_leb (position_at 5) position_none).
Proof. exact (position_arith (position_at 5) position_none 7 ltac:(by split) ltac:(by split)). Defined.
