(* ===== verification/ByteView.v ===== *)
(** [xtd::segmented_byte_view] (src/pipeline/segmented_byte_view.h): a
    non-owning sequence of spans read as one sequence of bytes.  Slicing only
    moves pointers; indexing, searching and copying read the byte store.
    The reference meaning of a view is [view_bytes], the concatenation of its
    spans; every operation is proved equal to the list operation on it. *)

From S2P Require Import Prelude Memory Position.

(** ** The standard-library searches the code calls *)

Fixpoint find_index (f : byte -> bool) (l : bytes) : option nat :=
  match l with
  | [] => None
  | x :: l => if f x then Some 0%nat else S <$> find_index f l
  end.

(** [std::memchr] and [std::ranges::find_first_of], as offsets. *)
Definition memchr (l : bytes) (target : byte) : option nat :=
  find_index (fun x => bool_decide (x = target)) l.
Definition find_first_of (l values : bytes) : option nat :=
  find_index (fun x => bool_decide (x ∈ values)) l.

Fixpoint starts_with (l pat : bytes) {struct pat} : bool :=
  match pat, l with
  | [], _ => true
  | p :: pat, x :: l => bool_decide (x = p) && starts_with l pat
  | _ :: _, [] => false
  end.

(** [std::ranges::search]: the first occurrence of a non-empty pattern. *)
Fixpoint search (l pat : bytes) : option nat :=
  match l with
  | [] => None
  | x :: l' => if starts_with l pat then Some 0%nat else S <$> search l' pat
  end.

(** The bytes of consecutive spans ([m_segments | std::views::join]). *)
Fixpoint spans_bytes (m : memory) (segments : list span) : bytes :=
  match segments with
  | [] => []
  | segment :: rest => span_bytes m segment ++ spans_bytes m rest
  end.

(** ** Data *)

Record from_end := FromEnd { fe_offset : Z }.

Record segmented_byte_view := View {
  m_segments : list span;
  m_begin_offset : Z;
  m_size : Z
}.

Record slice_range := SliceRange { range_begin : Z; range_end : Z }.

(** [segmented_byte_view(segments&&, size)] and [segmented_byte_view()]. *)
Definition view_of_segments (segments : list span) (size : Z) : segmented_byte_view :=
  View segments 0 size.
Definition empty_view : segmented_byte_view := View [] 0 0.

Section operations.
Implicit Types v : segmented_byte_view.

Definition end_offset v : Z := m_begin_offset v +! m_size v.

Definition view_begin v : position := position_at (m_begin_offset v).
Definition view_end v : position := position_at (end_offset v).
Definition is_single_segment v : bool := len (m_segments v) =? 1.
Definition view_size v : Z := m_size v.
Definition view_empty v : bool := m_size v =? 0.
Definition segment_count v : Z := len (m_segments v).
Definition view_segments v : list span := m_segments v.

(** ** Slicing *)

Definition validate_slice_range v (slice_begin slice_end : Z) : outcome unit :=
  if slice_begin >? slice_end then
    throw out_of_range "slice begin must be <= slice end"
  else if negb ((slice_begin >=? m_begin_offset v) && (slice_begin <=? end_offset v)) then
    throw out_of_range "slice begin is out of range"
  else if negb ((slice_end >=? m_begin_offset v) && (slice_end <=? end_offset v)) then
    throw out_of_range "slice end is out of range"
  else Ret tt.

Definition validate_relative_slice v (begin_offset size : Z) : outcome unit :=
  if begin_offset >? m_size v then
    throw out_of_range "slice begin offset is out of range"
  else if size >? (m_size v -! begin_offset) then
    throw out_of_range "slice size is out of range"
  else Ret tt.

(** The four [resolve_slice_range] overloads, by their parameters. *)
Definition resolve_slice_range_end v (e : position) : outcome slice_range :=
  Ret (SliceRange (m_begin_offset v) (sequence_offset e)).

Definition resolve_slice_range v (b e : position) : outcome slice_range :=
  Ret (SliceRange (sequence_offset b) (sequence_offset e)).

Definition resolve_slice_range_from v (begin_offset : Z) (e : position) : outcome slice_range :=
  if begin_offset >? m_size v then
    throw out_of_range "slice begin offset is out of range"
  else Ret (SliceRange (m_begin_offset v +! begin_offset) (sequence_offset e)).

Definition resolve_slice_range_size v (begin_offset size : Z) : outcome slice_range :=
  _ ← validate_relative_slice v begin_offset size;
  let absolute_begin := m_begin_offset v +! begin_offset in
  Ret (SliceRange absolute_begin (absolute_begin +! size)).

(** The loop of [make_slice_segments]. *)
Fixpoint slice_segments (segments : list span) (segment_begin slice_begin slice_end : Z) : list span :=
  match segments with
  | [] => []
  | segment :: rest =>
      let segment_end := segment_begin +! s_size segment in
      if segment_end <=? slice_begin then slice_segments rest segment_end slice_begin slice_end
      else if segment_begin >=? slice_end then []
      else
        let overlap_begin := Z.max segment_begin slice_begin in
        let overlap_end := Z.min segment_end slice_end in
        subspan_n segment (overlap_begin -! segment_begin) (overlap_end -! overlap_begin)
        :: slice_segments rest segment_end slice_begin slice_end
  end.

Definition make_slice_segments v (slice_begin slice_end : Z) : outcome (list span) :=
  _ ← validate_slice_range v slice_begin slice_end;
  if slice_begin =? slice_end then Ret []
  else Ret (slice_segments (m_segments v) (m_begin_offset v) slice_begin slice_end).

(** [slice_in_place_absolute]: the new value of [*this], or the exception
    that leaves it unchanged. *)
Definition slice_in_place_absolute v (range : slice_range) : outcome segmented_byte_view :=
  segments ← make_slice_segments v (range_begin range) (range_end range);
  Ret (View segments (range_begin range) (range_end range -! range_begin range)).

(** [segmented_byte_view(source, range)]. *)
Definition view_of_slice (source : segmented_byte_view) (range : slice_range)
    : outcome segmented_byte_view :=
  segments ← make_slice_segments source (range_begin range) (range_end range);
  Ret (View segments (range_begin range) (range_end range -! range_begin range)).

Definition slice_end v (e : position) : outcome segmented_byte_view :=
  range ← resolve_slice_range_end v e; view_of_slice v range.
Definition slice v (b e : position) : outcome segmented_byte_view :=
  range ← resolve_slice_range v b e; view_of_slice v range.
Definition slice_from v (begin_offset : Z) (e : position) : outcome segmented_byte_view :=
  range ← resolve_slice_range_from v begin_offset e; view_of_slice v range.
Definition slice_size v (begin_offset size : Z) : outcome segmented_byte_view :=
  range ← resolve_slice_range_size v begin_offset size; view_of_slice v range.

Definition slice_in_place_end v (e : position) : outcome segmented_byte_view :=
  range ← resolve_slice_range_end v e; slice_in_place_absolute v range.
Definition slice_in_place v (b e : position) : outcome segmented_byte_view :=
  range ← resolve_slice_range v b e; slice_in_place_absolute v range.
Definition slice_in_place_from v (begin_offset : Z) (e : position) : outcome segmented_byte_view :=
  range ← resolve_slice_range_from v begin_offset e; slice_in_place_absolute v range.
Definition slice_in_place_size v (begin_offset size : Z) : outcome segmented_byte_view :=
  range ← resolve_slice_range_size v begin_offset size; slice_in_place_absolute v range.

(** ** Reading: [m] is the byte store. *)
Section reading.
Context (m : memory).

(** [segment[i]]; out of the span it is undefined. *)
Definition span_at (s : span) (i : Z) : outcome byte :=
  match span_bytes m s !! Z.to_nat i with
  | Some b => Ret b
  | None => Undef
  end.

Fixpoint index_from_end (reversed : list span) (remaining : Z) : outcome byte :=
  match reversed with
  | [] => Undef (* std::unreachable() *)
  | segment :: rest =>
      if remaining <? s_size segment then span_at segment (s_size segment -! 1 -! remaining)
      else index_from_end rest (remaining -! s_size segment)
  end.

Definition at_from_end v (fe : from_end) : outcome byte :=
  if negb ((fe_offset fe >? 0) && (fe_offset fe <=? m_size v)) then
    throw out_of_range "from_end offset is out of range"
  else index_from_end (reverse (m_segments v)) (fe_offset fe -! 1).

Fixpoint index_segments (segments : list span) (segment_begin index : Z) : outcome byte :=
  match segments with
  | [] => Undef (* std::unreachable() *)
  | segment :: rest =>
      let segment_end := segment_begin +! s_size segment in
      if index <? segment_end then span_at segment (index -! segment_begin)
      else index_segments rest segment_end index
  end.

Definition at_index v (index : Z) : outcome byte :=
  if index >=? m_size v then throw out_of_range "index is out of range"
  else index_segments (m_segments v) 0 index.

Definition at_position v (pos : position) : outcome byte :=
  let absolute_offset := sequence_offset pos in
  if negb ((absolute_offset >=? m_begin_offset v) && (absolute_offset <? end_offset v)) then
    throw out_of_range "position is out of range"
  else at_index v (absolute_offset -! m_begin_offset v).

(** The loop [position_of] and [position_of_any] share: the first segment in
    which [find] succeeds. *)
Fixpoint find_in_segments (find : bytes -> option nat) (segments : list span) (offset : Z) : position :=
  match segments with
  | [] => position_none
  | segment :: rest =>
      match find (span_bytes m segment) with
      | Some i => position_at (offset +! Z.of_nat i)
      | None => find_in_segments find rest (offset +! s_size segment)
      end
  end.

Definition position_of v (value : byte) : position :=
  if m_size v =? 0 then position_none
  else find_in_segments (fun l => memchr l value) (m_segments v) (m_begin_offset v).

Definition position_of_any v (values : bytes) : position :=
  match values with
  | [] => position_none
  | [value] => position_of v value
  | _ => find_in_segments (fun l => find_first_of l values) (m_segments v) (m_begin_offset v)
  end.

(** The loop of [position_of_sequence]: [joined] is [m_segments | join],
    [single] is [is_single_segment()]. *)
Fixpoint find_sequence (joined sequence : bytes) (single : bool) (begin_offset : Z)
    (segments : list span) (segment_offset : Z) : position :=
  match segments with
  | [] => position_none
  | segment :: rest =>
      match search (span_bytes m segment) sequence with
      | Some i => position_at (begin_offset +! segment_offset +! Z.of_nat i)
      | None =>
          if single then position_none
          else
            let tail_size := Z.min (s_size segment) (len sequence -! 1) in
            let next := segment_offset +! s_size segment in
            if tail_size =? 0 then find_sequence joined sequence single begin_offset rest next
            else
              let boundary_offset := segment_offset +! s_size segment -! tail_size in
              let boundary_size := tail_size +! len sequence -! 1 in
              let boundary := take (Z.to_nat boundary_size) (drop (Z.to_nat boundary_offset) joined) in
              match search boundary sequence with
              | Some i => position_at (begin_offset +! boundary_offset +! Z.of_nat i)
              | None => find_sequence joined sequence single begin_offset rest next
              end
      end
  end.

Definition joined_segments v : bytes := spans_bytes m (m_segments v).

Definition position_of_sequence v (sequence : bytes) : position :=
  if (len sequence =? 0) || (len sequence >? m_size v) then position_none
  else
    match sequence with
    | [value] => position_of v value
    | _ => find_sequence (joined_segments v) sequence (is_single_segment v) (m_begin_offset v)
             (m_segments v) 0
    end.

(** [first_segment()], [as_string_view()], [to_string()]. *)
Definition first_segment v : outcome span :=
  match m_segments v with
  | [] => Undef (* front() of an empty vector *)
  | segment :: _ => Ret segment
  end.

Definition as_string_view v : outcome bytes :=
  if negb (is_single_segment v) then
    throw logic_error "buffer must be a single segment to convert to string_view"
  else s ← first_segment v; Ret (load m (s_data s) (m_size v)).

Definition to_string v : outcome bytes :=
  if view_empty v then Ret []
  else if is_single_segment v then
    s ← first_segment v; Ret (load m (s_data s) (m_size v))
  else Ret (spans_bytes m (m_segments v)).

End reading.

(** ** Copying out: the number of bytes copied and the new byte store *)

Fixpoint copy_segments (m : memory) (segments : list span) (destination : span)
    (copied target_size : Z) : Z * memory :=
  match segments with
  | [] => (copied, m)
  | segment :: rest =>
      if copied =? target_size then (copied, m)
      else
        let chunk_size := Z.min (s_size segment) (target_size -! copied) in
        let m' := store m (s_data (subspan_n destination copied chunk_size))
                          (span_bytes m (subspan_n segment 0 chunk_size)) in
        copy_segments m' rest destination (copied +! chunk_size) target_size
  end.

Definition copy_to (m : memory) v (destination : span) : outcome (Z * memory) :=
  let target_size := Z.min (s_size destination) (m_size v) in
  if target_size =? 0 then Ret (0, m)
  else if is_single_segment v then
    s ← first_segment v;
    Ret (target_size, store m (s_data destination) (span_bytes m (subspan_n s 0 target_size)))
  else Ret (copy_segments m (m_segments v) destination 0 target_size).

(** [copy_to(std::byte*, size)]: [None] is the null pointer. *)
Definition copy_to_ptr (m : memory) v (destination : option ptr) (destination_size : Z)
    : outcome (Z * memory) :=
  match destination with
  | None =>
      if destination_size =? 0 then copy_to m v (Span (Ptr 0 0) 0)
      else throw invalid_argument "destination must not be null when destination_size > 0"
  | Some p => copy_to m v (Span p destination_size)
  end.

(** [copy_to(std::vector<std::byte>&)]: the vector's storage. *)
Definition copy_to_vector (m : memory) v (destination : span) : outcome (Z * memory) :=
  copy_to m v destination.

(** [copy_to(T&)]: [destination] is the object representation of the value. *)
Definition copy_to_value (m : memory) v (destination : span) : outcome (bool * memory) :=
  let destination_size := s_size destination in
  if destination_size >? m_size v then
    throw out_of_range "buffer size is smaller than the size of the destination type"
  else
    '(n, m') ← copy_to m v destination; Ret (n =? destination_size, m').

End operations.

(** ** Meaning and well-formedness *)

Definition total_size (segments : list span) : Z := foldr (fun s n => s_size s + n) 0 segments.

Definition view_bytes (m : memory) (v : segmented_byte_view) : bytes :=
  spans_bytes m (m_segments v).

Record view_ok (m : memory) (v : segmented_byte_view) : Prop := {
  view_spans : Forall (valid_span m) (m_segments v);
  view_total : m_size v = total_size (m_segments v);
  view_begin_nonneg : 0 <= m_begin_offset v;
  view_end_bound : m_begin_offset v + m_size v < size_modulus
}.

Definition empty_view_ok m : view_ok m empty_view.
Proof. by split. Qed.

Lemma total_size_nonneg m segments :
  Forall (valid_span m) segments -> 0 <= total_size segments.
Proof. induction 1 as [|s l [? _] _ IH]; simpl; lia. Qed.

Lemma len_concat_spans m segments :
  Forall (valid_span m) segments -> len (spans_bytes m segments) = total_size segments.
Proof.
  induction 1 as [|s l Hs _ IH]; [done|]. simpl.
  by rewrite len_app, length_span_bytes, IH.
Qed.

Lemma view_bytes_len m v : view_ok m v -> len (view_bytes m v) = m_size v.
Proof. intros []. unfold view_bytes. by rewrite len_concat_spans. Qed.

Lemma single_segment_inv v :
  is_single_segment v = true -> exists s, m_segments v = [s].
Proof.
  unfold is_single_segment, len. destruct (m_segments v) as [|s [|s' l]]; [done|by exists s|].
  cbn [length]. intros ?%Z.eqb_eq. lia.
Qed.

Lemma view_size_nonneg m v : view_ok m v -> 0 <= m_size v.
Proof. intros H. rewrite <- (view_bytes_len m v H). apply len_nonneg. Qed.

Lemma end_offset_ok m v : view_ok m v -> end_offset v = m_begin_offset v + m_size v.
Proof.
  intros H. pose proof (view_size_nonneg m v H). destruct H. unfold end_offset. by unwrap.
Qed.

Lemma span_bytes_sub m s o k :
  valid_span m s -> 0 <= o -> 0 <= k -> o + k <= s_size s ->
  span_bytes m (subspan_n s o k) = take (Z.to_nat k) (drop (Z.to_nat o) (span_bytes m s)).
Proof. intros (? & ? & _) ???. by apply load_sub. Qed.

(** Both ends of a slice of an appended list. *)
Lemma take_drop_app {A} (c r : list A) (o k : Z) :
  0 <= o <= len c ->
  take (Z.to_nat k) (drop (Z.to_nat o) (c ++ r)) =
  take (Z.to_nat k) (drop (Z.to_nat o) c) ++ take (Z.to_nat (k - (len c - o))) r.
Proof.
  intros. unfold len in *. rewrite drop_app_le, take_app, length_drop by lia.
  do 2 f_equal. lia.
Qed.

Lemma slice_segments_valid m segments sb b e :
  Forall (valid_span m) segments -> 0 <= sb -> sb + total_size segments < size_modulus -> b <= e ->
  Forall (valid_span m) (slice_segments segments sb b e).
Proof.
  intros Hv. revert sb. induction Hv as [|s l Hs Hl IH]; intros sb H0 Hb Hbe; [constructor|].
  pose proof (total_size_nonneg m l Hl). destruct (Hs) as (? & ? & _). simpl in *. unwrap.
  destruct (Z.leb_spec (sb + s_size s) b); [apply IH; lia|].
  rewrite Z.geb_leb. destruct (Z.leb_spec e sb); [constructor|].
  constructor; [|apply IH; lia]. unwrap.
  unfold valid_span. simpl. apply (valid_range_sub _ _ (s_size s)); [done|lia..].
Qed.

Lemma slice_segments_bytes m segments sb b e :
  Forall (valid_span m) segments -> 0 <= sb -> sb + total_size segments < size_modulus -> b <= e ->
  spans_bytes m (slice_segments segments sb b e) =
  take (Z.to_nat (e - Z.max sb b)) (drop (Z.to_nat (b - sb)) (spans_bytes m segments)).
Proof.
  intros Hv. revert sb. induction Hv as [|s l Hs Hl IH]; intros sb H0 Hb Hbe.
  { simpl. by rewrite drop_nil, take_nil. }
  pose proof (total_size_nonneg m l Hl). destruct (Hs) as (? & ? & _).
  pose proof (length_span_bytes m s Hs) as Hlen. simpl in *. unwrap.
  destruct (Z.leb_spec (sb + s_size s) b).
  - rewrite IH by lia. rewrite drop_app_ge by (unfold len in *; lia).
    rewrite (Z.max_r sb b), (Z.max_r (sb + s_size s) b) by lia. do 2 f_equal. unfold len in *. lia.
  - rewrite Z.geb_leb. destruct (Z.leb_spec e sb).
    + rewrite Z.max_l by lia. by replace (Z.to_nat (e - sb)) with 0%nat by lia.
    + simpl. unwrap. rewrite IH, span_bytes_sub by (done || lia).
      replace (Z.to_nat (b - sb)) with (Z.to_nat (Z.max sb b - sb)) by lia.
      rewrite take_drop_app by lia.
      replace (Z.to_nat (b - (sb + s_size s))) with 0%nat by lia. rewrite drop_0.
      f_equal; [|f_equal; lia].
      destruct (Z.le_gt_cases (sb + s_size s) e).
      * rewrite !take_ge; [done| |]; rewrite length_drop; unfold len in *; lia.
      * f_equal. lia.
Qed.

(** A valid slice: the bytes between the two offsets. *)
Lemma view_of_slice_ret m v b e :
  view_ok m v -> m_begin_offset v <= b <= e -> e <= m_begin_offset v + m_size v ->
  exists v', view_of_slice v (SliceRange b e) = Ret v' /\
    view_ok m v' /\ m_begin_offset v' = b /\ m_size v' = e - b /\
    view_bytes m v' =
      take (Z.to_nat (e - b)) (drop (Z.to_nat (b - m_begin_offset v)) (view_bytes m v)).
Proof.
  intros Hok Hb He. pose proof (end_offset_ok m v Hok) as Hend. destruct (Hok) as [Hsp Htot H0 Hlt].
  unfold view_of_slice, make_slice_segments, validate_slice_range. simpl. rewrite Hend.
  destruct (Z.gtb_spec b e); [lia|].
  replace ((b >=? m_begin_offset v) && (b <=? m_begin_offset v + m_size v)) with true by lia.
  replace ((e >=? m_begin_offset v) && (e <=? m_begin_offset v + m_size v)) with true by lia.
  simpl. destruct (Z.eqb_spec b e) as [->|].
  - eexists. split; [done|]. rewrite Z.sub_diag. unfold view_bytes. simpl. split_and!; try done.
    split; simpl; [constructor|done|lia|]. unfold wrap. simpl. rewrite Zmod_0_l. lia.
  - eexists. split; [done|]. simpl. unwrap. rewrite Htot in *.
    pose proof (slice_segments_valid m _ _ b e Hsp H0 Hlt ltac:(lia)) as Hv.
    assert (view_bytes m (View (slice_segments (m_segments v) (m_begin_offset v) b e) b (e - b)) =
       take (Z.to_nat (e - b)) (drop (Z.to_nat (b - m_begin_offset v)) (view_bytes m v))) as Hby.
    { unfold view_bytes. simpl. rewrite slice_segments_bytes by (done || lia).
      by rewrite Z.max_r by lia. }
    split_and!; try done. split; simpl; try (done || lia).
    rewrite <- (len_concat_spans m) by done. unfold view_bytes in Hby. simpl in Hby. rewrite Hby.
    pose proof (len_concat_spans m _ Hsp). unfold len in *. rewrite length_take, length_drop. lia.
Qed.

(** Any other range is refused with [std::out_of_range]. *)
Lemma view_of_slice_throw m v b e :
  view_ok m v -> ~ (m_begin_offset v <= b <= e /\ e <= m_begin_offset v + m_size v) ->
  exists what, view_of_slice v (SliceRange b e) = throw out_of_range what.
Proof.
  intros Hok Hn. pose proof (end_offset_ok m v Hok) as Hend.
  unfold view_of_slice, make_slice_segments, validate_slice_range. simpl. rewrite Hend.
  destruct (Z.gtb_spec b e); [by eexists|].
  destruct ((b >=? m_begin_offset v) && (b <=? m_begin_offset v + m_size v)) eqn:E1; [|by eexists].
  destruct ((e >=? m_begin_offset v) && (e <=? m_begin_offset v + m_size v)) eqn:E2; [lia|by eexists].
Qed.

(** ** Reading a byte *)

Lemma span_at_lookup m s i :
  valid_span m s -> 0 <= i < s_size s ->
  exists b, span_at m s i = Ret b /\ span_bytes m s !! Z.to_nat i = Some b.
Proof.
  intros Hs Hi. unfold span_at. pose proof (length_span_bytes m s Hs) as Hl.
  destruct (span_bytes m s !! Z.to_nat i) as [b|] eqn:E; [by exists b|].
  apply lookup_ge_None in E. unfold len in Hl. lia.
Qed.

Lemma index_segments_spec m segments sb i :
  Forall (valid_span m) segments -> 0 <= sb -> sb + total_size segments < size_modulus ->
  sb <= i < sb + total_size segments ->
  exists b, index_segments m segments sb i = Ret b /\
    spans_bytes m segments !! Z.to_nat (i - sb) = Some b.
Proof.
  intros Hv. revert sb. induction Hv as [|s l Hs Hl IH]; intros sb H0 Hb Hi; simpl in *; [lia|].
  pose proof (total_size_nonneg m l Hl). destruct (Hs) as (? & ? & _).
  pose proof (length_span_bytes m s Hs) as Hlen. unfold len in Hlen. unwrap.
  destruct (Z.ltb_spec i (sb + s_size s)).
  - unwrap. destruct (span_at_lookup m s (i - sb) Hs) as (b & -> & ?); [lia|].
    exists b. rewrite lookup_app_l by lia. done.
  - destruct (IH (sb + s_size s)) as (b & -> & Hbb); [lia..|]. exists b. split; [done|].
    rewrite lookup_app_r by lia. rewrite <- Hbb. f_equal. lia.
Qed.

Lemma index_from_end_spec m segments r :
  Forall (valid_span m) segments -> total_size segments < size_modulus ->
  0 <= r < total_size segments ->
  exists b, index_from_end m (reverse segments) r = Ret b /\
    spans_bytes m segments !! Z.to_nat (total_size segments - 1 - r) = Some b.
Proof.
  intros Hv Hb. revert r. induction segments as [|s l IH] using rev_ind; intros r Hr; simpl in *; [lia|].
  apply Forall_app in Hv as [Hl [Hs _]%Forall_cons]. pose proof (total_size_nonneg m l Hl).
  destruct (Hs) as (? & ? & _). pose proof (length_span_bytes m s Hs) as Hlen.
  assert (total_size (l ++ [s]) = total_size l + s_size s) as Ht.
  { clear. unfold total_size. induction l; simpl in *; lia. }
  assert (spans_bytes m (l ++ [s]) = spans_bytes m l ++ span_bytes m s) as Hsb.
  { clear. induction l as [|x l IH]; simpl; [by rewrite app_nil_r|]. by rewrite IH, app_assoc. }
  pose proof (len_concat_spans m l Hl) as Hll. unfold len in *.
  rewrite reverse_app, Hsb, Ht in *. simpl.
  destruct (Z.ltb_spec r (s_size s)).
  - unwrap. destruct (span_at_lookup m s (s_size s - 1 - r) Hs) as (b & -> & ?); [lia|].
    exists b. rewrite lookup_app_r by lia. split; [done|].
    replace (_ - length _)%nat with (Z.to_nat (s_size s - 1 - r)) by lia. done.
  - unwrap. destruct (IH Hl ltac:(lia) (r - s_size s)) as (b & Hb1 & Hbb); [lia|].
    exists b. split; [done|]. rewrite lookup_app_l by lia. rewrite <- Hbb. f_equal. lia.
Qed.

(** ** Searching *)

Lemma find_index_app f l k :
  find_index f (l ++ k) =
  match find_index f l with
  | Some i => Some i
  | None => Nat.add (length l) <$> find_index f k
  end.
Proof.
  induction l as [|x l IH]; simpl; [by destruct (find_index f k)|].
  destruct (f x); [done|]. rewrite IH. destruct (find_index f l); [done|].
  by destruct (find_index f k).
Qed.

Lemma find_index_lt f l i : find_index f l = Some i -> (i < length l)%nat.
Proof.
  revert i. induction l as [|x l IH]; intros i H; simplify_eq/=.
  destruct (f x); simplify_eq; [lia|]. destruct (find_index f l) eqn:E; simplify_eq/=.
  specialize (IH _ eq_refl). lia.
Qed.

Lemma find_index_ext f g l : (forall x, f x = g x) -> find_index f l = find_index g l.
Proof. intros E. induction l as [|x l IH]; [done|]. simpl. by rewrite E, IH. Qed.

Lemma find_index_false l : find_index (fun _ => false) l = None.
Proof. induction l as [|x l IH]; [done|]. simpl. by rewrite IH. Qed.

Lemma search_singleton l c : search l [c] = memchr l c.
Proof.
  unfold memchr. induction l as [|x l IH]; [done|]. simpl. rewrite IH. by rewrite andb_true_r.
Qed.

(** [find_index] is the least index whose byte satisfies [f]. *)
Lemma find_index_Some f l i :
  find_index f l = Some i <->
  (exists b, l !! i = Some b /\ f b = true) /\ forall j b, (j < i)%nat -> l !! j = Some b -> f b = false.
Proof.
  revert i. induction l as [|x l IH]; intros i; simpl.
  { split; [done|]. intros [(b & ? & _) _]. done. }
  destruct (f x) eqn:Ex.
  - split; [intros [= <-]|].
    + split; [by exists x|]. intros j b ?. lia.
    + intros [_ H]. destruct i; [done|]. specialize (H 0%nat x ltac:(lia) eq_refl). congruence.
  - destruct i as [|i]; simpl.
    + split; [by destruct (find_index f l)|]. intros [(b & [= ->] & ?) _]. congruence.
    + specialize (IH i). destruct (find_index f l) as [k|]; simpl.
      * split.
        -- intros [= ->]. destruct IH as [IH _]. destruct (IH eq_refl) as [? Hj]. split; [done|].
           intros [|j] b Hlt Hb; simplify_eq/=; [done|]. apply (Hj j); [lia|done].
        -- intros [He Hj]. f_equal. f_equal. destruct IH as [_ IH].
           enough (Some k = Some i) by congruence. apply IH. split; [done|].
           intros j b Hlt Hb. by apply (Hj (S j) b); [lia|].
      * split; [done|]. intros [He Hj]. destruct IH as [_ IH]. enough (None = Some i) by done.
        apply IH. split; [done|]. intros j b Hlt Hb. by apply (Hj (S j) b); [lia|].
Qed.

(** What a search answers: the absolute position of the index found. *)
Definition position_result (begin_offset : Z) (r : option nat) : position :=
  match r with
  | Some i => position_at (begin_offset + Z.of_nat i)
  | None => position_none
  end.

Lemma find_in_segments_spec m f segments offset :
  Forall (valid_span m) segments -> 0 <= offset -> offset + total_size segments < size_modulus ->
  find_in_segments m (find_index f) segments offset =
  position_result offset (find_index f (spans_bytes m segments)).
Proof.
  intros Hv. revert offset. induction Hv as [|s l Hs Hl IH]; intros o H0 Hb; simpl in *; [done|].
  pose proof (total_size_nonneg m l Hl). destruct (Hs) as (? & ? & _).
  pose proof (length_span_bytes m s Hs) as Hlen. unfold len in Hlen.
  rewrite find_index_app. destruct (find_index f (span_bytes m s)) as [i|] eqn:E.
  - apply find_index_lt in E. simpl. by unwrap.
  - unwrap. rewrite IH by lia. destruct (find_index f (spans_bytes m l)); simpl; [|done].
    f_equal. lia.
Qed.

(** *** Occurrences of a pattern *)

Definition occurs (l pat : bytes) (i : nat) : Prop := take (length pat) (drop i l) = pat.

Lemma starts_with_occurs l pat : starts_with l pat = true <-> occurs l pat 0.
Proof.
  unfold occurs. rewrite drop_0. revert l. induction pat as [|p pat IH]; intros l; simpl; [done|].
  destruct l as [|x l]; simpl; [done|]. rewrite andb_true_iff, bool_decide_eq_true, IH.
  split; [intros [-> ->]; done|intros [= -> ->]; done].
Qed.

Lemma occurs_S x l pat i : occurs (x :: l) pat (S i) <-> occurs l pat i.
Proof. done. Qed.

Lemma occurs_bound l pat i : pat ≠ [] -> occurs l pat i -> (i + length pat <= length l)%nat.
Proof.
  intros Hp Ho. apply (f_equal length) in Ho. rewrite length_take, length_drop in Ho.
  assert (length pat ≠ 0%nat) by (by destruct pat). lia.
Qed.

(** Occurrences in a window of [l] are the occurrences of [l] that fit in it. *)
Lemma occurs_window l pat o w j :
  pat ≠ [] -> occurs (take w (drop o l)) pat j <-> occurs l pat (o + j) /\ (j + length pat <= w)%nat.
Proof.
  intros Hp. unfold occurs. rewrite skipn_firstn_comm, drop_drop, take_take.
  destruct (decide (j + length pat <= w)%nat) as [|Hn].
  - rewrite Nat.min_l by lia. tauto.
  - split; [|lia]. intros H. apply (f_equal length) in H. rewrite length_take in H.
    assert (length pat ≠ 0%nat) by (by destruct pat). lia.
Qed.

Lemma search_spec l pat :
  pat ≠ [] ->
  match search l pat with
  | Some i => occurs l pat i /\ forall j, (j < i)%nat -> ~ occurs l pat j
  | None => forall j, ~ occurs l pat j
  end.
Proof.
  intros Hp. induction l as [|x l IH]; simpl search.
  { intros j Ho. apply occurs_bound in Ho; [|done]. destruct pat; [done|]. simpl in Ho. lia. }
  destruct (starts_with (x :: l) pat) eqn:E.
  { apply starts_with_occurs in E. split; [done|]. lia. }
  assert (~ occurs (x :: l) pat 0) by (rewrite <- starts_with_occurs; congruence).
  destruct (search l pat) as [i|]; simpl.
  - destruct IH as [Ho Hm]. split; [done|]. intros [|j] Hj; [done|].
    rewrite occurs_S. apply Hm. lia.
  - intros [|j]; [done|]. by rewrite occurs_S.
Qed.

Lemma search_unique l pat i :
  pat ≠ [] -> occurs l pat i -> (forall j, (j < i)%nat -> ~ occurs l pat j) -> search l pat = Some i.
Proof.
  intros Hp Ho Hm. pose proof (search_spec l pat Hp) as H.
  destruct (search l pat) as [k|]; [|by destruct (H i)].
  destruct H as [Hk Hkm]. f_equal. destruct (Nat.lt_trichotomy i k) as [?|[?|?]]; [|done|];
    exfalso; [by apply (Hkm i)|by apply (Hm k)].
Qed.

Lemma search_none l pat : pat ≠ [] -> (forall j, ~ occurs l pat j) -> search l pat = None.
Proof.
  intros Hp Hn. pose proof (search_spec l pat Hp) as H.
  destruct (search l pat) as [k|]; [|done]. by destruct (Hn k), H.
Qed.

Lemma search_window_some l pat o w i :
  pat ≠ [] -> search (take w (drop o l)) pat = Some i ->
  (forall j, (j < o)%nat -> ~ occurs l pat j) -> search l pat = Some (o + i)%nat.
Proof.
  intros Hp Hs Hbefore. pose proof (search_spec (take w (drop o l)) pat Hp) as H.
  rewrite Hs in H. destruct H as [Ho Hm]. rewrite occurs_window in Ho by done. destruct Ho as [Ho Hw].
  apply search_unique; [done..|]. intros j Hj Hoj.
  destruct (decide (j < o)%nat); [by apply (Hbefore j)|].
  apply (Hm (j - o)%nat); [lia|]. apply occurs_window; [done|].
  split; [|lia]. by replace (o + (j - o))%nat with j by lia.
Qed.

Lemma search_window_none l pat o w j :
  pat ≠ [] -> search (take w (drop o l)) pat = None ->
  (o <= j)%nat -> (j + length pat <= o + w)%nat -> ~ occurs l pat j.
Proof.
  intros Hp Hs Hlo Hhi Ho. pose proof (search_spec (take w (drop o l)) pat Hp) as H.
  rewrite Hs in H. apply (H (j - o)%nat). apply occurs_window; [done|].
  split; [|lia]. by replace (o + (j - o))%nat with j by lia.
Qed.

(** The segment at offset [length pre] is a window of the joined bytes. *)
Lemma segment_window (pre c r : bytes) :
  take (length c) (drop (length pre) (pre ++ c ++ r)) = c.
Proof. by rewrite drop_app_length, take_app_length. Qed.

Lemma search_bound l pat i :
  pat ≠ [] -> search l pat = Some i -> (i + length pat <= length l)%nat.
Proof.
  intros Hp E. pose proof (search_spec l pat Hp) as H. rewrite E in H.
  by apply occurs_bound, H.
Qed.

Lemma pat_nonempty (pat : bytes) : (2 <= length pat)%nat -> pat ≠ [].
Proof. intros Hn ->. simpl in Hn. lia. Qed.

(** One iteration of the loop of [position_of_sequence] on the segment [c] at
    offset [length pre], in terms of the joined bytes: the whole-segment
    search, then the search of the window around the segment's end. *)
Section sequence_step.
Context (pre c r pat : bytes).
Let joined := pre ++ c ++ r.
Hypothesis Hn : (2 <= length pat)%nat.
Hypothesis Hbefore : forall j, (j < length pre)%nat -> ~ occurs joined pat j.

Lemma sequence_in_segment i :
  search c pat = Some i -> search joined pat = Some (length pre + i)%nat.
Proof.
  rewrite <- (segment_window pre c r). intros E.
  by eapply search_window_some; [by apply pat_nonempty|exact E|].
Qed.

Lemma sequence_not_in_segment j :
  search c pat = None -> (j + length pat <= length pre + length c)%nat -> ~ occurs joined pat j.
Proof.
  rewrite <- (segment_window pre c r) at 1. intros E Hj.
  destruct (decide (j < length pre)%nat); [by apply Hbefore|].
  eapply search_window_none; [by apply pat_nonempty|exact E|lia|done].
Qed.

Let tail := Nat.min (length c) (length pat - 1).
Let boundary_offset := (length pre + length c - tail)%nat.
Let boundary := take (tail + length pat - 1) (drop boundary_offset joined).

Lemma sequence_in_boundary i :
  search c pat = None -> search boundary pat = Some i ->
  search joined pat = Some (boundary_offset + i)%nat.
Proof.
  intros Ec Eb. eapply search_window_some; [by apply pat_nonempty|exact Eb|].
  intros j Hj. destruct (decide (j < length pre)%nat); [by apply Hbefore|].
  apply sequence_not_in_segment; [done|]. unfold boundary_offset, tail in Hj. lia.
Qed.

Lemma sequence_not_in_boundary j :
  search c pat = None -> search boundary pat = None ->
  (j < length pre + length c)%nat -> ~ occurs joined pat j.
Proof.
  intros Ec Eb Hj. destruct (decide (j < boundary_offset)%nat).
  - destruct (decide (j < length pre)%nat); [by apply Hbefore|].
    apply sequence_not_in_segment; [done|]. unfold boundary_offset, tail in *. lia.
  - eapply search_window_none; [by apply pat_nonempty|exact Eb|lia|].
    unfold boundary_offset, tail in *. lia.
Qed.
End sequence_step.

Lemma find_sequence_spec m pre segments pat single begin_offset :
  (2 <= length pat)%nat -> Forall (valid_span m) segments ->
  0 <= begin_offset -> begin_offset + len pre + total_size segments < size_modulus ->
  len pat <= len pre + total_size segments -> 2 * len pat <= size_modulus ->
  (single = true -> len segments <= 1) ->
  let joined := pre ++ spans_bytes m segments in
  (forall j, (j < length pre)%nat -> ~ occurs joined pat j) ->
  find_sequence m joined pat single begin_offset segments (len pre) =
  position_result begin_offset (search joined pat).
Proof.
  intros Hn Hv Hb0. pose proof (pat_nonempty pat Hn) as Hp.
  revert pre. induction Hv as [|s l Hs Hl IH]; intros pre Hb Hfit H2 Hsingle joined Hbefore; simpl.
  { rewrite search_none; [done..|]. intros j Ho. pose proof (occurs_bound _ _ _ Hp Ho) as Hj.
    subst joined. simpl in Hj. rewrite app_nil_r in Hj. apply (Hbefore j); [lia|done]. }
  pose proof (total_size_nonneg m l Hl). destruct (Hs) as (? & ? & _).
  pose proof (length_span_bytes m s Hs) as Hlen. simpl in joined, Hb, Hfit.
  pose proof (sequence_not_in_segment pre _ (spans_bytes m l) pat Hn Hbefore) as Hnot.
  unfold len in *. unwrap.
  assert ((forall j, (j < length pre + length (span_bytes m s))%nat -> ~ occurs joined pat j) ->
    find_sequence m joined pat single begin_offset l (Z.of_nat (length pre) + s_size s) =
    position_result begin_offset (search joined pat)) as Hnext.
  { intros Hnext. specialize (IH (pre ++ span_bytes m s)). unfold joined in Hnext |- *.
    rewrite app_assoc in Hnext |- *. rewrite !length_app, Nat2Z.inj_add, Hlen in IH.
    apply IH; [lia..| |done]. intros E. specialize (Hsingle E). simpl in Hsingle. lia. }
  destruct (search (span_bytes m s) pat) as [i|] eqn:Ein.
  { pose proof (search_bound _ _ _ Hp Ein).
    pose proof (sequence_in_segment pre _ (spans_bytes m l) _ Hn Hbefore i Ein) as E.
    fold joined in E. rewrite E. unwrap. simpl. f_equal. lia. }
  destruct single.
  { destruct l; [|specialize (Hsingle eq_refl); simpl in Hsingle; lia].
    rewrite search_none; [done..|]. intros j Ho. pose proof (occurs_bound _ _ _ Hp Ho) as Hj.
    unfold joined in Hj. rewrite !length_app in Hj. simpl in Hj. by apply (Hnot j eq_refl); [lia|]. }
  destruct (Z.eqb_spec (Z.min (s_size s) (Z.of_nat (length pat) - 1)) 0).
  { apply Hnext. intros j Hj. apply Hbefore. lia. }
  match goal with |- context [search (take ?w (drop ?o joined)) pat] =>
    replace w with (Nat.min (length (span_bytes m s)) (length pat - 1) + length pat - 1)%nat by lia;
    replace o with (length pre + length (span_bytes m s)
      - Nat.min (length (span_bytes m s)) (length pat - 1))%nat by lia
  end.
  destruct (search (take _ (drop _ joined)) pat) as [i|] eqn:Eb.
  - pose proof (search_bound _ _ _ Hp Eb) as Hi. rewrite length_take in Hi.
    pose proof (sequence_in_boundary pre _ (spans_bytes m l) _ Hn Hbefore i Ein Eb) as E.
    fold joined in E. rewrite E. unwrap. simpl. f_equal. lia.
  - apply Hnext. intros j Hj. by eapply sequence_not_in_boundary.
Qed.

(** ** Copying *)

Definition disjoint_from (destination : span) (s : span) : Prop :=
  disjoint_range (s_data destination) (s_size destination) (s_data s) (s_size s).

(** [m'] differs from [m] only inside [destination]. *)
Definition only_writes (destination : span) (m m' : memory) : Prop :=
  same_layout m m' /\
  forall s, 0 <= p_off (s_data s) -> disjoint_from destination s -> span_bytes m' s = span_bytes m s.

Lemma only_writes_refl d m : only_writes d m m.
Proof. by split. Qed.

Lemma only_writes_trans d m1 m2 m3 :
  only_writes d m1 m2 -> only_writes d m2 m3 -> only_writes d m1 m3.
Proof.
  intros [[N1 L1] H1] [[N2 L2] H2]. split; [split; [congruence|]|].
  - intros b. by rewrite L1.
  - intros s ??. by rewrite H2, H1.
Qed.

Lemma store_only_writes m d o bs :
  valid_span m d -> 0 <= o -> o + len bs <= s_size d ->
  only_writes d m (store m (ptr_add (s_data d) o) bs).
Proof.
  intros Hd Ho Hl. pose proof (len_nonneg bs). split.
  - eapply store_same_layout, (valid_range_sub _ _ (s_size d) o (len bs)); done.
  - intros s Hs Hdis. destruct (Hd) as (? & ? & _). apply load_store_disjoint; simpl; [lia|done|].
    destruct Hdis as [?|?]; [by left|right; simpl; lia].
Qed.

Lemma only_writes_valid d m m' s : only_writes d m m' -> valid_span m s -> valid_span m' s.
Proof. intros [Hl _]. by apply same_layout_valid. Qed.

Lemma spans_bytes_only_writes d m m' segments :
  only_writes d m m' -> Forall (valid_span m) segments -> Forall (disjoint_from d) segments ->
  spans_bytes m' segments = spans_bytes m segments.
Proof.
  intros [_ H] Hv Hd. induction Hv as [|s l Hs _ IH]; [done|]. apply Forall_cons in Hd as [Hd Hl].
  simpl. rewrite H, IH; [done..|apply Hs|done].
Qed.

Lemma load_store_extend m d o bs :
  valid_span m d -> 0 <= o -> o + len bs <= s_size d ->
  load (store m (ptr_add (s_data d) o) bs) (s_data d) (o + len bs) = load m (s_data d) o ++ bs.
Proof.
  intros Hd Ho Hl. destruct (Hd) as (? & ? & _). pose proof (len_nonneg bs).
  rewrite load_split by lia. f_equal.
  - apply load_store_disjoint; simpl; [lia..|]. right. simpl. lia.
  - apply load_store_same. apply (valid_range_sub _ _ (s_size d)); [done|lia..].
Qed.

Lemma copy_segments_spec segments d target copied m :
  Forall (valid_span m) segments -> Forall (disjoint_from d) segments -> valid_span m d ->
  is_size target -> target <= s_size d -> 0 <= copied <= target ->
  target - copied <= total_size segments ->
  let '(n, m') := copy_segments m segments d copied target in
  n = target /\ only_writes d m m' /\
  load m' (s_data d) target =
    load m (s_data d) copied ++ take (Z.to_nat (target - copied)) (spans_bytes m segments).
Proof.
  revert copied m. induction segments as [|s l IH]; intros copied m Hv Hdis Hd Ht Htd Hc Htot; simpl in *.
  { assert (copied = target) as -> by lia. rewrite take_nil, app_nil_r.
    split_and!; [done|apply only_writes_refl|done]. }
  apply Forall_cons in Hv as [Hs Hv]. apply Forall_cons in Hdis as [Hds Hdis].
  destruct (Z.eqb_spec copied target) as [->|].
  { rewrite Z.sub_diag, app_nil_r. split_and!; [done|apply only_writes_refl|done]. }
  destruct (Hs) as (? & ? & _). pose proof (total_size_nonneg m l Hv). unfold is_size in *. unwrap.
  remember (Z.min (s_size s) (target - copied)) as k eqn:Hkdef.
  pose proof (span_bytes_sub m s 0 k Hs ltac:(lia) ltac:(lia) ltac:(lia)) as Hchunk.
  rewrite drop_0 in Hchunk. pose proof (length_span_bytes m s Hs) as Hlen.
  assert (len (take (Z.to_nat k) (span_bytes m s)) = k) as Hk.
  { unfold len in *. rewrite length_take. lia. }
  rewrite Hchunk. set (chunk := take (Z.to_nat k) (span_bytes m s)) in *.
  pose proof (store_only_writes m d copied chunk Hd ltac:(lia) ltac:(lia)) as Hw.
  set (m1 := store m _ chunk) in *.
  specialize (IH (copied + k) m1). unwrap.
  destruct (copy_segments m1 l d (copied + k) target) as [n' m'].
  destruct IH as (-> & Hw' & Hl').
  { eapply Forall_impl; [exact Hv|]. intros x. by apply only_writes_valid with d. }
  { done. } { by apply only_writes_valid with d m. } { lia. } { lia. } { lia. } { lia. }
  split_and!; [done|by eapply only_writes_trans|]. rewrite Hl'.
  rewrite (spans_bytes_only_writes d m m1) by done. unfold m1.
  pose proof (load_store_extend m d copied chunk Hd ltac:(lia) ltac:(lia)) as Hx.
  rewrite Hk in Hx. rewrite Hx, <- app_assoc. f_equal.
  rewrite take_app. unfold chunk. f_equal; [|f_equal; unfold len in *; lia].
  destruct (Z.le_gt_cases (target - copied) (s_size s)); [f_equal; lia|].
  rewrite !take_ge; [done|unfold len in *; lia..].
Qed.

(** ** What the clients of views use *)

(** A slice between two absolute positions of the view. *)
Lemma slice_ret m v b e :
  view_ok m v -> m_begin_offset v <= m_offset b <= m_offset e ->
  m_offset e <= m_begin_offset v + m_size v ->
  exists v', slice v b e = Ret v' /\ view_ok m v' /\
    m_begin_offset v' = m_offset b /\ m_size v' = m_offset e - m_offset b /\
    view_bytes m v' = take (Z.to_nat (m_offset e - m_offset b))
      (drop (Z.to_nat (m_offset b - m_begin_offset v)) (view_bytes m v)).
Proof. intros Hok Hb He. by apply (view_of_slice_ret m v (m_offset b) (m_offset e)). Qed.

Lemma slice_from_ret m v o e :
  view_ok m v -> 0 <= o -> m_begin_offset v + o <= m_offset e ->
  m_offset e <= m_begin_offset v + m_size v ->
  exists v', slice_from v o e = Ret v' /\ view_ok m v' /\
    view_bytes m v' = take (Z.to_nat (m_offset e - (m_begin_offset v + o)))
      (drop (Z.to_nat o) (view_bytes m v)).
Proof.
  intros Hok Ho Hb He. destruct (Hok) as [_ _ H0 Hlt].
  unfold slice_from, resolve_slice_range_from. destruct (Z.gtb_spec o (m_size v)); [lia|]. unwrap.
  destruct (view_of_slice_ret m v (m_begin_offset v + o) (m_offset e)) as (v' & E & Hok' & _ & _ & Hby); [done|lia..|].
  exists v'. split; [exact E|]. split; [done|]. rewrite Hby. do 2 f_equal. lia.
Qed.

(** The overloads with a relative begin are the absolute slice at
    [begin + offset], behind their range checks. *)
Lemma slice_from_eq v o e :
  slice_from v o e =
    (if o >? m_size v then throw out_of_range "slice begin offset is out of range"
     else slice v (position_add (view_begin v) o) e).
Proof. unfold slice_from, resolve_slice_range_from. by destruct (Z.gtb_spec o (m_size v)). Qed.

Lemma slice_size_eq m v o n :
  view_ok m v -> 0 <= o ->
  slice_size v o n =
    (if o >? m_size v then throw out_of_range "slice begin offset is out of range"
     else if n >? m_size v - o then throw out_of_range "slice size is out of range"
     else slice v (position_add (view_begin v) o) (position_add (position_add (view_begin v) o) n)).
Proof.
  intros [_ _ H0 Hlt] Ho. unfold slice_size, resolve_slice_range_size, validate_relative_slice.
  destruct (Z.gtb_spec o (m_size v)); [done|]. rewrite (wrap_small (m_size v - o)) by (unfold is_size; lia).
  by destruct (Z.gtb_spec n (m_size v - o)).
Qed.

Lemma slice_size_ret m v o n :
  view_ok m v -> 0 <= o -> 0 <= n -> o + n <= m_size v ->
  exists v', slice_size v o n = Ret v' /\ view_ok m v' /\ m_size v' = n /\
    view_bytes m v' = take (Z.to_nat n) (drop (Z.to_nat o) (view_bytes m v)).
Proof.
  intros Hok Ho Hn Hon. destruct (Hok) as [_ _ H0 Hlt]. rewrite (slice_size_eq m) by done.
  destruct (Z.gtb_spec o (m_size v)), (Z.gtb_spec n (m_size v - o)); try lia.
  unfold slice, resolve_slice_range. simpl. unwrap.
  destruct (view_of_slice_ret m v (m_begin_offset v + o) (m_begin_offset v + o + n))
    as (v' & Ev & Hok' & _ & Hsz & Hby); [done|lia|lia|].
  exists v'. split; [exact Ev|]. split_and!; [done|lia|]. rewrite Hby. do 2 f_equal; lia.
Qed.

Lemma at_index_ret m v i b :
  view_ok m v -> 0 <= i -> view_bytes m v !! Z.to_nat i = Some b -> at_index m v i = Ret b.
Proof.
  intros Hok Hi E. pose proof (view_bytes_len m v Hok) as Hlen. destruct (Hok) as [Hsp Htot H0 Hlt].
  pose proof (lookup_lt_Some _ _ _ E) as Hib. unfold len in Hlen. unfold at_index.
  destruct (index_segments_spec m (m_segments v) 0 i Hsp) as (b' & Ei & Eb); [lia..|].
  rewrite Z.sub_0_r in Eb. unfold view_bytes in E. simplify_eq.
  by destruct (Z.geb_spec i (m_size v)); [lia|].
Qed.

Lemma at_from_end_ret m v i b :
  view_ok m v -> 0 <= i < m_size v -> view_bytes m v !! Z.to_nat i = Some b ->
  at_from_end m v (FromEnd (m_size v - i)) = Ret b.
Proof.
  intros Hok Hi E. destruct (Hok) as [Hsp Htot H0 Hlt]. unfold at_from_end. simpl.
  destruct (index_from_end_spec m (m_segments v) (m_size v - i - 1) Hsp) as (c & Ec & Ecb); [lia..|].
  replace (total_size (m_segments v) - 1 - (m_size v - i - 1)) with i in Ecb by lia.
  unfold view_bytes in E. simplify_eq. unwrap.
  by replace ((m_size v - i >? 0) && (m_size v - i <=? m_size v)) with true by lia.
Qed.

Lemma position_of_byte m v value :
  view_ok m v ->
  position_of m v value = position_result (m_begin_offset v) (memchr (view_bytes m v) value).
Proof.
  intros Hok. pose proof (view_bytes_len m v Hok) as Hlen. destruct (Hok) as [Hsp Htot H0 Hlt].
  unfold position_of. destruct (Z.eqb_spec (m_size v) 0) as [E|].
  - rewrite E in Hlen. apply len_nil_iff in Hlen. by rewrite Hlen.
  - apply find_in_segments_spec; [done..|lia].
Qed.

Lemma position_of_bytes m v values :
  view_ok m v ->
  position_of_any m v values = position_result (m_begin_offset v) (find_first_of (view_bytes m v) values).
Proof.
  intros Hok. destruct (Hok) as [Hsp Htot H0 Hlt]. unfold position_of_any. destruct values as [|c [|d values]].
  - unfold find_first_of. rewrite (find_index_ext _ (fun _ => false)), find_index_false; [done|].
    intros x. apply bool_decide_false, not_elem_of_nil.
  - rewrite position_of_byte by done. f_equal. apply find_index_ext. intros x.
    apply bool_decide_ext. by rewrite list_elem_of_singleton.
  - apply find_in_segments_spec; [done..|lia].
Qed.

Lemma single_segment_bytes m v :
  view_ok m v -> is_single_segment v = true ->
  (s ← first_segment v; Ret (load m (s_data s) (m_size v))) = Ret (view_bytes m v).
Proof.
  intros Hok (s & E)%single_segment_inv. destruct (Hok) as [Hsp Htot H0 Hlt].
  unfold first_segment, view_bytes. rewrite E in *.
  simpl in *. rewrite app_nil_r. by replace (m_size v) with (s_size s) by lia.
Qed.

Lemma to_string_bytes m v : view_ok m v -> to_string m v = Ret (view_bytes m v).
Proof.
  intros Hok. pose proof (view_bytes_len m v Hok) as Hlen. unfold to_string, view_empty.
  destruct (Z.eqb_spec (m_size v) 0) as [E|].
  - rewrite E in Hlen. apply len_nil_iff in Hlen. by rewrite Hlen.
  - destruct (is_single_segment v) eqn:Es; [by apply single_segment_bytes|done].
Qed.

(** ** Properties *)

(** C27: Every slicing operation (four that return a new view, four in place),
    on every branch.  Between two absolute positions: inside the view it yields
    a well-formed view of exactly the bytes between them, outside it throws
    [std::out_of_range].  With a begin relative to the view: an offset beyond
    the view, or a size beyond what is left of it, is refused with its own
    message before any arithmetic can wrap around; otherwise it is the
    absolute slice at [begin + offset], and offset and size inside the view
    give exactly those bytes.  Slicing in place computes the same view. *)
Theorem slice_correct m v b e o n (Hok : view_ok m v) (Ho : is_size o) (Hn : is_size n) :
  ((m_begin_offset v <= m_offset b <= m_offset e /\ m_offset e <= m_begin_offset v + m_size v ->
     exists v', slice v b e = Ret v' /\ view_ok m v' /\ view_begin v' ≡ b /\ view_end v' ≡ e /\
       m_size v' = m_offset e - m_offset b /\
       view_bytes m v' = take (Z.to_nat (m_offset e - m_offset b))
         (drop (Z.to_nat (m_offset b - m_begin_offset v)) (view_bytes m v))) /\
  (~ (m_begin_offset v <= m_offset b <= m_offset e /\ m_offset e <= m_begin_offset v + m_size v) ->
     exists what, slice v b e = throw out_of_range what)) /\
  slice_end v e = slice v (view_begin v) e /\
  slice_from v o e =
    (if o >? m_size v then throw out_of_range "slice begin offset is out of range"
     else slice v (position_add (view_begin v) o) e) /\
  slice_size v o n =
    (if o >? m_size v then throw out_of_range "slice begin offset is out of range"
     else if n >? m_size v - o then throw out_of_range "slice size is out of range"
     else slice v (position_add (view_begin v) o) (position_add (position_add (view_begin v) o) n)) /\
  (o + n <= m_size v ->
     exists v', slice_size v o n = Ret v' /\ view_ok m v' /\ m_size v' = n /\
       view_bytes m v' = take (Z.to_nat n) (drop (Z.to_nat o) (view_bytes m v))) /\
  (o <= m_size v /\ m_begin_offset v + o <= m_offset e <= m_begin_offset v + m_size v ->
     exists v', slice_from v o e = Ret v' /\ view_ok m v' /\
       view_bytes m v' = take (Z.to_nat (m_offset e - (m_begin_offset v + o)))
         (drop (Z.to_nat o) (view_bytes m v))) /\
  slice_in_place v b e = slice v b e /\
  slice_in_place_end v e = slice_end v e /\
  slice_in_place_from v o e = slice_from v o e /\
  slice_in_place_size v o n = slice_size v o n.
Proof.
  unfold is_size in *. split_and!; try done.
  - intros [Hb He]. destruct (slice_ret m v b e) as (v' & E & Hok' & Hbe & Hsz & Hby); [done..|].
    exists v'. split; [exact E|]. rewrite !position_equiv_iff. unfold view_end. simpl.
    rewrite (end_offset_ok m v') by done. split_and!; (done || lia).
  - intros Hout. by apply (view_of_slice_throw m).
  - apply slice_from_eq.
  - apply (slice_size_eq m); [done|lia].
  - intros Hon. apply slice_size_ret; (done || lia).
  - intros [Hom He]. apply slice_from_ret; (done || lia).
Qed.

(** The three subscript operators are lookups in the joined bytes; an index
    outside the view throws [std::out_of_range], and no execution reaches
    [std::unreachable()]. *)
Theorem subscript_correct m v i (Hok : view_ok m v) (Hi : 0 <= i) :
  match view_bytes m v !! Z.to_nat i with
  | Some b =>
      at_index m v i = Ret b /\
      at_position m v (position_at (m_begin_offset v + i)) = Ret b /\
      at_from_end m v (FromEnd (m_size v - i)) = Ret b
  | None =>
      at_index m v i = throw out_of_range "index is out of range" /\
      at_position m v (position_at (m_begin_offset v + i)) = throw out_of_range "position is out of range" /\
      at_from_end m v (FromEnd (i + 1)) = throw out_of_range "from_end offset is out of range"
  end.
Proof.
  pose proof (view_bytes_len m v Hok) as Hlen. pose proof (end_offset_ok m v Hok) as Hend.
  destruct (Hok) as [Hsp Htot H0 Hlt]. unfold at_position, at_from_end. simpl. rewrite Hend.
  unfold at_index. destruct (view_bytes m v !! Z.to_nat i) as [b|] eqn:E.
  - pose proof (lookup_lt_Some _ _ _ E) as Hib. unfold len in Hlen.
    pose proof (at_index_ret m v i b Hok Hi E) as Ei.
    pose proof (at_from_end_ret m v i b Hok ltac:(lia) E) as Ef.
    unfold at_index, at_from_end in *. simpl in Ef. split_and!; [done| |done]. unwrap.
    replace ((m_begin_offset v + i >=? m_begin_offset v) && (m_begin_offset v + i <? m_begin_offset v + m_size v))
      with true by lia. simpl. by replace (m_begin_offset v + i - m_begin_offset v) with i by lia.
  - apply lookup_ge_None in E. unfold len in Hlen.
    rewrite Z.geb_leb. destruct (Z.leb_spec (m_size v) i); [|lia]. split; [done|].
    replace ((m_begin_offset v + i >=? m_begin_offset v) && (m_begin_offset v + i <? m_begin_offset v + m_size v))
      with false by lia.
    by replace ((i + 1 >? 0) && (i + 1 <=? m_size v)) with false by lia.
Qed.

(** [position_of] and [position_of_any] answer the first byte of the view,
    across segment boundaries, that is the wanted one (or one of them), as an
    absolute position; they answer the not-found position exactly when the
    joined bytes contain none. *)
Theorem position_of_correct m v value values (Hok : view_ok m v) :
  position_of m v value = position_result (m_begin_offset v) (memchr (view_bytes m v) value) /\
  position_of_any m v values =
    position_result (m_begin_offset v) (find_first_of (view_bytes m v) values).
Proof. split; [by apply position_of_byte|by apply position_of_bytes]. Qed.

(** C28: [position_of_sequence] finds the first occurrence of a non-empty pattern
    in the joined bytes, whether it lies inside a segment or straddles any
    number of boundaries, and answers not-found exactly when there is none.
    ([2 * len pat <= 2^64]: no C++ object exceeds [PTRDIFF_MAX] bytes.) *)
Theorem position_of_sequence_correct m v pat
    (Hok : view_ok m v) (Hpat : 0 < len pat) (Hmax : 2 * len pat <= size_modulus) :
  position_of_sequence m v pat = position_result (m_begin_offset v) (search (view_bytes m v) pat).
Proof.
  pose proof (view_bytes_len m v Hok) as Hlen. destruct (Hok) as [Hsp Htot H0 Hlt].
  assert (pat ≠ []) as Hp by (by intros ->).
  unfold position_of_sequence. destruct (Z.eqb_spec (len pat) 0); [lia|]. simpl.
  destruct (Z.gtb_spec (len pat) (m_size v)).
  { rewrite search_none; [done..|]. intros j Ho%occurs_bound; [|done]. unfold len in *. lia. }
  destruct pat as [|c [|d pat]]; [done| |].
  - by rewrite search_singleton, position_of_byte.
  - apply (find_sequence_spec m []); unfold len in *; simpl in *; try lia; try done.
    intros Hs. unfold is_single_segment, len in Hs. lia.
Qed.

(** [copy_to] copies the prefix that fits, returns its length, and changes no
    byte outside the destination. *)
Theorem copy_to_correct m v d (Hok : view_ok m v) (Hd : valid_span m d)
    (Hdis : Forall (disjoint_from d) (m_segments v)) :
  exists m', copy_to m v d = Ret (Z.min (s_size d) (m_size v), m') /\
    only_writes d m m' /\
    load m' (s_data d) (Z.min (s_size d) (m_size v)) =
      take (Z.to_nat (s_size d)) (view_bytes m v).
Proof.
  pose proof (view_bytes_len m v Hok) as Hlen. destruct (Hok) as [Hsp Htot H0 Hlt].
  destruct (Hd) as (Hd0 & Hdo & _). unfold copy_to. set (t := Z.min (s_size d) (m_size v)).
  pose proof (len_nonneg (view_bytes m v)).
  assert (take (Z.to_nat (s_size d)) (view_bytes m v) = take (Z.to_nat t) (view_bytes m v)) as ->.
  { destruct (Z.le_gt_cases (s_size d) (m_size v)); [f_equal; lia|].
    rewrite !take_ge; [done|unfold len in *; lia..]. }
  destruct (Z.eqb_spec t 0) as [->|].
  { exists m. split_and!; [done|apply only_writes_refl|]. by rewrite take_0. }
  unfold first_segment, view_bytes in *. destruct (is_single_segment v) eqn:Es.
  - apply single_segment_inv in Es as (s & Es). rewrite Es in *.
    apply Forall_cons in Hsp as [Hs _]. simpl in *. rewrite app_nil_r in *.
    rewrite (span_bytes_sub m s 0 t), drop_0 by (done || lia).
    assert (len (take (Z.to_nat t) (span_bytes m s)) = t) as Hk.
    { unfold len in *. rewrite length_take. lia. }
    pose proof (store_only_writes m d 0 _ Hd ltac:(lia) ltac:(rewrite Hk; lia)) as Hw.
    pose proof (load_store_extend m d 0 _ Hd ltac:(lia) ltac:(rewrite Hk; lia)) as Hx.
    rewrite Hk, ptr_add_0 in *. by eexists.
  - pose proof (copy_segments_spec (m_segments v) d t 0 m Hsp Hdis Hd) as H1. unfold is_size in H1.
    destruct (copy_segments m (m_segments v) d 0 t) as [n' m'].
    destruct H1 as (-> & Hw & Hl); [lia..|]. exists m'. split_and!; [done|done|].
    rewrite Hl, load_zero, Z.sub_0_r. done.
Qed.

(** [to_string] is the joined bytes; [as_string_view] is too, for a view of
    one segment, and throws [std::logic_error] otherwise. *)
Theorem to_string_correct m v (Hok : view_ok m v) :
  to_string m v = Ret (view_bytes m v) /\
  as_string_view m v =
    (if is_single_segment v then Ret (view_bytes m v)
     else throw logic_error "buffer must be a single segment to convert to string_view").
Proof.
  split; [by apply to_string_bytes|]. unfold as_string_view.
  destruct (is_single_segment v) eqn:Es; [by apply single_segment_bytes|done].
Qed.

(** ** Instances: "ello " and "world" as one view that starts at 3 *)
Section instances.
Definition demo_memory : memory :=
  Mem 3 (<[0%N := text "hello "]> (<[1%N := text "world"]> (<[2%N := text "--------"]> ∅))).
Definition demo_view : segmented_byte_view :=
  View [Span (Ptr 0 1) 5; Span (Ptr 1 0) 5] 3 10.
Definition demo_buffer : span := Span (Ptr 2 1) 6.

Lemma demo_view_ok : view_ok demo_memory demo_view.
Proof.
  split; try done. repeat constructor; try (simpl; lia); simpl; eexists; (split; [reflexivity|done]).
Qed.
Lemma demo_buffer_ok : valid_span demo_memory demo_buffer.
Proof. repeat constructor; try (simpl; lia). simpl. eexists. by split; [reflexivity|]. Qed.

Lemma slice_correct_witness :
  let v := demo_view in let b := position_at 6 in let e := position_at 10 in
  (exists v', slice v b e = Ret v' /\ view_bytes demo_memory v' =
     take (Z.to_nat (10 - 6)) (drop (Z.to_nat (6 - 3)) (view_bytes demo_memory v))) /\
  (exists v', slice_size v 2 5 = Ret v' /\ view_ok demo_memory v' /\ m_size v' = 5 /\
     view_bytes demo_memory v' = take (Z.to_nat 5) (drop (Z.to_nat 2) (view_bytes demo_memory v))) /\
  (exists v', slice_from v 2 e = Ret v' /\ view_ok demo_memory v' /\
     view_bytes demo_memory v' = take (Z.to_nat (10 - (3 + 2))) (drop (Z.to_nat 2) (view_bytes demo_memory v))) /\
  slice_in_place v b e = slice v b e /\
  slice_in_place_size v 2 5 = slice_size v 2 5.
Proof.
  destruct (slice_correct demo_memory demo_view (position_at 6) (position_at 10) 2 5 demo_view_ok ltac:(done) ltac:(done))
    as ((Hs & _) & _ & _ & _ & Hz & Hf & Hp & _ & _ & Hq).
  destruct Hs as (v' & E & _ & _ & _ & _ & Hb); [simpl; lia|]. simpl in Hz, Hf.
  split_and!; [by exists v'|by apply Hz|apply Hf; lia|exact Hp|exact Hq].
Defined.

Lemma subscript_correct_witness :
  match view_bytes demo_memory demo_view !! Z.to_nat 5 with
  | Some b =>
      at_index demo_memory demo_view 5 = Ret b /\
      at_position demo_memory demo_view (position_at (m_begin_offset demo_view + 5)) = Ret b /\
      at_from_end demo_memory demo_view (FromEnd (m_size demo_view - 5)) = Ret b
  | None =>
      at_index demo_memory demo_view 5 = throw out_of_range "index is out of range" /\
      at_position demo_memory demo_view (position_at (m_begin_offset demo_view + 5)) =
        throw out_of_range "position is out of range" /\
      at_from_end demo_memory demo_view (FromEnd (5 + 1)) = throw out_of_range "from_end offset is out of range"
  end.
Proof. exact (subscript_correct demo_memory demo_view 5 demo_view_ok ltac:(done)). Defined.

Lemma position_of_correct_witness :
  position_of demo_memory demo_view x6f =
    position_result (m_begin_offset demo_view) (memchr (view_bytes demo_memory demo_view) x6f) /\
  position_of_any demo_memory demo_view (text "dr") =
    position_result (m_begin_offset demo_view) (find_first_of (view_bytes demo_memory demo_view) (text "dr")).
Proof. exact (position_of_correct demo_memory demo_view x6f (text "dr") demo_view_ok). Defined.

(** "o wor" straddles the two segments. *)
Lemma position_of_sequence_correct_witness :
  position_of_sequence demo_memory demo_view (text "o wor") =
    position_result (m_begin_offset demo_view) (search (view_bytes demo_memory demo_view) (text "o wor")).
Proof. by apply (position_of_sequence_correct demo_memory demo_view (text "o wor") demo_view_ok). Defined.

Lemma copy_to_correct_witness :
  exists m', copy_to demo_memory demo_view demo_buffer = Ret (Z.min 6 10, m') /\
    only_writes demo_buffer demo_memory m' /\
    load m' (s_data demo_buffer) (Z.min 6 10) = take (Z.to_nat 6) (view_bytes demo_memory demo_view).
Proof.
  apply (copy_to_correct demo_memory demo_view demo_buffer demo_view_ok demo_buffer_ok).
  apply Forall_cons; split; [by left|]. apply Forall_cons; split; [by left|]. by apply Forall_nil.
Defined.

Lemma to_string_correct_witness :
  to_string demo_memory demo_view = Ret (view_bytes demo_memory demo_view) /\
  as_string_view demo_memory demo_view =
    (if is_single_segment demo_view then Ret (view_bytes demo_memory demo_view)
     else throw logic_error "buffer must be a single segment to convert to string_view").
Proof. exact (to_string_correct demo_memory demo_view demo_view_ok). Defined.
End instances.
