(* ===== verification/Lines.v ===== *)
(** Lines: the list of those a stream completes, and the loops that take them
    off the front of a view ([samples/]) one [position_of] at a time. *)

From S2P Require Import Prelude Memory Position ByteView.

(** The lines a stream completes, and what follows the last newline. *)
Fixpoint split_lines (l : bytes) : list bytes * bytes :=
  match l with
  | [] => ([], [])
  | x :: l =>
      let '(lines, rest) := split_lines l in
      if Byte.eqb x x0a then ([] :: lines, rest)
      else match lines with
           | [] => ([], x :: rest)
           | first :: lines => ((x :: first) :: lines, rest)
           end
  end.

(** [l] ends where a line does. *)
Definition whole (l : bytes) : Prop := (split_lines l).2 = [].

(** ** Splitting *)

Lemma memchr_split l c i :
  memchr l c = Some i -> l = take i l ++ c :: drop (S i) l /\ (c ∉ take i l) /\ (i < length l)%nat.
Proof.
  unfold memchr. intros (Hi & Hj)%find_index_Some. destruct Hi as (b & Hb & ->%bool_decide_eq_true).
  split_and!; [by rewrite take_drop_middle| |by eapply lookup_lt_Some].
  intros (j & Hl)%list_elem_of_lookup. apply lookup_take_Some in Hl as [Hl Hlt].
  specialize (Hj j c Hlt Hl). apply bool_decide_eq_false in Hj. done.
Qed.

Lemma memchr_none l c : memchr l c = None -> c ∉ l.
Proof.
  unfold memchr. induction l as [|x l IH]; cbn; [intros _; apply not_elem_of_nil|].
  case_bool_decide; [done|]. intros E. apply fmap_None in E. apply not_elem_of_cons. split; [done|by apply IH].
Qed.

Lemma split_lines_no_newline l : x0a ∉ l -> split_lines l = ([], l).
Proof.
  induction l as [|x l IH]; [done|]. intros [Hx Hl]%not_elem_of_cons. cbn. rewrite IH by done.
  destruct (Byte.eqb x x0a) eqn:E; [|done]. by apply Byte.byte_dec_bl in E.
Qed.

Lemma split_lines_first a b :
  x0a ∉ a -> split_lines (a ++ x0a :: b) = (a :: (split_lines b).1, (split_lines b).2).
Proof.
  induction a as [|x a IH]; [cbn; by destruct (split_lines b)|]. intros [Hx Ha]%not_elem_of_cons. cbn.
  rewrite IH by done. destruct (Byte.eqb x x0a) eqn:E; [|done]. by apply Byte.byte_dec_bl in E.
Qed.

Lemma split_lines_app a b :
  (split_lines a).2 = [] -> split_lines (a ++ b) = ((split_lines a).1 ++ (split_lines b).1, (split_lines b).2).
Proof.
  revert b. induction a as [|x a IH]; intros b; [cbn; intros _; by destruct (split_lines b)|]. cbn.
  destruct (split_lines a) as [ls r] eqn:Ea. destruct (Byte.eqb x x0a) eqn:Ex.
  - cbn. intros ->. rewrite IH by done. by destruct (split_lines b).
  - destruct ls as [|l ls]; [done|]. cbn. intros ->. rewrite IH by done. cbn. by destruct (split_lines b).
Qed.

Lemma split_lines_prefix a b :
  x0a ∉ a -> split_lines (a ++ b) =
    match (split_lines b).1 with
    | [] => ([], a ++ (split_lines b).2)
    | first :: lines => ((a ++ first) :: lines, (split_lines b).2)
    end.
Proof.
  induction a as [|x a IH]; [intros _; cbn; by destruct (split_lines b) as [[|] ?]|].
  intros [Hx Ha]%not_elem_of_cons. cbn. rewrite IH by done. destruct (Byte.eqb x x0a) eqn:E; [by apply Byte.byte_dec_bl in E|].
  by destruct (split_lines b).1.
Qed.

Lemma split_lines_concat lines :
  Forall (fun line => x0a ∉ line) lines -> split_lines (concat (map (fun line => line ++ [x0a]) lines)) = (lines, []).
Proof.
  induction 1 as [|line lines Hl _ IH]; [done|]. cbn. rewrite <- app_assoc. cbn. by rewrite split_lines_first, IH.
Qed.

(** No line is longer than [n], nor what follows the last. *)
Definition lines_below (n : Z) (l : bytes) : Prop :=
  Forall (fun line => len line <= n) (split_lines l).1 /\ len (split_lines l).2 <= n.

Lemma line_below n a b c : lines_below n (a ++ b ++ c) -> whole a -> x0a ∉ b -> len b <= n.
Proof.
  intros [Hl Hr] Ha Hb. rewrite split_lines_app, split_lines_prefix in * by done. pose proof (@len_nonneg byte) as Hnn.
  destruct (split_lines c) as [[|first lines] r]; cbn in *.
  - rewrite len_app in Hr. specialize (Hnn r). lia.
  - apply Forall_app in Hl as [_ [Hf _]%Forall_cons]. rewrite len_app in Hf. specialize (Hnn first). lia.
Qed.

(** A stream and its lines determine each other. *)
Lemma split_lines_join l :
  l = concat (map (fun line => line ++ [x0a]) (split_lines l).1) ++ (split_lines l).2 /\
  Forall (fun line => x0a ∉ line) (split_lines l).1 /\ x0a ∉ (split_lines l).2.
Proof.
  induction l as [|x l IH]; [split_and!; [done|constructor|apply not_elem_of_nil]|]. cbn.
  destruct (split_lines l) as [ls r] eqn:El. cbn in IH. destruct IH as (E & Hls & Hr).
  destruct (Byte.eqb x x0a) eqn:Ex.
  - apply Byte.byte_dec_bl in Ex as ->. cbn. split_and!; [by rewrite <- E| |done].
    constructor; [apply not_elem_of_nil|done].
  - assert (x ≠ x0a) by (intros ->; by rewrite Byte.byte_dec_lb in Ex).
    destruct ls as [|first ls]; cbn in *.
    + split_and!; [by rewrite E at 1|constructor|]. apply not_elem_of_cons. by split.
    + apply Forall_cons in Hls as [Hf Hls]. split_and!; [by rewrite E at 1| |done].
      constructor; [|done]. apply not_elem_of_cons. by split.
Qed.

Lemma no_newline_app (l k : bytes) : x0a ∉ l -> x0a ∉ k -> x0a ∉ l ++ k.
Proof. intros ? ? [?|?]%elem_of_app; done. Qed.

(** ** Views *)

(** What the data view becomes does not depend on the memory. *)
Definition tail_of (r data : segmented_byte_view) (k : Z) : Prop :=
  0 <= k <= m_size r /\ m_begin_offset data = m_begin_offset r + k /\ m_size data = m_size r - k /\
  forall m, view_ok m r -> view_ok m data /\ view_bytes m data = drop (Z.to_nat k) (view_bytes m r).

Lemma tail_of_refl m r : view_ok m r -> tail_of r r 0.
Proof. intros H. pose proof (view_size_nonneg m r H). split_and!; [lia..|]. done. Qed.

Lemma tail_of_trans r d d' k n : tail_of r d k -> tail_of d d' n -> tail_of r d' (k + n).
Proof.
  intros (Hk & Hb & Hs & H) (Hn & Hb' & Hs' & H'). split_and!; [lia..|]. intros m Hok.
  destruct (H m Hok) as [Hok1 E1]. destruct (H' m Hok1) as [Hok2 E2]. split; [done|].
  rewrite E2, E1, drop_drop. f_equal. lia.
Qed.

Lemma slice_tail_of m v b :
  view_ok m v -> m_begin_offset v <= m_offset b <= m_begin_offset v + m_size v ->
  exists v', slice_in_place v b (view_end v) = Ret v' /\ tail_of v v' (m_offset b - m_begin_offset v).
Proof.
  intros Hok Hb. assert (m_offset (view_end v) = m_begin_offset v + m_size v) as He by exact (end_offset_ok m v Hok).
  change (slice_in_place v b (view_end v)) with (slice v b (view_end v)).
  destruct (slice_ret m v b (view_end v) Hok) as (v' & E & _ & Hbe & Hsz & _); [lia..|].
  exists v'. split; [done|]. split_and!; [lia..|]. intros m' Hok'.
  destruct (slice_ret m' v b (view_end v) Hok') as (v1 & E1 & Hok1 & _ & _ & Hby); [lia..|].
  rewrite E in E1. injection E1 as <-. split; [done|]. rewrite Hby, take_ge; [done|].
  pose proof (view_bytes_len m' v Hok'). unfold len in *. rewrite length_drop. lia.
Qed.

(** The line before a newline, and the view behind it. *)
Lemma line_slices m v i :
  view_ok m v -> memchr (view_bytes m v) x0a = Some i ->
  exists line v', view_ok m line /\ view_bytes m line = take i (view_bytes m v) /\
    m_offset (position_of m v x0a) = m_begin_offset line + m_size line /\
    slice_end v (position_of m v x0a) = Ret line /\
    slice_in_place v (position_add (position_of m v x0a) 1) (view_end v) = Ret v' /\ tail_of v v' (Z.of_nat (S i)).
Proof.
  intros Hok Hi. destruct (memchr_split _ _ _ Hi) as (_ & _ & Hlt).
  pose proof (view_bytes_len m v Hok) as Hlen. destruct (Hok) as [_ _ H0 Hmax]. unfold len in Hlen.
  rewrite position_of_byte, Hi by done. cbn [position_result]. set (pos := position_at _).
  change (slice_end v pos) with (slice v (view_begin v) pos).
  destruct (slice_ret m v (view_begin v) pos) as (line & -> & Hlv & Hlb & Hls & Hby); [done|cbn; lia|cbn; lia|].
  destruct (slice_tail_of m v (position_add pos 1)) as (v' & -> & Ht); [done|cbn; unwrap; lia|].
  exists line, v'. split_and!; try done.
  - rewrite Hby. cbn. rewrite Z.sub_diag, drop_0. f_equal. lia.
  - rewrite Hlb, Hls. cbn. lia.
  - cbn in Ht. unwrap in Ht. by replace (m_begin_offset v + Z.of_nat i + 1 - m_begin_offset v) with (Z.of_nat (S i)) in Ht by lia.
Qed.
