(* ===== verification/Resource.v ===== *)
(** The interface between the pipeline and its memory resource: what
    [std::pmr::memory_resource] is used for (src/pipeline/data_segment.h),
    and the contract the pipeline relies on.  The two resources of
    src/pipeline/custom_allocators discharge it in Pools.v; the pipeline's
    theorems are proved against it. *)

From S2P Require Import Prelude Memory.

(** [resource.allocate(bytes, alignment)],
    [resource.deallocate(p, bytes, alignment)] and the destructor. *)
Class MemoryResource (R : Type) := {
  allocate : R -> memory -> Z -> Z -> outcome (ptr * R * memory);
  deallocate : R -> memory -> ptr -> Z -> Z -> outcome (R * memory);
  destroy_resource : R -> memory -> outcome memory
}.

(** [alignof(std::byte)]. *)
Definition buffer_alignment : Z := 1.

(** The buffers in use are inside live blocks and share no byte. *)
Record buffers_ok (m : memory) (size : Z) (live : list ptr) : Prop := {
  buffers_valid : Forall (fun p => valid_range m p size) live;
  buffers_disjoint : forall i j p q,
    live !! i = Some p -> live !! j = Some q -> i ≠ j -> disjoint_range p size q size
}.

(** The contract, for buffers of one size of which at most [max] are in use
    at a time and which are given back in the order they were taken:
    [resource_inv r size max m live] says that [r] has handed out exactly the
    buffers [live], oldest first, and that [m] holds no block but those [r]
    obtained; with no buffer in use, the destructor gives every block back. *)
Class ResourceLaws (R : Type) `{MemoryResource R} := {
  resource_inv : R -> Z -> Z -> memory -> list ptr -> Prop;
  resource_buffers r size max m live :
    resource_inv r size max m live -> buffers_ok m size live;
  resource_layout r size max m m' live :
    resource_inv r size max m live -> same_layout m m' -> resource_inv r size max m' live;
  resource_allocate r size max m live :
    resource_inv r size max m live -> 0 < size -> len live < max ->
    exists p r' m', allocate r m size buffer_alignment = Ret (p, r', m') /\
      resource_inv r' size max m' (live ++ [p]) /\
      Forall (fun q => load m' q size = load m q size) live;
  resource_deallocate r size max m p live :
    resource_inv r size max m (p :: live) -> 0 < size ->
    exists r' m', deallocate r m p size buffer_alignment = Ret (r', m') /\
      resource_inv r' size max m' live /\
      Forall (fun q => load m' q size = load m q size) live;
  resource_destroy r size max m :
    resource_inv r size max m [] ->
    exists m', destroy_resource r m = Ret m' /\ m_blocks m' = ∅
}.

Lemma buffers_ok_layout m m' size live :
  buffers_ok m size live -> same_layout m m' -> buffers_ok m' size live.
Proof.
  intros [Hv Hd] Hl. split; [|done]. eapply Forall_impl; [exact Hv|].
  intros p. by apply same_layout_valid.
Qed.

Lemma buffers_ok_tail m size p live : buffers_ok m size (p :: live) -> buffers_ok m size live.
Proof.
  intros [[_ Hv]%Forall_cons Hd]. split; [done|].
  intros i j q r Hi Hj Hne. apply (Hd (S i) (S j)); [done..|lia].
Qed.

(** ** Clients that give buffers back in order *)
Section fifo.
Context {R : Type} `{ResourceLaws R}.

Inductive fifo_request := TakeNext | GiveBackOldest.

(** A client that takes the next buffer or returns the oldest one it holds;
    holding none, it returns [stray]. *)
Definition fifo_serve (size : Z) (stray : ptr) (s : R * memory * list ptr) (q : fifo_request)
    : outcome (R * memory * list ptr) :=
  let '(r, m, live) := s in
  match q with
  | TakeNext =>
      '(p, r', m') ← allocate r m size buffer_alignment; Ret (r', m', live ++ [p])
  | GiveBackOldest =>
      '(r', m') ← deallocate r m (default stray (head live)) size buffer_alignment; Ret (r', m', tail live)
  end.

Fixpoint fifo_serve_all (size : Z) (stray : ptr) (s : R * memory * list ptr) (qs : list fifo_request)
    : outcome (R * memory * list ptr) :=
  match qs with
  | [] => Ret s
  | q :: qs => s' ← fifo_serve size stray s q; fifo_serve_all size stray s' qs
  end.

(** The requests the contract allows: with [n] buffers out, another one only
    below [max], and one back only when one is out. *)
Definition in_order_request (max n : Z) (q : fifo_request) : bool :=
  match q with TakeNext => n <? max | GiveBackOldest => 0 <? n end.

Definition request_change (q : fifo_request) : Z := match q with TakeNext => 1 | GiveBackOldest => -1 end.

Fixpoint in_order (max n : Z) (qs : list fifo_request) : bool :=
  match qs with
  | [] => true
  | q :: qs => in_order_request max n q && in_order max (n + request_change q) qs
  end.

(** The buffers out after them. *)
Fixpoint balance (qs : list fifo_request) : Z :=
  match qs with [] => 0 | q :: qs => request_change q + balance qs end.

Lemma fifo_serve_inv size max stray q r m live :
  0 < size -> resource_inv r size max m live -> in_order_request max (len live) q = true ->
  exists r' m' live', fifo_serve size stray (r, m, live) q = Ret (r', m', live') /\
    resource_inv r' size max m' live' /\ len live' = len live + request_change q.
Proof.
  intros Hs Hi Hq. destruct q; cbn [fifo_serve in_order_request request_change] in *.
  - destruct (resource_allocate r size max m live) as (p & r' & m' & -> & Hi' & _); [done..|lia|].
    eexists _, _, _. split_and!; [done..|]. by rewrite len_app.
  - destruct live as [|p live]; [done|].
    destruct (resource_deallocate r size max m p live) as (r' & m' & E & Hi' & _); [done..|].
    cbn [head from_option id tail]. rewrite E. eexists _, _, _. split_and!; [done..|]. rewrite len_cons. cbn [tail]. lia.
Qed.

Lemma fifo_serve_all_inv size max stray qs r m live :
  0 < size -> resource_inv r size max m live -> in_order max (len live) qs = true ->
  exists r' m' live', fifo_serve_all size stray (r, m, live) qs = Ret (r', m', live') /\
    resource_inv r' size max m' live' /\ len live' = len live + balance qs.
Proof.
  intros Hs. revert r m live. induction qs as [|q qs IH]; intros r m live Hi; cbn [fifo_serve_all in_order balance].
  { eexists _, _, _. split_and!; [done..|lia]. }
  intros [Hq Hqs]%andb_true_iff.
  destruct (fifo_serve_inv size max stray q r m live Hs Hi Hq) as (r' & m' & live' & -> & Hi' & El).
  rewrite <- El in Hqs. cbn [mbind outcome_bind]. destruct (IH r' m' live' Hi' Hqs) as (r2 & m2 & live2 & -> & Hi2 & El2).
  eexists _, _, _. split_and!; [done..|lia].
Qed.
End fifo.
