(* ===== verification/Pools.v ===== *)
(** The pool resources of src/pipeline/custom_allocators:
    [xtd::fixed_pool_resource] keeps returned buffers on a bounded stack;
    [xtd::arena_pool_resource] is a ring of equal segments cut from one
    block, correct only when buffers come back in the order they left. *)

From S2P Require Import Prelude Memory Resource.

(** * [fixed_pool_resource] *)
Module Fixed.

Record fixed_pool_resource := Pool {
  m_available_buffers : list ptr; (* back() is the last element *)
  m_buffer_size : Z;
  m_max_pool_size : Z
}.

(** The constructor's assertions, then an empty stack. *)
Definition make (buffer_size max_pool_size : Z) : outcome fixed_pool_resource :=
  if (max_pool_size >? 0) && (buffer_size >? 0) then Ret (Pool [] buffer_size max_pool_size)
  else Undef.

Definition do_allocate (r : fixed_pool_resource) (m : memory) (nbytes alignment : Z)
    : outcome (ptr * fixed_pool_resource * memory) :=
  if negb ((nbytes >? 0) && (alignment =? buffer_alignment)) then Undef
  else
    match last (m_available_buffers r) with
    | None =>
        let '(p, m') := operator_new nbytes m in Ret (p, r, m')
    | Some buffer =>
        Ret (buffer,
             Pool (removelast (m_available_buffers r)) (m_buffer_size r) (m_max_pool_size r), m)
    end.

Definition do_deallocate (r : fixed_pool_resource) (m : memory) (pointer : ptr) (nbytes alignment : Z)
    : outcome (fixed_pool_resource * memory) :=
  if negb ((nbytes =? m_buffer_size r) && (alignment =? buffer_alignment)) then Undef
  else if len (m_available_buffers r) <? m_max_pool_size r then
    Ret (Pool (m_available_buffers r ++ [pointer]) (m_buffer_size r) (m_max_pool_size r), m)
  else m' ← operator_delete pointer m; Ret (r, m').

(** [~fixed_pool_resource()]. *)
Definition destroy (r : fixed_pool_resource) (m : memory) : outcome (fixed_pool_resource * memory) :=
  m' ← delete_all (m_available_buffers r) m;
  Ret (Pool [] (m_buffer_size r) (m_max_pool_size r), m').

Definition pool_size (r : fixed_pool_resource) : Z := len (m_available_buffers r).
Definition max_pool_size (r : fixed_pool_resource) : Z := m_max_pool_size r.

#[global] Instance fixed_resource : MemoryResource fixed_pool_resource := {
  allocate := do_allocate;
  deallocate := do_deallocate;
  destroy_resource r m := '(_, m') ← destroy r m; Ret m'
}.

(** Each buffer, handed out or retained, is the base of a block of its own. *)
Record inv (r : fixed_pool_resource) (size max : Z) (m : memory) (live : list ptr) : Prop := {
  inv_memory : memory_ok m;
  inv_size : m_buffer_size r = size;
  inv_max : m_max_pool_size r = max;
  inv_bound : len (m_available_buffers r) <= max;
  inv_blocks : Forall (fun p => p_off p = 0 /\ exists bs, m_blocks m !! p_block p = Some bs /\ len bs = size)
                      (live ++ m_available_buffers r);
  inv_distinct : NoDup (p_block <$> (live ++ m_available_buffers r));
  inv_owned : owned m (p_block <$> (live ++ m_available_buffers r))
}.

Lemma fixed_inv_buffers r size max m live : inv r size max m live -> buffers_ok m size live.
Proof.
  intros [Hm Hs Hx Hb Hbl Hnd Hown]. apply Forall_app in Hbl as [Hl _].
  rewrite fmap_app in Hnd. apply NoDup_app in Hnd as [Hnd _]. split.
  - eapply Forall_impl; [exact Hl|]. intros p [Ho (bs & E & Hlen)]. pose proof (len_nonneg bs).
    split; [lia|]. split; [lia|]. exists bs. split; [done|lia].
  - intros i j p q Hi Hj Hne. left. intros E. apply Hne.
    eapply NoDup_lookup; [exact Hnd| |]; rewrite list_lookup_fmap; [rewrite Hi|rewrite Hj]; simpl; [done|].
    by rewrite E.
Qed.

Lemma fixed_inv_layout r size max m m' live :
  inv r size max m live -> same_layout m m' -> inv r size max m' live.
Proof.
  intros [Hm Hs Hx Hb Hbl Hnd Hown] [Hn Hl]. split; try done.
  - intros b bs E. rewrite <- Hn. specialize (Hl b). rewrite E in Hl.
    destruct (m_blocks m !! b) eqn:E'; simplify_eq/=. by eapply Hm.
  - eapply Forall_impl; [exact Hbl|]. intros p [Ho (bs & E & Hlen)]. split; [done|].
    specialize (Hl (p_block p)). rewrite E in Hl. simpl in Hl.
    destruct (m_blocks m' !! p_block p) as [bs'|]; simplify_eq/=. exists bs'. split; [done|].
    unfold len in *. lia.
  - by eapply owned_layout.
Qed.

Lemma removelast_last (l : list ptr) p : last l = Some p -> l = removelast l ++ [p].
Proof.
  intros E. apply last_Some in E as [l' ->]. by rewrite removelast_last.
Qed.

Lemma fixed_inv_allocate r size max m live :
  inv r size max m live -> 0 < size ->
  exists p r' m', do_allocate r m size buffer_alignment = Ret (p, r', m') /\
    inv r' size max m' (live ++ [p]) /\
    Forall (fun q => load m' q size = load m q size) live.
Proof.
  intros [Hm Hs Hx Hb Hbl Hnd Hown] Hpos. unfold do_allocate.
  replace (negb ((size >? 0) && (buffer_alignment =? buffer_alignment))) with false by (simpl; lia).
  destruct (last (m_available_buffers r)) as [p|] eqn:E.
  - apply removelast_last in E. set (rest := removelast (m_available_buffers r)) in *.
    eexists _, _, _. split; [done|]. split; [|by apply Forall_forall].
    assert (live ++ m_available_buffers r ≡ₚ (live ++ [p]) ++ rest) as Hp.
    { rewrite E, <- app_assoc. by rewrite (Permutation_app_comm rest). }
    split; simpl; try done.
    + rewrite E, len_app in Hb. unfold len in *. simpl in *. lia.
    + by rewrite <- Hp.
    + by rewrite <- Hp.
    + eapply owned_perm; [|exact Hown]. by rewrite Hp.
  - apply last_None in E. rewrite E, app_nil_r in *.
    eexists _, _, _. split; [done|]. split.
    + split; simpl; try done.
      * by apply (operator_new_ok size m).
      * by rewrite E.
      * rewrite E, app_nil_r. apply Forall_app. split.
        -- eapply Forall_impl; [exact Hbl|]. intros q [Ho (bs & Eb & Hlen)]. split; [done|].
           exists bs. split; [|done]. by apply (operator_new_block size m).
        -- apply Forall_singleton. simpl. split; [done|]. eexists. rewrite lookup_insert_eq.
           split; [done|]. unfold len. rewrite length_replicate. lia.
      * rewrite E, app_nil_r, fmap_app. apply NoDup_app. split; [done|]. split; [|apply NoDup_singleton].
        intros b Hin Hb'. apply list_elem_of_singleton in Hb'. simpl in Hb'. subst b.
        apply list_elem_of_fmap in Hin as (q & Eq & Hq). rewrite Forall_forall in Hbl.
        destruct (Hbl q Hq) as [_ (bs & Hbs & _)]. apply Hm in Hbs. lia.
      * rewrite E, app_nil_r, fmap_app. by apply (owned_new size m).
    + eapply Forall_impl; [exact Hbl|]. intros q [Ho (bs & Eb & _)]. apply load_block_eq.
      rewrite Eb. by apply (operator_new_block size m).
Qed.

Lemma fixed_inv_deallocate r size max m p live :
  inv r size max m (p :: live) -> 0 < size ->
  exists r' m', do_deallocate r m p size buffer_alignment = Ret (r', m') /\
    inv r' size max m' live /\
    Forall (fun q => load m' q size = load m q size) live.
Proof.
  intros [Hm Hs Hx Hb Hbl Hnd Hown] Hpos. unfold do_deallocate. rewrite Hs, Hx.
  replace (negb ((size =? size) && (buffer_alignment =? buffer_alignment))) with false by (simpl; lia).
  destruct (Z.ltb_spec (len (m_available_buffers r)) max).
  - eexists _, _. split; [done|]. split; [|by apply Forall_forall].
    assert ((p :: live) ++ m_available_buffers r ≡ₚ live ++ m_available_buffers r ++ [p]) as Hp.
    { rewrite app_assoc, (Permutation_app_comm (live ++ _) [p]). done. }
    split; simpl; try done.
    + rewrite len_app. unfold len in *. simpl. lia.
    + by rewrite <- Hp.
    + by rewrite <- Hp.
    + eapply owned_perm; [|exact Hown]. by rewrite Hp.
  - simpl in Hbl, Hnd. apply NoDup_cons in Hnd as [Hnin Hnd].
    assert (forall q, q ∈ live ++ m_available_buffers r -> p_block q ≠ p_block p) as Hne.
    { intros q Hq E. apply Hnin. rewrite <- E. by apply list_elem_of_fmap_2. }
    apply Forall_cons in Hbl as [(Ho & bs & Eb & _) Hbl].
    rewrite operator_delete_ret by (done || by eexists).
    eexists _, _. split; [done|]. split.
    + split; try done; [by apply free_block_ok| |by apply owned_free].
      apply Forall_forall. intros q Hq. rewrite Forall_forall in Hbl.
      destruct (Hbl q Hq) as [Hq0 (bs' & E & Hlen)]. split; [done|]. exists bs'. split; [|done].
      simpl. rewrite lookup_delete_ne; [done|]. by apply not_eq_sym, Hne.
    + apply Forall_forall. intros q Hq. apply load_block_eq. simpl.
      rewrite lookup_delete_ne; [done|]. apply not_eq_sym, Hne, elem_of_app. by left.
Qed.

Lemma fixed_inv_destroy r size max m :
  inv r size max m [] -> exists m', destroy_resource r m = Ret m' /\ m_blocks m' = ∅.
Proof.
  intros [Hm _ _ _ Hbl Hnd Hown]. cbn [destroy_resource fixed_resource]. unfold destroy.
  destruct (delete_all_owned (m_available_buffers r) m) as (m' & -> & Hb); [|done..|by eexists].
  eapply Forall_impl; [exact Hbl|]. intros p [Ho (bs & E & _)]. split; [done|by eexists].
Qed.

#[global] Instance fixed_laws : ResourceLaws fixed_pool_resource := {
  resource_inv := inv;
  resource_buffers := fixed_inv_buffers;
  resource_layout := fixed_inv_layout;
  resource_allocate r size max m live H1 H2 _ := fixed_inv_allocate r size max m live H1 H2;
  resource_deallocate := fixed_inv_deallocate;
  resource_destroy := fixed_inv_destroy
}.

Lemma fixed_make_inv size max :
  0 < size -> 0 < max ->
  exists r, make size max = Ret r /\ inv r size max empty_memory [].
Proof.
  intros Hs Hx. unfold make. replace ((max >? 0) && (size >? 0)) with true by lia.
  eexists. split; [done|]. split; simpl; try done.
  - unfold len. simpl. lia.
  - constructor.
  - by intros b [].
Qed.

(** ** Any sequence of requests

    Unlike the arena, this pool accepts buffers back in any order. *)

Inductive request := Take | GiveBack (i : nat).

Definition serve (size : Z) (s : fixed_pool_resource * memory * list ptr) (q : request)
    : outcome (fixed_pool_resource * memory * list ptr) :=
  let '(r, m, live) := s in
  match q with
  | Take =>
      '(p, r', m') ← do_allocate r m size buffer_alignment; Ret (r', m', live ++ [p])
  | GiveBack i =>
      match live !! i with
      | None => Ret s
      | Some p =>
          '(r', m') ← do_deallocate r m p size buffer_alignment; Ret (r', m', delete i live)
      end
  end.

Fixpoint serve_all (size : Z) (s : fixed_pool_resource * memory * list ptr) (qs : list request)
    : outcome (fixed_pool_resource * memory * list ptr) :=
  match qs with
  | [] => Ret s
  | q :: qs => s' ← serve size s q; serve_all size s' qs
  end.

(** Every block is handed out or retained: nothing leaks. *)
Definition exact (r : fixed_pool_resource) (m : memory) (live : list ptr) : Prop :=
  base.size (m_blocks m) = length (live ++ m_available_buffers r).

Lemma inv_perm r size max m live live' : live ≡ₚ live' -> inv r size max m live -> inv r size max m live'.
Proof. intros Hp [Hm Hs Hx Hb Hbl Hnd Hown]. split; try done; try (by rewrite <- Hp). eapply owned_perm; [|done]. by rewrite Hp. Qed.

Lemma serve_inv size max q r m live :
  0 < size -> inv r size max m live -> exact r m live ->
  exists r' m' live', serve size (r, m, live) q = Ret (r', m', live') /\
    inv r' size max m' live' /\ exact r' m' live'.
Proof.
  intros Hpos Hi Hx. destruct q as [|i]; simpl.
  - destruct (fixed_inv_allocate r size max m live Hi Hpos) as (p & r' & m' & E & Hi' & _).
    rewrite E. simpl. eexists _, _, _. split; [done|]. split; [done|].
    unfold exact, do_allocate in *. case_match; [done|].
    destruct (last (m_available_buffers r)) eqn:El; simplify_eq/=.
    + apply removelast_last in El. rewrite El in Hx. rewrite Hx, !length_app. simpl. lia.
    + rewrite map_size_insert_None, Hx, !length_app; [simpl; lia|].
      destruct (m_blocks m !! m_next m) eqn:Eb; [|done]. apply (inv_memory _ _ _ _ _ Hi) in Eb. lia.
  - destruct (live !! i) as [p|] eqn:El; [|by eexists _, _, _].
    apply delete_Permutation in El.
    pose proof (inv_perm _ _ _ _ _ _ El Hi) as Hi2.
    destruct (fixed_inv_deallocate r size max m p _ Hi2 Hpos) as (r' & m' & E & Hi' & _).
    rewrite E. simpl. eexists _, _, _. split; [done|]. split; [done|].
    pose proof (inv_blocks _ _ _ _ _ Hi2) as [(Ho & bs & Eb & _) _]%Forall_cons.
    unfold exact, do_deallocate in *. rewrite (operator_delete_ret p m) in E by (done || by eexists).
    rewrite El in Hx. rewrite !length_app in *. simpl in Hx.
    repeat case_match; simplify_eq/=; rewrite ?length_app; simpl; [lia|].
    rewrite map_size_delete_Some by (by exists bs). lia.
Qed.

(** C29: Whatever the order of requests, the buffers in use never overlap, the
    pool retains at most [max] of the others, and every block allocated from
    the system is in use or retained. *)
Theorem fixed_pool_correct size max qs (Hsize : 0 < size) (Hmax : 0 < max) :
  exists r0 r m live,
    make size max = Ret r0 /\
    serve_all size (r0, empty_memory, []) qs = Ret (r, m, live) /\
    buffers_ok m size live /\ pool_size r <= max_pool_size r /\ max_pool_size r = max /\
    base.size (m_blocks m) = (length live + length (m_available_buffers r))%nat.
Proof.
  destruct (fixed_make_inv size max Hsize Hmax) as (r0 & Er & Hi).
  assert (exact r0 empty_memory []) as Hx.
  { unfold make in Er. case_match; simplify_eq/=. done. }
  assert (exists r m live, serve_all size (r0, empty_memory, []) qs = Ret (r, m, live) /\
    inv r size max m live /\ exact r m live) as (r & m & live & E & Hi' & Hx').
  { clear Er. revert Hi Hx. generalize r0 empty_memory (@nil ptr).
    induction qs as [|q qs IH]; intros r m live Hi Hx; cbn [serve_all]; [by eexists _, _, _|].
    destruct (serve_inv size max q r m live Hsize Hi Hx) as (r' & m' & live' & -> & Hi' & Hx').
    by apply IH. }
  exists r0, r, m, live. split_and!; try done.
  - by eapply fixed_inv_buffers.
  - unfold pool_size, max_pool_size. destruct Hi'. lia.
  - by destruct Hi'.
  - unfold exact in Hx'. by rewrite Hx', length_app.
Qed.

Lemma fixed_pool_correct_witness :
  exists r0 r m live,
    make 64 1 = Ret r0 /\
    serve_all 64 (r0, empty_memory, []) [Take; Take; GiveBack 0; GiveBack 0; Take] = Ret (r, m, live) /\
    buffers_ok m 64 live /\ pool_size r <= max_pool_size r /\ max_pool_size r = 1 /\
    base.size (m_blocks m) = (length live + length (m_available_buffers r))%nat.
Proof. apply (fixed_pool_correct 64 1); reflexivity. Defined.

End Fixed.

(** * [arena_pool_resource] *)
Module Arena.

Record arena_pool_resource := Arena {
  m_segment_size : Z;
  m_max_pool_size : Z;
  m_total_size : Z;
  m_storage : ptr;
  m_end : ptr;
  m_head : ptr;
  m_tail : ptr;
  m_active_buffers : Z
}.

Definition calculate_total_size (buffer_size max_pool_size : Z) : outcome Z :=
  if (buffer_size >? 0) && (max_pool_size >? 0) then Ret (buffer_size *! max_pool_size) else Undef.

Definition make (buffer_size max_pool_size : Z) (m : memory) : outcome (arena_pool_resource * memory) :=
  total_size ← calculate_total_size buffer_size max_pool_size;
  let '(storage, m') := operator_new total_size m in
  Ret (Arena buffer_size max_pool_size total_size storage (ptr_add storage total_size) storage storage 0, m').

Definition advance (r : arena_pool_resource) (pointer : ptr) : ptr :=
  let pointer := ptr_add pointer (m_segment_size r) in
  if bool_decide (pointer = m_end r) then m_storage r else pointer.

Definition do_allocate (r : arena_pool_resource) (m : memory) (nbytes alignment : Z)
    : outcome (ptr * arena_pool_resource * memory) :=
  if negb ((nbytes =? m_segment_size r) && (alignment =? buffer_alignment)
           && negb (m_active_buffers r =? m_max_pool_size r)) then Undef
  else
    let buffer := m_head r in
    Ret (buffer,
         Arena (m_segment_size r) (m_max_pool_size r) (m_total_size r) (m_storage r) (m_end r)
               (advance r (m_head r)) (m_tail r) (m_active_buffers r +! 1), m).

(** The pointer, the size and the alignment are not looked at. *)
Definition do_deallocate (r : arena_pool_resource) (m : memory) (pointer : ptr) (nbytes alignment : Z)
    : outcome (arena_pool_resource * memory) :=
  if negb (m_active_buffers r >? 0) then Undef
  else
    Ret (Arena (m_segment_size r) (m_max_pool_size r) (m_total_size r) (m_storage r) (m_end r)
               (m_head r) (advance r (m_tail r)) (m_active_buffers r -! 1), m).

(** [~arena_pool_resource()]. *)
Definition destroy (r : arena_pool_resource) (m : memory) : outcome memory :=
  if m_active_buffers r =? 0 then operator_delete (m_storage r) m else Undef.

#[global] Instance arena_resource : MemoryResource arena_pool_resource := {
  allocate := do_allocate;
  deallocate := do_deallocate;
  destroy_resource := destroy
}.

(** The [i]-th slot of the ring, and the buffers in use from slot [t] on. *)
Definition slot (r : arena_pool_resource) (i : Z) : ptr :=
  ptr_add (m_storage r) ((i `mod` m_max_pool_size r) * m_segment_size r).
Definition slots (r : arena_pool_resource) (t : Z) (n : nat) : list ptr :=
  (fun i => slot r (t + Z.of_nat i)) <$> seq 0 n.

Record inv (r : arena_pool_resource) (size max : Z) (m : memory) (live : list ptr) : Prop := {
  inv_size : m_segment_size r = size;
  inv_max : m_max_pool_size r = max;
  inv_positive : 0 < size /\ 0 < max /\ max < size_modulus;
  inv_storage : valid_range m (m_storage r) (size * max);
  inv_base : p_off (m_storage r) = 0;
  inv_end : m_end r = ptr_add (m_storage r) (size * max);
  inv_active : m_active_buffers r = len live /\ len live <= max;
  inv_ring : exists t, 0 <= t /\ m_tail r = slot r t /\ m_head r = slot r (t + len live) /\
    live = slots r t (length live);
  inv_owned : owned m [p_block (m_storage r)]
}.

Lemma mod_succ t n : 0 < n ->
  (t + 1) `mod` n = if t `mod` n + 1 =? n then 0 else t `mod` n + 1.
Proof.
  intros Hn. pose proof (Z.mod_pos_bound t n Hn) as Hb.
  rewrite Z.add_mod by lia. destruct (Z.eqb_spec (t `mod` n + 1) n) as [E|E].
  - destruct (decide (n = 1)) as [->|]; [by rewrite !Z.mod_1_r|].
    rewrite (Z.mod_small 1 n) by lia. rewrite E. by apply Z_mod_same_full.
  - rewrite (Z.mod_small 1 n) by lia. apply Z.mod_small. lia.
Qed.

Lemma advance_slot r t :
  0 < m_segment_size r -> 0 < m_max_pool_size r ->
  m_end r = ptr_add (m_storage r) (m_segment_size r * m_max_pool_size r) ->
  advance r (slot r t) = slot r (t + 1).
Proof.
  intros Hs Hn He. unfold advance, slot. rewrite ptr_add_add, mod_succ by done.
  pose proof (Z.mod_pos_bound t _ Hn) as Hb. rewrite He.
  destruct (Z.eqb_spec (t `mod` m_max_pool_size r + 1) (m_max_pool_size r)) as [E|E].
  - rewrite bool_decide_true; [by rewrite Z.mul_0_l, ptr_add_0|]. f_equal. nia.
  - rewrite bool_decide_false; [f_equal; lia|]. unfold ptr_add. intros [= H]. nia.
Qed.

Lemma mod_inj_window t i j n :
  0 < n -> 0 <= i < n -> 0 <= j < n -> (t + i) `mod` n = (t + j) `mod` n -> i = j.
Proof.
  intros Hn Hi Hj E. assert ((i - j) `mod` n = 0) as Hd.
  { replace (i - j) with ((t + i) - (t + j)) by lia. rewrite Zminus_mod, E, Z.sub_diag. apply Zmod_0_l. }
  apply Z.mod_divide in Hd as [k Hk]; [|lia]. assert (k = 0) as -> by nia. lia.
Qed.

Lemma lookup_slots r t n i p :
  slots r t n !! i = Some p -> p = slot r (t + Z.of_nat i) /\ (i < n)%nat.
Proof.
  unfold slots. rewrite list_lookup_fmap. destruct (seq 0 n !! i) as [k|] eqn:E; [|done].
  apply lookup_seq in E as [-> ?]. intros [= <-]. done.
Qed.

Lemma arena_inv_buffers r size max m live : inv r size max m live -> buffers_ok m size live.
Proof.
  intros [Hs Hx (Hp & Hn & _) Hst Hba He [Ha Hle] (t & Ht & _ & _ & Hlive) Hown]. unfold len in Hle.
  assert (forall i p, live !! i = Some p -> (i < length live)%nat /\ p = slot r (t + Z.of_nat i)) as Hlk.
  { intros i p Hi. rewrite Hlive in Hi. apply lookup_slots in Hi as [-> ?]. done. }
  split.
  - apply Forall_lookup. intros i p [Hi ->]%Hlk. unfold slot. rewrite Hs, Hx.
    pose proof (Z.mod_pos_bound (t + Z.of_nat i) max Hn).
    apply (valid_range_sub _ _ (size * max)); [done|nia..].
  - intros i j p q [Hi ->]%Hlk [Hj ->]%Hlk Hne. right. simpl. rewrite Hs, Hx.
    pose proof (Z.mod_pos_bound (t + Z.of_nat i) max Hn).
    pose proof (Z.mod_pos_bound (t + Z.of_nat j) max Hn).
    assert ((t + Z.of_nat i) `mod` max ≠ (t + Z.of_nat j) `mod` max).
    { intros E%mod_inj_window; lia. }
    set (a := (t + Z.of_nat i) `mod` max) in *. set (b := (t + Z.of_nat j) `mod` max) in *.
    destruct (Z.lt_ge_cases a b); [left|right]; nia.
Qed.

Lemma arena_inv_layout r size max m m' live :
  inv r size max m live -> same_layout m m' -> inv r size max m' live.
Proof. intros [] Hl. split; try done; [by eapply same_layout_valid|by eapply owned_layout]. Qed.

Lemma slots_snoc r t n : slots r t (S n) = slots r t n ++ [slot r (t + Z.of_nat n)].
Proof. unfold slots. rewrite seq_S, fmap_app. done. Qed.

Lemma slots_cons r t n : slots r t (S n) = slot r t :: slots r (t + 1) n.
Proof.
  unfold slots. simpl. f_equal; [f_equal; lia|]. rewrite <- fmap_S_seq, <- list_fmap_compose.
  apply list_fmap_ext. intros i k _. simpl. f_equal. lia.
Qed.

Lemma arena_inv_allocate r size max m live :
  inv r size max m live -> 0 < size -> len live < max ->
  exists p r' m', do_allocate r m size buffer_alignment = Ret (p, r', m') /\
    inv r' size max m' (live ++ [p]) /\
    Forall (fun q => load m' q size = load m q size) live.
Proof.
  intros [Hs Hx (Hp & Hn & Hmod) Hst Hba He [Ha Hle] (t & Ht & Htl & Hhd & Hlive) Hown] _ Hlt.
  unfold do_allocate. rewrite Hs, Hx.
  replace (negb ((size =? size) && (buffer_alignment =? buffer_alignment)
    && negb (m_active_buffers r =? max))) with false by (simpl; lia).
  eexists _, _, _. split; [done|]. split; [|by apply Forall_forall].
  pose proof (len_nonneg live). split; simpl; try done.
  - rewrite len_app, Ha. unwrap. unfold len in *. simpl. lia.
  - exists t. rewrite len_app, len_singleton. split; [done|]. split; [by rewrite Htl; unfold slot; simpl; rewrite Hs, Hx|].
    split.
    + rewrite Hhd, advance_slot by (rewrite ?Hs, ?Hx; done). unfold slot. simpl. rewrite Hs, Hx.
      do 3 f_equal. lia.
    + rewrite length_app, Nat.add_1_r, slots_snoc. f_equal.
      * rewrite Hlive at 1. unfold slots, slot. simpl. by rewrite Hs, Hx.
      * rewrite Hhd. unfold slot, len. simpl. by rewrite Hs, Hx.
Qed.

Lemma arena_inv_deallocate r size max m p live :
  inv r size max m (p :: live) -> 0 < size ->
  exists r' m', do_deallocate r m p size buffer_alignment = Ret (r', m') /\
    inv r' size max m' live /\
    Forall (fun q => load m' q size = load m q size) live.
Proof.
  intros [Hs Hx (Hp & Hn & Hmod) Hst Hba He [Ha Hle] (t & Ht & Htl & Hhd & Hlive) Hown] _.
  unfold do_deallocate. unfold len in *. cbn [length] in *.
  replace (negb (m_active_buffers r >? 0)) with false by lia.
  eexists _, _. split; [done|]. split; [|by apply Forall_forall].
  rewrite slots_cons in Hlive. injection Hlive as _ Hlive.
  split; simpl; try done.
  - unfold len. rewrite Ha. unwrap. lia.
  - exists (t + 1). split; [lia|]. split_and!.
    + rewrite Htl, advance_slot by (rewrite ?Hs, ?Hx; done). unfold slot. simpl. by rewrite Hs, Hx.
    + rewrite Hhd. unfold slot, len. simpl. rewrite Hs, Hx. do 3 f_equal. lia.
    + rewrite Hlive at 1. unfold slots, slot. simpl. by rewrite Hs, Hx.
Qed.

Lemma arena_inv_destroy r size max m :
  inv r size max m [] -> exists m', destroy r m = Ret m' /\ m_blocks m' = ∅.
Proof.
  intros [_ _ _ Hst Hba _ [Ha _] _ Hown]. unfold destroy. rewrite Ha. cbn [len length Z.of_nat Z.eqb].
  rewrite operator_delete_ret; [|done|by destruct Hst as (_ & _ & bs & -> & _)].
  eexists. split; [done|]. by apply owned_nil, owned_free.
Qed.

#[global] Instance arena_laws : ResourceLaws arena_pool_resource := {
  resource_inv := inv;
  resource_buffers := arena_inv_buffers;
  resource_layout := arena_inv_layout;
  resource_allocate := arena_inv_allocate;
  resource_deallocate := arena_inv_deallocate;
  resource_destroy := arena_inv_destroy
}.

Lemma arena_make_inv size max :
  0 < size -> 0 < max -> size * max < size_modulus ->
  exists r m', make size max empty_memory = Ret (r, m') /\ inv r size max m' [].
Proof.
  intros Hs Hx Hb. unfold make, calculate_total_size.
  replace ((size >? 0) && (max >? 0)) with true by lia. simpl. unwrap.
  eexists _, _. split; [done|]. split; simpl; try done.
  - nia.
  - apply (operator_new_valid (size * max) empty_memory). nia.
  - split; [done|]. unfold len. simpl. lia.
  - exists 0. unfold slot. simpl. rewrite Zmod_0_l, Z.mul_0_l, ptr_add_0. done.
  - by apply (owned_new (size * max) empty_memory []); intros b [].
Qed.

(** A request that breaks the client's part of the contract reaches an
    assertion: a buffer too many, or one given back when none is out. *)
Lemma arena_inv_full r size max m live nbytes alignment :
  inv r size max m live -> len live = max -> do_allocate r m nbytes alignment = Undef.
Proof.
  intros [_ Hx _ _ _ _ [Ha _] _ _] Hl. unfold do_allocate. rewrite Hx, Ha, Hl, Z.eqb_refl.
  by rewrite andb_false_r.
Qed.

Lemma arena_inv_none r size max m p nbytes alignment :
  inv r size max m [] -> do_deallocate r m p nbytes alignment = Undef.
Proof. intros [_ _ _ _ _ _ [Ha _] _ _]. unfold do_deallocate. by rewrite Ha. Qed.

Lemma arena_serve_out_of_order size max stray qs r m live :
  0 < size -> inv r size max m live -> in_order max (len live) qs = false ->
  fifo_serve_all size stray (r, m, live) qs = Undef.
Proof.
  intros Hs. revert r m live. induction qs as [|q qs IH]; intros r m live Hi Hq; [done|].
  cbn [fifo_serve_all in_order] in *. destruct (in_order_request max (len live) q) eqn:Eq.
  - destruct (@fifo_serve_inv _ _ arena_laws size max stray q r m live Hs Hi Eq) as (r' & m' & live' & -> & Hi' & El).
    cbn [mbind outcome_bind]. apply IH; [done|]. by rewrite El.
  - destruct q; cbn [fifo_serve in_order_request] in *; cbn [allocate deallocate arena_resource].
    + rewrite (arena_inv_full r size max m live) by (done || destruct Hi as [_ _ _ _ _ _ [] _ _]; lia). done.
    + destruct live as [|p live]; [|rewrite len_cons in Eq; pose proof (len_nonneg live); lia].
      by rewrite (arena_inv_none r size max m).
Qed.

(** C30: The ring serves exactly the clients it is made for.  When buffers are
    returned in the order they were taken and at most [max] are out at a time,
    it never hands out a byte that is still in use, never reaches an
    assertion, and the destructor frees its one block when every buffer is
    back; a client that takes one buffer more, or gives one back when none is
    out, reaches an assertion. *)
Theorem arena_pool_correct size max stray qs
    (Hsize : 0 < size) (Hmax : 0 < max) (Hfit : size * max < size_modulus) :
  exists r0 m0,
    make size max empty_memory = Ret (r0, m0) /\
    (in_order max 0 qs = false -> fifo_serve_all size stray (r0, m0, []) qs = Undef) /\
    (in_order max 0 qs = true -> exists r m live,
      fifo_serve_all size stray (r0, m0, []) qs = Ret (r, m, live) /\
      buffers_ok m size live /\ m_active_buffers r = len live /\ len live = balance qs /\
      (live = [] -> exists m', destroy r m = Ret m' /\ m_blocks m' = ∅)).
Proof.
  destruct (arena_make_inv size max Hsize Hmax Hfit) as (r0 & m0 & E0 & Hi).
  exists r0, m0. split; [done|]. split.
  { by apply (arena_serve_out_of_order size max stray qs r0 m0 []). }
  intros Hq.
  destruct (@fifo_serve_all_inv _ _ arena_laws size max stray qs r0 m0 [] Hsize Hi Hq) as (r & m & live & E & Hi' & Hl).
  exists r, m, live. split_and!; try done.
  - by eapply arena_inv_buffers.
  - by destruct Hi' as [_ _ _ _ _ _ [] _ _].
  - intros ->. by eapply arena_inv_destroy.
Qed.

Lemma arena_pool_correct_witness :
  exists r0 m0,
    make 4 2 empty_memory = Ret (r0, m0) /\
    fifo_serve_all 4 (Ptr 0 0) (r0, m0, []) [TakeNext; TakeNext; TakeNext] = Undef /\
    (exists r m live, fifo_serve_all 4 (Ptr 0 0) (r0, m0, []) [TakeNext; TakeNext; GiveBackOldest; TakeNext] = Ret (r, m, live) /\
      buffers_ok m 4 live /\ len live = 2).
Proof.
  destruct (arena_pool_correct 4 2 (Ptr 0 0) [TakeNext; TakeNext; TakeNext]) as (r0 & m0 & E0 & Hu & _); [reflexivity..|].
  destruct (arena_pool_correct 4 2 (Ptr 0 0) [TakeNext; TakeNext; GiveBackOldest; TakeNext])
    as (r1 & m1 & E1 & _ & Ho); [reflexivity..|].
  exists r0, m0. rewrite E0 in E1. injection E1 as <- <-. split_and!; [done|by apply Hu|].
  destruct (Ho eq_refl) as (r & m & live & E & Hb & _ & Hl & _). by exists r, m, live.
Defined.

(** The order is necessary: [do_deallocate] ignores its pointer, so giving
    back the newer of two buffers makes the next allocation return the older
    one, which is still in use. *)
Theorem arena_out_of_order_aliases :
  exists r0 m0 a r1 b r2 r3 r4 c,
    make 4 2 empty_memory = Ret (r0, m0) /\
    do_allocate r0 m0 4 1 = Ret (a, r1, m0) /\
    do_allocate r1 m0 4 1 = Ret (b, r2, m0) /\
    do_deallocate r2 m0 b 4 1 = Ret (r3, m0) /\
    do_allocate r3 m0 4 1 = Ret (c, r4, m0) /\ c = a /\ a ≠ b.
Proof.
  eexists _, _, _, _, _, _, _, _, _.
  split_and!; [vm_compute; reflexivity..|vm_compute; discriminate].
Qed.
End Arena.

(** * The resource a pipeline owns

    [std::unique_ptr<std::pmr::memory_resource>]: one of the two pools, or the
    standard library's unsynchronized pool [U], of which only the contract of
    Resource.v is used. *)
Inductive pool_resource (U : Type) :=
  | FixedPool (r : Fixed.fixed_pool_resource)
  | ArenaPool (r : Arena.arena_pool_resource)
  | UnsynchronizedPool (r : U).
Arguments FixedPool {U} r.
Arguments ArenaPool {U} r.
Arguments UnsynchronizedPool {U} r.

Section pool_resource.
Context {U : Type} `{ResourceLaws U}.

(** The virtual calls. *)
#[export] Instance pool_memory_resource : MemoryResource (pool_resource U) := {
  allocate r m nbytes alignment :=
    match r with
    | FixedPool r =>
        '(p, r', m') ← allocate r m nbytes alignment; Ret (p, FixedPool r', m')
    | ArenaPool r =>
        '(p, r', m') ← allocate r m nbytes alignment; Ret (p, ArenaPool r', m')
    | UnsynchronizedPool r =>
        '(p, r', m') ← allocate r m nbytes alignment; Ret (p, UnsynchronizedPool r', m')
    end;
  deallocate r m p nbytes alignment :=
    match r with
    | FixedPool r => '(r', m') ← deallocate r m p nbytes alignment; Ret (FixedPool r', m')
    | ArenaPool r => '(r', m') ← deallocate r m p nbytes alignment; Ret (ArenaPool r', m')
    | UnsynchronizedPool r =>
        '(r', m') ← deallocate r m p nbytes alignment; Ret (UnsynchronizedPool r', m')
    end;
  destroy_resource r m :=
    match r with
    | FixedPool r => destroy_resource r m
    | ArenaPool r => destroy_resource r m
    | UnsynchronizedPool r => destroy_resource r m
    end
}.

Definition pool_inv (r : pool_resource U) (size max : Z) (m : memory) (live : list ptr) : Prop :=
  match r with
  | FixedPool r => resource_inv r size max m live
  | ArenaPool r => resource_inv r size max m live
  | UnsynchronizedPool r => resource_inv r size max m live
  end.

#[export] Instance pool_laws : ResourceLaws (pool_resource U).
Proof.
  refine {| resource_inv := pool_inv |}.
  - intros [r|r|r] *; apply resource_buffers.
  - intros [r|r|r] *; apply resource_layout.
  - intros [r|r|r] size max m live Hi Hs Hl;
      destruct (resource_allocate r size max m live Hi Hs Hl) as (p & r' & m' & E & Hi' & Hf);
      cbn [allocate pool_memory_resource]; rewrite E; by eexists p, _, m'.
  - intros [r|r|r] size max m p live Hi Hs;
      destruct (resource_deallocate r size max m p live Hi Hs) as (r' & m' & E & Hi' & Hf);
      cbn [deallocate pool_memory_resource]; rewrite E; by eexists _, m'.
  - intros [r|r|r] size max m; exact (resource_destroy r size max m).
Defined.
End pool_resource.
