(* ===== verification/Segment.v ===== *)
(** [xtd::data_segment] (src/pipeline/data_segment.h): one fixed-size buffer
    of the pipeline, with the window already written and not yet consumed
    ([m_readable_span]) followed by the window still free
    ([m_writable_span]). *)

From S2P Require Import Prelude Memory ByteView Resource.

Record data_segment := Segment {
  m_buffer : ptr;
  m_writable_span : span;
  m_readable_span : span;
  m_capacity : Z
}.

Section operations.
Context {R : Type} `{MemoryResource R}.

(** The constructor (with its [assert]) and the destructor; the resource is
    the one [m_resource] refers to. *)
Definition make_segment (resource : R) (m : memory) (buffer_size : Z)
    : outcome (data_segment * R * memory) :=
  '(buffer, resource', m') ← allocate resource m buffer_size buffer_alignment;
  if buffer_size >? 0 then
    Ret (Segment buffer (Span buffer buffer_size) (Span buffer 0) buffer_size, resource', m')
  else Undef.

Definition destroy_segment (resource : R) (m : memory) (s : data_segment) : outcome (R * memory) :=
  deallocate resource m (m_buffer s) (m_capacity s) buffer_alignment.
End operations.

Definition capacity (s : data_segment) : Z := m_capacity s.
Definition readable_size (s : data_segment) : Z := s_size (m_readable_span s).
Definition readable_bytes (s : data_segment) : span := m_readable_span s.
Definition writable_size (s : data_segment) : Z := s_size (m_writable_span s).
Definition writable_bytes (s : data_segment) : span := m_writable_span s.
Definition full (s : data_segment) : bool := span_empty (m_writable_span s).

Definition advance_read (s : data_segment) (size : Z) : outcome data_segment :=
  if size >? s_size (m_readable_span s) then
    throw out_of_range "consume size exceeds readable size"
  else
    Ret (Segment (m_buffer s) (m_writable_span s) (subspan (m_readable_span s) size) (m_capacity s)).

(** [copy_from(source, size)]: [source] is the memory of the caller, from the
    pointer to the end of its buffer; [memcpy] reads inside it and writes
    inside a live block. *)
Definition copy_from (m : memory) (s : data_segment) (source : bytes) (size : Z)
    : outcome (Z * data_segment * memory) :=
  let to_copy_size := Z.min (s_size (m_writable_span s)) size in
  if to_copy_size >? len source then Undef
  else
    m' ← memcpy m (s_data (m_writable_span s)) (take (Z.to_nat to_copy_size) source);
    let readable := Span (s_data (m_readable_span s)) (s_size (m_readable_span s) +! to_copy_size) in
    let writable := subspan (m_writable_span s) to_copy_size in
    Ret (to_copy_size, Segment (m_buffer s) writable readable (m_capacity s), m').

(** ** Well-formedness: the two windows are adjacent inside the buffer *)

Record segment_ok (size : Z) (s : data_segment) : Prop := {
  segment_capacity : m_capacity s = size;
  segment_windows : exists read_at write_at, 0 <= read_at <= write_at /\ write_at <= size /\
    m_readable_span s = Span (ptr_add (m_buffer s) read_at) (write_at - read_at) /\
    m_writable_span s = Span (ptr_add (m_buffer s) write_at) (size - write_at)
}.

(** The unread bytes of a segment. *)
Definition segment_bytes (m : memory) (s : data_segment) : bytes := span_bytes m (m_readable_span s).

Lemma segment_sizes size s :
  segment_ok size s -> 0 <= readable_size s /\ 0 <= writable_size s /\
  readable_size s + writable_size s <= size.
Proof.
  intros [_ (ro & wo & ? & ? & Er & Ew)]. unfold readable_size, writable_size.
  rewrite Er, Ew. simpl. lia.
Qed.

Lemma segment_readable_valid m size s :
  segment_ok size s -> valid_range m (m_buffer s) size -> valid_span m (m_readable_span s).
Proof.
  intros [_ (ro & wo & ? & ? & Er & Ew)] Hv. rewrite Er. unfold valid_span. simpl.
  apply (valid_range_sub _ _ size); [done|lia..].
Qed.

Lemma segment_writable_valid m size s :
  segment_ok size s -> valid_range m (m_buffer s) size -> valid_span m (m_writable_span s).
Proof.
  intros [_ (ro & wo & ? & ? & Er & Ew)] Hv. rewrite Ew. unfold valid_span. simpl.
  apply (valid_range_sub _ _ size); [done|lia..].
Qed.

Lemma segment_bytes_len m size s :
  segment_ok size s -> valid_range m (m_buffer s) size -> len (segment_bytes m s) = readable_size s.
Proof. intros. by eapply length_span_bytes, segment_readable_valid. Qed.

(** What the writer writes is outside every span of what can be read. *)
Lemma segment_windows_disjoint size s o k :
  segment_ok size s -> 0 <= o -> o + k <= readable_size s ->
  disjoint_from (m_writable_span s) (subspan_n (m_readable_span s) o k).
Proof.
  intros [_ (ro & wo & ? & ? & Er & Ew)] Ho Hk. unfold readable_size in Hk.
  rewrite Er, Ew in *. simpl in *. right. right. simpl. lia.
Qed.

(** Any range inside [s]'s buffer is disjoint from one inside a buffer that
    shares no byte with it. *)
Lemma segment_other_disjoint size s p o k :
  segment_ok size s -> disjoint_range (m_buffer s) size p size -> 0 <= o -> o + k <= size ->
  disjoint_from (m_writable_span s) (Span (ptr_add p o) k).
Proof.
  intros [_ (ro & wo & ? & ? & Er & Ew)] Hd Ho Hk. rewrite Ew. unfold disjoint_from. simpl.
  destruct Hd as [?|[?|?]]; [by left|right; left; simpl; lia|right; right; simpl; lia].
Qed.

Lemma advance_read_ok m size s n :
  segment_ok size s -> valid_range m (m_buffer s) size -> 0 <= n <= readable_size s ->
  exists s', advance_read s n = Ret s' /\ segment_ok size s' /\
    m_buffer s' = m_buffer s /\ m_writable_span s' = m_writable_span s /\
    readable_size s' = readable_size s - n /\
    segment_bytes m s' = drop (Z.to_nat n) (segment_bytes m s).
Proof.
  intros [Hc (ro & wo & Hr & Hw & Er & Ew)] Hv Hn. unfold readable_size, advance_read in *.
  rewrite Er, Ew in *. simpl in *. destruct (Z.gtb_spec n (wo - ro)); [lia|].
  eexists. split; [done|]. split_and!; try done.
  - split; simpl; [done|]. exists (ro + n), wo. split_and!; [lia..| |done].
    unfold subspan. simpl. rewrite ptr_add_add. f_equal. lia.
  - unfold segment_bytes, span_bytes. rewrite Er. simpl. destruct Hv as (? & ? & _).
    rewrite (load_sub m (ptr_add (m_buffer s) ro) (wo - ro) n) by (simpl; lia).
    apply take_ge. rewrite length_drop. unfold load. rewrite length_take. lia.
Qed.

Lemma copy_from_ok m size s source n :
  segment_ok size s -> size < size_modulus -> valid_range m (m_buffer s) size -> 0 <= n <= len source ->
  exists k s' m', copy_from m s source n = Ret (k, s', m') /\
  k = Z.min (writable_size s) n /\ segment_ok size s' /\
  m_buffer s' = m_buffer s /\ s_data (m_readable_span s') = s_data (m_readable_span s) /\
  writable_size s' = writable_size s - k /\ readable_size s' = readable_size s + k /\
  only_writes (m_writable_span s) m m' /\
  segment_bytes m' s' = segment_bytes m s ++ take (Z.to_nat k) source.
Proof.
  intros Hok Hsz Hv Hn. pose proof (segment_writable_valid m size s Hok Hv) as Hwv.
  destruct (Hok) as [Hc (ro & wo & Hr & Hw & Er & Ew)].
  unfold copy_from, writable_size, readable_size, segment_bytes in *. rewrite Er, Ew in *.
  cbn [s_size s_data subspan] in *.
  remember (Z.min (size - wo) n) as k eqn:Hk. destruct (Z.gtb_spec k (len source)); [lia|].
  assert (len (take (Z.to_nat k) source) = k) as Hlen.
  { unfold len in *. rewrite length_take. lia. }
  rewrite memcpy_ret by (rewrite Hlen; apply (valid_range_sub _ _ size); [done|lia..]).
  eexists k, _, _. split; [done|]. cbn [m_buffer m_readable_span m_writable_span m_capacity s_data s_size]. unwrap.
  pose proof (store_only_writes m _ 0 (take (Z.to_nat k) source) Hwv ltac:(lia) ltac:(simpl; lia)) as Hs.
  rewrite ptr_add_0 in Hs. simpl in Hs. split_and!; try done; try (simpl; lia).
  - split; simpl; [done|]. exists ro, (wo + k). split_and!; [lia..| |].
    + f_equal. lia.
    + unfold subspan. simpl. rewrite ptr_add_add. f_equal. lia.
  - unfold span_bytes. simpl. destruct Hv as (? & ? & _). rewrite load_split by (simpl; lia). f_equal.
    + apply load_store_disjoint; simpl; [lia..|]. right. right. simpl. lia.
    + rewrite ptr_add_add. replace (ro + (wo - ro)) with wo by lia. rewrite <- Hlen at 2.
      apply load_store_same. rewrite Hlen. apply (valid_range_sub _ _ (size - wo) 0 k) in Hwv; [|lia..].
      simpl in Hwv. by rewrite ptr_add_0 in Hwv.
Qed.
