(* ===== verification/Pipeline.v ===== *)
(** [xtd::pipeline] (src/pipeline/pipeline_impl.h) with its endpoints
    (pipe_writer.h, pipe_reader.h) and [read_result] (read_result.h).

    Every definition is one critical section of the code: the code between
    taking [m_mutex] and releasing it or parking in a condition variable.
    The wait loops are cut at the point where they park, so that the
    interleavings of the two endpoints are the sequences of these sections
    (PipelineSystem.v). *)

From S2P Require Import Prelude Memory Position ByteView Resource Pools Segment.

(** ** Configuration *)

Inductive allocator_kind :=
  | kind_fixed_pool_resource
  | kind_arena_pool_resource
  | kind_unsynchronized_pool_resource.

Record pipe_options := PipeOptions {
  buffer_size : Z;
  resume_writer_threshold : Z;
  pause_writer_threshold : Z;
  allocator : allocator_kind
}.

(** The member initialisers. *)
Definition default_options : pipe_options :=
  PipeOptions (1024 * 4) (1024 * 32) (1024 * 128) kind_fixed_pool_resource.

Record validated_options := ValidatedOptions {
  v_buffer_size : Z;
  v_pause_writer_threshold : Z;
  v_resume_writer_threshold : Z;
  v_max_pooled_segments : Z;
  v_allocator : allocator_kind
}.

Definition validate_options (options : pipe_options) : outcome validated_options :=
  if buffer_size options =? 0 then
    throw invalid_argument "buffer_size must be > 0"
  else if pause_writer_threshold options =? 0 then
    throw invalid_argument "pause_writer_threshold must be > 0"
  else if resume_writer_threshold options >? pause_writer_threshold options then
    throw invalid_argument "resume_writer_threshold must be <= pause_writer_threshold"
  else
    let max_pooled_segments :=
      (pause_writer_threshold options / buffer_size options)
      +! (if (pause_writer_threshold options `mod` buffer_size options) =? 0 then 0 else 1) in
    Ret (ValidatedOptions (buffer_size options) (pause_writer_threshold options)
           (resume_writer_threshold options) max_pooled_segments (allocator options)).

(** ** State *)

Record pipeline (R : Type) := Pipeline {
  m_allocator : R;
  m_segments : list data_segment;
  m_pause_writer_threshold : Z;
  m_resume_writer_threshold : Z;
  m_buffer_size : Z;
  m_buffered_size : Z;
  m_actual_buffered_size : Z;
  m_examined_size : Z;
  m_pending_read_size : Z;
  m_reader_waiting : bool;
  m_has_pending_read : bool;
  m_writer_completed : bool;
  m_reader_completed : bool;
  m_writer_paused : bool
}.
Arguments Pipeline {R} _ _ _ _ _ _ _ _ _ _ _ _ _ _.
Arguments m_allocator {R} _.
Arguments m_segments {R} _.
Arguments m_pause_writer_threshold {R} _.
Arguments m_resume_writer_threshold {R} _.
Arguments m_buffer_size {R} _.
Arguments m_buffered_size {R} _.
Arguments m_actual_buffered_size {R} _.
Arguments m_examined_size {R} _.
Arguments m_pending_read_size {R} _.
Arguments m_reader_waiting {R} _.
Arguments m_has_pending_read {R} _.
Arguments m_writer_completed {R} _.
Arguments m_reader_completed {R} _.
Arguments m_writer_paused {R} _.

(** Assignments to one member. *)
Section assignments.
Context {R : Type}.
Implicit Types p : pipeline R.
Definition set_allocator (x : R) p : pipeline R :=
  Pipeline x (m_segments p) (m_pause_writer_threshold p) (m_resume_writer_threshold p) (m_buffer_size p) (m_buffered_size p) (m_actual_buffered_size p) (m_examined_size p) (m_pending_read_size p) (m_reader_waiting p) (m_has_pending_read p) (m_writer_completed p) (m_reader_completed p) (m_writer_paused p).
Definition set_segments (x : list data_segment) p : pipeline R :=
  Pipeline (m_allocator p) x (m_pause_writer_threshold p) (m_resume_writer_threshold p) (m_buffer_size p) (m_buffered_size p) (m_actual_buffered_size p) (m_examined_size p) (m_pending_read_size p) (m_reader_waiting p) (m_has_pending_read p) (m_writer_completed p) (m_reader_completed p) (m_writer_paused p).
Definition set_buffered_size (x : Z) p : pipeline R :=
  Pipeline (m_allocator p) (m_segments p) (m_pause_writer_threshold p) (m_resume_writer_threshold p) (m_buffer_size p) x (m_actual_buffered_size p) (m_examined_size p) (m_pending_read_size p) (m_reader_waiting p) (m_has_pending_read p) (m_writer_completed p) (m_reader_completed p) (m_writer_paused p).
Definition set_actual_buffered_size (x : Z) p : pipeline R :=
  Pipeline (m_allocator p) (m_segments p) (m_pause_writer_threshold p) (m_resume_writer_threshold p) (m_buffer_size p) (m_buffered_size p) x (m_examined_size p) (m_pending_read_size p) (m_reader_waiting p) (m_has_pending_read p) (m_writer_completed p) (m_reader_completed p) (m_writer_paused p).
Definition set_examined_size (x : Z) p : pipeline R :=
  Pipeline (m_allocator p) (m_segments p) (m_pause_writer_threshold p) (m_resume_writer_threshold p) (m_buffer_size p) (m_buffered_size p) (m_actual_buffered_size p) x (m_pending_read_size p) (m_reader_waiting p) (m_has_pending_read p) (m_writer_completed p) (m_reader_completed p) (m_writer_paused p).
Definition set_pending_read_size (x : Z) p : pipeline R :=
  Pipeline (m_allocator p) (m_segments p) (m_pause_writer_threshold p) (m_resume_writer_threshold p) (m_buffer_size p) (m_buffered_size p) (m_actual_buffered_size p) (m_examined_size p) x (m_reader_waiting p) (m_has_pending_read p) (m_writer_completed p) (m_reader_completed p) (m_writer_paused p).
Definition set_reader_waiting (x : bool) p : pipeline R :=
  Pipeline (m_allocator p) (m_segments p) (m_pause_writer_threshold p) (m_resume_writer_threshold p) (m_buffer_size p) (m_buffered_size p) (m_actual_buffered_size p) (m_examined_size p) (m_pending_read_size p) x (m_has_pending_read p) (m_writer_completed p) (m_reader_completed p) (m_writer_paused p).
Definition set_has_pending_read (x : bool) p : pipeline R :=
  Pipeline (m_allocator p) (m_segments p) (m_pause_writer_threshold p) (m_resume_writer_threshold p) (m_buffer_size p) (m_buffered_size p) (m_actual_buffered_size p) (m_examined_size p) (m_pending_read_size p) (m_reader_waiting p) x (m_writer_completed p) (m_reader_completed p) (m_writer_paused p).
Definition set_writer_completed (x : bool) p : pipeline R :=
  Pipeline (m_allocator p) (m_segments p) (m_pause_writer_threshold p) (m_resume_writer_threshold p) (m_buffer_size p) (m_buffered_size p) (m_actual_buffered_size p) (m_examined_size p) (m_pending_read_size p) (m_reader_waiting p) (m_has_pending_read p) x (m_reader_completed p) (m_writer_paused p).
Definition set_reader_completed (x : bool) p : pipeline R :=
  Pipeline (m_allocator p) (m_segments p) (m_pause_writer_threshold p) (m_resume_writer_threshold p) (m_buffer_size p) (m_buffered_size p) (m_actual_buffered_size p) (m_examined_size p) (m_pending_read_size p) (m_reader_waiting p) (m_has_pending_read p) (m_writer_completed p) x (m_writer_paused p).
Definition set_writer_paused (x : bool) p : pipeline R :=
  Pipeline (m_allocator p) (m_segments p) (m_pause_writer_threshold p) (m_resume_writer_threshold p) (m_buffer_size p) (m_buffered_size p) (m_actual_buffered_size p) (m_examined_size p) (m_pending_read_size p) (m_reader_waiting p) (m_has_pending_read p) (m_writer_completed p) (m_reader_completed p) x.
End assignments.

(** ** [read_result] *)

Record read_result := ReadResult {
  rr_buffer : segmented_byte_view;
  rr_completed : bool;
  rr_cancelled : bool
}.

(** The loop of [make_readable_view]. *)
Fixpoint collect_readable (segments : list data_segment) (total_size : Z) : list span * Z :=
  match segments with
  | [] => ([], total_size)
  | segment :: rest =>
      if readable_size segment =? 0 then collect_readable rest total_size
      else
        let '(readable_segments, total) := collect_readable rest (total_size +! readable_size segment) in
        (readable_bytes segment :: readable_segments, total)
  end.

Definition make_readable_view (segments : list data_segment) : segmented_byte_view :=
  let '(readable_segments, total_size) := collect_readable segments 0 in
  view_of_segments readable_segments total_size.

(** [read_result(segments, completed, pending_read_size)]: the result and the
    value stored through the reference. *)
Definition read_result_of (segments : list data_segment) (completed : bool) : read_result * Z :=
  let view := make_readable_view segments in
  (ReadResult view completed false, view_size view).

Definition read_result_cancelled (cancelled : bool) : read_result :=
  ReadResult empty_view false cancelled.

(** [explicit operator bool]. *)
Definition read_result_bool (r : read_result) : bool := negb (rr_cancelled r).
Definition read_result_buffer (r : read_result) : segmented_byte_view := rr_buffer r.
Definition read_result_completed (r : read_result) : bool := rr_completed r.

(** ** The critical sections *)

Section pipeline.
Context {R : Type} `{MemoryResource R}.
Implicit Types p : pipeline R.

(** The constructor, from validated options and the allocator that
    [make_allocator] returned. *)
Definition make_pipeline (options : validated_options) (m_allocator : R) : pipeline R :=
  Pipeline m_allocator [] (v_pause_writer_threshold options) (v_resume_writer_threshold options)
    (v_buffer_size options) 0 0 0 0 false false false false false.

Definition data_available p (min_size : Z) : bool :=
  m_writer_completed p
  || ((m_buffered_size p >? m_examined_size p)
      && ((min_size =? 0) || (m_buffered_size p >=? min_size))).

Definition space_available p : bool := negb (m_writer_paused p).

Definition should_resume_writer p : bool :=
  (m_buffer_size p <=? m_resume_writer_threshold p)
  && (m_actual_buffered_size p <? m_pause_writer_threshold p).

Definition has_writable_tail p : bool :=
  match last (m_segments p) with
  | None => false
  | Some back => negb (full back)
  end.

Definition segment_allocation_capacity p : Z :=
  if m_actual_buffered_size p <? m_pause_writer_threshold p
  then m_pause_writer_threshold p -! m_actual_buffered_size p
  else 0.

Definition writer_available_capacity p : Z :=
  match last (m_segments p) with
  | Some back =>
      if negb (full back) then writable_size back
      else if segment_allocation_capacity p >=? m_buffer_size p then m_buffer_size p else 0
  | None =>
      if segment_allocation_capacity p >=? m_buffer_size p then m_buffer_size p else 0
  end.

Definition should_pause_writer p : bool :=
  negb (has_writable_tail p) && (segment_allocation_capacity p <? m_buffer_size p).

Definition is_any_completed p : bool := m_writer_completed p || m_reader_completed p.

(** *** Reading *)

Inductive read_step :=
  | ReadSleeps (stop_token : stop_token)
  | ReadReturns (result : read_result).

(** From the return of the wait to the end of [read_at_least]. *)
Definition read_finish p (t : stop_token) : pipeline R * read_step :=
  let '(stop, t) := stop_requested t in
  if stop then (p, ReadReturns (read_result_cancelled true))
  else
    let '(result, pending) := read_result_of (m_segments p) (m_writer_completed p) in
    (set_pending_read_size pending (set_has_pending_read true p), ReadReturns result).

(** One round of [m_data_available.wait]. *)
Definition read_wait p (min_size : Z) (t : stop_token) : pipeline R * read_step :=
  let '(round, t) := cv_wait_round (data_available p min_size) t in
  match round with
  | CvSleep => (p, ReadSleeps t)
  | CvReturn _ => read_finish (set_reader_waiting false p) t
  end.

Definition read_at_least p (min_size : Z) (t : stop_token) : outcome (pipeline R * read_step) :=
  if m_has_pending_read p then
    throw logic_error "advance(consumed, examined) must be called before the next read"
  else if m_reader_completed p then
    throw logic_error "pipeline reader is completed"
  else if m_writer_completed p then Ret (read_finish p t)
  else Ret (read_wait (set_reader_waiting true p) min_size t).

(** *** Advancing *)

(** The loop over the head segments: the segments that remain, with the
    allocator, the two sizes and the byte store. *)
Fixpoint consume_segments (size : Z) (segments : list data_segment) (remaining_consumed : Z)
    (resource : R) (m : memory) (buffered actual : Z)
    : outcome (list data_segment * R * memory * Z * Z) :=
  if negb (remaining_consumed >? 0) then Ret (segments, resource, m, buffered, actual)
  else
    match segments with
    | [] => Undef (* front() of an empty deque *)
    | head :: rest =>
        let readable := readable_size head in
        if remaining_consumed <? readable then
          head' ← advance_read head remaining_consumed;
          Ret (head' :: rest, resource, m, buffered -! remaining_consumed, actual)
        else
          '(resource', m') ← destroy_segment resource m head;
          consume_segments size rest (remaining_consumed -! readable) resource' m'
            (buffered -! readable) (actual -! size)
    end.

(** [advance(consumed, examined)]: the new state, and whether
    [m_space_available] is notified after the unlock. *)
Definition advance p (m : memory) (consumed examined : position)
    : outcome (pipeline R * memory * bool) :=
  let consumed_offset := sequence_offset consumed in
  let examined_offset := sequence_offset examined in
  if consumed_offset >? examined_offset then
    throw invalid_argument "consumed must be <= examined"
  else if m_reader_completed p then
    throw logic_error "pipeline reader is completed"
  else if negb (m_has_pending_read p) then
    throw logic_error "advance called without a pending read"
  else if examined_offset >? m_pending_read_size p then
    throw out_of_range "examined exceeds the most recent read buffer length"
  else
    let was_paused := m_writer_paused p in
    '(segments, resource, m', buffered, actual) ←
      consume_segments (m_buffer_size p) (m_segments p) consumed_offset (m_allocator p) m
        (m_buffered_size p) (m_actual_buffered_size p);
    let p := set_segments segments (set_allocator resource
               (set_buffered_size buffered (set_actual_buffered_size actual p))) in
    let p := set_examined_size (examined_offset -! consumed_offset) p in
    let p := if m_writer_paused p && should_resume_writer p then set_writer_paused false p else p in
    let p := set_has_pending_read false (set_pending_read_size 0 p) in
    Ret (p, m', was_paused && negb (m_writer_paused p)).

(** *** Writing *)

Definition get_segment p (m : memory) : outcome (pipeline R * memory) :=
  if negb (has_writable_tail p) then
    '(segment, resource, m') ← make_segment (m_allocator p) m (m_buffer_size p);
    Ret (set_actual_buffered_size (m_actual_buffered_size p +! m_buffer_size p)
           (set_allocator resource (set_segments (m_segments p ++ [segment]) p)), m')
  else Ret (p, m).

(** [m_segments.back().copy_from(data, size)]. *)
Definition copy_into_back p (m : memory) (data : bytes) (size : Z)
    : outcome (pipeline R * memory * Z) :=
  match last (m_segments p) with
  | None => Undef
  | Some back =>
      '(n, back', m') ← copy_from m back data size;
      Ret (set_segments (removelast (m_segments p) ++ [back']) p, m', n)
  end.

(** The locals of a [write] in progress. *)
Record write_locals := WriteLocals {
  w_data : bytes;
  w_copied : Z;
  w_token : stop_token;
  w_notify : bool
}.

Inductive inner_exit :=
  | LoopEnds
  | ReturnsCopied.

(** The inner loop of [write]; [fuel] bounds its iterations
    ([write_inner_ok] of PipelineProofs.v shows [S (length data)] is enough). *)
Fixpoint write_inner (fuel : nat) p (m : memory) (l : write_locals)
    : outcome (pipeline R * memory * write_locals * inner_exit) :=
  match fuel with
  | O => Undef
  | S fuel =>
      if (len (w_data l) =? 0) || m_writer_paused p then Ret (p, m, l, LoopEnds)
      else if is_any_completed p then throw logic_error "pipeline is completed"
      else
        let '(stop, t) := stop_requested (w_token l) in
        let l := WriteLocals (w_data l) (w_copied l) t (w_notify l) in
        if stop then Ret (p, m, l, ReturnsCopied)
        else
          let available_capacity := writer_available_capacity p in
          if available_capacity =? 0 then Ret (set_writer_paused true p, m, l, LoopEnds)
          else
            let requested_size := Z.min (len (w_data l)) available_capacity in
            '(p, m) ← get_segment p m;
            '(p, m, copy_size) ← copy_into_back p m (w_data l) requested_size;
            let p := set_buffered_size (m_buffered_size p +! copy_size) p in
            let l := WriteLocals (drop (Z.to_nat copy_size) (w_data l)) (w_copied l +! copy_size) t
                       (if m_reader_waiting p then true else w_notify l) in
            let p := if should_pause_writer p then set_writer_paused true p else p in
            write_inner fuel p m l
  end.

Inductive write_step :=
  | WriteSleeps (locals : write_locals)   (* parked in m_space_available.wait *)
  | WriteReturns (copied : Z)             (* return copied, inside the lock *)
  | WriteUnlocks (locals : write_locals). (* lock.unlock(), then the notification *)

(** One round of [m_space_available.wait], and the inner loop after it. *)
Definition write_wait p (m : memory) (l : write_locals) : outcome (pipeline R * memory * write_step) :=
  let '(round, t) := cv_wait_round (space_available p) (w_token l) in
  let l := WriteLocals (w_data l) (w_copied l) t (w_notify l) in
  match round with
  | CvSleep => Ret (p, m, WriteSleeps l)
  | CvReturn _ =>
      '(p, m, l, exit) ← write_inner (S (length (w_data l))) p m l;
      match exit with
      | LoopEnds => Ret (p, m, WriteUnlocks l)
      | ReturnsCopied => Ret (p, m, WriteReturns (w_copied l))
      end
  end.

(** One iteration of the outer loop of [write], up to the unlock. *)
Definition write_round p (m : memory) (data : bytes) (copied : Z) (t : stop_token)
    : outcome (pipeline R * memory * write_step) :=
  if is_any_completed p then throw logic_error "pipeline is completed"
  else write_wait p m (WriteLocals data copied t false).

(** The whole of [write] when no other thread runs: [write_rounds n] runs at
    most [n] iterations of the outer loop. *)
Inductive write_end :=
  | WriteDone (copied : Z)
  | WriteParked (locals : write_locals)
  | WriteRunning (data : bytes) (copied : Z) (t : stop_token).

Fixpoint write_rounds (n : nat) p (m : memory) (data : bytes) (copied : Z) (t : stop_token)
    : outcome (pipeline R * memory * write_end) :=
  if len data =? 0 then Ret (p, m, WriteDone copied)
  else
    match n with
    | O => Ret (p, m, WriteRunning data copied t)
    | S n =>
        '(p, m, step) ← write_round p m data copied t;
        match step with
        | WriteSleeps l => Ret (p, m, WriteParked l)
        | WriteReturns copied => Ret (p, m, WriteDone copied)
        | WriteUnlocks l => write_rounds n p m (w_data l) (w_copied l) (w_token l)
        end
    end.

(** *** Completion *)

Definition complete_writer p : pipeline R :=
  set_writer_completed true (set_writer_paused false p).

Definition complete_reader p : pipeline R :=
  set_examined_size 0 (set_actual_buffered_size 0 (set_buffered_size 0
    (set_pending_read_size 0 (set_writer_paused false
      (set_has_pending_read false (set_reader_completed true p)))))).

(** The endpoints: [pipe_writer::write(const std::byte*, length, token)]
    ([None] is the null pointer), [pipe_reader::read] and the overloads of
    [pipe_reader::advance]. *)
Definition writer_write (n : nat) p (m : memory) (data : option bytes) (length : Z) (t : stop_token)
    : outcome (pipeline R * memory * write_end) :=
  match data with
  | None => if length >? 0 then Ret (p, m, WriteDone 0) else write_rounds n p m [] 0 t
  | Some data => write_rounds n p m (take (Z.to_nat length) data) 0 t
  end.

Definition reader_read p (t : stop_token) : outcome (pipeline R * read_step) := read_at_least p 0 t.
Definition reader_advance_to p (m : memory) (consumed : position) := advance p m consumed consumed.
Definition reader_advance_view p (m : memory) (sequence : segmented_byte_view) :=
  advance p m (view_begin sequence) (view_end sequence).
End pipeline.

(** ** Construction and destruction *)
Section lifetime.
Context {U : Type} `{MemoryResource U}.
(** [std::pmr::unsynchronized_pool_resource{pool_options}]. *)
Variable make_unsynchronized : Z -> Z -> memory -> outcome (U * memory).

(** [make_allocator]; [experimental] tells whether XTD_ALLOW_EXPERIMENTAL is
    defined. *)
Definition make_allocator (experimental : bool) (options : validated_options) (m : memory)
    : outcome (pool_resource U * memory) :=
  if experimental then
    match v_allocator options with
    | kind_fixed_pool_resource =>
        r ← Fixed.make (v_buffer_size options) (v_max_pooled_segments options);
        Ret (FixedPool r, m)
    | kind_arena_pool_resource =>
        '(r, m) ← Arena.make (v_buffer_size options) (v_max_pooled_segments options) m;
        Ret (ArenaPool r, m)
    | kind_unsynchronized_pool_resource =>
        '(r, m) ← make_unsynchronized (v_buffer_size options) (v_max_pooled_segments options) m;
        Ret (UnsynchronizedPool r, m)
    end
  else
    r ← Fixed.make (v_buffer_size options) (v_max_pooled_segments options);
    Ret (FixedPool r, m).

(** [pipeline(pipe_options)]. *)
Definition construct (experimental : bool) (options : pipe_options) (m : memory)
    : outcome (pipeline (pool_resource U) * memory) :=
  options ← validate_options options;
  '(m_allocator, m) ← make_allocator experimental options m;
  Ret (make_pipeline options m_allocator, m).
End lifetime.

Section destruction.
Context {R : Type} `{MemoryResource R}.
Implicit Types p : pipeline R.

(** [~deque()]: each segment gives its buffer back. *)
Fixpoint destroy_segments (resource : R) (m : memory) (segments : list data_segment)
    : outcome (R * memory) :=
  match segments with
  | [] => Ret (resource, m)
  | segment :: rest =>
      '(resource, m) ← destroy_segment resource m segment;
      destroy_segments resource m rest
  end.

(** [~pipeline()]: both ends are completed, then the members are destroyed in
    reverse order of declaration, the segments before the allocator. *)
Definition destroy_pipeline p (m : memory) : outcome memory :=
  let p := complete_reader (complete_writer p) in
  '(resource, m) ← destroy_segments (m_allocator p) m (m_segments p);
  destroy_resource resource m.
End destruction.

(** ** Typed writes

    [pipe_writer::write(const T&)]: the characters of a string, or the object
    representation of a trivially copyable value. *)
Inductive written_value :=
  | string_like (str : string)
  | object_representation (object : bytes).

Definition value_bytes (value : written_value) : bytes :=
  match value with
  | string_like str => String.list_byte_of_string str
  | object_representation object => object
  end.

Definition writer_write_value {R} `{MemoryResource R} (n : nat) (p : pipeline R) (m : memory)
    (value : written_value) (t : stop_token) : outcome (pipeline R * memory * write_end) :=
  write_rounds n p m (value_bytes value) 0 t.
