(* ===== verification/PipelineProofs.v ===== *)
(** The invariant of [xtd::pipeline] and the correctness of its critical
    sections: what they do to the byte stream, on every branch, and that no
    execution of them is undefined.  Proved against the contract of the
    memory resource (Resource.v), for any resource that satisfies it. *)

From S2P Require Import Prelude Memory Position ByteView Resource Pools Segment Pipeline.

(** ** The byte stream held in a list of segments *)

Definition total_readable (segments : list data_segment) : Z :=
  foldr (fun s n => readable_size s + n) 0 segments.

Fixpoint segments_bytes (m : memory) (segments : list data_segment) : bytes :=
  match segments with
  | [] => []
  | s :: rest => segment_bytes m s ++ segments_bytes m rest
  end.

Lemma total_readable_app l k : total_readable (l ++ k) = total_readable l + total_readable k.
Proof. induction l as [|s l IH]; simpl; [done|]. rewrite IH. lia. Qed.

Lemma segments_bytes_app m l k : segments_bytes m (l ++ k) = segments_bytes m l ++ segments_bytes m k.
Proof. induction l as [|s l IH]; simpl; [done|]. by rewrite IH, app_assoc. Qed.

Lemma segments_bytes_ext m m' segments :
  Forall (fun s => segment_bytes m' s = segment_bytes m s) segments ->
  segments_bytes m' segments = segments_bytes m segments.
Proof. induction 1 as [|s l E _ IH]; [done|]. simpl. by rewrite E, IH. Qed.

(** Every segment is well formed, over its own live buffer. *)
Record segments_ok (size : Z) (m : memory) (segments : list data_segment) : Prop := {
  so_size : 0 < size < size_modulus;
  so_segments : Forall (segment_ok size) segments;
  so_buffers : buffers_ok m size (m_buffer <$> segments)
}.

Lemma segments_ok_cons size m s l :
  segments_ok size m (s :: l) ->
  segment_ok size s /\ valid_range m (m_buffer s) size /\ segments_ok size m l.
Proof.
  intros [Hs [Hok Hl]%Forall_cons Hb]. pose proof (buffers_valid _ _ _ Hb) as Hv. simpl in Hv.
  apply Forall_cons in Hv as [Hv _]. split_and!; [done..|]. split; [done..|].
  by eapply buffers_ok_tail.
Qed.

Lemma segments_bytes_len size m segments :
  segments_ok size m segments -> len (segments_bytes m segments) = total_readable segments.
Proof.
  induction segments as [|s l IH]; intros H; [done|].
  apply segments_ok_cons in H as (Hs & Hv & Hl). simpl.
  by rewrite len_app, (segment_bytes_len m size), IH.
Qed.

Lemma total_readable_nonneg size segments :
  Forall (segment_ok size) segments -> 0 <= total_readable segments.
Proof.
  induction 1 as [|s l Hs _ IH]; simpl; [lia|]. apply segment_sizes in Hs. lia.
Qed.

Lemma total_readable_bound size segments :
  0 <= size -> Forall (segment_ok size) segments -> total_readable segments <= size * len segments.
Proof.
  intros Hp. induction 1 as [|s l Hs _ IH]; [unfold len; simpl; lia|]. rewrite len_cons. simpl.
  apply segment_sizes in Hs. lia.
Qed.

(** Equal buffers make equal segments' bytes. *)
Lemma segment_bytes_buffer m m' size s :
  segment_ok size s -> 0 <= p_off (m_buffer s) ->
  load m' (m_buffer s) size = load m (m_buffer s) size -> segment_bytes m' s = segment_bytes m s.
Proof.
  intros [_ (ro & wo & ? & ? & Er & _)] Ho E. unfold segment_bytes, span_bytes. rewrite Er. simpl.
  rewrite !(load_sub _ _ size ro (wo - ro)) by lia. by rewrite E.
Qed.

Lemma segments_bytes_buffers m m' size segments :
  segments_ok size m segments ->
  Forall (fun q => load m' q size = load m q size) (m_buffer <$> segments) ->
  Forall (fun s => segment_bytes m' s = segment_bytes m s) segments.
Proof.
  intros [_ Hok Hb] Hl. rewrite Forall_fmap in Hl. pose proof (buffers_valid _ _ _ Hb) as Hv.
  rewrite Forall_fmap in Hv. rewrite Forall_forall in *. intros s Hs.
  apply (segment_bytes_buffer _ _ size); [by apply Hok| |by apply Hl].
  destruct (Hv s Hs) as (_ & ? & _). done.
Qed.

(** Writing in the free window of the last segment changes no readable byte. *)
Lemma write_back_stable size m m' front back :
  segments_ok size m (front ++ [back]) -> only_writes (m_writable_span back) m m' ->
  Forall (fun s => segment_bytes m' s = segment_bytes m s) (front ++ [back]).
Proof.
  intros [_ Hok Hb] [_ Hw]. apply Forall_lookup. intros i s Hi.
  rewrite Forall_lookup in Hok. pose proof (buffers_valid _ _ _ Hb) as Hv. rewrite Forall_fmap in Hv.
  rewrite Forall_lookup in Hv. destruct (Hv i s Hi) as (_ & Hoff & _).
  destruct (Hok i s Hi) as [_ (ro & wo & ? & ? & Er & _)].
  assert ((front ++ [back]) !! length front = Some back) as Hback.
  { rewrite lookup_app_r, Nat.sub_diag by lia. done. }
  unfold segment_bytes. apply Hw; [rewrite Er; simpl; lia|].
  destruct (decide (i = length front)) as [->|Hne].
  - simplify_eq. pose proof (segment_windows_disjoint size s 0 (readable_size s) (Hok _ s Hi)) as Hd.
    unfold subspan_n in Hd. rewrite ptr_add_0 in Hd. unfold readable_size in Hd.
    destruct (m_readable_span s). simpl in *. apply Hd; lia.
  - rewrite Er. apply (segment_other_disjoint size); [by eapply Hok| |lia..].
    eapply (buffers_disjoint _ _ _ Hb (length front) i); [| |done]; rewrite list_lookup_fmap;
      [by rewrite Hback|by rewrite Hi].
Qed.

(** ** Consuming *)
Section consume.
Context {R : Type} `{ResourceLaws R}.

Lemma consume_segments_ok size max segments n (r : R) m :
  resource_inv r size max m (m_buffer <$> segments) -> segments_ok size m segments ->
  Forall (fun s => 0 < readable_size s) segments ->
  size * len segments < size_modulus -> 0 <= n <= total_readable segments ->
  exists segments' r' m',
    consume_segments size segments n r m (total_readable segments) (size * len segments) =
      Ret (segments', r', m', total_readable segments', size * len segments') /\
    resource_inv r' size max m' (m_buffer <$> segments') /\ segments_ok size m' segments' /\
    Forall (fun s => 0 < readable_size s) segments' /\ len segments' <= len segments /\
    total_readable segments' = total_readable segments - n /\
    segments_bytes m' segments' = drop (Z.to_nat n) (segments_bytes m segments).
Proof.
  revert n r m. induction segments as [|s l IH]; intros n r m Hr Hok Hpos Hb Hn.
  { simpl in Hn. assert (n = 0) as -> by lia. by eexists [], r, m. }
  cbn [consume_segments]. destruct (Z.gtb_spec n 0) as [Hgt|]; cbn [negb].
  2: { assert (n = 0) as -> by lia. eexists _, r, m. rewrite Z.sub_0_r. by split_and!. }
  pose proof (segments_ok_cons _ _ _ _ Hok) as (Hs & Hv & Hl).
  apply Forall_cons in Hpos as [Hps Hpos]. pose proof (segments_bytes_len _ _ _ Hl) as Hll.
  pose proof (total_readable_nonneg size l (so_segments _ _ _ Hl)) as Hnn.
  pose proof (segment_bytes_len m size s Hs Hv) as Hsl.
  pose proof (so_size _ _ _ Hok) as Hsize. pose proof (len_nonneg l) as Hlen0.
  pose proof (total_readable_bound size l ltac:(lia) (so_segments _ _ _ Hl)) as Hbound.
  pose proof (segment_sizes size s Hs) as Hss.
  rewrite len_cons in *. simpl total_readable in *. destruct (Z.ltb_spec n (readable_size s)).
  - destruct (advance_read_ok m size s n Hs Hv) as (s' & -> & Hs' & Eb & Ew & Er & Ec); [lia|].
    cbn [mbind outcome_bind]. unwrap. eexists (s' :: l), r, m. simpl. rewrite Er, Eb, len_cons.
    replace (readable_size s + total_readable l - n)
      with (readable_size s - n + total_readable l) by lia. split_and!; try done; try lia.
    + destruct Hok as [? [_ ?]%Forall_cons Hbuf]. split; [done|by constructor|]. simpl in *. by rewrite Eb.
    + constructor; [lia|done].
    + rewrite Ec, drop_app_le; [done|]. unfold len in *. lia.
  - destruct (resource_deallocate r size max m (m_buffer s) (m_buffer <$> l)) as (r' & m' & E & Hr' & Hld);
      [done|lia|]. unfold destroy_segment. rewrite (segment_capacity _ _ Hs), E.
    cbn [mbind outcome_bind]. unwrap.
    pose proof (segments_bytes_buffers _ _ _ _ Hl Hld) as Hst.
    assert (segments_ok size m' l) as Hl'.
    { destruct Hl. split; [done..|]. by eapply resource_buffers. }
    destruct (IH (n - readable_size s) r' m') as (segs & r2 & m2 & E2 & K1 & K2 & K3 & K4 & K5 & K6);
      [done..|lia|lia|].
    exists segs, r2, m2. replace (readable_size s + total_readable l - readable_size s)
      with (total_readable l) by lia.
    replace (size * (1 + len l) - size) with (size * len l) by lia.
    split_and!; try done; try lia. rewrite K6, (segments_bytes_ext _ _ _ Hst). simpl.
    rewrite drop_app_ge; [f_equal; unfold len in *; lia|unfold len in *; lia].
Qed.
End consume.

(** ** What a snapshot can refer to *)

(** A span inside the readable window of some segment. *)
Definition readable_in (segments : list data_segment) (sp : span) : Prop :=
  exists s o k, s ∈ segments /\ 0 <= o /\ 0 <= k /\ o + k <= readable_size s /\
    sp = subspan_n (m_readable_span s) o k.

(** Going from [segments] over [m] to [segments'] over [m'], everything that
    was readable stays readable and keeps its bytes. *)
Definition extends (segments : list data_segment) (m : memory)
    (segments' : list data_segment) (m' : memory) : Prop :=
  forall sp, readable_in segments sp -> readable_in segments' sp /\ span_bytes m' sp = span_bytes m sp.

Lemma extends_refl l m : extends l m l m.
Proof. by intros sp ?. Qed.

Lemma extends_trans l1 m1 l2 m2 l3 m3 :
  extends l1 m1 l2 m2 -> extends l2 m2 l3 m3 -> extends l1 m1 l3 m3.
Proof.
  intros H1 H2 sp Hsp. destruct (H1 sp Hsp) as [Hr E]. destruct (H2 sp Hr) as [Hr' E'].
  split; [done|congruence].
Qed.

Lemma readable_in_incl l l' sp : l ⊆ l' -> readable_in l sp -> readable_in l' sp.
Proof. intros Hi (s & o & k & Hs & H). exists s, o, k. split; [by apply Hi|done]. Qed.

Lemma span_bytes_stable m m' size s o k :
  segment_ok size s -> 0 <= p_off (m_buffer s) -> segment_bytes m' s = segment_bytes m s ->
  0 <= o -> 0 <= k -> o + k <= readable_size s ->
  span_bytes m' (subspan_n (m_readable_span s) o k) = span_bytes m (subspan_n (m_readable_span s) o k).
Proof.
  intros [_ (ro & wo & ? & ? & Er & _)] Hoff E Ho Hk Hok.
  unfold segment_bytes, span_bytes, readable_size in *. rewrite Er in *. simpl in *.
  rewrite !(load_sub _ (ptr_add (m_buffer s) ro) (wo - ro)) by (simpl; lia). by rewrite E.
Qed.

Lemma segments_ok_offset size m l s : segments_ok size m l -> s ∈ l -> segment_ok size s /\ 0 <= p_off (m_buffer s).
Proof.
  intros [_ Hok Hb] Hs. rewrite Forall_forall in Hok. split; [by apply Hok|].
  pose proof (buffers_valid _ _ _ Hb) as Hv. rewrite Forall_fmap, Forall_forall in Hv.
  by destruct (Hv s Hs) as (_ & ? & _).
Qed.

Lemma extends_stable size l l' m m' :
  segments_ok size m l -> l ⊆ l' -> Forall (fun s => segment_bytes m' s = segment_bytes m s) l ->
  extends l m l' m'.
Proof.
  intros Hok Hi Hst sp Hsp. split; [by eapply readable_in_incl|].
  destruct Hsp as (s & o & k & Hs & Ho & Hk & Hle & ->). rewrite Forall_forall in Hst.
  destruct (segments_ok_offset _ _ _ _ Hok Hs). eapply span_bytes_stable; eauto.
Qed.

(** Growing the readable window of the last segment. *)
Lemma extends_grow size m m' front back back' :
  segments_ok size m (front ++ [back]) ->
  Forall (fun s => segment_bytes m' s = segment_bytes m s) (front ++ [back]) ->
  s_data (m_readable_span back') = s_data (m_readable_span back) ->
  readable_size back <= readable_size back' ->
  extends (front ++ [back]) m (front ++ [back']) m'.
Proof.
  intros Hok Hst Hd Hle sp Hsp. split.
  - destruct Hsp as (s & o & k & [Hs|Hs%list_elem_of_singleton]%elem_of_app & Ho & Hk & Hb & ->).
    + exists s, o, k. split_and!; try done. apply elem_of_app. by left.
    + subst s. exists back', o, k. split_and!; try done; [apply elem_of_app; right; by left|lia|].
      unfold subspan_n. by rewrite Hd.
  - by apply (extends_stable size (front ++ [back]) (front ++ [back]) m m').
Qed.

(** ** The invariant *)
Section invariant.
Context {R : Type} `{ResourceLaws R}.
Implicit Types p : pipeline R.

Definition max_segments p : Z := ceil_div (m_pause_writer_threshold p) (m_buffer_size p).

Definition content p (m : memory) : bytes := segments_bytes m (m_segments p).

Record pipeline_ok p (m : memory) : Prop := {
  po_pause : is_size (m_pause_writer_threshold p);
  po_segments : segments_ok (m_buffer_size p) m (m_segments p);
  po_resource : resource_inv (m_allocator p) (m_buffer_size p) (max_segments p) m
                  (m_buffer <$> m_segments p);
  po_readable : Forall (fun s => 0 < readable_size s) (m_segments p);
  po_capacity : m_buffer_size p * len (m_segments p) <= m_pause_writer_threshold p;
  po_open : m_reader_completed p = false ->
    m_buffered_size p = total_readable (m_segments p) /\
    m_actual_buffered_size p = m_buffer_size p * len (m_segments p) /\
    0 <= m_examined_size p <= m_buffered_size p /\
    0 <= m_pending_read_size p <= m_buffered_size p
}.

(** What a write in progress leaves alone. *)
Record same_frame p p' : Prop := {
  sf_pause : m_pause_writer_threshold p' = m_pause_writer_threshold p;
  sf_resume : m_resume_writer_threshold p' = m_resume_writer_threshold p;
  sf_size : m_buffer_size p' = m_buffer_size p;
  sf_examined : m_examined_size p' = m_examined_size p;
  sf_pending : m_pending_read_size p' = m_pending_read_size p;
  sf_waiting : m_reader_waiting p' = m_reader_waiting p;
  sf_has_pending : m_has_pending_read p' = m_has_pending_read p;
  sf_writer : m_writer_completed p' = m_writer_completed p;
  sf_reader : m_reader_completed p' = m_reader_completed p
}.

Lemma same_frame_refl p : same_frame p p.
Proof. by split. Qed.

Lemma same_frame_trans p q r : same_frame p q -> same_frame q r -> same_frame p r.
Proof. intros [] []. split; congruence. Qed.

(** The invariant does not look at the flags. *)
Lemma pipeline_ok_ext p p' m :
  m_pause_writer_threshold p' = m_pause_writer_threshold p ->
  m_buffer_size p' = m_buffer_size p -> m_segments p' = m_segments p ->
  m_allocator p' = m_allocator p ->
  (m_reader_completed p' = false ->
    m_reader_completed p = false /\ m_buffered_size p' = m_buffered_size p /\
    m_actual_buffered_size p' = m_actual_buffered_size p /\
    0 <= m_examined_size p' <= m_buffered_size p /\
    0 <= m_pending_read_size p' <= m_buffered_size p) ->
  pipeline_ok p m -> pipeline_ok p' m.
Proof.
  intros Ep Eb Es Ea Ho [H1 H2 H3 H4 H5 H6].
  split; unfold max_segments in *; rewrite ?Ep, ?Eb, ?Es, ?Ea; try done.
  intros (E & -> & -> & ? & ?)%Ho. destruct (H6 E) as (? & ? & _). done.
Qed.

Lemma capacity_segments p n :
  0 < m_buffer_size p -> m_buffer_size p * n <= m_pause_writer_threshold p -> n <= max_segments p.
Proof.
  intros Hb Hn. unfold max_segments, ceil_div.
  assert (n <= m_pause_writer_threshold p / m_buffer_size p) by (apply Z.div_le_lower_bound; lia).
  destruct (_ =? 0); lia.
Qed.

Lemma buffered_bound p m :
  pipeline_ok p m -> total_readable (m_segments p) <= m_pause_writer_threshold p.
Proof.
  intros [? [Hsz Hs _] _ _ ? _].
  pose proof (total_readable_bound (m_buffer_size p) (m_segments p) ltac:(lia) Hs). lia.
Qed.

Lemma content_len p m : pipeline_ok p m -> len (content p m) = total_readable (m_segments p).
Proof. intros []. by eapply segments_bytes_len. Qed.

Lemma segment_allocation_capacity_eq p m :
  pipeline_ok p m -> m_reader_completed p = false ->
  segment_allocation_capacity p =
    m_pause_writer_threshold p - m_buffer_size p * len (m_segments p).
Proof.
  intros Hok Ho. destruct (po_open _ _ Hok Ho) as (_ & Ea & _). unfold segment_allocation_capacity.
  rewrite Ea. pose proof (po_capacity _ _ Hok). destruct (po_pause _ _ Hok).
  destruct (po_segments _ _ Hok) as [? _ _]. pose proof (len_nonneg (m_segments p)).
  destruct (Z.ltb_spec (m_buffer_size p * len (m_segments p)) (m_pause_writer_threshold p)); [|lia].
  apply wrap_small. split; [lia|nia].
Qed.

Lemma removelast_app_last {A} (l : list A) x : last l = Some x -> l = removelast l ++ [x].
Proof. intros [l' ->]%last_Some. by rewrite removelast_last. Qed.

Lemma room_cases p :
  writer_available_capacity p ≠ 0 ->
  (exists front back, m_segments p = front ++ [back] /\ has_writable_tail p = true /\
     writable_size back = writer_available_capacity p) \/
  (has_writable_tail p = false /\ writer_available_capacity p = m_buffer_size p /\
     m_buffer_size p <= segment_allocation_capacity p).
Proof.
  unfold has_writable_tail, writer_available_capacity.
  destruct (last (m_segments p)) as [back|] eqn:El; [destruct (full back) eqn:Ef|]; cbn [negb].
  2: { intros _. left. eexists _, back. split; [by apply removelast_app_last|done]. }
  all: destruct (Z.geb_spec (segment_allocation_capacity p) (m_buffer_size p)); [|done];
    intros _; by right.
Qed.

(** The bytes [write] can still take: the rest of the last segment and the
    segments that may be added. *)
Definition tail_room p : Z :=
  match last (m_segments p) with Some back => writable_size back | None => 0 end.

Definition room p : Z :=
  tail_room p
  + m_buffer_size p * ((m_pause_writer_threshold p - m_buffer_size p * len (m_segments p)) / m_buffer_size p).

(** The bytes of the first segment that were consumed already. *)
Definition head_gap (size : Z) (segments : list data_segment) : Z :=
  match segments with [] => 0 | s :: _ => size - readable_size s - writable_size s end.

Lemma head_gap_app size s l k : head_gap size ((s :: l) ++ k) = head_gap size (s :: l).
Proof. done. Qed.

Lemma no_tail_room p : has_writable_tail p = false -> tail_room p = 0.
Proof.
  unfold has_writable_tail, tail_room, full, span_empty, writable_size.
  destruct (last _) as [s|]; [|done]. intros E%negb_false_iff. by apply Z.eqb_eq.
Qed.

Lemma tail_room_nonneg p m : pipeline_ok p m -> 0 <= tail_room p.
Proof.
  intros [_ [_ Hs _] _ _ _ _]. unfold tail_room. destruct (last _) as [s|] eqn:E; [|done].
  apply last_Some in E as [l E]. rewrite E in Hs.
  apply Forall_app in Hs as [_ [Hs _]%Forall_cons]. apply (segment_sizes _ _ Hs).
Qed.

Lemma room_nonneg p m : pipeline_ok p m -> 0 <= room p.
Proof.
  intros Hok. pose proof (tail_room_nonneg p m Hok) as Ht. destruct Hok as [_ [Hsz _ _] _ _ Hcap _].
  unfold room.
  assert (0 <= (m_pause_writer_threshold p - m_buffer_size p * len (m_segments p)) / m_buffer_size p)
    by (apply Z.div_pos; lia). nia.
Qed.

Lemma available_zero p m :
  pipeline_ok p m -> m_reader_completed p = false ->
  writer_available_capacity p = 0 <-> room p = 0.
Proof.
  intros Hok Ho. pose proof (segment_allocation_capacity_eq p m Hok Ho) as Ec.
  pose proof (tail_room_nonneg p m Hok) as Ht.
  destruct (Hok) as [_ [Hsz _ _] _ _ Hcap _].
  remember (m_pause_writer_threshold p - m_buffer_size p * len (m_segments p)) as c eqn:Hc.
  assert (0 <= c / m_buffer_size p) by (apply Z.div_pos; lia).
  assert (c / m_buffer_size p = 0 <-> c < m_buffer_size p).
  { split; [intros E|intros; apply Z.div_small; lia]. apply Z.div_small_iff in E; lia. }
  unfold room. rewrite <- Hc. unfold writer_available_capacity. rewrite Ec.
  unfold tail_room in *. destruct (last (m_segments p)) as [s|]; unfold full, span_empty, writable_size in *;
    [destruct (Z.eqb_spec (s_size (m_writable_span s)) 0) as [E|E]; cbn [negb]|].
  2: nia.
  all: destruct (Z.geb_spec c (m_buffer_size p)); rewrite ?E; nia.
Qed.

Lemma should_pause_iff p m :
  pipeline_ok p m -> m_reader_completed p = false -> should_pause_writer p = true <-> room p = 0.
Proof.
  intros Hok Ho. rewrite <- (available_zero p m) by done.
  pose proof (so_size _ _ _ (po_segments _ _ Hok)).
  unfold should_pause_writer, has_writable_tail, writer_available_capacity.
  destruct (last (m_segments p)) as [s|]; unfold full, span_empty, writable_size;
    [destruct (Z.eqb_spec (s_size (m_writable_span s)) 0) as [E|E]; cbn [negb andb]|cbn [negb andb]].
  2: split; [done|lia].
  all: destruct (Z.geb_spec (segment_allocation_capacity p) (m_buffer_size p));
    rewrite Z.ltb_lt; lia.
Qed.

(** A fresh segment behind the others. *)
Lemma append_segment_ok p m :
  pipeline_ok p m -> m_buffer_size p * (len (m_segments p) + 1) <= m_pause_writer_threshold p ->
  exists seg r m1,
    make_segment (m_allocator p) m (m_buffer_size p) = Ret (seg, r, m1) /\
    resource_inv r (m_buffer_size p) (max_segments p) m1 (m_buffer <$> m_segments p ++ [seg]) /\
    segments_ok (m_buffer_size p) m1 (m_segments p ++ [seg]) /\
    readable_size seg = 0 /\ writable_size seg = m_buffer_size p /\
    segments_bytes m1 (m_segments p ++ [seg]) = content p m /\
    extends (m_segments p) m (m_segments p ++ [seg]) m1.
Proof.
  intros Hok Hcap. destruct (Hok) as [Hpause Hsegs Hres Hread Hcapty _].
  pose proof (so_size _ _ _ Hsegs) as Hsz.
  destruct (resource_allocate (m_allocator p) (m_buffer_size p) (max_segments p) m (m_buffer <$> m_segments p))
    as (b & r & m1 & Eal & Hres1 & Hld); [done|lia| |].
  { assert (len (m_segments p) + 1 <= max_segments p) by (apply capacity_segments; lia).
    unfold len in *. rewrite length_fmap. lia. }
  pose proof (segments_bytes_buffers _ _ _ _ Hsegs Hld) as Hst.
  set (seg := Segment b (Span b (m_buffer_size p)) (Span b 0) (m_buffer_size p)).
  assert (segment_ok (m_buffer_size p) seg) as Hseg.
  { split; [done|]. exists 0, 0. rewrite !ptr_add_0, !Z.sub_0_r. split_and!; (done || lia). }
  assert (m_buffer <$> m_segments p ++ [seg] = (m_buffer <$> m_segments p) ++ [b]) as Eb
    by (by rewrite fmap_app).
  exists seg, r, m1. unfold make_segment. rewrite Eal. cbn [mbind outcome_bind].
  destruct (Z.gtb_spec (m_buffer_size p) 0); [|lia]. rewrite Eb. split_and!; try done.
  - split; [done| |rewrite Eb; by eapply resource_buffers].
    apply Forall_app. split; [by destruct Hsegs|by constructor].
  - rewrite segments_bytes_app, (segments_bytes_ext _ _ _ Hst). simpl. by rewrite app_nil_r.
  - eapply extends_stable; [done| |done]. intros s Hs. apply elem_of_app. by left.
Qed.

(** [get_segment]: afterwards the last segment has the room
    [writer_available_capacity] announced. *)
Lemma get_segment_ok p m :
  pipeline_ok p m -> m_reader_completed p = false -> writer_available_capacity p ≠ 0 ->
  exists front back r m1,
    get_segment p m = Ret (set_actual_buffered_size (m_buffer_size p * len (front ++ [back]))
      (set_allocator r (set_segments (front ++ [back]) p)), m1) /\
    resource_inv r (m_buffer_size p) (max_segments p) m1 (m_buffer <$> front ++ [back]) /\
    segments_ok (m_buffer_size p) m1 (front ++ [back]) /\
    Forall (fun s => 0 < readable_size s) front /\
    m_buffer_size p * len (front ++ [back]) <= m_pause_writer_threshold p /\
    writable_size back = writer_available_capacity p /\
    segments_bytes m1 (front ++ [back]) = content p m /\
    total_readable (front ++ [back]) = total_readable (m_segments p) /\
    writable_size back + m_buffer_size p *
      ((m_pause_writer_threshold p - m_buffer_size p * len (front ++ [back])) / m_buffer_size p) = room p /\
    extends (m_segments p) m (front ++ [back]) m1 /\
    head_gap (m_buffer_size p) (front ++ [back]) = head_gap (m_buffer_size p) (m_segments p).
Proof.
  intros Hok Ho Hcap. destruct (po_open _ _ Hok Ho) as (_ & Ea & _).
  pose proof (segment_allocation_capacity_eq p m Hok Ho) as Hsc.
  destruct (Hok) as [Hpause Hsegs Hres Hread Hcapty _]. unfold get_segment.
  destruct (room_cases p Hcap) as [(front & back & Es & -> & Hw)|(Htail & -> & Hge)]; [|rewrite Htail]; cbn [negb].
  - exists front, back, (m_allocator p), m. unfold content. rewrite <- Es.
    rewrite Es in Hread. apply Forall_app in Hread as [Hread _].
    split_and!; try done; [rewrite <- Ea; by destruct p|].
    unfold room, tail_room. by rewrite Es, last_snoc.
  - destruct (append_segment_ok p m Hok) as (seg & r & m1 & -> & ? & ? & Er & Ewr & ? & ?); [lia|].
    cbn [mbind outcome_bind]. exists (m_segments p), seg, r, m1.
    assert (m_buffer_size p * len (m_segments p ++ [seg]) = m_buffer_size p * len (m_segments p) + m_buffer_size p)
      as El by (rewrite len_app, len_singleton; lia).
    rewrite total_readable_app, El. simpl. rewrite Er. split_and!; try done; try lia.
    3: { destruct (m_segments p); [cbn; lia|done]. }
    2: { unfold room. rewrite no_tail_room by done. pose proof (so_size _ _ _ Hsegs).
      remember (m_pause_writer_threshold p - m_buffer_size p * len (m_segments p)) as c eqn:Hc.
      replace (m_pause_writer_threshold p - _) with (c + (-1) * m_buffer_size p) by lia.
      rewrite Z.div_add by lia. lia. }
    rewrite Ea. rewrite wrap_small; [done|]. destruct Hpause. pose proof (so_size _ _ _ Hsegs).
    pose proof (len_nonneg (m_segments p)). split; nia.
Qed.

(** One chunk: [get_segment().copy_from(data, n)] and the count. *)
Lemma write_chunk_ok p m data :
  pipeline_ok p m -> m_reader_completed p = false -> writer_available_capacity p ≠ 0 -> data ≠ [] ->
  let n := Z.min (len data) (writer_available_capacity p) in
  exists p1 m1 p2 m2,
    get_segment p m = Ret (p1, m1) /\ copy_into_back p1 m1 data n = Ret (p2, m2, n) /\
    let p3 := set_buffered_size (m_buffered_size p2 +! n) p2 in
    pipeline_ok p3 m2 /\ same_frame p p3 /\ m_writer_paused p3 = m_writer_paused p /\ 0 < n <= len data /\
    room p3 = room p - n /\
    content p3 m2 = content p m ++ take (Z.to_nat n) data /\
    extends (m_segments p) m (m_segments p3) m2 /\
    head_gap (m_buffer_size p) (m_segments p3) = head_gap (m_buffer_size p) (m_segments p).
Proof.
  intros Hok Ho Hcap Hdata n. destruct (po_open _ _ Hok Ho) as (Eb & Ea & Hex & Hpend).
  destruct (get_segment_ok p m Hok Ho Hcap) as
    (front & back & r & m1 & Eg & Hres & Hsegs & Hread & Hcap1 & Hw & Hcont & Htot & Hroom & Hext & Hgap).
  assert (segment_ok (m_buffer_size p) back /\ valid_range m1 (m_buffer back) (m_buffer_size p)) as [Hback Hbv].
  { pose proof (so_segments _ _ _ Hsegs) as Hf. apply Forall_app in Hf as [_ [Hf _]%Forall_cons].
    split; [done|]. pose proof (buffers_valid _ _ _ (so_buffers _ _ _ Hsegs)) as Hv.
    rewrite fmap_app in Hv. apply Forall_app in Hv as [_ [Hv _]%Forall_cons]. done. }
  pose proof (segment_sizes _ _ Hback) as Hbs. pose proof (so_size _ _ _ Hsegs) as Hsz.
  assert (0 < len data) by (pose proof (len_nonneg data); assert (len data ≠ 0) by (by rewrite len_nil_iff); lia).
  assert (0 < n <= len data) as Hn by lia.
  destruct (copy_from_ok m1 _ back data n Hback ltac:(lia) Hbv ltac:(lia))
    as (k & back' & m2 & Ec & Ek & Hback' & Ebuf & Edata & Ewr & Erd & Honly & Hbytes).
  assert (k = n) as -> by lia. clear Ek.
  pose proof (write_back_stable _ _ _ _ _ Hsegs Honly) as Hst.
  pose proof (buffered_bound p m Hok) as Hbb. destruct (po_pause p m Hok) as [_ Hpm].
  assert (m_buffer <$> front ++ [back'] = m_buffer <$> front ++ [back]) as Ebufs.
  { rewrite !fmap_app. simpl. by rewrite Ebuf. }
  eexists _, m1, (set_segments (front ++ [back']) _), m2. split; [exact Eg|].
  split; [unfold copy_into_back; cbn [m_segments set_segments set_allocator set_actual_buffered_size];
    by rewrite last_snoc, Ec, removelast_last|].
  unfold content. simpl.
  assert (segments_ok (m_buffer_size p) m2 (front ++ [back'])) as Hsegs2.
  { destruct Hsegs as [? Hf Hbufs]. split; [done| |].
    - apply Forall_app in Hf as [Hf _]. apply Forall_app. split; [done|by constructor].
    - rewrite Ebufs. eapply buffers_ok_layout; [exact Hbufs|apply Honly]. }
  assert (len (front ++ [back']) = len (front ++ [back])) as El by (rewrite !len_app; done).
  assert (total_readable (front ++ [back']) = total_readable (m_segments p) + n) as Et.
  { rewrite <- Htot, !total_readable_app. simpl. lia. }
  pose proof (total_readable_bound (m_buffer_size p) (front ++ [back']) ltac:(lia) (so_segments _ _ _ Hsegs2)) as Hbound.
  split_and!; try done; try lia.
  - split; unfold max_segments; simpl; rewrite ?El, ?Et; try done; [by destruct Hok| | |].
    + rewrite Ebufs. by eapply resource_layout; [|apply Honly].
    + apply Forall_app. split; [done|]. constructor; [lia|done].
    + intros _. rewrite Eb. unwrap. split_and!; lia.
  - rewrite <- Hroom. unfold room, tail_room. simpl. rewrite last_snoc, El, Ewr. lia.
  - rewrite segments_bytes_app. simpl. rewrite app_nil_r, Hbytes.
    unfold content in Hcont. rewrite <- Hcont, segments_bytes_app. simpl. rewrite app_nil_r, <- app_assoc.
    f_equal. apply segments_bytes_ext. by apply Forall_app in Hst as [? _].
  - eapply extends_trans; [done|]. eapply (extends_grow (m_buffer_size p)); try done. lia.
  - rewrite <- Hgap. destruct front; cbn; lia.
Qed.
(** ** Writing a whole round

    What a write in progress has done when it went from [(p, m, l)] to
    [(p', m', l')] and appended [k] bytes. *)
Record write_progress p m l p' m' l' (k : Z) : Prop := {
  wp_ok : pipeline_ok p' m';
  wp_frame : same_frame p p';
  wp_count : 0 <= k <= len (w_data l);
  wp_data : w_data l' = drop (Z.to_nat k) (w_data l);
  wp_copied : w_copied l' = w_copied l +! k;
  wp_content : content p' m' = content p m ++ take (Z.to_nat k) (w_data l);
  wp_extends : extends (m_segments p) m (m_segments p') m';
  wp_notify : w_notify l' = w_notify l || (m_reader_waiting p && (0 <? k));
  wp_token : w_token l = None -> w_token l' = None;
  wp_room : room p' = room p - k;
  wp_gap : head_gap (m_buffer_size p) (m_segments p') = head_gap (m_buffer_size p) (m_segments p)
}.

Lemma write_progress_refl p m l t :
  pipeline_ok p m -> is_size (w_copied l) -> (w_token l = None -> t = None) ->
  write_progress p m l p m (WriteLocals (w_data l) (w_copied l) t (w_notify l)) 0.
Proof.
  intros Hok Hc Ht. pose proof (len_nonneg (w_data l)). split; try done; simpl.
  - by unwrap; rewrite Z.add_0_r.
  - by rewrite app_nil_r.
  - by rewrite andb_false_r, orb_false_r.
  - lia.
Qed.

Lemma write_progress_trans p m l p1 m1 l1 k1 p2 m2 l2 k2 :
  write_progress p m l p1 m1 l1 k1 -> write_progress p1 m1 l1 p2 m2 l2 k2 ->
  write_progress p m l p2 m2 l2 (k1 + k2).
Proof.
  intros [A1 A2 A3 A4 A5 A6 A7 A8 A9 A10 A11] [B1 B2 B3 B4 B5 B6 B7 B8 B9 B10 B11].
  assert (len (w_data l1) = len (w_data l) - k1) as El.
  { rewrite A4. unfold len in *. rewrite length_drop. lia. }
  split; try done.
  - by eapply same_frame_trans.
  - lia.
  - rewrite B4, A4, drop_drop. f_equal. lia.
  - by rewrite B5, A5, wrap_assoc.
  - rewrite B6, A6, A4, <- app_assoc. f_equal. rewrite Z2Nat.inj_add by lia.
    by rewrite take_take_drop.
  - by eapply extends_trans.
  - rewrite B8, A8, (sf_waiting _ _ A2).
    destruct (w_notify l), (m_reader_waiting p), (Z.ltb_spec 0 k1), (Z.ltb_spec 0 k2),
      (Z.ltb_spec 0 (k1 + k2)); simpl; (done || lia).
  - auto.
  - lia.
  - by rewrite <- A11, <- (sf_size _ _ A2), B11.
Qed.

Lemma write_progress_paused p m l p' m' l' k b :
  write_progress p m l p' m' l' k -> write_progress p m l (set_writer_paused b p') m' l' k.
Proof.
  intros [A1 [] A3 A4 A5 A6 A7 A8 A9 A10 A11]. split; try done.
  eapply pipeline_ok_ext; [..|exact A1]; try done. simpl. intros E.
  destruct (po_open _ _ A1 E) as (? & ? & ? & ?). done.
Qed.

(** How the inner loop, entered in [p0], ends. *)
Definition inner_ends p0 p l' (exit : inner_exit) (t : stop_token) : Prop :=
  match exit with
  | LoopEnds =>
      (w_data l' = [] \/ m_writer_paused p = true) /\
      (m_writer_paused p = true -> m_writer_paused p0 = true \/ room p = 0)
  | ReturnsCopied => w_data l' ≠ [] /\ m_writer_paused p = false /\ t ≠ None /\ w_token l' = stopped
  end.

(** One round of the inner loop: a chunk is copied, and the writer may pause
    for want of room. *)
Lemma write_chunk_progress p m data copied t t' notify :
  pipeline_ok p m -> m_reader_completed p = false -> writer_available_capacity p ≠ 0 -> data ≠ [] ->
  (t = None -> t' = None) ->
  let n := Z.min (len data) (writer_available_capacity p) in
  exists p1 m1 p2 m2 p4,
    get_segment p m = Ret (p1, m1) /\ copy_into_back p1 m1 data n = Ret (p2, m2, n) /\
    let p3 := set_buffered_size (m_buffered_size p2 +! n) p2 in
    let l3 := WriteLocals (drop (Z.to_nat n) data) (copied +! n) t' (if m_reader_waiting p3 then true else notify) in
    (if should_pause_writer p3 then set_writer_paused true p3 else p3) = p4 /\ 0 < n <= len data /\
    write_progress p m (WriteLocals data copied t notify) p4 m2 l3 n /\
    is_any_completed p4 = is_any_completed p /\
    (m_writer_paused p4 = true -> m_writer_paused p = true \/ room p4 = 0).
Proof.
  intros Hok Hr Hcap Hd Ht n. destruct (write_chunk_ok p m data Hok Hr Hcap Hd) as
    (p1 & m1 & p2 & m2 & Eg & Ec & Hok3 & Hfr & Hpa & Hn & Hroom & Hcon & Hext & Hgap). fold n in Ec, Hok3, Hfr, Hpa, Hn, Hroom, Hcon, Hext, Hgap.
  remember (set_buffered_size (m_buffered_size p2 +! n) p2) as p3 eqn:E3.
  exists p1, m1, p2, m2, (set_writer_paused (if should_pause_writer p3 then true else m_writer_paused p3) p3).
  split; [exact Eg|]. split; [exact Ec|]. rewrite <- E3. cbv zeta.
  split; [by destruct p3, (should_pause_writer _)|]. split; [exact Hn|]. split_and!.
  - apply write_progress_paused. split; try done; simpl; [lia|]. rewrite (sf_waiting _ _ Hfr).
    destruct (Z.ltb_spec 0 n); [|lia]. by destruct (m_reader_waiting p), notify.
  - unfold is_any_completed. simpl. by rewrite (sf_writer _ _ Hfr), (sf_reader _ _ Hfr).
  - simpl. destruct (should_pause_writer p3) eqn:Es; [|left; congruence]. intros _. right.
    apply (should_pause_iff p3 m2) in Es; [exact Es|done|by rewrite (sf_reader _ _ Hfr)].
Qed.

Lemma write_inner_ok fuel p m l :
  (length (w_data l) < fuel)%nat -> pipeline_ok p m -> is_size (w_copied l) ->
  is_any_completed p = false ->
  exists p' m' l' k exit,
    write_inner fuel p m l = Ret (p', m', l', exit) /\
    write_progress p m l p' m' l' k /\ inner_ends p p' l' exit (w_token l).
Proof.
  revert p m l. induction fuel as [|fuel IH]; intros p m [data copied t notify] Hf Hok Hc Ho; [simpl in *; lia|].
  cbn [write_inner w_data w_copied w_token w_notify] in *.
  destruct (Z.eqb_spec (len data) 0) as [E%len_nil_iff|Hne]; cbn [orb].
  { subst data. eexists p, m, _, 0, LoopEnds. split; [done|]. split; [by apply write_progress_refl|split; auto]. }
  destruct (m_writer_paused p) eqn:Ep.
  { eexists p, m, _, 0, LoopEnds. split; [done|]. split; [by apply write_progress_refl|split; auto]. }
  rewrite Ho. assert (data ≠ []) as Hd by (intros ->; by destruct Hne).
  destruct (stop_requested t) as [stop t'] eqn:Et.
  assert (t = None -> t' = None) as Ht by (by intros ->; simplify_eq/=).
  destruct stop.
  { eexists p, m, _, 0, ReturnsCopied. split; [done|]. split; [by apply (write_progress_refl p m (WriteLocals data copied t notify))|].
    destruct t as [[|?]|]; simplify_eq/=. by split_and!. }
  assert (m_reader_completed p = false) as Hr by (unfold is_any_completed in Ho; by destruct (m_writer_completed p)).
  destruct (Z.eqb_spec (writer_available_capacity p) 0) as [Hz|Hcap].
  { eexists _, m, _, 0, LoopEnds. split; [done|]. split.
    2: { split; [by right|]. intros _. right. by apply (proj1 (available_zero p m Hok Hr)). }
    apply write_progress_paused. by apply (write_progress_refl p m (WriteLocals data copied t notify)). }
  destruct (write_chunk_progress p m data copied t t' notify Hok Hr Hcap Hd Ht) as
    (p1 & m1 & p2 & m2 & p4 & -> & Ec & E4 & Hn & W & Hany & Hpause). cbn [mbind outcome_bind]. rewrite Ec. cbn [mbind outcome_bind].
  rewrite E4. remember (WriteLocals (drop _ _) _ _ _) as l3 eqn:El3.
  destruct (IH p4 m2 l3) as (p' & m' & l' & k & exit & E & W' & Hend).
  - subst l3. simpl. rewrite length_drop. unfold len in *. lia.
  - apply W.
  - subst l3. apply wrap_range.
  - by rewrite Hany.
  - rewrite E. eexists _, _, _, _, exit. split; [done|]. split; [by eapply write_progress_trans|]. destruct exit.
    { destruct Hend as [? Hp]. split; [done|]. intros [[Hp'|Hz]%Hpause|]%Hp; [by left| |by right].
      right. pose proof (wp_room _ _ _ _ _ _ _ W') as Hr'. pose proof (wp_count _ _ _ _ _ _ _ W').
      pose proof (room_nonneg _ _ (wp_ok _ _ _ _ _ _ _ W')). lia. }
    destruct Hend as (? & ? & Ht3 & ?). split_and!; try done. intros ->. destruct Ht3. subst l3. simpl. by apply Ht.
Qed.

(** ** Advancing *)

(** What [advance] leaves alone. *)
Record advance_frame p p' : Prop := {
  af_pause : m_pause_writer_threshold p' = m_pause_writer_threshold p;
  af_resume : m_resume_writer_threshold p' = m_resume_writer_threshold p;
  af_size : m_buffer_size p' = m_buffer_size p;
  af_waiting : m_reader_waiting p' = m_reader_waiting p;
  af_writer : m_writer_completed p' = m_writer_completed p;
  af_reader : m_reader_completed p' = m_reader_completed p
}.

Lemma no_readable_no_segments p m :
  pipeline_ok p m -> content p m = [] -> m_segments p = [].
Proof.
  intros Hok Hc. pose proof (content_len p m Hok) as El. rewrite Hc in El.
  destruct Hok as [_ [_ Hs _] _ Hread _ _]. destruct (m_segments p) as [|s l]; [done|].
  apply Forall_cons in Hread as [Hr _]. apply Forall_cons in Hs as [_ Hs].
  pose proof (total_readable_nonneg _ _ Hs). simpl in El. unfold len in El. simpl in El. lia.
Qed.

Lemma advance_ok p m consumed examined :
  pipeline_ok p m -> m_reader_completed p = false -> m_has_pending_read p = true ->
  0 <= sequence_offset consumed <= sequence_offset examined ->
  sequence_offset examined <= m_pending_read_size p ->
  exists p' m',
    advance p m consumed examined = Ret (p', m', m_writer_paused p && negb (m_writer_paused p')) /\
    pipeline_ok p' m' /\ advance_frame p p' /\
    content p' m' = drop (Z.to_nat (sequence_offset consumed)) (content p m) /\
    m_buffered_size p' = m_buffered_size p - sequence_offset consumed /\
    m_examined_size p' = sequence_offset examined - sequence_offset consumed /\
    m_pending_read_size p' = 0 /\ m_has_pending_read p' = false /\
    m_writer_paused p' = m_writer_paused p && negb (should_resume_writer p') /\
    len (m_segments p') <= len (m_segments p).
Proof.
  intros Hok Ho Hp Hc He. destruct (po_open _ _ Hok Ho) as (Eb & Ea & Hex & Hpend).
  pose proof (buffered_bound p m Hok) as Hbb. unfold advance.
  destruct (Hok) as [Hpm Hsegs Hres Hread Hcap _]. rewrite Ho, Hp. cbn [negb].
  remember (sequence_offset consumed) as c. remember (sequence_offset examined) as e.
  destruct (Z.gtb_spec c e); [lia|]. destruct (Z.gtb_spec e (m_pending_read_size p)); [lia|].
  destruct (consume_segments_ok (m_buffer_size p) (max_segments p) (m_segments p) c (m_allocator p) m)
    as (segs & r & m' & E & K1 & K2 & K3 & K4 & K5 & K6); [done..|unfold is_size in *; lia|lia|].
  rewrite Eb, Ea, E. cbn [mbind outcome_bind].
  unfold is_size in *. rewrite (wrap_small (e - c)) by (unfold is_size; lia).
  remember (set_examined_size (e - c) _) as q eqn:Eq.
  assert ((if m_writer_paused q && should_resume_writer q then set_writer_paused false q else q)
    = set_writer_paused (m_writer_paused q && negb (should_resume_writer q)) q) as ->.
  { destruct q as [? ? ? ? ? ? ? ? ? ? ? ? ? []]; simpl; [|done]. by destruct (should_resume_writer _). }
  assert (m_writer_paused q = m_writer_paused p) as Ew by (by rewrite Eq).
  eexists _, m'. split; [by rewrite Ew|].
  pose proof (so_size _ _ _ Hsegs). unfold should_resume_writer, content, max_segments. subst q. simpl.
  split_and!; try (done || lia).
  split; unfold max_segments; simpl; try done; nia.
Qed.

(** ** Reading *)

Lemma collect_readable_ok segments total :
  Forall (fun s => 0 < readable_size s) segments -> 0 <= total ->
  total + total_readable segments < size_modulus ->
  collect_readable segments total = (m_readable_span <$> segments, total + total_readable segments).
Proof.
  intros Hs. revert total. induction Hs as [|s l Hs Hl IH]; intros total Ht Hb; simpl in *.
  { by rewrite Z.add_0_r. }
  assert (0 <= total_readable l).
  { clear -Hl. induction Hl; simpl; lia. }
  destruct (Z.eqb_spec (readable_size s) 0); [lia|]. unwrap. rewrite IH by lia.
  f_equal. lia.
Qed.

Lemma readable_view_ok p m :
  pipeline_ok p m ->
  view_ok m (make_readable_view (m_segments p)) /\
  view_bytes m (make_readable_view (m_segments p)) = content p m /\
  view_size (make_readable_view (m_segments p)) = total_readable (m_segments p) /\
  m_begin_offset (make_readable_view (m_segments p)) = 0 /\
  Forall (readable_in (m_segments p)) (ByteView.m_segments (make_readable_view (m_segments p))).
Proof.
  intros Hok. pose proof (buffered_bound p m Hok) as Hb. pose proof (po_pause _ _ Hok) as [_ ?].
  destruct (Hok) as [_ Hsegs _ Hread _ _]. unfold make_readable_view.
  rewrite collect_readable_ok by (done || lia). rewrite Z.add_0_l. unfold content.
  assert (Forall (fun s => segment_ok (m_buffer_size p) s /\ valid_range m (m_buffer s) (m_buffer_size p))
    (m_segments p)) as Hv.
  { destruct Hsegs as [_ Hs [Hv _]]. rewrite Forall_fmap in Hv. by apply Forall_and. }
  unfold view_bytes. simpl. split_and!; try done.
  - split; simpl; [|clear|lia|lia].
    + rewrite Forall_fmap. eapply Forall_impl; [exact Hv|]. intros s [? ?]. by eapply segment_readable_valid.
    + induction (m_segments p) as [|s l IH]; [done|]. simpl. by rewrite IH.
  - clear. induction (m_segments p) as [|s l IH]; [done|]. by apply (f_equal (app (segment_bytes m s))).
  - rewrite Forall_fmap, Forall_forall. intros s Hs. rewrite Forall_forall in Hv.
    destruct (Hv s Hs) as [Hs' _]. pose proof (segment_sizes _ _ Hs'). exists s, 0, (readable_size s).
    split_and!; try done; try lia. unfold subspan_n. rewrite ptr_add_0. unfold readable_size.
    by destruct (m_readable_span s).
Qed.

(** A view into the readable bytes keeps its validity and its bytes under
    everything a writer does. *)
Lemma readable_in_valid size m segments sp :
  segments_ok size m segments -> readable_in segments sp -> valid_span m sp.
Proof.
  intros [_ Hs [Hv _]] (s & o & k & Hin & ? & ? & ? & ->). rewrite Forall_fmap in Hv.
  rewrite Forall_forall in Hs, Hv. pose proof (segment_readable_valid m _ s (Hs s Hin) (Hv s Hin)) as Hr.
  unfold valid_span in *. simpl. by eapply valid_range_sub.
Qed.

Lemma view_extends size v segments m segments' m' :
  segments_ok size m' segments' -> extends segments m segments' m' ->
  Forall (readable_in segments) (ByteView.m_segments v) -> view_ok m v ->
  view_ok m' v /\ view_bytes m' v = view_bytes m v /\ Forall (readable_in segments') (ByteView.m_segments v).
Proof.
  intros Hok Hext Hin [Hv ? ? ?].
  assert (Forall (readable_in segments') (ByteView.m_segments v)) as Hin'.
  { eapply Forall_impl; [exact Hin|]. intros sp Hsp. by apply Hext. }
  split_and!; [split; try done| |done].
  - eapply Forall_impl; [exact Hin'|]. intros sp. by apply (readable_in_valid size).
  - unfold view_bytes. clear -Hin Hext. induction Hin as [|sp l Hsp _ IH]; [done|].
    cbn [spans_bytes]. destruct (Hext sp Hsp) as [_ E]. simpl. by rewrite E, IH.
Qed.

(** ** Completion *)

Lemma complete_writer_ok p m : pipeline_ok p m -> pipeline_ok (complete_writer p) m.
Proof.
  intros Hok. eapply pipeline_ok_ext; [..|exact Hok]; try done.
  intros E. destruct (po_open _ _ Hok E) as (? & ? & ? & ?). done.
Qed.

Lemma complete_reader_ok p m : pipeline_ok p m -> pipeline_ok (complete_reader p) m.
Proof. intros Hok. by eapply pipeline_ok_ext; [..|exact Hok]. Qed.

(** ** Destruction *)

Lemma destroy_segments_ok size max segments (r : R) m :
  0 < size -> Forall (segment_ok size) segments -> resource_inv r size max m (m_buffer <$> segments) ->
  exists r' m', destroy_segments r m segments = Ret (r', m') /\ resource_inv r' size max m' [].
Proof.
  intros Hsz Hs. revert r m. induction Hs as [|s l Hs _ IH]; intros r m Hr; cbn [destroy_segments].
  { by eexists _, _. }
  destruct (resource_deallocate r size max m (m_buffer s) (m_buffer <$> l)) as (r' & m' & E & Hr' & _);
    [done..|]. unfold destroy_segment. rewrite (segment_capacity _ _ Hs), E. by apply IH.
Qed.

Lemma destroy_pipeline_ok p m :
  pipeline_ok p m -> exists m', destroy_pipeline p m = Ret m' /\ m_blocks m' = ∅.
Proof.
  intros [_ [Hsz Hs _] Hr _ _ _].
  destruct (destroy_segments_ok (m_buffer_size p) _ _ _ _ ltac:(lia) Hs Hr) as (r & m' & E & Hr').
  unfold destroy_pipeline. cbn [m_allocator m_segments complete_reader complete_writer set_examined_size
    set_actual_buffered_size set_buffered_size set_pending_read_size set_writer_paused
    set_has_pending_read set_reader_completed set_writer_completed].
  rewrite E. by eapply resource_destroy.
Qed.
End invariant.

(** ** Construction *)

Definition options_sized (options : pipe_options) : Prop :=
  is_size (buffer_size options) /\ is_size (pause_writer_threshold options) /\
  is_size (resume_writer_threshold options).

(** What [validate_options] accepts. *)
Definition options_valid (options : pipe_options) : Prop :=
  0 < buffer_size options /\ 0 < pause_writer_threshold options /\
  resume_writer_threshold options <= pause_writer_threshold options.

Lemma validate_options_valid options :
  options_sized options -> options_valid options ->
  validate_options options = Ret (ValidatedOptions (buffer_size options)
    (pause_writer_threshold options) (resume_writer_threshold options)
    (ceil_div (pause_writer_threshold options) (buffer_size options)) (allocator options)).
Proof.
  intros (Hb & Hp & Hr) (Hb' & Hp' & Hr'). unfold validate_options.
  destruct (Z.eqb_spec (buffer_size options) 0), (Z.eqb_spec (pause_writer_threshold options) 0),
    (Z.gtb_spec (resume_writer_threshold options) (pause_writer_threshold options)); try lia.
  pose proof (ceil_div_spec _ _ Hp' Hb') as [? _]. unfold ceil_div in *. by unwrap.
Qed.

Section construction.
Context {U : Type} `{ResourceLaws U} (make_unsynchronized : Z -> Z -> memory -> outcome (U * memory)).

(** What the pipeline relies on of the standard library's pool. *)
Definition unsynchronized_pool_contract : Prop :=
  forall size max, 0 < size -> 0 < max -> exists r m,
    make_unsynchronized size max empty_memory = Ret (r, m) /\ resource_inv r size max m [].

(** The arena multiplies [buffer_size] by the number of segments. *)
Definition arena_fits (experimental : bool) (options : pipe_options) : Prop :=
  experimental = true -> allocator options = kind_arena_pool_resource ->
  buffer_size options * ceil_div (pause_writer_threshold options) (buffer_size options) < size_modulus.

Lemma construct_ok experimental options :
  (allocator options = kind_unsynchronized_pool_resource -> unsynchronized_pool_contract) ->
  options_sized options -> options_valid options -> arena_fits experimental options ->
  exists p m, construct make_unsynchronized experimental options empty_memory = Ret (p, m) /\
    pipeline_ok p m /\ content p m = [] /\ m_segments p = [] /\
    m_pause_writer_threshold p = pause_writer_threshold options /\
    m_resume_writer_threshold p = resume_writer_threshold options /\
    m_buffer_size p = buffer_size options /\
    m_writer_completed p = false /\ m_reader_completed p = false /\
    m_writer_paused p = false /\ m_has_pending_read p = false.
Proof.
  intros Hu Hsz Hv Ha. unfold construct. rewrite validate_options_valid by done.
  destruct Hsz as (Hb & Hp & _), Hv as (Hb' & Hp' & _).
  pose proof (ceil_div_spec _ _ Hp' Hb') as [[Hc _] _].
  assert (forall (r : pool_resource U) m,
    resource_inv r (buffer_size options) (ceil_div (pause_writer_threshold options) (buffer_size options)) m [] ->
    pipeline_ok (make_pipeline (ValidatedOptions (buffer_size options) (pause_writer_threshold options)
      (resume_writer_threshold options) (ceil_div (pause_writer_threshold options) (buffer_size options))
      (allocator options)) r) m) as Hinit.
  { intros r m Hr. split; try done; simpl; [|unfold len; simpl; lia|intros _; split_and!; unfold len; simpl; lia].
    split; [simpl; unfold is_size in *; lia|by apply Forall_nil|exact (resource_buffers _ _ _ _ _ Hr)]. }
  cbn [mbind outcome_bind]. unfold make_allocator. cbn [v_allocator v_buffer_size v_max_pooled_segments].
  destruct (Fixed.fixed_make_inv _ _ Hb' Hc) as (f & Ef & Hf).
  destruct experimental; [destruct (allocator options) eqn:Ek|].
  - rewrite Ef. eexists _, _. split; [done|]. by split; [apply (Hinit (FixedPool f))|].
  - destruct (Arena.arena_make_inv _ _ Hb' Hc ltac:(by apply Ha)) as (a & m & Ea & Hai).
    rewrite Ea. eexists _, _. split; [done|]. by split; [apply (Hinit (ArenaPool a))|].
  - destruct (Hu eq_refl _ _ Hb' Hc) as (u & m & Eu & Hui).
    rewrite Eu. eexists _, _. split; [done|]. by split; [apply (Hinit (UnsynchronizedPool u))|].
  - rewrite Ef. eexists _, _. split; [done|]. by split; [apply (Hinit (FixedPool f))|].
Qed.
End construction.

(** ** The sections of [write] *)
Section writing.
Context {R : Type} `{ResourceLaws R}.
Implicit Types p : pipeline R.

(** What one round of [write] entered with the locals [l] has done. *)
Definition write_step_ok p m l p' m' (step : write_step) : Prop :=
  match step with
  | WriteSleeps l' =>
      p' = p /\ m' = m /\ m_writer_paused p = true /\ stop_pending (w_token l) = false /\
      w_data l' = w_data l /\ w_copied l' = w_copied l /\ w_notify l' = w_notify l /\
      (w_token l = None -> w_token l' = None)
  | WriteReturns copied =>
      w_token l ≠ None /\ m_writer_paused p' = false /\
      exists l' k, write_progress p m l p' m' l' k /\ k < len (w_data l) /\ copied = w_copied l +! k
  | WriteUnlocks l' =>
      (w_data l' = [] \/ m_writer_paused p' = true) /\
      (m_writer_paused p' = true -> m_writer_paused p = true \/ room p' = 0) /\
      exists k, write_progress p m l p' m' l' k
  end.

Lemma write_progress_token p m l p' m' l' k t :
  write_progress p m (WriteLocals (w_data l) (w_copied l) t (w_notify l)) p' m' l' k ->
  (w_token l = None -> t = None) -> write_progress p m l p' m' l' k.
Proof. intros [] Ht. split; auto. Qed.

Lemma write_wait_ok p m l :
  pipeline_ok p m -> is_size (w_copied l) -> is_any_completed p = false ->
  exists p' m' step, write_wait p m l = Ret (p', m', step) /\ pipeline_ok p' m' /\ same_frame p p' /\
    write_step_ok p m l p' m' step.
Proof.
  intros Hok Hc Ho. unfold write_wait. destruct (cv_wait_round (space_available p) (w_token l)) as [round t] eqn:Ec.
  assert (w_token l = None -> t = None) as Ht.
  { intros E. rewrite E, cv_return_no_stop in Ec. by destruct (space_available p); simplify_eq. }
  destruct round as [b|].
  - destruct (write_inner_ok (S (length (w_data l))) p m (WriteLocals (w_data l) (w_copied l) t (w_notify l)))
      as (p' & m' & l' & k & exit & E & W & Hend); [simpl; lia|done..|].
    cbn [w_data] in E |- *. rewrite E. cbn [mbind outcome_bind]. apply write_progress_token in W; [|done].
    pose proof (wp_ok _ _ _ _ _ _ _ W). pose proof (wp_frame _ _ _ _ _ _ _ W).
    destruct exit; eexists _, _, _; (split; [done|]); cbn [write_step_ok inner_ends] in *; split_and!; try done.
    + by apply Hend.
    + by apply Hend.
    + by exists k.
    + intros E'. by destruct Hend as (_ & _ & [] & _); apply Ht.
    + by apply Hend.
    + exists l', k. split_and!; [done| |by rewrite (wp_copied _ _ _ _ _ _ _ W)].
      destruct Hend as [Hd _]. pose proof (wp_count _ _ _ _ _ _ _ W). rewrite (wp_data _ _ _ _ _ _ _ W) in Hd.
      destruct (Z.eq_dec k (len (w_data l))) as [->|]; [|lia]. destruct Hd. unfold len.
      by rewrite Nat2Z.id, drop_all.
  - apply cv_sleep_iff in Ec as [Hs Hp]. eexists _, _, _. split; [done|]. split; [done|].
    split; [apply same_frame_refl|]. unfold space_available in Hs. apply negb_false_iff in Hs.
    cbn [write_step_ok]. by split_and!.
Qed.

(** A completed pipeline refuses the rest of a write. *)
Lemma write_wait_completed p m l :
  is_any_completed p = true -> m_writer_paused p = false -> w_data l ≠ [] ->
  write_wait p m l = throw logic_error "pipeline is completed".
Proof.
  intros Hc Hp Hd. unfold write_wait, space_available. rewrite Hp.
  assert ((len (w_data l) =? 0) = false) as E.
  { apply Z.eqb_neq. by rewrite len_nil_iff. }
  destruct (cv_wait_round (negb false) (w_token l)) as [[b|] t] eqn:Ec.
  - simpl. by rewrite E, Hp, Hc.
  - apply cv_sleep_iff in Ec as [? _]. done.
Qed.

(** An uninterrupted write takes exactly the bytes there is room for. *)
Lemma write_exact_ok p m data :
  pipeline_ok p m -> is_any_completed p = false -> m_writer_paused p = false -> len data < size_modulus ->
  let k := Z.min (len data) (room p) in
  exists p' m',
    write_rounds 2 p m data 0 no_stop =
      Ret (p', m', if k =? len data then WriteDone (len data)
                   else WriteParked (WriteLocals (drop (Z.to_nat k) data) k no_stop false)) /\
    pipeline_ok p' m' /\ same_frame p p' /\
    content p' m' = content p m ++ take (Z.to_nat k) data /\ room p' = room p - k /\
    extends (m_segments p) m (m_segments p') m' /\
    (m_writer_paused p' = true -> room p' = 0) /\ (k < len data -> m_writer_paused p' = true).
Proof.
  intros Hok Ho Hp Hlen k. pose proof (room_nonneg p m Hok) as Hroom. pose proof (len_nonneg data) as Hd0.
  cbn [write_rounds]. destruct (Z.eqb_spec (len data) 0) as [E%len_nil_iff|Hne].
  { subst data k. exists p, m. rewrite (Z.min_l _ (room p)) by done. simpl. rewrite app_nil_r, Z.sub_0_r.
    split_and!; try done. congruence. }
  destruct (write_wait_ok p m (WriteLocals data 0 no_stop false) Hok) as (p1 & m1 & step & E & Hok1 & Hfr & Hstep);
    [done..|].
  assert (write_round p m data 0 no_stop = Ret (p1, m1, step)) as -> by (unfold write_round; by rewrite Ho).
  cbn [mbind outcome_bind].
  destruct step as [l1|c|l1]; [by destruct Hstep as (_ & _ & ? & _); congruence|by destruct Hstep|].
  destruct Hstep as (Hdone & Hpause & n & W). destruct (W) as [_ _ Hn Hdata Hcop Hcont Hext Hnot Htok Hr].
  cbn [w_data w_copied w_token] in *. pose proof (room_nonneg p1 m1 Hok1) as Hr1.
  rewrite (wrap_small (0 + n)) in Hcop by (unfold is_size; lia). rewrite Z.add_0_l in Hcop.
  assert (len (w_data l1) = len data - n) as El.
  { rewrite Hdata. unfold len in *. rewrite length_drop. lia. }
  assert (m_writer_paused p1 = true -> room p1 = 0) as Hfull.
  { intros [?|?]%Hpause; [congruence|done]. }
  destruct (Z.eqb_spec (len (w_data l1)) 0) as [E0|Hrest].
  - assert (k = len data) as Ek by (unfold k; lia). assert (n = len data) as -> by lia.
    exists p1, m1. rewrite Ek, Z.eqb_refl, Hcop. split_and!; try done. lia.
  - destruct Hdone as [Hnil|Hpd]; [by rewrite Hnil in Hrest|]. specialize (Hfull Hpd).
    assert (k = n) as -> by (unfold k; lia). destruct (Z.eqb_spec n (len data)); [lia|].
    exists p1, m1. unfold write_round, is_any_completed. rewrite (sf_writer _ _ Hfr), (sf_reader _ _ Hfr).
    unfold is_any_completed in Ho. rewrite Ho. unfold write_wait, space_available. rewrite Hpd. simpl.
    rewrite Htok by done. simpl. rewrite Hdata, Hcop. split_and!; try done.
Qed.

(** A write that has ended is not changed by more rounds. *)
Lemma write_rounds_more n n' p m data copied t p' m' e :
  (n <= n')%nat -> write_rounds n p m data copied t = Ret (p', m', e) ->
  (forall d c t', e ≠ WriteRunning d c t') -> write_rounds n' p m data copied t = Ret (p', m', e).
Proof.
  revert n' p m data copied t. induction n as [|n IH]; intros n' p m data copied t Hn E He; cbn [write_rounds] in E.
  - destruct n'; cbn [write_rounds]; destruct (len data =? 0); try done;
      simplify_eq; by edestruct He.
  - destruct n' as [|n']; [lia|]. cbn [write_rounds]. destruct (len data =? 0); [done|].
    destruct (write_round p m data copied t) as [[[p1 m1] step]| |]; [|done..]. cbn [mbind outcome_bind] in *.
    destruct step; [done..|]. apply IH; [lia|done..].
Qed.
End writing.

(** ** The sections of [read_at_least] *)
Section reading.
Context {R : Type} `{ResourceLaws R}.
Implicit Types p : pipeline R.

(** A snapshot of everything buffered, and the state it leaves. *)
Record snapshot_ok p m p' (r : read_result) : Prop := {
  sn_state : p' = set_pending_read_size (len (content p m)) (set_has_pending_read true p);
  sn_completed : rr_completed r = m_writer_completed p;
  sn_cancelled : rr_cancelled r = false;
  sn_view : view_ok m (rr_buffer r);
  sn_bytes : view_bytes m (rr_buffer r) = content p m;
  sn_begin : m_begin_offset (rr_buffer r) = 0;
  sn_spans : Forall (readable_in (m_segments p)) (ByteView.m_segments (rr_buffer r))
}.

Lemma snapshot_pipeline_ok p m p' r :
  pipeline_ok p m -> snapshot_ok p m p' r -> pipeline_ok p' m.
Proof.
  intros Hok [-> _ _ _ _ _ _]. pose proof (content_len p m Hok) as El.
  eapply pipeline_ok_ext; [..|exact Hok]; try done. simpl. intros E.
  destruct (po_open _ _ Hok E) as (Eb & ? & ? & ?). pose proof (len_nonneg (content p m)).
  split_and!; (done || lia).
Qed.

Lemma read_finish_ok p m t :
  pipeline_ok p m ->
  exists p' r, read_finish p t = (p', ReadReturns r) /\
    if (stop_requested t).1 then p' = p /\ r = read_result_cancelled true
    else snapshot_ok p m p' r.
Proof.
  intros Hok. unfold read_finish. destruct (stop_requested t) as [[] t'] eqn:Et; cbn [fst].
  { eexists _, _. done. }
  destruct (readable_view_ok p m Hok) as (? & ? & Es & ? & ?).
  cbn [read_result_of]. eexists _, _. split; [done|]. split; try done. simpl.
  by rewrite Es, <- (content_len p m Hok).
Qed.

(** The result of one round of the wait. *)
Definition read_step_ok p m min_size p' (step : read_step) : Prop :=
  match step with
  | ReadSleeps _ => p' = p /\ data_available p min_size = false
  | ReadReturns r =>
      if rr_cancelled r then
        p' = set_reader_waiting false p /\ r = read_result_cancelled true
      else data_available p min_size = true /\ snapshot_ok (set_reader_waiting false p) m p' r
  end.

Lemma waiting_ok p m b : pipeline_ok p m -> pipeline_ok (set_reader_waiting b p) m.
Proof.
  intros Hok. eapply pipeline_ok_ext; [..|exact Hok]; try done.
  intros E. by destruct (po_open _ _ Hok E) as (? & ? & ? & ?).
Qed.

Lemma read_wait_ok p m min_size t :
  pipeline_ok p m ->
  exists p' step, read_wait p min_size t = (p', step) /\ pipeline_ok p' m /\ read_step_ok p m min_size p' step.
Proof.
  intros Hok. unfold read_wait. destruct (cv_wait_round _ t) as [round t'] eqn:Ec.
  pose proof (waiting_ok p m false Hok) as Hok'.
  destruct round as [b|].
  - destruct (read_finish_ok (set_reader_waiting false p) m t' Hok') as (p' & r & -> & Hr).
    eexists _, _. split; [done|]. cbn [read_step_ok].
    destruct (stop_requested t').1 eqn:Et; [by destruct Hr as [-> ->]|].
    split; [by eapply snapshot_pipeline_ok|]. rewrite (sn_cancelled _ _ _ _ Hr). split; [|done].
    unfold cv_wait_round in Ec. destruct (data_available p min_size); [done|].
    destruct t as [[|n]|]; simplify_eq/=.
  - apply cv_sleep_iff in Ec as [? _]. by eexists _, _.
Qed.
End reading.

(** ** A small pipeline, for the instances of the theorems *)

(** Segments of 4 bytes, at most 16 buffered, resuming at 8. *)
Definition demo_options : pipe_options := PipeOptions 4 8 16 kind_fixed_pool_resource.
Definition demo : pipeline Fixed.fixed_pool_resource :=
  make_pipeline (ValidatedOptions 4 16 8 4 kind_fixed_pool_resource) (Fixed.Pool [] 4 4).

Lemma demo_ok : pipeline_ok demo empty_memory.
Proof.
  destruct (Fixed.fixed_make_inv 4 4) as (r & Er & Hr); [lia..|]. vm_compute in Er. injection Er as <-.
  by split.
Qed.

Definition demo_data : bytes := text "abcdef".
