(* ===== verification/PipelineSpace.v ===== *)
(** How the segments of a pipeline are used: what a write takes from the room,
    [advance] gives back, but for the consumed part of the first segment.  So
    a pipeline without room holds almost its pause threshold. *)

From S2P Require Import Prelude Memory Position ByteView Resource Pools Segment Pipeline PipelineProofs.

(** [room] without the constant part. *)
Definition free_space (size : Z) (segments : list data_segment) : Z :=
  match last segments with Some back => writable_size back | None => 0 end - size * len segments.

(** What would be wasted if the first segment were not partly consumed. *)
Definition slack (size : Z) (segments : list data_segment) : Z :=
  free_space size segments + total_readable segments + head_gap size segments.

Lemma free_space_cons size s s' l :
  free_space size (s :: s' :: l) = free_space size (s' :: l) - size.
Proof. unfold free_space. change (last (s :: s' :: l)) with (last (s' :: l)). rewrite (len_cons s). lia. Qed.

Lemma head_gap_nonneg size segments : Forall (segment_ok size) segments -> 0 <= head_gap size segments.
Proof. destruct 1 as [|s l Hs _]; cbn; [done|]. pose proof (segment_sizes _ _ Hs). lia. Qed.

(** A segment that is read to its end goes away. *)
Lemma drop_segment_space size s l :
  0 < size -> segment_ok size s -> Forall (segment_ok size) l ->
  free_space size (s :: l) <= free_space size l /\ slack size (s :: l) <= slack size l.
Proof.
  intros Hsz Hs Hl. pose proof (segment_sizes _ _ Hs). pose proof (head_gap_nonneg _ _ Hl) as Hg.
  unfold slack. destruct l as [|s' l].
  - unfold free_space, len in *. cbn in *. lia.
  - rewrite free_space_cons in *. change (total_readable (s :: s' :: l)) with (readable_size s + total_readable (s' :: l)).
    change (head_gap size (s :: s' :: l)) with (size - readable_size s - writable_size s). lia.
Qed.

Lemma advance_read_sizes size s n s' :
  segment_ok size s -> 0 <= n -> advance_read s n = Ret s' ->
  readable_size s' = readable_size s - n /\ writable_size s' = writable_size s.
Proof.
  intros [_ (ro & wo & ? & ? & Er & Ew)] Hn. unfold advance_read, readable_size, writable_size in *.
  rewrite Er. cbn. destruct (Z.gtb_spec n (wo - ro)); [done|]. by intros [= <-].
Qed.

Lemma consume_space {R} `{MemoryResource R} size segments n (r : R) m b a segments' r' m' b' a' :
  0 < size -> Forall (segment_ok size) segments ->
  consume_segments size segments n r m b a = Ret (segments', r', m', b', a') ->
  free_space size segments <= free_space size segments' /\ slack size segments <= slack size segments' /\
  len segments' <= len segments /\ (len segments' = len segments -> free_space size segments' = free_space size segments).
Proof.
  intros Hsz Hok. revert n r m b a. induction Hok as [|s l Hs Hl IH]; intros n r m b a E; cbn [consume_segments] in E;
    destruct (Z.gtb_spec n 0) as [Hn|]; cbn [negb] in E; try done; try (injection E as <- _ _ _ _; lia).
  destruct (Z.ltb_spec n (readable_size s)).
  - destruct (advance_read s n) as [s1| |] eqn:Ea; cbn [mbind outcome_bind] in E; try done. injection E as <- _ _ _ _.
    destruct (advance_read_sizes size s n s1 Hs ltac:(lia) Ea) as [Er Ew].
    unfold slack. rewrite !len_cons. assert (free_space size (s1 :: l) = free_space size (s :: l)) as ->.
    { unfold free_space. destruct l; [|done]. cbn. by rewrite Ew. }
    cbn. lia.
  - destruct (destroy_segment r m s) as [[r1 m1]| |]; cbn [mbind outcome_bind] in E; try done.
    destruct (IH _ _ _ _ _ E) as (? & ? & Hlen & _). destruct (drop_segment_space size s l Hsz Hs Hl).
    rewrite len_cons. split_and!; lia.
Qed.

Section pipeline.
Context {R : Type} `{ResourceLaws R}.
Implicit Types p : pipeline R.

(** The most a pipeline can hold. *)
Definition total_room p : Z := m_buffer_size p * (m_pause_writer_threshold p / m_buffer_size p).

Lemma room_free p : 0 < m_buffer_size p -> room p = free_space (m_buffer_size p) (m_segments p) + total_room p.
Proof.
  intros Hsz. unfold room, tail_room, free_space, total_room.
  replace (m_pause_writer_threshold p - m_buffer_size p * len (m_segments p))
    with (m_pause_writer_threshold p + (- len (m_segments p)) * m_buffer_size p) by lia.
  rewrite Z.div_add by lia. lia.
Qed.

(** Nothing is wasted but the consumed part of the first segment. *)
Definition no_waste p : Prop := 0 <= slack (m_buffer_size p) (m_segments p).

Lemma no_waste_empty p : m_segments p = [] -> no_waste p.
Proof. intros E. unfold no_waste, slack, free_space, len. rewrite E. cbn. lia. Qed.

Lemma write_no_waste p m l p' m' l' k :
  pipeline_ok p m -> write_progress p m l p' m' l' k -> no_waste p -> no_waste p'.
Proof.
  intros Hok W Hw. pose proof (so_size _ _ _ (po_segments _ _ Hok)) as Hsz. pose proof (wp_frame _ _ _ _ _ _ _ W) as Hfr.
  pose proof (wp_room _ _ _ _ _ _ _ W) as Hr. pose proof (wp_count _ _ _ _ _ _ _ W) as Hk.
  pose proof (content_len p m Hok) as El. pose proof (content_len p' m' (wp_ok _ _ _ _ _ _ _ W)) as El'.
  rewrite (wp_content _ _ _ _ _ _ _ W), len_app in El'.
  assert (len (take (Z.to_nat k) (w_data l)) = k) by (unfold len in *; rewrite length_take; lia).
  unfold no_waste, slack in *. rewrite (sf_size _ _ Hfr), (wp_gap _ _ _ _ _ _ _ W).
  rewrite !room_free in Hr by (rewrite ?(sf_size _ _ Hfr); lia). unfold total_room in Hr.
  rewrite (sf_size _ _ Hfr), (sf_pause _ _ Hfr) in Hr. lia.
Qed.

Lemma advance_space p m consumed examined p' m' notify :
  pipeline_ok p m -> advance p m consumed examined = Ret (p', m', notify) ->
  room p <= room p' /\ (no_waste p -> no_waste p') /\
  (len (m_segments p') = len (m_segments p) -> room p' = room p).
Proof.
  intros Hok E. pose proof (po_segments _ _ Hok) as [Hsz Hs _]. unfold advance in E. repeat (case_match; [done|]).
  destruct (consume_segments _ _ _ _ _ _ _) as [[[[[segs r] m1] b] a]| |] eqn:Ec; cbn [mbind outcome_bind] in E; try done.
  destruct (consume_space _ _ _ _ _ _ _ _ _ _ _ _ (proj1 Hsz) Hs Ec) as (Hf & Hsl & _ & He).
  remember (set_examined_size _ _) as q eqn:Eq. injection E as E _ _.
  assert (m_segments p' = segs /\ m_buffer_size p' = m_buffer_size p /\
    m_pause_writer_threshold p' = m_pause_writer_threshold p) as (E1 & E2 & E3).
  { subst p'. by destruct (m_writer_paused q && should_resume_writer q); subst q. }
  unfold no_waste. rewrite !room_free by (rewrite ?E2; lia). unfold total_room. rewrite E1, E2, E3.
  split_and!; [lia..|]. intros El%He. lia.
Qed.

Lemma total_room_positive p :
  0 < m_buffer_size p -> m_buffer_size p <= m_pause_writer_threshold p -> m_buffer_size p <= total_room p.
Proof.
  intros Hsz Hb. unfold total_room. assert (0 < m_pause_writer_threshold p / m_buffer_size p) by (apply Z.div_str_pos; lia). nia.
Qed.

(** A pipeline without room is nearly full. *)
Lemma no_room_content p m :
  pipeline_ok p m -> no_waste p -> room p = 0 -> m_buffer_size p <= m_pause_writer_threshold p ->
  total_room p - m_buffer_size p < len (content p m).
Proof.
  intros Hok Hw Hr Hb. pose proof (po_segments _ _ Hok) as [Hsz Hs _]. rewrite (content_len _ _ Hok).
  rewrite room_free in Hr by lia. unfold no_waste, slack in Hw.
  pose proof (total_room_positive p ltac:(lia) Hb).
  pose proof (po_readable _ _ Hok) as Hread. unfold head_gap in Hw. destruct (m_segments p) as [|s l].
  - unfold free_space, len in Hr. simpl in Hr. lia.
  - apply Forall_cons in Hread as [Hp _]. apply Forall_cons in Hs as [Hss _]. pose proof (segment_sizes _ _ Hss). lia.
Qed.
End pipeline.
