(* ===== verification/PipelineTheorems.v ===== *)
(** What [xtd::pipeline] promises, section by section, for any memory
    resource that satisfies the contract of Resource.v; and where the code
    departs from what its comments and documentation say. *)

From S2P Require Import Prelude Memory Position ByteView Resource Pools Segment Pipeline PipelineProofs.

Section theorems.
Context {R : Type} `{ResourceLaws R}.
Implicit Types p : pipeline R.

(** ** Writing *)

(** C3: an uninterrupted [write] copies exactly [min(length, room)] bytes,
    in order, behind what is buffered, and ends: it returns the length when
    everything fits and otherwise parks, with the writer paused, holding the
    rest.  [room] is the free part of the last segment and the segments the
    pause threshold still allows. *)
Theorem write_exact n p m data
    (Hok : pipeline_ok p m) (Hopen : is_any_completed p = false) (Hpaused : m_writer_paused p = false)
    (Hlen : len data < size_modulus) (Hn : (2 <= n)%nat) :
  let k := Z.min (len data) (room p) in
  exists p' m',
    write_rounds n p m data 0 no_stop =
      Ret (p', m', if k =? len data then WriteDone (len data)
                   else WriteParked (WriteLocals (drop (Z.to_nat k) data) k no_stop false)) /\
    pipeline_ok p' m' /\ content p' m' = content p m ++ take (Z.to_nat k) data /\
    room p' = room p - k /\ (k < len data -> m_writer_paused p' = true /\ room p' = 0).
Proof.
  intros k. destruct (write_exact_ok p m data Hok Hopen Hpaused Hlen)
    as (p' & m' & E & Hok' & _ & Hc & Hr & _ & Hf & Hp).
  exists p', m'. split_and!; try done; [|auto].
  apply (write_rounds_more 2); [done..|]. intros d c t. by destruct (_ =? _).
Qed.

(** Every round of [write], under any cancellation, either throws because
    an end is completed, parks without effect, or appends a prefix of the
    data, counts it, keeps everything already readable in place, and asks for
    a notification exactly when a reader waits and bytes were added. *)
Theorem write_round_correct p m data copied t (Hok : pipeline_ok p m) (Hc : is_size copied) :
  if is_any_completed p then write_round p m data copied t = throw logic_error "pipeline is completed"
  else exists p' m' step,
    write_round p m data copied t = Ret (p', m', step) /\ pipeline_ok p' m' /\ same_frame p p' /\
    write_step_ok p m (WriteLocals data copied t false) p' m' step.
Proof.
  unfold write_round. destruct (is_any_completed p) eqn:Ho; [done|].
  by apply (write_wait_ok p m (WriteLocals data copied t false)).
Qed.

(** ** Reading *)

(** C5: [read_at_least] throws while a read is pending or after the reader
    completed (the code's [std::logic_error]; pipeline.md says
    [std::runtime_error]); otherwise it parks (only while the data it asked
    for is not there), reports the cancellation, or returns a snapshot whose
    view is valid and holds exactly the buffered bytes. *)
Theorem read_at_least_correct p m min_size t (Hok : pipeline_ok p m) :
  if m_has_pending_read p then
    read_at_least p min_size t = throw logic_error "advance(consumed, examined) must be called before the next read"
  else if m_reader_completed p then read_at_least p min_size t = throw logic_error "pipeline reader is completed"
  else exists p' step, read_at_least p min_size t = Ret (p', step) /\ pipeline_ok p' m /\
    content p' m = content p m /\ m_writer_paused p' = m_writer_paused p /\
    match step with
    | ReadSleeps _ => p' = set_reader_waiting true p /\ data_available p min_size = false
    | ReadReturns r =>
        if rr_cancelled r then t ≠ no_stop /\ m_has_pending_read p' = false /\ view_bytes m (rr_buffer r) = []
        else data_available p min_size = true /\ m_has_pending_read p' = true /\
          m_pending_read_size p' = len (content p m) /\ rr_completed r = m_writer_completed p /\
          view_ok m (rr_buffer r) /\ view_bytes m (rr_buffer r) = content p m
    end.
Proof.
  destruct (m_has_pending_read p) eqn:Eh; unfold read_at_least; rewrite Eh; [done|].
  destruct (m_reader_completed p) eqn:Er; [done|]. destruct (m_writer_completed p) eqn:Ew.
  - destruct (read_finish_ok p m t Hok) as (p' & r & -> & Hr). eexists _, _. split; [done|].
    destruct (stop_requested t).1 eqn:Et.
    + destruct Hr as [-> ->]. split_and!; try done. cbn. split_and!; [|done|done]. by intros ->.
    + pose proof (snapshot_pipeline_ok _ _ _ _ Hok Hr). destruct Hr as [-> Hc Hn ? ? ? ?].
      split_and!; try done. rewrite Hn. unfold data_available. rewrite Ew.
      split_and!; (done || congruence).
  - pose proof (waiting_ok p m true Hok) as Hok1.
    destruct (read_wait_ok _ m min_size t Hok1) as (p' & step & E & Hok' & Hs). rewrite E.
    eexists _, _. split; [done|]. split; [done|]. destruct step as [t'|r]; cbn [read_step_ok] in Hs.
    { by destruct Hs as [-> Hs]. }
    destruct (rr_cancelled r) eqn:Ec.
    + destruct Hs as [-> ->]. split_and!; try done. intros ->. unfold read_wait in E.
      by destruct (data_available _ _); simplify_eq/=.
    + destruct Hs as [Hd [-> Hcm _ ? ? ? ?]]. split_and!; try done. by rewrite Hcm.
Qed.

(** C4: [advance] rejects each misuse with the code's exception, in the code's
    order (a call after the reader completed or without a pending read with
    [std::logic_error], an examined offset past the snapshot with
    [std::out_of_range]; pipeline.md says [std::runtime_error] and
    [std::invalid_argument]), and otherwise removes exactly the consumed
    bytes, releases the segments they emptied (all of them when everything is
    consumed), remembers the examined ones, ends the read, and lets a paused
    writer resume under [should_resume_writer], notifying it then and only
    then. *)
Theorem advance_correct p m consumed examined (Hok : pipeline_ok p m) (Hpos : 0 <= sequence_offset consumed) :
  let c := sequence_offset consumed in
  let e := sequence_offset examined in
  if c >? e then advance p m consumed examined = throw invalid_argument "consumed must be <= examined"
  else if m_reader_completed p then advance p m consumed examined = throw logic_error "pipeline reader is completed"
  else if negb (m_has_pending_read p) then
    advance p m consumed examined = throw logic_error "advance called without a pending read"
  else if e >? m_pending_read_size p then
    advance p m consumed examined = throw out_of_range "examined exceeds the most recent read buffer length"
  else exists p' m',
    advance p m consumed examined = Ret (p', m', m_writer_paused p && negb (m_writer_paused p')) /\
    pipeline_ok p' m' /\ content p' m' = drop (Z.to_nat c) (content p m) /\
    m_examined_size p' = e - c /\ m_has_pending_read p' = false /\
    m_writer_paused p' = m_writer_paused p && negb (should_resume_writer p') /\
    len (m_segments p') <= len (m_segments p) /\ (c = len (content p m) -> m_segments p' = []).
Proof.
  intros c e. unfold c, e in *. destruct (Z.gtb_spec (sequence_offset consumed) (sequence_offset examined)) as [|Hce].
  { unfold advance. destruct (Z.gtb_spec (sequence_offset consumed) (sequence_offset examined)); [done|lia]. }
  assert ((sequence_offset consumed >? sequence_offset examined) = false) as Ece by lia.
  destruct (m_reader_completed p) eqn:Er; [unfold advance; rewrite Ece, Er; by eexists|].
  destruct (m_has_pending_read p) eqn:Eh; cbn [negb]; [|unfold advance; rewrite Ece, Er, Eh; done].
  destruct (Z.gtb_spec (sequence_offset examined) (m_pending_read_size p)) as [Hgt|Hle].
  { unfold advance. rewrite Ece, Er, Eh. cbn [negb].
    destruct (Z.gtb_spec (sequence_offset examined) (m_pending_read_size p)); [done|lia]. }
  destruct (advance_ok p m consumed examined) as (p' & m' & E & Hok' & _ & Hc & _ & Hx & _ & Hh & Hp & Hs);
    [done..|]. exists p', m'. split_and!; try done.
  intros E'. apply (no_readable_no_segments p' m'); [done|]. rewrite Hc. apply drop_ge.
  unfold len in *. lia.
Qed.

(** An empty pipeline is a queue: what one [write] puts in, the next read
    shows, and advancing to the end of the view empties the pipeline and
    releases every segment. *)
Theorem write_read_advance p m data
    (Hok : pipeline_ok p m) (Hopen : is_any_completed p = false) (Hpaused : m_writer_paused p = false)
    (Hpend : m_has_pending_read p = false) (Hempty : content p m = []) (Hdata : data ≠ [])
    (Hfit : len data <= room p) (Hlen : len data < size_modulus) :
  exists p1 m1 p2 r p3 m3 notify,
    write_rounds 2 p m data 0 no_stop = Ret (p1, m1, WriteDone (len data)) /\
    reader_read p1 no_stop = Ret (p2, ReadReturns r) /\
    view_bytes m1 (rr_buffer r) = data /\ rr_completed r = false /\
    reader_advance_to p2 m1 (view_end (rr_buffer r)) = Ret (p3, m3, notify) /\
    pipeline_ok p3 m3 /\ m_segments p3 = [] /\ m_examined_size p3 = 0.
Proof.
  destruct (write_exact_ok p m data Hok Hopen Hpaused Hlen)
    as (p1 & m1 & E1 & Hok1 & Hfr & Hc & _ & _ & _ & _).
  rewrite Z.min_l, Z.eqb_refl in * by done. rewrite Hempty in Hc. simpl in Hc.
  rewrite take_ge in Hc by (unfold len; lia).
  unfold is_any_completed in Hopen. apply orb_false_iff in Hopen as [Hw Hr].
  pose proof (sf_writer _ _ Hfr) as Ew. pose proof (sf_reader _ _ Hfr) as Er.
  rewrite Hw in Ew. rewrite Hr in Er.
  destruct (po_open _ _ Hok Hr) as (Eb & _ & Hx & _). destruct (po_open _ _ Hok1 Er) as (Eb1 & _ & _ & _).
  rewrite <- (content_len p m Hok), Hempty in Eb. rewrite <- (content_len p1 m1 Hok1), Hc in Eb1.
  assert (0 < len data) by (pose proof (len_nonneg data); assert (len data ≠ 0) by (by rewrite len_nil_iff); lia).
  assert (data_available (set_reader_waiting true p1) 0 = true) as Hd.
  { unfold data_available. simpl. rewrite Eb1, (sf_examined _ _ Hfr). change (len []) with 0 in Eb.
    rewrite Ew. destruct (Z.gtb_spec (len data) (m_examined_size p)); [done|lia]. }
  destruct (read_finish_ok (set_reader_waiting false (set_reader_waiting true p1)) m1 no_stop)
    as (p2 & r & E2 & Hsn); [by do 2 apply waiting_ok|]. simpl in Hsn.
  pose proof (snapshot_pipeline_ok _ m1 _ _ (waiting_ok _ _ false (waiting_ok _ _ true Hok1)) Hsn) as Hok2.
  pose proof (sn_state _ _ _ _ Hsn) as Es.
  assert (sequence_offset (view_end (rr_buffer r)) = len data) as Eend.
  { unfold view_end, sequence_offset, position_at. simpl. rewrite (end_offset_ok m1) by apply Hsn.
    rewrite (sn_begin _ _ _ _ Hsn), <- (view_bytes_len m1) by apply Hsn. rewrite (sn_bytes _ _ _ _ Hsn).
    exact (f_equal len Hc). }
  assert (content p2 m1 = data) as Hc2 by (by rewrite Es).
  destruct (advance_ok p2 m1 (view_end (rr_buffer r)) (view_end (rr_buffer r)))
    as (p3 & m3 & E3 & Hok3 & _ & Hc3 & _ & Hx3 & _).
  { done. } { by rewrite Es. } { by rewrite Es. } { rewrite Eend. lia. }
  { rewrite Es, Eend. simpl. change (len data <= len (content p1 m1)). rewrite Hc. lia. }
  exists p1, m1, p2, r, p3, m3, (m_writer_paused p2 && negb (m_writer_paused p3)).
  split_and!; try done.
  - unfold reader_read, read_at_least. rewrite (sf_has_pending _ _ Hfr), Hpend, Er, Ew.
    unfold read_wait. rewrite Hd, cv_return_no_stop. by rewrite E2.
  - by rewrite (sn_bytes _ _ _ _ Hsn).
  - by rewrite (sn_completed _ _ _ _ Hsn).
  - apply (no_readable_no_segments p3 m3); [done|]. rewrite Hc3, Eend, Hc2. apply drop_ge. unfold len. lia.
  - lia.
Qed.

(** ** Bounds *)

(** A read asking for more than the pause threshold can only be answered
    by the completion of the writer. *)
Theorem oversized_read_waits_for_completion p m min_size
    (Hok : pipeline_ok p m) (Hopen : m_reader_completed p = false)
    (Hmin : m_pause_writer_threshold p < min_size) :
  data_available p min_size = m_writer_completed p.
Proof.
  unfold data_available. destruct (po_open _ _ Hok Hopen) as (Eb & _).
  pose proof (buffered_bound p m Hok). destruct (po_pause _ _ Hok).
  destruct (Z.eqb_spec min_size 0); [lia|]. destruct (Z.geb_spec (m_buffered_size p) min_size); [lia|].
  cbn [orb]. by rewrite andb_false_r, orb_false_r.
Qed.

(** ** Where the code departs from its documentation *)

(** [should_resume_writer] compares the size of one segment with the
    resume threshold, not what is buffered: with a resume threshold below
    [buffer_size] (which [validate_options] accepts) no [advance] resumes a
    paused writer, however much it consumes. *)
Theorem low_resume_threshold_never_resumes p m consumed examined p' m' notify
    (Hlow : m_resume_writer_threshold p < m_buffer_size p)
    (Hrun : advance p m consumed examined = Ret (p', m', notify)) :
  m_writer_paused p' = m_writer_paused p /\ notify = false.
Proof.
  unfold advance in Hrun. repeat (case_match; [done|]).
  destruct (consume_segments _ _ _ _ _ _ _) as [[[[[segs r] m1] bs] ac]| |]; [|done..].
  cbn [mbind outcome_bind] in Hrun. unfold should_resume_writer in Hrun. simpl in Hrun.
  destruct (Z.leb_spec (m_buffer_size p) (m_resume_writer_threshold p)); [lia|].
  cbn [andb] in Hrun. rewrite andb_false_r in Hrun. simplify_eq/=.
  split; [done|]. by destruct (m_writer_paused p).
Qed.

(** A stop request while the writer is paused does not end [write]: the
    wait returns at once, nothing is copied, and the loop starts over, for
    ever, until some other thread changes the pipeline. *)
Theorem cancelled_paused_write_spins n p m data copied
    (Hopen : is_any_completed p = false) (Hpaused : m_writer_paused p = true) (Hdata : data ≠ []) :
  write_rounds n p m data copied stopped = Ret (p, m, WriteRunning data copied stopped).
Proof.
  assert ((len data =? 0) = false) as E.
  { apply Z.eqb_neq. by rewrite len_nil_iff. }
  revert copied. induction n as [|n IH]; intros copied; cbn [write_rounds]; rewrite E; [done|].
  unfold write_round, write_wait. rewrite Hopen. unfold space_available. rewrite Hpaused. simpl.
  rewrite E, Hpaused. simpl. apply IH.
Qed.

(** Completing the reader does not end a read that is already waiting:
    the predicate it waits for ignores [m_reader_completed], so the read goes
    back to sleep. *)
Theorem complete_reader_leaves_reader_waiting p min_size t
    (Hwriter : m_writer_completed p = false) (Hstop : stop_pending t = false) :
  exists t', read_wait (complete_reader p) min_size t = (complete_reader p, ReadSleeps t').
Proof.
  unfold read_wait, data_available. simpl. rewrite Hwriter. simpl.
  destruct t as [[|n]|]; [done|by eexists..].
Qed.
End theorems.

(** ** Configuration *)
Section configuration.
Context {U : Type} `{ResourceLaws U} (make_unsynchronized : Z -> Z -> memory -> outcome (U * memory)).

Definition options_validb (options : pipe_options) : bool :=
  (0 <? buffer_size options) && (0 <? pause_writer_threshold options)
  && (resume_writer_threshold options <=? pause_writer_threshold options).

Lemma options_validb_spec options : options_validb options = true <-> options_valid options.
Proof. unfold options_validb, options_valid. rewrite !andb_true_iff, !Z.ltb_lt, Z.leb_le. tauto. Qed.

(** C36: the constructor accepts exactly the options [validate_options] means
    to accept and throws [invalid_argument] on the others; what it builds
    satisfies the invariant, is empty and open, and has room for the largest
    multiple of [buffer_size] within the pause threshold. *)
Theorem construct_correct experimental options
    (Hstd : unsynchronized_pool_contract make_unsynchronized)
    (Hsized : options_sized options) (Hfit : arena_fits experimental options) :
  if options_validb options then
    exists p m, construct make_unsynchronized experimental options empty_memory = Ret (p, m) /\
      pipeline_ok p m /\ content p m = [] /\ is_any_completed p = false /\ m_writer_paused p = false /\
      room p = buffer_size options * (pause_writer_threshold options / buffer_size options)
  else exists what,
    construct make_unsynchronized experimental options empty_memory = throw invalid_argument what.
Proof.
  destruct (options_validb options) eqn:Ev.
  - apply options_validb_spec in Ev.
    destruct (construct_ok make_unsynchronized experimental options (fun _ => Hstd) Hsized Ev Hfit)
      as (p & m & E & Hok & Hc & Hs & Hp & _ & Hb & Hw & Hr & Hpa & _).
    exists p, m. split_and!; try done; [unfold is_any_completed; by rewrite Hw, Hr|].
    unfold room, tail_room. rewrite Hs, Hp, Hb. simpl. unfold len. simpl. by rewrite Z.mul_0_r, Z.sub_0_r.
  - unfold construct, validate_options. destruct Hsized as (Hb & Hp & Hr).
    unfold options_validb, is_size in *. repeat (case_match; [by eexists|]). exfalso.
    apply not_true_iff_false in Ev. apply Ev. lia.
Qed.

(** [validate_options] accepts a [buffer_size] above the pause threshold,
    and no pipeline built from such options ever takes a byte: every write
    parks with the writer paused and nothing buffered. *)
Theorem oversized_segment_blocks_every_write experimental options data
    (Hstd : unsynchronized_pool_contract make_unsynchronized)
    (Hsized : options_sized options) (Hfit : arena_fits experimental options)
    (Hvalid : options_validb options = true) (Hbig : pause_writer_threshold options < buffer_size options)
    (Hdata : data ≠ []) (Hlen : len data < size_modulus) :
  exists p m p' m', construct make_unsynchronized experimental options empty_memory = Ret (p, m) /\
    write_rounds 2 p m data 0 no_stop = Ret (p', m', WriteParked (WriteLocals data 0 no_stop false)) /\
    m_writer_paused p' = true /\ content p' m' = [].
Proof.
  apply options_validb_spec in Hvalid.
  destruct (construct_ok make_unsynchronized experimental options (fun _ => Hstd) Hsized Hvalid Hfit)
    as (p & m & E & Hok & Hc & Hs & Hp & _ & Hb & Hw & Hr & Hpa & _).
  assert (room p = 0) as Hroom.
  { unfold room, tail_room. rewrite Hs, Hp, Hb. simpl. unfold len. simpl. destruct Hvalid as (? & ? & _).
    rewrite Z.mul_0_r, Z.sub_0_r, Z.div_small by lia. lia. }
  destruct (write_exact_ok p m data Hok) as (p' & m' & Ew & _ & _ & Hc' & _ & _ & _ & Hpause);
    [by unfold is_any_completed; rewrite Hw, Hr|done..|].
  assert (0 < len data) by (pose proof (len_nonneg data); assert (len data ≠ 0) by (by rewrite len_nil_iff); lia).
  rewrite Hroom, Z.min_r in * by lia. rewrite Hc in Hc'.
  exists p, m, p', m'. split_and!; try done; [|by apply Hpause].
  rewrite Ew. by destruct (Z.eqb_spec 0 (len data)); [lia|].
Qed.
End configuration.

(** ** Instances of the theorems *)
Section instances.

Definition demo_written : pipeline Fixed.fixed_pool_resource * memory :=
  Eval vm_compute in match write_rounds 2 demo empty_memory demo_data 0 no_stop with
  | Ret (p, m, _) => (p, m)
  | _ => (demo, empty_memory)
  end.

Lemma demo_written_ok : pipeline_ok demo_written.1 demo_written.2.
Proof.
  destruct (write_exact_ok demo empty_memory demo_data demo_ok) as (p & m & E & Hok & _); [done..|].
  vm_compute in E. injection E as <- <-. exact Hok.
Qed.

Definition demo_reading : pipeline Fixed.fixed_pool_resource * memory :=
  Eval vm_compute in ((read_finish demo_written.1 no_stop).1, demo_written.2).

Lemma demo_reading_ok : pipeline_ok demo_reading.1 demo_reading.2.
Proof.
  destruct (read_finish_ok demo_written.1 demo_written.2 no_stop demo_written_ok) as (p & r & E & Hr).
  vm_compute in E. injection E as <- <-. exact (snapshot_pipeline_ok _ _ _ _ demo_written_ok Hr).
Qed.

Lemma write_exact_witness :
  let k := Z.min (len demo_data) (room demo) in
  exists p' m',
    write_rounds 2 demo empty_memory demo_data 0 no_stop =
      Ret (p', m', if k =? len demo_data then WriteDone (len demo_data)
                   else WriteParked (WriteLocals (drop (Z.to_nat k) demo_data) k no_stop false)) /\
    pipeline_ok p' m' /\ content p' m' = content demo empty_memory ++ take (Z.to_nat k) demo_data /\
    room p' = room demo - k /\ (k < len demo_data -> m_writer_paused p' = true /\ room p' = 0).
Proof. apply (write_exact 2 demo empty_memory demo_data demo_ok); (reflexivity || lia). Defined.

Lemma write_round_correct_witness :
  if is_any_completed demo then
    write_round demo empty_memory demo_data 0 (Some 2%nat) = throw logic_error "pipeline is completed"
  else exists p' m' step,
    write_round demo empty_memory demo_data 0 (Some 2%nat) = Ret (p', m', step) /\ pipeline_ok p' m' /\
    same_frame demo p' /\
    write_step_ok demo empty_memory (WriteLocals demo_data 0 (Some 2%nat) false) p' m' step.
Proof. apply (write_round_correct demo empty_memory demo_data 0 (Some 2%nat) demo_ok). by split. Defined.

Lemma read_at_least_correct_witness :
  exists p' step, read_at_least demo_written.1 5 no_stop = Ret (p', step) /\ pipeline_ok p' demo_written.2 /\
    content p' demo_written.2 = content demo_written.1 demo_written.2 /\
    m_writer_paused p' = m_writer_paused demo_written.1 /\
    match step with
    | ReadSleeps _ => p' = set_reader_waiting true demo_written.1 /\ data_available demo_written.1 5 = false
    | ReadReturns r =>
        if rr_cancelled r then
          no_stop ≠ no_stop /\ m_has_pending_read p' = false /\ view_bytes demo_written.2 (rr_buffer r) = []
        else data_available demo_written.1 5 = true /\ m_has_pending_read p' = true /\
          m_pending_read_size p' = len (content demo_written.1 demo_written.2) /\
          rr_completed r = m_writer_completed demo_written.1 /\
          view_ok demo_written.2 (rr_buffer r) /\
          view_bytes demo_written.2 (rr_buffer r) = content demo_written.1 demo_written.2
    end.
Proof. exact (read_at_least_correct demo_written.1 demo_written.2 5 no_stop demo_written_ok). Defined.

Lemma advance_correct_witness :
  exists p' m',
    advance demo_reading.1 demo_reading.2 (position_at 5) (position_at 6) =
      Ret (p', m', m_writer_paused demo_reading.1 && negb (m_writer_paused p')) /\
    pipeline_ok p' m' /\ content p' m' = drop 5 (content demo_reading.1 demo_reading.2) /\
    m_examined_size p' = 6 - 5 /\ m_has_pending_read p' = false /\
    m_writer_paused p' = m_writer_paused demo_reading.1 && negb (should_resume_writer p') /\
    len (m_segments p') <= len (m_segments demo_reading.1) /\
    (5 = len (content demo_reading.1 demo_reading.2) -> m_segments p' = []).
Proof.
  apply (advance_correct demo_reading.1 demo_reading.2 (position_at 5) (position_at 6) demo_reading_ok).
  discriminate.
Defined.

Lemma write_read_advance_witness :
  exists p1 m1 p2 r p3 m3 notify,
    write_rounds 2 demo empty_memory demo_data 0 no_stop = Ret (p1, m1, WriteDone (len demo_data)) /\
    reader_read p1 no_stop = Ret (p2, ReadReturns r) /\
    view_bytes m1 (rr_buffer r) = demo_data /\ rr_completed r = false /\
    reader_advance_to p2 m1 (view_end (rr_buffer r)) = Ret (p3, m3, notify) /\
    pipeline_ok p3 m3 /\ m_segments p3 = [] /\ m_examined_size p3 = 0.
Proof.
  apply (write_read_advance demo empty_memory demo_data demo_ok); (reflexivity || discriminate).
Defined.

Lemma oversized_read_waits_for_completion_witness :
  data_available demo_written.1 17 = m_writer_completed demo_written.1.
Proof.
  by apply (oversized_read_waits_for_completion demo_written.1 demo_written.2 17 demo_written_ok).
Defined.

(** The standard library's pool, played by a fixed pool. *)
Definition fixed_as_unsynchronized (size max : Z) (m : memory)
    : outcome (Fixed.fixed_pool_resource * memory) :=
  r ← Fixed.make size max; Ret (r, m).

Lemma fixed_as_unsynchronized_ok : unsynchronized_pool_contract fixed_as_unsynchronized.
Proof.
  intros size max Hs Hx. destruct (Fixed.fixed_make_inv size max Hs Hx) as (r & E & Hr).
  unfold fixed_as_unsynchronized. rewrite E. by eexists _, _.
Qed.

Lemma construct_correct_witness :
  exists p m, construct fixed_as_unsynchronized false default_options empty_memory = Ret (p, m) /\
    pipeline_ok p m /\ content p m = [] /\ is_any_completed p = false /\ m_writer_paused p = false /\
    room p = 4096 * (131072 / 4096).
Proof.
  apply (construct_correct fixed_as_unsynchronized false default_options fixed_as_unsynchronized_ok).
  - done.
  - intros E _. discriminate E.
Defined.

Lemma oversized_segment_blocks_every_write_witness :
  exists p m p' m',
    construct fixed_as_unsynchronized false (PipeOptions 4096 512 1024 kind_fixed_pool_resource) empty_memory
      = Ret (p, m) /\
    write_rounds 2 p m demo_data 0 no_stop = Ret (p', m', WriteParked (WriteLocals demo_data 0 no_stop false)) /\
    m_writer_paused p' = true /\ content p' m' = [].
Proof.
  apply (oversized_segment_blocks_every_write fixed_as_unsynchronized false
    (PipeOptions 4096 512 1024 kind_fixed_pool_resource) demo_data fixed_as_unsynchronized_ok);
    try (done || discriminate).
Defined.

(** Segments of 4 bytes with a resume threshold of 2 and a pause threshold
    of 4: the writer pauses itself after 4 bytes, which the reader then
    reads. *)
Definition stuck : pipeline Fixed.fixed_pool_resource * memory :=
  Eval vm_compute in match write_rounds 2 (make_pipeline (ValidatedOptions 4 4 2 1 kind_fixed_pool_resource) (Fixed.Pool [] 4 1))
    empty_memory (text "abcd") 0 no_stop with
  | Ret (p, m, _) => ((read_finish p no_stop).1, m)
  | _ => (demo, empty_memory)
  end.

Definition stuck_consumed : pipeline Fixed.fixed_pool_resource * memory * bool :=
  Eval vm_compute in match advance stuck.1 stuck.2 (position_at 4) (position_at 4) with
  | Ret x => x
  | _ => (demo, empty_memory, true)
  end.

(** Everything is consumed and no segment is left, yet the writer stays
    paused. *)
Lemma low_resume_threshold_never_resumes_witness :
  (m_segments stuck_consumed.1.1 = [] /\ m_writer_paused stuck.1 = true) /\
  m_writer_paused stuck_consumed.1.1 = m_writer_paused stuck.1 /\ stuck_consumed.2 = false.
Proof.
  split; [by vm_compute|].
  apply (low_resume_threshold_never_resumes stuck.1 stuck.2 (position_at 4) (position_at 4)
    stuck_consumed.1.1 stuck_consumed.1.2 stuck_consumed.2); vm_compute; reflexivity.
Defined.

Lemma cancelled_paused_write_spins_witness :
  write_rounds 1000 stuck.1 stuck.2 (text "e") 0 stopped = Ret (stuck.1, stuck.2, WriteRunning (text "e") 0 stopped).
Proof. apply (cancelled_paused_write_spins 1000 stuck.1 stuck.2 (text "e") 0); vm_compute; (reflexivity || discriminate). Defined.

Lemma complete_reader_leaves_reader_waiting_witness :
  exists t', read_wait (complete_reader demo) 0 no_stop = (complete_reader demo, ReadSleeps t').
Proof. by apply (complete_reader_leaves_reader_waiting demo 0 no_stop). Defined.
End instances.
