(* ===== verification/PipelineSystem.v ===== *)
(** The pipeline shared by one writer thread and one reader thread: a step
    relation whose steps are the critical sections of Pipeline.v and the
    notifications that follow their unlocks, in every interleaving.

    [s_written] collects the bytes [write] reports as copied, [s_consumed]
    the bytes of the snapshots the reader consumed; they are ghost state. *)

From S2P Require Import Prelude Memory Position ByteView Resource Pools Segment Pipeline PipelineProofs PipelineSpace.

Inductive writer_state :=
  | WIdle
  | WReady (data : bytes) (copied : Z) (t : stop_token) (* before the lock of a round *)
  | WParked (locals : write_locals) (woken : bool)      (* inside m_space_available.wait *)
  | WNotifying (locals : write_locals)                  (* after the unlock of a round *)
  | WCompleting.                                        (* complete_writer, before notify_all *)

Inductive reader_state :=
  | RIdle
  | RParked (min_size : Z) (t : stop_token) (woken : bool) (* inside m_data_available.wait *)
  | RHolding (result : read_result)                        (* between read and advance *)
  | RNotifying (notify : bool)                             (* advance, after the unlock *)
  | RCompleting.                                           (* complete_reader, before notify_all *)

(** One case for each step, in the order of [step], with the names the proofs
    share. *)
Ltac pipe_step_cases Hstep :=
  destruct Hstep as
    [p m r wr co data t Ha Hd|p m r wr co data copied t p' m' st Hrun|p m r wr co data copied t e Hrun
    |p m r wr co l woken p' m' st Hrun|p m r wr co l woken e Hrun|p m r wr co l|p m r wr co|p m r wr co
    |p m w wr co min_size t p' st Ha Hrun|p m w wr co min_size t woken p' st Hrun
    |p m w wr co r consumed examined p' m' notify Hc He Hrun|p m w wr co notify|p m w wr co r Hr|p m w wr co].

Section system.
Context {R : Type} `{ResourceLaws R}.

Record system := System {
  s_pipeline : pipeline R;
  s_memory : memory;
  s_writer : writer_state;
  s_reader : reader_state;
  s_written : bytes;
  s_consumed : bytes
}.

Definition wake_reader (r : reader_state) : reader_state :=
  match r with RParked min_size t _ => RParked min_size t true | _ => r end.
Definition wake_writer (w : writer_state) : writer_state :=
  match w with WParked l _ => WParked l true | _ => w end.

Definition writer_after (step : write_step) : writer_state :=
  match step with
  | WriteSleeps l => WParked l false
  | WriteReturns _ => WIdle
  | WriteUnlocks l => WNotifying l
  end.

(** The bytes a section reports as copied: it entered with the locals [l]. *)
Definition reported (l : write_locals) (step : write_step) : bytes :=
  match step with
  | WriteSleeps l' => []
  | WriteReturns copied => take (Z.to_nat (copied -! w_copied l)) (w_data l)
  | WriteUnlocks l' => take (Z.to_nat (w_copied l' -! w_copied l)) (w_data l)
  end.

Definition reader_after (min_size : Z) (step : read_step) : reader_state :=
  match step with
  | ReadSleeps t => RParked min_size t false
  | ReadReturns r => if rr_cancelled r then RIdle else RHolding r
  end.

(** [allow] restricts the stop tokens the callers pass. *)
Inductive step (allow : stop_token -> Prop) : system -> system -> Prop :=
  | step_write_start p m r wr co data t :
      allow t -> data ≠ [] ->
      step allow (System p m WIdle r wr co) (System p m (WReady data 0 t) r wr co)
  | step_write_round p m r wr co data copied t p' m' st :
      write_round p m data copied t = Ret (p', m', st) ->
      step allow (System p m (WReady data copied t) r wr co)
        (System p' m' (writer_after st) r (wr ++ reported (WriteLocals data copied t false) st) co)
  | step_write_throws p m r wr co data copied t e :
      write_round p m data copied t = Throw e ->
      step allow (System p m (WReady data copied t) r wr co) (System p m WIdle r wr co)
  | step_write_wakes p m r wr co l woken p' m' st :
      write_wait p m l = Ret (p', m', st) ->
      step allow (System p m (WParked l woken) r wr co)
        (System p' m' (writer_after st) r (wr ++ reported l st) co)
  | step_write_wakes_throws p m r wr co l woken e :
      write_wait p m l = Throw e ->
      step allow (System p m (WParked l woken) r wr co) (System p m WIdle r wr co)
  | step_write_notifies p m r wr co l :
      step allow (System p m (WNotifying l) r wr co)
        (System p m (if len (w_data l) =? 0 then WIdle else WReady (w_data l) (w_copied l) (w_token l))
           (if w_notify l then wake_reader r else r) wr co)
  | step_complete_writer p m r wr co :
      step allow (System p m WIdle r wr co) (System (complete_writer p) m WCompleting r wr co)
  | step_complete_writer_notifies p m r wr co :
      step allow (System p m WCompleting r wr co) (System p m WIdle (wake_reader r) wr co)
  | step_read p m w wr co min_size t p' st :
      allow t -> read_at_least p min_size t = Ret (p', st) ->
      step allow (System p m w RIdle wr co) (System p' m w (reader_after min_size st) wr co)
  | step_read_wakes p m w wr co min_size t woken p' st :
      read_wait p min_size t = (p', st) ->
      step allow (System p m w (RParked min_size t woken) wr co)
        (System p' m w (reader_after min_size st) wr co)
  | step_advance p m w wr co r consumed examined p' m' notify :
      position_ok consumed -> position_ok examined ->
      advance p m consumed examined = Ret (p', m', notify) ->
      step allow (System p m w (RHolding r) wr co)
        (System p' m' w (RNotifying notify) wr
           (co ++ take (Z.to_nat (sequence_offset consumed)) (view_bytes m (rr_buffer r))))
  | step_advance_notifies p m w wr co notify :
      step allow (System p m w (RNotifying notify) wr co)
        (System p m (if notify then wake_writer w else w) RIdle wr co)
  | step_complete_reader p m w wr co r :
      r = RIdle \/ (exists res, r = RHolding res) ->
      step allow (System p m w r wr co) (System (complete_reader p) m w RCompleting wr co)
  | step_complete_reader_notifies p m w wr co :
      step allow (System p m w RCompleting wr co) (System p m (wake_writer w) RIdle wr co).

(** ** The invariant *)

Definition writer_ok (w : writer_state) : Prop :=
  match w with
  | WReady data copied _ => data ≠ [] /\ is_size copied
  | WParked l _ => w_data l ≠ [] /\ is_size (w_copied l) /\ w_notify l = false
  | WNotifying l => is_size (w_copied l)
  | _ => True
  end.

(** What the reader knows: a snapshot is a valid view of a prefix of the
    buffered bytes. *)
Record holding_ok (p : pipeline R) (m : memory) (r : read_result) : Prop := {
  ho_pending : m_has_pending_read p = true;
  ho_open : m_reader_completed p = false;
  ho_size : m_pending_read_size p = len (view_bytes m (rr_buffer r));
  ho_view : view_ok m (rr_buffer r);
  ho_prefix : view_bytes m (rr_buffer r) `prefix_of` content p m;
  ho_spans : Forall (readable_in (m_segments p)) (ByteView.m_segments (rr_buffer r))
}.

Definition reader_ok (p : pipeline R) (m : memory) (r : reader_state) : Prop :=
  match r with
  | RParked _ _ _ => m_reader_waiting p = true /\ m_reader_completed p = false
  | RHolding r => holding_ok p m r
  | _ => True
  end.

Record system_ok (s : system) : Prop := {
  sy_pipeline : pipeline_ok (s_pipeline s) (s_memory s);
  sy_completed : is_any_completed (s_pipeline s) = true -> m_writer_paused (s_pipeline s) = false;
  sy_writer : writer_ok (s_writer s);
  sy_reader : reader_ok (s_pipeline s) (s_memory s) (s_reader s);
  sy_stream : m_reader_completed (s_pipeline s) = false ->
    s_written s = s_consumed s ++ content (s_pipeline s) (s_memory s)
}.

(** ** Preservation *)

Lemma holding_extends p m p' m' r :
  pipeline_ok p' m' -> same_frame p p' -> extends (m_segments p) m (m_segments p') m' ->
  content p m `prefix_of` content p' m' -> holding_ok p m r -> holding_ok p' m' r.
Proof.
  intros Hok Hfr Hext Hpre [H1 H2 H3 H4 H5 H6].
  destruct (view_extends (m_buffer_size p') (rr_buffer r) _ m _ m' (po_segments _ _ Hok) Hext H6 H4)
    as (Hv & Eb & Hs).
  split; rewrite ?Eb, ?(sf_has_pending _ _ Hfr), ?(sf_reader _ _ Hfr), ?(sf_pending _ _ Hfr); try done.
  by etrans.
Qed.

(** The effect of a section of [write], in one form. *)
Lemma write_step_effect p m l p' m' st :
  pipeline_ok p m -> is_size (w_copied l) -> pipeline_ok p' m' -> write_step_ok p m l p' m' st ->
  content p' m' = content p m ++ reported l st /\ extends (m_segments p) m (m_segments p') m'.
Proof.
  intros Hok Hc Hok' Hst.
  assert (forall l' k, write_progress p m l p' m' l' k ->
    content p' m' = content p m ++ take (Z.to_nat ((w_copied l +! k) -! w_copied l)) (w_data l) /\
    extends (m_segments p) m (m_segments p') m') as Hw.
  { intros l' k [_ _ Hk _ _ Hcont Hext _ _ _]. split; [|done].
    rewrite (Z.add_comm (w_copied l) k), wrap_add_sub; [done|]. pose proof (buffered_bound p' m' Hok'). destruct (po_pause _ _ Hok').
    rewrite <- (content_len p' m' Hok'), Hcont, len_app in *. pose proof (len_nonneg (content p m)).
    assert (len (take (Z.to_nat k) (w_data l)) = k) by (unfold len in *; rewrite length_take; lia).
    unfold is_size. lia. }
  destruct st as [l'|c|l']; cbn [write_step_ok reported] in *.
  - destruct Hst as (-> & -> & _). by rewrite app_nil_r.
  - destruct Hst as (_ & _ & l' & k & W & _ & ->). by eapply Hw.
  - destruct Hst as (_ & _ & k & W). rewrite (wp_copied _ _ _ _ _ _ _ W). by eapply Hw.
Qed.

Lemma write_section_ok p m w r wr co l p' m' st :
  system_ok (System p m w r wr co) -> w_data l ≠ [] -> is_size (w_copied l) -> w_notify l = false ->
  is_any_completed p = false -> write_wait p m l = Ret (p', m', st) ->
  system_ok (System p' m' (writer_after st) r (wr ++ reported l st) co).
Proof.
  intros [Hok Hcm _ Hr Hs] Hd Hc Hn Ho Hrun. cbn in *.
  destruct (write_wait_ok p m l Hok Hc Ho) as (p1 & m1 & st1 & E & Hok' & Hfr & Hst).
  rewrite Hrun in E. injection E as <- <- <-.
  destruct (write_step_effect _ _ _ _ _ _ Hok Hc Hok' Hst) as [Hcont Hext].
  split; cbn [s_pipeline s_memory s_writer s_reader s_written s_consumed]; try done.
  - unfold is_any_completed in *. rewrite (sf_writer _ _ Hfr), (sf_reader _ _ Hfr). congruence.
  - destruct st; cbn [write_step_ok writer_after writer_ok] in *; [|done|].
    + destruct Hst as (_ & _ & _ & _ & -> & -> & -> & _). done.
    + destruct Hst as (_ & _ & k & W). rewrite (wp_copied _ _ _ _ _ _ _ W). apply wrap_range.
  - destruct r as [|min t b|res| |]; cbn [reader_ok] in *; try done.
    + by rewrite (sf_waiting _ _ Hfr), (sf_reader _ _ Hfr).
    + eapply holding_extends; [done..|rewrite Hcont; by eexists|done].
  - rewrite (sf_reader _ _ Hfr). intros E. rewrite Hs, Hcont by done. by rewrite app_assoc.
Qed.

Lemma advance_returns p m consumed examined x :
  advance p m consumed examined = Ret x ->
  sequence_offset consumed <= sequence_offset examined /\
  sequence_offset examined <= m_pending_read_size p.
Proof. unfold advance. intros E. repeat (case_match; [done|]). lia. Qed.

Lemma system_ok_reader s r :
  system_ok s -> reader_ok (s_pipeline s) (s_memory s) r ->
  system_ok (System (s_pipeline s) (s_memory s) (s_writer s) r (s_written s) (s_consumed s)).
Proof. by intros []. Qed.

Lemma system_ok_writer s w :
  system_ok s -> writer_ok w ->
  system_ok (System (s_pipeline s) (s_memory s) w (s_reader s) (s_written s) (s_consumed s)).
Proof. by intros []. Qed.

Lemma wake_reader_ok p m r : reader_ok p m r -> reader_ok p m (wake_reader r).
Proof. by destruct r. Qed.
Lemma wake_writer_ok w : writer_ok w -> writer_ok (wake_writer w).
Proof. by destruct w. Qed.

Lemma snapshot_holding p m p' r :
  pipeline_ok p m -> m_reader_completed p = false -> snapshot_ok p m p' r -> holding_ok p' m r.
Proof. intros Hok Ho [-> ? ? ? Hb ? ?]. split; try done; simpl; by rewrite Hb. Qed.

Lemma pipe_read_section_ok p m w r wr co min_size p' st :
  system_ok (System p m w r wr co) -> m_reader_completed p = false ->
  m_reader_waiting p = true -> read_step_ok p m min_size p' st -> pipeline_ok p' m ->
  system_ok (System p' m w (reader_after min_size st) wr co).
Proof.
  intros [Hok Hcm Hw _ Hs] Ho Hwait Hst Hok'. cbn in *.
  destruct st as [t|res]; cbn [read_step_ok reader_after] in *.
  - by destruct Hst as [-> _].
  - destruct (rr_cancelled res); [by destruct Hst as [-> _]|]. destruct Hst as [_ Hsn].
    pose proof (snapshot_holding _ m _ _ (waiting_ok _ _ false Hok) Ho Hsn) as Hh.
    pose proof (sn_state _ _ _ _ Hsn) as ->. by split.
Qed.

Lemma advance_section_ok p m w wr co r consumed examined p' m' notify :
  system_ok (System p m w (RHolding r) wr co) -> position_ok consumed ->
  advance p m consumed examined = Ret (p', m', notify) ->
  system_ok (System p' m' w (RNotifying notify) wr
    (co ++ take (Z.to_nat (sequence_offset consumed)) (view_bytes m (rr_buffer r)))).
Proof.
  intros [Hok Hcm Hw Hr Hs] Hc Hrun. cbn in *. destruct Hr as [Hp Ho Hsz _ [rest Hpre] _].
  pose proof (advance_returns _ _ _ _ _ Hrun) as [Hce Hle]. destruct Hc as [Hc _].
  destruct (advance_ok p m consumed examined) as (p1 & m1 & E & Hok' & Hfr & Hcont & _ & _ & _ & _ & Hpa & _);
    [done..|]. rewrite Hrun in E. injection E as <- <- _. split; cbn; try done.
  - unfold is_any_completed in *. rewrite (af_writer _ _ Hfr), (af_reader _ _ Hfr), Hpa.
    intros E. by rewrite Hcm.
  - intros _. rewrite Hs, Hcont, <- app_assoc by done. f_equal. rewrite Hpre.
    rewrite drop_app_le, app_assoc, take_drop by (unfold len in *; lia). done.
Qed.

Lemma pipe_read_at_least_ok p m w wr co min_size t p' st :
  system_ok (System p m w RIdle wr co) -> read_at_least p min_size t = Ret (p', st) ->
  system_ok (System p' m w (reader_after min_size st) wr co).
Proof.
  intros Hok Hrun. unfold read_at_least in Hrun. destruct (m_has_pending_read p); [done|].
  destruct (m_reader_completed p) eqn:Ho; [done|]. destruct (m_writer_completed p) eqn:Ew.
  - injection Hrun as Hrun. pose proof (sy_pipeline _ Hok) as Hp. cbn in Hp.
    destruct (read_finish_ok p m t Hp) as (p1 & res & E & Hres). rewrite Hrun in E. injection E as -> ->.
    destruct (stop_requested t).1; cbn [reader_after].
    + destruct Hres as [-> ->]. cbn. by apply (system_ok_reader _ RIdle Hok).
    + rewrite (sn_cancelled _ _ _ _ Hres). pose proof (snapshot_holding _ _ _ _ Hp Ho Hres) as Hh.
      pose proof (snapshot_pipeline_ok _ _ _ _ Hp Hres). destruct Hok as [_ ? ? _ ?].
      pose proof (sn_state _ _ _ _ Hres) as ->. by split.
  - injection Hrun as Hrun. pose proof (waiting_ok p m true (sy_pipeline _ Hok)) as Hp.
    destruct (read_wait_ok _ m min_size t Hp) as (p1 & st1 & E & Hp1 & Hst). rewrite Hrun in E.
    injection E as -> ->. apply (pipe_read_section_ok (set_reader_waiting true p) m w RIdle wr co min_size p1 st1);
      try done. destruct Hok. by split.
Qed.

Lemma pipe_step_preserves allow s s' : system_ok s -> step allow s s' -> system_ok s'.
Proof.
  intros Hok Hstep. pipe_step_cases Hstep.
  - by apply (system_ok_writer _ (WReady data 0 t) Hok).
  - destruct (sy_writer _ Hok) as [Hd Hc]. unfold write_round in Hrun.
    destruct (is_any_completed p) eqn:Ho; [done|].
    by apply (write_section_ok p m _ r wr co (WriteLocals data copied t false) p' m' st Hok).
  - by apply (system_ok_writer _ WIdle Hok).
  - destruct (sy_writer _ Hok) as (Hd & Hc & Hn). destruct (is_any_completed p) eqn:Ho.
    { rewrite write_wait_completed in Hrun; [done..|by apply (sy_completed _ Hok)|done]. }
    by apply (write_section_ok p m _ r wr co l p' m' st Hok).
  - by apply (system_ok_writer _ WIdle Hok).
  - pose proof (sy_writer _ Hok) as Hw. cbn in Hw.
    apply (system_ok_writer (System p m (WNotifying l) (if w_notify l then wake_reader r else r) wr co)).
    + apply (system_ok_reader _ _ Hok). cbn. destruct (w_notify l); [apply wake_reader_ok|]; apply (sy_reader _ Hok).
    + destruct (Z.eqb_spec (len (w_data l)) 0) as [|Hne]; [done|]. split; [|done]. by intros E; rewrite E in Hne.
  - destruct Hok as [Hok _ _ Hr Hs]. cbn in *. split; cbn; try done; [by apply complete_writer_ok|].
    destruct r; cbn in *; try done. by destruct Hr.
  - apply (system_ok_writer (System p m WCompleting (wake_reader r) wr co)); [|done].
    apply (system_ok_reader _ _ Hok). apply wake_reader_ok, (sy_reader _ Hok).
  - by eapply pipe_read_at_least_ok.
  - pose proof (sy_reader _ Hok) as [Hwait Ho]. cbn in Hwait, Ho.
    destruct (read_wait_ok p m min_size t (sy_pipeline _ Hok)) as (p1 & st1 & E & Hp1 & Hst). rewrite Hrun in E.
    injection E as -> ->. by eapply pipe_read_section_ok.
  - by eapply advance_section_ok.
  - apply (system_ok_writer (System p m w RIdle wr co)).
    + by apply (system_ok_reader _ _ Hok).
    + destruct notify; [apply wake_writer_ok|]; apply (sy_writer _ Hok).
  - destruct Hok as [Hok _ Hw _ _]. cbn in *. split; cbn; try done. by apply complete_reader_ok.
  - apply (system_ok_writer (System p m w RIdle wr co)).
    + by apply (system_ok_reader _ _ Hok).
    + apply wake_writer_ok, (sy_writer _ Hok).
Qed.

(** ** Wake-ups

    Without cancellation: whoever is parked and not yet notified has nothing
    to do, or the notification is on its way. *)

Definition reader_notification_pending (w : writer_state) : bool :=
  match w with WNotifying l => w_notify l | WCompleting => true | _ => false end.
Definition writer_notification_pending (r : reader_state) : bool :=
  match r with RNotifying notify => notify | RCompleting => true | _ => false end.

Record wakeups_ok (s : system) : Prop := {
  wk_writer_token : match s_writer s with
    | WReady _ _ t => t = no_stop
    | WParked l _ => w_token l = no_stop
    | WNotifying l => w_token l = no_stop
    | _ => True
    end;
  wk_reader : forall min_size t, s_reader s = RParked min_size t false ->
    data_available (s_pipeline s) min_size = false \/ reader_notification_pending (s_writer s) = true;
  wk_writer : forall l, s_writer s = WParked l false ->
    m_writer_paused (s_pipeline s) = true \/ writer_notification_pending (s_reader s) = true
}.

Lemma unchanged_data_available p m p' m' min_size :
  pipeline_ok p m -> pipeline_ok p' m' -> same_frame p p' -> m_reader_completed p = false ->
  content p' m' = content p m -> data_available p' min_size = data_available p min_size.
Proof.
  intros Hok Hok' Hfr Ho Hc. destruct (po_open _ _ Hok Ho) as (Eb & _).
  destruct (po_open p' m' Hok') as (Eb' & _); [by rewrite (sf_reader _ _ Hfr)|].
  rewrite <- (content_len _ _ Hok) in Eb. rewrite <- (content_len _ _ Hok'), Hc in Eb'.
  unfold data_available. by rewrite (sf_writer _ _ Hfr), (sf_examined _ _ Hfr), Eb, Eb'.
Qed.

Lemma write_section_wakeups p m w r wr co l p' m' st :
  system_ok (System p m w r wr co) -> wakeups_ok (System p m w r wr co) ->
  reader_notification_pending w = false -> w_token l = no_stop ->
  is_size (w_copied l) -> w_notify l = false -> is_any_completed p = false ->
  write_wait p m l = Ret (p', m', st) ->
  wakeups_ok (System p' m' (writer_after st) r (wr ++ reported l st) co).
Proof.
  intros [Hok _ _ Hr _] [_ Hwr _] Hnp Ht Hc Hn Ho Hrun. cbn in *.
  destruct (write_wait_ok p m l Hok Hc Ho) as (p1 & m1 & st1 & E & Hok' & Hfr & Hst).
  rewrite Hrun in E. injection E as <- <- <-. destruct st as [l'|c|l']; cbn [write_step_ok writer_after] in *.
  - destruct Hst as (-> & -> & Hp & _ & _ & _ & _ & Ht'). split; cbn; [by apply Ht'| |by left].
    intros min t E. destruct (Hwr min t E); [by left|congruence].
  - by destruct Hst as [? _].
  - destruct Hst as (_ & _ & k & W). split; cbn; [by apply (wp_token _ _ _ _ _ _ _ W)| |done].
    intros min t E. rewrite E in Hr. destruct Hr as [Hwait Hro].
    destruct (Hwr min t E) as [Hd|]; [|congruence].
    destruct (Z.ltb_spec 0 k) as [Hk|Hk].
    + right. rewrite (wp_notify _ _ _ _ _ _ _ W), Hwait. by destruct (Z.ltb_spec 0 k); [rewrite orb_true_r|lia].
    + left. rewrite <- Hd. eapply unchanged_data_available; try done.
      rewrite (wp_content _ _ _ _ _ _ _ W). pose proof (wp_count _ _ _ _ _ _ _ W).
      replace k with 0 by lia. by rewrite app_nil_r.
Qed.

Lemma read_wait_wakeups p m w r wr co min_size t p' st :
  wakeups_ok (System p m w r wr co) -> writer_notification_pending r = false ->
  pipeline_ok p m -> read_wait p min_size t = (p', st) ->
  wakeups_ok (System p' m w (reader_after min_size st) wr co).
Proof.
  intros [Hwt _ Hww] Hnp Hok Hrun. cbn in *.
  destruct (read_wait_ok p m min_size t Hok) as (p1 & st1 & E & Hp1 & Hst). rewrite Hrun in E.
  injection E as <- <-.
  assert (m_writer_paused p' = m_writer_paused p) as Ep.
  { destruct st as [?|res]; cbn [read_step_ok] in Hst; [by destruct Hst as [-> _]|].
    destruct (rr_cancelled res); [by destruct Hst as [-> _]|].
    by destruct Hst as [_ [-> _ _ _ _ _ _]]. }
  split; cbn; [done| |].
  - intros min' t' E. destruct st as [?|res]; cbn [reader_after read_step_ok] in *; [|by destruct (rr_cancelled res)].
    injection E as <- <-. destruct Hst as [-> Hd]. by left.
  - intros l E. rewrite Ep. destruct (Hww l E); [by left|congruence].
Qed.

Lemma pipe_step_wakeups s s' :
  system_ok s -> wakeups_ok s -> step (fun t => t = no_stop) s s' -> wakeups_ok s'.
Proof.
  intros Hok Hwk Hstep. pipe_step_cases Hstep.
  - destruct Hwk. by split.
  - destruct (sy_writer _ Hok) as [Hd Hc]. unfold write_round in Hrun.
    destruct (is_any_completed p) eqn:Ho; [done|]. pose proof (wk_writer_token _ Hwk) as Ht. cbn in Ht.
    by apply (write_section_wakeups p m _ r wr co (WriteLocals data copied t false) p' m' st Hok Hwk).
  - destruct Hwk. by split.
  - destruct (sy_writer _ Hok) as (Hd & Hc & Hn). destruct (is_any_completed p) eqn:Ho.
    { rewrite write_wait_completed in Hrun; [done..|by apply (sy_completed _ Hok)|done]. }
    pose proof (wk_writer_token _ Hwk) as Ht. cbn in Ht.
    by apply (write_section_wakeups p m _ r wr co l p' m' st Hok Hwk).
  - destruct Hwk as [_ Hr _]. split; [done|exact Hr|done].
  - destruct Hwk as [Ht Hr _]. cbn in *. split; cbn; [by destruct (_ =? _)| |by destruct (_ =? _)].
    intros min t E. destruct (w_notify l) eqn:En; [by destruct r|].
    destruct (Hr min t E); [by left|congruence].
  - destruct Hwk as [_ Hr _]. split; cbn; [done|by right|done].
  - destruct Hwk as [_ Hr _]. split; cbn; [done|by destruct r|done].
  - unfold read_at_least in Hrun. destruct (m_has_pending_read p); [done|].
    destruct (m_reader_completed p) eqn:Ho; [done|]. destruct (m_writer_completed p) eqn:Ew.
    + injection Hrun as Hrun. unfold read_finish in Hrun. rewrite Ha in Hrun. simpl in Hrun.
      injection Hrun as <- <-. destruct Hwk as [Ht _ Hw]. cbn in *. split; cbn; [done|done|].
      intros l E. destruct (Hw l E); [by left|done].
    + injection Hrun as Hrun. pose proof (waiting_ok p m true (sy_pipeline _ Hok)) as Hp.
      apply (read_wait_wakeups (set_reader_waiting true p) m w RIdle wr co min_size t); try done.
      destruct Hwk as [Ht _ Hw]. by split.
  - exact (read_wait_wakeups p m w _ wr co min_size t p' st Hwk eq_refl (sy_pipeline _ Hok) Hrun).
  - destruct (sy_reader _ Hok) as [Hp Ho _ _ _ _]. cbn in Hp, Ho.
    pose proof (advance_returns _ _ _ _ _ Hrun) as [Hce Hle]. destruct Hc as [Hc _].
    destruct (advance_ok p m consumed examined (sy_pipeline _ Hok)) as (p1 & m1 & E & _); [done..|].
    rewrite Hrun in E. injection E as <- <- ->. destruct Hwk as [Ht _ Hw]. cbn in *. split; cbn; [done|done|].
    intros l E. destruct (Hw l E) as [->|]; [|done]. destruct (m_writer_paused p'); auto.
  - destruct Hwk as [Ht _ Hw]. cbn in *. split; cbn; [by destruct notify, w|done|].
    intros l E. destruct notify; [by destruct w|]. destruct (Hw l E); [by left|done].
  - destruct Hwk as [Ht _ Hw]. split; cbn; [done|done|by right].
  - destruct Hwk as [Ht _ Hw]. cbn in *. split; cbn; [by destruct w|done|by destruct w].
Qed.

(** ** A paused writer has filled the pipeline

    provided the resume threshold is at least one segment. *)

Definition resumable (p : pipeline R) : Prop :=
  m_buffer_size p <= m_resume_writer_threshold p /\ m_buffer_size p <= m_pause_writer_threshold p.

Definition same_options (p p' : pipeline R) : Prop :=
  m_buffer_size p' = m_buffer_size p /\ m_pause_writer_threshold p' = m_pause_writer_threshold p /\
  m_resume_writer_threshold p' = m_resume_writer_threshold p.

Lemma same_options_trans p p' p'' : same_options p p' -> same_options p' p'' -> same_options p p''.
Proof. intros (? & ? & ?) (? & ? & ?). split_and!; congruence. Qed.

(** [p0] has the options of the pipeline. *)
Definition space_ok (p0 : pipeline R) (s : system) : Prop :=
  (resumable p0 /\ same_options p0 (s_pipeline s)) /\
  (m_reader_completed (s_pipeline s) = false ->
   no_waste (s_pipeline s) /\ (m_writer_paused (s_pipeline s) = true -> room (s_pipeline s) = 0)).

Lemma write_section_space p0 p m w r wr co l p' m' st :
  system_ok (System p m w r wr co) -> space_ok p0 (System p m w r wr co) -> is_size (w_copied l) ->
  is_any_completed p = false -> write_wait p m l = Ret (p', m', st) ->
  space_ok p0 (System p' m' (writer_after st) r (wr ++ reported l st) co).
Proof.
  intros [Hok _ _ _ _] [Hres Hpa] Hc Ho Hrun. unfold space_ok in *. cbn in *.
  destruct (write_wait_ok p m l Hok Hc Ho) as (p1 & m1 & st1 & E & Hok' & Hfr & Hst).
  rewrite Hrun in E. injection E as <- <- <-. split.
  { split; [apply Hres|]. eapply same_options_trans; [apply Hres|]. split_and!; apply Hfr. }
  rewrite (sf_reader _ _ Hfr). intros [Hw Hp]%Hpa.
  destruct st as [l'|c|l']; cbn [write_step_ok] in Hst.
  - by destruct Hst as (-> & _).
  - destruct Hst as (_ & Hp' & l' & k & W & _). split; [exact (write_no_waste _ _ _ _ _ _ _ Hok W Hw)|congruence].
  - destruct Hst as (_ & Hwhy & k & W). split; [exact (write_no_waste _ _ _ _ _ _ _ Hok W Hw)|]. intros [Hp0|]%Hwhy; [|done].
    specialize (Hp Hp0). pose proof (wp_room _ _ _ _ _ _ _ W). pose proof (wp_count _ _ _ _ _ _ _ W).
    pose proof (room_nonneg p' m' Hok'). lia.
Qed.

Lemma advance_section_space p0 p m w wr co r consumed examined p' m' notify co' :
  system_ok (System p m w (RHolding r) wr co) -> space_ok p0 (System p m w (RHolding r) wr co) ->
  position_ok consumed -> advance p m consumed examined = Ret (p', m', notify) ->
  space_ok p0 (System p' m' w (RNotifying notify) wr co').
Proof.
  intros [Hok _ _ Hr _] [Hres Hpa] Hc Hrun. unfold space_ok in *. cbn in *.
  destruct Hr as [Hp Ho _ _ _ _]. pose proof (advance_returns _ _ _ _ _ Hrun) as [Hce Hle]. destruct Hc as [Hc _].
  pose proof (advance_space p m consumed examined p' m' notify Hok Hrun) as (_ & Hnw & Hroom).
  destruct (advance_ok p m consumed examined) as (p1 & m1 & E & Hok' & Hfr & _ & _ & _ & _ & _ & Hpaused & Hlen);
    [done..|]. rewrite Hrun in E. injection E as <- <- _.
  split; [split; [apply Hres|eapply same_options_trans; [apply Hres|]; split_and!; apply Hfr]|].
  intros Ho'. destruct (Hpa Ho) as [Hw Hz]. split; [by apply Hnw|]. intros Hp'. rewrite Hpaused in Hp'.
  apply andb_true_iff in Hp' as [Hp0 Hs%negb_true_iff]. rewrite Hroom; [by apply Hz|].
  destruct (po_open _ _ Hok' Ho') as (_ & Ea & _). destruct Hres as [[? ?] (Es & Epa & Ere)].
  unfold should_resume_writer in Hs. rewrite Ea, (af_size _ _ Hfr), (af_pause _ _ Hfr), (af_resume _ _ Hfr) in Hs.
  pose proof (so_size _ _ _ (po_segments _ _ Hok)). pose proof (po_capacity _ _ Hok).
  destruct (Z.leb_spec (m_buffer_size p) (m_resume_writer_threshold p)); [|lia].
  destruct (Z.ltb_spec (m_buffer_size p * len (m_segments p')) (m_pause_writer_threshold p)); [done|]. nia.
Qed.

(** What a section of [read] leaves alone, for [space_ok]. *)
Definition space_frame (p p' : pipeline R) : Prop :=
  m_reader_completed p' = m_reader_completed p /\ m_writer_paused p' = m_writer_paused p /\
  room p' = room p /\ (no_waste p -> no_waste p') /\ same_options p p'.

Lemma space_frame_ok p0 p p' m m' w w' r r' wr wr' co co' :
  space_frame p p' -> space_ok p0 (System p m w r wr co) -> space_ok p0 (System p' m' w' r' wr' co').
Proof.
  intros (Er & Ep & Eo & Hw & Hres) [Hr Hs]. unfold space_ok in *. cbn in *. rewrite Er, Ep, Eo.
  split; [split; [apply Hr|by eapply same_options_trans; [apply Hr|]]|]. intros [? ?]%Hs. split; [by apply Hw|done].
Qed.

Lemma read_section_frame p m min_size p' st : read_step_ok p m min_size p' st -> space_frame p p'.
Proof.
  intros Hst. destruct st as [t|res]; cbn [read_step_ok] in Hst; [by destruct Hst as [-> _]|].
  destruct (rr_cancelled res); [by destruct Hst as [-> _]|]. by destruct Hst as [_ [-> _ _ _ _ _ _]].
Qed.

Lemma read_at_least_frame p m min_size t p' st :
  pipeline_ok p m -> read_at_least p min_size t = Ret (p', st) -> space_frame p p'.
Proof.
  intros Hok Hrun. unfold read_at_least in Hrun. destruct (m_has_pending_read p); [done|].
  destruct (m_reader_completed p) eqn:Er; [done|]. destruct (m_writer_completed p); injection Hrun as Hrun.
  - destruct (read_finish_ok p m t Hok) as (p1 & r & E & Hr). rewrite Hrun in E. injection E as -> _.
    destruct (stop_requested t).1; [by destruct Hr as [-> _]|]. by destruct Hr as [-> _ _ _ _ _ _].
  - destruct (read_wait_ok _ m min_size t (waiting_ok p m true Hok)) as (p1 & st1 & E & _ & Hst).
    rewrite Hrun in E. injection E as -> ->. by destruct (read_section_frame _ _ _ _ _ Hst) as (? & ? & ? & ? & ?).
Qed.

Lemma step_space allow p0 s s' : system_ok s -> space_ok p0 s -> step allow s s' -> space_ok p0 s'.
Proof.
  intros Hok Hp Hstep. pipe_step_cases Hstep;
    try exact Hp.
  - destruct (sy_writer _ Hok) as [Hd Hc]. unfold write_round in Hrun.
    destruct (is_any_completed p) eqn:Ho; [done|].
    by apply (write_section_space p0 p m _ r wr co (WriteLocals data copied t false) p' m' st Hok Hp).
  - destruct (sy_writer _ Hok) as (Hd & Hc & _). destruct (is_any_completed p) eqn:Ho.
    { rewrite write_wait_completed in Hrun; [done..|by apply (sy_completed _ Hok)|done]. }
    by apply (write_section_space p0 p m _ r wr co l p' m' st Hok Hp).
  - destruct Hp as [Hres Hp]. split; [done|]. cbn in *. intros Hro. by destruct (Hp Hro).
  - eapply space_frame_ok, Hp. exact (read_at_least_frame p m min_size t p' st (sy_pipeline _ Hok) Hrun).
  - destruct (read_wait_ok p m min_size t (sy_pipeline _ Hok)) as (p1 & st1 & E & _ & Hst). rewrite Hrun in E.
    injection E as -> ->. eapply space_frame_ok, Hp. by eapply read_section_frame.
  - exact (advance_section_space p0 p m w wr co r consumed examined p' m' notify _ Hok Hp Hc Hrun).
  - by destruct Hp as [Hres _].
Qed.

(** No step changes the options. *)
Lemma step_options allow s s' : system_ok s -> step allow s s' -> same_options (s_pipeline s) (s_pipeline s').
Proof.
  intros Hok Hstep.
  assert (forall p m l p' m' st, pipeline_ok p m -> is_size (w_copied l) -> is_any_completed p = false ->
    write_wait p m l = Ret (p', m', st) -> same_options p p') as Hwrite.
  { intros p m l p' m' st Hp Hc Ho Hrun.
    destruct (write_wait_ok p m l Hp Hc Ho) as (p1 & m1 & st1 & E & _ & Hfr & _). rewrite Hrun in E.
    injection E as <- _ _. split_and!; apply Hfr. }
  pipe_step_cases Hstep; pose proof (sy_pipeline _ Hok) as Hp; cbn in *; try done.
  - destruct (sy_writer _ Hok) as [Hd Hc]. unfold write_round in Hrun. destruct (is_any_completed p) eqn:Ho; [done|].
    by apply (Hwrite p m (WriteLocals data copied t false) p' m' st).
  - destruct (sy_writer _ Hok) as (Hd & Hc & _). destruct (is_any_completed p) eqn:Ho.
    { rewrite write_wait_completed in Hrun; [done..|by apply (sy_completed _ Hok)|done]. }
    by apply (Hwrite p m l p' m' st).
  - by apply (read_at_least_frame p m min_size t p' st).
  - destruct (read_wait_ok p m min_size t Hp) as (p1 & st1 & E & _ & Hst). rewrite Hrun in E.
    injection E as -> ->. by apply (read_section_frame p m min_size p1 st1).
  - destruct (sy_reader _ Hok) as [Hpd Ho _ _ _ _]. pose proof (advance_returns _ _ _ _ _ Hrun) as [Hce Hle].
    destruct Hc as [Hc _]. destruct (advance_ok p m consumed examined) as (p1 & m1 & E & _ & Hfr & _); [done..|].
    rewrite Hrun in E. injection E as <- _ _. split_and!; apply Hfr.
Qed.

(** ** Runs from a fresh pipeline *)

Definition initial (p : pipeline R) (m : memory) : system := System p m WIdle RIdle [] [].

Record fresh (p : pipeline R) (m : memory) : Prop := {
  fr_ok : pipeline_ok p m;
  fr_empty : content p m = [];
  fr_paused : m_writer_paused p = false
}.

Lemma pipe_initial_ok p m : fresh p m -> system_ok (initial p m).
Proof. intros [Hok Hc Hp]. by split. Qed.

Lemma pipe_reachable_ok allow p m s : fresh p m -> rtc (step allow) (initial p m) s -> system_ok s.
Proof.
  intros Hf Hrun. eapply (rtc_invariant (step allow) system_ok); [|exact Hrun|by apply pipe_initial_ok].
  intros s1 s2. apply pipe_step_preserves.
Qed.

(** C1: whatever the interleaving and the cancellations, the bytes [write]
    reported as copied are, in order, the bytes the reader consumed followed
    by the bytes still buffered; and while the reader holds a snapshot, its
    view is valid memory showing the next bytes of that stream, unchanged by
    everything the writer did meanwhile. *)
Theorem stream_integrity allow p m s (Hfresh : fresh p m) (Hrun : rtc (step allow) (initial p m) s) :
  (m_reader_completed (s_pipeline s) = false ->
    s_written s = s_consumed s ++ content (s_pipeline s) (s_memory s)) /\
  (forall r, s_reader s = RHolding r ->
    view_ok (s_memory s) (rr_buffer r) /\
    (s_consumed s ++ view_bytes (s_memory s) (rr_buffer r)) `prefix_of` s_written s).
Proof.
  pose proof (pipe_reachable_ok allow p m s Hfresh Hrun) as [_ _ _ Hr Hs]. split; [done|].
  intros r E. rewrite E in Hr. destruct Hr as [_ Ho _ Hv Hpre _]. split; [done|].
  rewrite Hs by done. by apply prefix_app.
Qed.

(** C13: in every reachable state no section can reach undefined behaviour (a
    failed assertion, [front()] of an empty deque, a [memcpy] that reads past
    the caller's data or writes outside a live buffer, a buffer given back
    twice), every span of the view that the reader holds lies inside a live
    buffer, and destroying the pipeline gives every block back, each once. *)
Theorem no_undefined_behaviour allow p m s (Hfresh : fresh p m) (Hrun : rtc (step allow) (initial p m) s) :
  match s_writer s with
  | WReady data copied t => write_round (s_pipeline s) (s_memory s) data copied t ≠ Undef
  | WParked l _ => write_wait (s_pipeline s) (s_memory s) l ≠ Undef
  | _ => True
  end /\
  (forall min_size t, read_at_least (s_pipeline s) min_size t ≠ Undef) /\
  (forall r consumed examined, s_reader s = RHolding r -> position_ok consumed ->
    advance (s_pipeline s) (s_memory s) consumed examined ≠ Undef) /\
  (forall r, s_reader s = RHolding r -> Forall (valid_span (s_memory s)) (ByteView.m_segments (rr_buffer r))) /\
  (exists m', destroy_pipeline (s_pipeline s) (s_memory s) = Ret m' /\ m_blocks m' = ∅).
Proof.
  pose proof (pipe_reachable_ok allow p m s Hfresh Hrun) as [Hok Hcm Hw Hr _]. split_and!.
  - destruct (s_writer s) as [|data copied t|l b|l|]; try done; cbn in Hw.
    + unfold write_round. destruct (is_any_completed _) eqn:Ho; [done|].
      destruct (write_wait_ok _ _ (WriteLocals data copied t false) Hok) as (? & ? & ? & -> & _); [by apply Hw|done..].
    + destruct (is_any_completed _) eqn:Ho.
      { rewrite write_wait_completed; [done|done|by apply Hcm|by destruct Hw]. }
      destruct (write_wait_ok _ _ l Hok) as (? & ? & ? & -> & _); [by apply Hw|done..].
  - intros min_size t. unfold read_at_least. by repeat case_match.
  - intros r c e E [Hc _]. rewrite E in Hr. destruct Hr as [Hp Ho _ _ _ _].
    destruct (Z.gtb_spec (sequence_offset c) (sequence_offset e)) as [Hgt|Hle].
    { unfold advance. by destruct (Z.gtb_spec (sequence_offset c) (sequence_offset e)); [|lia]. }
    destruct (Z.gtb_spec (sequence_offset e) (m_pending_read_size (s_pipeline s))) as [Hgt|Hle'].
    { unfold advance. rewrite Ho, Hp. simpl.
      destruct (Z.gtb_spec (sequence_offset c) (sequence_offset e)); [lia|].
      by destruct (Z.gtb_spec (sequence_offset e) (m_pending_read_size (s_pipeline s))); [|lia]. }
    by destruct (advance_ok _ _ c e Hok) as (? & ? & -> & _).
  - intros r E. rewrite E in Hr. by destruct Hr as [_ _ _ [Hsp _ _ _] _ _].
  - by apply destroy_pipeline_ok.
Qed.

Lemma reachable_options allow p m s :
  fresh p m -> rtc (step allow) (initial p m) s -> same_options p (s_pipeline s).
Proof.
  intros Hf Hrun. apply (rtc_invariant (step allow) (fun s => system_ok s /\ same_options p (s_pipeline s)) (initial p m)); [|done|].
  - intros s1 s2 [Hok Hp] Hst. split; [by eapply pipe_step_preserves|].
    eapply same_options_trans; [exact Hp|by eapply step_options].
  - split; [by apply pipe_initial_ok|done].
Qed.

(** C21: whatever the interleaving and the cancellations, the pipeline never
    holds segments of more bytes together than the pause threshold it was
    constructed with, and as long as the reader has not completed both
    counters are exact: [m_actual_buffered_size] is the bytes of the segments,
    [m_buffered_size] the bytes written and not consumed, and the one is
    never more than the other. *)
Theorem memory_bounded allow p m s (Hfresh : fresh p m) (Hrun : rtc (step allow) (initial p m) s) :
  m_buffer_size p * len (m_segments (s_pipeline s)) <= m_pause_writer_threshold p /\
  (m_reader_completed (s_pipeline s) = false ->
    m_actual_buffered_size (s_pipeline s) = m_buffer_size p * len (m_segments (s_pipeline s)) /\
    m_buffered_size (s_pipeline s) = len (s_written s) - len (s_consumed s) /\
    m_buffered_size (s_pipeline s) <= m_actual_buffered_size (s_pipeline s)).
Proof.
  pose proof (pipe_reachable_ok allow p m s Hfresh Hrun) as [Hok _ _ _ Hs].
  destruct (reachable_options allow p m s Hfresh Hrun) as (Esz & Epa & _). rewrite <- Esz, <- Epa.
  split; [by apply (po_capacity _ _ Hok)|]. intros Ho.
  rewrite Hs, len_app, (content_len _ _ Hok) by done. destruct (po_open _ _ Hok Ho) as (Eb & Ea & _).
  destruct (po_segments _ _ Hok) as [Hsz Hseg _].
  pose proof (total_readable_bound (m_buffer_size (s_pipeline s)) (m_segments (s_pipeline s)) ltac:(lia) Hseg).
  split_and!; (done || lia).
Qed.

Lemma reachable_space allow p m s :
  fresh p m -> resumable p -> rtc (step allow) (initial p m) s -> space_ok p s.
Proof.
  intros Hf Hres Hrun. apply (rtc_invariant (step allow) (fun s => system_ok s /\ space_ok p s) (initial p m)); [|done|].
  - intros s1 s2 [Hok Hp] Hst. split; [by eapply pipe_step_preserves|by eapply step_space].
  - split; [by apply pipe_initial_ok|]. split; [done|]. intros _. destruct Hf as [Hok Hc Hp]. split; [|cbn; congruence].
    by eapply no_waste_empty, no_readable_no_segments.
Qed.

Lemma reachable_wakeups p m s :
  fresh p m -> rtc (step (fun t => t = no_stop)) (initial p m) s -> wakeups_ok s.
Proof.
  intros Hf Hrun. apply (rtc_invariant (step (fun t => t = no_stop)) (fun s => system_ok s /\ wakeups_ok s) (initial p m)); [|done|].
  - intros s1 s2 [Hok Hwk] Hst. split; [by eapply pipe_step_preserves|by eapply pipe_step_wakeups].
  - split; [by apply pipe_initial_ok|by split].
Qed.

(** C6: without cancellation no wake-up is lost: a reader parked and not yet
    notified has nothing to return, or the writer has still to notify it;
    and a writer parked and not yet notified is still paused, or the reader
    has still to notify it. *)
Theorem no_lost_wakeup p m s
    (Hfresh : fresh p m) (Hrun : rtc (step (fun t => t = no_stop)) (initial p m) s) :
  (forall min_size t, s_reader s = RParked min_size t false ->
    data_available (s_pipeline s) min_size = false \/ reader_notification_pending (s_writer s) = true) /\
  (forall l, s_writer s = WParked l false ->
    m_writer_paused (s_pipeline s) = true \/ writer_notification_pending (s_reader s) = true).
Proof. by destruct (reachable_wakeups p m s Hfresh Hrun) as [_ ? ?]. Qed.

(** With a resume threshold of at least one segment, and without
    cancellation, writer and reader wait for each other only when the reader
    itself asked to wait for more than it examined: a reader that consumes
    what it examines never deadlocks the pair. *)
Theorem deadlock_needs_examined_bytes p m s l t
    (Hfresh : fresh p m) (Hresume : resumable p)
    (Hrun : rtc (step (fun t => t = no_stop)) (initial p m) s)
    (Hw : s_writer s = WParked l false) (Hr : s_reader s = RParked 0 t false) :
  0 < m_examined_size (s_pipeline s).
Proof.
  pose proof (reachable_space _ p m s Hfresh Hresume Hrun) as [[[Hrs Hb] (Esz & Epa & _)] Hpa]. rewrite <- Esz, <- Epa in Hb.
  destruct (reachable_wakeups p m s Hfresh Hrun) as [_ Hwr Hww].
  pose proof (pipe_reachable_ok _ p m s Hfresh Hrun) as [Hok _ _ Hrd _].
  destruct (Hwr 0 t Hr) as [Hd|E]; [|by rewrite Hw in E].
  destruct (Hww l Hw) as [Hp|E]; [|by rewrite Hr in E].
  rewrite Hr in Hrd. destruct Hrd as [_ Ho]. destruct (Hpa Ho) as [Hnw Hz]. pose proof (no_room_content _ _ Hok Hnw (Hz Hp) Hb) as Hlen.
  destruct (po_open _ _ Hok Ho) as (Eb & _ & Hx & _). rewrite <- (content_len _ _ Hok) in Eb.
  unfold data_available in Hd. destruct (m_writer_completed _); [done|]. cbn [orb] in Hd.
  rewrite andb_true_r in Hd. apply Z.gtb_ltb in Hd || apply not_true_iff_false in Hd.
  pose proof (so_size _ _ _ (po_segments _ _ Hok)) as Hsz.
  assert (m_buffer_size (s_pipeline s) <= total_room (s_pipeline s)) by (apply total_room_positive; lia).
  lia.
Qed.
End system.

(** ** Scheduled runs: the step relation, executed along a schedule *)
Section schedules.
Context {R : Type} `{ResourceLaws R}.

Inductive event :=
  | CallWrite (data : bytes) (t : stop_token)
  | WriterRuns              (* the next section of the writer, or its notification *)
  | CallCompleteWriter
  | CallRead (min_size : Z) (t : stop_token)
  | ReaderRuns
  | CallAdvance (consumed examined : position)
  | CallCompleteReader.

Definition event_allowed (allow : stop_token -> Prop) (e : event) : Prop :=
  match e with
  | CallWrite data t => allow t /\ data ≠ []
  | CallRead _ t => allow t
  | CallAdvance c e => position_ok c /\ position_ok e
  | _ => True
  end.

Definition exec (e : event) (s : system) : option (@system R) :=
  let '(System p m w r wr co) := s in
  match e, w, r with
  | CallWrite data t, WIdle, _ => Some (System p m (WReady data 0 t) r wr co)
  | WriterRuns, WReady data copied t, _ =>
      match write_round p m data copied t with
      | Ret (p', m', st) =>
          Some (System p' m' (writer_after st) r (wr ++ reported (WriteLocals data copied t false) st) co)
      | Throw _ => Some (System p m WIdle r wr co)
      | Undef => None
      end
  | WriterRuns, WParked l _, _ =>
      match write_wait p m l with
      | Ret (p', m', st) => Some (System p' m' (writer_after st) r (wr ++ reported l st) co)
      | Throw _ => Some (System p m WIdle r wr co)
      | Undef => None
      end
  | WriterRuns, WNotifying l, _ =>
      Some (System p m (if len (w_data l) =? 0 then WIdle else WReady (w_data l) (w_copied l) (w_token l))
        (if w_notify l then wake_reader r else r) wr co)
  | WriterRuns, WCompleting, _ => Some (System p m WIdle (wake_reader r) wr co)
  | CallCompleteWriter, WIdle, _ => Some (System (complete_writer p) m WCompleting r wr co)
  | CallRead min_size t, _, RIdle =>
      match read_at_least p min_size t with
      | Ret (p', st) => Some (System p' m w (reader_after min_size st) wr co)
      | _ => None
      end
  | ReaderRuns, _, RParked min_size t _ =>
      let '(p', st) := read_wait p min_size t in
      Some (System p' m w (reader_after min_size st) wr co)
  | ReaderRuns, _, RNotifying notify => Some (System p m (if notify then wake_writer w else w) RIdle wr co)
  | ReaderRuns, _, RCompleting => Some (System p m (wake_writer w) RIdle wr co)
  | CallAdvance consumed examined, _, RHolding res =>
      match advance p m consumed examined with
      | Ret (p', m', notify) => Some (System p' m' w (RNotifying notify) wr
          (co ++ take (Z.to_nat (sequence_offset consumed)) (view_bytes m (rr_buffer res))))
      | _ => None
      end
  | CallCompleteReader, _, (RIdle | RHolding _) => Some (System (complete_reader p) m w RCompleting wr co)
  | _, _, _ => None
  end.

Fixpoint exec_all (es : list event) (s : system) : option system :=
  match es with
  | [] => Some s
  | e :: es => s' ← exec e s; exec_all es s'
  end.

Lemma pipe_exec_step allow e s s' : event_allowed allow e -> exec e s = Some s' -> step allow s s'.
Proof.
  intros Ha E. destruct s as [p m w r wr co]. destruct e; cbn in Ha, E; repeat case_match; simplify_eq/=;
    destruct_and?; eauto 6 using step.
  all: match goal with
  | H : (len (w_data ?l) =? 0) = _, H' : w_notify ?l = _ |- step _ (System ?p ?m _ ?r ?wr ?co) _ =>
      pose proof (step_write_notifies allow p m r wr co l) as Hst; rewrite H, H' in Hst; exact Hst
  | |- step _ (System ?p ?m ?w (RNotifying ?b) ?wr ?co) _ => exact (step_advance_notifies allow p m w wr co b)
  end.
Qed.

Lemma pipe_exec_all_run allow es s s' :
  Forall (event_allowed allow) es -> exec_all es s = Some s' -> rtc (step allow) s s'.
Proof.
  intros Hes. revert s. induction Hes as [|e es He _ IH]; intros s E; cbn in E; [by simplify_eq|].
  destruct (exec e s) as [s1|] eqn:E1; [|done]. eapply rtc_l; [by eapply pipe_exec_step|by apply IH].
Qed.
End schedules.

(** ** Concrete runs *)
Section runs.

Lemma demo_fresh : fresh demo empty_memory.
Proof. split; [apply demo_ok|done..]. Qed.

Definition any_token (t : stop_token) : Prop := True.

(** A cancelled [write] returns from inside the lock and skips its
    notification: the reader stays parked, un-notified, in a read that could
    return bytes, with no one left to wake it. *)
Theorem cancelled_write_loses_wakeup :
  exists s, rtc (step any_token) (initial demo empty_memory) s /\
    s_writer s = WIdle /\ s_reader s = RParked 0 no_stop false /\
    data_available (s_pipeline s) 0 = true /\ s_written s = text "abcd".
Proof.
  destruct (exec_all [CallRead 0 no_stop; CallWrite (text "abcdefgh") (Some 2%nat); WriterRuns]
    (initial demo empty_memory)) as [s|] eqn:E; [|vm_compute in E; discriminate].
  exists s. split.
  - eapply pipe_exec_all_run; [|exact E]. by repeat constructor.
  - vm_compute in E. injection E as <-. by split_and!.
Qed.

(** The reader shows two segments to its caller while the writer appends. *)
Definition reading_schedule : list event :=
  [CallWrite (text "abcdef") no_stop; WriterRuns; WriterRuns; CallRead 0 no_stop;
   CallWrite (text "ghijklmnopqrstuvwxyz") (Some 3%nat); WriterRuns].

(** Writer and reader wait for each other: the reader examined everything
    and consumed nothing. *)
Definition examined_schedule : list event :=
  [CallWrite (text "abcdefghijklmnopqrst") no_stop; WriterRuns; WriterRuns; WriterRuns;
   CallRead 0 no_stop; CallAdvance (position_at 0) (position_at 16); ReaderRuns; CallRead 0 no_stop].

Definition after (es : list event) : system :=
  default (initial demo empty_memory) (exec_all es (initial demo empty_memory)).

Lemma stream_integrity_witness :
  (m_reader_completed (s_pipeline (after reading_schedule)) = false ->
    s_written (after reading_schedule) = s_consumed (after reading_schedule) ++
      content (s_pipeline (after reading_schedule)) (s_memory (after reading_schedule))) /\
  (forall r, s_reader (after reading_schedule) = RHolding r ->
    view_ok (s_memory (after reading_schedule)) (rr_buffer r) /\
    (s_consumed (after reading_schedule) ++ view_bytes (s_memory (after reading_schedule)) (rr_buffer r))
      `prefix_of` s_written (after reading_schedule)).
Proof.
  apply (stream_integrity any_token demo empty_memory (after reading_schedule) demo_fresh).
  apply (pipe_exec_all_run _ reading_schedule); [by repeat constructor|]. vm_compute. reflexivity.
Defined.

Lemma no_undefined_behaviour_witness :
  (forall l, s_writer (after examined_schedule) = WParked l false ->
    write_wait (s_pipeline (after examined_schedule)) (s_memory (after examined_schedule)) l ≠ Undef) /\
  (forall r, s_reader (after reading_schedule) = RHolding r ->
    Forall (valid_span (s_memory (after reading_schedule))) (ByteView.m_segments (rr_buffer r))) /\
  (exists m', destroy_pipeline (s_pipeline (after examined_schedule)) (s_memory (after examined_schedule)) = Ret m' /\
    m_blocks m' = ∅).
Proof.
  destruct (no_undefined_behaviour any_token demo empty_memory (after examined_schedule) demo_fresh) as (Hw & _ & _ & _ & Hd).
  { apply (pipe_exec_all_run _ examined_schedule); [by repeat constructor|]. vm_compute. reflexivity. }
  destruct (no_undefined_behaviour any_token demo empty_memory (after reading_schedule) demo_fresh) as (_ & _ & _ & Hr & _).
  { apply (pipe_exec_all_run _ reading_schedule); [by repeat constructor|]. vm_compute. reflexivity. }
  split_and!; [|exact Hr|exact Hd]. intros l E. by rewrite E in Hw.
Defined.

(** Two segments, full, and a snapshot of them held. *)
Lemma memory_bounded_witness :
  4 * len (m_segments (s_pipeline (after examined_schedule))) <= 16 /\
  m_actual_buffered_size (s_pipeline (after examined_schedule)) =
    4 * len (m_segments (s_pipeline (after examined_schedule))).
Proof.
  destruct (memory_bounded any_token demo empty_memory (after examined_schedule) demo_fresh) as [Hb Hc].
  - apply (pipe_exec_all_run _ examined_schedule); [by repeat constructor|]. vm_compute. reflexivity.
  - split; [exact Hb|]. by apply Hc.
Defined.

Lemma no_lost_wakeup_witness :
  (forall min_size t, s_reader (after examined_schedule) = RParked min_size t false ->
    data_available (s_pipeline (after examined_schedule)) min_size = false \/
    reader_notification_pending (s_writer (after examined_schedule)) = true) /\
  (forall l, s_writer (after examined_schedule) = WParked l false ->
    m_writer_paused (s_pipeline (after examined_schedule)) = true \/
    writer_notification_pending (s_reader (after examined_schedule)) = true).
Proof.
  apply (no_lost_wakeup demo empty_memory (after examined_schedule) demo_fresh).
  apply (pipe_exec_all_run _ examined_schedule); [by repeat constructor|]. vm_compute. reflexivity.
Defined.

Lemma deadlock_needs_examined_bytes_witness :
  0 < m_examined_size (s_pipeline (after examined_schedule)).
Proof.
  apply (deadlock_needs_examined_bytes demo empty_memory (after examined_schedule)
    (WriteLocals (text "qrst") 16 no_stop false) no_stop demo_fresh).
  - by split.
  - apply (pipe_exec_all_run _ examined_schedule); [by repeat constructor|]. vm_compute. reflexivity.
  - vm_compute. reflexivity.
  - vm_compute. reflexivity.
Defined.
End runs.
