(* ===== verification/PipelineSpec.v ===== *)
(** What a pipeline shared by a writer's and a reader's thread is to them: one
    bounded run of bytes.  Segments, buffers and their allocator, the locks,
    the waiting and the rounds in which a long [write] copies are not
    observable: the steps of PipelineSystem.v refine this specification. *)

From S2P Require Import Prelude Memory Position ByteView Resource Pools Segment Pipeline PipelineProofs PipelineSystem.

(** ** The specification *)

(** [bp_limit] bounds the bytes in the pipe, [bp_shown] is the length of the
    snapshot the reader holds. *)
Record byte_pipe := BytePipe {
  bp_limit : Z;
  bp_bytes : bytes;
  bp_examined : Z;
  bp_shown : option Z;
  bp_writer_closed : bool;
  bp_reader_closed : bool
}.

Definition empty_pipe (limit : Z) : byte_pipe := BytePipe limit [] 0 None false false.

Inductive pipe_action :=
  | Append (data : bytes)
  | Show (min_size : Z) (data : bytes) (completed : bool) (* a read delivers *)
  | Consume (data : bytes) (examined : Z)                 (* an advance *)
  | CloseWriter
  | CloseReader.

(** What a read waits for. *)
Definition ready (min_size : Z) (p : byte_pipe) : bool :=
  bp_writer_closed p
  || ((len (bp_bytes p) >? bp_examined p) && ((min_size =? 0) || (len (bp_bytes p) >=? min_size))).

Inductive pipe_exec : pipe_action -> byte_pipe -> byte_pipe -> Prop :=
  | exec_append limit data b e s :
      data ≠ [] -> len (b ++ data) <= limit ->
      pipe_exec (Append data) (BytePipe limit b e s false false) (BytePipe limit (b ++ data) e s false false)
  | exec_show limit min_size b e wc :
      ready min_size (BytePipe limit b e None wc false) = true ->
      pipe_exec (Show min_size b wc) (BytePipe limit b e None wc false) (BytePipe limit b e (Some (len b)) wc false)
  | exec_consume limit data rest e n examined wc :
      len data <= examined <= n -> n <= len (data ++ rest) ->
      pipe_exec (Consume data examined) (BytePipe limit (data ++ rest) e (Some n) wc false)
        (BytePipe limit rest (examined - len data) None wc false)
  | exec_close_writer limit b e s wc rc :
      pipe_exec CloseWriter (BytePipe limit b e s wc rc) (BytePipe limit b e s true rc)
  | exec_close_reader limit b e s wc rc :
      pipe_exec CloseReader (BytePipe limit b e s wc rc) (BytePipe limit [] 0 None wc true).

Inductive pipe_run : list pipe_action -> byte_pipe -> byte_pipe -> Prop :=
  | run_nil p : pipe_run [] p p
  | run_cons a actions p p1 p2 :
      pipe_exec a p p1 -> pipe_run actions p1 p2 -> pipe_run (a :: actions) p p2.

Definition appended (actions : list pipe_action) : bytes :=
  concat (map (fun a => match a with Append data => data | _ => [] end) actions).
Definition consumed (actions : list pipe_action) : bytes :=
  concat (map (fun a => match a with Consume data _ => data | _ => [] end) actions).

(** ** The refinement *)
Section refinement.
Context {R : Type} `{ResourceLaws R}.

Definition pipe_of (p : pipeline R) (m : memory) : byte_pipe :=
  if m_reader_completed p then BytePipe (m_pause_writer_threshold p) [] 0 None (m_writer_completed p) true
  else
    BytePipe (m_pause_writer_threshold p) (content p m) (m_examined_size p)
      (if m_has_pending_read p then Some (m_pending_read_size p) else None) (m_writer_completed p) false.

(** The size that the read which an event runs was called with. *)
Definition request (e : event) (s : @system R) : option Z :=
  match e, s_reader s with
  | CallRead min_size _, RIdle => Some min_size
  | ReaderRuns, RParked min_size _ _ => Some min_size
  | _, _ => None
  end.

(** One step of the threads is at most one action of the pipe.  Only a read
    delivers, for its own request, and puts the action's bytes in the reader's
    view; a read that waits is not [ready]. *)
Record pipe_simulates (requested : option Z) (s s' : @system R) (actions : list pipe_action) : Prop := {
  ps_one : (length actions <= 1)%nat;
  ps_run : pipe_run actions (pipe_of (s_pipeline s) (s_memory s)) (pipe_of (s_pipeline s') (s_memory s'));
  ps_written : s_written s' = s_written s ++ appended actions;
  ps_consumed : s_consumed s' = s_consumed s ++ consumed actions;
  ps_shown : forall min_size data completed, Show min_size data completed ∈ actions ->
    requested = Some min_size /\
    exists r, s_reader s' = RHolding r /\ view_bytes (s_memory s') (rr_buffer r) = data /\ rr_completed r = completed;
  ps_answer : forall min_size, requested = Some min_size ->
    match s_reader s' with
    | RHolding r => exists data completed, Show min_size data completed ∈ actions
    | RParked min_size' _ _ => min_size' = min_size /\ ready min_size (pipe_of (s_pipeline s) (s_memory s)) = false
    | _ => True
    end
}.

Lemma pipe_simulates_nothing p m w r p' m' w' r' wr co :
  pipe_of p' m' = pipe_of p m -> pipe_simulates None (System p m w r wr co) (System p' m' w' r' wr co) [].
Proof.
  intros E. split; cbn; [lia| |by rewrite app_nil_r..|by intros ??? ?%elem_of_nil|done]. rewrite E. constructor.
Qed.

(** A read that is cancelled, or waits. *)
Lemma pipe_simulates_no_answer p m w r p' m' w' r' wr co min_size :
  pipe_of p' m' = pipe_of p m ->
  r' = RIdle \/ (exists t b, r' = RParked min_size t b) /\ ready min_size (pipe_of p m) = false ->
  pipe_simulates (Some min_size) (System p m w r wr co) (System p' m' w' r' wr co) [].
Proof.
  intros E Hr. split; cbn; [lia| |by rewrite app_nil_r..|by intros ??? ?%elem_of_nil|].
  - rewrite E. constructor.
  - intros ? [= <-]. by destruct Hr as [->|[(t & b & ->) Hr]].
Qed.

Lemma pipe_run_one a p p' : pipe_exec a p p' -> pipe_run [a] p p'.
Proof. intros Ha. econstructor; [exact Ha|constructor]. Qed.

Lemma write_section_simulates p m w r wr co l p' m' st :
  pipeline_ok p m -> is_size (w_copied l) -> is_any_completed p = false -> write_wait p m l = Ret (p', m', st) ->
  exists actions,
    pipe_simulates None (System p m w r wr co)
      (System p' m' (writer_after st) r (wr ++ reported l st) co) actions.
Proof.
  intros Hok Hc Ho Hrun. destruct (write_wait_ok p m l Hok Hc Ho) as (p1 & m1 & st1 & E & Hok' & Hfr & Hst).
  rewrite Hrun in E. injection E as <- <- <-.
  destruct (write_step_effect _ _ _ _ _ _ Hok Hc Hok' Hst) as [Hcont _].
  unfold is_any_completed in Ho. apply orb_false_iff in Ho as [Hw Hr].
  assert (pipe_of p' m' = BytePipe (m_pause_writer_threshold p) (content p m ++ reported l st) (m_examined_size p)
    (if m_has_pending_read p then Some (m_pending_read_size p) else None) false false) as E'.
  { unfold pipe_of. by rewrite (sf_pause _ _ Hfr), (sf_reader _ _ Hfr), (sf_writer _ _ Hfr), (sf_examined _ _ Hfr),
      (sf_has_pending _ _ Hfr), (sf_pending _ _ Hfr), Hw, Hr, Hcont. }
  destruct (decide (reported l st = [])) as [Hnil|Hne].
  - exists []. rewrite Hnil, app_nil_r in *. apply pipe_simulates_nothing. rewrite E'. unfold pipe_of. by rewrite Hw, Hr.
  - exists [Append (reported l st)]. split; cbn; [lia| |by rewrite app_nil_r..| |done].
    + apply pipe_run_one. rewrite E'. unfold pipe_of. rewrite Hw, Hr. constructor; [done|].
      rewrite <- Hcont, (content_len _ _ Hok'), <- (sf_pause _ _ Hfr). by apply (buffered_bound p' m').
    + by intros ??? [=]%list_elem_of_singleton.
Qed.

Lemma ready_available p m min_size :
  pipeline_ok p m -> m_reader_completed p = false -> m_has_pending_read p = false ->
  ready min_size (pipe_of p m) = data_available p min_size.
Proof.
  intros Hok Ho Hp. unfold pipe_of, ready, data_available. rewrite Ho, Hp. cbn.
  destruct (po_open _ _ Hok Ho) as (-> & _). by rewrite (content_len _ _ Hok).
Qed.

Lemma snapshot_simulates p m w r wr co p0 p' res min_size :
  pipeline_ok p m -> m_reader_completed p = false -> m_has_pending_read p = false ->
  pipe_of p0 m = pipe_of p m -> data_available p min_size = true -> snapshot_ok p m p' res ->
  pipe_simulates (Some min_size) (System p0 m w r wr co) (System p' m w (RHolding res) wr co)
    [Show min_size (content p m) (m_writer_completed p)].
Proof.
  intros Hok Ho Hp E0 Hd [-> Hcm _ _ Hb _ _]. split; cbn; [lia| |by rewrite app_nil_r..| |].
  - apply pipe_run_one. rewrite E0. rewrite <- (ready_available p m) in Hd by done.
    unfold pipe_of in *. cbn. rewrite Ho in *. rewrite Hp in *. by constructor.
  - intros ??? [= -> -> ->]%list_elem_of_singleton. split; [done|]. by exists res.
  - intros ? [= <-]. eexists _, _. by apply list_elem_of_singleton.
Qed.

(** Only a reader that holds a snapshot has a read pending. *)
Definition pending_ok (s : @system R) : Prop :=
  m_reader_completed (s_pipeline s) = false -> m_has_pending_read (s_pipeline s) = true ->
  exists r, s_reader s = RHolding r.

Lemma read_wait_simulates p m w r wr co p0 min_size t p' st :
  pipeline_ok p m -> m_reader_completed p = false -> m_has_pending_read p = false ->
  pipe_of p0 m = pipe_of p m -> read_wait p min_size t = (p', st) ->
  pending_ok (System p' m w (reader_after min_size st) wr co) /\
  exists actions,
    pipe_simulates (Some min_size) (System p0 m w r wr co) (System p' m w (reader_after min_size st) wr co) actions.
Proof.
  intros Hok Ho Hp E0 Hrun. destruct (read_wait_ok p m min_size t Hok) as (p1 & st1 & E & _ & Hst).
  rewrite Hrun in E. injection E as <- <-. unfold pending_ok. cbn.
  destruct st as [t'|res]; cbn [read_step_ok reader_after] in *.
  - destruct Hst as [-> Hd]. split; [by rewrite Hp|]. exists []. apply pipe_simulates_no_answer; [done|].
    right. split; [by eexists _, _|]. by rewrite E0, ready_available.
  - destruct (rr_cancelled res).
    + destruct Hst as [-> _]. cbn. split; [by rewrite Hp|]. exists []. apply pipe_simulates_no_answer; [done|by left].
    + destruct Hst as [Hd Hs]. split; [by exists res|].
      eexists. eapply (snapshot_simulates (set_reader_waiting false p) m w r wr co p0 p' res min_size); try done.
      by apply waiting_ok.
Qed.

Lemma advance_simulates p m w wr co r c e p' m' notify :
  system_ok (System p m w (RHolding r) wr co) -> position_ok c -> advance p m c e = Ret (p', m', notify) ->
  m_has_pending_read p' = false /\ exists actions,
    pipe_simulates None (System p m w (RHolding r) wr co)
      (System p' m' w (RNotifying notify) wr
         (co ++ take (Z.to_nat (sequence_offset c)) (view_bytes m (rr_buffer r)))) actions.
Proof.
  intros [Hok _ _ Hr _] Hpos Hrun. cbn in Hok, Hr. destruct Hr as [Hp Ho Hsz _ Hpre _], Hpos as [Hc _].
  change (0 <= sequence_offset c) in Hc.
  pose proof (advance_returns _ _ _ _ _ Hrun) as [Hce Hle].
  destruct (advance_ok p m c e) as (p1 & m1 & E & Hok' & Hfr & Hcont & _ & Hex & _ & Hpend & _); [done..|].
  rewrite Hrun in E. injection E as <- <- _.
  assert (len (view_bytes m (rr_buffer r)) <= len (content p m)) as Hlen.
  { unfold len. apply prefix_length in Hpre. lia. }
  assert (take (Z.to_nat (sequence_offset c)) (view_bytes m (rr_buffer r)) =
    take (Z.to_nat (sequence_offset c)) (content p m)) as Etake.
  { destruct Hpre as [rest ->]. rewrite take_app_le; [done|]. unfold len in *. lia. }
  assert (exists data rest, content p m = data ++ rest /\ len data = sequence_offset c /\
    take (Z.to_nat (sequence_offset c)) (content p m) = data /\ drop (Z.to_nat (sequence_offset c)) (content p m) = rest)
    as (data & rest & Ec & Hd & Et & Er).
  { eexists _, _. split; [symmetry; apply take_drop|]. split_and!; [|done|done].
    unfold len in *. rewrite length_take. lia. }
  split; [done|]. rewrite Etake, Et. exists [Consume data (sequence_offset e)]. split; cbn; [lia| |by rewrite app_nil_r..| |done].
  - apply pipe_run_one. unfold pipe_of.
    rewrite (af_pause _ _ Hfr), (af_reader _ _ Hfr), (af_writer _ _ Hfr), Ho, Hp, Hpend, Hcont, Hex, Er, Ec, <- Hd.
    constructor; [lia|]. rewrite <- Ec. lia.
  - by intros ??? [=]%list_elem_of_singleton.
Qed.

Lemma write_section_pending p m w r wr co l p' m' st w' wr' :
  pipeline_ok p m -> is_size (w_copied l) -> is_any_completed p = false -> write_wait p m l = Ret (p', m', st) ->
  pending_ok (System p m w r wr co) -> pending_ok (System p' m' w' r wr' co).
Proof.
  intros Hok Hc Ho Hrun Hpd. destruct (write_wait_ok p m l Hok Hc Ho) as (p1 & m1 & st1 & E & _ & Hfr & _).
  rewrite Hrun in E. injection E as <- <- <-. unfold pending_ok in *. cbn in *.
  by rewrite (sf_reader _ _ Hfr), (sf_has_pending _ _ Hfr).
Qed.

Lemma read_at_least_simulates p m w wr co min_size t p' st :
  system_ok (System p m w RIdle wr co) -> read_at_least p min_size t = Ret (p', st) ->
  let s' := System p' m w (reader_after min_size st) wr co in
  pending_ok s' /\ exists actions, pipe_simulates (Some min_size) (System p m w RIdle wr co) s' actions.
Proof.
  intros Hok Hrun. unfold read_at_least in Hrun. destruct (m_has_pending_read p) eqn:Hp; [done|].
  destruct (m_reader_completed p) eqn:Ho; [done|]. pose proof (sy_pipeline _ Hok) as Hpok. cbn in Hpok.
  destruct (m_writer_completed p) eqn:Ew; injection Hrun as Hrun.
  - destruct (read_finish_ok p m t Hpok) as (p1 & res & E & Hres). rewrite Hrun in E. injection E as -> ->.
    destruct (stop_requested t).1; cbn [reader_after].
    + destruct Hres as [-> ->]. cbn. split; [unfold pending_ok; cbn; by rewrite Hp|]. exists [].
      apply pipe_simulates_no_answer; [done|by left].
    + rewrite (sn_cancelled _ _ _ _ Hres). split; [intros _ _; by exists res|].
      eexists. eapply (snapshot_simulates p m w RIdle wr co p p1 res min_size); try done. unfold data_available. by rewrite Ew.
  - by apply (read_wait_simulates (set_reader_waiting true p) m w RIdle wr co p min_size t p' st (waiting_ok p m true Hpok)).
Qed.

Lemma writer_runs_simulates s s' :
  system_ok s -> pending_ok s -> exec WriterRuns s = Some s' ->
  pending_ok s' /\ exists actions, pipe_simulates None s s' actions.
Proof.
  intros Hok Hpd E. destruct s as [p m w r wr co]. pose proof (sy_pipeline _ Hok) as Hp. pose proof (sy_writer _ Hok) as Hw.
  assert (forall w' (wk : bool),
    pending_ok (System p m w' (if wk then wake_reader r else r) wr co) /\
    exists actions, pipe_simulates None (System p m w r wr co) (System p m w' (if wk then wake_reader r else r) wr co) actions)
    as Hnothing.
  { intros w' wk. split; [|exists []; by apply pipe_simulates_nothing].
    intros Ho Hpr. destruct (Hpd Ho Hpr) as [res Er]. cbn in Er. subst r. exists res. by destruct wk. }
  cbn in E, Hp, Hw. destruct w as [|data copied t|l woken|l|]; [done| | | |].
  - destruct (write_round p m data copied t) as [[[p' m'] st]|e|] eqn:Hrun; [|injection E as <-|done].
    2: by apply (Hnothing WIdle false).
    injection E as <-. destruct Hw as [Hd Hc]. unfold write_round in Hrun. destruct (is_any_completed p) eqn:Ho; [done|].
    split; [by apply (write_section_pending p m (WReady data copied t) r wr co (WriteLocals data copied t false) p' m' st)|].
    by apply (write_section_simulates p m (WReady data copied t) r wr co (WriteLocals data copied t false) p' m' st).
  - destruct (write_wait p m l) as [[[p' m'] st]|e|] eqn:Hrun; [|injection E as <-|done].
    2: by apply (Hnothing WIdle false).
    injection E as <-. destruct Hw as (Hd & Hc & Hn). destruct (is_any_completed p) eqn:Ho.
    { rewrite write_wait_completed in Hrun; [done..|by apply (sy_completed _ Hok)|done]. }
    split; [by apply (write_section_pending p m (WParked l woken) r wr co l p' m' st)|].
    by apply (write_section_simulates p m (WParked l woken) r wr co l p' m' st).
  - injection E as <-. apply Hnothing.
  - injection E as <-. apply (Hnothing WIdle true).
Qed.

Lemma reader_runs_simulates s s' :
  system_ok s -> pending_ok s -> exec ReaderRuns s = Some s' ->
  pending_ok s' /\ exists actions, pipe_simulates (request ReaderRuns s) s s' actions.
Proof.
  intros Hok Hpd E. destruct s as [p m w r wr co].
  destruct r as [|min_size t woken|res|notify|]; cbn in E; try (by destruct w).
  - assert (Some (let '(p', st) := read_wait p min_size t in System p' m w (reader_after min_size st) wr co) = Some s') as E'.
    { destruct (read_wait p min_size t). by destruct w. }
    clear E. destruct (read_wait p min_size t) as [p' st] eqn:Hrun. injection E' as <-.
    pose proof (sy_reader _ Hok) as [_ Ho]. cbn in Ho.
    assert (m_has_pending_read p = false) as Hp.
    { destruct (m_has_pending_read p) eqn:Hp; [|done]. by destruct (Hpd Ho Hp). }
    by apply (read_wait_simulates p m w _ wr co p min_size t p' st (sy_pipeline _ Hok)).
  - assert (s' = System p m (if notify then wake_writer w else w) RIdle wr co) as -> by (destruct w; congruence).
    split; [|exists []; by apply pipe_simulates_nothing]. intros Ho Hp. by destruct (Hpd Ho Hp).
  - assert (s' = System p m (wake_writer w) RIdle wr co) as -> by (destruct w; congruence).
    split; [|exists []; by apply pipe_simulates_nothing]. intros Ho Hp. by destruct (Hpd Ho Hp).
Qed.

Lemma pipe_event_simulates allow e s s' :
  system_ok s -> pending_ok s -> event_allowed allow e -> exec e s = Some s' ->
  pending_ok s' /\ exists actions, pipe_simulates (request e s) s s' actions.
Proof.
  intros Hok Hpd Ha E. destruct s as [p m w r wr co]. destruct e as [data t| | |min_size t| |consumed examined|].
  - cbn in E. destruct w; try done. injection E as <-. split; [exact Hpd|]. exists []. by apply pipe_simulates_nothing.
  - by apply writer_runs_simulates.
  - cbn in E. destruct w; try done. injection E as <-. split; [exact Hpd|]. exists [CloseWriter].
    split; cbn; [lia| |by rewrite app_nil_r..|by intros ??? [=]%list_elem_of_singleton|done].
    apply pipe_run_one. unfold pipe_of, complete_writer. cbn. destruct (m_reader_completed p); constructor.
  - destruct r; try (by destruct w). cbn in E.
    destruct (read_at_least p min_size t) as [[p' st]| |] eqn:Hrun; [|by destruct w..].
    assert (s' = System p' m w (reader_after min_size st) wr co) as -> by (destruct w; congruence).
    by eapply read_at_least_simulates.
  - by apply reader_runs_simulates.
  - destruct r as [| |res| |]; try (by destruct w). cbn in E, Ha.
    destruct (advance p m consumed examined) as [[[p' m'] notify]| |] eqn:Hrun; [|by destruct w..].
    match type of E with context [Some ?x] => assert (s' = x) as -> by (destruct w; congruence) end.
    destruct (advance_simulates p m w wr co res consumed examined p' m' notify Hok (proj1 Ha) Hrun)
      as [Hp Hx]. split; [|exact Hx]. intros _ Hp'. cbn in Hp'. congruence.
  - assert (s' = System (complete_reader p) m w RCompleting wr co) as -> by (cbn in E; destruct w, r; congruence).
    split; [done|]. exists [CloseReader].
    split; cbn; [lia| |by rewrite app_nil_r..|by intros ??? [=]%list_elem_of_singleton|done].
    apply pipe_run_one. unfold pipe_of, complete_reader. cbn. destruct (m_reader_completed p); constructor.
Qed.

(** The events are the steps. *)
Lemma pipe_step_event allow s s' : step allow s s' -> exists e, event_allowed allow e /\ exec e s = Some s'.
Proof.
  intros Hstep. pipe_step_cases Hstep.
  - by exists (CallWrite data t).
  - exists WriterRuns. cbn. by rewrite Hrun.
  - exists WriterRuns. cbn. by rewrite Hrun.
  - exists WriterRuns. cbn. by rewrite Hrun.
  - exists WriterRuns. cbn. by rewrite Hrun.
  - by exists WriterRuns.
  - by exists CallCompleteWriter.
  - by exists WriterRuns.
  - exists (CallRead min_size t). cbn. rewrite Hrun. by destruct w.
  - exists ReaderRuns. cbn. rewrite Hrun. by destruct w.
  - exists (CallAdvance consumed examined). cbn. rewrite Hrun. by destruct w.
  - exists ReaderRuns. cbn. by destruct w.
  - exists CallCompleteReader. cbn. destruct Hr as [->|[res ->]]; by destruct w.
  - exists ReaderRuns. cbn. by destruct w.
Qed.

Lemma pipe_run_app as1 as2 q q1 q2 : pipe_run as1 q q1 -> pipe_run as2 q1 q2 -> pipe_run (as1 ++ as2) q q2.
Proof. intros H1 H2. induction H1; [done|]. econstructor; [done|by apply IHpipe_run]. Qed.

(** A run of the threads is a run of the pipe, with the same bytes in and out. *)
Definition pipe_refined (limit : Z) (s : @system R) : Prop :=
  exists actions, pipe_run actions (empty_pipe limit) (pipe_of (s_pipeline s) (s_memory s)) /\
    s_written s = appended actions /\ s_consumed s = consumed actions.

Lemma pipe_refined_step limit requested s s' actions : pipe_refined limit s -> pipe_simulates requested s s' actions -> pipe_refined limit s'.
Proof.
  intros (before & Hr & Hw & Hc) [_ Hrun Ew Ec _ _]. exists (before ++ actions). split; [by eapply pipe_run_app|].
  unfold appended, consumed in *. by rewrite Ew, Ec, Hw, Hc, !map_app, !concat_app.
Qed.

(** C2: under every interleaving and cancellation a pipeline is one bounded
    byte pipe: each step of the threads is an event (a call, or the next
    section of a thread), and each event is at most one action, appending
    bytes within the pause threshold while both ends are open, delivering to
    a read everything that is in the pipe, consuming bytes from the front, or
    closing an end.  An event delivers only when it runs a read, and then only
    when the pipe has what that read was called to wait for; a read that
    waits lacks it.  Every run of the threads is such a run of the pipe,
    which was given and has given up the same bytes. *)
Theorem pipeline_refines_pipe allow p m s
    (Hfresh : fresh p m) (Hnew : pipe_of p m = empty_pipe (m_pause_writer_threshold p))
    (Hrun : rtc (step allow) (initial p m) s) :
  pipe_refined (m_pause_writer_threshold p) s /\
  (forall s', step allow s s' -> exists e, event_allowed allow e /\ exec e s = Some s') /\
  (forall e s', event_allowed allow e -> exec e s = Some s' ->
    exists actions, pipe_simulates (request e s) s s' actions).
Proof.
  assert (system_ok s /\ pending_ok s /\ pipe_refined (m_pause_writer_threshold p) s) as (Hok & Hpd & Hr).
  { apply (rtc_invariant (step allow)
      (fun s => system_ok s /\ pending_ok s /\ pipe_refined (m_pause_writer_threshold p) s) (initial p m)); [|done|].
    - intros s1 s2 (Hok & Hpd & Hr) Hstep. destruct (pipe_step_event allow s1 s2 Hstep) as (e & He & E).
      destruct (pipe_event_simulates allow e s1 s2 Hok Hpd He E) as [Hpd' [actions Ha]].
      split_and!; [by eapply pipe_step_preserves|done|by eapply pipe_refined_step].
    - split_and!; [by apply pipe_initial_ok| |].
      + intros Ho Hp. unfold pipe_of in Hnew. cbn in Ho, Hp. by rewrite Ho, Hp in Hnew.
      + exists []. split; [|done]. cbn. rewrite Hnew. constructor. }
  split_and!; [done|intros s'; apply pipe_step_event|]. intros e s' He E.
  by destruct (pipe_event_simulates allow e s s' Hok Hpd He E).
Qed.
End refinement.

(** Two segments written, a second write begun, a read about to deliver. *)
Definition delivering_schedule : list event := take 3 reading_schedule.

(** A read of 7 bytes then waits, and one of 6 delivers. *)
Lemma pipeline_refines_pipe_witness :
  let s := after delivering_schedule in
  let s6 := default s (exec (CallRead 6 no_stop) s) in
  let s7 := default s (exec (CallRead 7 no_stop) s) in
  pipe_refined 16 s /\
  (exists actions, pipe_simulates (Some 6) s s6 actions /\ exists data completed, Show 6 data completed ∈ actions) /\
  ready 7 (pipe_of (s_pipeline s) (s_memory s)) = false.
Proof.
  destruct (pipeline_refines_pipe any_token demo empty_memory (after delivering_schedule) demo_fresh) as (Hr & _ & Hs).
  - by vm_compute.
  - apply (pipe_exec_all_run _ delivering_schedule); [by repeat constructor|]. vm_compute. reflexivity.
  - cbv zeta. split; [exact Hr|]. split.
    + destruct (Hs (CallRead 6 no_stop) (default (after delivering_schedule) (exec (CallRead 6 no_stop) (after delivering_schedule))))
        as [actions Ha]; [done|vm_compute; reflexivity|].
      exists actions. split; [exact Ha|]. pose proof (ps_answer _ _ _ _ Ha 6) as Hx. vm_compute in Hx. by apply Hx.
    + destruct (Hs (CallRead 7 no_stop) (default (after delivering_schedule) (exec (CallRead 7 no_stop) (after delivering_schedule))))
        as [actions Ha]; [done|vm_compute; reflexivity|].
      pose proof (ps_answer _ _ _ _ Ha 7) as Hx. vm_compute in Hx. by apply Hx.
Defined.
