(* ===== verification/PipelineEvents.v ===== *)
(** The events of PipelineSystem.v side by side: what the writer's leave
    alone for the reader, and the reader's for the writer.  Two programs run
    on a pipeline below: the threads of pipe_utils.h (PipeCopy.v) and the
    chat's connections (ConnectionSystem.v). *)

From S2P Require Import Prelude Memory Position ByteView Resource Pools Segment Pipeline PipelineProofs PipelineSystem.

Section events.
Context {R : Type} `{ResourceLaws R}.

(** ** The writer's events *)

Definition writer_event (e : event) : bool :=
  match e with CallWrite _ _ | WriterRuns | CallCompleteWriter => true | _ => false end.

Record writer_frame (s s' : @system R) : Prop := {
  wf_consumed : s_consumed s' = s_consumed s;
  wf_written : s_written s `prefix_of` s_written s';
  wf_content : content (s_pipeline s) (s_memory s) `prefix_of` content (s_pipeline s') (s_memory s');
  wf_examined : m_examined_size (s_pipeline s') = m_examined_size (s_pipeline s);
  wf_reader_completed : m_reader_completed (s_pipeline s') = m_reader_completed (s_pipeline s);
  wf_has_pending : m_has_pending_read (s_pipeline s') = m_has_pending_read (s_pipeline s);
  wf_reader : s_reader s' = s_reader s \/ s_reader s' = wake_reader (s_reader s)
}.

Lemma write_wait_frame p m w r wr co l p' m' st :
  system_ok (System p m w r wr co) -> w_data l ≠ [] -> is_size (w_copied l) -> is_any_completed p = false ->
  write_wait p m l = Ret (p', m', st) ->
  writer_frame (System p m w r wr co) (System p' m' (writer_after st) r (wr ++ reported l st) co).
Proof.
  intros Hok Hd Hc Ho Hrun. destruct (write_wait_ok p m l (sy_pipeline _ Hok) Hc Ho) as (p1 & m1 & st1 & E & Hok' & Hfr & Hst).
  rewrite Hrun in E. injection E as <- <- <-.
  destruct (write_step_effect _ _ _ _ _ _ (sy_pipeline _ Hok) Hc Hok' Hst) as [Hcont _].
  split; cbn; try done; [by apply prefix_app_r|by rewrite Hcont; apply prefix_app_r|apply Hfr..|by left].
Qed.

Lemma writer_event_frame e s s' :
  system_ok s -> writer_event e = true -> exec e s = Some s' -> writer_frame s s'.
Proof.
  intros Hok He E. destruct s as [p m w r wr co]. destruct e as [data t| | | | | |]; try done; cbn in E.
  - destruct w; try done. injection E as <-. split; cbn; (done || by left).
  - pose proof (sy_writer _ Hok) as Hw. cbn in Hw. destruct w as [|data copied t|l b|l|]; try done.
    + destruct (write_round p m data copied t) as [[[p' m'] st]| |] eqn:Er; [|injection E as <-; split; cbn; (done || by left)|done].
      injection E as <-. unfold write_round in Er. destruct (is_any_completed p) eqn:Ho; [done|].
      eapply (write_wait_frame p m _ r wr co (WriteLocals data copied t false)); [done|apply Hw|apply Hw|done|done].
    + destruct (write_wait p m l) as [[[p' m'] st]| |] eqn:Er; [|injection E as <-; split; cbn; (done || by left)|done].
      injection E as <-. destruct (is_any_completed p) eqn:Ho.
      { rewrite write_wait_completed in Er; [done|done|by apply (sy_completed _ Hok)|apply Hw]. }
      eapply write_wait_frame; [done|apply Hw|apply Hw|done|done].
    + injection E as <-. split; cbn; try done. destruct (w_notify l); [by right|by left].
    + injection E as <-. split; cbn; try done. by right.
  - destruct w; try done. injection E as <-. split; cbn; (done || by left).
Qed.

Lemma writer_event_step e s s' : writer_event e = true ->
  (forall data t, e = CallWrite data t -> data ≠ [] /\ t = no_stop) ->
  system_ok s -> exec e s = Some s' -> system_ok s'.
Proof.
  intros He Hd Hok E. apply (pipe_step_preserves (fun t => t = no_stop) s s' Hok), (pipe_exec_step _ e); [|done].
  destruct e; try done. cbn. by destruct (Hd data t eq_refl).
Qed.

Lemma other_event_step e s s' : event_allowed (fun t => t = no_stop) e ->
  system_ok s -> exec e s = Some s' -> system_ok s'.
Proof.
  intros He Hok E. exact (pipe_step_preserves (fun t => t = no_stop) s s' Hok (pipe_exec_step _ e s s' He E)).
Qed.

(** The view the reader works on shows the same bytes after the writer's step. *)
Lemma holding_stable s s' result :
  system_ok s -> system_ok s' -> writer_frame s s' -> s_reader s = RHolding result -> s_reader s' = RHolding result ->
  view_bytes (s_memory s') (rr_buffer result) = view_bytes (s_memory s) (rr_buffer result).
Proof.
  intros Hok Hok' Hf Hr Hr'. pose proof (sy_reader _ Hok) as Hh. rewrite Hr in Hh.
  pose proof (sy_reader _ Hok') as Hh'. rewrite Hr' in Hh'. cbn in Hh, Hh'.
  pose proof (wf_content _ _ Hf) as Hc. pose proof (ho_prefix _ _ _ Hh) as Hp. pose proof (ho_prefix _ _ _ Hh') as Hp'.
  pose proof (view_bytes_len _ _ (ho_view _ _ _ Hh)) as Hl. pose proof (view_bytes_len _ _ (ho_view _ _ _ Hh')) as Hl'.
  assert (view_bytes (s_memory s) (rr_buffer result) `prefix_of` content (s_pipeline s') (s_memory s')) as Hq by (by etrans).
  destruct Hp' as [y Ey], Hq as [z Ez]. rewrite Ey in Ez. apply app_inj_1 in Ez; [by destruct Ez|]. unfold len in *. lia.
Qed.

Lemma wake_holding r result : r = RHolding result -> wake_reader r = r.
Proof. by intros ->. Qed.

(** *** The bytes a writer has still to write *)

Definition in_progress (w : writer_state) : bytes :=
  match w with
  | WReady data _ _ => data
  | WParked l _ => w_data l
  | WNotifying l => w_data l
  | _ => []
  end.

(** A writer that nothing cancels. *)
Definition steady (w : writer_state) : Prop :=
  match w with
  | WReady _ _ t => t = no_stop
  | WParked l _ => w_token l = no_stop
  | WNotifying l => w_token l = no_stop
  | _ => True
  end.

Lemma write_wait_progress p m l p' m' st :
  pipeline_ok p m -> is_size (w_copied l) -> is_any_completed p = false -> w_token l = no_stop ->
  write_wait p m l = Ret (p', m', st) ->
  reported l st ++ in_progress (writer_after st) = w_data l /\ steady (writer_after st).
Proof.
  intros Hok Hc Ho Ht Hrun. destruct (write_wait_ok p m l Hok Hc Ho) as (p1 & m1 & st1 & E & Hok' & _ & Hst).
  rewrite Hrun in E. injection E as <- <- <-.
  destruct (write_step_effect _ _ _ _ _ _ Hok Hc Hok' Hst) as [Hcont _].
  destruct st as [l'|c|l']; cbn [write_step_ok writer_after in_progress steady] in *.
  - destruct Hst as (_ & _ & _ & _ & -> & _ & _ & Ht'). split; [done|by apply Ht'].
  - by destruct Hst as [? _].
  - destruct Hst as (_ & _ & k & W). split; [|by apply (wp_token _ _ _ _ _ _ _ W)].
    rewrite (wp_content _ _ _ _ _ _ _ W) in Hcont. apply app_inv_head in Hcont.
    by rewrite <- Hcont, (wp_data _ _ _ _ _ _ _ W), take_drop.
Qed.

(** The writer's sections move bytes from those to be written to those
    written; only a completed reader makes [write] throw. *)
Lemma writer_runs_progress s s' :
  system_ok s -> steady (s_writer s) ->
  (m_writer_completed (s_pipeline s) = true -> in_progress (s_writer s) = []) ->
  exec WriterRuns s = Some s' ->
  (m_reader_completed (s_pipeline s) = false ->
    s_written s' ++ in_progress (s_writer s') = s_written s ++ in_progress (s_writer s)) /\
  steady (s_writer s') /\
  m_writer_completed (s_pipeline s') = m_writer_completed (s_pipeline s) /\
  (m_writer_completed (s_pipeline s) = true ->
    in_progress (s_writer s') = [] /\ s_pipeline s' = s_pipeline s /\ s_memory s' = s_memory s).
Proof.
  intros Hok Ht Ho E. destruct s as [p m w r wr co]. pose proof (sy_writer _ Hok) as Hw.
  assert (forall l p' m' st, w_data l ≠ [] -> in_progress w = w_data l -> is_size (w_copied l) -> w_token l = no_stop ->
    is_any_completed p = false -> write_wait p m l = Ret (p', m', st) ->
    (wr ++ reported l st) ++ in_progress (writer_after st) = wr ++ in_progress w /\ steady (writer_after st) /\
    m_writer_completed p' = m_writer_completed p /\ m_writer_completed p = false) as Hsec.
  { intros l p' m' st Hd Ep Hc Hl Ha Hrun.
    destruct (write_wait_progress p m l p' m' st (sy_pipeline _ Hok) Hc Ha Hl Hrun) as [Ed Hs].
    split; [by rewrite <- app_assoc, Ed, Ep|]. split; [done|].
    destruct (write_wait_ok p m l (sy_pipeline _ Hok) Hc Ha) as (p1 & m1 & st1 & E1 & _ & Hfr & _).
    rewrite Hrun in E1. injection E1 as <- <- <-. split; [apply Hfr|]. by apply orb_false_iff in Ha as [? _]. }
  assert (forall l, w_data l ≠ [] -> in_progress w = w_data l -> is_size (w_copied l) -> w_token l = no_stop ->
    match (if is_any_completed p then None else
      match write_wait p m l with Ret x => Some x | _ => None end) with
    | Some (p', m', st) => Some (System p' m' (writer_after st) r (wr ++ reported l st) co)
    | None => Some (System p m WIdle r wr co)
    end = Some s' ->
    (m_reader_completed p = false -> s_written s' ++ in_progress (s_writer s') = wr ++ in_progress w) /\
    steady (s_writer s') /\ m_writer_completed (s_pipeline s') = m_writer_completed p /\
    (m_writer_completed p = true ->
      in_progress (s_writer s') = [] /\ s_pipeline s' = p /\ s_memory s' = m)) as Hrun.
  { intros l Hd Ep Hc Hl Er. destruct (is_any_completed p) eqn:Ha.
    - injection Er as <-. split_and!; cbn; try done. intros Hr. unfold is_any_completed in Ha. rewrite Hr, orb_false_r in Ha.
      cbn in Ho. assert (in_progress w = []) as -> by by apply Ho. done.
    - destruct (write_wait_ok p m l (sy_pipeline _ Hok) Hc Ha) as (p' & m' & st & E1 & _). rewrite E1 in Er.
      injection Er as <-. destruct (Hsec l p' m' st Hd Ep Hc Hl eq_refl E1) as (H1 & H2 & H3 & H4).
      split_and!; cbn; [done..|]. congruence. }
  cbn in Ho, E, Hw, Ht. destruct w as [|data copied t|l b|l|]; try done; cbn [in_progress steady writer_ok] in *.
  - destruct Hw. apply (Hrun (WriteLocals data copied t false)); try done. rewrite <- E. unfold write_round.
    destruct (is_any_completed p) eqn:Ha; [done|].
    by destruct (write_wait_ok p m (WriteLocals data copied t false) (sy_pipeline _ Hok)) as (? & ? & ? & -> & _).
  - destruct Hw as (Hd & Hc & Hn). apply (Hrun l); try done. rewrite <- E. destruct (is_any_completed p) eqn:Ha.
    + by rewrite (write_wait_completed p m l Ha (sy_completed _ Hok Ha) Hd).
    + by destruct (write_wait_ok p m l (sy_pipeline _ Hok) Hc Ha) as (? & ? & ? & -> & _).
  - injection E as <-. cbn. destruct (Z.eqb_spec (len (w_data l)) 0) as [E0|_]; [|by split_and!; auto].
    apply len_nil_iff in E0. by rewrite E0; split_and!.
  - injection E as <-. by split_and!.
Qed.

(** ** The reader's events *)

Record reader_frame (s s' : @system R) : Prop := {
  rf_written : s_written s' = s_written s;
  rf_progress : in_progress (s_writer s') = in_progress (s_writer s);
  rf_steady : steady (s_writer s) -> steady (s_writer s');
  rf_completed : m_writer_completed (s_pipeline s') = m_writer_completed (s_pipeline s);
  rf_open : m_reader_completed (s_pipeline s') = false -> m_reader_completed (s_pipeline s) = false;
  rf_shown : forall r, s_reader s' = RHolding r ->
    s_reader s = RHolding r /\ s_pipeline s' = s_pipeline s /\ s_memory s' = s_memory s \/
    view_bytes (s_memory s') (rr_buffer r) = content (s_pipeline s') (s_memory s') /\
    rr_completed r = m_writer_completed (s_pipeline s')
}.

Lemma wake_writer_progress w : in_progress (wake_writer w) = in_progress w /\ (steady w -> steady (wake_writer w)).
Proof. by destruct w. Qed.

Lemma snapshot_frame p m w wr co p' res r :
  snapshot_ok p m p' res -> reader_frame (System p m w r wr co) (System p' m w (RHolding res) wr co).
Proof.
  intros [-> Hc _ _ Hb _ _]. split; cbn; try done. intros res' [= <-]. right. by split.
Qed.

Lemma read_wait_frame p m w wr co r p0 min_size t p' st :
  pipeline_ok p m -> m_writer_completed p = m_writer_completed p0 -> m_reader_completed p = m_reader_completed p0 ->
  read_wait p min_size t = (p', st) ->
  reader_frame (System p0 m w r wr co) (System p' m w (reader_after min_size st) wr co).
Proof.
  intros Hok Ew Er Hrun. destruct (read_wait_ok p m min_size t Hok) as (p1 & st1 & E & _ & Hst).
  rewrite Hrun in E. injection E as <- <-. destruct st as [t'|res]; cbn [read_step_ok reader_after] in *.
  - destruct Hst as [-> _]. split; cbn; (done || congruence).
  - destruct (rr_cancelled res); [destruct Hst as [-> _]; split; cbn; (done || congruence)|].
    destruct Hst as [_ [-> Hc _ _ Hb _ _]]. split; cbn; try (done || congruence).
    intros res' [= <-]. right. by split.
Qed.

Lemma reader_event_frame e s s' :
  system_ok s -> writer_event e = false -> event_allowed (fun _ => True) e -> exec e s = Some s' -> reader_frame s s'.
Proof.
  intros Hok He Ha E. destruct s as [p m w r wr co]. pose proof (sy_pipeline _ Hok) as Hp. cbn in Hp.
  destruct e as [| | |min_size t| |c x|]; try done; cbn in E.
  - destruct r; try done. destruct (read_at_least p min_size t) as [[p' st]| |] eqn:Er; try done. injection E as <-.
    unfold read_at_least in Er. destruct (m_has_pending_read p); [done|]. destruct (m_reader_completed p) eqn:Eo; [done|].
    destruct (m_writer_completed p); injection Er as Er.
    + destruct (read_finish_ok p m t Hp) as (p1 & res & E1 & Hres). rewrite Er in E1. injection E1 as -> ->.
      destruct (stop_requested t).1; cbn [reader_after]; [destruct Hres as [-> ->]; by split|].
      rewrite (sn_cancelled _ _ _ _ Hres). by eapply snapshot_frame.
    + by apply (read_wait_frame (set_reader_waiting true p) m w wr co RIdle p min_size t p' st (waiting_ok p m true Hp)).
  - destruct r as [|min_size t wk|res|notify|]; try done.
    + destruct (read_wait p min_size t) as [p' st] eqn:Er. injection E as <-. by eapply read_wait_frame.
    + injection E as <-. destruct (wake_writer_progress w). by split; cbn; destruct notify.
    + injection E as <-. destruct (wake_writer_progress w). by split.
  - destruct r as [| |res| |]; try done. destruct (advance p m c x) as [[[p' m'] notify]| |] eqn:Er; try done.
    injection E as <-. destruct (sy_reader _ Hok) as [Hpend Ho _ _ _ _]. cbn in Hpend, Ho.
    pose proof (advance_returns _ _ _ _ _ Er) as [Hce Hle]. destruct Ha as [[Hc _] _].
    destruct (advance_ok p m c x Hp) as (p1 & m1 & E1 & _ & Hfr & _); [done..|].
    rewrite Er in E1. injection E1 as <- <- _. split; cbn; try done; apply Hfr || by rewrite (af_reader _ _ Hfr).
  - destruct r; try done; injection E as <-; by split.
Qed.
(** A section of [read], which nothing cancels. *)
Inductive section_of_read (p : pipeline R) (m : memory) (p' : pipeline R) (st : read_step) : Prop :=
  | ReadParks : st = ReadSleeps no_stop -> p' = p \/ p' = set_reader_waiting true p -> section_of_read p m p' st
  | ReadSnapshot q result :
      st = ReadReturns result -> q = p \/ (exists b, q = set_reader_waiting b p) -> snapshot_ok q m p' result ->
      section_of_read p m p' st.

Lemma read_wait_section p m p' st :
  pipeline_ok p m -> read_wait p 0 no_stop = (p', st) -> section_of_read p m p' st.
Proof.
  intros Hok E. unfold read_wait in E. rewrite cv_return_no_stop in E. destruct (data_available p 0).
  - destruct (read_finish_ok (set_reader_waiting false p) m no_stop (waiting_ok p m false Hok)) as (p1 & r & E1 & Hr).
    rewrite E in E1. injection E1 as -> ->. eapply ReadSnapshot; [done| |exact Hr]. by right; exists false.
  - injection E as <- <-. by apply ReadParks; [|left].
Qed.

Lemma read_at_least_section p m p' st :
  pipeline_ok p m -> read_at_least p 0 no_stop = Ret (p', st) -> section_of_read p m p' st.
Proof.
  intros Hok E. unfold read_at_least in E. destruct (m_has_pending_read p); [done|].
  destruct (m_reader_completed p); [done|]. destruct (m_writer_completed p).
  - assert (read_finish p no_stop = (p', st)) as Ef by congruence.
    destruct (read_finish_ok p m no_stop Hok) as (p1 & r & E1 & Hr). rewrite Ef in E1. injection E1 as -> ->.
    eapply ReadSnapshot; [done|by left|exact Hr].
  - destruct (read_wait_section (set_reader_waiting true p) m p' st) as [-> [-> | ->]|q r -> Hq Hr];
      [by apply waiting_ok|congruence|apply ReadParks; [done|by right]..|].
    eapply ReadSnapshot; [done| |exact Hr]. right. destruct Hq as [->|[b ->]]; [by exists true|by exists b].
Qed.

(** *** Lines *)

(** No newline among the bytes examined and not consumed. *)
Definition no_line_examined (s : @system R) : Prop :=
  x0a ∉ take (Z.to_nat (m_examined_size (s_pipeline s))) (content (s_pipeline s) (s_memory s)).

Lemma no_line_examined_frame s s' :
  system_ok s -> m_reader_completed (s_pipeline s) = false -> writer_frame s s' ->
  no_line_examined s -> no_line_examined s'.
Proof.
  intros Hok Ho [_ _ [x Hx] Hex _ _ _]. unfold no_line_examined. rewrite Hex, Hx.
  destruct (po_open _ _ (sy_pipeline _ Hok) Ho) as (Eb & _ & He & _).
  rewrite <- (content_len _ _ (sy_pipeline _ Hok)) in Eb. rewrite take_app_le; [done|]. unfold len in *. lia.
Qed.
End events.
