(* ===== verification/PipeUtils.v ===== *)
(** [pipeline/pipe_utils.h]: the two threads that copy a file and a socket
    into a pipeline, as the calls they make on the [pipe_writer]. *)

From S2P Require Import Prelude System.

Inductive writer_call :=
  | WriterWrite (data : bytes)
  | WriterComplete.

Definition written_by (c : writer_call) : bytes :=
  match c with WriterWrite data => data | WriterComplete => [] end.
Definition all_written (calls : list writer_call) : bytes := concat (map written_by calls).

(** ** Files *)

(** [std::ifstream]: what it can still deliver before its end or an error.
    [read] delivers [n] bytes, or fewer and then sets [eofbit] or [badbit]
    together with [failbit]. *)
Definition stream_read (rest : bytes) (n : nat) : bytes * bytes * bool :=
  (take n rest, drop n rest, Nat.ltb (length rest) n).

(** One iteration of the loop: [inl] ends it. *)
Fixpoint copy_file_loop (fuel : nat) (chunkSize : nat) (rest : bytes) : option (list writer_call) :=
  match fuel with
  | O => None
  | S fuel =>
      let '(buffer, rest, failed) := stream_read rest chunkSize in
      let write := if len buffer >? 0 then [WriterWrite buffer] else [] in
      if failed then Some write
      else calls ← copy_file_loop fuel chunkSize rest; Some (write ++ calls)
  end.

(** The thread: [None] when the second [open] fails. *)
Definition copy_file_thread (opened : option bytes) (chunkSize : nat) : option (list writer_call) :=
  match opened with
  | None => Some [WriterComplete]
  | Some rest => calls ← copy_file_loop (S (length rest)) chunkSize rest; Some (calls ++ [WriterComplete])
  end.

(** [probe] tells whether the file can be opened at the call, [opened] what
    the thread gets when it opens it again. *)
Definition threaded_copy_file_from_path (probe : bool) (opened : option bytes) (chunkSize : Z)
    : outcome (option (list writer_call)) :=
  if chunkSize =? 0 then throw invalid_argument "chunk size must be greater than zero"
  else if negb probe then throw ios_failure "failed to open file"
  else Ret (copy_file_thread opened (Z.to_nat chunkSize)).

(** ** Sockets *)

(** The loop over [::recv], for the answers it gets: the calls and whether the
    thread ended. *)
Fixpoint copy_socket_loop (answers : list recv_result) : list writer_call * loop_state unit :=
  match answers with
  | [] => ([], LoopBlocked)
  | RecvData data :: answers =>
      if len data >? 0 then
        let '(calls, st) := copy_socket_loop answers in (WriterWrite data :: calls, st)
      else ([WriterComplete], LoopDone tt)
  | RecvError EINTR :: answers => copy_socket_loop answers
  | RecvError _ :: _ => ([WriterComplete], LoopDone tt)
  end.

Definition threaded_copy_from_socket (socketFd chunkSize : Z) (answers : list recv_result)
    : outcome (list writer_call * loop_state unit) :=
  if socketFd <? 0 then throw invalid_argument "socketFd must be a valid descriptor"
  else if chunkSize =? 0 then throw invalid_argument "chunk size must be greater than zero"
  else Ret (copy_socket_loop answers).

(** ** What the copies promise *)

Definition is_write (c : writer_call) : bool := match c with WriterWrite _ => true | _ => false end.

(** The data of the answers up to the one that ends the loop. *)
Fixpoint received (answers : list recv_result) : bytes :=
  match answers with
  | RecvData (x :: data) :: answers => x :: data ++ received answers
  | RecvError EINTR :: answers => received answers
  | _ => []
  end.

Definition ends_stream (r : recv_result) : bool :=
  match r with RecvData [] => true | RecvData _ => false | RecvError EINTR => false | RecvError _ => true end.

(** A write of at least one byte, and at most [n]. *)
Definition chunk (n : Z) (c : writer_call) : Prop :=
  match c with WriterWrite data => 1 <= len data <= n | WriterComplete => False end.

Lemma all_written_app l k : all_written (l ++ k) = all_written l ++ all_written k.
Proof. unfold all_written. by rewrite map_app, concat_app. Qed.

Lemma copy_file_loop_spec fuel n rest :
  (0 < n)%nat -> (length rest < fuel)%nat ->
  exists calls, copy_file_loop fuel n rest = Some calls /\ all_written calls = rest /\
    Forall (chunk (Z.of_nat n)) calls.
Proof.
  intros Hn. revert rest. induction fuel as [|fuel IH]; intros rest Hl; [lia|]. cbn [copy_file_loop stream_read].
  set (write := if len (take n rest) >? 0 then [WriterWrite (take n rest)] else []).
  assert (Hw : all_written write = take n rest /\ Forall (chunk (Z.of_nat n)) write).
  { unfold write. destruct (Z.gtb_spec (len (take n rest)) 0) as [H|H].
    - split; [by unfold all_written; cbn; rewrite app_nil_r|]. apply Forall_singleton. cbn. split; [lia|].
      unfold len. rewrite length_take. lia.
    - pose proof (len_nonneg (take n rest)). assert (len (take n rest) = 0) as ->%len_nil_iff by lia. by split. }
  destruct Hw as [Hw Hc]. destruct (Nat.ltb_spec (length rest) n) as [Hlt|Hge].
  - exists write. split_and!; [done| |done]. by rewrite Hw, take_ge by lia.
  - destruct (IH (drop n rest)) as (calls & -> & Ha & Hf); [rewrite length_drop; lia|].
    exists (write ++ calls). split_and!; [done| |by apply Forall_app]. by rewrite all_written_app, Hw, Ha, take_drop.
Qed.

Lemma copy_socket_loop_spec answers :
  let '(calls, st) := copy_socket_loop answers in
  exists writes,
    calls = writes ++ match st with LoopDone _ => [WriterComplete] | LoopBlocked => [] end /\
    Forall (fun c => is_write c = true /\ written_by c ≠ []) writes /\
    all_written writes = received answers /\
    (st = LoopDone tt <-> Exists (fun r => ends_stream r = true) answers).
Proof.
  induction answers as [|r answers IH]; cbn [copy_socket_loop].
  { exists []. split_and!; try done. split; [done|]. by intros ?%Exists_nil. }
  destruct r as [data|e].
  - destruct data as [|x data]; [exists []; split_and!; try done; split; [by left|done]|].
    replace (len (x :: data) >? 0) with true by (rewrite len_cons; pose proof (len_nonneg data); lia).
    destruct (copy_socket_loop answers) as [calls st]. destruct IH as (writes & -> & Hf & Ha & Hst).
    exists (WriterWrite (x :: data) :: writes). split_and!; [done|by constructor| |].
    + unfold all_written in *. cbn [map concat received written_by]. rewrite Ha. done.
    + rewrite Hst, Exists_cons. split; [by right|]. by intros [?|?].
  - destruct e; cbn [received ends_stream].
    + destruct (copy_socket_loop answers) as [calls st]. destruct IH as (writes & -> & Hf & Ha & Hst).
      exists writes. split_and!; try done. rewrite Hst, Exists_cons. split; [by right|]. by intros [?|?].
    + exists []. split_and!; try done. split; [by left|done].
    + exists []. split_and!; try done. split; [by left|done].
Qed.

(** ** Properties *)

(** Whatever the chunk size, the file thread ends, hands the writer the
    file in order and whole, in non-empty pieces of at most the chunk size,
    and completes it once, last, also when the file can no longer be opened. *)
Theorem copy_file_correct probe opened chunkSize (Hsize : 0 < chunkSize) (Hprobe : probe = true) :
  exists writes,
    threaded_copy_file_from_path probe opened chunkSize = Ret (Some (writes ++ [WriterComplete])) /\
    all_written writes = default [] opened /\ Forall (chunk chunkSize) writes.
Proof.
  unfold threaded_copy_file_from_path, copy_file_thread. subst probe.
  destruct (Z.eqb_spec chunkSize 0); [lia|]. destruct opened as [rest|]; [|by exists []].
  destruct (copy_file_loop_spec (S (length rest)) (Z.to_nat chunkSize) rest) as (calls & -> & Ha & Hf); [lia..|].
  exists calls. split_and!; [done..|]. by rewrite Z2Nat.id in Hf by lia.
Qed.

Lemma copy_file_correct_witness :
  threaded_copy_file_from_path true (Some (text "abcde")) 2 =
    Ret (Some [WriterWrite (text "ab"); WriterWrite (text "cd"); WriterWrite (text "e"); WriterComplete]) /\
  exists writes, threaded_copy_file_from_path true (Some (text "abcde")) 2 = Ret (Some (writes ++ [WriterComplete])) /\
    all_written writes = text "abcde".
Proof.
  split; [done|]. destruct (copy_file_correct true (Some (text "abcde")) 2 ltac:(lia) eq_refl) as (w & H1 & H2 & _).
  by exists w.
Defined.

(** The socket thread hands the writer everything received before the end
    of the stream or an error, in order, retrying interrupted calls, and
    completes the writer exactly when it ends, last; bad arguments are
    refused with [std::invalid_argument]. *)
Theorem copy_socket_correct socketFd chunkSize answers :
  match threaded_copy_from_socket socketFd chunkSize answers with
  | Ret (calls, st) =>
      0 <= socketFd /\ chunkSize ≠ 0 /\
      exists writes,
        calls = writes ++ match st with LoopDone _ => [WriterComplete] | LoopBlocked => [] end /\
        Forall (fun c => is_write c = true /\ written_by c ≠ []) writes /\
        all_written writes = received answers /\
        (st = LoopDone tt <-> Exists (fun r => ends_stream r = true) answers)
  | Throw e => exn_class e = invalid_argument /\ (socketFd < 0 \/ chunkSize = 0)
  | Undef => False
  end.
Proof.
  unfold threaded_copy_from_socket. destruct (Z.ltb_spec socketFd 0); [by split; [|left]|].
  destruct (Z.eqb_spec chunkSize 0); [by split; [|right]|].
  pose proof (copy_socket_loop_spec answers) as Hs. destruct (copy_socket_loop answers). by split_and!.
Qed.
