(* ===== verification/PipeCopy.v ===== *)
(** The threads of pipe_utils.h (PipeUtils.v) at work on a pipeline, with any
    reader at the other end: the steps are those of PipelineSystem.v, the
    writer's calls those of the copying thread, in its order. *)

From S2P Require Import Prelude Memory Position ByteView Resource Pools Segment Pipeline PipelineProofs PipelineSystem.
From S2P Require Import PipelineEvents PipeUtils.

Section copying.
Context {R : Type} `{ResourceLaws R}.

(** The calls the thread has still to make, and the pipeline. *)
Record copying := Copying { cp_calls : list writer_call; cp_system : @system R }.

Inductive copy_step : copying -> copying -> Prop :=
  | CopyWrite data calls s s' :
      exec (CallWrite data no_stop) s = Some s' -> copy_step (Copying (WriterWrite data :: calls) s) (Copying calls s')
  | CopyComplete calls s s' :
      exec CallCompleteWriter s = Some s' -> copy_step (Copying (WriterComplete :: calls) s) (Copying calls s')
  | CopyRuns calls s s' :
      exec WriterRuns s = Some s' -> copy_step (Copying calls s) (Copying calls s')
  | CopyReader calls s s' e :
      writer_event e = false -> event_allowed (fun _ => True) e -> exec e s = Some s' ->
      copy_step (Copying calls s) (Copying calls s').

(** The calls a copying thread makes: pieces, then the completion. *)
Definition copies (source : bytes) (calls : list writer_call) : Prop :=
  exists writes, calls = writes ++ [WriterComplete] /\ all_written writes = source /\
    Forall (fun c => is_write c = true /\ written_by c ≠ []) writes.

Record copying_ok (source : bytes) (c : copying) : Prop := {
  co_system : system_ok (cp_system c);
  co_steady : steady (s_writer (cp_system c));
  co_calls : if m_writer_completed (s_pipeline (cp_system c))
             then cp_calls c = [] /\ in_progress (s_writer (cp_system c)) = []
             else exists left, copies left (cp_calls c);
  co_stream : m_reader_completed (s_pipeline (cp_system c)) = false ->
    s_written (cp_system c) ++ in_progress (s_writer (cp_system c)) ++ all_written (cp_calls c) = source;
  co_shown : forall r, s_reader (cp_system c) = RHolding r -> rr_completed r = true ->
    m_writer_completed (s_pipeline (cp_system c)) = true /\
    view_bytes (s_memory (cp_system c)) (rr_buffer r) =
      content (s_pipeline (cp_system c)) (s_memory (cp_system c))
}.

Lemma copies_cons source c calls :
  copies source (c :: calls) ->
  c = WriterComplete /\ calls = [] /\ source = [] \/
  exists data left, c = WriterWrite data /\ data ≠ [] /\ copies left calls /\ source = data ++ left.
Proof.
  intros ([|w writes] & E & Ha & Hf); simplify_eq/=; [by left|]. apply Forall_cons in Hf as [[Hw Hne] Hf].
  right. destruct w as [data|]; [|done]. exists data, (all_written writes). split_and!; [done|done|by exists writes|done].
Qed.

Lemma copying_step_ok source c c' : copying_ok source c -> copy_step c c' -> copying_ok source c'.
Proof.
  intros [Hok Ht Hc Hs Hh] Hstep. destruct Hstep as [data calls s s' E|calls s s' E|calls s s' E|calls s s' e He Ha E];
    cbn [cp_calls cp_system] in *.
  - assert (m_writer_completed (s_pipeline s) = false) as Ew by (destruct (m_writer_completed _); [by destruct Hc|done]).
    rewrite Ew in Hc. destruct Hc as [left Hc]. apply copies_cons in Hc as [(? & _)|(d & l & [= <-] & Hd & Hc & ->)]; [done|].
    destruct s as [p m w r wr co]. destruct w; try done. cbn in E. injection E as <-. cbn in *.
    split; cbn; try done.
    + by apply (system_ok_writer _ (WReady data 0 no_stop) Hok).
    + rewrite Ew. by exists l.
  - assert (m_writer_completed (s_pipeline s) = false) as Ew by (destruct (m_writer_completed _); [by destruct Hc|done]).
    rewrite Ew in Hc. destruct Hc as [left Hc]. apply copies_cons in Hc as [(_ & -> & ->)|(d & l & ? & _)]; [|done].
    assert (system_ok s') as Hok' by by apply (writer_event_step CallCompleteWriter s).
    destruct s as [p m w r wr co]. destruct w; try done. cbn in E. injection E as <-. cbn in *.
    split; cbn; try done. intros r' Er Hr. destruct (Hh r' Er Hr). congruence.
  - assert (m_writer_completed (s_pipeline s) = true -> in_progress (s_writer s) = []) as Hw.
    { intros Ew. rewrite Ew in Hc. apply Hc. }
    assert (system_ok s') as Hok' by by apply (writer_event_step WriterRuns s).
    pose proof (writer_event_frame WriterRuns s s' Hok eq_refl E) as Hf.
    destruct (writer_runs_progress s s' Hok Ht Hw E) as (Hp & Ht' & Ew & Hw'). split; cbn; try done.
    + rewrite Ew. destruct (m_writer_completed (s_pipeline s)); [|done]. destruct Hc. split; [done|]. by apply Hw'.
    + rewrite (wf_reader_completed _ _ Hf). intros Ho. rewrite <- (Hs Ho), !(assoc_L (++)). by rewrite (Hp Ho).
    + intros r Er Hr. rewrite Ew. assert (s_reader s = RHolding r) as Er0.
      { destruct (wf_reader _ _ Hf) as [E0|E0]; rewrite E0 in Er; [done|]. by destruct (s_reader s). }
      destruct (Hh r Er0 Hr) as [Hdone Hv]. by destruct (Hw' Hdone) as (_ & -> & ->).
  - pose proof (reader_event_frame e s s' Hok He Ha E) as [Ew Ep Hst Ec Eo Hshown]. split; cbn.
    + exact (pipe_step_preserves _ s s' Hok (pipe_exec_step _ e s s' Ha E)).
    + by apply Hst.
    + by rewrite Ec, Ep.
    + intros Ho. rewrite Ew, Ep. apply Hs. by apply Eo.
    + intros r Er Hr. destruct (Hshown r Er) as [(Er0 & -> & ->)|[Hv Hd]]; [by apply Hh|]. split; [congruence|done].
Qed.

Lemma copying_initial_ok source calls p m :
  fresh p m -> m_writer_completed p = false -> copies source calls -> copying_ok source (Copying calls (initial p m)).
Proof.
  intros Hf Ho Hc. split; cbn; try done.
  - by apply pipe_initial_ok.
  - rewrite Ho. by exists source.
  - intros _. destruct Hc as (writes & -> & Ha & _). etrans; [apply (all_written_app writes)|]. by rewrite Ha, app_nil_r.
Qed.

Lemma chunks_copy n calls : Forall (chunk n) calls -> copies (all_written calls) (calls ++ [WriterComplete]).
Proof.
  intros Hf. exists calls. split_and!; [done|done|]. eapply Forall_impl; [exact Hf|]. intros [data|]; [|done].
  cbn. intros Hl. split; [done|]. intros ->. by destruct Hl.
Qed.

Lemma copy_file_copies file chunkSize calls :
  0 < chunkSize -> threaded_copy_file_from_path true (Some file) chunkSize = Ret (Some calls) -> copies file calls.
Proof.
  intros Hn E. unfold threaded_copy_file_from_path, copy_file_thread in E.
  destruct (Z.eqb_spec chunkSize 0); [lia|].
  destruct (copy_file_loop_spec (S (length file)) (Z.to_nat chunkSize) file) as (w & Ew & <- & Hf); [lia..|].
  rewrite Ew in E. injection E as <-. by eapply chunks_copy.
Qed.

(** C14: a file copied into a pipeline while anything reads from it: as long as
    the reader is open the bytes consumed, in the pipeline, being written and
    still to be written are the file, in order; and a reader shown the end
    has the whole file, what it consumed before and what it is shown. *)
Theorem file_reaches_reader file chunkSize p m calls c
    (Hfresh : fresh p m) (Hopen : m_writer_completed p = false) (Hsize : 0 < chunkSize)
    (Hcall : threaded_copy_file_from_path true (Some file) chunkSize = Ret (Some calls))
    (Hrun : rtc copy_step (Copying calls (initial p m)) c) :
  (m_reader_completed (s_pipeline (cp_system c)) = false ->
    s_consumed (cp_system c) ++ content (s_pipeline (cp_system c)) (s_memory (cp_system c)) ++
      in_progress (s_writer (cp_system c)) ++ all_written (cp_calls c) = file) /\
  (forall r, s_reader (cp_system c) = RHolding r -> rr_completed r = true ->
    s_consumed (cp_system c) ++ view_bytes (s_memory (cp_system c)) (rr_buffer r) = file).
Proof.
  assert (copying_ok file c) as [Hok _ Hc Hs Hshown].
  { eapply (rtc_invariant copy_step (copying_ok file)); [by apply copying_step_ok|exact Hrun|].
    apply copying_initial_ok; [done..|]. by eapply copy_file_copies. }
  assert (m_reader_completed (s_pipeline (cp_system c)) = false ->
    s_consumed (cp_system c) ++ content (s_pipeline (cp_system c)) (s_memory (cp_system c)) ++
      in_progress (s_writer (cp_system c)) ++ all_written (cp_calls c) = file) as Hall.
  { intros Ho. rewrite <- (Hs Ho), (sy_stream _ Hok Ho). by rewrite <- !(assoc_L (++)). }
  split; [exact Hall|]. intros r Er Hr. destruct (Hshown r Er Hr) as [Hd ->]. rewrite Hd in Hc. destruct Hc as [Ec Ep].
  pose proof (sy_reader _ Hok) as Hh. rewrite Er in Hh. rewrite <- (Hall (ho_open _ _ _ Hh)), Ec, Ep.
  by rewrite !app_nil_r.
Qed.

(** ** Schedules *)

Inductive copy_event := ThreadCalls | PipeRuns (e : event).

Definition copy_exec (e : copy_event) (c : copying) : option copying :=
  match e, cp_calls c with
  | ThreadCalls, WriterWrite data :: calls => Copying calls <$> exec (CallWrite data no_stop) (cp_system c)
  | ThreadCalls, WriterComplete :: calls => Copying calls <$> exec CallCompleteWriter (cp_system c)
  | ThreadCalls, [] => None
  | PipeRuns e, calls => Copying calls <$> exec e (cp_system c)
  end.

Fixpoint copy_exec_all (es : list copy_event) (c : copying) : option copying :=
  match es with
  | [] => Some c
  | e :: es => c' ← copy_exec e c; copy_exec_all es c'
  end.

(** The thread's own sections, and the events of the reader. *)
Definition copy_event_allowed (e : copy_event) : Prop :=
  match e with
  | ThreadCalls | PipeRuns WriterRuns => True
  | PipeRuns e => writer_event e = false /\ event_allowed (fun _ => True) e
  end.

Lemma copy_exec_step e c c' : copy_event_allowed e -> copy_exec e c = Some c' -> copy_step c c'.
Proof.
  intros Ha E. destruct c as [calls s]. destruct e as [|e]; cbn in E.
  - destruct calls as [|[data|] calls]; [done|..]; apply fmap_Some in E as (s' & E & ->); by constructor.
  - apply fmap_Some in E as (s' & E & ->).
    destruct e; try (by apply CopyRuns); destruct Ha as [Hw Ha]; by eapply CopyReader.
Qed.

Lemma copy_exec_all_run es c c' : Forall copy_event_allowed es -> copy_exec_all es c = Some c' -> rtc copy_step c c'.
Proof.
  intros Hes. revert c. induction Hes as [|e es He _ IH]; intros c E; cbn in E; [by simplify_eq|].
  destruct (copy_exec e c) as [c1|] eqn:E1; [|done]. eapply rtc_l; [by eapply copy_exec_step|by apply IH].
Qed.
End copying.

(** A file of six bytes, copied by pieces of four; the reader takes the first
    piece and then waits for the end. *)
Definition copy_schedule : list copy_event :=
  [ThreadCalls; PipeRuns WriterRuns; PipeRuns WriterRuns; PipeRuns (CallRead 0 no_stop);
   PipeRuns (CallAdvance (position_at 4) (position_at 4)); PipeRuns ReaderRuns;
   ThreadCalls; PipeRuns WriterRuns; PipeRuns WriterRuns; ThreadCalls; PipeRuns (CallRead 0 no_stop)].

Definition copy_calls : list writer_call := [WriterWrite (text "abcd"); WriterWrite (text "ef"); WriterComplete].

Definition copied : copying :=
  default (Copying [] (initial demo empty_memory)) (copy_exec_all copy_schedule (Copying copy_calls (initial demo empty_memory))).

Lemma file_reaches_reader_witness :
  (m_reader_completed (s_pipeline (cp_system copied)) = false ->
    s_consumed (cp_system copied) ++ content (s_pipeline (cp_system copied)) (s_memory (cp_system copied)) ++
      in_progress (s_writer (cp_system copied)) ++ all_written (cp_calls copied) = text "abcdef") /\
  (forall r, s_reader (cp_system copied) = RHolding r -> rr_completed r = true ->
    s_consumed (cp_system copied) ++ view_bytes (s_memory (cp_system copied)) (rr_buffer r) = text "abcdef").
Proof.
  apply (file_reaches_reader (text "abcdef") 4 demo empty_memory copy_calls copied demo_fresh); [done..| |].
  - vm_compute. reflexivity.
  - apply (copy_exec_all_run copy_schedule); [by repeat constructor|]. vm_compute. reflexivity.
Defined.
