(* ===== verification/LineReader.v ===== *)
(** Two threads over one pipeline, as the samples use it
    ([samples/pipeline.cpp], [samples/stdin.cpp]): a producer that writes lines
    and completes, and the main thread, which reads, takes the lines off the
    front of what it is shown, advances, and leaves when it is shown the end.

    What a program does with a line and how far it advances is the class
    [LineClient]; PipelineSample.v and StdinSample.v have the two instances.  A thread's next step is a
    function of the state; an exception that leaves a thread ends the
    process. *)

From S2P Require Import Prelude Memory Position ByteView Lines Resource Pools Segment Pipeline PipelineProofs PipelineSpace.
From S2P Require Import PipelineSystem PipelineEvents PipeUtils PipeCopy.

(** ** The client *)

(** [on_line] is the body of the inner loop, for the newline at a position;
    [consumed_to] the first argument of [advance]. *)
Class LineClient (A : Type) := {
  on_line : memory -> A -> segmented_byte_view -> position -> outcome (A * segmented_byte_view);
  consumed_to : segmented_byte_view -> position
}.

(** The body takes the line and its newline off the view, and what else it
    does depends on the bytes of the line; what is consumed is the finished
    lines, or everything. *)
Class LineClientLaws (A : Type) `{LineClient A} := {
  line_effect : A -> bytes -> outcome A;
  keeps_partial : bool;
  on_line_law m st sequence i :
    view_ok m sequence -> memchr (view_bytes m sequence) x0a = Some i ->
    exists sequence',
      on_line m st sequence (position_of m sequence x0a) =
        (st' ← line_effect st (take i (view_bytes m sequence)); Ret (st', sequence')) /\
      tail_of sequence sequence' (Z.of_nat (S i));
  line_effect_throws st line e : line_effect st line ≠ Throw e;
  consumed_law sequence :
    consumed_to sequence = if keeps_partial then view_begin sequence else view_end sequence
}.

(** Where [main] is. *)
Inductive main_phase :=
  | Reading                                                      (* before or inside [read] *)
  | Scanning (result : read_result) (sequence : segmented_byte_view)
  | Advancing (completed : bool)                                 (* [advance] has left its lock *)
  | Leaving                                                      (* out of the loop *)
  | Completing                                                   (* [complete] has left its lock *)
  | Joining                                                      (* the producer *)
  | Finished
  | Terminated.                                                  (* std::terminate *)

Section program.
Context {R A : Type} `{ResourceLaws R} `{LineClient A}.

Record program := Program {
  pg_copying : copying (R := R); (* the producer's calls to come, and the pipeline *)
  pg_phase : main_phase;
  pg_state : A
}.

Definition pg_system (c : program) : system := cp_system (pg_copying c).

Definition start (calls : list writer_call) (p : pipeline R) (m : memory) (st : A) : program :=
  Program (Copying calls (initial p m)) Reading st.

Definition terminate (c : program) : program := Program (pg_copying c) Terminated (pg_state c).

(** ** The producer *)

Definition write_throws (s : @system R) : bool :=
  match s_writer s with
  | WReady data copied t =>
      match write_round (s_pipeline s) (s_memory s) data copied t with Throw _ => true | _ => false end
  | WParked l _ => match write_wait (s_pipeline s) (s_memory s) l with Throw _ => true | _ => false end
  | _ => false
  end.

Definition producer_runs (e : event) (calls : list writer_call) (c : program) : option program :=
  s' ← exec e (pg_system c); Some (Program (Copying calls s') (pg_phase c) (pg_state c)).

(** The producer's next step; [spurious]: a wait may return without having
    been notified. *)
Definition producer_next (spurious : bool) (c : program) : option program :=
  let calls := cp_calls (pg_copying c) in
  let section := if write_throws (pg_system c) then Some (terminate c) else producer_runs WriterRuns calls c in
  match pg_phase c, s_writer (pg_system c), calls with
  | Terminated, _, _ => None
  | _, WIdle, [] => None
  | _, WIdle, WriterWrite data :: calls => producer_runs (CallWrite data no_stop) calls c
  | _, WIdle, WriterComplete :: calls => producer_runs CallCompleteWriter calls c
  | _, WParked _ woken, _ => if woken || spurious then section else None
  | _, _, _ => section
  end.

(** ** The main thread *)

Definition main_runs (e : event) (after : @system R -> main_phase) (c : program) : option program :=
  s' ← exec e (pg_system c); Some (Program (Copying (cp_calls (pg_copying c)) s') (after s') (pg_state c)).

(** A result is a view to work on; a cancelled one ends the loop. *)
Definition after_read (r : reader_state) : main_phase :=
  match r with
  | RHolding result => Scanning result (rr_buffer result)
  | RParked _ _ _ => Reading
  | _ => Leaving
  end.

Definition producer_done (c : program) : bool :=
  match s_writer (pg_system c), cp_calls (pg_copying c) with WIdle, [] => true | _, _ => false end.

Definition main_next (spurious : bool) (c : program) : option program :=
  let s := pg_system c in
  match pg_phase c with
  | Reading =>
      match s_reader s with
      | RIdle =>
          match read_at_least (s_pipeline s) 0 no_stop with
          | Throw _ => Some (terminate c)
          | _ => main_runs (CallRead 0 no_stop) (fun s' => after_read (s_reader s')) c
          end
      | RParked _ _ woken =>
          if woken || spurious then main_runs ReaderRuns (fun s' => after_read (s_reader s')) c else None
      | _ => None
      end
  | Scanning result sequence =>
      let pos := position_of (s_memory s) sequence x0a in
      if position_bool pos then
        match on_line (s_memory s) (pg_state c) sequence pos with
        | Ret (st, sequence) => Some (Program (pg_copying c) (Scanning result sequence) st)
        | Throw _ => Some (terminate c)
        | Undef => None
        end
      else
        match advance (s_pipeline s) (s_memory s) (consumed_to sequence) (view_end sequence) with
        | Throw _ => Some (terminate c)
        | _ => main_runs (CallAdvance (consumed_to sequence) (view_end sequence))
                 (fun _ => Advancing (rr_completed result)) c
        end
  | Advancing completed => main_runs ReaderRuns (fun _ => if completed then Leaving else Reading) c
  | Leaving => main_runs CallCompleteReader (fun _ => Completing) c
  | Completing => main_runs ReaderRuns (fun _ => Joining) c
  | Joining => if producer_done c then Some (Program (pg_copying c) Finished (pg_state c)) else None
  | Finished | Terminated => None
  end.

(** Either thread, in any order. *)
Inductive prog_step : program -> program -> Prop :=
  | ProgProducer spurious c c' : producer_next spurious c = Some c' -> prog_step c c'
  | ProgMain spurious c c' : main_next spurious c = Some c' -> prog_step c c'.

(** One schedule: [main] runs as long as it can, then the producer once. *)
Fixpoint run_program (n : nat) (c : program) : program :=
  match n with
  | O => c
  | S n =>
      match main_next false c, producer_next false c with
      | Some c', _ | None, Some c' => run_program n c'
      | None, None => c
      end
  end.

Lemma run_program_steps n c : rtc prog_step c (run_program n c).
Proof.
  revert c. induction n as [|n IH]; intros c; [done|]. cbn [run_program].
  destruct (main_next false c) eqn:Em; [eapply rtc_l; [by eapply ProgMain|done]|].
  destruct (producer_next false c) eqn:Ep; [eapply rtc_l; [by eapply ProgProducer|done]|done].
Qed.

(** ** The invariant *)

Context `{!LineClientLaws A}.

Fixpoint lines_effect (st : A) (lines : list bytes) : outcome A :=
  match lines with
  | [] => Ret st
  | line :: lines => st ← line_effect st line; lines_effect st lines
  end.

Lemma lines_effect_app st ls ks : lines_effect st (ls ++ ks) = (st ← lines_effect st ls; lines_effect st ks).
Proof.
  revert st. induction ls as [|l ls IH]; intros st; [done|]. cbn. destruct (line_effect st l); [|done..].
  apply IH.
Qed.

(** [st] is what the lines of [taken], which ends where a line does, make of
    [st0]. *)
Definition processed (st0 st : A) (taken : bytes) : Prop :=
  whole taken /\ lines_effect st0 (split_lines taken).1 = Ret st.

Definition between (s : @system R) : Prop :=
  m_reader_completed (s_pipeline s) = false /\ m_has_pending_read (s_pipeline s) = false.

(** The reader has seen all there is: what is left is no line. *)
Definition ended (source : bytes) (s : @system R) : Prop :=
  m_writer_completed (s_pipeline s) = true /\
  exists rest, source = s_consumed s ++ rest /\ (x0a ∉ rest).

Definition phase_ok (source : bytes) (st0 : A) (c : program) : Prop :=
  let s := pg_system c in
  let taken := processed st0 (pg_state c) (s_consumed s) in
  match pg_phase c with
  | Reading =>
      (s_reader s = RIdle \/ exists woken, s_reader s = RParked 0 no_stop woken) /\
      between s /\ taken /\ no_line_examined s
  | Scanning result sequence =>
      s_reader s = RHolding result /\ m_begin_offset (rr_buffer result) = 0 /\
      (keeps_partial = false -> whole (s_consumed s ++ view_bytes (s_memory s) (rr_buffer result))) /\
      exists k, tail_of (rr_buffer result) sequence k /\
        processed st0 (pg_state c) (s_consumed s ++ take (Z.to_nat k) (view_bytes (s_memory s) (rr_buffer result)))
  | Advancing completed =>
      (exists notify, s_reader s = RNotifying notify) /\ between s /\ taken /\ no_line_examined s /\
      (completed = true -> ended source s)
  | Leaving => s_reader s = RIdle /\ between s /\ taken /\ ended source s
  | Completing => s_reader s = RCompleting /\ taken /\ ended source s
  | Joining => s_reader s = RIdle /\ taken /\ ended source s
  | Finished => taken /\ ended source s /\ producer_done c = true
  | Terminated => False
  end.

(** A client that advances over everything relies on the writer never
    stopping within a line. *)
Record lines_only (c : program) : Prop := {
  lo_room : len (in_progress (s_writer (pg_system c))) + len (all_written (cp_calls (pg_copying c)))
            <= room (s_pipeline (pg_system c));
  lo_paused : m_writer_paused (s_pipeline (pg_system c)) = true -> in_progress (s_writer (pg_system c)) = [] /\
            all_written (cp_calls (pg_copying c)) = [];
  lo_written : whole (s_written (pg_system c));
  lo_progress : whole (in_progress (s_writer (pg_system c)));
  lo_calls : Forall (fun call => whole (written_by call)) (cp_calls (pg_copying c))
}.

Record prog_ok (source : bytes) (st0 : A) (c : program) : Prop := {
  pk_copying : copying_ok source (pg_copying c);
  pk_phase : phase_ok source st0 c;
  pk_lines : keeps_partial = false -> m_reader_completed (s_pipeline (pg_system c)) = false -> lines_only c
}.

(** *** The producer's steps *)

Lemma open_or_ended source st0 c :
  prog_ok source st0 c ->
  m_reader_completed (s_pipeline (pg_system c)) = false \/ m_writer_completed (s_pipeline (pg_system c)) = true.
Proof.
  intros [[Hok _ _ _ _] Hph _]. unfold phase_ok in Hph. pose proof (sy_reader _ Hok) as Hr.
  unfold pg_system in *. destruct (pg_phase c).
  2:{ destruct Hph as [E _]. rewrite E in Hr. left. apply Hr. }
  1,2: by left; apply Hph. all: right; destruct Hph; destruct_and?; unfold ended in *; by destruct_and?.
Qed.

(** The producer's sections neither throw nor go wrong. *)
Lemma section_returns source st0 c :
  prog_ok source st0 c -> s_writer (pg_system c) ≠ WIdle ->
  write_throws (pg_system c) = false /\ is_Some (exec WriterRuns (pg_system c)).
Proof.
  intros Hok Hni. pose proof (open_or_ended _ _ _ Hok) as Ho. destruct Hok as [[Hok _ Hc _ _] _ _].
  unfold pg_system in *. pose proof (sy_writer _ Hok) as Hw. unfold write_throws.
  destruct (cp_system (pg_copying c)) as [p m w r wr co]. cbn in *.
  assert (in_progress w ≠ [] -> is_any_completed p = false) as Hany.
  { intros Hne. unfold is_any_completed. destruct (m_writer_completed p); [by destruct Hc|]. by destruct Ho. }
  destruct w as [|data copied t|l b|l|]; try done; cbn in Hw, Hany.
  - destruct Hw as [Hd Hs]. specialize (Hany Hd). unfold write_round. rewrite Hany.
    by destruct (write_wait_ok p m (WriteLocals data copied t false) (sy_pipeline _ Hok) Hs Hany) as (? & ? & ? & -> & _).
  - destruct Hw as (Hd & Hs & _). specialize (Hany Hd).
    by destruct (write_wait_ok p m l (sy_pipeline _ Hok) Hs Hany) as (? & ? & ? & -> & _).
Qed.

Lemma producer_never_throws source st0 c : prog_ok source st0 c -> write_throws (pg_system c) = false.
Proof.
  intros Hok. assert (s_writer (pg_system c) = WIdle \/ s_writer (pg_system c) ≠ WIdle) as [E|Hni] by (destruct (s_writer _); auto).
  - unfold write_throws. by rewrite E.
  - by destruct (section_returns _ _ _ Hok Hni).
Qed.

(** The event of a producer's step, with the calls before and after. *)
Inductive producer_does : event -> list writer_call -> list writer_call -> Prop :=
  | DoesWrite data calls : producer_does (CallWrite data no_stop) (WriterWrite data :: calls) calls
  | DoesComplete calls : producer_does CallCompleteWriter (WriterComplete :: calls) calls
  | DoesRun calls : producer_does WriterRuns calls calls.

Lemma producer_does_copy e calls calls' s s' :
  producer_does e calls calls' -> exec e s = Some s' -> copy_step (Copying calls s) (Copying calls' s').
Proof. intros He E. destruct He; by constructor. Qed.

Lemma producer_event source st0 spurious c c' :
  prog_ok source st0 c -> producer_next spurious c = Some c' ->
  exists e calls s', producer_does e (cp_calls (pg_copying c)) calls /\ exec e (pg_system c) = Some s' /\
    c' = Program (Copying calls s') (pg_phase c) (pg_state c).
Proof.
  intros Hok E. unfold producer_next in E. rewrite (producer_never_throws source st0) in E by done.
  assert (forall e calls, producer_runs e calls c = Some c' ->
    exists s', exec e (pg_system c) = Some s' /\ c' = Program (Copying calls s') (pg_phase c) (pg_state c)) as Hrun.
  { intros e calls Er. unfold producer_runs in Er. destruct (exec e _) as [s'|]; [|done]. injection Er as <-. by exists s'. }
  assert (producer_runs WriterRuns (cp_calls (pg_copying c)) c = Some c' ->
    exists e calls s', producer_does e (cp_calls (pg_copying c)) calls /\ exec e (pg_system c) = Some s' /\
      c' = Program (Copying calls s') (pg_phase c) (pg_state c)) as Hsec.
  { intros (s' & Es & Ec)%Hrun. exists WriterRuns, (cp_calls (pg_copying c)), s'. split; [constructor|done]. }
  destruct (pg_phase c) eqn:Ep; try done;
    (destruct (s_writer (pg_system c)) as [| |l woken| |]; [|by apply Hsec|destruct (woken || spurious); [by apply Hsec|done]|by apply Hsec..];
     destruct (cp_calls (pg_copying c)) as [|[data|] calls]; [done|..];
     apply Hrun in E as (s' & Es & ->); do 3 eexists; (split; [constructor|by split])).
Qed.

(** *** Writes that never stop within their data *)

Lemma whole_section p m l p' m' st (more : bytes) :
  pipeline_ok p m -> is_size (w_copied l) -> is_any_completed p = false -> w_token l = no_stop ->
  w_data l ≠ [] -> len (w_data l) + len more <= room p -> m_writer_paused p = false ->
  write_wait p m l = Ret (p', m', st) ->
  reported l st = w_data l /\ in_progress (writer_after st) = [] /\
  len more <= room p' /\ (m_writer_paused p' = true -> more = []).
Proof.
  intros Hok Hc Ho Ht Hd Hroom Hp Hrun. pose proof (write_wait_progress p m l p' m' st Hok Hc Ho Ht Hrun) as [Erep _].
  destruct (write_wait_ok p m l Hok Hc Ho) as (p1 & m1 & st1 & E & Hok' & _ & Hst). rewrite Hrun in E. injection E as <- <- <-.
  pose proof (room_nonneg p' m' Hok') as Hr'. pose proof (len_nonneg more) as Hm.
  destruct st as [l'|k|l']; cbn [write_step_ok writer_after in_progress] in *.
  - destruct Hst as (_ & _ & Hp' & _). congruence.
  - by destruct Hst as [? _].
  - destruct Hst as (Hend & Hwhy & k & W). pose proof (wp_room _ _ _ _ _ _ _ W) as Hk.
    pose proof (wp_count _ _ _ _ _ _ _ W) as Hcount. pose proof (wp_data _ _ _ _ _ _ _ W) as Hdata.
    assert (w_data l' = []) as En.
    { destruct Hend as [|Hpa]; [done|]. destruct (Hwhy Hpa) as [?|Hz]; [congruence|].
      rewrite Hdata. apply drop_ge. unfold len in *. lia. }
    rewrite En, app_nil_r in Erep. split_and!; [done..|unfold len in *; lia|].
    intros Hpa. destruct (Hwhy Hpa) as [?|Hz]; [congruence|]. apply len_nil_iff. lia.
Qed.

Lemma all_written_cons c calls : all_written (c :: calls) = written_by c ++ all_written calls.
Proof. done. Qed.

Lemma lines_only_producer c e calls s' :
  system_ok (pg_system c) -> steady (s_writer (pg_system c)) -> m_reader_completed (s_pipeline (pg_system c)) = false ->
  (m_writer_completed (s_pipeline (pg_system c)) = true -> in_progress (s_writer (pg_system c)) = []) ->
  producer_does e (cp_calls (pg_copying c)) calls -> exec e (pg_system c) = Some s' ->
  lines_only c -> lines_only (Program (Copying calls s') (pg_phase c) (pg_state c)).
Proof.
  intros Hok Ht Hro Hc He E [Hroom Hpa Hwr Hpr Hcalls]. unfold pg_system in *.
  destruct (pg_copying c) as [calls0 s0]. cbn [cp_calls cp_system] in *. destruct s0 as [p m w r wr co].
  assert (forall l, w_data l ≠ [] -> in_progress w = w_data l -> is_size (w_copied l) -> w_token l = no_stop ->
    forall p' m' st, write_wait p m l = Ret (p', m', st) ->
    lines_only (Program (Copying calls0 (System p' m' (writer_after st) r (wr ++ reported l st) co)) (pg_phase c) (pg_state c)))
    as Hsec.
  { intros l Hd Ep Hs Htl p' m' st Er. cbn in *. rewrite Ep in *.
    assert (is_any_completed p = false) as Ha.
    { unfold is_any_completed. rewrite Hro. by destruct (m_writer_completed p); [destruct Hd; apply Hc|]. }
    destruct (whole_section p m l p' m' st (all_written calls0) (sy_pipeline _ Hok) Hs Ha Htl Hd Hroom) as (-> & E1 & E2 & E3);
      [by destruct (m_writer_paused p); [destruct Hpa|]|done|].
    split; cbn; rewrite ?E1; try done; [by auto|]. unfold whole. by rewrite split_lines_app. }
  destruct He as [data calls|calls|calls]; cbn in E.
  - destruct w; try done. injection E as <-. rewrite all_written_cons, len_app in *. apply Forall_cons in Hcalls as [Hd Hcalls].
    split; cbn in *; try done.
    intros Hp. destruct (Hpa Hp) as [_ [? ?]%app_eq_nil]. done.
  - destruct w; try done. injection E as <-. apply Forall_cons in Hcalls as [_ Hcalls]. by split.
  - pose proof (sy_writer _ Hok) as Hw. cbn in Hw, Ht. destruct w as [|data copied t|l b|l|]; try done; cbn in Hw.
    + destruct Hw as [Hd Hs]. unfold write_round in E. destruct (is_any_completed p) eqn:Ha.
      { unfold is_any_completed in Ha. cbn in Hro, Hc. rewrite Hro, orb_false_r in Ha. by destruct Hd; apply Hc. }
      destruct (write_wait_ok p m (WriteLocals data copied t false) (sy_pipeline _ Hok) Hs Ha) as (p' & m' & st & Er & _).
      rewrite Er in E. injection E as <-. by apply (Hsec (WriteLocals data copied t false)).
    + destruct Hw as (Hd & Hs & _). destruct (is_any_completed p) eqn:Ha.
      { unfold is_any_completed in Ha. cbn in Hro, Hc. rewrite Hro, orb_false_r in Ha. by destruct Hd; apply Hc. }
      destruct (write_wait_ok p m l (sy_pipeline _ Hok) Hs Ha) as (p' & m' & st & Er & _).
      rewrite Er in E. injection E as <-. by apply (Hsec l).
    + injection E as <-. cbn in *. destruct (Z.eqb_spec (len (w_data l)) 0) as [E0%len_nil_iff|]; [|by split].
      rewrite E0 in *. by split.
    + injection E as <-. by split.
Qed.

Lemma producer_event_writes e calls calls' : producer_does e calls calls' -> writer_event e = true.
Proof. by destruct 1. Qed.

Lemma producer_completed e calls calls' s s' source :
  producer_does e calls calls' -> exec e s = Some s' -> copying_ok source (Copying calls s) ->
  m_writer_completed (s_pipeline s) = true -> m_writer_completed (s_pipeline s') = true.
Proof.
  intros He E [Hok Ht Hc _ _] Hd. cbn in *. destruct He as [data calls|calls|calls].
  - destruct s as [p m w r wr co]. cbn in *. destruct w; try done. by injection E as <-.
  - destruct s as [p m w r wr co]. cbn in *. destruct w; try done. by injection E as <-.
  - assert (m_writer_completed (s_pipeline s) = true -> in_progress (s_writer s) = []) as Hw.
    { intros Ew. rewrite Ew in Hc. apply Hc. }
    by destruct (writer_runs_progress s s' Hok Ht Hw E) as (_ & _ & -> & _).
Qed.

Lemma producer_phase_ok source st0 c e calls s' :
  prog_ok source st0 c -> producer_does e (cp_calls (pg_copying c)) calls -> exec e (pg_system c) = Some s' ->
  system_ok s' -> pg_phase c ≠ Finished ->
  phase_ok source st0 (Program (Copying calls s') (pg_phase c) (pg_state c)).
Proof.
  intros [Hcp Hph _] He E Hok' Hnf. pose proof (co_system _ _ Hcp) as Hok. unfold pg_system in *.
  destruct (pg_copying c) as [calls0 s0] eqn:Ec. cbn [cp_calls cp_system] in *.
  pose proof (writer_event_frame e s0 s' Hok (producer_event_writes _ _ _ He) E) as Hf.
  assert (ended source s0 -> ended source s') as Hended.
  { intros [Hd Hr]. split; [by eapply producer_completed|]. by rewrite (wf_consumed _ _ Hf). }
  assert (m_reader_completed (s_pipeline s0) = false -> no_line_examined s0 -> no_line_examined s') as Hlines.
  { intros Ho. by apply no_line_examined_frame. }
  assert (forall st, s_reader s0 = st -> wake_reader st = st -> s_reader s' = st) as Hrd.
  { intros st Er Ew. destruct (wf_reader _ _ Hf) as [->| ->]; [done|]. by rewrite Er. }
  unfold phase_ok, pg_system, between in *. rewrite Ec in Hph. cbn [pg_phase pg_copying pg_state cp_system] in *.
  rewrite (wf_consumed _ _ Hf), (wf_reader_completed _ _ Hf), (wf_has_pending _ _ Hf).
  destruct (pg_phase c) as [|result sequence|b| | | | |]; try done.
  - destruct Hph as (Hr & Hb & Ht & Hn). split; [|by split_and!; [apply Hb..| |apply Hlines; [apply Hb|]]].
    destruct Hr as [Hr|[wk Hr]], (wf_reader _ _ Hf) as [->| ->]; rewrite Hr; eauto.
  - destruct Hph as (Hr & Hb & Hw & k & Hk). assert (s_reader s' = RHolding result) as Hr' by by apply Hrd.
    rewrite (holding_stable s0 s' result) by done. split_and!; [done..|by exists k].
  - destruct Hph as ([n Hr] & Hb & Ht & Hn & He'). split_and!;
      first [done|apply Hb|by exists n; apply Hrd|by apply Hlines; [apply Hb|]|by auto].
  - destruct Hph as (Hr & Hb & Ht & He'). split_and!; first [done|apply Hb|by apply Hrd|by auto].
  - destruct Hph as (Hr & Ht & He'). split_and!; first [done|by apply Hrd|by auto].
  - destruct Hph as (Hr & Ht & He'). split_and!; first [done|by apply Hrd|by auto].
Qed.

Lemma producer_step_ok source st0 spurious c c' :
  prog_ok source st0 c -> producer_next spurious c = Some c' -> prog_ok source st0 c'.
Proof.
  intros Hok E. assert (pg_phase c ≠ Finished) as Hnf.
  { intros Ep. pose proof (pk_phase _ _ _ Hok) as Hph. unfold phase_ok in Hph. rewrite Ep in Hph.
    destruct Hph as (_ & _ & Hd). unfold producer_done in Hd. unfold producer_next in E. rewrite Ep in E.
    destruct (s_writer _), (cp_calls _); done. }
  destruct (producer_event _ _ _ _ _ Hok E) as (e & calls & s' & He & Es & ->).
  assert (copying_ok source (Copying calls s')) as Hcp'.
  { eapply copying_step_ok; [apply Hok|]. destruct (pg_copying c) eqn:Ec. unfold pg_system in Es. rewrite Ec in *.
    by eapply producer_does_copy. }
  split; [done|by eapply producer_phase_ok; [..|apply Hcp'|]|].
  intros Hk Ho. destruct (pk_copying _ _ _ Hok) as [Hsys Ht Hc _ _].
  pose proof (writer_event_frame _ _ _ Hsys (producer_event_writes _ _ _ He) Es) as Hf.
  unfold pg_system in Ho. cbn in Ho. rewrite (wf_reader_completed _ _ Hf) in Ho.
  apply (lines_only_producer c e); try done; [|by apply Hok].
  intros Ew. unfold pg_system in Ew. rewrite Ew in Hc. apply Hc.
Qed.

(** *** The main thread's steps *)

Lemma scanning_facts source st0 c result sequence :
  prog_ok source st0 c -> pg_phase c = Scanning result sequence ->
  let s := pg_system c in
  s_reader s = RHolding result /\ holding_ok (s_pipeline s) (s_memory s) result /\
  m_begin_offset (rr_buffer result) = 0 /\
  (keeps_partial = false -> whole (s_consumed s ++ view_bytes (s_memory s) (rr_buffer result))) /\
  exists k, tail_of (rr_buffer result) sequence k /\ view_ok (s_memory s) sequence /\
    view_bytes (s_memory s) sequence = drop (Z.to_nat k) (view_bytes (s_memory s) (rr_buffer result)) /\
    processed st0 (pg_state c) (s_consumed s ++ take (Z.to_nat k) (view_bytes (s_memory s) (rr_buffer result))).
Proof.
  intros [[Hok _ _ _ _] Hph _] Ep s. unfold phase_ok in Hph. rewrite Ep in Hph. destruct Hph as (Hr & Hb & Hw & k & Ht & Hp).
  pose proof (sy_reader _ Hok) as Hho. unfold s, pg_system in *. rewrite Hr in Hho. cbn in Hho.
  split_and!; [done..|]. exists k. destruct Ht as (Hk & Htb & Hts & Ht). destruct (Ht _ (ho_view _ _ _ Hho)) as [Hv Hby].
  by split_and!.
Qed.

Lemma processed_line st0 st st' taken line rest :
  processed st0 st taken -> x0a ∉ line -> line_effect st line = Ret st' ->
  taken ++ line ++ [x0a] = rest -> processed st0 st' rest.
Proof.
  intros [Hw Hp] Hl E <-. pose proof (split_lines_first line [] Hl) as Es. cbn in Es.
  unfold processed, whole. rewrite split_lines_app, Es by done. cbn. split; [done|].
  rewrite lines_effect_app, Hp. cbn. by rewrite E.
Qed.

(** Taking [S i] more bytes takes the line and its newline. *)
Lemma take_line (v : bytes) k i :
  0 <= k -> memchr (drop (Z.to_nat k) v) x0a = Some i ->
  take (Z.to_nat (k + Z.of_nat (S i))) v = take (Z.to_nat k) v ++ take i (drop (Z.to_nat k) v) ++ [x0a].
Proof.
  intros Hk Hi. destruct (memchr_split _ _ _ Hi) as (Esplit & _ & Hlt).
  rewrite Z2Nat.inj_add, Nat2Z.id, <- take_take_drop by lia. f_equal. rewrite Esplit at 1.
  rewrite take_app_ge by (rewrite length_take; lia). f_equal. rewrite length_take.
  by replace (S i - _)%nat with 1%nat by lia.
Qed.

Lemma line_step_ok source st0 c result sequence :
  prog_ok source st0 c -> pg_phase c = Scanning result sequence ->
  let pos := position_of (s_memory (pg_system c)) sequence x0a in
  position_bool pos = true ->
  match on_line (s_memory (pg_system c)) (pg_state c) sequence pos with
  | Ret (st, sequence') => prog_ok source st0 (Program (pg_copying c) (Scanning result sequence') st)
  | Throw _ => False
  | Undef => True
  end.
Proof.
  intros Hok Ep pos Hpos. destruct (scanning_facts _ _ _ _ _ Hok Ep) as (Hr & Hho & Hb & Hw & k & Ht & Hv & Hby & Hp).
  unfold pos in *. rewrite position_of_byte in Hpos by done.
  destruct (memchr (view_bytes (s_memory (pg_system c)) sequence) x0a) as [i|] eqn:Hi; [|done].
  destruct (on_line_law (s_memory (pg_system c)) (pg_state c) sequence i Hv Hi) as (sequence' & -> & Ht').
  destruct (line_effect _ _) as [st|e|] eqn:El; cbn [mbind outcome_bind]; [|by destruct (line_effect_throws _ _ _ El)|done].
  destruct Hok as [Hcp Hph Hl]. split; [done| |].
  - unfold phase_ok. cbn [pg_phase pg_state]. unfold pg_system in *. cbn [pg_copying]. split_and!; [done..|].
    exists (k + Z.of_nat (S i)). split; [by eapply tail_of_trans|]. rewrite Hby in Hi, El.
    rewrite take_line; [|apply Ht|done]. eapply processed_line; [exact Hp| |exact El|by rewrite <- app_assoc].
    by destruct (memchr_split _ _ _ Hi) as (_ & ? & _).
  - intros Hk Ho. destruct (Hl Hk Ho). by split.
Qed.

(** A reader's event on the pipeline, in an invariant state. *)
Lemma reader_copying_ok source c e s' :
  copying_ok source (pg_copying c) -> writer_event e = false -> event_allowed (fun _ => True) e ->
  exec e (pg_system c) = Some s' -> copying_ok source (Copying (cp_calls (pg_copying c)) s').
Proof.
  intros Hok He Ha E. eapply copying_step_ok; [exact Hok|]. unfold pg_system in E.
  destruct (pg_copying c). by eapply CopyReader.
Qed.

Lemma lines_only_frame c calls s' ph st :
  lines_only c -> cp_calls (pg_copying c) = calls -> s_written s' = s_written (pg_system c) ->
  in_progress (s_writer s') = in_progress (s_writer (pg_system c)) ->
  room (s_pipeline (pg_system c)) <= room (s_pipeline s') ->
  (m_writer_paused (s_pipeline s') = true -> m_writer_paused (s_pipeline (pg_system c)) = true) ->
  lines_only (Program (Copying calls s') ph st).
Proof.
  intros [Hroom Hpa0 Hwr Hpr Hcalls] Hc Hw Hp Hr Hpa. subst calls. split; cbn [pg_system pg_copying cp_calls cp_system]; rewrite ?Hw, ?Hp; try done; [by etrans|auto].
Qed.

Lemma no_newline_whole (l : bytes) : x0a ∉ l -> whole l -> l = [].
Proof. intros Hl Hw. unfold whole in Hw. by rewrite split_lines_no_newline in Hw. Qed.

(** What remains when no newline is left, and where [advance] goes. *)
Lemma scanned_facts source st0 c result sequence :
  prog_ok source st0 c -> pg_phase c = Scanning result sequence ->
  position_bool (position_of (s_memory (pg_system c)) sequence x0a) = false ->
  let s := pg_system c in
  exists k, 0 <= k <= len (view_bytes (s_memory s) (rr_buffer result)) /\
    (x0a ∉ drop (Z.to_nat k) (view_bytes (s_memory s) (rr_buffer result))) /\
    processed st0 (pg_state c) (s_consumed s ++ take (Z.to_nat k) (view_bytes (s_memory s) (rr_buffer result))) /\
    sequence_offset (consumed_to sequence) = k /\
    sequence_offset (view_end sequence) = len (view_bytes (s_memory s) (rr_buffer result)) /\
    position_ok (consumed_to sequence) /\ position_ok (view_end sequence).
Proof.
  intros Hok Ep Hpos s. destruct (scanning_facts _ _ _ _ _ Hok Ep) as (Hr & Hho & Hb & Hw & k & Ht & Hv & Hby & Hp).
  unfold s in *. rewrite position_of_byte in Hpos by done.
  assert (x0a ∉ drop (Z.to_nat k) (view_bytes (s_memory (pg_system c)) (rr_buffer result))) as Hn.
  { rewrite <- Hby. apply memchr_none. by destruct (memchr _ _). }
  destruct Ht as (Hk & Htb & Hts & _). pose proof (view_bytes_len _ _ (ho_view _ _ _ Hho)) as Hlen.
  pose proof (end_offset_ok _ _ Hv) as Hend. pose proof (view_bytes_len _ _ Hv) as Hlenv.
  destruct (ho_view _ _ _ Hho) as [_ _ Hv0 Hvm]. rewrite Hlen. rewrite Hb, Z.add_0_l in Htb.
  assert (sequence_offset (consumed_to sequence) = k /\ position_ok (consumed_to sequence)) as [Hc Hco].
  { rewrite consumed_law. unfold position_ok, is_size. destruct keeps_partial eqn:Hkp; cbn; [lia|]. rewrite Hend.
    destruct Hp as [Hpw _]. specialize (Hw eq_refl).
    rewrite <- (take_drop (Z.to_nat k) (view_bytes _ (rr_buffer result))), app_assoc in Hw.
    unfold whole in Hw. rewrite split_lines_app in Hw by done. cbn in Hw. apply no_newline_whole in Hw; [|done].
    rewrite <- Hby in Hw. rewrite Hw in Hlenv. change (len []) with 0 in Hlenv. lia. }
  exists k. split_and!; try done; try lia; unfold position_ok, is_size; cbn; lia.
Qed.

Lemma advance_step_ok source st0 c result sequence :
  prog_ok source st0 c -> pg_phase c = Scanning result sequence ->
  position_bool (position_of (s_memory (pg_system c)) sequence x0a) = false ->
  exists s', exec (CallAdvance (consumed_to sequence) (view_end sequence)) (pg_system c) = Some s' /\
    (forall e, advance (s_pipeline (pg_system c)) (s_memory (pg_system c)) (consumed_to sequence) (view_end sequence)
      ≠ Throw e) /\
    prog_ok source st0 (Program (Copying (cp_calls (pg_copying c)) s') (Advancing (rr_completed result)) (pg_state c)).
Proof.
  intros Hok Ep Hpos. destruct (scanned_facts _ _ _ _ _ Hok Ep Hpos) as (k & Hk & Hn & Hp & Hc & He & Hcok & Heok).
  destruct (scanning_facts _ _ _ _ _ Hok Ep) as (Hr & Hho & Hb & Hw & _).
  pose proof Hok as [Hcp Hph Hl]. pose proof (co_system _ _ Hcp) as Hsys.
  pose proof (co_shown _ _ Hcp result Hr) as Hshown. pose proof (co_calls _ _ Hcp) as Hcalls.
  pose proof (co_stream _ _ Hcp) as Hstream.
  assert (event_allowed (fun _ => True) (CallAdvance (consumed_to sequence) (view_end sequence))) as Ha by by split.
  pose proof (reader_copying_ok source c (CallAdvance (consumed_to sequence) (view_end sequence))) as Hcopy.
  unfold pg_system in *. destruct (cp_system (pg_copying c)) as [p m w r wr co] eqn:Es. cbn in *. subst r.
  change (end_offset sequence) with (sequence_offset (view_end sequence)) in He.
  destruct (ho_prefix _ _ _ Hho) as [rest Hpre].
  destruct (advance_ok p m (consumed_to sequence) (view_end sequence)) as
    (p' & m' & E & Hok' & Hfr & Hcont & _ & Hex & _ & Hpend & Hpaused & _);
    [apply Hsys|apply Hho|apply Hho|rewrite Hc, He; lia|rewrite (ho_size _ _ _ Hho), He; lia|].
  pose proof (advance_space _ _ _ _ _ _ _ (sy_pipeline _ Hsys) E) as (Hroom & _).
  rewrite E in *. eexists. split; [done|]. split; [done|]. specialize (Hcopy _ Hcp eq_refl Ha eq_refl).
  split; [exact Hcopy| |].
  - unfold phase_ok, between, pg_system. cbn. rewrite Hc. split_and!; [by eexists|by rewrite (af_reader _ _ Hfr); apply Hho|done|exact Hp| |].
    + unfold no_line_examined. cbn. rewrite Hcont, Hex, Hc, He. rewrite Hpre, drop_app_le by (unfold len in *; lia).
      rewrite take_app_le by (rewrite length_drop; unfold len in *; lia). intros Hin. apply Hn.
      by eapply subseteq_take.
    + intros Hdone. destruct (Hshown Hdone) as [Hwc Hall]. split; [by cbn; rewrite (af_writer _ _ Hfr)|].
      exists (drop (Z.to_nat k) (view_bytes m (rr_buffer result))). split; [|done].
      rewrite Hwc in Hcalls. destruct Hcalls as [Ec Ei]. cbn. rewrite <- app_assoc, take_drop.
      pose proof (sy_stream _ Hsys (ho_open _ _ _ Hho)) as Hst. cbn in Hst.
      rewrite <- (Hstream (ho_open _ _ _ Hho)), Ec, Ei, Hst, Hall. cbn. by rewrite !app_nil_r.
  - intros Hkp Ho. unfold pg_system in Ho. cbn in Ho.
    apply (lines_only_frame c); unfold pg_system; rewrite ?Es; try done; [apply Hl; [done|apply Hho]|].
    cbn. rewrite Hpaused. by destruct (m_writer_paused p).
Qed.

Lemma read_section_ok source st0 c p m w r wr co p' st :
  pg_system c = System p m w r wr co -> prog_ok source st0 c -> pg_phase c = Reading ->
  section_of_read p m p' st ->
  copying_ok source (Copying (cp_calls (pg_copying c)) (System p' m w (reader_after 0 st) wr co)) ->
  prog_ok source st0 (Program (Copying (cp_calls (pg_copying c)) (System p' m w (reader_after 0 st) wr co))
    (after_read (reader_after 0 st)) (pg_state c)).
Proof.
  intros Es [Hcp Hph Hl] Ep Hsec Hcp'. pose proof (co_system _ _ Hcp) as Hsys. unfold phase_ok in Hph.
  rewrite Ep, Es in Hph. cbn in Hph. destruct Hph as (_ & [Ho Hpd] & Ht & Hn).
  assert (room p' = room p /\ m_writer_paused p' = m_writer_paused p /\ m_reader_completed p' = false) as (Hroom & Hpa & Ho').
  { destruct Hsec as [_ [-> | ->]|q result _ [->|[b ->]] [-> _ _ _ _ _ _]]; done. }
  split; [exact Hcp'| |].
  - destruct Hsec as [-> Hp|q result -> Hq [-> _ Hc Hv Hby Hbe _]]; unfold phase_ok, pg_system; cbn [reader_after].
    + cbn. split_and!; try done; [right; by exists false|destruct Hp as [-> | ->]; by split|destruct Hp as [-> | ->]; exact Hn].
    + rewrite Hc. cbn. split_and!; [done..| |].
      * intros Hk. rewrite Hby. specialize (Hl Hk). rewrite Es in Hl. specialize (Hl Ho). pose proof (lo_written _ Hl) as Hw.
        rewrite Es in Hw. cbn in Hw. unfold pg_system in Es. rewrite Es in Hsys.
        pose proof (sy_stream _ Hsys Ho) as Hst. cbn in Hst. rewrite Hst in Hw. by destruct Hq as [->|[b ->]].
      * exists 0. split; [by apply (tail_of_refl m)|]. cbn. rewrite take_0, app_nil_r. exact Ht.
  - intros Hk _. apply (lines_only_frame c); rewrite ?Es; cbn; try done; [apply Hl; [done|by rewrite Es]|lia|congruence].
Qed.

Lemma read_step_ok source st0 c e :
  prog_ok source st0 c -> pg_phase c = Reading -> 
  (s_reader (pg_system c) = RIdle /\ e = CallRead 0 no_stop) \/
  (e = ReaderRuns /\ exists woken, s_reader (pg_system c) = RParked 0 no_stop woken) ->
  exists s', exec e (pg_system c) = Some s' /\
    prog_ok source st0 (Program (Copying (cp_calls (pg_copying c)) s') (after_read (s_reader s')) (pg_state c)).
Proof.
  intros Hok Ep He. pose proof (pk_copying _ _ _ Hok) as Hcp. pose proof (co_system _ _ Hcp) as Hsys.
  pose proof (reader_copying_ok source c e) as Hcopy. specialize (Hcopy).
  pose proof (pk_phase _ _ _ Hok) as Hph. unfold phase_ok in Hph. rewrite Ep in Hph.
  destruct Hph as (_ & [Ho Hpd] & _). destruct (pg_system c) as [p m w r wr co] eqn:Es.
  assert (pipeline_ok p m) as Hp by (unfold pg_system in Es; rewrite Es in Hsys; apply Hsys).
  cbn in He, Ho, Hpd. destruct He as [[-> ->]|(-> & woken & ->)]; cbn in Hcopy |- *.
  - destruct (read_at_least p 0 no_stop) as [[p' st]| |] eqn:Er.
    2,3: exfalso; unfold read_at_least in Er; rewrite Hpd, Ho in Er; by destruct (m_writer_completed p).
    eexists. split; [done|]. eapply read_section_ok; [done..|by apply read_at_least_section|by apply Hcopy].
  - destruct (read_wait p 0 no_stop) as [p' st] eqn:Er. eexists. split; [done|].
    eapply read_section_ok; [done..|by apply read_wait_section|by apply Hcopy].
Qed.

(** The steps that end an [advance] or a [complete], and leave the loop. *)
Lemma closing_step_ok source st0 c e ph :
  prog_ok source st0 c ->
  (exists b, pg_phase c = Advancing b /\ e = ReaderRuns /\ ph = if b then Leaving else Reading) \/
  (pg_phase c = Leaving /\ e = CallCompleteReader /\ ph = Completing) \/
  (pg_phase c = Completing /\ e = ReaderRuns /\ ph = Joining) ->
  exists s', exec e (pg_system c) = Some s' /\
    prog_ok source st0 (Program (Copying (cp_calls (pg_copying c)) s') ph (pg_state c)).
Proof.
  intros Hok Hcase. pose proof Hok as [Hcp Hph Hl]. pose proof (reader_copying_ok source c e) as Hcopy.
  unfold phase_ok in Hph. unfold pg_system in *.
  destruct (cp_system (pg_copying c)) as [p m w r wr co] eqn:Es.
  assert (forall w' (r' : reader_state), in_progress w' = in_progress w -> keeps_partial = false ->
    m_reader_completed p = false -> lines_only (Program (Copying (cp_calls (pg_copying c)) (System p m w' r' wr co)) ph (pg_state c))) as Hlines.
  { intros w' r' Ew Hk Ho. apply (lines_only_frame c); unfold pg_system; rewrite ?Es; try done. by apply Hl. }
  destruct Hcase as [(b & Ep & -> & ->)|[(Ep & -> & ->)|(Ep & -> & ->)]]; rewrite Ep in Hph; cbn in Hph, Hcopy |- *.
  - destruct Hph as ([n ->] & Hb & Ht & Hn & He). eexists. split; [done|]. split; [by apply Hcopy| |].
    + unfold phase_ok, between, pg_system. cbn. destruct b; cbn; split_and!; first [done|apply Hb|by left|by apply He].
    + intros Hk _. apply Hlines; [|done|apply Hb]. destruct n; [|done]. by destruct w.
  - destruct Hph as (-> & Hb & Ht & He). eexists. split; [done|]. split; [by apply Hcopy|by split_and!|done].
  - destruct Hph as (-> & Ht & He). eexists. split; [done|]. split; [by apply Hcopy|by split_and!|].
    intros Hk Ho. apply Hlines; [by destruct w|done|done].
Qed.

Lemma main_step_ok source st0 spurious c c' :
  prog_ok source st0 c -> main_next spurious c = Some c' -> prog_ok source st0 c'.
Proof.
  intros Hok E. unfold main_next in E. unfold main_runs in E.
  destruct (pg_phase c) as [|result sequence|b| | | | |] eqn:Ep.
  - pose proof (pk_phase _ _ _ Hok) as Hph. unfold phase_ok in Hph. rewrite Ep in Hph. destruct Hph as (Hr & _).
    assert (forall e, e = CallRead 0 no_stop /\ s_reader (pg_system c) = RIdle \/
      e = ReaderRuns /\ (exists woken, s_reader (pg_system c) = RParked 0 no_stop woken) ->
      (s' ← exec e (pg_system c); Some (Program (Copying (cp_calls (pg_copying c)) s') (after_read (s_reader s')) (pg_state c))) = Some c' ->
      prog_ok source st0 c') as Hread.
    { intros e He Er. destruct (read_step_ok source st0 c e Hok Ep) as (s' & Es & Hok'); [tauto|].
      rewrite Es in Er. by injection Er as <-. }
    destruct Hr as [Hr|[woken Hr]]; rewrite Hr in E.
    + apply (Hread (CallRead 0 no_stop)); [by left|]. destruct (read_at_least _ 0 no_stop) as [x|e|] eqn:Er; [done| |done].
      exfalso. destruct (read_step_ok source st0 c (CallRead 0 no_stop) Hok Ep) as (s' & Es & _); [by left|].
      destruct (pg_system c) as [p m w r wr co]. cbn in Er, Es, Hr. rewrite Hr, Er in Es. by destruct w.
    + destruct (woken || spurious); [|done]. apply (Hread ReaderRuns); [right; eauto|done].
  - destruct (position_bool _) eqn:Hpos.
    + pose proof (line_step_ok source st0 c result sequence Hok Ep Hpos) as Hline. cbv zeta in Hline.
      destruct (on_line _ _ _ _) as [[st sequence']|e|]; [by injection E as <-|done|done].
    + destruct (advance_step_ok source st0 c result sequence Hok Ep Hpos) as (s' & Es & Hthrow & Hok').
      rewrite Es in E. destruct (advance _ _ _ _) as [x|e|]; [by injection E as <-|by destruct (Hthrow e)|by injection E as <-].
  - destruct (closing_step_ok source st0 c ReaderRuns (if b then Leaving else Reading) Hok) as (s' & Es & Hok'); [by left; exists b|].
    rewrite Es in E. by injection E as <-.
  - destruct (closing_step_ok source st0 c CallCompleteReader Completing Hok) as (s' & Es & Hok'); [by right; left|].
    rewrite Es in E. by injection E as <-.
  - destruct (closing_step_ok source st0 c ReaderRuns Joining Hok) as (s' & Es & Hok'); [by right; right|].
    rewrite Es in E. by injection E as <-.
  - destruct (producer_done c) eqn:Hd; [|done]. injection E as <-. destruct Hok as [Hcp Hph Hl]. split; [done| |].
    + unfold phase_ok in *. rewrite Ep in Hph. cbn in *. by destruct Hph as (_ & ? & ?).
    + intros Hk Ho. by destruct (Hl Hk Ho).
  - done.
  - done.
Qed.

Lemma prog_step_ok source st0 c c' : prog_ok source st0 c -> prog_step c c' -> prog_ok source st0 c'.
Proof.
  intros Hok Hs. destruct Hs as [spurious c c' E|spurious c c' E];
    [exact (producer_step_ok _ _ _ _ _ Hok E)|exact (main_step_ok _ _ _ _ _ Hok E)].
Qed.

(** *** The start *)

(** The producer writes [source], a write at a time, and completes; a client
    that advances over everything gets whole lines that fit. *)
Definition suited (source : bytes) (calls : list writer_call) (p : pipeline R) : Prop :=
  copies source calls /\
  (keeps_partial = false -> len source <= total_room p /\ Forall (fun call => whole (written_by call)) calls).

Lemma start_ok source calls p m st0 :
  fresh p m -> m_writer_completed p = false -> m_reader_completed p = false -> m_has_pending_read p = false ->
  suited source calls p -> prog_ok source st0 (start calls p m st0).
Proof.
  intros Hf Hw Hr Hp [Hc Hl]. split; [by apply copying_initial_ok| |].
  - unfold phase_ok. cbn. split_and!; [by left|done..|]. unfold no_line_examined. cbn.
    rewrite (fr_empty _ _ Hf), take_nil. apply not_elem_of_nil.
  - intros Hk _. destruct (Hl Hk) as [Hroom Hwhole]. destruct Hf as [Hok Hcon Hpa].
    split; cbn [start pg_system pg_copying cp_system cp_calls initial s_writer s_pipeline s_written in_progress]; try done.
    + pose proof (so_size _ _ _ (po_segments _ _ Hok)). rewrite room_free by lia.
      rewrite (no_readable_no_segments p m Hok Hcon). unfold free_space. change (len []) with 0. cbn [last].
      destruct Hc as (writes & -> & Ha & _). rewrite all_written_app, Ha. cbn. rewrite app_nil_r. unfold len in *. lia.
    + congruence.
Qed.

Lemma prog_reachable_ok source calls p m st0 c :
  fresh p m -> m_writer_completed p = false -> m_reader_completed p = false -> m_has_pending_read p = false ->
  suited source calls p -> rtc prog_step (start calls p m st0) c -> prog_ok source st0 c.
Proof.
  intros Hf Hw Hr Hp Hs Hrun. eapply (rtc_invariant prog_step (prog_ok source st0)); [apply prog_step_ok|exact Hrun|].
  by apply start_ok.
Qed.

(** ** What a run comes to *)

Lemma ended_effect source st0 st s :
  processed st0 st (s_consumed s) -> ended source s -> lines_effect st0 (split_lines source).1 = Ret st.
Proof.
  intros [Hw Hp] (_ & rest & -> & Hn). rewrite split_lines_app by done. cbn.
  rewrite (split_lines_no_newline rest) by done. cbn. by rewrite app_nil_r.
Qed.

Lemma not_terminated source st0 c : prog_ok source st0 c -> pg_phase c ≠ Terminated.
Proof. intros Hok E. pose proof (pk_phase _ _ _ Hok) as Hph. unfold phase_ok in Hph. by rewrite E in Hph. Qed.

Lemma prog_result source st0 c :
  prog_ok source st0 c -> pg_phase c = Finished ->
  lines_effect st0 (split_lines source).1 = Ret (pg_state c) /\ producer_done c = true.
Proof.
  intros [_ Hph _] Ep. unfold phase_ok in Hph. rewrite Ep in Hph. destruct Hph as (Ht & He & Hd).
  split; [by eapply ended_effect|done].
Qed.

(** *** A run of the program is a run of its pipeline *)

Lemma prog_step_system source st0 c c' :
  prog_ok source st0 c -> prog_step c c' -> rtc (step (fun t => t = no_stop)) (pg_system c) (pg_system c').
Proof.
  intros Hok Hs.
  assert (forall e s', event_allowed (fun t => t = no_stop) e -> exec e (pg_system c) = Some s' ->
    rtc (step (fun t => t = no_stop)) (pg_system c) s') as Hone.
  { intros e s' He E. apply rtc_once. by eapply pipe_exec_step. }
  destruct Hs as [spurious c c' E|spurious c c' E].
  - destruct (producer_event _ _ _ _ _ Hok E) as (e & calls & s' & He & Es & ->). apply (Hone e); [|done].
    pose proof (co_calls _ _ (pk_copying _ _ _ Hok)) as Hc. destruct He as [data calls|calls|calls] eqn:Ee; [|done..].
    split; [done|]. destruct (m_writer_completed _); [by destruct Hc|]. destruct Hc as [left Hc].
    by apply copies_cons in Hc as [(? & _)|(? & ? & [= <-] & ? & _)].
  - unfold main_next, main_runs in E.
    assert (forall e ph st, event_allowed (fun t => t = no_stop) e ->
      (s' ← exec e (pg_system c); Some (Program (Copying (cp_calls (pg_copying c)) s') (ph s') st)) = Some c' ->
      rtc (step (fun t => t = no_stop)) (pg_system c) (pg_system c')) as Hrun.
    { intros e ph st He Er. destruct (exec e (pg_system c)) as [s'|] eqn:Es; [|done]. injection Er as <-. by apply (Hone e). }
    destruct (pg_phase c) as [|result sequence|b| | | | |] eqn:Ep; try done.
    + destruct (s_reader (pg_system c)) as [|n t woken| | |]; try done.
      * destruct (read_at_least _ 0 no_stop); [|by injection E as <-|]; by refine (Hrun (CallRead 0 no_stop) _ _ _ E).
      * destruct (woken || spurious); [|done]. by refine (Hrun ReaderRuns _ _ _ E).
    + destruct (position_bool _) eqn:Hpos.
      { destruct (on_line _ _ _ _) as [[? ?]| |]; [by injection E as <-..|done]. }
      destruct (scanned_facts _ _ _ _ _ Hok Ep Hpos) as (k & _ & _ & _ & _ & _ & Hc & He).
      destruct (advance _ _ _ _); [|by injection E as <-|];
        by refine (Hrun (CallAdvance (consumed_to sequence) (view_end sequence)) _ _ _ E).
    + by refine (Hrun ReaderRuns _ _ _ E).
    + by refine (Hrun CallCompleteReader _ _ _ E).
    + by refine (Hrun ReaderRuns _ _ _ E).
    + destruct (producer_done c); [|done]. by injection E as <-.
Qed.

Lemma prog_run_system source calls p m st0 c :
  fresh p m -> m_writer_completed p = false -> m_reader_completed p = false -> m_has_pending_read p = false ->
  suited source calls p -> rtc prog_step (start calls p m st0) c ->
  rtc (step (fun t => t = no_stop)) (initial p m) (pg_system c).
Proof.
  intros Hf Hw Hr Hp Hs Hrun. pose proof (start_ok source calls p m st0 Hf Hw Hr Hp Hs) as Hok.
  change (initial p m) with (pg_system (start calls p m st0)). induction Hrun as [|c1 c2 c3 H12 Hrun IH]; [done|].
  etrans; [by eapply prog_step_system|]. apply IH. by eapply prog_step_ok.
Qed.

(** ** No deadlock *)

(** A thread that has something to do, without spurious wake-ups. *)
Definition can_run (c : program) : Prop :=
  exists c', producer_next false c = Some c' \/ main_next false c = Some c'.

Lemma section_runs source st0 c :
  prog_ok source st0 c -> s_writer (pg_system c) ≠ WIdle ->
  (forall l, s_writer (pg_system c) ≠ WParked l false) -> pg_phase c ≠ Terminated -> can_run c.
Proof.
  intros Hok Hni Hnp Hnt. pose proof (producer_never_throws _ _ _ Hok) as Hth.
  destruct (section_returns _ _ _ Hok Hni) as [_ [s' Es]].
  assert (is_Some (producer_runs WriterRuns (cp_calls (pg_copying c)) c)) as [c' Hc'].
  { unfold producer_runs. rewrite Es. by eexists. }
  exists c'. left. unfold producer_next. rewrite Hth.
  destruct (pg_phase c); try done; (destruct (s_writer (pg_system c)) as [| |l [|]| |]; try done; by destruct (Hnp l)).
Qed.

(** A producer that has nothing to do has completed, or is parked. *)
Lemma producer_blocked source st0 c :
  prog_ok source st0 c -> pg_phase c ≠ Terminated ->
  can_run c \/ (exists l, s_writer (pg_system c) = WParked l false) \/
  (s_writer (pg_system c) = WIdle /\ cp_calls (pg_copying c) = [] /\ m_writer_completed (s_pipeline (pg_system c)) = true).
Proof.
  intros Hok Hnt. destruct (s_writer (pg_system c)) as [|data copied t|l [|]|l|] eqn:Ew.
  2,3,5,6: left; by apply (section_runs source st0); [..|intros ?|]; rewrite ?Ew.
  2: right; left; by exists l.
  pose proof (co_calls _ _ (pk_copying _ _ _ Hok)) as Hc. unfold pg_system in *.
  destruct (cp_calls (pg_copying c)) as [|call calls] eqn:Ec.
  - right; right. split; [done|]. split; [done|]. destruct (m_writer_completed _); [done|].
    by destruct Hc as [left ([|] & ? & _)].
  - left. destruct (cp_system (pg_copying c)) as [p m w r wr co] eqn:Es. cbn in Ew. subst w.
    assert (is_Some (producer_next false c)) as [c' Hc']; [|by exists c'; left].
    unfold producer_next, producer_runs, pg_system. rewrite Es, Ec. destruct call, (pg_phase c); cbn; (done || by eexists).
Qed.

Lemma main_runs_step e after c s' : exec e (pg_system c) = Some s' -> is_Some (main_runs e after c).
Proof. intros E. unfold main_runs. rewrite E. by eexists. Qed.

Lemma examined_below source st0 c longest :
  prog_ok source st0 c -> lines_below longest source -> pg_phase c = Reading ->
  m_examined_size (s_pipeline (pg_system c)) <= longest.
Proof.
  intros [Hcp Hph _] Hb Ep. unfold phase_ok in Hph. rewrite Ep in Hph. destruct Hph as (_ & [Ho _] & [Hw _] & Hn).
  pose proof (co_stream _ _ Hcp Ho) as Hs. pose proof (co_system _ _ Hcp) as Hsys. unfold pg_system in *.
  rewrite (sy_stream _ Hsys Ho), <- app_assoc in Hs. pose proof (sy_pipeline _ Hsys) as Hp.
  destruct (po_open _ _ Hp Ho) as (Eb & _ & Hx & _). rewrite <- (content_len _ _ Hp) in Eb.
  set (x := m_examined_size _) in *. rewrite <- Hs in Hb. set (l := content _ _) in *.
  rewrite <- (take_drop (Z.to_nat x) l), <- app_assoc in Hb.
  pose proof (line_below longest _ _ _ Hb Hw Hn) as Hl. unfold len in *. rewrite length_take in Hl. lia.
Qed.

Lemma line_fits source st0 st taken line rest st' :
  processed st0 st taken -> x0a ∉ line -> source = taken ++ (line ++ [x0a]) ++ rest ->
  lines_effect st0 (split_lines source).1 = Ret st' ->
  exists st1, line_effect st line = Ret st1.
Proof.
  intros [Hw Hp] Hl -> E. rewrite <- app_assoc, split_lines_app in E by done. cbn in E.
  rewrite split_lines_first in E by done. cbn in E. rewrite lines_effect_app, Hp in E. cbn in E.
  destruct (line_effect st line) as [st1| |]; [by exists st1|done..].
Qed.

(** A line that stays in the pipeline leaves room for the next segment. *)
Definition lines_fit (source : bytes) (p : pipeline R) : Prop :=
  resumable p /\ exists longest, lines_below longest source /\ longest + m_buffer_size p <= total_room p.

(** A reader that waits leaves the producer something to do: were the
    producer parked, the pipeline would be full, of more than a line. *)
Lemma waiting_can_run source calls p m st0 c :
  fresh p m -> m_writer_completed p = false -> m_reader_completed p = false -> m_has_pending_read p = false ->
  suited source calls p -> (keeps_partial = true -> lines_fit source p) -> rtc prog_step (start calls p m st0) c ->
  pg_phase c = Reading -> s_reader (pg_system c) = RParked 0 no_stop false -> can_run c.
Proof.
  intros Hf Hw Hr Hp Hs Hfit Hrun Ep Er.
  pose proof (prog_reachable_ok _ _ _ _ st0 _ Hf Hw Hr Hp Hs Hrun) as Hok.
  pose proof (prog_run_system _ _ _ _ st0 _ Hf Hw Hr Hp Hs Hrun) as Hsys.
  destruct (reachable_wakeups p m _ Hf Hsys) as [_ Hwr Hww].
  pose proof (co_system _ _ (pk_copying _ _ _ Hok)) as Hsok.
  pose proof (sy_pipeline _ Hsok) as Hpok. pose proof (pk_phase _ _ _ Hok) as Hph. unfold phase_ok in Hph.
  rewrite Ep in Hph. destruct Hph as (_ & [Ho _] & _). unfold pg_system in *.
  assert (data_available (s_pipeline (cp_system (pg_copying c))) 0 = false ->
    m_writer_completed (s_pipeline (cp_system (pg_copying c))) = false /\
    len (content (s_pipeline (cp_system (pg_copying c))) (s_memory (cp_system (pg_copying c))))
      <= m_examined_size (s_pipeline (cp_system (pg_copying c)))) as Hda.
  { unfold data_available. destruct (po_open _ _ Hpok Ho) as (Eb & _). rewrite (content_len _ _ Hpok), <- Eb.
    destruct (m_writer_completed (s_pipeline _)); cbn [orb]; [done|]. change (0 =? 0) with true. cbn [orb]. rewrite andb_true_r.
    intros Hgt. split; [done|]. destruct (Z.gtb_spec (m_buffered_size (s_pipeline (cp_system (pg_copying c))))
      (m_examined_size (s_pipeline (cp_system (pg_copying c))))); [done|lia]. }
  destruct (producer_blocked source st0 c Hok ltac:(by rewrite Ep)) as [?|[[l Hl]|(Hi & _ & Hd)]]; [done|..];
    unfold pg_system in *.
  - destruct (Hwr _ _ Er) as [Hno|E]; [|by rewrite Hl in E]. destruct (Hww _ Hl) as [Hpa|E]; [|by rewrite Er in E].
    destruct keeps_partial eqn:Hk.
    2: { destruct (lo_paused _ (pk_lines _ _ _ Hok Hk Ho) Hpa) as [Hnil _]. unfold pg_system in Hnil.
      pose proof (sy_writer _ Hsok) as Hwo. rewrite Hl in Hnil, Hwo. by destruct Hwo. }
    destruct (Hfit eq_refl) as (Hres & longest & Hb & Hlong). pose proof (examined_below _ _ _ _ Hok Hb Ep) as Hex.
    destruct (reachable_space _ p m _ Hf Hres Hsys) as [[[_ Hbp] (Esz & Epa & _)] Hsp].
    destruct (Hsp Ho) as [Hnw Hz]. pose proof (no_room_content _ _ Hpok Hnw (Hz Hpa)) as Hfull.
    rewrite Esz, Epa in Hfull. specialize (Hfull Hbp). unfold total_room in *. rewrite Esz, Epa in Hfull.
    destruct (Hda Hno) as [_ ?]. unfold pg_system in Hex. lia.
  - destruct (Hwr _ _ Er) as [Hno|E]; [|by rewrite Hi in E]. destruct (Hda Hno) as [? _]. congruence.
Qed.

Lemma scanning_can_run source st0 c result sequence st' :
  prog_ok source st0 c -> pg_phase c = Scanning result sequence ->
  lines_effect st0 (split_lines source).1 = Ret st' -> can_run c.
Proof.
  intros Hok Ep Hfits. unfold can_run. setoid_rewrite (or_comm (producer_next _ _ = _)).
  assert (is_Some (main_next false c)) as [c' Hc']; [|by exists c'; left]. unfold main_next. rewrite Ep.
  destruct (position_bool _) eqn:Hpos.
  - destruct (scanning_facts _ _ _ _ _ Hok Ep) as (Hr & Hho & Hb & Hw & k & Ht & Hv & Hby & Hp).
    pose proof Hpos as Hi. rewrite position_of_byte in Hi by done.
    destruct (memchr (view_bytes (s_memory (pg_system c)) sequence) x0a) as [i|] eqn:Hm; [|done].
    destruct (on_line_law (s_memory (pg_system c)) (pg_state c) sequence i Hv Hm) as (sequence' & -> & _).
    pose proof (take_line (view_bytes (s_memory (pg_system c)) (rr_buffer result)) k i ltac:(apply Ht)) as Htl.
    rewrite <- Hby in Htl. specialize (Htl Hm). destruct Hok as [Hcp _ _]. pose proof (co_system _ _ Hcp) as Hsys.
    destruct (ho_prefix _ _ _ Hho) as [more Hmore]. pose proof (co_stream _ _ Hcp (ho_open _ _ _ Hho)) as Hs.
    unfold pg_system in *. rewrite (sy_stream _ Hsys (ho_open _ _ _ Hho)), Hmore in Hs.
    set (v := view_bytes _ (rr_buffer result)) in *. rewrite <- (take_drop (Z.to_nat (k + Z.of_nat (S i))) v), Htl in Hs.
    edestruct (line_fits source st0 (pg_state c)) as [st1 Hst1]; [exact Hp|exact (proj1 (proj2 (memchr_split _ _ _ Hm)))| |exact Hfits|].
    + rewrite <- Hs, <- !(assoc_L (++)). reflexivity.
    + rewrite Hst1. by eexists.
  - destruct (advance_step_ok source st0 c result sequence Hok Ep Hpos) as (s' & Es & Hthrow & _).
    destruct (advance _ _ _ _) as [x|e|]; [|by destruct (Hthrow e)|]; by eapply main_runs_step.
Qed.

Lemma main_can_run c : is_Some (main_next false c) -> can_run c.
Proof. intros [c' E]. by exists c'; right. Qed.

Lemma joining_can_run source st0 c : prog_ok source st0 c -> pg_phase c = Joining -> can_run c.
Proof.
  intros Hok Ep. destruct (producer_done c) eqn:Hd.
  { apply main_can_run. unfold main_next. rewrite Ep, Hd. by eexists. }
  destruct (producer_blocked source st0 c Hok ltac:(by rewrite Ep)) as [?|[[l Hl]|(Hi & Hc & _)]]; [done| |].
  - exfalso. pose proof (pk_phase _ _ _ Hok) as Hph. unfold phase_ok in Hph. rewrite Ep in Hph.
    destruct Hph as (_ & _ & Hw & _). destruct Hok as [[Hsys _ Hcalls _ _] _ _]. unfold pg_system in *.
    rewrite Hw in Hcalls. pose proof (sy_writer _ Hsys) as Hwr. rewrite Hl in *. by destruct Hcalls, Hwr.
  - unfold producer_done in Hd. by rewrite Hi, Hc in Hd.
Qed.

(** Until [main] has returned, a thread can run: none waits for a
    notification that does not come, and none goes wrong. *)
Lemma prog_progress source calls p m st0 c st' :
  fresh p m -> m_writer_completed p = false -> m_reader_completed p = false -> m_has_pending_read p = false ->
  suited source calls p -> (keeps_partial = true -> lines_fit source p) -> lines_effect st0 (split_lines source).1 = Ret st' ->
  rtc prog_step (start calls p m st0) c -> pg_phase c = Finished \/ can_run c.
Proof.
  intros Hf Hw Hr Hp Hs Hfit Hfits Hrun.
  pose proof (prog_reachable_ok _ _ _ _ st0 _ Hf Hw Hr Hp Hs Hrun) as Hok.
  assert (forall e after ph, main_next false c = main_runs e after c ->
    (exists s', exec e (pg_system c) = Some s' /\
      prog_ok source st0 (Program (Copying (cp_calls (pg_copying c)) s') ph (pg_state c))) -> can_run c) as Hstep.
  { intros e after ph E (s' & Es & _). apply main_can_run. rewrite E. by eapply main_runs_step. }
  destruct (pg_phase c) as [|result sequence|b| | | | |] eqn:Ep.
  - right. pose proof (pk_phase _ _ _ Hok) as Hph. unfold phase_ok in Hph. rewrite Ep in Hph.
    destruct Hph as ([Hrd|[[|] Hrd]] & _).
    + destruct (read_step_ok source st0 c (CallRead 0 no_stop) Hok Ep) as (s' & Es & _); [by left|].
      apply main_can_run. unfold main_next. rewrite Ep, Hrd. destruct (read_at_least _ _ _); [|by eexists|];
        by eapply main_runs_step.
    + destruct (read_step_ok source st0 c ReaderRuns Hok Ep) as (s' & Es & _); [right; eauto|].
      apply main_can_run. unfold main_next. rewrite Ep, Hrd. by eapply main_runs_step.
    + by eapply (waiting_can_run source calls p m st0 c).
  - right. by eapply scanning_can_run.
  - right. eapply Hstep; [unfold main_next; by rewrite Ep|]. apply (closing_step_ok source st0 c ReaderRuns); [done|]. left. by exists b.
  - right. eapply Hstep; [unfold main_next; by rewrite Ep|]. apply (closing_step_ok source st0 c CallCompleteReader); [done|]. by right; left.
  - right. eapply Hstep; [unfold main_next; by rewrite Ep|]. apply (closing_step_ok source st0 c ReaderRuns); [done|]. by right; right.
  - right. by eapply joining_can_run.
  - by left.
  - by destruct (not_terminated _ _ _ Hok).
Qed.
End program.
