(* ===== verification/LineReaderEnds.v ===== *)
(** The programs of LineReader.v end: every step that is not a spurious
    wake-up leaves less to do, counted in bytes to write, bytes to examine and
    where the two threads are. *)

From S2P Require Import Prelude Memory Position ByteView Lines Resource Pools Segment Pipeline PipelineProofs PipelineSpace.
From S2P Require Import PipelineSystem PipelineEvents PipeUtils PipeCopy LineReader.

Section ends.
Context {R A : Type} `{ResourceLaws R} `{LineClient A} `{!LineClientLaws A}.
Implicit Types c : program (R := R) (A := A).
Implicit Types s : system (R := R).

(** ** What is left to do *)

Definition to_write c : Z :=
  len (in_progress (s_writer (pg_system c))) + len (all_written (cp_calls (pg_copying c))).

Definition unexamined s : Z := len (content (s_pipeline s) (s_memory s)) - m_examined_size (s_pipeline s).

Definition still_reading (ph : main_phase) : bool :=
  match ph with Reading | Scanning _ _ | Advancing _ => true | _ => false end.

(** The sections a writer still passes through before it parks, returns or
    copies a byte. *)
Definition writer_rank (w : writer_state) (paused : bool) : Z :=
  match w with
  | WIdle => 0
  | WCompleting => 2
  | WParked _ woken => (if paused then 1 else 6) + (if woken then 1 else 0)
  | WReady _ _ _ => if paused then 3 else 8
  | WNotifying _ => if paused then 5 else 10
  end.

(** [size]: the length of all that is written. *)
Definition phase_rank (size : Z) (ph : main_phase) (r : reader_state) : Z :=
  match ph with
  | Advancing false => size + 26
  | Reading => size + match r with RParked _ _ false => 21 | RParked _ _ true => 22 | _ => 23 end
  | Scanning _ sequence => 9 + view_size sequence
  | Advancing true => 7
  | Leaving => 5
  | Completing => 4
  | Joining => 1
  | Finished | Terminated => 0
  end.

Definition amount c : Z :=
  2 * to_write c + if still_reading (pg_phase c) then unexamined (pg_system c) else 0.

Definition work (size : Z) c : Z :=
  (size + 60) * amount c + 20 * len (cp_calls (pg_copying c)) +
  phase_rank size (pg_phase c) (s_reader (pg_system c)) +
  writer_rank (s_writer (pg_system c)) (m_writer_paused (s_pipeline (pg_system c))).

(** A snapshot shows a byte that was not examined, unless it is the last. *)
Definition fresh_view c : Prop :=
  match pg_phase c with
  | Scanning result _ =>
      let examined := m_examined_size (s_pipeline (pg_system c)) in
      let shown := len (view_bytes (s_memory (pg_system c)) (rr_buffer result)) in
      examined <= shown /\ (rr_completed result = false -> examined < shown)
  | _ => True
  end.

Lemma writer_rank_bounds w paused : 0 <= writer_rank w paused <= 10.
Proof. destruct w as [| |? []| |], paused; cbn; lia. Qed.

(** ** The producer *)

Lemma write_wait_paused p m l p' m' st :
  w_token l = no_stop -> m_writer_paused p = true -> write_wait p m l = Ret (p', m', st) -> exists l', st = WriteSleeps l'.
Proof.
  intros Ht Hp E. unfold write_wait, space_available in E. rewrite Ht, cv_return_no_stop, Hp in E. cbn in E. injection E as <- <- <-. eauto.
Qed.

(** A section copies bytes, or brings the writer nearer to its next sleep. *)
Lemma write_section_rank p m l p' m' st :
  pipeline_ok p m -> is_size (w_copied l) -> is_any_completed p = false -> w_token l = no_stop -> w_data l ≠ [] ->
  write_wait p m l = Ret (p', m', st) ->
  exists k, 0 <= k /\ len (w_data l) = len (in_progress (writer_after st)) + k /\
    len (content p' m') = len (content p m) + k /\ m_examined_size p' = m_examined_size p /\
    (0 < k \/ (m_writer_paused p = true /\ writer_rank (writer_after st) (m_writer_paused p') = 1) \/
     (m_writer_paused p = false /\ writer_rank (writer_after st) (m_writer_paused p') = 5)).
Proof.
  intros Hok Hc Ho Ht Hd Hrun. destruct (write_wait_ok p m l Hok Hc Ho) as (p1 & m1 & st1 & E & Hok' & Hfr & Hst).
  rewrite Hrun in E. injection E as <- <- <-. destruct st as [l'|k|l']; cbn [write_step_ok writer_after in_progress] in *.
  - destruct Hst as (-> & -> & Hp & _ & -> & _). exists 0. split_and!; try lia. right; left. cbn. by rewrite Hp.
  - by destruct Hst as [? _].
  - destruct Hst as (Hend & _ & k & W). pose proof (wp_count _ _ _ _ _ _ _ W) as Hk.
    exists k. rewrite (wp_data _ _ _ _ _ _ _ W), (wp_content _ _ _ _ _ _ _ W), len_app, (sf_examined _ _ Hfr).
    unfold len in *. rewrite length_drop, length_take. split_and!; try lia.
    destruct (Z.eq_dec k 0) as [->|]; [|left; lia]. right; right.
    rewrite (wp_data _ _ _ _ _ _ _ W), drop_0 in Hend. destruct Hend as [?|Hp']; [done|]. cbn. rewrite Hp'. split; [|done].
    destruct (m_writer_paused p) eqn:Hp; [|done]. by destruct (write_wait_paused _ _ _ _ _ _ Ht Hp Hrun).
Qed.

(** What a section of the producer does to the amounts. *)
Definition producer_effect s s' : Prop :=
  exists k, 0 <= k /\ len (in_progress (s_writer s)) = len (in_progress (s_writer s')) + k /\
    (m_reader_completed (s_pipeline s) = false -> unexamined s' = unexamined s + k) /\
    (0 < k \/
     writer_rank (s_writer s') (m_writer_paused (s_pipeline s')) + 1 < writer_rank (s_writer s) (m_writer_paused (s_pipeline s)) \/
     (writer_rank (s_writer s') (m_writer_paused (s_pipeline s')) < writer_rank (s_writer s) (m_writer_paused (s_pipeline s)) /\
      s_reader s' = s_reader s)).

Lemma writer_runs_effect s s' :
  system_ok s -> steady (s_writer s) -> (m_writer_completed (s_pipeline s) = true -> in_progress (s_writer s) = []) ->
  (m_reader_completed (s_pipeline s) = true -> m_writer_completed (s_pipeline s) = true) ->
  (forall l, s_writer s ≠ WParked l false) -> exec WriterRuns s = Some s' -> producer_effect s s'.
Proof.
  intros Hok Ht Ho Hrw Hquiet E. destruct s as [p m w r wr co]. pose proof (sy_writer _ Hok) as Hw. cbn in Hw, Ht, Ho, Hrw, Hquiet.
  assert (forall l p' m' st, w_data l ≠ [] -> in_progress w = w_data l -> is_size (w_copied l) -> w_token l = no_stop ->
    write_wait p m l = Ret (p', m', st) -> (m_writer_paused p = true -> 1 < writer_rank w true) ->
    (m_writer_paused p = false -> 5 < writer_rank w false) ->
    producer_effect (System p m w r wr co) (System p' m' (writer_after st) r (wr ++ reported l st) co)) as Hsec.
  { intros l p' m' st Hd Ep Hc Hl Hrun Hp Hu.
    assert (m_writer_completed p = false) as Ew by (destruct (m_writer_completed p); [by destruct Hd; rewrite <- Ep; apply Ho|done]).
    assert (m_reader_completed p = false) as Er by (destruct (m_reader_completed p); [by rewrite Hrw in Ew|done]).
    assert (is_any_completed p = false) as Ha by (unfold is_any_completed; by rewrite Ew, Er).
    destruct (write_section_rank p m l p' m' st (sy_pipeline _ Hok) Hc Ha Hl Hd Hrun) as (k & Hk & Hdk & Hck & Hex & Hrank).
    exists k. unfold unexamined. cbn [s_writer s_pipeline s_memory s_reader]. rewrite Ep, Hck, Hex.
    split_and!; [done|done|lia|]. destruct Hrank as [?|[(E1 & ->)|(E1 & ->)]]; [by left|right; right; split; [|done]..];
      rewrite E1; [by apply Hp|by apply Hu]. }
  cbn in E. destruct w as [|data copied t|l b|l|]; try done; cbn in Hw.
  - destruct Hw as [Hd Hs]. unfold write_round in E. destruct (is_any_completed p) eqn:Ha.
    { assert (m_writer_completed p = true) as Ew.
      { unfold is_any_completed in Ha. destruct (m_writer_completed p); [done|]. by apply Hrw. }
      by destruct Hd; apply Ho. }
    destruct (write_wait p m (WriteLocals data copied t false)) as [[[p' m'] st]| |] eqn:Er; [|by
      destruct (write_wait_ok p m (WriteLocals data copied t false) (sy_pipeline _ Hok) Hs Ha) as (? & ? & ? & E2 & _); rewrite E2 in Er|done].
    injection E as <-. apply (Hsec (WriteLocals data copied t false)); try done; intros Hpa; cbn; rewrite ?Hpa; lia.
  - destruct Hw as (Hd & Hs & _). destruct b; [|by destruct (Hquiet l)]. destruct (is_any_completed p) eqn:Ha.
    { assert (m_writer_completed p = true) as Ew.
      { unfold is_any_completed in Ha. destruct (m_writer_completed p); [done|]. by apply Hrw. }
      by destruct Hd; apply Ho. }
    destruct (write_wait_ok p m l (sy_pipeline _ Hok) Hs Ha) as (p' & m' & st & Er & _). rewrite Er in E.
    injection E as <-. apply (Hsec l); try done; intros Hpa; cbn; rewrite ?Hpa; lia.
  - injection E as <-. exists 0. unfold unexamined. cbn [s_writer s_pipeline s_memory s_reader].
    destruct (Z.eqb_spec (len (w_data l)) 0) as [E0|E0]; cbn [in_progress]; [change (len []) with 0|]; (split_and!; [lia..|]);
      right; left; cbn; destruct (m_writer_paused p); lia.
  - injection E as <-. exists 0. unfold unexamined. cbn [s_writer s_pipeline s_memory s_reader in_progress]. split_and!; [lia..|].
    right; left. cbn. lia.
Qed.

Lemma phase_rank_wake size ph r : phase_rank size ph (wake_reader r) <= phase_rank size ph r + 1.
Proof. destruct ph as [| |[]| | | | |], r as [|? ? []| | |]; cbn; lia. Qed.

Lemma phase_rank_reader size ph r r' :
  r' = r \/ r' = wake_reader r -> phase_rank size ph r' <= phase_rank size ph r + 1 .
Proof. intros [-> | ->]; [lia|apply phase_rank_wake]. Qed.

(** The producer's steps that are not spurious wake-ups. *)
Lemma producer_work source st0 c c' :
  prog_ok source st0 c -> producer_next false c = Some c' -> work (len source) c' < work (len source) c.
Proof.
  intros Hok E. destruct (producer_event _ _ _ _ _ Hok E) as (e & calls & s' & He & Es & ->).
  pose proof (open_or_ended _ _ _ Hok) as Ho. pose proof (pk_copying _ _ _ Hok) as Hcp. pose proof (co_calls _ _ Hcp) as Hcalls.
  pose proof (co_system _ _ Hcp) as Hsys. pose proof (co_steady _ _ Hcp) as Hst. pose proof (len_nonneg source) as Hlen.
  pose proof (writer_event_frame e (pg_system c) s' Hsys (producer_event_writes _ _ _ He) Es) as Hf.
  pose proof (phase_rank_reader (len source) (pg_phase c) _ _ (wf_reader _ _ Hf)) as Hrd.
  unfold work, amount, to_write, pg_system in *. cbn [pg_copying cp_calls cp_system pg_phase].
  destruct (cp_system (pg_copying c)) as [p m w r wr co] eqn:Esys.
  destruct He as [data calls|calls|calls].
  - destruct w; try done. injection Es as <-. rewrite all_written_cons, len_app, len_cons. unfold unexamined.
    cbn [s_pipeline s_memory s_writer s_reader in_progress written_by writer_rank]. change (len (@nil byte)) with 0.
    destruct (m_writer_paused p); lia.
  - destruct w; try done. injection Es as <-. rewrite all_written_cons, len_app, len_cons. unfold unexamined.
    cbn [s_pipeline s_memory s_writer s_reader in_progress written_by writer_rank]. change (len (@nil byte)) with 0.
    change (content (complete_writer p) m) with (content p m). change (m_examined_size (complete_writer p)) with (m_examined_size p). lia.
  - assert (m_writer_completed p = true -> in_progress w = []) as Hc by (cbn in Hcalls; intros Ew; rewrite Ew in Hcalls; apply Hcalls).
    assert (m_reader_completed p = true -> m_writer_completed p = true) as Hrw by (cbn in Ho; intros Er; destruct Ho; [congruence|done]).
    assert (forall l, w ≠ WParked l false) as Hquiet.
    { intros l ->. unfold producer_next, pg_system in E. rewrite Esys in E. cbn in E. by destruct (pg_phase c). }
    destruct (writer_runs_effect _ _ Hsys Hst Hc Hrw Hquiet Es) as (k & Hk & Hin & Hun & Hrank). cbn [s_writer s_pipeline s_reader] in *.
    pose proof (writer_rank_bounds w (m_writer_paused p)). pose proof (writer_rank_bounds (s_writer s') (m_writer_paused (s_pipeline s'))).
    assert ((if still_reading (pg_phase c) then unexamined s' else 0) <=
      (if still_reading (pg_phase c) then unexamined (System p m w r wr co) else 0) + k) as Hu.
    { destruct (still_reading (pg_phase c)) eqn:Esr; [|lia]. rewrite Hun; [lia|].
      pose proof (pk_phase _ _ _ Hok) as Hph. unfold phase_ok, between, pg_system in Hph. rewrite Esys in Hph. cbn in Hph.
      pose proof (sy_reader _ Hsys) as Hr. cbn in Hr.
      destruct (pg_phase c); try done; [apply Hph| |apply Hph]. destruct Hph as [-> _]. apply Hr. }
    rewrite Hin. destruct Hrank as [Hk0|[Hrank|[Hrank Hsame]]].
    + assert ((len source + 60) * k >= 60 * k) by nia. nia.
    + nia.
    + rewrite Hsame. nia.
Qed.

(** ** The main thread *)

(** A read that is not the last shows something new. *)
Lemma read_shows_new (p p' : pipeline R) result :
  read_wait p 0 no_stop = (p', ReadReturns result) \/ read_at_least p 0 no_stop = Ret (p', ReadReturns result) ->
  m_writer_completed p = false -> m_examined_size p < m_buffered_size p.
Proof.
  intros Hr Hw. assert (forall q : pipeline R, m_writer_completed q = false -> read_wait q 0 no_stop = (p', ReadReturns result) ->
    m_examined_size q < m_buffered_size q) as Hwait.
  { intros q Eq E. unfold read_wait in E. rewrite cv_return_no_stop in E. unfold data_available in E. rewrite Eq in E. cbn [orb] in E.
    destruct (Z.gtb_spec (m_buffered_size q) (m_examined_size q)); [lia|]. by cbn in E. }
  destruct Hr as [Hr|Hr]; [by apply Hwait|]. unfold read_at_least in Hr. rewrite Hw in Hr.
  destruct (m_has_pending_read p), (m_reader_completed p); try done. injection Hr as Hr.
  exact (Hwait (set_reader_waiting true p) Hw Hr).
Qed.

Definition paced (spurious : bool) (size : Z) c c' : Prop :=
  fresh_view c' /\ (spurious = false -> work size c' < work size c).

Lemma shown_within source st0 c result sequence :
  prog_ok source st0 c -> pg_phase c = Scanning result sequence -> 
  len (view_bytes (s_memory (pg_system c)) (rr_buffer result)) <= len (content (s_pipeline (pg_system c)) (s_memory (pg_system c))).
Proof.
  intros Hok Ep. destruct (scanning_facts _ _ _ _ _ Hok Ep) as (_ & Hho & _). destruct (ho_prefix _ _ _ Hho) as [rest ->].
  rewrite len_app. pose proof (len_nonneg rest). lia.
Qed.

Lemma content_within source st0 c :
  prog_ok source st0 c -> m_reader_completed (s_pipeline (pg_system c)) = false ->
  len (content (s_pipeline (pg_system c)) (s_memory (pg_system c))) <= len source.
Proof.
  intros Hok Ho. pose proof (co_stream _ _ (pk_copying _ _ _ Hok) Ho) as Hs.
  rewrite (sy_stream _ (co_system _ _ (pk_copying _ _ _ Hok)) Ho) in Hs. unfold pg_system. rewrite <- Hs, !len_app.
  pose proof (len_nonneg (s_consumed (cp_system (pg_copying c)))). pose proof (len_nonneg (in_progress (s_writer (cp_system (pg_copying c))))).
  pose proof (len_nonneg (all_written (cp_calls (pg_copying c)))). lia.
Qed.

Lemma examined_within source st0 c :
  prog_ok source st0 c -> m_reader_completed (s_pipeline (pg_system c)) = false -> 0 <= unexamined (pg_system c).
Proof.
  intros Hok Ho. pose proof (co_system _ _ (pk_copying _ _ _ Hok)) as Hsys. unfold unexamined, pg_system in *.
  destruct (po_open _ _ (sy_pipeline _ Hsys) Ho) as (Eb & _ & Hx & _). rewrite (content_len _ _ (sy_pipeline _ Hsys)). lia.
Qed.

Lemma read_paced source st0 spurious c s' e :
  prog_ok source st0 c -> pg_phase c = Reading ->
  (s_reader (pg_system c) = RIdle /\ e = CallRead 0 no_stop) \/
  (e = ReaderRuns /\ exists woken, s_reader (pg_system c) = RParked 0 no_stop woken /\ (woken || spurious) = true) ->
  exec e (pg_system c) = Some s' ->
  paced spurious (len source) c (Program (Copying (cp_calls (pg_copying c)) s') (after_read (s_reader s')) (pg_state c)).
Proof.
  intros Hok Ep He E. pose proof (co_system _ _ (pk_copying _ _ _ Hok)) as Hsys. pose proof (content_within _ _ _ Hok) as Hsize.
  pose proof (pk_phase _ _ _ Hok) as Hph. unfold phase_ok, between in Hph. rewrite Ep in Hph. destruct Hph as (_ & [Ho _] & _).
  unfold paced, work, amount, to_write, fresh_view, unexamined, pg_system in *. rewrite Ep.
  destruct (cp_system (pg_copying c)) as [p m w r wr co]. cbn [s_reader s_pipeline s_memory s_writer] in *. pose proof (sy_pipeline _ Hsys) as Hp. cbn in Hp.
  assert (exists p' st, s' = System p' m w (reader_after 0 st) wr co /\ section_of_read p m p' st /\
    (forall result, st = ReadReturns result -> m_writer_completed p = false -> m_examined_size p < m_buffered_size p)) as (p' & st & -> & Hsec & Hnew).
  { destruct He as [[-> ->]|(-> & woken & -> & _)]; cbn in E.
    - destruct (read_at_least p 0 no_stop) as [[p' st]| |] eqn:Er; [|done..]. injection E as <-. exists p', st. split; [done|].
      split; [by apply read_at_least_section|]. intros result ->. apply (read_shows_new p p' result). by right.
    - destruct (read_wait p 0 no_stop) as [p' st] eqn:Er. injection E as <-. exists p', st. split; [done|].
      split; [by apply read_wait_section|]. intros result ->. apply (read_shows_new p p' result). by left. }
  specialize (Hsize Ho). destruct (po_open _ _ Hp Ho) as (Eb & _ & Hx & _). pose proof (content_len p m Hp) as Hcl.
  cbn [pg_copying cp_calls cp_system pg_phase s_reader s_pipeline s_memory s_writer].
  destruct Hsec as [-> Hpp|q result -> Hq [-> Ec Hcan Hv Hby _ _]]; cbn [reader_after].
  - cbn [after_read still_reading]. split; [done|]. intros ->.
    assert (content p' m = content p m /\ m_examined_size p' = m_examined_size p /\ m_writer_paused p' = m_writer_paused p) as (-> & -> & ->)
      by (destruct Hpp as [-> | ->]; by split).
    assert (phase_rank (len source) Reading (RParked 0 no_stop false) < phase_rank (len source) Reading r); [|lia].
    destruct He as [[-> _]|(_ & [] & -> & ?)]; cbn; (done || lia).
  - rewrite Hcan. cbn [after_read still_reading s_reader].
    assert (content q m = content p m /\ m_examined_size q = m_examined_size p /\ m_writer_paused q = m_writer_paused p /\
      m_writer_completed q = m_writer_completed p) as (Eq & Ex & Epa & Ewc) by (destruct Hq as [->|[b ->]]; by split).
    change (content (set_pending_read_size _ (set_has_pending_read true q)) m) with (content q m).
    change (m_examined_size (set_pending_read_size _ (set_has_pending_read true q))) with (m_examined_size q).
    change (m_writer_paused (set_pending_read_size _ (set_has_pending_read true q))) with (m_writer_paused q).
    rewrite Hby, Eq, Ex, Epa, Ec, Ewc. split.
    + rewrite Hcl, <- Eb. split; [lia|]. intros Hc. by apply (Hnew result).
    + intros _. cbn [phase_rank]. pose proof (view_bytes_len m _ Hv) as Hvl. unfold view_size. rewrite <- Hvl, Hby, Eq.
      assert (len source + 21 <= phase_rank (len source) Reading r) by (destruct r as [|? ? []| | |]; cbn; lia). unfold phase_rank in *. lia.
Qed.

Lemma line_paced source st0 spurious c result sequence st sequence' :
  prog_ok source st0 c -> fresh_view c -> pg_phase c = Scanning result sequence ->
  position_bool (position_of (s_memory (pg_system c)) sequence x0a) = true ->
  on_line (s_memory (pg_system c)) (pg_state c) sequence (position_of (s_memory (pg_system c)) sequence x0a) = Ret (st, sequence') ->
  paced spurious (len source) c (Program (pg_copying c) (Scanning result sequence') st).
Proof.
  intros Hok Hf Ep Hpos E. destruct (scanning_facts _ _ _ _ _ Hok Ep) as (_ & _ & _ & _ & k & _ & Hv & _).
  rewrite position_of_byte in Hpos by done.
  destruct (memchr (view_bytes (s_memory (pg_system c)) sequence) x0a) as [i|] eqn:Hi; [|done].
  destruct (on_line_law (s_memory (pg_system c)) (pg_state c) sequence i Hv Hi) as (sequence1 & E1 & _ & _ & Hsize & _).
  rewrite E1 in E. destruct (line_effect _ _) as [st1| |]; try done. injection E as -> ->.
  unfold paced, fresh_view, work, amount, to_write, pg_system in *. rewrite Ep in *.
  cbn [pg_copying pg_phase still_reading phase_rank]. split; [exact Hf|]. intros _. unfold view_size. lia.
Qed.

Lemma advance_paced source st0 spurious c result sequence s' :
  prog_ok source st0 c -> fresh_view c -> pg_phase c = Scanning result sequence ->
  position_bool (position_of (s_memory (pg_system c)) sequence x0a) = false ->
  exec (CallAdvance (consumed_to sequence) (view_end sequence)) (pg_system c) = Some s' ->
  paced spurious (len source) c (Program (Copying (cp_calls (pg_copying c)) s') (Advancing (rr_completed result)) (pg_state c)).
Proof.
  intros Hok Hf Ep Hpos E. destruct (scanned_facts _ _ _ _ _ Hok Ep Hpos) as (k & Hk & _ & _ & Hc & He & _).
  destruct (scanning_facts _ _ _ _ _ Hok Ep) as (Hr & Hho & _ & _ & _ & _ & Hv & _).
  pose proof (co_system _ _ (pk_copying _ _ _ Hok)) as Hsys. pose proof (co_shown _ _ (pk_copying _ _ _ Hok) result Hr) as Hshown.
  assert (0 <= view_size sequence) as Hvs by exact (view_size_nonneg _ _ Hv). pose proof (len_nonneg source) as Hlen. pose proof (shown_within _ _ _ _ _ Hok Ep) as Hwithin.
  unfold paced, fresh_view, work, amount, to_write, unexamined, pg_system in *. rewrite Ep in *.
  destruct (cp_system (pg_copying c)) as [p m w r wr co]. cbn [s_reader s_pipeline s_memory s_writer] in *. subst r.
  pose proof (sy_completed _ Hsys) as Hpaused. cbn in Hpaused.
  destruct (advance_ok p m (consumed_to sequence) (view_end sequence)) as
    (p' & m' & Ea & _ & _ & Hcont & _ & Hex & _ & _ & Hpa & _);
    [apply Hsys|apply Hho|apply Hho|rewrite Hc, He; lia|rewrite (ho_size _ _ _ Hho), He; lia|].
  cbn in E. rewrite Ea in E. injection E as <-. cbn [pg_copying cp_calls cp_system pg_phase s_reader s_pipeline s_memory s_writer].
  split; [done|]. intros _. pose proof (writer_rank_bounds w (m_writer_paused p)). pose proof (writer_rank_bounds w (m_writer_paused p')).
  rewrite Hcont, Hex, Hc, He. set (v := view_bytes _ _) in *.
  assert (len (drop (Z.to_nat k) (content p m)) = len (content p m) - k) as -> by (unfold len in *; rewrite length_drop; lia).
  destruct Hf as [Hle Hlt]. destruct (rr_completed result); cbn [still_reading phase_rank].
  - destruct (Hshown eq_refl) as [Hwc _]. rewrite Hpa, Hpaused by (unfold is_any_completed; by rewrite Hwc). cbn [andb].
    assert (forall a b, a <= b -> (len source + 60) * a <= (len source + 60) * b) as Hmono by (intros; nia).
    set (t := len _ + len _). specialize (Hmono (2 * t + (len (content p m) - k - (len v - k))) (2 * t + (len (content p m) - m_examined_size p)) ltac:(lia)). lia.
  - specialize (Hlt eq_refl). set (t := len _ + len _).
    assert (forall a b, a + 1 <= b -> (len source + 60) * a + (len source + 60) <= (len source + 60) * b) as Hmono by (intros; nia).
    specialize (Hmono (2 * t + (len (content p m) - k - (len v - k))) (2 * t + (len (content p m) - m_examined_size p)) ltac:(lia)). lia.
Qed.

Lemma writer_rank_wake w paused : writer_rank (wake_writer w) paused <= writer_rank w paused + 1.
Proof. destruct w as [| |? []| |], paused; cbn; lia. Qed.

Lemma in_progress_wake w : in_progress (wake_writer w) = in_progress w.
Proof. by destruct w. Qed.

(** A notification: the pipeline is left alone. *)
Lemma closing_paced source st0 spurious c e ph s' :
  prog_ok source st0 c ->
  (exists b, pg_phase c = Advancing b /\ e = ReaderRuns /\ ph = if b then Leaving else Reading) \/
  (pg_phase c = Leaving /\ e = CallCompleteReader /\ ph = Completing) \/
  (pg_phase c = Completing /\ e = ReaderRuns /\ ph = Joining) ->
  exec e (pg_system c) = Some s' ->
  paced spurious (len source) c (Program (Copying (cp_calls (pg_copying c)) s') ph (pg_state c)).
Proof.
  intros Hok Hcase E. pose proof (pk_phase _ _ _ Hok) as Hph. pose proof (examined_within _ _ _ Hok) as Hun.
  pose proof (sy_completed _ (co_system _ _ (pk_copying _ _ _ Hok))) as Hpaused. pose proof (len_nonneg source) as Hlen.
  unfold phase_ok, between, ended in Hph. unfold paced, fresh_view, work, amount, to_write, unexamined, pg_system in *.
  destruct (cp_system (pg_copying c)) as [p m w r wr co]. cbn [s_reader s_pipeline s_memory s_writer] in *.
  pose proof (writer_rank_wake w (m_writer_paused p)) as Hwake.
  cbn [pg_copying cp_calls cp_system pg_phase s_reader s_pipeline s_memory s_writer].
  destruct Hcase as [(b & Ep & -> & ->)|[(Ep & -> & ->)|(Ep & -> & ->)]]; rewrite Ep in *; (split; [by try destruct b|intros _]).
  - destruct Hph as ([n ->] & [Ho _] & _). specialize (Hun Ho). injection E as <-. cbn [s_reader s_pipeline s_memory s_writer].
    assert (in_progress (if n then wake_writer w else w) = in_progress w /\
      writer_rank (if n then wake_writer w else w) (m_writer_paused p) <= writer_rank w (m_writer_paused p) + 1) as [-> Hrank]
      by (destruct n; (split; [by rewrite ?in_progress_wake|lia])).
    destruct b; cbn [still_reading phase_rank]; nia.
  - destruct Hph as (-> & _ & _ & Hw & _). injection E as <-. cbn [s_reader s_pipeline s_memory s_writer still_reading phase_rank].
    change (m_writer_paused (complete_reader p)) with false.
    rewrite Hpaused by (unfold is_any_completed; by rewrite Hw). lia.
  - destruct Hph as (-> & _). injection E as <-. cbn [s_reader s_pipeline s_memory s_writer still_reading phase_rank].
    rewrite ?in_progress_wake. lia.
Qed.

Lemma main_paced source st0 spurious c c' :
  prog_ok source st0 c -> fresh_view c -> main_next spurious c = Some c' -> paced spurious (len source) c c'.
Proof.
  intros Hok Hf E. unfold main_next, main_runs in E.
  destruct (pg_phase c) as [|result sequence|b| | | | |] eqn:Ep; try done.
  - assert (forall e, (s_reader (pg_system c) = RIdle /\ e = CallRead 0 no_stop) \/
      (e = ReaderRuns /\ exists woken, s_reader (pg_system c) = RParked 0 no_stop woken /\ (woken || spurious) = true) ->
      (s' ← exec e (pg_system c); Some (Program (Copying (cp_calls (pg_copying c)) s') (after_read (s_reader s')) (pg_state c))) = Some c' ->
      paced spurious (len source) c c') as Hread.
    { intros e He Er. destruct (exec e (pg_system c)) as [s'|] eqn:Es; [|done]. injection Er as <-. by eapply read_paced. }
    pose proof (pk_phase _ _ _ Hok) as Hph. unfold phase_ok in Hph. rewrite Ep in Hph. destruct Hph as [[Hr|[woken Hr]] _]; rewrite Hr in E.
    + apply (Hread (CallRead 0 no_stop)); [by left|]. destruct (read_at_least _ 0 no_stop) eqn:Er; [done| |done].
      destruct (read_step_ok source st0 c (CallRead 0 no_stop) Hok Ep) as (s' & Es & _); [by left|].
      destruct (pg_system c) as [p m w r wr co]. cbn in Er, Es, Hr. rewrite Hr, Er in Es. by destruct w.
    + destruct (woken || spurious) eqn:Hws; [|done]. apply (Hread ReaderRuns); [right; eauto|done].
  - destruct (position_bool _) eqn:Hpos.
    + pose proof (line_step_ok source st0 c result sequence Hok Ep Hpos) as Hline. cbv zeta in Hline.
      destruct (on_line _ _ _ _) as [[st sequence']|e|] eqn:El; [injection E as <-; by eapply line_paced|done|done].
    + destruct (advance_step_ok source st0 c result sequence Hok Ep Hpos) as (s' & Es & Hthrow & _).
      rewrite Es in E. destruct (advance _ _ _ _) as [x|e|] eqn:Ea; [|by destruct (Hthrow e)|]; injection E as <-;
        by eapply advance_paced.
  - destruct (exec ReaderRuns (pg_system c)) as [s'|] eqn:Es; [|done]. injection E as <-.
    eapply closing_paced; [done| |done]. left. by exists b.
  - destruct (exec CallCompleteReader (pg_system c)) as [s'|] eqn:Es; [|done]. injection E as <-.
    eapply closing_paced; [done| |done]. by right; left.
  - destruct (exec ReaderRuns (pg_system c)) as [s'|] eqn:Es; [|done]. injection E as <-.
    eapply closing_paced; [done| |done]. by right; right.
  - destruct (producer_done c); [|done]. injection E as <-. split; [done|]. intros _.
    unfold work, amount, to_write, pg_system. rewrite Ep. cbn [pg_copying pg_phase still_reading phase_rank]. lia.
Qed.

(** ** Runs *)

Lemma producer_fresh source st0 spurious c c' :
  prog_ok source st0 c -> fresh_view c -> producer_next spurious c = Some c' -> fresh_view c'.
Proof.
  intros Hok Hf E. pose proof (producer_step_ok _ _ _ _ _ Hok E) as Hok'.
  destruct (producer_event _ _ _ _ _ Hok E) as (e & calls & s' & He & Es & ->).
  pose proof (co_system _ _ (pk_copying _ _ _ Hok)) as Hsys. pose proof (co_system _ _ (pk_copying _ _ _ Hok')) as Hsys'.
  pose proof (writer_event_frame e (pg_system c) s' Hsys (producer_event_writes _ _ _ He) Es) as Hfr.
  unfold fresh_view in *. cbn [pg_phase] in *. destruct (pg_phase c) as [|result sequence|b| | | | |] eqn:Ep; try done.
  destruct (scanning_facts _ _ _ _ _ Hok Ep) as [Hr _].
  edestruct (scanning_facts source st0 (Program (Copying calls s') (Scanning result sequence) (pg_state c))) as [Hr' _]; [exact Hok'|done|].
  change (pg_system (Program _ _ _)) with s' in *.
  rewrite (wf_examined _ _ Hfr), (holding_stable (pg_system c) s' result Hsys Hsys' Hfr Hr Hr'). exact Hf.
Qed.

(** A step that is not a spurious wake-up. *)
Definition quiet_step c c' : Prop := producer_next false c = Some c' \/ main_next false c = Some c'.

Lemma quiet_prog_step c c' : quiet_step c c' -> prog_step c c'.
Proof. intros [E|E]; [by eapply ProgProducer|by eapply ProgMain]. Qed.

Lemma fresh_view_step source st0 c c' : prog_ok source st0 c -> fresh_view c -> prog_step c c' -> fresh_view c'.
Proof.
  intros Hok Hf Hs. destruct Hs as [spurious c1 c2 E|spurious c1 c2 E]; [exact (producer_fresh _ _ _ _ _ Hok Hf E)|by destruct (main_paced source st0 spurious c1 c2 Hok Hf E)].
Qed.

Lemma quiet_step_work source st0 c c' :
  prog_ok source st0 c -> fresh_view c -> quiet_step c c' -> work (len source) c' < work (len source) c.
Proof.
  intros Hok Hf [E|E]; [by eapply producer_work|]. by apply (main_paced source st0 false c c').
Qed.

Lemma prog_work_nonneg source st0 c : prog_ok source st0 c -> 0 <= work (len source) c.
Proof.
  intros Hok. pose proof (len_nonneg source). pose proof (len_nonneg (cp_calls (pg_copying c))).
  pose proof (len_nonneg (in_progress (s_writer (pg_system c)))). pose proof (len_nonneg (all_written (cp_calls (pg_copying c)))).
  pose proof (writer_rank_bounds (s_writer (pg_system c)) (m_writer_paused (s_pipeline (pg_system c)))).
  assert (0 <= phase_rank (len source) (pg_phase c) (s_reader (pg_system c))).
  { destruct (pg_phase c) as [|result sequence|[]| | | | |] eqn:Ep; cbn; try lia.
    - destruct (s_reader _) as [|? ? []| | |]; lia.
    - destruct (scanning_facts _ _ _ _ _ Hok Ep) as (_ & _ & _ & _ & _ & _ & Hv & _).
      pose proof (view_size_nonneg _ _ Hv). unfold view_size. lia. }
  assert (0 <= amount c); [|unfold work; nia]. unfold amount, to_write.
  destruct (still_reading (pg_phase c)) eqn:Es; [|lia]. pose proof (examined_within _ _ _ Hok) as Hx.
  assert (m_reader_completed (s_pipeline (pg_system c)) = false) as Ho; [|specialize (Hx Ho); lia].
  pose proof (pk_phase _ _ _ Hok) as Hph. unfold phase_ok in Hph. destruct (pg_phase c) as [|result sequence|[]| | | | |] eqn:Ep; try done.
  - apply Hph.
  - destruct (scanning_facts _ _ _ _ _ Hok Ep) as (_ & Hho & _). apply Hho.
  - apply Hph.
  - apply Hph.
Qed.

Lemma quiet_run_work source st0 n c c' :
  prog_ok source st0 c -> fresh_view c -> nsteps quiet_step n c c' ->
  Z.of_nat n + work (len source) c' <= work (len source) c.
Proof.
  intros Hok Hf Hrun. induction Hrun as [c|n c1 c2 c3 Hs Hrun IH]; [lia|].
  pose proof (quiet_step_work _ _ _ _ Hok Hf Hs). apply quiet_prog_step in Hs as Hp.
  specialize (IH (prog_step_ok _ _ _ _ Hok Hp) (fresh_view_step _ _ _ _ Hok Hf Hp)). lia.
Qed.

Lemma start_fresh calls p m st0 c :
  forall source, prog_ok source st0 (start calls p m st0) -> rtc prog_step (start calls p m st0) c -> fresh_view c.
Proof.
  intros source Hok Hrun.
  assert (prog_ok source st0 c /\ fresh_view c) as [_ ?]; [|done].
  eapply (rtc_invariant prog_step (fun c => prog_ok source st0 c /\ fresh_view c)); [|exact Hrun|done].
  intros c1 c2 [Hok1 Hf1] Hs. split; [by eapply prog_step_ok|by eapply fresh_view_step].
Qed.

(** From any state a run comes to, spurious wake-ups or not, [main] returns
    after boundedly many more steps that are not: such runs are all bounded,
    and one that cannot go on has [main] returned. *)
Definition ends (bound : Z) c : Prop :=
  (forall n c', nsteps quiet_step n c c' -> Z.of_nat n <= bound) /\
  (forall c', rtc quiet_step c c' -> pg_phase c' = Finished \/ exists c'', quiet_step c' c'').

Lemma prog_ends source calls p m st0 c st' :
  fresh p m -> m_writer_completed p = false -> m_reader_completed p = false -> m_has_pending_read p = false ->
  suited source calls p -> (keeps_partial = true -> lines_fit source p) -> lines_effect st0 (split_lines source).1 = Ret st' ->
  rtc prog_step (start calls p m st0) c -> ends (work (len source) c) c.
Proof.
  intros Hf Hw Hr Hp Hs Hfit Hfits Hrun.
  pose proof (start_ok source calls p m st0 Hf Hw Hr Hp Hs) as Hstart.
  pose proof (prog_reachable_ok _ _ _ _ st0 _ Hf Hw Hr Hp Hs Hrun) as Hok.
  pose proof (start_fresh calls p m st0 c source Hstart Hrun) as Hfresh. split.
  - intros n c' Hq. pose proof (quiet_run_work _ _ _ _ _ Hok Hfresh Hq).
    assert (prog_ok source st0 c') as Hok'; [|pose proof (prog_work_nonneg _ _ _ Hok'); lia].
    clear - Hok Hq. induction Hq as [|n c1 c2 c3 Hs Hq IH]; [done|]. apply IH. by eapply prog_step_ok; [|apply quiet_prog_step].
  - intros c' Hq. edestruct (prog_progress source calls p m st0 c' st') as [?|[c'' E]]; try done; [|by left|by right; exists c''].
    etrans; [exact Hrun|]. clear -Hq. induction Hq as [|c1 c2 c3 H12 Hq IH]; [done|]. eapply rtc_l; [by apply quiet_prog_step|done].
Qed.

(** A bounded run that can always go on until [main] has returned gets there. *)
Lemma ends_somewhere bound c : ends bound c -> exists c', rtc quiet_step c c' /\ pg_phase c' = Finished.
Proof.
  intros [Hb Hgo].
  assert (forall k n c', nsteps quiet_step n c c' -> bound - Z.of_nat n <= Z.of_nat k ->
    exists c'', rtc quiet_step c c'' /\ pg_phase c'' = Finished) as Hall.
  { induction k as [|k IH]; intros n c' Hn Hk.
    - destruct (Hgo c') as [?|[c2 Hc2]]; [by eapply rtc_nsteps_2|exists c'; split; [by eapply rtc_nsteps_2|done]|].
      pose proof (Hb (S n) c2 ltac:(by eapply nsteps_r)). lia.
    - destruct (Hgo c') as [?|[c2 Hc2]]; [by eapply rtc_nsteps_2|exists c'; split; [by eapply rtc_nsteps_2|done]|].
      eapply (IH (S n) c2); [by eapply nsteps_r|lia]. }
  eapply (Hall (Z.to_nat bound) O c); [constructor|lia].
Qed.
End ends.
