(* ===== verification/PipelineSample.v ===== *)
(** [samples/pipeline.cpp]: a producer writes lines of random lengths, [main]
    counts them and their bytes. *)

From S2P Require Import Prelude Memory Position ByteView Lines Resource Pools Segment Pipeline PipelineProofs PipelineSpace.
From S2P Require Import PipelineTheorems PipelineSystem PipelineEvents PipeUtils PipeCopy LineReader LineReaderEnds.

(** [int] *)
Definition INT_MAX : Z := 2 ^ 31 - 1.
Definition int_increment (n : Z) : outcome Z := if n =? INT_MAX then Undef else Ret (n + 1).

Definition sample_options : pipe_options :=
  PipeOptions 1024 (1024 * 128) (1024 * 256) kind_fixed_pool_resource.

(** The producer's calls; [rands] are the results of [std::rand()]. *)
Definition sample_message (rand : Z) : bytes :=
  let randSize := 1024 * 2 in
  replicate (Z.to_nat (Z.rem rand randSize + 256)) x78 ++ [x0a].

Definition producer_calls (rands : list Z) : list writer_call :=
  WriterWrite (text "First message
") :: map (fun rand => WriterWrite (sample_message rand)) rands ++ [WriterComplete].

Record counts := Counts { lineCount : Z; byteCount : Z }.

(** The body of the inner loop. *)
Definition count_line (m : memory) (st : counts) (readOnlySequence : segmented_byte_view) (newLinePos : position)
    : outcome (counts * segmented_byte_view) :=
  let newLinePos := position_add_assign newLinePos 1 in
  lineBytes ← slice_end readOnlySequence newLinePos;
  lineCount ← int_increment (lineCount st);
  let byteCount := byteCount st +! view_size lineBytes in
  readOnlySequence ← slice_in_place readOnlySequence newLinePos (view_end readOnlySequence);
  Ret (Counts lineCount byteCount, readOnlySequence).

#[export] Instance counts_client : LineClient counts := {
  on_line := count_line;
  consumed_to := view_begin
}.

(** [main], once the pipeline is there and the producer started. *)
Definition sample_main {R} `{ResourceLaws R} (rands : list Z) (p : pipeline R) (m : memory) : program :=
  start (producer_calls rands) p m (Counts 0 0).

(** ** A line, on bytes *)

Definition count_bytes (st : counts) (line : bytes) : outcome counts :=
  lineCount ← int_increment (lineCount st); Ret (Counts lineCount (byteCount st +! (len line + 1))).

Lemma count_line_law m st v i :
  view_ok m v -> memchr (view_bytes m v) x0a = Some i ->
  exists v', count_line m st v (position_of m v x0a) =
    (st' ← count_bytes st (take i (view_bytes m v)); Ret (st', v')) /\ tail_of v v' (Z.of_nat (S i)).
Proof.
  intros Hok Hi. destruct (memchr_split _ _ _ Hi) as (_ & _ & Hlt).
  pose proof (view_bytes_len m v Hok) as Hlen. destruct (Hok) as [_ _ H0 Hmax]. unfold len in Hlen.
  unfold count_line. rewrite position_of_byte, Hi by done. cbn [position_result].
  assert (position_add_assign (position_at (m_begin_offset v + Z.of_nat i)) 1
    = position_at (m_begin_offset v + Z.of_nat (S i))) as ->.
  { unfold position_add_assign, position_at. cbn. unwrap. f_equal. lia. }
  set (pos := position_at _). change (slice_end v pos) with (slice v (view_begin v) pos).
  destruct (slice_ret m v (view_begin v) pos) as (line & -> & _ & _ & Hs & _); [done|cbn; lia|cbn; lia|].
  destruct (slice_tail_of m v pos) as (v' & -> & Ht); [done|cbn; lia|].
  exists v'. cbn in Hs, Ht. replace (m_begin_offset v + Z.of_nat (S i) - m_begin_offset v) with (Z.of_nat (S i)) in * by lia.
  split; [|done]. unfold count_bytes. cbn [mbind outcome_bind].
  destruct (int_increment (lineCount st)); [|done..]. cbn [mbind outcome_bind]. unfold view_size. rewrite Hs. do 4 f_equal.
  unfold len. rewrite length_take. lia.
Qed.

#[export] Instance counts_laws : LineClientLaws counts.
Proof.
  refine {| line_effect := count_bytes; keeps_partial := true; on_line_law := count_line_law |}; [|done].
  intros st line e. unfold count_bytes, int_increment. by destruct (_ =? _).
Defined.

(** ** What is counted *)

Lemma count_lines st lines :
  0 <= lineCount st -> lineCount st + len lines <= INT_MAX ->
  exists n, lines_effect st lines = Ret n /\ lineCount n = lineCount st + len lines /\
    (0 <= byteCount st -> byteCount st + len (concat (map (fun line => line ++ [x0a]) lines)) < size_modulus ->
     byteCount n = byteCount st + len (concat (map (fun line => line ++ [x0a]) lines))).
Proof.
  revert st. induction lines as [|line lines IH]; intros st H0 Hm.
  - exists st. split; [done|]. unfold len. cbn. lia.
  - rewrite len_cons in *. pose proof (len_nonneg lines). cbn [lines_effect line_effect counts_laws]. unfold count_bytes, int_increment.
    destruct (Z.eqb_spec (lineCount st) INT_MAX); [lia|]. cbn [mbind outcome_bind].
    destruct (IH (Counts (lineCount st + 1) (byteCount st +! (len line + 1)))) as (n' & E & El & Eb); [cbn; lia..|].
    cbn [lineCount byteCount] in *. exists n'. split; [exact E|]. split; [lia|]. intros Hb Hlt.
    change (concat (map (fun line => line ++ [x0a]) (line :: lines)))
      with ((line ++ [x0a]) ++ concat (map (fun line => line ++ [x0a]) lines)) in *.
    rewrite !len_app in *. change (len [x0a]) with 1 in *.
    pose proof (len_nonneg line). pose proof (len_nonneg (concat (map (fun line => line ++ [x0a]) lines))).
    unwrap in Eb. lia.
Qed.

Definition first_line : bytes := text "First message".
Definition random_line (rand : Z) : bytes := replicate (Z.to_nat (Z.rem rand (1024 * 2) + 256)) x78.
Definition sample_lines (rands : list Z) : list bytes := first_line :: map random_line rands.
Definition sample_source (rands : list Z) : bytes := concat (map (fun line => line ++ [x0a]) (sample_lines rands)).

Definition rand_ok (rand : Z) : Prop := 0 <= rand <= INT_MAX.

Lemma random_line_ok rand : rand_ok rand -> (x0a ∉ random_line rand) /\ 256 <= len (random_line rand) <= 2303.
Proof.
  intros [H0 _]. split; [intros Hin; by apply elem_of_replicate in Hin as [? _]|].
  unfold len, random_line. rewrite length_replicate. change (1024 * 2) with 2048. pose proof (Z.rem_bound_pos rand 2048 H0 ltac:(lia)). lia.
Qed.

Lemma sample_lines_ok rands : Forall rand_ok rands ->
  Forall (fun line => (x0a ∉ line) /\ len line <= 2303) (sample_lines rands).
Proof.
  intros Hr. apply Forall_cons. split; [split; [by apply (bool_decide_unpack _); vm_compute|done]|].
  apply Forall_map. eapply Forall_impl; [exact Hr|]. intros rand Hrand. destruct (random_line_ok rand Hrand). split; [done|lia].
Qed.

Lemma sample_source_split rands : Forall rand_ok rands ->
  split_lines (sample_source rands) = (sample_lines rands, []).
Proof. intros Hr. apply split_lines_concat. eapply Forall_impl; [by apply sample_lines_ok|]. by intros ? [? _]. Qed.

(** The bytes fit a [std::size_t]. *)
Lemma sample_size rands : Forall rand_ok rands -> len rands < INT_MAX -> 0 + len (sample_source rands) < size_modulus.
Proof.
  intros Hr Hlen. assert (len (sample_source rands) <= 14 + 2304 * len rands) as Hb; [|unfold INT_MAX, size_modulus in *; lia].
  unfold sample_source, sample_lines. cbn [map concat]. rewrite len_app. change (len (first_line ++ [x0a])) with 14.
  apply Z.add_le_mono_l. clear Hlen. induction Hr as [|rand rands Hrand _ IH]; [done|]. cbn [map concat].
  rewrite !len_app, (len_cons rand). change (len [x0a]) with 1. destruct (random_line_ok rand Hrand). lia.
Qed.

Lemma producer_copies rands : copies (sample_source rands) (producer_calls rands).
Proof.
  exists (WriterWrite (text "First message
") :: map (fun rand => WriterWrite (sample_message rand)) rands). split; [done|]. split.
  - unfold sample_source, sample_lines, all_written. cbn [map concat written_by]. f_equal. rewrite !map_map. done.
  - apply Forall_cons. split; [done|]. apply Forall_map, Forall_true. intros rand. split; [done|].
    cbn. unfold sample_message. by destruct (replicate _ _).
Qed.

Section sample.
Context {U : Type} `{ResourceLaws U} (make_unsynchronized : Z -> Z -> memory -> outcome (U * memory)).

Lemma sample_pipeline experimental p m :
  construct make_unsynchronized experimental sample_options empty_memory = Ret (p, m) ->
  fresh p m /\ m_writer_completed p = false /\ m_reader_completed p = false /\ m_has_pending_read p = false /\
  resumable p /\ m_buffer_size p = 1024 /\ total_room p = 262144.
Proof.
  intros E. destruct (construct_ok make_unsynchronized experimental sample_options) as
    (p' & m' & E' & Hok & Hc & _ & Hp & Hr & Hb & Hwc & Hrc & Hpa & Hpend); [done|by split_and!|by split_and!|done|].
  rewrite E in E'. injection E' as <- <-. split; [by split|]. split_and!; try done.
  - unfold resumable. by rewrite Hb, Hr, Hp.
  - unfold total_room. by rewrite Hb, Hp.
Qed.

(** C15: pipeline.cpp, under every interleaving and spurious wake-up: no thread
    ends the process by an exception; from every state the threads come to,
    they never wait for each other, and [main] returns after boundedly many
    steps that are not spurious wake-ups; and when it has returned it has
    counted every message, and every byte of them. *)
Theorem pipeline_sample_counts experimental rands p m c
    (Hctor : construct make_unsynchronized experimental sample_options empty_memory = Ret (p, m))
    (Hrands : Forall rand_ok rands) (Hcount : len rands < INT_MAX)
    (Hrun : rtc prog_step (sample_main rands p m) c) :
  pg_phase c ≠ Terminated /\ ends (work (len (sample_source rands)) c) c /\
  (exists c', rtc quiet_step c c' /\ pg_phase c' = Finished) /\
  (pg_phase c = Finished ->
    lineCount (pg_state c) = 1 + len rands /\
    byteCount (pg_state c) = len (text "First message
") + len (concat (map sample_message rands))).
Proof.
  destruct (sample_pipeline experimental p m Hctor) as (Hf & Hw & Hr & Hp & Hres & Hsz & Hroom).
  pose proof (sample_source_split rands Hrands) as Hsplit. pose proof (sample_lines_ok rands Hrands) as Hlines.
  assert (suited (A := counts) (sample_source rands) (producer_calls rands) p) as Hs by (split; [apply producer_copies|done]).
  pose proof (prog_reachable_ok _ _ _ _ (Counts 0 0) _ Hf Hw Hr Hp Hs Hrun) as Hok.
  destruct (count_lines (Counts 0 0) (sample_lines rands)) as (n & En & Eln & Ebn); [done|..].
  { cbn [lineCount]. unfold sample_lines. rewrite len_cons. unfold len in *. rewrite length_map. lia. }
  assert (ends (work (len (sample_source rands)) c) c) as Hends.
  { eapply (prog_ends (sample_source rands) _ p m (Counts 0 0) c n); try done; [|by rewrite Hsplit].
    intros _. split; [done|]. exists 2303. rewrite Hsz, Hroom. split; [|lia]. split; rewrite Hsplit; [|done].
    eapply Forall_impl; [exact Hlines|]. by intros ? [_ ?]. }
  split; [by eapply not_terminated|]. split; [exact Hends|]. split; [by eapply ends_somewhere|].
  intros E. destruct (prog_result _ _ _ Hok E) as [Er _]. rewrite Hsplit in Er. cbn [fst] in Er.
  rewrite En in Er. injection Er as <-. split; [rewrite Eln; cbn [lineCount]; unfold sample_lines; rewrite len_cons; unfold len; rewrite length_map; lia|].
  rewrite Ebn; [|done|by apply sample_size].
  cbn [byteCount]. unfold sample_lines. cbn [map concat]. rewrite len_app, map_map. done.
Qed.
End sample.

(** ** A run, with two messages *)

Definition sample_start : program (A := counts) :=
  match construct fixed_as_unsynchronized false sample_options empty_memory with
  | Ret (p, m) => sample_main [5; 4000] p m
  | _ => sample_main [] (Pipeline (FixedPool (Fixed.Pool [] 0 0)) [] 0 0 0 0 0 0 0 false false false false false) empty_memory
  end.

Definition sample_end : program := run_program 200 sample_start.

Lemma pipeline_sample_counts_witness :
  pg_phase sample_end = Finished /\ lineCount (pg_state sample_end) = 3 /\
  byteCount (pg_state sample_end) = 14 + len (concat (map sample_message [5; 4000])).
Proof.
  assert (pg_phase sample_end = Finished) as Hf by (vm_compute; reflexivity).
  destruct (construct fixed_as_unsynchronized false sample_options empty_memory) as [[p m]| |] eqn:E; [|discriminate E..].
  destruct (pipeline_sample_counts fixed_as_unsynchronized false [5; 4000] p m sample_end E) as (_ & _ & _ & Hc).
  - by repeat constructor.
  - done.
  - unfold sample_end, sample_start. rewrite E. apply run_program_steps.
  - split; [exact Hf|]. exact (Hc Hf).
Defined.
