(* ===== verification/StdinSample.v ===== *)
(** [samples/stdin.cpp]: a thread writes what is typed, line by line, up to an
    empty line; [main] echoes the lines.

    [main] advances over everything it was shown, so a line whose bytes do not
    arrive in one snapshot loses its beginning. *)

From S2P Require Import Prelude Memory Position ByteView Lines Text Resource Pools Segment Pipeline PipelineProofs PipelineSpace.
From S2P Require Import PipelineTheorems PipelineSystem PipelineEvents PipeUtils PipeCopy LineReader LineReaderEnds.

Definition stdin_options : pipe_options :=
  PipeOptions 64 (resume_writer_threshold default_options) (pause_writer_threshold default_options)
    (allocator default_options).

(** [std::getline(std::cin, line)] until it fails: the last line may lack its
    newline. *)
Definition getlines (input : bytes) : list bytes :=
  let '(lines, rest) := split_lines input in
  if len rest =? 0 then lines else lines ++ [rest].

(** The loop of [start_stdin_reader]. *)
Fixpoint stdin_loop (lines : list bytes) : list writer_call :=
  match lines with
  | [] => []
  | line :: lines => if len line =? 0 then [] else WriterWrite (line ++ [x0a]) :: stdin_loop lines
  end.

Definition stdin_calls (input : bytes) : list writer_call := stdin_loop (getlines input) ++ [WriterComplete].

(** What [consume] has printed. *)
Record console := Console { printed : bytes }.

Definition echo_text (line : bytes) : bytes := format "	ECHO: {}
" [Str line].

(** The body of [consume]'s inner loop. *)
Definition echo_line (m : memory) (st : console) (buffer : segmented_byte_view) (pos : position)
    : outcome (console * segmented_byte_view) :=
  lineBytes ← slice_end buffer pos;
  line ← to_string m lineBytes;
  let st := Console (printed st ++ echo_text line) in
  buffer ← slice_in_place buffer (position_add pos 1) (view_end buffer);
  Ret (st, buffer).

#[export] Instance echo_client : LineClient console := {
  on_line := echo_line;
  consumed_to := view_end
}.

Definition stdin_main {R} `{ResourceLaws R} (input : bytes) (p : pipeline R) (m : memory) : program :=
  start (stdin_calls input) p m (Console []).

(** ** A line, on bytes *)

Definition echo_bytes (st : console) (line : bytes) : outcome console := Ret (Console (printed st ++ echo_text line)).

Lemma echo_line_law m st v i :
  view_ok m v -> memchr (view_bytes m v) x0a = Some i ->
  exists v', echo_line m st v (position_of m v x0a) =
    (st' ← echo_bytes st (take i (view_bytes m v)); Ret (st', v')) /\ tail_of v v' (Z.of_nat (S i)).
Proof.
  intros Hok Hi. destruct (line_slices m v i Hok Hi) as (line & v' & Hlv & Hby & _ & Es & Esi & Ht).
  unfold echo_line. rewrite Es. cbn [mbind outcome_bind]. rewrite to_string_bytes by done. cbn [mbind outcome_bind].
  rewrite Esi. exists v'. by rewrite Hby.
Qed.

#[export] Instance echo_laws : LineClientLaws console.
Proof. by refine {| line_effect := echo_bytes; keeps_partial := false; on_line_law := echo_line_law |}. Defined.

(** ** What is echoed *)

(** The lines before the first empty one. *)
Fixpoint echoed (lines : list bytes) : list bytes :=
  match lines with
  | [] => []
  | line :: lines => if len line =? 0 then [] else line :: echoed lines
  end.

Definition stdin_source (input : bytes) : bytes := concat (map (fun line => line ++ [x0a]) (echoed (getlines input))).

Lemma stdin_loop_echoed lines : stdin_loop lines = map (fun line => WriterWrite (line ++ [x0a])) (echoed lines).
Proof. induction lines as [|line lines IH]; [done|]. cbn. destruct (len line =? 0); [done|]. cbn. by rewrite IH. Qed.

Lemma getlines_lines input : Forall (fun line => x0a ∉ line) (echoed (getlines input)).
Proof.
  assert (Forall (fun line => x0a ∉ line) (getlines input)) as Hl.
  { destruct (split_lines_join input) as (_ & Hls & Hr). unfold getlines. destruct (split_lines input) as [ls r].
    destruct (len r =? 0); [done|]. apply Forall_app. split; [done|by apply Forall_singleton]. }
  induction Hl as [|line lines Hline _ IH]; [constructor|]. cbn. destruct (len line =? 0); [constructor|by constructor].
Qed.

Lemma stdin_copies input : copies (stdin_source input) (stdin_calls input).
Proof.
  unfold stdin_calls. rewrite stdin_loop_echoed. eexists. split; [done|]. split.
  - unfold stdin_source, all_written. by rewrite map_map.
  - apply Forall_map, Forall_true. intros line. split; [done|]. cbn. by destruct line.
Qed.

Lemma stdin_whole input : Forall (fun call => whole (written_by call)) (stdin_calls input).
Proof.
  unfold stdin_calls. rewrite stdin_loop_echoed. apply Forall_app. split; [|by apply Forall_singleton].
  apply Forall_map. eapply Forall_impl; [apply getlines_lines|]. intros line Hl. cbn. unfold whole.
  by rewrite split_lines_first.
Qed.

Lemma echo_lines st lines :
  lines_effect st lines = Ret (Console (printed st ++ concat (map echo_text lines))).
Proof.
  revert st. induction lines as [|line lines IH]; intros st; cbn [lines_effect map concat].
  - rewrite app_nil_r. by destruct st.
  - cbn [line_effect echo_laws]. unfold echo_bytes. cbn [mbind outcome_bind]. rewrite IH. cbn [printed]. by rewrite app_assoc.
Qed.

Section sample.
Context {U : Type} `{ResourceLaws U} (make_unsynchronized : Z -> Z -> memory -> outcome (U * memory)).

Lemma stdin_pipeline experimental p m :
  construct make_unsynchronized experimental stdin_options empty_memory = Ret (p, m) ->
  fresh p m /\ m_writer_completed p = false /\ m_reader_completed p = false /\ m_has_pending_read p = false /\
  total_room p = 131072.
Proof.
  intros E. destruct (construct_ok make_unsynchronized experimental stdin_options) as
    (p' & m' & E' & Hok & Hc & _ & Hp & _ & Hb & Hwc & Hrc & Hpa & Hpend); [done|by split_and!|by split_and!|done|].
  rewrite E in E'. injection E' as <- <-. split; [by split|]. split_and!; try done.
  unfold total_room. by rewrite Hb, Hp.
Qed.

(** C16: stdin.cpp echoes every line up to the first empty one, under every
    interleaving, when together they fit the pipeline: the process is not
    ended by an exception, [main] returns after boundedly many steps that are
    not spurious wake-ups, and then the console shows the lines in order. *)
Theorem stdin_echoes experimental input p m c
    (Hctor : construct make_unsynchronized experimental stdin_options empty_memory = Ret (p, m))
    (Hfit : len (stdin_source input) <= 131072) (Hrun : rtc prog_step (stdin_main input p m) c) :
  pg_phase c ≠ Terminated /\ ends (work (len (stdin_source input)) c) c /\
  (exists c', rtc quiet_step c c' /\ pg_phase c' = Finished) /\
  (pg_phase c = Finished -> printed (pg_state c) = concat (map echo_text (echoed (getlines input)))).
Proof.
  destruct (stdin_pipeline experimental p m Hctor) as (Hf & Hw & Hr & Hp & Hroom).
  pose proof (split_lines_concat _ (getlines_lines input)) as Hsplit.
  assert (suited (A := console) (stdin_source input) (stdin_calls input) p) as Hs.
  { split; [apply stdin_copies|]. intros _. split; [lia|apply stdin_whole]. }
  pose proof (prog_reachable_ok _ _ _ _ (Console []) _ Hf Hw Hr Hp Hs Hrun) as Hok.
  assert (ends (work (len (stdin_source input)) c) c) as Hends
    by (eapply (prog_ends (stdin_source input) _ p m (Console []) c); try done; apply echo_lines).
  split; [by eapply not_terminated|]. split; [exact Hends|]. split; [by eapply ends_somewhere|].
  intros E. destruct (prog_result _ _ _ Hok E) as [Er _]. rewrite echo_lines in Er. injection Er as <-.
  unfold stdin_source. by rewrite Hsplit.
Qed.
End sample.

(** ** Runs *)

Definition typed : bytes := text "hello
world

not echoed
".

Definition stdin_start : program (A := console) :=
  match construct fixed_as_unsynchronized false stdin_options empty_memory with
  | Ret (p, m) => stdin_main typed p m
  | _ => stdin_main [] (Pipeline (FixedPool (Fixed.Pool [] 0 0)) [] 0 0 0 0 0 0 0 false false false false false) empty_memory
  end.

Definition stdin_end : program := run_program 200 stdin_start.

Lemma stdin_echoes_witness :
  pg_phase stdin_end = Finished /\ printed (pg_state stdin_end) = text "	ECHO: hello
	ECHO: world
".
Proof.
  assert (pg_phase stdin_end = Finished) as Hf by (vm_compute; reflexivity).
  destruct (construct fixed_as_unsynchronized false stdin_options empty_memory) as [[p m]| |] eqn:E; [|discriminate E..].
  destruct (stdin_echoes fixed_as_unsynchronized false typed p m stdin_end E) as (_ & _ & _ & Hc).
  - vm_compute. discriminate.
  - unfold stdin_end, stdin_start. rewrite E. apply run_program_steps.
  - split; [exact Hf|]. rewrite (Hc Hf). reflexivity.
Defined.

(** In a pipeline of 16 bytes, as in the sample's with a line of more than
    131072: the write stops in the middle of the line, and [main] consumes
    the beginning, in which there is no newline; only the end is echoed. *)
Theorem stdin_loses_the_start_of_a_long_line :
  exists c, rtc prog_step (stdin_main (text "abcdefghijklmnopqrst
") demo empty_memory) c /\ pg_phase c = Finished /\ printed (pg_state c) = text "	ECHO: qrst
".
Proof.
  exists (run_program 200 (stdin_main (text "abcdefghijklmnopqrst
") demo empty_memory)).
  split; [apply run_program_steps|]. split; vm_compute; reflexivity.
Qed.
