(* ===== verification/Channel.v ===== *)
(** [xtd::channel] (src/channel/channel_impl.h) with its endpoints
    (channel_writer.h, channel_reader.h, channel_enums.h).

    As in Pipeline.v, every definition is one critical section; the waits
    are cut where they park.  [T] is the element type; what [emplace]
    constructs from its arguments is the value pushed. *)

From S2P Require Import Prelude.

Inductive block_strategy := WAIT | TRY.

Inductive channel_read_errors := REQUEST_CANCELLED | CHANNEL_EMPTY.

#[export] Instance channel_read_errors_eq_decision : EqDecision channel_read_errors.
Proof. solve_decision. Defined.

Record channel (T : Type) := Channel {
  m_queue : list T; (* front() is the first element *)
  m_read_waiters : Z;
  m_write_waiters : Z;
  m_capacity : Z;
  m_writer_completed : bool
}.
Arguments Channel {T} _ _ _ _ _.
Arguments m_queue {T} _.
Arguments m_read_waiters {T} _.
Arguments m_write_waiters {T} _.
Arguments m_capacity {T} _.
Arguments m_writer_completed {T} _.

(** [std::expected<A, channel_read_errors>]. *)
Definition expected (A : Type) : Type := A + channel_read_errors.

Section channel.
Context {T : Type}.
Implicit Types c : channel T.

Definition make_channel (capacity : Z) : channel T := Channel [] 0 0 capacity false.

Definition set_queue (q : list T) c : channel T :=
  Channel q (m_read_waiters c) (m_write_waiters c) (m_capacity c) (m_writer_completed c).
Definition set_read_waiters (n : Z) c : channel T :=
  Channel (m_queue c) n (m_write_waiters c) (m_capacity c) (m_writer_completed c).
Definition set_write_waiters (n : Z) c : channel T :=
  Channel (m_queue c) (m_read_waiters c) n (m_capacity c) (m_writer_completed c).

Definition queue_empty c : bool := len (m_queue c) =? 0.

Definition full c : bool := (m_capacity c >? 0) && (len (m_queue c) >=? m_capacity c).

Definition can_read c : bool := m_writer_completed c || negb (queue_empty c).
Definition can_write c : bool := m_writer_completed c || negb (full c).

(** ** Writing *)

Inductive emplace_step :=
  | EmplaceSleeps (t : stop_token)
  | EmplaceReturns (pushed : bool) (* inside the lock *)
  | EmplaceUnlocks (notify : bool). (* pushed; the notification follows the unlock *)

(** From [m_queue.emplace] on. *)
Definition emplace_push c (value : T) : channel T * emplace_step :=
  (set_queue (m_queue c ++ [value]) c, EmplaceUnlocks (negb (m_read_waiters c =? 0))).

(** The last line of [internal_wait_to_write] and what [emplace] does with
    its result. *)
Definition emplace_finish c (t : stop_token) (value : T) : channel T * emplace_step :=
  let '(stop, t) := stop_requested t in
  if negb stop && negb (m_writer_completed c) && negb (full c) then emplace_push c value
  else (c, EmplaceReturns false).

(** One round of [m_not_full.wait]. *)
Definition emplace_wait c (t : stop_token) (value : T) : channel T * emplace_step :=
  let '(round, t) := cv_wait_round (can_write c) t in
  match round with
  | CvSleep => (c, EmplaceSleeps t)
  | CvReturn _ => emplace_finish (set_write_waiters (m_write_waiters c -! 1) c) t value
  end.

Definition emplace c (t : stop_token) (strategy : block_strategy) (value : T) : channel T * emplace_step :=
  match strategy with
  | WAIT =>
      let '(stop, t) := stop_requested t in
      if negb stop && negb (m_writer_completed c) && full c then
        emplace_wait (set_write_waiters (m_write_waiters c +! 1) c) t value
      else emplace_finish c t value
  | TRY =>
      if m_writer_completed c || full c then (c, EmplaceReturns false)
      else emplace_push c value
  end.

Definition complete_writer c : channel T :=
  Channel (m_queue c) (m_read_waiters c) (m_write_waiters c) (m_capacity c) true.

(** ** Reading *)

(** The end of [internal_wait_to_read]. *)
Definition wait_result c (t : stop_token) : expected unit :=
  let '(stop, t) := stop_requested t in
  if stop then inr REQUEST_CANCELLED
  else if queue_empty c then inr CHANNEL_EMPTY
  else inl tt.

Inductive wait_step :=
  | WaitSleeps (t : stop_token)
  | WaitReturns (result : expected unit).

(** One round of [m_not_empty.wait]. *)
Definition wait_to_read_round c (t : stop_token) : channel T * wait_step :=
  let '(round, t) := cv_wait_round (can_read c) t in
  match round with
  | CvSleep => (c, WaitSleeps t)
  | CvReturn _ =>
      let c := set_read_waiters (m_read_waiters c -! 1) c in
      (c, WaitReturns (wait_result c t))
  end.

Definition internal_wait_to_read c (t : stop_token) : channel T * wait_step :=
  let '(stop, t) := stop_requested t in
  if negb stop && negb (m_writer_completed c) && queue_empty c then
    wait_to_read_round (set_read_waiters (m_read_waiters c +! 1) c) t
  else (c, WaitReturns (wait_result c t)).

(** [wait_to_read] returns [has_value()]. *)
Definition wait_to_read c (t : stop_token) : channel T * wait_step := internal_wait_to_read c t.
Definition has_value {A} (r : expected A) : bool :=
  match r with inl _ => true | inr _ => false end.

Inductive read_step :=
  | ReadSleeps (t : stop_token)
  | ReadFails (error : channel_read_errors)     (* inside the lock *)
  | ReadUnlocks (value : T) (notify : bool)     (* popped; the notification follows *)
  | ReadUndefined.                              (* front() of an empty queue *)

(** From [m_queue.front()] on. *)
Definition read_pop c : channel T * read_step :=
  match m_queue c with
  | [] => (c, ReadUndefined)
  | value :: rest => (set_queue rest c, ReadUnlocks value (negb (m_write_waiters c =? 0)))
  end.

Definition read_after_wait (r : channel T * wait_step) : channel T * read_step :=
  let '(c, step) := r in
  match step with
  | WaitSleeps t => (c, ReadSleeps t)
  | WaitReturns (inr e) => (c, ReadFails e)
  | WaitReturns (inl _) => read_pop c
  end.

Definition read c (t : stop_token) (strategy : block_strategy) : channel T * read_step :=
  match strategy with
  | WAIT => read_after_wait (internal_wait_to_read c t)
  | TRY => if queue_empty c then (c, ReadFails CHANNEL_EMPTY) else read_pop c
  end.

(** A parked [read] that runs again. *)
Definition read_wait c (t : stop_token) : channel T * read_step :=
  read_after_wait (wait_to_read_round c t).

Definition size c : Z := len (m_queue c).

(** The generator of [read_all], when no other thread runs and its consumer
    takes at most [fuel] items: the items yielded, and whether the generator
    ended, parked inside [read], or still has items to give. *)
Inductive generator_state := GeneratorEnded | GeneratorParked (t : stop_token) | GeneratorSuspended (t : stop_token).

(** The token after the polls of one [read] that delivers an item. *)
Definition read_polls (t : stop_token) : stop_token :=
  (stop_requested (stop_requested t).2).2.

Fixpoint read_all (fuel : nat) c (t : stop_token) : channel T * list T * generator_state :=
  match fuel with
  | O => (c, [], GeneratorSuspended t)
  | S fuel =>
      let '(stop, t) := stop_requested t in
      if stop then (c, [], GeneratorEnded)
      else
        let '(c, step) := read c t WAIT in
        match step with
        | ReadUnlocks value _ =>
            let '(c, items, g) := read_all fuel c (read_polls t) in (c, value :: items, g)
        | ReadSleeps t => (c, [], GeneratorParked t)
        | _ => (c, [], GeneratorEnded)
        end
  end.

(** ** The endpoints *)

Definition push c (t : stop_token) (value : T) := emplace c t WAIT value.
Definition writer_emplace c (t : stop_token) (value : T) := emplace c t WAIT value.
Definition try_push c (value : T) := emplace c no_stop TRY value.
Definition try_emplace c (value : T) := emplace c no_stop TRY value.
Definition complete c := complete_writer c.
Definition try_read c := read c no_stop TRY.
Definition reader_read c (t : stop_token) := read c t WAIT.
End channel.
Arguments read_step T : clear implicits.

(** ** What each section does *)
Section effects.
Context {T : Type}.
Implicit Types c : channel T.

(** The invariant of the queue: the capacity bounds it (0: unbounded). *)
Definition bounded c : Prop := 0 < m_capacity c -> len (m_queue c) <= m_capacity c.

Definition pushed_by (value : T) (step : emplace_step) : list T :=
  match step with EmplaceUnlocks _ => [value] | _ => [] end.
Definition popped_by (step : read_step T) : list T :=
  match step with ReadUnlocks value _ => [value] | _ => [] end.

Definition emplace_sleeps (step : emplace_step) : bool :=
  match step with EmplaceSleeps _ => true | _ => false end.

(** [w] is the number of waiting writers to account for after the section. *)
Record emplace_effect c c' (value : T) (step : emplace_step) (w : Z) : Prop := {
  ee_queue : m_queue c' = m_queue c ++ pushed_by value step;
  ee_capacity : m_capacity c' = m_capacity c;
  ee_completed : m_writer_completed c' = m_writer_completed c;
  ee_readers : m_read_waiters c' = m_read_waiters c;
  ee_writers : m_write_waiters c' = w;
  ee_step : match step with
    | EmplaceSleeps _ => m_writer_completed c = false /\ full c = true
    | EmplaceReturns b => b = false
    | EmplaceUnlocks notify => m_writer_completed c = false /\ full c = false /\
        notify = negb (m_read_waiters c =? 0)
    end
}.

Lemma full_false_bounded c value :
  bounded c -> full c = false -> bounded (set_queue (m_queue c ++ [value]) c).
Proof.
  unfold bounded, full. simpl. rewrite len_app, len_singleton. intros Hb Hf Hc.
  destruct (Z.gtb_spec (m_capacity c) 0); [|lia].
  destruct (Z.geb_spec (len (m_queue c)) (m_capacity c)); [done|]. lia.
Qed.

Lemma emplace_effect_bounded c c' value step w :
  emplace_effect c c' value step w -> bounded c -> bounded c'.
Proof.
  intros [Eq Ec _ _ _ Hs] Hb. destruct step as [t|b|notify]; cbn [pushed_by] in Eq;
    [unfold bounded; by rewrite Ec, Eq, app_nil_r..|].
  destruct Hs as (_ & Hf & _). pose proof (full_false_bounded c value Hb Hf) as H.
  unfold bounded in *. simpl in H. by rewrite Ec, Eq.
Qed.

Lemma emplace_finish_effect c t value :
  emplace_effect c (emplace_finish c t value).1 value (emplace_finish c t value).2 (m_write_waiters c) /\
  emplace_sleeps (emplace_finish c t value).2 = false.
Proof.
  unfold emplace_finish. destruct (stop_requested t) as [stop t'].
  destruct stop, (m_writer_completed c) eqn:Ew, (full c) eqn:Ef; cbn; split; try done; split; cbn; try done;
    by rewrite app_nil_r.
Qed.

Lemma emplace_wait_effect c t value :
  let r := emplace_wait c t value in
  emplace_effect c r.1 value r.2
    (if emplace_sleeps r.2 then m_write_waiters c else m_write_waiters c -! 1).
Proof.
  unfold emplace_wait. destruct (cv_wait_round (can_write c) t) as [[b|] t'] eqn:Ec; cbn zeta.
  - destruct (emplace_finish_effect (set_write_waiters (m_write_waiters c -! 1) c) t' value)
      as [[? ? ? ? Hw Hs] ->]. by split.
  - apply cv_sleep_iff in Ec as [Hc _]. unfold can_write in Hc. apply orb_false_iff in Hc as [? ?%negb_false_iff].
    split; cbn; try done. by rewrite app_nil_r.
Qed.

Lemma emplace_effect_ok c t strategy value :
  is_size (m_write_waiters c) ->
  let r := emplace c t strategy value in
  emplace_effect c r.1 value r.2
    (if emplace_sleeps r.2 then m_write_waiters c +! 1 else m_write_waiters c) /\
  (strategy = TRY -> emplace_sleeps r.2 = false).
Proof.
  intros Hs. destruct strategy; cbn [emplace]; cbv zeta.
  - destruct (stop_requested t) as [stop t']. split; [|done].
    destruct (negb stop && negb (m_writer_completed c) && full c).
    + destruct (emplace_wait_effect (set_write_waiters (m_write_waiters c +! 1) c) t' value) as [? ? ? ? Hw Hst].
      split; try done. rewrite Hw. destruct (emplace_sleeps _); [done|]. simpl. by apply wrap_add_sub.
    + by destruct (emplace_finish_effect c t' value) as [? ->].
  - destruct (m_writer_completed c) eqn:Ew, (full c) eqn:Ef; cbn; split; try done; split; cbn; try done;
      by rewrite app_nil_r.
Qed.

Definition read_sleeps (step : read_step T) : bool :=
  match step with ReadSleeps _ => true | _ => false end.
Definition wait_sleeps (step : wait_step) : bool :=
  match step with WaitSleeps _ => true | _ => false end.

Record wait_effect c c' (step : wait_step) (r : Z) : Prop := {
  we_state : c' = set_read_waiters r c;
  we_step : match step with
    | WaitSleeps _ => m_writer_completed c = false /\ m_queue c = []
    | WaitReturns (inl _) => m_queue c ≠ []
    | WaitReturns (inr CHANNEL_EMPTY) => m_queue c = []
    | WaitReturns (inr REQUEST_CANCELLED) => True
    end
}.

Lemma queue_empty_iff c : queue_empty c = true <-> m_queue c = [].
Proof. unfold queue_empty. by rewrite Z.eqb_eq, len_nil_iff. Qed.

Lemma wait_result_step c t :
  match wait_result c t with
  | inl _ => m_queue c ≠ []
  | inr CHANNEL_EMPTY => m_queue c = []
  | inr REQUEST_CANCELLED => True
  end.
Proof.
  unfold wait_result. destruct (stop_requested t) as [[] ?]; [done|].
  destruct (queue_empty c) eqn:E; [by apply queue_empty_iff|]. intros E'. by rewrite <- queue_empty_iff, E in E'.
Qed.

Lemma wait_round_effect c t :
  let r := wait_to_read_round c t in
  wait_effect c r.1 r.2 (if wait_sleeps r.2 then m_read_waiters c else m_read_waiters c -! 1).
Proof.
  unfold wait_to_read_round. destruct (cv_wait_round (can_read c) t) as [[b|] t'] eqn:Ec; cbn.
  - split; [done|]. apply (wait_result_step (set_read_waiters (m_read_waiters c -! 1) c)).
  - apply cv_sleep_iff in Ec as [Hc _]. unfold can_read in Hc. apply orb_false_iff in Hc as [? ?%negb_false_iff].
    split; [by destruct c|]. split; [done|]. by apply queue_empty_iff.
Qed.

Lemma internal_wait_effect c t :
  is_size (m_read_waiters c) ->
  let r := internal_wait_to_read c t in
  wait_effect c r.1 r.2 (if wait_sleeps r.2 then m_read_waiters c +! 1 else m_read_waiters c).
Proof.
  intros Hs. unfold internal_wait_to_read. destruct (stop_requested t) as [stop t']. cbv zeta.
  destruct (negb stop && negb (m_writer_completed c) && queue_empty c).
  - destruct (wait_round_effect (set_read_waiters (m_read_waiters c +! 1) c) t') as [E Hst].
    split; [rewrite E|done]. destruct (wait_sleeps _); [done|]. simpl. by rewrite wrap_add_sub.
  - cbn. split; [by destruct c|]. apply wait_result_step.
Qed.

Record read_effect c c' (step : read_step T) (r : Z) : Prop := {
  re_queue : m_queue c = popped_by step ++ m_queue c';
  re_capacity : m_capacity c' = m_capacity c;
  re_completed : m_writer_completed c' = m_writer_completed c;
  re_writers : m_write_waiters c' = m_write_waiters c;
  re_readers : m_read_waiters c' = r;
  re_step : match step with
    | ReadSleeps _ => m_writer_completed c = false /\ m_queue c = []
    | ReadFails CHANNEL_EMPTY => m_queue c = []
    | ReadFails REQUEST_CANCELLED => True
    | ReadUnlocks _ notify => notify = negb (m_write_waiters c =? 0)
    | ReadUndefined => False
    end
}.

Lemma read_effect_bounded c c' step r : read_effect c c' step r -> bounded c -> bounded c'.
Proof.
  intros [Eq Ec _ _ _ _] Hb. unfold bounded in *. rewrite Ec. intros Hp. specialize (Hb Hp).
  rewrite Eq, len_app in Hb. pose proof (len_nonneg (popped_by step)). lia.
Qed.

Lemma read_after_wait_effect c c1 st r :
  wait_effect c c1 st r ->
  read_effect c (read_after_wait (c1, st)).1 (read_after_wait (c1, st)).2 r /\
  read_sleeps (read_after_wait (c1, st)).2 = wait_sleeps st.
Proof.
  intros [-> Hst]. destruct st as [t|[[]|[]]]; cbn in *; try (split; [split; done|done]).
  unfold read_pop. cbn [m_queue set_read_waiters].
  destruct (m_queue c) eqn:Eq; [done|]. split; [|done]. split; cbn; try done.
Qed.

Lemma read_effect_ok c t strategy :
  is_size (m_read_waiters c) ->
  let r := read c t strategy in
  read_effect c r.1 r.2 (if read_sleeps r.2 then m_read_waiters c +! 1 else m_read_waiters c) /\
  (strategy = TRY -> read_sleeps r.2 = false).
Proof.
  intros Hs. destruct strategy; cbn [read]; cbv zeta.
  - split; [|done]. pose proof (internal_wait_effect c t Hs) as Hw. cbv zeta in Hw.
    destruct (internal_wait_to_read c t) as [c1 st]. cbn [fst snd] in Hw.
    destruct (read_after_wait_effect c c1 st _ Hw) as [He Es]. by rewrite Es.
  - destruct (queue_empty c) eqn:E; cbn.
    + split; [|done]. split; try done. by apply queue_empty_iff.
    + unfold read_pop. destruct (m_queue c) eqn:Eq.
      { apply not_true_iff_false in E. destruct E. by apply queue_empty_iff. }
      split; [|done]. split; cbn; try done.
Qed.

Lemma read_wait_effect c t :
  let r := read_wait c t in
  read_effect c r.1 r.2 (if read_sleeps r.2 then m_read_waiters c else m_read_waiters c -! 1).
Proof.
  unfold read_wait. pose proof (wait_round_effect c t) as Hw. cbv zeta in *.
  destruct (wait_to_read_round c t) as [c1 st]. cbn [fst snd] in Hw.
  destruct (read_after_wait_effect c c1 st _ Hw) as [He Es]. by rewrite Es.
Qed.

(** *** Without cancellation *)

Lemma full_no_slot c : full c = true -> m_capacity c - len (m_queue c) <= 0.
Proof. unfold full. intros [? ?%Z.geb_le]%andb_true_iff. lia. Qed.

Lemma full_capacity c : full c = true -> 0 < m_capacity c.
Proof. unfold full. intros [?%Z.gtb_lt _]%andb_true_iff. lia. Qed.

Lemma emplace_wait_calm c value :
  match (emplace_wait c no_stop value).2 with
  | EmplaceSleeps t => t = no_stop
  | EmplaceReturns _ => m_writer_completed c = true
  | EmplaceUnlocks _ => True
  end.
Proof.
  unfold emplace_wait, emplace_finish, can_write. destruct (m_writer_completed c) eqn:Ew; cbn; [by rewrite Ew|].
  destruct (full c) eqn:Ef; cbn; [done|]. rewrite Ew. unfold full in *. cbn. by rewrite Ef.
Qed.

Lemma read_wait_calm c :
  match (read_wait c no_stop).2 with
  | ReadSleeps t => t = no_stop
  | ReadFails e => m_queue c = []
  | _ => True
  end.
Proof.
  unfold read_wait, wait_to_read_round, wait_result, can_read. cbn.
  destruct (m_queue c) as [|x q] eqn:Eq; unfold queue_empty; rewrite Eq;
    [by destruct (m_writer_completed c); cbn; rewrite ?Eq|].
  replace (len (x :: q) =? 0) with false by (rewrite len_cons; pose proof (len_nonneg q); lia).
  rewrite orb_true_r. cbn. unfold queue_empty. cbn. rewrite Eq.
  replace (len (x :: q) =? 0) with false by (rewrite len_cons; pose proof (len_nonneg q); lia).
  cbn. unfold read_pop. cbn. by rewrite Eq.
Qed.

Lemma emplace_calm c strategy value t :
  (emplace c no_stop strategy value).2 = EmplaceSleeps t -> t = no_stop.
Proof.
  destruct strategy; cbn.
  - destruct (negb (m_writer_completed c) && full c).
    + pose proof (emplace_wait_calm (set_write_waiters (m_write_waiters c +! 1) c) value) as H.
      unfold no_stop in H. intros E. by rewrite E in H.
    + intros E. destruct (emplace_finish_effect c None value) as [_ Hs]. cbn in Hs. by rewrite E in Hs.
  - by destruct (m_writer_completed c || full c).
Qed.

Lemma read_calm c strategy t :
  (read c no_stop strategy).2 = ReadSleeps t -> t = no_stop.
Proof.
  destruct strategy; cbn.
  - unfold internal_wait_to_read. cbn. destruct (negb (m_writer_completed c) && queue_empty c).
    + pose proof (read_wait_calm (set_read_waiters (m_read_waiters c +! 1) c)) as H. unfold read_wait in H.
      unfold no_stop in H. intros E. by rewrite E in H.
    + unfold wait_result. cbn. unfold read_pop. by destruct (queue_empty c), (m_queue c).
  - unfold read_pop. by destruct (queue_empty c), (m_queue c).
Qed.
(** A blocking read that is not cancelled fails only on a completed, drained
    channel. *)
Lemma read_wait_fails c e :
  (read_wait c no_stop).2 = ReadFails e -> m_queue c = [] /\ m_writer_completed c = true.
Proof.
  intros H. pose proof (read_wait_calm c) as Hc. rewrite H in Hc. split; [done|].
  unfold read_wait, wait_to_read_round, can_read, queue_empty in H. rewrite Hc in H.
  by destruct (m_writer_completed c).
Qed.

Lemma read_fails c e :
  (read c no_stop WAIT).2 = ReadFails e -> m_queue c = [] /\ m_writer_completed c = true.
Proof.
  unfold read, internal_wait_to_read. change (stop_requested no_stop) with (false, no_stop). cbn match.
  destruct (negb false && negb (m_writer_completed c) && queue_empty c) eqn:E.
  - intros H. destruct (read_wait_fails (set_read_waiters (m_read_waiters c +! 1) c) e H) as [_ Hw].
    cbn in Hw, E. by rewrite Hw in E.
  - unfold wait_result. change (stop_requested no_stop) with (false, no_stop). cbn [read_after_wait].
    destruct (queue_empty c) eqn:Eq; cbn [read_after_wait].
    + intros _. split; [by apply queue_empty_iff|]. by destruct (m_writer_completed c).
    + unfold read_pop. by destruct (m_queue c).
Qed.
End effects.

(** ** Functional specifications *)
Section specifications.
Context {T : Type}.
Implicit Types c : channel T.

Lemma set_write_waiters_id c : set_write_waiters (m_write_waiters c) c = c.
Proof. by destruct c. Qed.
Lemma set_read_waiters_id c : set_read_waiters (m_read_waiters c) c = c.
Proof. by destruct c. Qed.

(** [emplace] (push, try_push, emplace, try_emplace): a completed channel
    or a stop request refuses the value and changes nothing; a full channel
    refuses it ([TRY]) or parks the caller, counted as a waiter ([WAIT]);
    otherwise the value goes to the back of the queue, and one reader is
    notified if any waits. *)
Theorem emplace_correct c t strategy value (Hw : is_size (m_write_waiters c)) :
  emplace c t strategy value =
    if m_writer_completed c || (match strategy with WAIT => stops_within 2 t | TRY => false end) then
      (c, EmplaceReturns false)
    else if full c then
      match strategy with
      | TRY => (c, EmplaceReturns false)
      | WAIT => (set_write_waiters (m_write_waiters c +! 1) c, EmplaceSleeps (after_polls 2 t))
      end
    else (set_queue (m_queue c ++ [value]) c, EmplaceUnlocks (negb (m_read_waiters c =? 0))).
Proof.
  destruct strategy; cbn [emplace]; [|by destruct (m_writer_completed c), (full c)].
  unfold emplace_wait, emplace_finish, can_write.
  destruct (m_writer_completed c) eqn:Ew, (full c) eqn:Ef, t as [[|[|n]]|]; cbn; rewrite ?Ew; cbn;
    rewrite ?Ef, ?wrap_add_sub, ?set_write_waiters_id by done;
    unfold full in *; cbn in *; rewrite ?Ef; cbn; try done; by destruct c.
Qed.

(** [read] and [try_read]: a stop request reports [REQUEST_CANCELLED] and
    removes nothing, even when a value is there; otherwise the oldest value is
    removed and returned, and one writer is notified if any waits; an empty
    channel reports [CHANNEL_EMPTY] when it is completed ([WAIT]) or always
    ([TRY]), and parks the caller, counted as a waiter, otherwise. *)
Theorem read_correct c t strategy (Hr : is_size (m_read_waiters c)) :
  read c t strategy =
    if match strategy with WAIT => stops_within 2 t | TRY => false end then (c, ReadFails REQUEST_CANCELLED)
    else match m_queue c with
      | value :: rest => (set_queue rest c, ReadUnlocks value (negb (m_write_waiters c =? 0)))
      | [] =>
          match strategy with
          | TRY => (c, ReadFails CHANNEL_EMPTY)
          | WAIT =>
              if m_writer_completed c then (c, ReadFails CHANNEL_EMPTY)
              else (set_read_waiters (m_read_waiters c +! 1) c, ReadSleeps (after_polls 2 t))
          end
      end.
Proof.
  assert (queue_empty c = match m_queue c with [] => true | _ => false end) as Eq.
  { unfold queue_empty. destruct (m_queue c) as [|x q]; [done|]. rewrite len_cons.
    pose proof (len_nonneg q). lia. }
  destruct strategy; cbn [read].
  - unfold internal_wait_to_read, wait_to_read_round, wait_result, read_after_wait, read_pop, can_read.
    destruct t as [[|[|n]]|]; cbn; rewrite ?Eq; destruct (m_writer_completed c) eqn:Ew, (m_queue c) eqn:Eqq; cbn;
      unfold queue_empty; cbn; rewrite ?Ew, ?Eqq; cbn;
      rewrite ?wrap_add_sub, ?set_read_waiters_id by done; try done; by destruct c.
  - rewrite Eq. unfold read_pop. by destruct (m_queue c).
Qed.

(** The generator of [read_all] yields values in queue order and loses
    none, whenever it is stopped; on a completed channel it yields them all
    and ends. *)
Theorem read_all_correct fuel c t (Hr : is_size (m_read_waiters c)) :
  let '(c', items, g) := read_all fuel c t in
  m_queue c = items ++ m_queue c' /\
  (m_writer_completed c = true -> t = no_stop -> (length (m_queue c) < fuel)%nat ->
    items = m_queue c /\ m_queue c' = [] /\ g = GeneratorEnded).
Proof.
  revert c t Hr. induction fuel as [|fuel IH]; intros c t Hr; cbn [read_all]; [by split; [|lia]|].
  destruct (stop_requested t) as [stop t'] eqn:Et. destruct stop.
  { split; [done|]. intros _ ->. done. }
  pose proof (read_effect_ok c t' WAIT Hr) as [He _]. pose proof (read_wait_calm c) as Hcalm.
  destruct (read c t' WAIT) as [c1 st] eqn:Er. cbn in He. destruct He as [Eq _ Ew _ Erd Hst].
  destruct st as [t1|e|v b|]; cbn in *.
  - split; [done|]. by destruct Hst as [-> _].
  - split; [done|]. intros Hc -> _. destruct e; [|by rewrite <- Eq, Hst].
    exfalso. injection Et as <-. unfold internal_wait_to_read, wait_result in Er. cbn in Er. rewrite Hc in Er. cbn in Er.
    by destruct (queue_empty c), (read_pop c) as [? []] eqn:E; unfold read_pop in E; destruct (m_queue c); simplify_eq/=.
  - specialize (IH c1 (read_polls t') ltac:(by rewrite Erd)).
    destruct (read_all fuel c1 (read_polls t')) as [[c2 items] g]. destruct IH as [E1 E2]. split.
    + by rewrite Eq, E1.
    + intros Hc -> Hf. injection Et as <-. rewrite Eq in *. cbn [length app] in *.
      destruct E2 as (-> & -> & ->); [by rewrite Ew|done|lia|]. done.
  - done.
Qed.
End specifications.

(** ** Instances *)
Section instances.
Definition demo_channel : channel nat := Channel [1%nat; 2%nat] 0 0 2 true.

Lemma emplace_correct_witness :
  emplace (make_channel 1 : channel nat) no_stop WAIT 5%nat = (Channel [5%nat] 0 0 1 false, EmplaceUnlocks false).
Proof. exact (emplace_correct (make_channel 1 : channel nat) no_stop WAIT 5%nat ltac:(by split)). Defined.

Lemma read_correct_witness :
  read demo_channel (Some 2%nat) WAIT = (set_queue [2%nat] demo_channel, ReadUnlocks 1%nat false).
Proof. exact (read_correct demo_channel (Some 2%nat) WAIT ltac:(by split)). Defined.

Lemma read_all_correct_witness :
  let '(c', items, g) := read_all 3 demo_channel no_stop in
  m_queue demo_channel = items ++ m_queue c' /\
  (m_writer_completed demo_channel = true -> no_stop = no_stop -> (length (m_queue demo_channel) < 3)%nat ->
    items = m_queue demo_channel /\ m_queue c' = [] /\ g = GeneratorEnded).
Proof. exact (read_all_correct 3 demo_channel no_stop ltac:(by split)). Defined.
End instances.
