(* ===== verification/ChannelSystem.v ===== *)
(** A channel shared by any number of threads: the steps are the critical
    sections of Channel.v and the notifications that follow their unlocks, in
    every interleaving.  [s_pushed] and [s_popped] (ghost state) list the
    values whose push, respectively read, succeeded, in order. *)

From S2P Require Import Prelude Channel.

(** One case for each step, in the order of [step], with the names the proofs
    share. *)
Ltac chan_step_cases Hstep :=
  destruct Hstep as
    [c ths pu po i t strategy value c' st Ha Hi Hrun|c ths pu po i t value woken c' st Hi Hrun
    |c ths pu po i notify ths' Hi Hn|c ths pu po i t strategy c' st Ha Hi Hrun
    |c ths pu po i t woken c' st Hi Hrun|c ths pu po i notify ths' Hi Hn
    |c ths pu po i t c' st Ha Hi Hrun|c ths pu po i t woken c' st Hi Hrun
    |c ths pu po i Ha Hi|c ths pu po i Hi|c ths pu po i Hi].

Section system.
Context {T : Type}.

Inductive operation :=
  | OpEmplace (t : stop_token) (strategy : block_strategy) (value : T)
  | OpRead (t : stop_token) (strategy : block_strategy)
  | OpWaitToRead (t : stop_token)
  | OpComplete.

Inductive thread :=
  | Idle
  | WriteParked (t : stop_token) (value : T) (woken : bool) (* in m_not_full.wait *)
  | ReadParked (t : stop_token) (woken : bool)              (* in m_not_empty.wait, from read *)
  | WaitParked (t : stop_token) (woken : bool)              (* in m_not_empty.wait, from wait_to_read *)
  | NotifyingNotEmpty (notify : bool)                       (* emplace, after the unlock *)
  | NotifyingNotFull (notify : bool)                        (* read, after the unlock *)
  | CompletingNotEmpty                                      (* complete_writer, both notify_all left *)
  | CompletingNotFull.                                      (* complete_writer, the second left *)

Record system := System {
  s_channel : channel T;
  s_threads : list thread;
  s_pushed : list T;
  s_popped : list T
}.

Definition emplace_thread (value : T) (step : emplace_step) : thread :=
  match step with
  | EmplaceSleeps t => WriteParked t value false
  | EmplaceReturns _ => Idle
  | EmplaceUnlocks notify => NotifyingNotEmpty notify
  end.

Definition read_thread (step : read_step T) : thread :=
  match step with
  | ReadSleeps t => ReadParked t false
  | ReadUnlocks _ notify => NotifyingNotFull notify
  | _ => Idle
  end.

Definition wait_thread (step : wait_step) : thread :=
  match step with WaitSleeps t => WaitParked t false | WaitReturns _ => Idle end.

(** Who waits on which condition variable. *)
Definition on_not_empty (th : thread) : bool :=
  match th with ReadParked _ _ | WaitParked _ _ => true | _ => false end.
Definition on_not_full (th : thread) : bool :=
  match th with WriteParked _ _ _ => true | _ => false end.
Definition is_woken (th : thread) : bool :=
  match th with WriteParked _ _ b | ReadParked _ b | WaitParked _ b => b | _ => false end.

Definition wake (th : thread) : thread :=
  match th with
  | WriteParked t v _ => WriteParked t v true
  | ReadParked t _ => ReadParked t true
  | WaitParked t _ => WaitParked t true
  | _ => th
  end.

(** [notify_one] on the waiters selected by [on]: wakes one of those not yet
    notified, if any; [notify_all] wakes them all. *)
Inductive notify_one (on : thread -> bool) (ths : list thread) : list thread -> Prop :=
  | notify_one_wakes j th :
      ths !! j = Some th -> on th = true -> is_woken th = false ->
      notify_one on ths (<[j := wake th]> ths)
  | notify_one_none :
      (forall j th, ths !! j = Some th -> on th && negb (is_woken th) = false) ->
      notify_one on ths ths.

Definition notify_all (on : thread -> bool) (ths : list thread) : list thread :=
  (fun th => if on th then wake th else th) <$> ths.

(** [allow] restricts the operations the threads call. *)
Inductive step (allow : operation -> Prop) : system -> system -> Prop :=
  | step_emplace c ths pu po i t strategy value c' st :
      allow (OpEmplace t strategy value) -> ths !! i = Some Idle ->
      emplace c t strategy value = (c', st) ->
      step allow (System c ths pu po)
        (System c' (<[i := emplace_thread value st]> ths) (pu ++ pushed_by value st) po)
  | step_emplace_wakes c ths pu po i t value woken c' st :
      ths !! i = Some (WriteParked t value woken) -> emplace_wait c t value = (c', st) ->
      step allow (System c ths pu po)
        (System c' (<[i := emplace_thread value st]> ths) (pu ++ pushed_by value st) po)
  | step_emplace_notifies c ths pu po i notify ths' :
      ths !! i = Some (NotifyingNotEmpty notify) ->
      (if notify then notify_one on_not_empty (<[i := Idle]> ths) ths' else ths' = <[i := Idle]> ths) ->
      step allow (System c ths pu po) (System c ths' pu po)
  | step_read c ths pu po i t strategy c' st :
      allow (OpRead t strategy) -> ths !! i = Some Idle -> read c t strategy = (c', st) ->
      step allow (System c ths pu po)
        (System c' (<[i := read_thread st]> ths) pu (po ++ popped_by st))
  | step_read_wakes c ths pu po i t woken c' st :
      ths !! i = Some (ReadParked t woken) -> read_wait c t = (c', st) ->
      step allow (System c ths pu po)
        (System c' (<[i := read_thread st]> ths) pu (po ++ popped_by st))
  | step_read_notifies c ths pu po i notify ths' :
      ths !! i = Some (NotifyingNotFull notify) ->
      (if notify then notify_one on_not_full (<[i := Idle]> ths) ths' else ths' = <[i := Idle]> ths) ->
      step allow (System c ths pu po) (System c ths' pu po)
  | step_wait c ths pu po i t c' st :
      allow (OpWaitToRead t) -> ths !! i = Some Idle -> wait_to_read c t = (c', st) ->
      step allow (System c ths pu po) (System c' (<[i := wait_thread st]> ths) pu po)
  | step_wait_wakes c ths pu po i t woken c' st :
      ths !! i = Some (WaitParked t woken) -> wait_to_read_round c t = (c', st) ->
      step allow (System c ths pu po) (System c' (<[i := wait_thread st]> ths) pu po)
  | step_complete c ths pu po i :
      allow OpComplete -> ths !! i = Some Idle ->
      step allow (System c ths pu po) (System (complete_writer c) (<[i := CompletingNotEmpty]> ths) pu po)
  | step_complete_not_empty c ths pu po i :
      ths !! i = Some CompletingNotEmpty ->
      step allow (System c ths pu po)
        (System c (notify_all on_not_empty (<[i := CompletingNotFull]> ths)) pu po)
  | step_complete_not_full c ths pu po i :
      ths !! i = Some CompletingNotFull ->
      step allow (System c ths pu po)
        (System c (notify_all on_not_full (<[i := Idle]> ths)) pu po).

Definition initial (capacity : Z) (n : nat) : system :=
  System (make_channel capacity) (replicate n Idle) [] [].

(** ** Counting threads *)

Lemma countb_le {A} (f : A -> bool) l : (countb f l <= length l)%nat.
Proof. induction l as [|x l IH]; simpl; [lia|]. destruct (f x); lia. Qed.

Lemma countb_fmap {A} (f : A -> bool) (g : A -> A) l :
  (forall x, f (g x) = f x) -> countb f (g <$> l) = countb f l.
Proof. intros H. induction l as [|x l IH]; [done|]. rewrite fmap_cons. cbn [countb]. by rewrite H, IH. Qed.

Lemma on_not_empty_wake th : on_not_empty (wake th) = on_not_empty th.
Proof. by destruct th. Qed.
Lemma on_not_full_wake th : on_not_full (wake th) = on_not_full th.
Proof. by destruct th. Qed.

(** Notifications move no thread in or out of a class that [wake] respects. *)
Lemma notify_one_countb (f : thread -> bool) on ths ths' :
  (forall th, on th = true -> f (wake th) = f th) -> notify_one on ths ths' -> countb f ths' = countb f ths.
Proof.
  intros Hf [j th Hj Hon _|_]; [|done]. pose proof (countb_insert f ths j th (wake th) Hj) as E.
  rewrite Hf in E by done. lia.
Qed.

Lemma notify_all_countb (f : thread -> bool) on ths :
  (forall th, on th = true -> f (wake th) = f th) -> countb f (notify_all on ths) = countb f ths.
Proof. intros Hf. apply countb_fmap. intros th. destruct (on th) eqn:E; [by apply Hf|done]. Qed.

Lemma notify_one_length on ths ths' : notify_one on ths ths' -> length ths' = length ths.
Proof. intros [j th _ _ _|_]; [|done]. by rewrite length_insert. Qed.

(** ** The invariant *)

Record system_ok (s : system) : Prop := {
  so_threads : Z.of_nat (length (s_threads s)) < size_modulus;
  so_readers : m_read_waiters (s_channel s) = Z.of_nat (countb on_not_empty (s_threads s));
  so_writers : m_write_waiters (s_channel s) = Z.of_nat (countb on_not_full (s_threads s));
  so_bounded : bounded (s_channel s);
  so_stream : s_pushed s = s_popped s ++ m_queue (s_channel s)
}.

Lemma waiters_sized (f : thread -> bool) ths :
  Z.of_nat (length ths) < size_modulus -> is_size (Z.of_nat (countb f ths)).
Proof. intros H. pose proof (countb_le f ths). unfold is_size. lia. Qed.

(** One thread moves, the channel changes: the counters follow. *)
Lemma chan_system_ok_move c c' ths i th th' pu po pu' po' :
  system_ok (System c ths pu po) -> ths !! i = Some th ->
  m_read_waiters c' + (if on_not_empty th then 1 else 0)
    = m_read_waiters c + (if on_not_empty th' then 1 else 0) ->
  m_write_waiters c' + (if on_not_full th then 1 else 0)
    = m_write_waiters c + (if on_not_full th' then 1 else 0) ->
  bounded c' -> pu' = po' ++ m_queue c' ->
  system_ok (System c' (<[i := th']> ths) pu' po').
Proof.
  intros [H1 H2 H3 H4 H5] Hi Hr Hw Hb Hs. cbn in *.
  pose proof (countb_insert on_not_empty ths i th th' Hi).
  pose proof (countb_insert on_not_full ths i th th' Hi).
  split; cbn; try done; [by rewrite length_insert| |];
    repeat case_match; lia.
Qed.

Lemma system_ok_notify c ths ths' pu po :
  system_ok (System c ths pu po) -> length ths' = length ths ->
  countb on_not_empty ths' = countb on_not_empty ths -> countb on_not_full ths' = countb on_not_full ths ->
  system_ok (System c ths' pu po).
Proof. intros [H1 H2 H3 H4 H5] El Er Ew. cbn in *. split; cbn; by rewrite ?El, ?Er, ?Ew. Qed.

Lemma system_ok_notify_one c ths ths' pu po (notify : bool) on :
  system_ok (System c ths pu po) -> (if notify then notify_one on ths ths' else ths' = ths) ->
  system_ok (System c ths' pu po).
Proof.
  intros Hok Hn. destruct notify; [|by subst]. eapply system_ok_notify; [exact Hok|..].
  - by eapply notify_one_length.
  - eapply notify_one_countb; [intros; apply on_not_empty_wake|exact Hn].
  - eapply notify_one_countb; [intros; apply on_not_full_wake|exact Hn].
Qed.

Lemma system_ok_notify_all c ths pu po on :
  system_ok (System c ths pu po) -> system_ok (System c (notify_all on ths) pu po).
Proof.
  intros Hok. eapply system_ok_notify; [exact Hok|..].
  - unfold notify_all. by rewrite length_fmap.
  - apply notify_all_countb. intros. apply on_not_empty_wake.
  - apply notify_all_countb. intros. apply on_not_full_wake.
Qed.

(** The waiter counters do not wrap. *)
Lemma park_count (f : thread -> bool) ths i th th' :
  Z.of_nat (length ths) < size_modulus -> ths !! i = Some th -> f th = false -> f th' = true ->
  (Z.of_nat (countb f ths) +! 1) = Z.of_nat (countb f ths) + 1.
Proof.
  intros Hlen Hi Hf Hf'. pose proof (countb_insert f ths i th th' Hi) as E. rewrite Hf, Hf' in E.
  pose proof (countb_le f (<[i := th']> ths)) as Hle. rewrite length_insert in Hle. unwrap. lia.
Qed.

Lemma unpark_count (f : thread -> bool) ths i th :
  Z.of_nat (length ths) < size_modulus -> ths !! i = Some th -> f th = true ->
  (Z.of_nat (countb f ths) -! 1) = Z.of_nat (countb f ths) - 1.
Proof.
  intros Hlen Hi Hf. pose proof (countb_pos f ths i th Hi Hf). pose proof (countb_le f ths). unwrap. lia.
Qed.

Lemma emplace_section_ok c ths pu po i th value c' st w :
  system_ok (System c ths pu po) -> ths !! i = Some th -> on_not_empty th = false ->
  emplace_effect c c' value st w ->
  w + (if on_not_full th then 1 else 0) = m_write_waiters c + (if emplace_sleeps st then 1 else 0) ->
  system_ok (System c' (<[i := emplace_thread value st]> ths) (pu ++ pushed_by value st) po).
Proof.
  intros Hok Hi Hth He Hw. destruct (Hok) as [_ _ _ Hb Hs]. cbn in *.
  pose proof (emplace_effect_bounded _ _ _ _ _ He Hb). destruct He as [Eq _ _ Er Ew _].
  eapply chan_system_ok_move; [exact Hok|exact Hi|..]; rewrite ?Hth, ?Er, ?Ew; try done.
  - by destruct st.
  - rewrite Hw. by destruct st.
  - by rewrite Hs, Eq, app_assoc.
Qed.

Lemma chan_read_section_ok c ths pu po i th c' st r :
  system_ok (System c ths pu po) -> ths !! i = Some th -> on_not_full th = false ->
  read_effect c c' st r ->
  r + (if on_not_empty th then 1 else 0) = m_read_waiters c + (if read_sleeps st then 1 else 0) ->
  system_ok (System c' (<[i := read_thread st]> ths) pu (po ++ popped_by st)).
Proof.
  intros Hok Hi Hth He Hr. destruct (Hok) as [_ _ _ Hb Hs]. cbn in *.
  pose proof (read_effect_bounded _ _ _ _ He Hb). destruct He as [Eq _ _ Ew Er _].
  eapply chan_system_ok_move; [exact Hok|exact Hi|..]; rewrite ?Hth, ?Er, ?Ew; try done.
  - rewrite Hr. by destruct st.
  - by destruct st.
  - by rewrite Hs, Eq, app_assoc.
Qed.

Lemma wait_section_ok c ths pu po i th c' st r :
  system_ok (System c ths pu po) -> ths !! i = Some th -> on_not_full th = false ->
  wait_effect c c' st r ->
  r + (if on_not_empty th then 1 else 0) = m_read_waiters c + (if wait_sleeps st then 1 else 0) ->
  system_ok (System c' (<[i := wait_thread st]> ths) pu po).
Proof.
  intros Hok Hi Hth [-> _] Hr. destruct (Hok) as [_ _ _ Hb Hs]. cbn in *.
  eapply chan_system_ok_move; [exact Hok|exact Hi|..]; rewrite ?Hth; try done; cbn.
  - rewrite Hr. by destruct st.
  - by destruct st.
Qed.

Lemma chan_step_preserves allow s s' : system_ok s -> step allow s s' -> system_ok s'.
Proof.
  intros Hok Hstep. chan_step_cases Hstep;
    destruct (Hok) as [Hlen Hr Hw _ _]; cbn in Hlen, Hr, Hw.
  - destruct (emplace_effect_ok c t strategy value) as [He _]; [rewrite Hw; by apply waiters_sized|].
    rewrite Hrun in He. eapply emplace_section_ok; [exact Hok|exact Hi|done|exact He|]. cbn.
    destruct (emplace_sleeps st); [|done]. rewrite Hw, (park_count _ _ i Idle (WriteParked t value false)); (done || lia).
  - pose proof (emplace_wait_effect c t value) as He. rewrite Hrun in He.
    eapply emplace_section_ok; [exact Hok|exact Hi|done|exact He|]. cbn.
    destruct (emplace_sleeps st); [done|]. rewrite Hw, (unpark_count _ _ i _ Hlen Hi) by done. lia.
  - eapply system_ok_notify_one; [|exact Hn]. eapply chan_system_ok_move; [exact Hok|exact Hi|done|done|apply Hok|apply Hok].
  - destruct (read_effect_ok c t strategy) as [He _]; [rewrite Hr; by apply waiters_sized|].
    rewrite Hrun in He. eapply chan_read_section_ok; [exact Hok|exact Hi|done|exact He|]. cbn.
    destruct (read_sleeps st); [|done]. rewrite Hr, (park_count _ _ i Idle (ReadParked t false)); (done || lia).
  - pose proof (read_wait_effect c t) as He. rewrite Hrun in He.
    eapply chan_read_section_ok; [exact Hok|exact Hi|done|exact He|]. cbn.
    destruct (read_sleeps st); [done|]. rewrite Hr, (unpark_count _ _ i _ Hlen Hi) by done. lia.
  - eapply system_ok_notify_one; [|exact Hn]. eapply chan_system_ok_move; [exact Hok|exact Hi|done|done|apply Hok|apply Hok].
  - pose proof (internal_wait_effect c t) as He. unfold wait_to_read in Hrun. rewrite Hrun in He.
    eapply wait_section_ok; [exact Hok|exact Hi|done|apply He; rewrite Hr; by apply waiters_sized|]. cbn.
    destruct (wait_sleeps st); [|done]. rewrite Hr, (park_count _ _ i Idle (WaitParked t false)); (done || lia).
  - pose proof (wait_round_effect c t) as He. rewrite Hrun in He.
    eapply wait_section_ok; [exact Hok|exact Hi|done|exact He|]. cbn.
    destruct (wait_sleeps st); [done|]. rewrite Hr, (unpark_count _ _ i _ Hlen Hi) by done. lia.
  - eapply chan_system_ok_move; [exact Hok|exact Hi|done|done|apply Hok|apply Hok].
  - apply system_ok_notify_all. eapply chan_system_ok_move; [exact Hok|exact Hi|done|done|apply Hok|apply Hok].
  - apply system_ok_notify_all. eapply chan_system_ok_move; [exact Hok|exact Hi|done|done|apply Hok|apply Hok].
Qed.

(** ** Wake-ups *)

Definition asleep (on : thread -> bool) (th : thread) : bool := on th && negb (is_woken th).
Definition awake (on : thread -> bool) (th : thread) : bool := on th && is_woken th.
Definition pending_not_empty (th : thread) : bool :=
  match th with NotifyingNotEmpty b => b | _ => false end.
Definition pending_not_full (th : thread) : bool :=
  match th with NotifyingNotFull b => b | _ => false end.
Definition completing_not_empty (th : thread) : bool :=
  match th with CompletingNotEmpty => true | _ => false end.
Definition completing_not_full (th : thread) : bool :=
  match th with CompletingNotEmpty | CompletingNotFull => true | _ => false end.

(** Whoever sleeps is about to be woken by the completion, or there is no
    more to do ([amount] items to read, or slots to fill) than there are
    threads already woken for it and notifications on their way. *)
Definition covered (asleep awake pending completing : nat) (completed : bool) (amount : Z) : Prop :=
  asleep = 0%nat \/ (0 < completing)%nat \/
  (completed = false /\ amount <= Z.of_nat awake + Z.of_nat pending).

(** Threads that can neither be cancelled nor use [wait_to_read]. *)
Definition calm (th : thread) : Prop :=
  match th with
  | WriteParked t _ _ | ReadParked t _ => t = no_stop
  | WaitParked _ _ => False
  | _ => True
  end.

Definition calm_operation (op : operation) : Prop :=
  match op with
  | OpEmplace t _ _ | OpRead t _ => t = no_stop
  | OpWaitToRead _ => False
  | OpComplete => True
  end.

Definition readers_covered (c : channel T) (ths : list thread) : Prop :=
  covered (countb (asleep on_not_empty) ths) (countb (awake on_not_empty) ths)
    (countb pending_not_empty ths) (countb completing_not_empty ths)
    (m_writer_completed c) (len (m_queue c)).
Definition writers_covered (c : channel T) (ths : list thread) : Prop :=
  covered (countb (asleep on_not_full) ths) (countb (awake on_not_full) ths)
    (countb pending_not_full ths) (countb completing_not_full ths)
    (m_writer_completed c) (m_capacity c - len (m_queue c)).

Record wakeups_ok (s : system) : Prop := {
  wk_calm : Forall calm (s_threads s);
  wk_readers : readers_covered (s_channel s) (s_threads s);
  wk_writers : writers_covered (s_channel s) (s_threads s);
  wk_bounded : 0 < m_capacity (s_channel s) \/
    (countb (asleep on_not_full) (s_threads s) + countb (awake on_not_full) (s_threads s) = 0)%nat
}.

(** The counts after one thread moved from [th] to [th']. *)
Lemma counts_move (ths : list thread) i th th' :
  ths !! i = Some th ->
  forall f : thread -> bool, (countb f (<[i := th']> ths) + (if f th then 1 else 0) = countb f ths + (if f th' then 1 else 0))%nat.
Proof. intros Hi f. by apply countb_insert. Qed.

Ltac count_all H :=
  pose proof (H (asleep on_not_empty)); pose proof (H (awake on_not_empty));
  pose proof (H pending_not_empty); pose proof (H completing_not_empty);
  pose proof (H (asleep on_not_full)); pose proof (H (awake on_not_full));
  pose proof (H pending_not_full); pose proof (H completing_not_full).

(** Decides a [covered] goal from [covered] hypotheses and counts. *)
Ltac cover :=
  unfold readers_covered, writers_covered, covered in *;
  repeat match goal with
  | H : _ \/ _ |- _ => destruct H
  | H : _ /\ _ |- _ => destruct H
  end;
  first [lia | left; lia | right; left; lia | right; right; split; [congruence|lia] | exfalso; congruence].

Lemma waiters_split (on : thread -> bool) ths :
  countb on ths = (countb (asleep on) ths + countb (awake on) ths)%nat.
Proof.
  induction ths as [|th ths IH]; simpl; [done|]. rewrite IH. unfold asleep, awake.
  destruct (on th), (is_woken th); simpl; lia.
Qed.

Lemma notify_one_counts on ths ths' :
  notify_one on ths ths' -> (forall th, on (wake th) = on th) -> (forall th, on th = true -> is_woken (wake th) = true) ->
  (countb (asleep on) ths = 0 /\ ths' = ths \/
   countb (asleep on) ths = S (countb (asleep on) ths') /\
   countb (awake on) ths' = S (countb (awake on) ths))%nat.
Proof.
  intros [j th Hj Hon Hw|Hnone] Hwk Hwoken.
  - right. pose proof (counts_move ths j th (wake th) Hj) as H.
    pose proof (H (asleep on)) as Ha. pose proof (H (awake on)) as Hb. unfold asleep, awake in *.
    rewrite Hwk, Hon, Hw, Hwoken in * by done. cbn in Ha, Hb. lia.
  - left. split; [|done]. apply countb_zero. intros j th Hj. by apply (Hnone j).
Qed.

Lemma notify_all_asleep on ths :
  (forall th, on (wake th) = on th) -> (forall th, on th = true -> is_woken (wake th) = true) ->
  countb (asleep on) (notify_all on ths) = 0%nat.
Proof.
  intros Hwk Hw. apply countb_zero. intros j th Hj. unfold notify_all in Hj. rewrite list_lookup_fmap in Hj.
  destruct (ths !! j) as [th0|]; [|done]. injection Hj as <-. unfold asleep.
  destruct (on th0) eqn:E; [|by rewrite E]. by rewrite Hwk, Hw, E.
Qed.

Lemma wake_not_empty_woken th : on_not_empty th = true -> is_woken (wake th) = true.
Proof. by destruct th. Qed.
Lemma wake_not_full_woken th : on_not_full th = true -> is_woken (wake th) = true.
Proof. by destruct th. Qed.

Lemma calm_insert (ths : list thread) i th : Forall calm ths -> calm th -> Forall calm (<[i := th]> ths).
Proof. intros. by apply Forall_insert. Qed.

Lemma calm_wake th : calm th -> calm (wake th).
Proof. by destruct th. Qed.

Lemma calm_notify_one on ths ths' : notify_one on ths ths' -> Forall calm ths -> Forall calm ths'.
Proof.
  intros [j th Hj _ _|_] Hc; [|done]. apply calm_insert; [done|]. apply calm_wake.
  by eapply Forall_lookup_1.
Qed.

Lemma calm_notify_all on ths : Forall calm ths -> Forall calm (notify_all on ths).
Proof.
  intros Hc. apply Forall_fmap. eapply Forall_impl; [exact Hc|]. intros th Hth. simpl.
  destruct (on th); [by apply calm_wake|done].
Qed.

Lemma notify_not_empty_wakeups c ths ths' pu po (notify : bool) i :
  wakeups_ok (System c ths pu po) -> ths !! i = Some (NotifyingNotEmpty notify) ->
  (if notify then notify_one on_not_empty (<[i := Idle]> ths) ths' else ths' = <[i := Idle]> ths) ->
  wakeups_ok (System c ths' pu po).
Proof.
  intros [Hc Hr Hw Hcap] Hi Hn. cbn in *. pose proof (counts_move ths i _ Idle Hi) as Hm. count_all Hm.
  pose proof (calm_insert ths i Idle Hc I) as Hc'. cbn in *.
  destruct notify.
  - split; cbn; [by eapply calm_notify_one| | |].
    + pose proof (notify_one_countb pending_not_empty on_not_empty _ _ ltac:(by intros []) Hn).
      pose proof (notify_one_countb completing_not_empty on_not_empty _ _ ltac:(by intros []) Hn).
      destruct (notify_one_counts _ _ _ Hn on_not_empty_wake wake_not_empty_woken) as [[? ->]|[? ?]]; cover.
    + pose proof (notify_one_countb (asleep on_not_full) on_not_empty _ _ ltac:(by intros []) Hn).
      pose proof (notify_one_countb (awake on_not_full) on_not_empty _ _ ltac:(by intros []) Hn).
      pose proof (notify_one_countb pending_not_full on_not_empty _ _ ltac:(by intros []) Hn).
      pose proof (notify_one_countb completing_not_full on_not_empty _ _ ltac:(by intros []) Hn).
      cover.
    + pose proof (notify_one_countb (asleep on_not_full) on_not_empty _ _ ltac:(by intros []) Hn).
      pose proof (notify_one_countb (awake on_not_full) on_not_empty _ _ ltac:(by intros []) Hn). cover.
  - subst ths'. split; cbn; [done|cover|cover|cover].
Qed.

Lemma notify_not_full_wakeups c ths ths' pu po (notify : bool) i :
  wakeups_ok (System c ths pu po) -> ths !! i = Some (NotifyingNotFull notify) ->
  (if notify then notify_one on_not_full (<[i := Idle]> ths) ths' else ths' = <[i := Idle]> ths) ->
  wakeups_ok (System c ths' pu po).
Proof.
  intros [Hc Hr Hw Hcap] Hi Hn. cbn in *. pose proof (counts_move ths i _ Idle Hi) as Hm. count_all Hm.
  pose proof (calm_insert ths i Idle Hc I) as Hc'. cbn in *.
  destruct notify.
  - split; cbn; [by eapply calm_notify_one| | |].
    + pose proof (notify_one_countb (asleep on_not_empty) on_not_full _ _ ltac:(by intros []) Hn).
      pose proof (notify_one_countb (awake on_not_empty) on_not_full _ _ ltac:(by intros []) Hn).
      pose proof (notify_one_countb pending_not_empty on_not_full _ _ ltac:(by intros []) Hn).
      pose proof (notify_one_countb completing_not_empty on_not_full _ _ ltac:(by intros []) Hn).
      cover.
    + pose proof (notify_one_countb pending_not_full on_not_full _ _ ltac:(by intros []) Hn).
      pose proof (notify_one_countb completing_not_full on_not_full _ _ ltac:(by intros []) Hn).
      destruct (notify_one_counts _ _ _ Hn on_not_full_wake wake_not_full_woken) as [[? ->]|[? ?]]; cover.
    + destruct (notify_one_counts _ _ _ Hn on_not_full_wake wake_not_full_woken) as [[? ->]|[? ?]]; cover.
  - subst ths'. split; cbn; [done|cover|cover|cover].
Qed.

(** The section of a thread that pushes. *)
Lemma emplace_wakeups c ths pu po i th value c' st w pu' :
  system_ok (System c ths pu po) -> wakeups_ok (System c ths pu po) -> ths !! i = Some th ->
  (th = Idle \/ exists t v b, th = WriteParked t v b /\ forall r, st = EmplaceReturns r -> m_writer_completed c = true) ->
  emplace_effect c c' value st w -> (forall t, st = EmplaceSleeps t -> t = no_stop) ->
  wakeups_ok (System c' (<[i := emplace_thread value st]> ths) pu' po).
Proof.
  intros Hok [Hc Hr Hw Hcap] Hi Hth [Eq Ec Ecm _ _ Hst] Ht. cbn in *.
  pose proof (counts_move ths i _ (emplace_thread value st) Hi) as Hm. count_all Hm.
  pose proof (waiters_split on_not_empty ths). destruct Hok as [_ Hrw _ _ _]. cbn in Hrw.
  assert (calm (emplace_thread value st)) by (destruct st; [by apply Ht|done..]).
  pose proof (calm_insert ths i _ Hc ltac:(eassumption)) as Hc'.
  clear Hm. destruct st as [t|b|notify]; cbn in *;
    (split; cbn; [done| | |]; unfold readers_covered, writers_covered in *; rewrite ?Ecm, ?Ec, ?Eq, ?app_nil_r).
  1-3: destruct Hst as [? Hf]; pose proof (full_no_slot c Hf); pose proof (full_capacity c Hf); destruct Hth as [->|(t' & v & [] & -> & _)]; cbn in *; cover.
  1-3: destruct Hth as [->|(t' & v & [] & -> & Hret)]; cbn in *; try specialize (Hret _ eq_refl); cover.
  all: destruct Hst as (? & _ & Hn); rewrite ?len_app, ?len_singleton; destruct notify;
    destruct Hth as [->|(t' & v & [] & -> & _)]; cbn in *; cover.
Qed.

(** The section of a thread that reads. *)
Lemma read_wakeups c ths pu po i th c' st r po' :
  system_ok (System c ths pu po) -> wakeups_ok (System c ths pu po) -> ths !! i = Some th ->
  (th = Idle \/ exists t b, th = ReadParked t b /\ forall e, st = ReadFails e -> m_queue c = []) ->
  read_effect c c' st r -> (forall t, st = ReadSleeps t -> t = no_stop) ->
  wakeups_ok (System c' (<[i := read_thread st]> ths) pu po').
Proof.
  intros Hok [Hc Hr Hw Hcap] Hi Hth [Eq Ec Ecm _ _ Hst] Ht. cbn in *.
  pose proof (counts_move ths i _ (read_thread st) Hi) as Hm. count_all Hm.
  pose proof (waiters_split on_not_full ths). destruct Hok as [_ _ Hww _ _]. cbn in Hww.
  assert (calm (read_thread st)) by (destruct st; [by apply Ht|done..]).
  pose proof (calm_insert ths i _ Hc ltac:(eassumption)) as Hc'.
  assert (len (m_queue c) = len (popped_by st) + len (m_queue c')) as El by (by rewrite Eq, len_app).
  clear Hm. destruct st as [t|e|v notify|]; cbn in *;
    try (change (len (@nil T)) with 0 in El); try (rewrite len_singleton in El);
    (split; cbn; [done| | |]; unfold readers_covered, writers_covered in *; rewrite ?Ecm, ?Ec).
  1-3: destruct Hst as [? Hq]; rewrite Hq in *; change (len (@nil T)) with 0 in *;
    destruct Hth as [->|(t' & [] & -> & _)]; cbn in *; cover.
  1-3: destruct Hth as [->|(t' & [] & -> & Hfail)]; cbn in *; try (rewrite (Hfail _ eq_refl) in *);
    change (len (@nil T)) with 0 in *; cover.
  1-3: destruct notify; destruct Hth as [->|(t' & [] & -> & _)]; cbn in *; cover.
  all: done.
Qed.

Lemma chan_step_wakeups s s' :
  system_ok s -> wakeups_ok s -> step calm_operation s s' -> wakeups_ok s'.
Proof.
  intros Hok Hwk Hstep. chan_step_cases Hstep;
    destruct (Hok) as [Hlen Hr Hw _ _]; cbn in Hlen, Hr, Hw; pose proof (wk_calm _ Hwk) as Hcalm; cbn in Hcalm;
    try (pose proof (Forall_lookup_1 _ _ _ _ Hcalm Hi) as Hth; cbn in Hth).
  - cbn in Ha. subst t. destruct (emplace_effect_ok c no_stop strategy value) as [He _];
      [rewrite Hw; by apply waiters_sized|].
    pose proof (emplace_calm c strategy value) as Ht. rewrite Hrun in He, Ht. cbn in Ht.
    eapply emplace_wakeups; [exact Hok|exact Hwk|exact Hi|by left|exact He|exact Ht].
  - subst t. pose proof (emplace_wait_effect c no_stop value) as He. pose proof (emplace_wait_calm c value) as Ht.
    rewrite Hrun in He, Ht. cbn in Ht.
    eapply emplace_wakeups; [exact Hok|exact Hwk|exact Hi| |exact He|by intros t ->].
    right. eexists _, _, _. split; [done|]. by intros b ->.
  - by eapply notify_not_empty_wakeups.
  - cbn in Ha. subst t. destruct (read_effect_ok c no_stop strategy) as [He _];
      [rewrite Hr; by apply waiters_sized|].
    pose proof (read_calm c strategy) as Ht. rewrite Hrun in He, Ht. cbn in Ht.
    eapply read_wakeups; [exact Hok|exact Hwk|exact Hi|by left|exact He|exact Ht].
  - subst t. pose proof (read_wait_effect c no_stop) as He. pose proof (read_wait_calm c) as Ht.
    rewrite Hrun in He, Ht. cbn in Ht.
    eapply read_wakeups; [exact Hok|exact Hwk|exact Hi| |exact He|by intros t ->].
    right. eexists _, _. split; [done|]. by intros e ->.
  - by eapply notify_not_full_wakeups.
  - done.
  - done.
  - pose proof (counts_move ths i _ CompletingNotEmpty Hi) as Hm. count_all Hm.
    destruct Hwk as [_ _ _ Hcap]. cbn in *.
    split; cbn; [by apply calm_insert|right; left; lia|right; left; lia|cover].
  - pose proof (counts_move ths i _ CompletingNotFull Hi) as Hm. count_all Hm.
    destruct Hwk as [_ _ Hww Hcap]. cbn in Hww, Hcap. split; cbn.
    + by apply calm_notify_all, calm_insert.
    + left. by apply notify_all_asleep; [apply on_not_empty_wake|apply wake_not_empty_woken].
    + unfold writers_covered in *. rewrite !notify_all_countb by (by intros []). cbn in *. cover.
    + rewrite !notify_all_countb by (by intros []). cbn in *. cover.
  - pose proof (counts_move ths i _ Idle Hi) as Hm. count_all Hm.
    destruct Hwk as [_ Hwr _ Hcap]. cbn in Hwr, Hcap. split; cbn.
    + by apply calm_notify_all, calm_insert.
    + unfold readers_covered in *. rewrite !notify_all_countb by (by intros []). cbn in *. cover.
    + left. by apply notify_all_asleep; [apply on_not_full_wake|apply wake_not_full_woken].
    + rewrite <- waiters_split, notify_all_countb by (intros; apply on_not_full_wake).
      rewrite waiters_split. cbn in *. cover.
Qed.

Lemma chan_initial_ok capacity n : Z.of_nat n < size_modulus -> system_ok (initial capacity n).
Proof.
  intros Hn. assert (forall f : thread -> bool, f Idle = false -> countb f (replicate n Idle) = 0%nat) as Hz.
  { intros f Hf. apply countb_zero. intros i th Hi. apply lookup_replicate in Hi as [-> _]. done. }
  split; cbn; rewrite ?length_replicate, ?Hz; try done. unfold bounded, len. simpl. lia.
Qed.

Lemma initial_wakeups capacity n : wakeups_ok (initial capacity n).
Proof.
  assert (forall f : thread -> bool, f Idle = false -> countb f (replicate n Idle) = 0%nat) as Hz.
  { intros f Hf. apply countb_zero. intros i th Hi. apply lookup_replicate in Hi as [-> _]. done. }
  split; cbn; [by apply Forall_replicate|left; by apply Hz..|right; by rewrite !Hz].
Qed.

Lemma chan_reachable_ok allow capacity n s :
  Z.of_nat n < size_modulus -> rtc (step allow) (initial capacity n) s -> system_ok s.
Proof.
  intros Hn Hrun. eapply (rtc_invariant (step allow) system_ok); [|exact Hrun|by apply chan_initial_ok].
  intros s1 s2. apply chan_step_preserves.
Qed.

(** Whatever the threads do, and however they are interleaved, cancelled
    or spuriously woken: values come out in the order they went in, none is
    lost or duplicated, the capacity is respected, and the waiter counters
    are the numbers of parked threads. *)
Theorem channel_fifo allow capacity n s
    (Hn : Z.of_nat n < size_modulus) (Hrun : rtc (step allow) (initial capacity n) s) :
  s_pushed s = s_popped s ++ m_queue (s_channel s) /\
  bounded (s_channel s) /\
  m_read_waiters (s_channel s) = Z.of_nat (countb on_not_empty (s_threads s)) /\
  m_write_waiters (s_channel s) = Z.of_nat (countb on_not_full (s_threads s)).
Proof. by destruct (chan_reachable_ok allow capacity n s Hn Hrun). Qed.

Lemma chan_reachable_wakeups capacity n s :
  Z.of_nat n < size_modulus -> rtc (step calm_operation) (initial capacity n) s -> system_ok s /\ wakeups_ok s.
Proof.
  intros Hn Hrun.
  apply (rtc_invariant (step calm_operation) (fun s => system_ok s /\ wakeups_ok s) (initial capacity n));
    [|done|by split; [apply chan_initial_ok|apply initial_wakeups]].
  intros s1 s2 [? ?] ?. split; [by eapply chan_step_preserves|by eapply chan_step_wakeups].
Qed.

(** When every thread is idle or asleep, the sleepers have reason to. *)
Lemma quiet_channel s :
  system_ok s -> wakeups_ok s ->
  Forall (fun th => th = Idle \/ asleep on_not_empty th = true \/ asleep on_not_full th = true) (s_threads s) ->
  (forall t, ReadParked t false ∈ s_threads s ->
    m_queue (s_channel s) = [] /\ m_writer_completed (s_channel s) = false) /\
  (forall t v, WriteParked t v false ∈ s_threads s ->
    full (s_channel s) = true /\ m_writer_completed (s_channel s) = false).
Proof.
  intros Hok [_ Hr Hw Hcap] Hquiet.
  assert (forall f : thread -> bool, f Idle = false ->
    (forall th, asleep on_not_empty th = true \/ asleep on_not_full th = true -> f th = false) ->
    countb f (s_threads s) = 0%nat) as Hzero.
  { intros f Hi Hs. apply countb_zero. intros i th E. rewrite Forall_lookup in Hquiet.
    destruct (Hquiet i th E) as [->|?]; [done|by apply Hs]. }
  unfold readers_covered, writers_covered in *.
  assert (forall on th, asleep on_not_empty th = true \/ asleep on_not_full th = true -> awake on th = false) as Haw.
  { intros on th. unfold asleep, awake. by destruct (is_woken th); rewrite ?andb_false_r; [intros [|]|]. }
  rewrite (Hzero (awake on_not_empty)), (Hzero pending_not_empty), (Hzero completing_not_empty) in Hr
    by (done || by apply Haw || by intros [] [?|?]).
  rewrite (Hzero (awake on_not_full)), (Hzero pending_not_full), (Hzero completing_not_full) in Hw
    by (done || by apply Haw || by intros [] [?|?]).
  split.
  - intros t [i Hi]%list_elem_of_lookup.
    pose proof (countb_pos (asleep on_not_empty) _ i _ Hi eq_refl).
    destruct Hr as [?|[?|[? Hq]]]; [lia..|]. split; [|done]. apply len_nil_iff.
    pose proof (len_nonneg (m_queue (s_channel s))). lia.
  - intros t v [i Hi]%list_elem_of_lookup.
    pose proof (countb_pos (asleep on_not_full) _ i _ Hi eq_refl).
    destruct Hw as [?|[?|[? Hq]]]; [lia..|]. split; [|done]. unfold full.
    destruct Hcap as [?|?]; [|lia]. destruct (Z.gtb_spec (m_capacity (s_channel s)) 0); [|lia].
    cbn [andb]. apply Z.geb_le. lia.
Qed.

(** C22: without cancellation and [wait_to_read], no thread is left waiting for
    something that happened: when every thread is idle or asleep, a sleeping
    reader means an empty and open channel, a sleeping writer a full and open
    one (so readers and writers never sleep together). *)
Theorem channel_no_lost_wakeup capacity n s
    (Hn : Z.of_nat n < size_modulus) (Hrun : rtc (step calm_operation) (initial capacity n) s)
    (Hquiet : Forall (fun th => th = Idle \/ asleep on_not_empty th = true \/ asleep on_not_full th = true)
                (s_threads s)) :
  (forall t, ReadParked t false ∈ s_threads s ->
    m_queue (s_channel s) = [] /\ m_writer_completed (s_channel s) = false) /\
  (forall t v, WriteParked t v false ∈ s_threads s ->
    full (s_channel s) = true /\ m_writer_completed (s_channel s) = false).
Proof. destruct (chan_reachable_wakeups capacity n s Hn Hrun). by apply quiet_channel. Qed.
End system.
Arguments operation T : clear implicits.
Arguments thread T : clear implicits.
Arguments system T : clear implicits.

(** ** Scheduled runs *)
Section schedules.
Context {T : Type}.

Inductive event :=
  | Call (i : nat) (op : operation T)
  | Runs (i : nat) (target : option nat). (* [target]: whom a notify_one wakes *)

(** [notify_one] waking [target]; [None] is refused while someone sleeps. *)
Definition notify_target (on : thread T -> bool) (ths : list (thread T)) (target : option nat)
    : option (list (thread T)) :=
  match target with
  | Some j => th ← ths !! j; if asleep on th then Some (<[j := wake th]> ths) else None
  | None => if Nat.eqb (countb (asleep on) ths) 0 then Some ths else None
  end.

Definition exec (e : event) (s : system T) : option (system T) :=
  let '(System c ths pu po) := s in
  match e with
  | Call i op =>
      match ths !! i with
      | Some Idle =>
          match op with
          | OpEmplace t strategy value =>
              let '(c', st) := emplace c t strategy value in
              Some (System c' (<[i := emplace_thread value st]> ths) (pu ++ pushed_by value st) po)
          | OpRead t strategy =>
              let '(c', st) := read c t strategy in
              Some (System c' (<[i := read_thread st]> ths) pu (po ++ popped_by st))
          | OpWaitToRead t =>
              let '(c', st) := wait_to_read c t in
              Some (System c' (<[i := wait_thread st]> ths) pu po)
          | OpComplete => Some (System (complete_writer c) (<[i := CompletingNotEmpty]> ths) pu po)
          end
      | _ => None
      end
  | Runs i target =>
      match ths !! i with
      | Some (WriteParked t value _) =>
          let '(c', st) := emplace_wait c t value in
          Some (System c' (<[i := emplace_thread value st]> ths) (pu ++ pushed_by value st) po)
      | Some (ReadParked t _) =>
          let '(c', st) := read_wait c t in
          Some (System c' (<[i := read_thread st]> ths) pu (po ++ popped_by st))
      | Some (WaitParked t _) =>
          let '(c', st) := wait_to_read_round c t in
          Some (System c' (<[i := wait_thread st]> ths) pu po)
      | Some (NotifyingNotEmpty b) =>
          ths' ← (if b : bool then notify_target on_not_empty (<[i := Idle]> ths) target else Some (<[i := Idle]> ths));
          Some (System c ths' pu po)
      | Some (NotifyingNotFull b) =>
          ths' ← (if b : bool then notify_target on_not_full (<[i := Idle]> ths) target else Some (<[i := Idle]> ths));
          Some (System c ths' pu po)
      | Some CompletingNotEmpty => Some (System c (notify_all on_not_empty (<[i := CompletingNotFull]> ths)) pu po)
      | Some CompletingNotFull => Some (System c (notify_all on_not_full (<[i := Idle]> ths)) pu po)
      | _ => None
      end
  end.

Fixpoint exec_all (es : list event) (s : system T) : option (system T) :=
  match es with
  | [] => Some s
  | e :: es => s' ← exec e s; exec_all es s'
  end.

Definition event_allowed (allow : operation T -> Prop) (e : event) : Prop :=
  match e with Call _ op => allow op | Runs _ _ => True end.

Lemma notify_target_sound on ths target ths' :
  notify_target on ths target = Some ths' -> notify_one on ths ths'.
Proof.
  destruct target as [j|]; cbn.
  - destruct (ths !! j) as [th|] eqn:Ej; [|done]. cbn. destruct (asleep on th) eqn:Ea; [|done]. intros [= <-].
    apply andb_true_iff in Ea as [Hon Hw%negb_true_iff]. by apply notify_one_wakes.
  - destruct (Nat.eqb_spec (countb (asleep on) ths) 0) as [E|]; [|done]. intros [= <-].
    apply notify_one_none. by apply countb_zero.
Qed.

Lemma chan_exec_step allow e s s' : event_allowed allow e -> exec e s = Some s' -> step allow s s'.
Proof.
  intros Ha E. destruct s as [c ths pu po]. destruct e as [i op|i target]; cbn in Ha, E;
    destruct (ths !! i) as [th|] eqn:Ei; try done; destruct th; try done.
  - destruct op as [t strategy value|t strategy|t|]; [destruct (emplace c t strategy value) eqn:Er
      |destruct (read c t strategy) eqn:Er|destruct (wait_to_read c t) eqn:Er|];
      injection E as <-; eauto using step.
  - destruct (emplace_wait c t value) eqn:Er. injection E as <-. eauto using step.
  - destruct (read_wait c t) eqn:Er. injection E as <-. eauto using step.
  - destruct (wait_to_read_round c t) eqn:Er. injection E as <-. eauto using step.
  - destruct (if notify then _ else _) as [ths'|] eqn:En; [|done]. injection E as <-.
    eapply step_emplace_notifies; [done|]. destruct notify; [by eapply notify_target_sound|by simplify_eq].
  - destruct (if notify then _ else _) as [ths'|] eqn:En; [|done]. injection E as <-.
    eapply step_read_notifies; [done|]. destruct notify; [by eapply notify_target_sound|by simplify_eq].
  - injection E as <-. eauto using step.
  - injection E as <-. eauto using step.
Qed.

Lemma chan_exec_all_run allow es s s' :
  Forall (event_allowed allow) es -> exec_all es s = Some s' -> rtc (step allow) s s'.
Proof.
  intros Hes. revert s. induction Hes as [|e es He _ IH]; intros s E; cbn in E; [by simplify_eq|].
  destruct (exec e s) as [s1|] eqn:E1; [|done]. eapply rtc_l; [by eapply chan_exec_step|by apply IH].
Qed.
End schedules.
Arguments event T : clear implicits.

Section runs.
Definition any_operation (op : operation nat) : Prop := True.

(** Two readers park, the first with a stop token; a value is pushed and the
    first reader is notified; its stop request arrives before it runs. *)
Definition cancelled_reader_schedule : list (event nat) :=
  [Call 0 (OpRead (Some 2%nat) WAIT); Call 1 (OpRead no_stop WAIT);
   Call 2 (OpEmplace no_stop WAIT 7%nat); Runs 2 (Some 0%nat); Runs 0 None].

(** A reader that is notified and then cancelled returns
    [REQUEST_CANCELLED] without passing the notification on: another reader
    stays asleep although the channel holds a value and no one is left to
    wake it. *)
Theorem cancelled_reader_swallows_wakeup :
  exists s, rtc (step any_operation) (initial 0 3) s /\
    s_threads s = [Idle; ReadParked no_stop false; Idle] /\ m_queue (s_channel s) = [7%nat].
Proof.
  destruct (exec_all cancelled_reader_schedule (initial 0 3)) as [s|] eqn:E; [|vm_compute in E; discriminate].
  exists s. split.
  - eapply chan_exec_all_run; [|exact E]. by repeat constructor.
  - vm_compute in E. injection E as <-. done.
Qed.

(** A bounded channel: two pushes fill it, a third parks. *)
Definition full_schedule : list (event nat) :=
  [Call 0 (OpEmplace no_stop WAIT 1%nat); Runs 0 None; Call 0 (OpEmplace no_stop TRY 2%nat); Runs 0 None;
   Call 1 (OpEmplace no_stop WAIT 3%nat)].

Definition after_full : system nat :=
  default (initial 2 2) (exec_all full_schedule (initial 2 2)).

Lemma channel_fifo_witness :
  s_pushed after_full = s_popped after_full ++ m_queue (s_channel after_full) /\
  bounded (s_channel after_full) /\
  m_read_waiters (s_channel after_full) = Z.of_nat (countb on_not_empty (s_threads after_full)) /\
  m_write_waiters (s_channel after_full) = Z.of_nat (countb on_not_full (s_threads after_full)).
Proof.
  apply (channel_fifo any_operation 2 2 after_full); [reflexivity|].
  apply (chan_exec_all_run _ full_schedule); [by repeat constructor|]. vm_compute. reflexivity.
Defined.

Lemma channel_no_lost_wakeup_witness :
  (forall t, ReadParked t false ∈ s_threads after_full ->
    m_queue (s_channel after_full) = [] /\ m_writer_completed (s_channel after_full) = false) /\
  (forall t v, WriteParked t v false ∈ s_threads after_full ->
    full (s_channel after_full) = true /\ m_writer_completed (s_channel after_full) = false).
Proof.
  apply (channel_no_lost_wakeup 2 2 after_full); [reflexivity| |].
  - apply (chan_exec_all_run _ full_schedule); [by repeat constructor|]. vm_compute. reflexivity.
  - assert (s_threads after_full = [Idle; WriteParked no_stop 3%nat false]) as -> by (vm_compute; reflexivity).
    apply Forall_cons. split; [by left|]. apply Forall_cons. split; [by right; right|by apply Forall_nil].
Defined.
End runs.
