(* ===== verification/ChannelSpec.v ===== *)
(** What a channel shared by any number of threads is to them: one bounded
    queue on which pushes, pops and the completion happen one at a time.  The
    locks, the waiting and the notifications of ChannelSystem.v are not
    observable: its steps refine this specification. *)

From S2P Require Import Prelude Channel ChannelSystem.

Section spec.
Context {T : Type}.

(** ** The specification *)

(** [q_capacity] 0: unbounded. *)
Record bounded_queue := BoundedQueue { q_items : list T; q_capacity : Z; q_closed : bool }.

Inductive queue_action :=
  | Push (value : T)
  | Pop (value : T)
  | Close.

(** [None]: the action is not possible. *)
Definition queue_exec (a : queue_action) (q : bounded_queue) : option bounded_queue :=
  match a with
  | Push value =>
      if negb (q_closed q) && ((q_capacity q =? 0) || (len (q_items q) <? q_capacity q))
      then Some (BoundedQueue (q_items q ++ [value]) (q_capacity q) (q_closed q))
      else None
  | Pop value =>
      match q_items q with
      | [] => None
      | front :: rest => Some (BoundedQueue rest (q_capacity q) (q_closed q))
      end
  | Close => Some (BoundedQueue (q_items q) (q_capacity q) true)
  end.

(** The value a pop delivers is the one at the front. *)
Definition pops_front (a : queue_action) (q : bounded_queue) : Prop :=
  match a with Pop value => head (q_items q) = Some value | _ => True end.

Fixpoint queue_run (actions : list queue_action) (q q' : bounded_queue) : Prop :=
  match actions with
  | [] => q = q'
  | a :: actions => pops_front a q /\ exists q1, queue_exec a q = Some q1 /\ queue_run actions q1 q'
  end.

Definition pushes (actions : list queue_action) : list T :=
  omap (fun a => match a with Push value => Some value | _ => None end) actions.
Definition pops (actions : list queue_action) : list T :=
  omap (fun a => match a with Pop value => Some value | _ => None end) actions.

(** ** The refinement *)

Definition queue_of (s : @system T) : bounded_queue :=
  BoundedQueue (m_queue (s_channel s)) (m_capacity (s_channel s)) (m_writer_completed (s_channel s)).

(** One step of the threads is at most one action of the queue. *)
Record simulates (s s' : @system T) (actions : list queue_action) : Prop := {
  sim_one : (length actions <= 1)%nat;
  sim_run : queue_run actions (queue_of s) (queue_of s');
  sim_pushed : s_pushed s' = s_pushed s ++ pushes actions;
  sim_popped : s_popped s' = s_popped s ++ pops actions
}.

Lemma simulates_nothing c c' ths ths' pu po :
  m_queue c' = m_queue c -> m_capacity c' = m_capacity c -> m_writer_completed c' = m_writer_completed c ->
  simulates (System c ths pu po) (System c' ths' pu po) [].
Proof.
  intros Eq Ec Ew. split; cbn; [lia| |by rewrite app_nil_r..].
  unfold queue_of. cbn. by rewrite Eq, Ec, Ew.
Qed.

Lemma emplace_simulates c c' ths ths' pu po value st w :
  0 <= m_capacity c -> emplace_effect c c' value st w ->
  exists actions, simulates (System c ths pu po) (System c' ths' (pu ++ pushed_by value st) po) actions.
Proof.
  intros Hcap [Eq Ec Ew _ _ Hs]. destruct st as [t|b|notify]; cbn [pushed_by] in *; rewrite ?app_nil_r in *.
  1-2: exists []; by apply simulates_nothing.
  destruct Hs as (Ho & Hf & _). exists [Push value]. split; cbn; [lia| |done|by rewrite app_nil_r].
  split; [done|]. unfold queue_of. cbn. rewrite Eq, Ec, Ew, Ho. cbn. unfold full in Hf.
  assert ((m_capacity c =? 0) || (len (m_queue c) <? m_capacity c) = true) as -> by lia. by eexists.
Qed.

Lemma read_simulates c c' ths ths' pu po st r :
  read_effect c c' st r ->
  exists actions, simulates (System c ths pu po) (System c' ths' pu (po ++ popped_by st)) actions.
Proof.
  intros [Eq Ec Ew _ _ Hs]. destruct st as [t|e|value notify|]; cbn [popped_by app] in *; rewrite ?app_nil_r in *; [..|done].
  1-2: exists []; by apply simulates_nothing.
  exists [Pop value]. split; cbn; [lia| |by rewrite app_nil_r|done].
  unfold queue_of. cbn. rewrite Eq, Ec, Ew. split; [done|]. by eexists.
Qed.

Lemma step_simulates allow s s' :
  system_ok s -> 0 <= m_capacity (s_channel s) -> step allow s s' -> exists actions, simulates s s' actions.
Proof.
  intros Hok Hcap Hstep. chan_step_cases Hstep;
    destruct (Hok) as [Hlen Hr Hw _ _]; cbn in Hlen, Hr, Hw, Hcap.
  - destruct (emplace_effect_ok c t strategy value) as [He _]; [rewrite Hw; by apply waiters_sized|].
    rewrite Hrun in He. by eapply emplace_simulates.
  - pose proof (emplace_wait_effect c t value) as He. rewrite Hrun in He. by eapply emplace_simulates.
  - exists []. by apply simulates_nothing.
  - destruct (read_effect_ok c t strategy) as [He _]; [rewrite Hr; by apply waiters_sized|].
    rewrite Hrun in He. by eapply read_simulates.
  - pose proof (read_wait_effect c t) as He. rewrite Hrun in He. by eapply read_simulates.
  - exists []. by apply simulates_nothing.
  - assert (is_size (m_read_waiters c)) as Hs by (rewrite Hr; by apply waiters_sized).
    destruct (internal_wait_effect c t Hs) as [E _]. unfold wait_to_read in Hrun. rewrite Hrun in E. cbn in E. rewrite E.
    exists []. by apply simulates_nothing.
  - pose proof (wait_round_effect c t) as [E _]. rewrite Hrun in E. cbn in E. rewrite E. exists []. by apply simulates_nothing.
  - exists [Close]. split; cbn; [lia| |by rewrite app_nil_r..]. split; [done|]. by eexists.
  - exists []. by apply simulates_nothing.
  - exists []. by apply simulates_nothing.
Qed.

Lemma queue_run_app as1 as2 q q1 q2 : queue_run as1 q q1 -> queue_run as2 q1 q2 -> queue_run (as1 ++ as2) q q2.
Proof.
  revert q. induction as1 as [|a as1 IH]; intros q; cbn; [by intros ->|].
  intros (Hf & q' & Ha & Hr) H2. split; [done|]. exists q'. split; [done|by apply IH].
Qed.

Lemma queue_run_capacity actions q q' : queue_run actions q q' -> q_capacity q' = q_capacity q.
Proof.
  revert q. induction actions as [|a actions IH]; intros q; cbn; [by intros ->|].
  intros (_ & q1 & Ha & Hr). rewrite (IH _ Hr). unfold queue_exec in Ha. destruct a; repeat case_match; by simplify_eq.
Qed.

(** A run of the threads is a run of the queue, with the same pushes and pops. *)
Definition refined (capacity : Z) (s : @system T) : Prop :=
  exists actions, queue_run actions (BoundedQueue [] capacity false) (queue_of s) /\
    s_pushed s = pushes actions /\ s_popped s = pops actions.

Lemma refined_step capacity s s' actions : refined capacity s -> simulates s s' actions -> refined capacity s'.
Proof.
  intros (done_actions & Hr & Hpu & Hpo) [_ Hrun Epu Epo]. exists (done_actions ++ actions).
  split; [by eapply queue_run_app|]. unfold pushes, pops in *. by rewrite Epu, Epo, Hpu, Hpo, !omap_app.
Qed.

Lemma refined_capacity capacity s : refined capacity s -> m_capacity (s_channel s) = capacity.
Proof. intros (actions & Hr & _). by apply queue_run_capacity in Hr. Qed.

(** C10: under every interleaving a channel is one bounded queue: each step of
    the threads is at most one push (onto an open queue with room), one pop
    (of the oldest value) or the completion, and so is every run a run of the
    queue, whose pushes and pops are, in order, the values the callers pushed
    and received. *)
Theorem channel_refines_queue allow capacity n s
    (Hn : Z.of_nat n < size_modulus) (Hcap : 0 <= capacity) (Hrun : rtc (step allow) (initial capacity n) s) :
  refined capacity s /\ forall s', step allow s s' -> exists actions, simulates s s' actions.
Proof.
  assert (system_ok s /\ refined capacity s) as [Hok Hr].
  { apply (rtc_invariant (step allow) (fun s => system_ok s /\ refined capacity s) (initial capacity n)); [|done|].
    - intros s1 s2 [Hok Hr] Hstep. split; [by eapply chan_step_preserves|].
      destruct (step_simulates allow s1 s2 Hok) as [actions Ha]; [by rewrite (refined_capacity capacity)|done|].
      by eapply refined_step.
    - split; [by apply chan_initial_ok|]. by exists []. }
  split; [done|]. intros s' Hstep. apply (step_simulates allow s s' Hok); [by rewrite (refined_capacity capacity)|done].
Qed.
End spec.

(** Two pushes fill the channel, a third waits until a read makes room. *)
Definition passing_schedule : list (event nat) :=
  full_schedule ++ [Call 0 (OpRead no_stop WAIT); Runs 0 (Some 1%nat); Runs 1 None].

Definition after_passing : system nat := default (initial 2 2) (exec_all passing_schedule (initial 2 2)).

Lemma channel_refines_queue_witness :
  refined 2 after_passing /\ queue_of after_passing = BoundedQueue [2%nat; 3%nat] 2 false /\
  exists actions, simulates after_passing
    (default after_passing (exec (Runs 1 None) after_passing)) actions.
Proof.
  destruct (channel_refines_queue any_operation 2 2 after_passing) as [Hr Hs]; [reflexivity|done| |].
  - apply (chan_exec_all_run _ passing_schedule); [by repeat constructor|]. vm_compute. reflexivity.
  - split; [exact Hr|]. split; [by vm_compute|]. apply Hs. apply (chan_exec_step _ (Runs 1 None)); [done|].
    vm_compute. reflexivity.
Defined.
