(* ===== verification/ChannelCalls.v ===== *)
(** Threads that call one operation of a channel after the other, without
    cancellation: what the next section of a call does to the system of
    ChannelSystem.v, seen from the calling thread and up to wake-ups of the
    others. *)

From S2P Require Import Prelude Channel ChannelSystem.

(** ** The next section of a call *)
Section calls.
Context {T : Type}.
Implicit Types s : system T.

(** A parked thread runs when it was notified, or spuriously. *)
Definition runnable (spurious : bool) (th : thread T) : bool :=
  match th with
  | WriteParked _ _ woken | ReadParked _ woken | WaitParked _ woken => woken || spurious
  | _ => true
  end.

(** Thread [i] calls [op], or goes on in its call; [target]: whom its
    notification wakes. *)
Definition call_next (spurious : bool) (target : option nat) (i : nat) (op : operation T) s : option (system T) :=
  th ← s_threads s !! i;
  match th with
  | Idle => exec (Call i op) s
  | _ => if runnable spurious th then exec (Runs i target) s else None
  end.

(** [s] with the notifications of its threads forgotten. *)
Definition shapes s : list (thread T) := wake <$> s_threads s.

Lemma wake_wake (th : thread T) : wake (wake th) = wake th.
Proof. by destruct th. Qed.

Lemma shapes_notify_one on (ths ths' : list (thread T)) : notify_one on ths ths' -> wake <$> ths' = wake <$> ths.
Proof.
  intros [j th Hj _ _|_]; [|done]. apply list_eq. intros k. rewrite !list_lookup_fmap.
  destruct (decide (j = k)) as [->|Hne]; [|by rewrite list_lookup_insert_ne].
  rewrite list_lookup_insert_eq by (by eapply lookup_lt_Some). rewrite Hj. cbn. by rewrite wake_wake.
Qed.

Lemma shapes_notify_all on (ths : list (thread T)) : wake <$> notify_all on ths = wake <$> ths.
Proof.
  unfold notify_all. rewrite <- list_fmap_compose. apply list_fmap_ext. intros k th _. cbn.
  destruct (on th); [apply wake_wake|done].
Qed.

(** *** What is left to do, for termination

    A notification that is due weighs more than the wake-up it causes. *)

Definition weight (th : thread T) : nat :=
  match th with
  | Idle => 4
  | WriteParked _ _ woken | ReadParked _ woken | WaitParked _ woken => if woken then 2 else 1
  | NotifyingNotEmpty _ | NotifyingNotFull _ => 8
  | CompletingNotEmpty => 32
  | CompletingNotFull => 20
  end.

(** How much heavier the others may get when [th] runs. *)
Definition wakes (n : nat) (th : thread T) : nat :=
  match th with
  | NotifyingNotEmpty _ | NotifyingNotFull _ => 1
  | CompletingNotEmpty | CompletingNotFull => n
  | _ => 0
  end.

Definition weights (ths : list (thread T)) : nat := sum_list_with weight ths.

Lemma weight_wake th : (weight (wake th) <= S (weight th))%nat.
Proof. destruct th as [|? ? []|? []|? []| | | |]; cbn; lia. Qed.

Lemma weights_insert (ths : list (thread T)) i th th' :
  ths !! i = Some th -> (weights (<[i := th']> ths) + weight th = weights ths + weight th')%nat.
Proof. apply sum_list_with_insert. Qed.

Lemma weights_notify_one on (ths ths' : list (thread T)) :
  notify_one on ths ths' -> (weights ths' <= weights ths + 1)%nat.
Proof.
  intros [j th Hj _ _|_]; [|lia]. pose proof (weights_insert ths j th (wake th) Hj). pose proof (weight_wake th). lia.
Qed.

Lemma weights_notify_all on (ths : list (thread T)) :
  (weights (notify_all on ths) <= weights ths + length ths)%nat.
Proof.
  induction ths as [|th ths IH]; [cbn; lia|]. unfold weights, notify_all in *.
  rewrite fmap_cons. cbn [sum_list_with length]. pose proof (weight_wake th). destruct (on th); lia.
Qed.

(** Thread [i] has moved from [th0] to [th]; the others may have been
    notified. *)
Record moved s i s' (th : thread T) (pushed popped : list T) : Prop := {
  mv_shapes : shapes s' = <[i := wake th]> (shapes s);
  mv_weights th0 : s_threads s !! i = Some th0 ->
    (weights (s_threads s') + weight th0 <= weights (s_threads s) + weight th + wakes (length (s_threads s)) th0)%nat;
  mv_thread : s_threads s' !! i = Some th;
  mv_pushed : s_pushed s' = s_pushed s ++ pushed;
  mv_popped : s_popped s' = s_popped s ++ popped
}.

Definition completed s : bool := m_writer_completed (s_channel s).

Lemma moved_alone s i c th0 th pushed popped :
  s_threads s !! i = Some th0 ->
  moved s i (System c (<[i := th]> (s_threads s)) (s_pushed s ++ pushed) (s_popped s ++ popped)) th pushed popped.
Proof.
  intros Hi. split; [| |by apply list_lookup_insert_eq; eapply lookup_lt_Some|done..].
  - unfold shapes. cbn. by rewrite list_fmap_insert.
  - intros th0' Hi'. cbn [s_threads]. pose proof (weights_insert _ _ _ th Hi'). lia.
Qed.

(** A thread that only notifies. *)
Lemma moved_notifies s i c th0 th ths' :
  s_threads s !! i = Some th0 -> wake <$> ths' = wake <$> <[i := th]> (s_threads s) ->
  (weights ths' <= weights (<[i := th]> (s_threads s)) + wakes (length (s_threads s)) th0)%nat ->
  (forall th', wake th' = wake th -> th' = th) ->
  moved s i (System c ths' (s_pushed s) (s_popped s)) th [] [].
Proof.
  intros Hi Hw Hws Hex. split; cbn [s_threads s_pushed s_popped]; [| | |by rewrite app_nil_r..].
  - unfold shapes. cbn [s_threads]. by rewrite Hw, list_fmap_insert.
  - intros th0' Hi'. assert (th0' = th0) as -> by congruence. pose proof (weights_insert _ _ _ th Hi). lia.
  - assert ((wake <$> ths') !! i = Some (wake th)) as E.
    { rewrite Hw, list_lookup_fmap, list_lookup_insert_eq; [done|by eapply lookup_lt_Some]. }
    rewrite list_lookup_fmap in E. destruct (ths' !! i) as [th'|] eqn:Ei; [|done]. injection E as E.
    f_equal. by apply Hex.
Qed.

Lemma moved_notifies_one s i c th0 on (notify : bool) target ths' :
  s_threads s !! i = Some th0 -> wakes (length (s_threads s)) th0 = 1%nat ->
  (if notify then notify_target on (<[i := Idle]> (s_threads s)) target else Some (<[i := Idle]> (s_threads s))) = Some ths' ->
  moved s i (System c ths' (s_pushed s) (s_popped s)) Idle [] [].
Proof.
  intros Hi Hwk E. destruct notify; [|injection E as <-]; eapply moved_notifies; try done; rewrite ?Hwk; try (by intros []); try lia.
  - by eapply shapes_notify_one, notify_target_sound.
  - by eapply weights_notify_one, notify_target_sound.
Qed.

Lemma moved_notifies_all s i c th0 th on :
  s_threads s !! i = Some th0 -> wakes (length (s_threads s)) th0 = length (s_threads s) ->
  (forall th', wake th' = wake th -> th' = th) ->
  moved s i (System c (notify_all on (<[i := th]> (s_threads s))) (s_pushed s) (s_popped s)) th [] [].
Proof.
  intros Hi Hwk Hex. eapply moved_notifies; [done|apply shapes_notify_all| |done].
  rewrite Hwk, <- (length_insert (s_threads s) i th). apply weights_notify_all.
Qed.

(** ** [emplace] and [read] that nobody cancels *)

Definition emplace_call value : operation T := OpEmplace no_stop WAIT value.
Definition read_call : operation T := OpRead no_stop WAIT.

Lemma calm_emplace value : calm_operation (emplace_call value).
Proof. reflexivity. Qed.
Lemma calm_read : calm_operation read_call.
Proof. reflexivity. Qed.
Lemma calm_complete : calm_operation (OpComplete (T := T)).
Proof. exact I. Qed.

Lemma emplace_wait_open (c : channel T) value :
  m_writer_completed c = false -> (emplace c no_stop WAIT value).2 ≠ EmplaceReturns false.
Proof.
  intros Ec. unfold emplace. cbn. rewrite Ec. cbn. destruct (full c) eqn:Ef.
  - pose proof (emplace_wait_calm (set_write_waiters (m_write_waiters c +! 1) c) value) as H. intros E.
    cbn in E. unfold no_stop in H. rewrite E in H. cbn in H. congruence.
  - unfold emplace_finish. cbn. by rewrite ?Ec, ?Ef.
Qed.

(** The section a thread executes that wants to push. *)
Definition pushes (s : system T) i (value : T) s' : Prop :=
  completed s' = completed s /\
  ((moved s i s' (WriteParked no_stop value false) [] [] /\ completed s = false) \/
   (moved s i s' Idle [] [] /\ completed s = true) \/
   (completed s = false /\ exists notify, moved s i s' (NotifyingNotEmpty notify) [value] [])).

Lemma pushes_section s i th0 value c' st w :
  s_threads s !! i = Some th0 -> emplace_effect (s_channel s) c' value st w ->
  (forall t, st = EmplaceSleeps t -> t = no_stop) -> (forall b, st = EmplaceReturns b -> completed s = true) ->
  pushes s i value (System c' (<[i := emplace_thread value st]> (s_threads s)) (s_pushed s ++ pushed_by value st) (s_popped s)).
Proof.
  intros Hi [_ _ Ec _ _ Hst] Ht Hr. split; [done|].
  assert (moved s i (System c' (<[i := emplace_thread value st]> (s_threads s)) (s_pushed s ++ pushed_by value st) (s_popped s))
    (emplace_thread value st) (pushed_by value st) []) as Hm.
  { pose proof (moved_alone s i c' th0 (emplace_thread value st) (pushed_by value st) [] Hi) as Hm. by rewrite app_nil_r in Hm. }
  destruct st as [t|b|notify]; cbn in *.
  - left. rewrite (Ht t eq_refl) in *. by destruct Hst.
  - right; left. by rewrite (Hr b eq_refl).
  - right; right. destruct Hst as (? & _). eauto.
Qed.

Lemma emplace_call_next spurious target i value s s' th :
  system_ok s -> s_threads s !! i = Some th ->
  call_next spurious target i (emplace_call value) s = Some s' ->
  match th with
  | Idle => pushes s i value s'
  | WriteParked t value' _ => t = no_stop -> pushes s i value' s'
  | NotifyingNotEmpty _ => completed s' = completed s /\ moved s i s' Idle [] []
  | _ => True
  end.
Proof.
  intros Hok Hi E. unfold call_next in E. rewrite Hi in E. destruct s as [c ths pu po]. cbn in Hi.
  destruct (Hok) as [Hlen _ Hw _ _]. cbn in Hlen, Hw.
  destruct th; try done; cbn -[emplace emplace_wait] in E; rewrite ?Hi in E.
  - destruct (emplace c no_stop WAIT value) as [c' st] eqn:Er. injection E as <-.
    destruct (emplace_effect_ok c no_stop WAIT value) as [He _]; [rewrite Hw; by apply waiters_sized|].
    pose proof (emplace_calm c WAIT value) as Ht. pose proof (emplace_wait_open c value) as Ho. rewrite Er in He, Ht, Ho.
    eapply (pushes_section (System c ths pu po)); [done|exact He|exact Ht|].
    intros b ->. cbn in *. unfold completed. cbn. destruct (m_writer_completed c) eqn:Ec; [done|]. destruct b; [by destruct He as [_ _ _ _ _ ?]|by destruct (Ho eq_refl)].
  - intros ->. destruct (woken || spurious); [|done]. destruct (emplace_wait c no_stop value0) as [c' st] eqn:Er. injection E as <-.
    pose proof (emplace_wait_effect c no_stop value0) as He. pose proof (emplace_wait_calm c value0) as Ht. rewrite Er in He, Ht.
    eapply (pushes_section (System c ths pu po)); [done|exact He|by intros t ->|by intros b ->].
  - cbn in E. destruct (if notify then _ else _) as [ths'|] eqn:En; [|done]. injection E as <-. split; [done|].
    by eapply (moved_notifies_one (System c ths pu po)).
Qed.

(** The section a thread executes that wants to take a value. *)
Definition pops (s : system T) i s' : Prop :=
  completed s' = completed s /\
  ((moved s i s' (ReadParked no_stop false) [] [] /\ completed s = false) \/
   (moved s i s' Idle [] [] /\ completed s = true /\ m_queue (s_channel s) = []) \/
   exists value notify, moved s i s' (NotifyingNotFull notify) [] [value]).

Lemma read_fails_completed (c : channel T) e :
  (read c no_stop WAIT).2 = ReadFails e \/ (read_wait c no_stop).2 = ReadFails e ->
  m_writer_completed c = true /\ m_queue c = [].
Proof.
  unfold read, read_wait, internal_wait_to_read, wait_to_read_round, wait_result, can_read, read_pop, queue_empty.
  destruct c as [[|v q] rw ww cap []]; cbn; try by intros [].
  all: replace (len (v :: q) =? 0) with false by (rewrite len_cons; pose proof (len_nonneg q); lia); cbn; by intros [].
Qed.

Lemma pops_section s i th0 c' st w :
  s_threads s !! i = Some th0 -> read_effect (s_channel s) c' st w ->
  (forall t, st = ReadSleeps t -> t = no_stop) ->
  (forall e, st = ReadFails e -> m_writer_completed (s_channel s) = true /\ m_queue (s_channel s) = []) ->
  pops s i (System c' (<[i := read_thread st]> (s_threads s)) (s_pushed s) (s_popped s ++ popped_by st)).
Proof.
  intros Hi [_ _ Ec _ _ Hst] Ht Hf. split; [done|].
  assert (moved s i (System c' (<[i := read_thread st]> (s_threads s)) (s_pushed s) (s_popped s ++ popped_by st))
    (read_thread st) [] (popped_by st)) as Hm.
  { pose proof (moved_alone s i c' th0 (read_thread st) [] (popped_by st) Hi) as Hm. by rewrite app_nil_r in Hm. }
  destruct st as [t|e|v notify|]; cbn in *; [| | |done].
  - left. rewrite (Ht t eq_refl) in *. by destruct Hst.
  - right; left. by destruct (Hf e eq_refl).
  - right; right. eauto.
Qed.

Lemma read_call_next spurious target i s s' th :
  system_ok s -> s_threads s !! i = Some th ->
  call_next spurious target i read_call s = Some s' ->
  match th with
  | Idle => pops s i s'
  | ReadParked t _ => t = no_stop -> pops s i s'
  | NotifyingNotFull _ => completed s' = completed s /\ moved s i s' Idle [] []
  | _ => True
  end.
Proof.
  intros Hok Hi E. unfold call_next in E. rewrite Hi in E. destruct s as [c ths pu po]. cbn in Hi.
  destruct (Hok) as [Hlen Hr _ _ _]. cbn in Hlen, Hr.
  destruct th; try done; cbn -[read read_wait] in E; rewrite ?Hi in E.
  - destruct (read c no_stop WAIT) as [c' st] eqn:Er. injection E as <-.
    destruct (read_effect_ok c no_stop WAIT) as [He _]; [rewrite Hr; by apply waiters_sized|].
    pose proof (read_calm c WAIT) as Ht. pose proof (read_fails_completed c) as Hf. rewrite Er in He, Ht, Hf.
    eapply (pops_section (System c ths pu po)); [done|exact He|exact Ht|]. intros e ->. eapply Hf. by left.
  - intros ->. destruct (woken || spurious); [|done]. destruct (read_wait c no_stop) as [c' st] eqn:Er. injection E as <-.
    pose proof (read_wait_effect c no_stop) as He. pose proof (read_wait_calm c) as Ht.
    pose proof (read_fails_completed c) as Hf. rewrite Er in He, Ht, Hf.
    eapply (pops_section (System c ths pu po)); [done|exact He|by intros t ->|]. intros e ->. eapply Hf. by right.
  - cbn in E. destruct (if notify then _ else _) as [ths'|] eqn:En; [|done]. injection E as <-. split; [done|].
    by eapply (moved_notifies_one (System c ths pu po)).
Qed.

(** *** [complete] *)

Lemma complete_call_next spurious target i s s' th :
  s_threads s !! i = Some th -> call_next spurious target i OpComplete s = Some s' ->
  match th with
  | Idle => completed s' = true /\ moved s i s' CompletingNotEmpty [] []
  | CompletingNotEmpty => completed s' = completed s /\ moved s i s' CompletingNotFull [] []
  | CompletingNotFull => completed s' = completed s /\ moved s i s' Idle [] []
  | _ => True
  end.
Proof.
  intros Hi E. unfold call_next in E. rewrite Hi in E. destruct s as [c ths pu po]. cbn in Hi.
  destruct th; try done; cbn in E; rewrite ?Hi in E; injection E as <-; (split; [done|]).
  - pose proof (moved_alone (System c ths pu po) i (complete_writer c) Idle CompletingNotEmpty [] [] Hi) as Hm.
    by rewrite !app_nil_r in Hm.
  - eapply (moved_notifies_all (System c ths pu po)); [done..|by intros []].
  - eapply (moved_notifies_all (System c ths pu po)); [done..|by intros []].
Qed.

(** ** A thread that is not asleep can run *)

Definition parked (th : thread T) : bool := asleep on_not_empty th || asleep on_not_full th.

Lemma notify_target_exists on (ths : list (thread T)) : exists target ths', notify_target on ths target = Some ths'.
Proof.
  destruct (Nat.eq_dec (countb (asleep on) ths) 0) as [E|E].
  - exists None, ths. unfold notify_target. by rewrite E.
  - assert (exists j th, ths !! j = Some th /\ asleep on th = true) as (j & th & Hj & Ha).
    { induction ths as [|th ths IH]; [done|]. cbn in E. destruct (asleep on th) eqn:Ea; [by exists 0%nat, th|].
      destruct IH as (j & th' & ? & ?); [done|]. by exists (S j), th'. }
    exists (Some j), (<[j := wake th]> ths). unfold notify_target. rewrite Hj. cbn. by rewrite Ha.
Qed.

Lemma call_next_enabled s i op th :
  s_threads s !! i = Some th -> parked th = false -> exists target s', call_next false target i op s = Some s'.
Proof.
  intros Hi Hp. unfold call_next. rewrite Hi. cbn [mbind option_bind]. destruct s as [c ths pu po]. cbn in Hi.
  destruct th as [|t v []|t []|t []|notify|notify| |]; try done; cbn -[emplace read wait_to_read emplace_wait read_wait wait_to_read_round]; rewrite ?Hi.
  - exists None. destruct op; [destruct (emplace _ _ _)|destruct (read _ _ _)|destruct (wait_to_read _ _)|]; eauto.
  - exists None. destruct (emplace_wait _ _ _). eauto.
  - exists None. destruct (read_wait _ _). eauto.
  - exists None. destruct (wait_to_read_round _ _). eauto.
  - destruct notify; [|by exists None; eauto]. destruct (notify_target_exists on_not_empty (<[i:=Idle]> ths)) as (target & ths' & E). exists target. rewrite E. eauto.
  - destruct notify; [|by exists None; eauto]. destruct (notify_target_exists on_not_full (<[i:=Idle]> ths)) as (target & ths' & E). exists target. rewrite E. eauto.
  - by exists None; eauto.
  - by exists None; eauto.
Qed.

(** A call's sections are steps of the system. *)
Lemma call_next_steps (allow : operation T -> Prop) spurious target i op s s' :
  allow op -> call_next spurious target i op s = Some s' -> step allow s s'.
Proof.
  intros Ha E. unfold call_next in E. destruct (s_threads s !! i) as [th|]; [|done]. cbn in E.
  destruct th; try (destruct (runnable _ _)); try done; by eapply chan_exec_step; [|exact E].
Qed.
End calls.

#[export] Hint Resolve calm_emplace calm_read calm_complete : core.
