(* ===== verification/Cache.v ===== *)
(** [xtd::concurrent_cache] (src/cache/concurrent_cache.h): a sharded map of
    values with optional expiration and single-flight creation.

    Every definition is one critical section (one hold of a shard's mutex),
    or the sequential composition of a function's sections when no other
    thread runs; CacheSystem.v interleaves them.  [V] stands for
    [std::shared_ptr<const value_t>] (never null here; [None] is [nullptr]),
    times are the [int64] nanosecond counts of [std::chrono::steady_clock],
    and each call of [clock_t::now()] is an argument. *)

From S2P Require Import Prelude.

(** ** Expiration *)

Definition int64_min : Z := - 2 ^ 63.
Definition int64_max : Z := 2 ^ 63 - 1.
Definition is_int64 (z : Z) : Prop := int64_min <= z <= int64_max.

(** [std::chrono::hours{24LL * 365LL * 292LL}] in nanoseconds. *)
Definition max_supported_ttl : Z := 24 * 365 * 292 * 3600 * 1000000000.

Record cache_entry_opts := Opts { m_ttl : Z }.

Definition default_opts : cache_entry_opts := Opts 0.

(** The constructor, with its assertions. *)
Definition make_opts (ttl : Z) : outcome cache_entry_opts :=
  if (ttl >=? 0) && (ttl <=? max_supported_ttl) then Ret (Opts ttl) else Undef.

Definition no_expiration_time : Z := int64_min.

(** [clock_t::now() + ttl] is a signed addition: out of range is undefined. *)
Definition expiration_time (options : cache_entry_opts) (now : Z) : outcome Z :=
  if m_ttl options =? 0 then Ret no_expiration_time
  else if now + m_ttl options <=? int64_max then Ret (now + m_ttl options)
  else Undef.

Record entry (V : Type) := Entry { e_value : V; e_expires_at : Z }.
Arguments Entry {V} _ _.
Arguments e_value {V} _.
Arguments e_expires_at {V} _.

Definition expired {V} (e : entry V) (now : Z) : bool :=
  negb (e_expires_at e =? no_expiration_time) && (now >=? e_expires_at e).

(** ** Data *)

(** [factory_state]: the promise and its shared future. *)
Inductive promise (V : Type) := Pending | Fulfilled (result : V + exn).
Arguments Pending {V}.
Arguments Fulfilled {V} _.

Section cache.
Context {K V : Type} `{Countable K}.
(** [m_hash]; [m_key_equal] is equality. *)
Variable hash : K -> Z.

Record shard_t := Shard {
  values : gmap K (entry V);
  in_flight : gmap K nat  (* the factory_state, by its identity *)
}.

(** [c_states] is the heap of [factory_state]s, [c_next] the next identity. *)
Record concurrent_cache := Cache {
  m_shards : list shard_t;
  c_states : gmap nat (promise V);
  c_next : nat
}.

(** The constructor. *)
Definition make_cache (shard_count : Z) : outcome concurrent_cache :=
  if shard_count >? 0 then Ret (Cache (replicate (Z.to_nat shard_count) (Shard ∅ ∅)) ∅ 0)
  else Undef.

Definition shard_index (c : concurrent_cache) (key : K) : nat :=
  Z.to_nat (wrap (hash key) `mod` len (m_shards c)).

Definition shard_for (c : concurrent_cache) (key : K) : outcome shard_t :=
  match m_shards c !! shard_index c key with
  | Some sh => Ret sh
  | None => Undef
  end.

(** Writing back the shard a section worked on. *)
Definition set_shard (c : concurrent_cache) (key : K) (sh : shard_t) : concurrent_cache :=
  Cache (<[shard_index c key := sh]> (m_shards c)) (c_states c) (c_next c).

(** ** Lookups *)

Inductive lookup_status := missing | expired_status | found.

Record lookup_result := LookupResult { status : lookup_status; looked_up : option V }.

Definition internal_fast_get (key : K) (sh : shard_t) (now : Z) : lookup_result :=
  match values sh !! key with
  | None => LookupResult missing None
  | Some e =>
      if expired e now then LookupResult expired_status None
      else LookupResult found (Some (e_value e))
  end.

(** The exclusive section of [get]: note the negated test. *)
Definition get_remove (c : concurrent_cache) (key : K) (now : Z) : outcome concurrent_cache :=
  sh ← shard_for c key;
  match values sh !! key with
  | Some e =>
      if negb (expired e now) then Ret (set_shard c key (Shard (delete key (values sh)) (in_flight sh)))
      else Ret c
  | None => Ret c
  end.

(** [get], reading the clock at [now] and, under the exclusive lock, at
    [now']. *)
Definition get (c : concurrent_cache) (key : K) (now now' : Z) : outcome (concurrent_cache * option V) :=
  sh ← shard_for c key;
  let lookup := internal_fast_get key sh now in
  match status lookup with
  | found => Ret (c, looked_up lookup)
  | expired_status => c' ← get_remove c key now'; Ret (c', None)
  | missing => Ret (c, None)
  end.

Definition contains (c : concurrent_cache) (key : K) (now : Z) : outcome bool :=
  sh ← shard_for c key;
  match values sh !! key with
  | Some e => Ret (negb (expired e now))
  | None => Ret false
  end.

(** ** Updates *)

Definition insert_or_assign (c : concurrent_cache) (key : K) (options : cache_entry_opts) (value : V) (now : Z)
    : outcome (concurrent_cache * V) :=
  sh ← shard_for c key;
  expires_at ← expiration_time options now;
  Ret (set_shard c key (Shard (<[key := Entry value expires_at]> (values sh)) (in_flight sh)), value).

Definition erase (c : concurrent_cache) (key : K) : outcome (concurrent_cache * bool) :=
  sh ← shard_for c key;
  match values sh !! key with
  | None => Ret (c, false)
  | Some _ => Ret (set_shard c key (Shard (delete key (values sh)) (in_flight sh)), true)
  end.

(** ** Creation *)

Inductive create_step :=
  | CreateFound (value : V)    (* another thread published it meanwhile *)
  | CreateWaits (id : nat)     (* waits for the future of that state *)
  | CreateOwns (id : nat).     (* runs the factory *)

(** The first exclusive section of [get_or_create]. *)
Definition create_enter (c : concurrent_cache) (key : K) (now : Z) : outcome (concurrent_cache * create_step) :=
  sh ← shard_for c key;
  match internal_fast_get key sh now with
  | LookupResult found (Some value) => Ret (c, CreateFound value)
  | _ =>
      match in_flight sh !! key with
      | Some id => Ret (c, CreateWaits id)
      | None =>
          let c' := set_shard c key (Shard (values sh) (<[key := c_next c]> (in_flight sh))) in
          Ret (Cache (m_shards c') (<[c_next c := Pending]> (c_states c')) (S (c_next c)), CreateOwns (c_next c))
      end
  end.

(** The second exclusive section: publishing the factory's entry. *)
Definition create_publish (c : concurrent_cache) (key : K) (new_entry : entry V) (now : Z)
    : outcome (concurrent_cache * V) :=
  sh ← shard_for c key;
  match internal_fast_get key sh now with
  | LookupResult found (Some value) =>
      Ret (set_shard c key (Shard (values sh) (delete key (in_flight sh))), value)
  | _ =>
      Ret (set_shard c key (Shard (<[key := new_entry]> (values sh)) (delete key (in_flight sh))),
           e_value new_entry)
  end.

Definition remove_in_flight (c : concurrent_cache) (key : K) (expected_state : nat) : outcome concurrent_cache :=
  sh ← shard_for c key;
  if bool_decide (in_flight sh !! key = Some expected_state)
  then Ret (set_shard c key (Shard (values sh) (delete key (in_flight sh))))
  else Ret c.

(** [promise.set_value], [promise.set_exception]: a second call throws
    [future_error], here [Undef]. *)
Definition fulfil (c : concurrent_cache) (id : nat) (result : V + exn) : outcome concurrent_cache :=
  match c_states c !! id with
  | Some Pending => Ret (Cache (m_shards c) (<[id := Fulfilled result]> (c_states c)) (c_next c))
  | _ => Undef
  end.

(** How a [get_or_create] without other threads ends. *)
Inductive create_result :=
  | Created (value : V)
  | CreateThrows (e : exn)
  | CreateBlocks (id : nat). (* in future.get(), on a state no thread will fulfil *)

(** The thread that owns the creation: the factory, then the publication or
    the failure ([try] and [catch]). *)
Definition create_owner (c : concurrent_cache) (key : K) (options : cache_entry_opts)
    (factory : K -> outcome V) (id : nat) (now3 now4 : Z) : outcome (concurrent_cache * create_result) :=
  match factory key with
  | Ret value =>
      expires_at ← expiration_time options now3;
      '(c, published) ← create_publish c key (Entry value expires_at) now4;
      c ← fulfil c id (inl published);
      Ret (c, Created published)
  | Throw e =>
      c ← fulfil c id (inr e);
      c ← remove_in_flight c key id;
      Ret (c, CreateThrows e)
  | Undef => Undef
  end.

(** [factory] is the caller's; [now1] to [now4] are the readings of the
    clock. *)
Definition get_or_create (c : concurrent_cache) (key : K) (options : cache_entry_opts)
    (factory : K -> outcome V) (now1 now2 now3 now4 : Z) : outcome (concurrent_cache * create_result) :=
  sh ← shard_for c key;
  match internal_fast_get key sh now1 with
  | LookupResult found (Some value) => Ret (c, Created value)
  | _ =>
      '(c, step) ← create_enter c key now2;
      match step with
      | CreateFound value => Ret (c, Created value)
      | CreateWaits id => Ret (c, CreateBlocks id)
      | CreateOwns id => create_owner c key options factory id now3 now4
      end
  end.

(** ** Whole-cache operations: one section per shard *)

Definition purge_shard (sh : shard_t) (now : Z) : shard_t * Z :=
  (Shard (filter (fun kv => expired kv.2 now = false) (values sh)) (in_flight sh),
   Z.of_nat (base.size (filter (fun kv => expired kv.2 now = true) (values sh)))).

Fixpoint purge_shards (shards : list shard_t) (now : Z) : list shard_t * Z :=
  match shards with
  | [] => ([], 0)
  | sh :: rest =>
      let '(sh', removed) := purge_shard sh now in
      let '(rest', result) := purge_shards rest now in
      (sh' :: rest', removed +! result)
  end.

Definition purge_expired (c : concurrent_cache) (now : Z) : concurrent_cache * Z :=
  let '(shards, result) := purge_shards (m_shards c) now in
  (Cache shards (c_states c) (c_next c), result).

Definition shard_size (sh : shard_t) (now : Z) : Z :=
  Z.of_nat (base.size (filter (fun kv => expired kv.2 now = false) (values sh))).

Definition size (c : concurrent_cache) (now : Z) : Z :=
  foldr (fun sh n => shard_size sh now +! n) 0 (m_shards c).

Definition empty (c : concurrent_cache) (now : Z) : bool :=
  forallb (fun sh => shard_size sh now =? 0) (m_shards c).

(** ** The map a cache represents *)

Definition lookup (c : concurrent_cache) (key : K) : option (entry V) :=
  sh ← m_shards c !! shard_index c key; values sh !! key.

Definition flight (c : concurrent_cache) (key : K) : option nat :=
  sh ← m_shards c !! shard_index c key; in_flight sh !! key.

(** At least one shard, and every key in its own. *)
Record cache_ok (c : concurrent_cache) : Prop := {
  ck_shards : m_shards c ≠ [];
  ck_values : forall i sh key, m_shards c !! i = Some sh -> is_Some (values sh !! key) -> shard_index c key = i;
  ck_flight : forall i sh key, m_shards c !! i = Some sh -> is_Some (in_flight sh !! key) -> shard_index c key = i
}.

Lemma shard_for_ok c key :
  m_shards c ≠ [] ->
  exists sh, shard_for c key = Ret sh /\ m_shards c !! shard_index c key = Some sh.
Proof.
  intros Hne. unfold shard_for.
  assert (0 < len (m_shards c)) as Hpos.
  { pose proof (len_nonneg (m_shards c)). assert (len (m_shards c) ≠ 0) by (by rewrite len_nil_iff). lia. }
  assert (is_Some (m_shards c !! shard_index c key)) as [sh ->]; [|by exists sh].
  apply lookup_lt_is_Some. unfold shard_index.
  pose proof (Z.mod_pos_bound (wrap (hash key)) (len (m_shards c)) Hpos). unfold len in *. lia.
Qed.

Lemma set_shard_index c key sh k : shard_index (set_shard c key sh) k = shard_index c k.
Proof. unfold shard_index, set_shard, len. simpl. by rewrite length_insert. Qed.

(** A section that changes nothing but [key] in its shard. *)
Definition only_key (key : K) (sh sh' : shard_t) : Prop :=
  forall k, k ≠ key -> values sh' !! k = values sh !! k /\ in_flight sh' !! k = in_flight sh !! k.

Lemma set_shard_ok c key sh sh' :
  cache_ok c -> m_shards c !! shard_index c key = Some sh -> only_key key sh sh' ->
  cache_ok (set_shard c key sh') /\
  (forall k, lookup (set_shard c key sh') k = if decide (k = key) then values sh' !! key else lookup c k) /\
  (forall k, flight (set_shard c key sh') k = if decide (k = key) then in_flight sh' !! key else flight c k).
Proof.
  intros [Hne Hv Hf] Hsh Ho. pose proof (lookup_lt_Some _ _ _ Hsh) as Hlt. split_and!.
  - split; [simpl; intros E; apply (f_equal length) in E; rewrite length_insert in E; simpl in E; lia| |];
      intros i s k Hi Hk; rewrite set_shard_index; simpl in Hi; apply list_lookup_insert_Some in Hi as
      [(<- & <- & _)|[? Hi]]; try (by eauto); destruct (decide (k = key)) as [->|Hne']; try done;
      destruct (Ho k Hne') as [E1 E2]; [rewrite E1 in Hk|rewrite E2 in Hk]; eauto.
  - intros k. unfold lookup. rewrite set_shard_index. simpl. destruct (decide (k = key)) as [->|Hk].
    + by rewrite list_lookup_insert_eq.
    + destruct (decide (shard_index c k = shard_index c key)) as [E|E].
      * rewrite E, list_lookup_insert_eq, Hsh by done. simpl. by apply Ho.
      * by rewrite list_lookup_insert_ne.
  - intros k. unfold flight. rewrite set_shard_index. simpl. destruct (decide (k = key)) as [->|Hk].
    + by rewrite list_lookup_insert_eq.
    + destruct (decide (shard_index c k = shard_index c key)) as [E|E].
      * rewrite E, list_lookup_insert_eq, Hsh by done. simpl. by apply Ho.
      * by rewrite list_lookup_insert_ne.
Qed.

(** The section's shard, as seen through the map. *)
Lemma shard_view c key :
  cache_ok c -> exists sh, shard_for c key = Ret sh /\ m_shards c !! shard_index c key = Some sh /\
    values sh !! key = lookup c key /\ in_flight sh !! key = flight c key.
Proof.
  intros [Hne _ _]. destruct (shard_for_ok c key Hne) as (sh & E & Hsh). exists sh.
  unfold lookup, flight. by rewrite Hsh.
Qed.

Lemma make_cache_ok n c :
  make_cache n = Ret c -> cache_ok c /\ (forall k, lookup c k = None) /\ (forall k, flight c k = None).
Proof.
  unfold make_cache. destruct (Z.gtb_spec n 0); [|done]. intros [= <-].
  assert (forall i sh, replicate (Z.to_nat n) (Shard ∅ ∅) !! i = Some sh -> sh = Shard ∅ ∅) as Hr.
  { intros i sh Hi. by apply lookup_replicate in Hi as [-> _]. }
  split_and!.
  - split; simpl; [intros E; apply (f_equal length) in E; rewrite length_replicate in E; simpl in E; lia| |];
      intros i sh key ->%Hr [x Hx]; simpl in Hx; by rewrite lookup_empty in Hx.
  - intros k. unfold lookup. simpl. destruct (_ !! _) as [sh|] eqn:E; [|done]. apply Hr in E as ->.
    simpl. by rewrite lookup_empty.
  - intros k. unfold flight. simpl. destruct (_ !! _) as [sh|] eqn:E; [|done]. apply Hr in E as ->.
    simpl. by rewrite lookup_empty.
Qed.

(** What a reader sees of a key at a time. *)
Definition visible (c : concurrent_cache) (key : K) (now : Z) : option V :=
  e ← lookup c key; if expired e now then None else Some (e_value e).

Lemma fast_get_visible c key now sh :
  values sh !! key = lookup c key ->
  internal_fast_get key sh now =
    match lookup c key with
    | None => LookupResult missing None
    | Some e => if expired e now then LookupResult expired_status None else LookupResult found (Some (e_value e))
    end.
Proof. unfold internal_fast_get. by intros ->. Qed.

Lemma only_key_insert key e sh : only_key key sh (Shard (<[key := e]> (values sh)) (in_flight sh)).
Proof. intros k Hk. simpl. by rewrite lookup_insert_ne. Qed.
Lemma only_key_delete key sh : only_key key sh (Shard (delete key (values sh)) (in_flight sh)).
Proof. intros k Hk. simpl. by rewrite lookup_delete_ne. Qed.
Lemma only_key_flight key id sh : only_key key sh (Shard (values sh) (<[key := id]> (in_flight sh))).
Proof. intros k Hk. simpl. by rewrite lookup_insert_ne. Qed.
Lemma only_key_unflight key sh : only_key key sh (Shard (values sh) (delete key (in_flight sh))).
Proof. intros k Hk. simpl. by rewrite lookup_delete_ne. Qed.
Lemma only_key_publish key e sh : only_key key sh (Shard (<[key := e]> (values sh)) (delete key (in_flight sh))).
Proof. intros k Hk. simpl. by rewrite lookup_insert_ne, lookup_delete_ne. Qed.

(** *** The sections of [get_or_create] *)

Lemma create_enter_ok c key now :
  cache_ok c ->
  exists c' st, create_enter c key now = Ret (c', st) /\ cache_ok c' /\
    (forall k, lookup c' k = lookup c k) /\
    match st with
    | CreateFound value => c' = c /\ visible c key now = Some value
    | CreateWaits id => c' = c /\ visible c key now = None /\ flight c key = Some id
    | CreateOwns id => visible c key now = None /\ flight c key = None /\ id = c_next c /\
        c_next c' = S (c_next c) /\ c_states c' = <[c_next c := Pending]> (c_states c) /\
        (forall k, flight c' k = if decide (k = key) then Some id else flight c k)
    end.
Proof.
  intros Hok. destruct (shard_view c key Hok) as (sh & E & Hsh & Hv & Hf). unfold create_enter, visible.
  rewrite E. cbn [mbind outcome_bind]. rewrite (fast_get_visible c) by done. rewrite Hf.
  assert (forall st : lookup_status * nat,
    let c1 := set_shard c key (Shard (values sh) (<[key := c_next c]> (in_flight sh))) in
    let c2 := Cache (m_shards c1) (<[c_next c := Pending]> (c_states c)) (S (c_next c)) in
    cache_ok c2 /\ (forall k, lookup c2 k = lookup c k) /\
    (forall k, flight c2 k = if decide (k = key) then Some (c_next c) else flight c k)) as Hown.
  { intros _ c1 c2. destruct (set_shard_ok c key sh _ Hok Hsh (only_key_flight key (c_next c) sh)) as (Hok1 & Hl & Hfl).
    split_and!.
    - by destruct Hok1.
    - intros k. change (lookup c1 k = lookup c k). unfold c1. rewrite Hl. by case_decide; [subst|].
    - intros k. change (flight c1 k = if decide (k = key) then Some (c_next c) else flight c k).
      unfold c1. rewrite Hfl. case_decide; [|done]. simpl. by rewrite lookup_insert_eq. }
  destruct (Hown (missing, O)) as (H1 & H2 & H3).
  destruct (lookup c key) as [e|] eqn:El; simpl; [destruct (expired e now) eqn:Ee|];
    try (destruct (flight c key) as [id|] eqn:Efl); eexists _, _; (split; [reflexivity|]); split_and!; done.
Qed.

Lemma create_publish_ok c key new_entry now :
  cache_ok c ->
  exists c', create_publish c key new_entry now = Ret (c', default (e_value new_entry) (visible c key now)) /\
    cache_ok c' /\ c_states c' = c_states c /\ c_next c' = c_next c /\
    (forall k, lookup c' k = if decide (k = key) then
       match visible c key now with Some _ => lookup c key | None => Some new_entry end else lookup c k) /\
    (forall k, flight c' k = if decide (k = key) then None else flight c k).
Proof.
  intros Hok. destruct (shard_view c key Hok) as (sh & E & Hsh & Hv & Hf). unfold create_publish, visible.
  rewrite E. cbn [mbind outcome_bind]. rewrite (fast_get_visible c) by done.
  destruct (set_shard_ok c key sh _ Hok Hsh (only_key_publish key new_entry sh)) as (A1 & A2 & A3).
  destruct (set_shard_ok c key sh _ Hok Hsh (only_key_unflight key sh)) as (B1 & B2 & B3).
  destruct (lookup c key) as [e|] eqn:El; simpl; [destruct (expired e now) eqn:Ee|]; simpl;
    eexists; (split; [reflexivity|]); split_and!; try done; intros k; rewrite ?A2, ?A3, ?B2, ?B3;
    case_decide; simpl; rewrite ?lookup_insert_eq, ?lookup_delete_eq; try done; by rewrite Hv.
Qed.

Lemma remove_in_flight_ok c key id :
  cache_ok c ->
  exists c', remove_in_flight c key id = Ret c' /\ cache_ok c' /\ c_states c' = c_states c /\
    c_next c' = c_next c /\ (forall k, lookup c' k = lookup c k) /\
    (forall k, flight c' k =
       if decide (k = key /\ flight c key = Some id) then None else flight c k).
Proof.
  intros Hok. destruct (shard_view c key Hok) as (sh & E & Hsh & Hv & Hf). unfold remove_in_flight.
  rewrite E. cbn [mbind outcome_bind]. rewrite Hf.
  destruct (set_shard_ok c key sh _ Hok Hsh (only_key_unflight key sh)) as (B1 & B2 & B3).
  case_bool_decide as Hd; eexists; (split; [reflexivity|]); split_and!; try done; intros k; rewrite ?B2, ?B3.
  - by case_decide; [subst|].
  - simpl. rewrite lookup_delete_eq. destruct (decide (k = key)), (decide (k = key /\ flight c key = Some id)); tauto.
  - destruct (decide (k = key /\ flight c key = Some id)); tauto.
Qed.

(** ** Counting across shards *)

Definition contents_of (shards : list shard_t) : gmap K (entry V) := ⋃ (values <$> shards).
Definition contents (c : concurrent_cache) : gmap K (entry V) := contents_of (m_shards c).

Definition shards_disjoint (shards : list shard_t) : Prop :=
  forall i j s t, shards !! i = Some s -> shards !! j = Some t -> i ≠ j -> values s ##ₘ values t.

Lemma cache_ok_disjoint c : cache_ok c -> shards_disjoint (m_shards c).
Proof.
  intros [_ Hv _] i j s t Hi Hj Hne. apply map_disjoint_spec. intros k x y Hx Hy. apply Hne.
  by rewrite <- (Hv i s k Hi), <- (Hv j t k Hj) by (by eexists).
Qed.

Lemma shards_disjoint_cons sh rest :
  shards_disjoint (sh :: rest) -> values sh ##ₘ contents_of rest /\ shards_disjoint rest.
Proof.
  intros Hd. split.
  - apply map_disjoint_union_list_r. rewrite Forall_fmap, Forall_lookup. intros i t Hi.
    by apply (Hd (S i) 0%nat).
  - intros i j s t Hi Hj Hne. apply (Hd (S i) (S j)); [done..|lia].
Qed.

Lemma contents_lookup c key : cache_ok c -> contents c !! key = lookup c key.
Proof.
  intros Hok. pose proof (cache_ok_disjoint c Hok) as Hd. destruct Hok as [Hne Hv _].
  destruct (shard_for_ok c key Hne) as (sh & _ & Hsh). unfold lookup, contents. rewrite Hsh. simpl.
  assert (forall e, contents_of (m_shards c) !! key = Some e <->
    exists i s, m_shards c !! i = Some s /\ values s !! key = Some e) as Hiff.
  { clear Hv Hsh Hne. revert Hd. generalize (m_shards c) as l. induction l as [|s l IH]; intros Hd e.
    - split; [intros E; unfold contents_of in E; simpl in E; by rewrite lookup_empty in E|by intros (i & ? & ? & _)].
    - apply shards_disjoint_cons in Hd as [Hd1 Hd]. change (contents_of (s :: l)) with (values s ∪ contents_of l).
      rewrite lookup_union_Some by done. rewrite (IH Hd). split.
      + intros [E|(i & t & ? & ?)]; [by exists 0%nat, s|by exists (S i), t].
      + intros ([|i] & t & E & ?); simpl in E; [injection E as ->; by left|right; by exists i, t]. }
  apply option_eq. intros e. rewrite Hiff. split.
  - intros (i & s & Hi & E). rewrite (Hv i s key Hi) in Hsh by (by eexists). by simplify_eq.
  - intros E. by eexists _, _.
Qed.

Local Abbreviation live_at now := (fun kv : K * entry V => expired kv.2 now = false).
Local Abbreviation dead_at now := (fun kv : K * entry V => expired kv.2 now = true).

Lemma filter_contents_size (P : K * entry V -> Prop) `{!forall x, Decision (P x)} shards :
  shards_disjoint shards ->
  Z.of_nat (base.size (filter P (contents_of shards))) =
  foldr (fun sh n => Z.of_nat (base.size (filter P (values sh))) + n) 0 shards.
Proof.
  induction shards as [|sh rest IH]; intros Hd.
  { unfold contents_of. simpl. by rewrite map_filter_empty, map_size_empty. }
  apply shards_disjoint_cons in Hd as [Hd1 Hd]. change (contents_of (sh :: rest)) with (values sh ∪ contents_of rest).
  rewrite map_filter_union by done. rewrite map_size_disj_union.
  - cbn [foldr]. rewrite <- (IH Hd). lia.
  - eapply map_disjoint_weaken; [exact Hd1|apply map_filter_subseteq..].
Qed.

Lemma purge_shards_ok now shards :
  shards_disjoint shards -> Z.of_nat (base.size (contents_of shards)) < size_modulus ->
  let r := purge_shards shards now in
  length r.1 = length shards /\
  (forall i sh, shards !! i = Some sh -> r.1 !! i = Some (purge_shard sh now).1) /\
  (forall i sh', r.1 !! i = Some sh' -> exists sh, shards !! i = Some sh /\ sh' = (purge_shard sh now).1) /\
  r.2 = Z.of_nat (base.size (filter (dead_at now) (contents_of shards))).
Proof.
  induction shards as [|sh rest IH]; intros Hd Hsz; cbn [purge_shards].
  { by split_and!. }
  pose proof Hd as Hd0. apply shards_disjoint_cons in Hd as [Hd1 Hd].
  assert (Z.of_nat (base.size (filter (dead_at now) (contents_of (sh :: rest)))) < size_modulus) as Hdead.
  { pose proof (map_size_filter (dead_at now) (contents_of (sh :: rest))). lia. }
  assert (Z.of_nat (base.size (contents_of rest)) < size_modulus) as Hsz'.
  { change (contents_of (sh :: rest)) with (values sh ∪ contents_of rest) in Hsz.
    rewrite map_size_disj_union in Hsz by done. lia. }
  destruct (IH Hd Hsz') as (I1 & I2 & I3 & I4). destruct (purge_shards rest now) as [rest' n]. cbn in *.
  split_and!.
  - by rewrite I1.
  - intros [|i] s Hi; simpl in *; [by injection Hi as ->|by apply I2].
  - intros [|i] s Hi; simpl in *; [injection Hi as <-; by eexists|by apply I3].
  - pose proof (filter_contents_size (dead_at now) (sh :: rest) Hd0) as E1. cbn [foldr] in E1.
    rewrite I4, (filter_contents_size (dead_at now) rest Hd), <- E1. apply wrap_small. unfold is_size. lia.
Qed.

Lemma purge_ok c now :
  cache_ok c -> Z.of_nat (base.size (contents c)) < size_modulus ->
  cache_ok (purge_expired c now).1 /\
  (forall k, lookup (purge_expired c now).1 k =
     e ← lookup c k; if expired e now then None else Some e) /\
  (forall k, flight (purge_expired c now).1 k = flight c k) /\
  (purge_expired c now).2 = Z.of_nat (base.size (filter (dead_at now) (contents c))).
Proof.
  intros Hok Hsz. destruct (purge_shards_ok now (m_shards c) (cache_ok_disjoint c Hok) Hsz) as (I1 & I2 & I3 & I4).
  unfold purge_expired in *. destruct (purge_shards (m_shards c) now) as [shards n]. cbn [fst snd] in *.
  assert (forall k, shard_index (Cache shards (c_states c) (c_next c)) k = shard_index c k) as Hidx.
  { intros k. unfold shard_index, len. simpl. by rewrite I1. }
  destruct Hok as [Hne Hv Hf]. split_and!; [split| | |done].
  - simpl. intros ->. by destruct (m_shards c).
  - intros i sh' key Hi Hk. simpl in Hi. rewrite Hidx. apply I3 in Hi as (sh & Hi & ->). simpl in Hk.
    destruct Hk as [e He]. apply map_lookup_filter_Some in He as [He _]. eapply Hv; [exact Hi|by exists e].
  - intros i sh' key Hi Hk. simpl in Hi. rewrite Hidx. apply I3 in Hi as (sh & Hi & ->). simpl in Hk. by eapply Hf.
  - intros k. unfold lookup. rewrite Hidx. simpl. destruct (shard_for_ok c k Hne) as (sh & _ & Hsh).
    rewrite Hsh, (I2 _ _ Hsh). simpl. rewrite map_lookup_filter. destruct (values sh !! k) as [e|]; [|done]. simpl.
    by destruct (expired e now).
  - intros k. unfold flight. rewrite Hidx. simpl. destruct (shard_for_ok c k Hne) as (sh & _ & Hsh).
    by rewrite Hsh, (I2 _ _ Hsh).
Qed.

Lemma size_ok c now :
  cache_ok c -> Z.of_nat (base.size (contents c)) < size_modulus ->
  size c now = Z.of_nat (base.size (filter (live_at now) (contents c))).
Proof.
  intros Hok Hsz. pose proof (cache_ok_disjoint c Hok) as Hd. unfold size, contents in *.
  clear Hok. induction (m_shards c) as [|sh rest IH].
  { done. }
  pose proof Hd as Hd0. apply shards_disjoint_cons in Hd as [Hd1 Hd]. cbn [foldr].
  assert (Z.of_nat (base.size (filter (live_at now) (contents_of (sh :: rest)))) < size_modulus) as Hlive.
  { pose proof (map_size_filter (live_at now) (contents_of (sh :: rest))). lia. }
  assert (Z.of_nat (base.size (contents_of rest)) < size_modulus) as Hsz'.
  { change (contents_of (sh :: rest)) with (values sh ∪ contents_of rest) in Hsz.
    rewrite map_size_disj_union in Hsz by done. lia. }
  pose proof (filter_contents_size (live_at now) (sh :: rest) Hd0) as E1. cbn [foldr] in E1.
  rewrite (IH Hsz' Hd), (filter_contents_size (live_at now) rest Hd). unfold shard_size. rewrite <- E1.
  apply wrap_small. unfold is_size. lia.
Qed.

(** ** The operations against the map *)

(** [insert_or_assign] maps the key to the new value, with its expiration
    time, whatever was there, changes no other key, and returns the value;
    until that time, and for ever when the ttl is zero, [get] and [contains]
    see it, and from then on they do not. *)
Theorem insert_then_get c key options value t now now' k
    (Hok : cache_ok c) (Httl : 0 <= m_ttl options) (Ht : int64_min < t) (Hfit : t + m_ttl options <= int64_max) :
  exists c', insert_or_assign c key options value t = Ret (c', value) /\ cache_ok c' /\
    (k ≠ key -> lookup c' k = lookup c k) /\
    (exists c'', get c' key now now' =
       Ret (c'', if (m_ttl options =? 0) || (now <? t + m_ttl options) then Some value else None)) /\
    contains c' key now = Ret ((m_ttl options =? 0) || (now <? t + m_ttl options)).
Proof.
  destruct (shard_view c key Hok) as (sh & E & Hsh & _ & _). unfold insert_or_assign. rewrite E. cbn [mbind outcome_bind].
  set (x := if m_ttl options =? 0 then no_expiration_time else t + m_ttl options).
  assert (expiration_time options t = Ret x) as ->.
  { unfold expiration_time, x. destruct (m_ttl options =? 0); [done|].
    by destruct (Z.leb_spec (t + m_ttl options) int64_max); [|lia]. }
  cbn [mbind outcome_bind].
  destruct (set_shard_ok c key sh _ Hok Hsh (only_key_insert key (Entry value x) sh)) as (Hok' & Hl & _).
  eexists. split; [reflexivity|]. split; [done|].
  assert (forall n, expired (Entry value x) n = negb ((m_ttl options =? 0) || (n <? t + m_ttl options))) as Hx.
  { intros n. unfold expired, x. cbn [e_expires_at]. destruct (Z.eqb_spec (m_ttl options) 0) as [E0|E0]; [done|].
    destruct (Z.eqb_spec (t + m_ttl options) no_expiration_time); [unfold no_expiration_time in *; lia|].
    cbn [negb andb orb]. destruct (Z.geb_spec n (t + m_ttl options)), (Z.ltb_spec n (t + m_ttl options)); (done || lia). }
  destruct (shard_view _ key Hok') as (sh' & E' & Hsh' & Hv' & _).
  rewrite (Hl key), decide_True in Hv' by done. simpl in Hv'. rewrite lookup_insert_eq in Hv'.
  split_and!.
  - intros Hk. rewrite Hl. by rewrite decide_False.
  - unfold get, get_remove. rewrite E'. cbn [mbind outcome_bind]. unfold internal_fast_get. rewrite Hv', Hx.
    destruct (_ || _); cbn; [by eexists|]. destruct (negb (expired _ now')); by eexists.
  - unfold contains. rewrite E'. cbn [mbind outcome_bind]. by rewrite Hv', Hx, negb_involutive.
Qed.

(** [get] returns the visible value and [contains] tells whether there is
    one; run without interference (the clock does not go back), [get] changes
    nothing: in particular it does not remove the expired entry it found. *)
Theorem get_correct c key now now' (Hok : cache_ok c) (Hclock : now <= now') :
  get c key now now' = Ret (c, visible c key now) /\
  contains c key now = Ret (bool_decide (is_Some (visible c key now))).
Proof.
  destruct (shard_view c key Hok) as (sh & E & Hsh & Hv & _). unfold get, get_remove, contains, visible.
  rewrite E. cbn [mbind outcome_bind]. rewrite (fast_get_visible c) by done. rewrite Hv.
  destruct (lookup c key) as [e|] eqn:El; simpl; [destruct (expired e now) eqn:Ee|]; simpl; try done.
  assert (expired e now' = true) as ->; [|done].
  unfold expired in *. apply andb_true_iff in Ee as [-> ?%Z.geb_le]. apply Z.geb_le. lia.
Qed.

(** Between the two sections of [get] another thread may store a fresh
    value; the exclusive section then removes that live value, although the
    comment says it removes the expired entry. *)
Theorem get_removes_a_live_entry c key e now (Hok : cache_ok c)
    (Hentry : lookup c key = Some e) (Hlive : expired e now = false) :
  exists c', get_remove c key now = Ret c' /\ lookup c' key = None.
Proof.
  destruct (shard_view c key Hok) as (sh & E & Hsh & Hv & _). unfold get_remove.
  rewrite E. cbn [mbind outcome_bind]. rewrite Hv, Hentry, Hlive. cbn [negb].
  destruct (set_shard_ok c key sh _ Hok Hsh (only_key_delete key sh)) as (_ & Hl & _).
  eexists. split; [reflexivity|]. rewrite Hl, decide_True by done. simpl. by rewrite lookup_delete_eq.
Qed.

(** [erase] removes the key, live or expired, and nothing else, and tells
    whether it was there. *)
Theorem erase_correct c key (Hok : cache_ok c) :
  exists c', erase c key = Ret (c', bool_decide (is_Some (lookup c key))) /\ cache_ok c' /\
    (forall k, lookup c' k = if decide (k = key) then None else lookup c k).
Proof.
  destruct (shard_view c key Hok) as (sh & E & Hsh & Hv & _). unfold erase.
  rewrite E. cbn [mbind outcome_bind]. rewrite Hv.
  destruct (set_shard_ok c key sh _ Hok Hsh (only_key_delete key sh)) as (Hok' & Hl & _).
  destruct (lookup c key) as [e|] eqn:El; eexists; (split; [reflexivity|]); split; try done; intros k.
  - rewrite Hl. case_decide; [|done]. simpl. by rewrite lookup_delete_eq.
  - case_decide; [by subst|done].
Qed.

(** [purge_expired] removes exactly the expired entries and counts them;
    [size] counts the others and [empty] tells whether there is none. *)
Theorem purge_size_correct c now
    (Hok : cache_ok c) (Hsz : Z.of_nat (base.size (contents c)) < size_modulus) :
  cache_ok (purge_expired c now).1 /\
  (forall k, lookup (purge_expired c now).1 k = e ← lookup c k; if expired e now then None else Some e) /\
  (purge_expired c now).2 = Z.of_nat (base.size (filter (dead_at now) (contents c))) /\
  size c now = Z.of_nat (base.size (filter (live_at now) (contents c))) /\
  (empty c now = true <-> filter (live_at now) (contents c) = ∅).
Proof.
  destruct (purge_ok c now Hok Hsz) as (H1 & H2 & _ & H4). split_and!; try done; [by apply size_ok|].
  rewrite <- map_size_empty_iff. pose proof (filter_contents_size (live_at now) _ (cache_ok_disjoint c Hok)) as Hs.
  fold (contents c) in Hs. unfold empty. clear H1 H2 H4 Hok Hsz. revert Hs. generalize (base.size (filter (live_at now) (contents c))).
  induction (m_shards c) as [|sh rest IH]; intros n Hs; cbn [foldr forallb] in *; [split; [lia|done]|].
  rewrite andb_true_iff, Z.eqb_eq. unfold shard_size.
  assert (0 <= foldr (fun sh n => Z.of_nat (base.size (filter (live_at now) (values sh))) + n) 0 rest) as Hpos.
  { clear. induction rest; simpl; lia. }
  rewrite (IH (Z.to_nat (foldr (fun sh n => Z.of_nat (base.size (filter (live_at now) (values sh))) + n) 0 rest))); lia.
Qed.

Lemma expiration_time_fits options now :
  now + m_ttl options <= int64_max -> exists x, expiration_time options now = Ret x.
Proof.
  intros Hfit. unfold expiration_time. destruct (m_ttl options =? 0); [by eexists|].
  destruct (Z.leb_spec (now + m_ttl options) int64_max); [by eexists|lia].
Qed.

(** The owner's part, entered from [c] through [create_enter]. *)
Lemma create_owner_ok c c1 st key options factory now3 now4 :
  cache_ok c1 -> (forall k, lookup c1 k = lookup c k) -> (forall k, k ≠ key -> flight c1 k = flight c k) ->
  (exists id, st = CreateOwns id /\ flight c1 key = Some id /\ c_states c1 !! id = Some Pending) ->
  visible c key now4 = None -> now3 + m_ttl options <= int64_max -> factory key ≠ Undef ->
  exists c' r,
    match st with
    | CreateFound value => Ret (c1, Created value)
    | CreateWaits id => Ret (c1, CreateBlocks id)
    | CreateOwns id => create_owner c1 key options factory id now3 now4
    end = Ret (c', r) /\
    cache_ok c' /\ flight c' key = None /\
    (forall k, k ≠ key -> lookup c' k = lookup c k /\ flight c' k = flight c k) /\
    match factory key with
    | Ret value => r = Created value /\ exists x, lookup c' key = Some (Entry value x) /\
        expiration_time options now3 = Ret x
    | Throw e => r = CreateThrows e /\ lookup c' key = lookup c key
    | Undef => False
    end.
Proof.
  intros Hok1 Hl1 Hf1 (id & -> & Hfl & Hs) Hvis Hfit Hdef. unfold create_owner.
  assert (visible c1 key now4 = None) as Hvis1 by (unfold visible in *; by rewrite Hl1).
  destruct (factory key) as [value|e|]; [| |done].
  - destruct (expiration_time_fits options now3 Hfit) as [x Ex]. rewrite Ex. cbn [mbind outcome_bind].
    destruct (create_publish_ok c1 key (Entry value x) now4 Hok1) as (c2 & E2 & Hok2 & Es & _ & Hl2 & Hf2).
    rewrite E2, Hvis1. cbn [mbind outcome_bind]. unfold fulfil. rewrite Es, Hs. cbn [mbind outcome_bind].
    eexists _, _. split; [reflexivity|]. split; [by destruct Hok2|]. split_and!; [|intros k Hk|done|exists x; split; [|done]].
    + change (flight c2 key = None). by rewrite Hf2, decide_True.
    + change (lookup c2 k = lookup c k /\ flight c2 k = flight c k). rewrite Hl2, Hf2, !decide_False, Hl1 by done.
      split; [done|by apply Hf1].
    + change (lookup c2 key = Some (Entry value x)). by rewrite Hl2, decide_True, Hvis1.
  - unfold fulfil. rewrite Hs. cbn [mbind outcome_bind].
    set (c2 := Cache (m_shards c1) (<[id := Fulfilled (inr e)]> (c_states c1)) (c_next c1)).
    assert (cache_ok c2) as Hok2 by (by destruct Hok1).
    destruct (remove_in_flight_ok c2 key id Hok2) as (c3 & E3 & Hok3 & _ & _ & Hl3 & Hf3).
    rewrite E3. cbn [mbind outcome_bind]. eexists _, _. split; [reflexivity|]. split; [done|].
    split_and!; [|intros k Hk|done|].
    + rewrite Hf3, decide_True; [done|]. by split.
    + rewrite Hl3, Hf3, decide_False by tauto. split; [apply Hl1|by apply Hf1].
    + rewrite Hl3. apply Hl1.
Qed.

(** [get_or_create], when no other thread is creating the key: a visible
    value is returned and the factory is not run; otherwise the factory's
    value is stored and returned; if the factory throws, the exception is
    passed on and no value changes.  No creation is left in flight. *)
Theorem get_or_create_correct c key options factory now1 now2 now3 now4
    (Hok : cache_ok c) (Hflight : flight c key = None)
    (Hfit : now3 + m_ttl options <= int64_max)
    (Hclock : now1 <= now2 <= now4) (Hdefined : factory key ≠ Undef) :
  exists c' r, get_or_create c key options factory now1 now2 now3 now4 = Ret (c', r) /\
    cache_ok c' /\ flight c' key = None /\
    (forall k, k ≠ key -> lookup c' k = lookup c k /\ flight c' k = flight c k) /\
    match visible c key now1 with
    | Some value => r = Created value /\ c' = c
    | None =>
        match factory key with
        | Ret value => r = Created value /\ exists x, lookup c' key = Some (Entry value x) /\
            expiration_time options now3 = Ret x
        | Throw e => r = CreateThrows e /\ lookup c' key = lookup c key
        | Undef => False
        end
    end.
Proof.
  destruct (shard_view c key Hok) as (sh & E & Hsh & Hv & Hf). unfold get_or_create.
  rewrite E. cbn [mbind outcome_bind]. rewrite (fast_get_visible c) by done.
  destruct (visible c key now1) as [v|] eqn:Evis.
  { unfold visible in Evis. destruct (lookup c key) as [e|]; [|done]. simpl in Evis.
    destruct (expired e now1); [done|]. injection Evis as <-. eexists _, _. by split_and!. }
  assert (forall n, now1 <= n -> visible c key n = None) as Hinv.
  { intros n Hn. unfold visible in *. destruct (lookup c key) as [e|]; [|done]. simpl in *.
    destruct (expired e now1) eqn:Ee; [|done]. unfold expired in *.
    apply andb_true_iff in Ee as [-> ?%Z.geb_le]. replace (n >=? e_expires_at e) with true by lia. done. }
  destruct (create_enter_ok c key now2 Hok) as (c1 & st & E1 & Hok1 & Hl1 & Hst).
  assert (exists id, st = CreateOwns id /\ flight c1 key = Some id /\ c_states c1 !! id = Some Pending) as Hown.
  { destruct st as [v|id|id].
    - destruct Hst as [_ Hst]. by rewrite Hinv in Hst by lia.
    - destruct Hst as (_ & _ & ?). congruence.
    - destruct Hst as (_ & _ & -> & _ & -> & Hf1). eexists. split; [done|].
      by rewrite Hf1, decide_True, lookup_insert_eq. }
  pose proof (Hinv now4 ltac:(lia)) as Hvis4.
  assert (forall k, k ≠ key -> flight c1 k = flight c k) as Hf1.
  { intros k Hk. destruct Hown as (id & -> & _). destruct Hst as (_ & _ & _ & _ & _ & Hf1). by rewrite Hf1, decide_False. }
  destruct (create_owner_ok c c1 st key options factory now3 now4 Hok1 Hl1 Hf1 Hown Hvis4 Hfit Hdefined)
    as (c' & r & E2 & Hok' & Hfl' & Ho & Hr).
  exists c', r. split; [|done].
  assert (create_enter c key now2 = Ret (c1, st)) as Hrun by exact E1.
  unfold visible in Evis. destruct (lookup c key) as [e|] eqn:El; simpl in Evis;
    [destruct (expired e now1) eqn:Ee; [|done]|]; rewrite Hrun; exact E2.
Qed.
End cache.
Arguments shard_t K V {_ _}.
Arguments concurrent_cache K V {_ _}.

(** The ttl the constructor of [cache_entry_opts] accepts is bounded by
    [max_supported_ttl], but adding that bound to the steady clock overflows
    (undefined behaviour) once the clock has passed 14860036854775807 ns,
    about 172 days. *)
Theorem max_ttl_overflows now (Hnow : 14860036854775807 < now) :
  exists options, make_opts max_supported_ttl = Ret options /\ expiration_time options now = Undef.
Proof.
  exists (Opts max_supported_ttl). split; [by vm_compute|]. unfold expiration_time. cbn [m_ttl].
  change (max_supported_ttl =? 0) with false. cbv beta iota.
  destruct (Z.leb_spec (now + max_supported_ttl) int64_max) as [Hle|]; [|done].
  unfold max_supported_ttl, int64_max in Hle. lia.
Qed.

(** ** Instances *)
Section instances.
(** Two shards: the value 5 for key 0, expiring at 10; the value 6 for key 1,
    never expiring. *)
Definition two_values : concurrent_cache nat nat :=
  Cache [Shard {[ 0%nat := Entry 5%nat 10 ]} ∅; Shard {[ 1%nat := Entry 6%nat no_expiration_time ]} ∅] ∅ 0.

Lemma two_values_ok : cache_ok Z.of_nat two_values.
Proof.
  split; [done| |].
  - intros [|[|i]] sh key Hi [e He]; simpl in Hi; simplify_eq/=;
      apply lookup_singleton_Some in He as [<- _]; by vm_compute.
  - intros [|[|i]] sh key Hi [e He]; simpl in Hi; simplify_eq/=.
Qed.

Lemma insert_then_get_witness :
  exists c', insert_or_assign Z.of_nat two_values 4%nat (Opts 10) 7%nat 100 = Ret (c', 7%nat) /\
    cache_ok Z.of_nat c' /\
    (1%nat ≠ 4%nat -> lookup Z.of_nat c' 1%nat = lookup Z.of_nat two_values 1%nat) /\
    (exists c'', get Z.of_nat c' 4%nat 109 109 =
       Ret (c'', if (10 =? 0) || (109 <? 100 + 10) then Some 7%nat else None)) /\
    contains Z.of_nat c' 4%nat 109 = Ret ((10 =? 0) || (109 <? 100 + 10)).
Proof. apply (insert_then_get Z.of_nat two_values 4%nat (Opts 10) 7%nat 100 109 109 1%nat two_values_ok); done. Defined.

Lemma get_correct_witness :
  get Z.of_nat two_values 0%nat 11 12 = Ret (two_values, visible Z.of_nat two_values 0%nat 11) /\
  contains Z.of_nat two_values 0%nat 11 = Ret (bool_decide (is_Some (visible Z.of_nat two_values 0%nat 11))).
Proof. by apply (get_correct Z.of_nat two_values 0%nat 11 12 two_values_ok). Defined.

Lemma get_removes_a_live_entry_witness :
  exists c', get_remove Z.of_nat two_values 1%nat 11 = Ret c' /\ lookup Z.of_nat c' 1%nat = None.
Proof. by apply (get_removes_a_live_entry Z.of_nat two_values 1%nat (Entry 6%nat no_expiration_time) 11 two_values_ok). Defined.

Lemma erase_correct_witness :
  exists c', erase Z.of_nat two_values 1%nat =
      Ret (c', bool_decide (is_Some (lookup Z.of_nat two_values 1%nat))) /\ cache_ok Z.of_nat c' /\
    (forall k, lookup Z.of_nat c' k = if decide (k = 1%nat) then None else lookup Z.of_nat two_values k).
Proof. exact (erase_correct Z.of_nat two_values 1%nat two_values_ok). Defined.

Lemma purge_size_correct_witness :
  cache_ok Z.of_nat (purge_expired two_values 11).1 /\
  (forall k, lookup Z.of_nat (purge_expired two_values 11).1 k =
     e ← lookup Z.of_nat two_values k; if expired e 11 then None else Some e) /\
  (purge_expired two_values 11).2 =
    Z.of_nat (base.size (filter (fun kv => expired kv.2 11 = true) (contents two_values))) /\
  size two_values 11 = Z.of_nat (base.size (filter (fun kv => expired kv.2 11 = false) (contents two_values))) /\
  (empty two_values 11 = true <-> filter (fun kv => expired kv.2 11 = false) (contents two_values) = ∅).
Proof. by apply (purge_size_correct Z.of_nat two_values 11 two_values_ok). Defined.

Definition squares (key : nat) : outcome nat := Ret (key * key)%nat.

Lemma get_or_create_correct_witness :
  exists c' r, get_or_create Z.of_nat two_values 3%nat default_opts squares 20 21 22 23 = Ret (c', r) /\
    cache_ok Z.of_nat c' /\ flight Z.of_nat c' 3%nat = None /\
    (forall k, k ≠ 3%nat -> lookup Z.of_nat c' k = lookup Z.of_nat two_values k /\
       flight Z.of_nat c' k = flight Z.of_nat two_values k) /\
    match visible Z.of_nat two_values 3%nat 20 with
    | Some value => r = Created value /\ c' = two_values
    | None =>
        match squares 3%nat with
        | Ret value => r = Created value /\ exists x, lookup Z.of_nat c' 3%nat = Some (Entry value x) /\
            expiration_time default_opts 22 = Ret x
        | Throw e => r = CreateThrows e /\ lookup Z.of_nat c' 3%nat = lookup Z.of_nat two_values 3%nat
        | Undef => False
        end
    end.
Proof.
  by apply (get_or_create_correct Z.of_nat two_values 3%nat default_opts squares 20 21 22 23 two_values_ok).
Defined.

Lemma max_ttl_overflows_witness :
  exists options, make_opts max_supported_ttl = Ret options /\ expiration_time options 14860036854775808 = Undef.
Proof. by apply (max_ttl_overflows 14860036854775808). Defined.
End instances.
