(* ===== verification/CacheSpec.v ===== *)
(** What [xtd::concurrent_cache] is to a single user: one map from keys to
    values with a time of expiry.  The shards, the hash that spreads the keys
    over them and the creations in flight are not observable.  Cache.v's
    operations refine this specification, which is the code's: a [get] leaves
    an expired entry where it is.  The documentation's [get] removes it; the
    second specification does, and the two are compared.  CacheSystem.v is
    about several users at once. *)

From Stdlib Require Import Sorted.
From S2P Require Import Prelude Cache.

Section spec.
Context {K V : Type} `{Countable K}.
Variable hash : K -> Z.

(** ** Calls and answers *)

(** A call, with the readings of the clock it makes. *)
Inductive cache_call :=
  | CallGet (key : K) (now now' : Z)
  | CallContains (key : K) (now : Z)
  | CallInsert (key : K) (options : cache_entry_opts) (value : V) (now : Z)
  | CallErase (key : K)
  | CallGetOrCreate (key : K) (options : cache_entry_opts) (factory : K -> outcome V) (now1 now2 now3 now4 : Z)
  | CallPurge (now : Z)
  | CallSize (now : Z)
  | CallEmpty (now : Z).

Inductive cache_answer :=
  | AnswerValue (value : option V)
  | AnswerBool (b : bool)
  | AnswerCount (n : Z)
  | AnswerThrows (e : exn)
  | AnswerNever. (* waits for a creation that nobody will finish *)

Definition created (r : create_result) : cache_answer :=
  match r with
  | Created value => AnswerValue (Some value)
  | CreateThrows e => AnswerThrows e
  | CreateBlocks _ => AnswerNever
  end.

Definition call_cache (c : concurrent_cache K V) (call : cache_call) : outcome (concurrent_cache K V * cache_answer) :=
  match call with
  | CallGet key now now' => '(c, r) ← get hash c key now now'; Ret (c, AnswerValue r)
  | CallContains key now => r ← contains hash c key now; Ret (c, AnswerBool r)
  | CallInsert key options value now =>
      '(c, r) ← insert_or_assign hash c key options value now; Ret (c, AnswerValue (Some r))
  | CallErase key => '(c, r) ← erase hash c key; Ret (c, AnswerBool r)
  | CallGetOrCreate key options factory now1 now2 now3 now4 =>
      '(c, r) ← get_or_create hash c key options factory now1 now2 now3 now4; Ret (c, created r)
  | CallPurge now => let '(c, n) := purge_expired c now in Ret (c, AnswerCount n)
  | CallSize now => Ret (c, AnswerCount (size c now))
  | CallEmpty now => Ret (c, AnswerBool (empty c now))
  end.

Fixpoint call_all (c : concurrent_cache K V) (calls : list cache_call) : outcome (concurrent_cache K V * list cache_answer) :=
  match calls with
  | [] => Ret (c, [])
  | call :: calls =>
      '(c, answer) ← call_cache c call;
      '(c, answers) ← call_all c calls;
      Ret (c, answer :: answers)
  end.

(** ** The specification *)

Abbreviation expiring_map := (gmap K (entry V)).

Definition live (m : expiring_map) (key : K) (now : Z) : option V :=
  e ← m !! key; if expired e now then None else Some (e_value e).

Definition expiry (options : cache_entry_opts) (now : Z) : Z :=
  if m_ttl options =? 0 then no_expiration_time else now + m_ttl options.

Definition unexpired (m : expiring_map) (now : Z) : expiring_map := filter (fun kv => expired kv.2 now = false) m.

Definition spec_call (m : expiring_map) (call : cache_call) : expiring_map * cache_answer :=
  match call with
  | CallGet key now _ => (m, AnswerValue (live m key now))
  | CallContains key now => (m, AnswerBool (bool_decide (is_Some (live m key now))))
  | CallInsert key options value now =>
      (<[key := Entry value (expiry options now)]> m, AnswerValue (Some value))
  | CallErase key => (delete key m, AnswerBool (bool_decide (is_Some (m !! key))))
  | CallGetOrCreate key options factory now1 _ now3 _ =>
      match live m key now1 with
      | Some value => (m, AnswerValue (Some value))
      | None =>
          match factory key with
          | Ret value => (<[key := Entry value (expiry options now3)]> m, AnswerValue (Some value))
          | Throw e => (m, AnswerThrows e)
          | Undef => (m, AnswerNever)
          end
      end
  | CallPurge now => (unexpired m now, AnswerCount (Z.of_nat (base.size m) - Z.of_nat (base.size (unexpired m now))))
  | CallSize now => (m, AnswerCount (Z.of_nat (base.size (unexpired m now))))
  | CallEmpty now => (m, AnswerBool (bool_decide (unexpired m now = ∅)))
  end.


(** The map that concurrent_cache.md describes: there, [get] removes an entry
    that it finds expired. *)
Definition documented_call (m : expiring_map) (call : cache_call) : expiring_map * cache_answer :=
  match call with
  | CallGet key now _ =>
      (match m !! key with Some e => if expired e now then delete key m else m | None => m end,
       AnswerValue (live m key now))
  | _ => spec_call m call
  end.

Fixpoint documented_all (m : expiring_map) (calls : list cache_call) : expiring_map * list cache_answer :=
  match calls with
  | [] => (m, [])
  | call :: calls =>
      let '(m, answer) := documented_call m call in
      let '(m, answers) := documented_all m calls in
      (m, answer :: answers)
  end.




(** ** The refinement *)
















(** ** The documented map *)












End spec.

(** ** A sequence of calls *)




(** The difference seen: an entry that expires at 110 is looked up at 120, and
    then erased. *)
Definition expired_lookup : list (@cache_call nat nat) :=
  [CallInsert 1%nat (Opts 10) 7%nat 100; CallGet 1%nat 120 121; CallErase 1%nat].

(** The code's cache finds the entry to erase; the documented one does not. *)
Theorem get_keeps_an_expired_entry :
  (exists c c' answers, make_cache 1 = Ret c /\ call_all Z.of_nat c expired_lookup = Ret (c', answers) /\
    answers = [AnswerValue (Some 7%nat); AnswerValue None; AnswerBool true]) /\
  (documented_all ∅ expired_lookup).2 = [AnswerValue (Some 7%nat); AnswerValue None; AnswerBool false].
Proof.
  split; [|by vm_compute]. eexists _, _, _. split; [reflexivity|]. split; [vm_compute; reflexivity|]. reflexivity.
Qed.
