(* ===== verification/CacheSystem.v ===== *)
(** Any number of threads on one cache: [get_or_create] step by step (its two
    exclusive sections, the factory, the promise), interleaved with the
    sections of the other operations.  [s_results] (ghost state) lists what
    each creation delivered to its owner and to those who waited for it. *)

From S2P Require Import Prelude Cache.

Section system.
Context {K V : Type} `{Countable K}.
Variable hash : K -> Z.

Inductive thread :=
  | Idle
  | Running (key : K) (options : cache_entry_opts) (id : nat)  (* executing the factory *)
  | Returned (key : K) (id : nat) (new_entry : entry V)        (* before the second section *)
  | Published (key : K) (id : nat) (value : V)                 (* before set_value *)
  | Failed (key : K) (id : nat) (e : exn)                      (* in the handler, before set_exception *)
  | Removing (key : K) (id : nat) (e : exn)                    (* before remove_in_flight *)
  | Waiting (id : nat).                                        (* in future.get() *)

Record system := System {
  s_cache : concurrent_cache K V;
  s_threads : list thread;
  s_results : list (nat * (V + exn))
}.

Definition enter_thread (key : K) (options : cache_entry_opts) (st : create_step (V:=V)) : thread :=
  match st with
  | CreateFound _ => Idle
  | CreateWaits id => Waiting id
  | CreateOwns id => Running key options id
  end.

Inductive step : system -> system -> Prop :=
  | step_enter c ths rs i key options now c' st :
      ths !! i = Some Idle -> create_enter hash c key now = Ret (c', st) ->
      step (System c ths rs) (System c' (<[i := enter_thread key options st]> ths) rs)
  | step_factory_returns c ths rs i key options id value now x :
      ths !! i = Some (Running key options id) -> expiration_time options now = Ret x ->
      step (System c ths rs) (System c (<[i := Returned key id (Entry value x)]> ths) rs)
  | step_factory_throws c ths rs i key options id e :
      ths !! i = Some (Running key options id) ->
      step (System c ths rs) (System c (<[i := Failed key id e]> ths) rs)
  | step_publish c ths rs i key id new_entry now c' value :
      ths !! i = Some (Returned key id new_entry) -> create_publish hash c key new_entry now = Ret (c', value) ->
      step (System c ths rs) (System c' (<[i := Published key id value]> ths) rs)
  | step_set_value c ths rs i key id value c' :
      ths !! i = Some (Published key id value) -> fulfil c id (inl value) = Ret c' ->
      step (System c ths rs) (System c' (<[i := Idle]> ths) (rs ++ [(id, inl value)]))
  | step_set_exception c ths rs i key id e c' :
      ths !! i = Some (Failed key id e) -> fulfil c id (inr e) = Ret c' ->
      step (System c ths rs) (System c' (<[i := Removing key id e]> ths) rs)
  | step_remove c ths rs i key id e c' :
      ths !! i = Some (Removing key id e) -> remove_in_flight hash c key id = Ret c' ->
      step (System c ths rs) (System c' (<[i := Idle]> ths) (rs ++ [(id, inr e)]))
  | step_future c ths rs i id r :
      ths !! i = Some (Waiting id) -> c_states c !! id = Some (Fulfilled r) ->
      step (System c ths rs) (System c (<[i := Idle]> ths) (rs ++ [(id, r)]))
  | step_insert c ths rs key options value now c' v :
      insert_or_assign hash c key options value now = Ret (c', v) ->
      step (System c ths rs) (System c' ths rs)
  | step_erase c ths rs key c' b :
      erase hash c key = Ret (c', b) -> step (System c ths rs) (System c' ths rs)
  | step_get_remove c ths rs key now c' :
      get_remove hash c key now = Ret c' -> step (System c ths rs) (System c' ths rs)
  | step_purge c ths rs j sh now :
      m_shards c !! j = Some sh ->
      step (System c ths rs)
        (System (Cache (<[j := (purge_shard sh now).1]> (m_shards c)) (c_states c) (c_next c)) ths rs).

(** ** The invariant *)

(** The creation a thread owns: its key and its state; [in_flight] lists it
    until it is published or removed. *)
Definition owns (th : thread) : option (K * nat) :=
  match th with
  | Running key _ id | Returned key id _ | Failed key id _ | Removing key id _ => Some (key, id)
  | _ => None
  end.
Definition unsettled (th : thread) : option nat :=
  match th with
  | Running _ _ id | Returned _ id _ | Failed _ id _ | Published _ id _ => Some id
  | _ => None
  end.
Definition owned_id (th : thread) : option nat :=
  match th with
  | Running _ _ id | Returned _ id _ | Failed _ id _ | Published _ id _ | Removing _ id _ => Some id
  | _ => None
  end.

Record system_ok (s : system) : Prop := {
  so_cache : cache_ok hash (s_cache s);
  so_next : forall id, is_Some (c_states (s_cache s) !! id) -> (id < c_next (s_cache s))%nat;
  so_owner : forall i th key id, s_threads s !! i = Some th -> owns th = Some (key, id) ->
    flight hash (s_cache s) key = Some id;
  so_flight : forall key id, flight hash (s_cache s) key = Some id ->
    exists i th, s_threads s !! i = Some th /\ owns th = Some (key, id);
  so_unique : forall i j th th' id, s_threads s !! i = Some th -> s_threads s !! j = Some th' ->
    owned_id th = Some id -> owned_id th' = Some id -> i = j;
  so_unsettled : forall i th id, s_threads s !! i = Some th -> unsettled th = Some id ->
    c_states (s_cache s) !! id = Some Pending;
  so_settling : forall id, c_states (s_cache s) !! id = Some Pending ->
    exists i th, s_threads s !! i = Some th /\ unsettled th = Some id;
  so_removing : forall i key id e, s_threads s !! i = Some (Removing key id e) ->
    c_states (s_cache s) !! id = Some (Fulfilled (inr e));
  so_waiting : forall i id, s_threads s !! i = Some (Waiting id) -> is_Some (c_states (s_cache s) !! id);
  so_results : forall id r, (id, r) ∈ s_results s -> c_states (s_cache s) !! id = Some (Fulfilled r)
}.

(** A section that leaves the creations alone. *)
Lemma system_ok_values c c' ths rs :
  system_ok (System c ths rs) -> cache_ok hash c' -> c_states c' = c_states c -> c_next c' = c_next c ->
  (forall k, flight hash c' k = flight hash c k) -> system_ok (System c' ths rs).
Proof.
  intros [H1 H2 H3 H4 H5 H6 H7 H8 H9 H10] Hok Es En Hf. cbn in *.
  split; cbn; rewrite ?Es, ?En; try done; intros; rewrite ?Hf in *; eauto.
Qed.

Lemma keep_thread {A} (f : thread -> option A) (ths : list thread) (i : nat) (th0 th' : thread) x :
  ths !! i = Some th0 -> (f th0 = Some x -> f th' = Some x) ->
  (exists (j : nat) (th : thread), ths !! j = Some th /\ f th = Some x) ->
  exists (j : nat) (th : thread), <[i := th']> ths !! j = Some th /\ f th = Some x.
Proof.
  intros Hi Hf (j & th & Hj & E). destruct (decide (j = i)) as [->|Hne].
  - simplify_eq. exists i, th'. split; [|by apply Hf]. apply list_lookup_insert_eq.
    by eapply lookup_lt_Some.
  - exists j, th. split; [|done]. by rewrite list_lookup_insert_ne.
Qed.

(** Splits every lookup in an updated list of threads. *)
Ltac thread_cases :=
  repeat match goal with
  | Hl : <[_ := _]> _ !! _ = Some _ |- _ =>
      apply list_lookup_insert_Some in Hl as [(? & ? & _)|[? Hl]]
  end; simplify_eq/=.

(** A thread moves on within the creation it owns. *)
Lemma creation_system_ok_move c ths rs i th th' :
  system_ok (System c ths rs) -> ths !! i = Some th ->
  owns th' = owns th -> unsettled th' = unsettled th -> owned_id th' = owned_id th ->
  (forall key id e, th' ≠ Removing key id e) -> (forall id, th' ≠ Waiting id) ->
  system_ok (System c (<[i := th']> ths) rs).
Proof.
  intros [H1 H2 H3 H4 H5 H6 H7 H8 H9 H10] Hi Eo Eu Ei Hr Hw. cbn in *. split; cbn; try done.
  - intros j t key id Hj E. thread_cases; [rewrite Eo in E|]; eauto.
  - intros key id E. apply (keep_thread owns ths i th); [done|congruence|by apply H4].
  - intros j k t t' id Hj Hk E E'. thread_cases; rewrite ?Ei in *; eauto.
  - intros j t id Hj E. thread_cases; [rewrite Eu in E|]; eauto.
  - intros id E. apply (keep_thread unsettled ths i th); [done|congruence|by apply H7].
  - intros j key id e Hj. thread_cases; [by destruct (Hr key id e)|by eapply H8].
  - intros j id Hj. thread_cases; [by destruct (Hw id)|by eapply H9].
Qed.

(** A thread that owns nothing starts to wait, or goes on. *)
Lemma system_ok_plain c ths rs rs' i th th' :
  system_ok (System c ths rs) -> ths !! i = Some th ->
  owned_id th = None -> (th' = Idle \/ exists id, th' = Waiting id /\ is_Some (c_states c !! id)) ->
  (forall id r, (id, r) ∈ rs' -> c_states c !! id = Some (Fulfilled r)) ->
  system_ok (System c (<[i := th']> ths) rs').
Proof.
  intros [H1 H2 H3 H4 H5 H6 H7 H8 H9 H10] Hi Eo Ht Hrs. cbn in *.
  assert (owns th = None /\ unsettled th = None) as [Eo1 Eo2] by (by destruct th).
  assert (owns th' = None /\ unsettled th' = None /\ owned_id th' = None) as (En1 & En2 & En3).
  { by destruct Ht as [->|(? & -> & _)]. }
  split; cbn; try done.
  - intros j t key id Hj E. thread_cases; eauto; congruence.
  - intros key id E. apply (keep_thread owns ths i th); [done|congruence|by apply H4].
  - intros j k t t' id Hj Hk E E'. thread_cases; eauto; congruence.
  - intros j t id Hj E. thread_cases; eauto; congruence.
  - intros id E. apply (keep_thread unsettled ths i th); [done|congruence|by apply H7].
  - intros j key id e Hj. thread_cases. by eapply H8.
  - intros j id Hj. thread_cases; [by destruct Ht as [|(? & [= ->] & ?)]|by eapply H9].
Qed.

Lemma owned_cases th id :
  owned_id th = Some id -> unsettled th = Some id \/ exists key e, th = Removing key id e.
Proof. destruct th; intros [= <-]; eauto. Qed.

(** [create_enter] makes its thread the owner of a new creation. *)
Lemma system_ok_own c c' ths rs i key options :
  system_ok (System c ths rs) -> ths !! i = Some Idle -> cache_ok hash c' ->
  flight hash c key = None -> c_next c' = S (c_next c) -> c_states c' = <[c_next c := Pending]> (c_states c) ->
  (forall k, flight hash c' k = if decide (k = key) then Some (c_next c) else flight hash c k) ->
  system_ok (System c' (<[i := Running key options (c_next c)]> ths) rs).
Proof.
  intros [H1 H2 H3 H4 H5 H6 H7 H8 H9 H10] Hi Hok Hnone En Es Hf. cbn in *.
  assert (c_states c !! c_next c = None) as Hfresh.
  { destruct (c_states c !! c_next c) eqn:E; [|done]. pose proof (H2 (c_next c) ltac:(by eexists)). lia. }
  assert (forall id x, c_states c !! id = Some x -> c_states c' !! id = Some x) as Hkeep.
  { intros id x E. rewrite Es, lookup_insert_ne; [done|]. intros <-. congruence. }
  assert (forall j t id, ths !! j = Some t -> owned_id t = Some id -> id ≠ c_next c) as Hids.
  { intros j t id Hj E ->. apply owned_cases in E as [E|(k & e & ->)].
    - pose proof (H6 _ _ _ Hj E) as Hs. by rewrite Hfresh in Hs.
    - pose proof (H8 _ _ _ _ Hj) as Hs. by rewrite Hfresh in Hs. }
  assert (is_Some (ths !! i)) as Hlt%lookup_lt_is_Some by (by eexists).
  split; cbn; try done.
  - intros id [x Hx]. rewrite Es in Hx. rewrite En. apply lookup_insert_Some in Hx as [[<- _]|[_ Hx]]; [lia|].
    pose proof (H2 id ltac:(by eexists)). lia.
  - intros j t k id Hj E. rewrite Hf. thread_cases; [by rewrite decide_True|].
    rewrite decide_False; [by eauto|]. intros ->. pose proof (H3 _ _ _ _ Hj E). congruence.
  - intros k id E. rewrite Hf in E. case_decide as Hk.
    + simplify_eq. exists i. eexists. split; [by apply list_lookup_insert_eq|done].
    + apply (keep_thread owns ths i Idle); [done|done|by apply H4].
  - intros j k t t' id Hj Hk E E'. thread_cases; eauto; exfalso; by eapply Hids.
  - intros j t id Hj E. thread_cases; [by rewrite Es, lookup_insert_eq|]. by eapply Hkeep, H6.
  - intros id E. rewrite Es in E. apply lookup_insert_Some in E as [[<- _]|[_ E]].
    + exists i. eexists. split; [by apply list_lookup_insert_eq|done].
    + apply (keep_thread unsettled ths i Idle); [done|done|by apply H7].
  - intros j k id e Hj. thread_cases. by eapply Hkeep, H8.
  - intros j id Hj. thread_cases. destruct (H9 _ _ Hj) as [x Hx]. exists x. by apply Hkeep.
  - intros id r Hin. by apply Hkeep, H10.
Qed.

Lemma owns_owned_id th key id : owns th = Some (key, id) -> owned_id th = Some id.
Proof. by destruct th; intros; simplify_eq/=. Qed.
Lemma unsettled_owned_id th id : unsettled th = Some id -> owned_id th = Some id.
Proof. by destruct th; intros; simplify_eq/=. Qed.

(** The owner takes its creation out of [in_flight]. *)
Lemma system_ok_unlist c c' ths rs rs' i th th' key id :
  system_ok (System c ths rs) -> ths !! i = Some th -> cache_ok hash c' ->
  c_states c' = c_states c -> c_next c' = c_next c ->
  (forall k, flight hash c' k = if decide (k = key) then None else flight hash c k) ->
  owns th = Some (key, id) -> owns th' = None -> unsettled th' = unsettled th ->
  (forall id', owned_id th' = Some id' -> id' = id) ->
  (forall k id' e, th' ≠ Removing k id' e) -> (forall id', th' ≠ Waiting id') ->
  (forall id' r, (id', r) ∈ rs' -> c_states c !! id' = Some (Fulfilled r)) ->
  system_ok (System c' (<[i := th']> ths) rs').
Proof.
  intros [H1 H2 H3 H4 H5 H6 H7 H8 H9 H10] Hi Hok Es En Hf Eo Eo' Eu Ei Hr Hw Hrs. cbn in *.
  pose proof (owns_owned_id _ _ _ Eo) as Eid. pose proof (H3 _ _ _ _ Hi Eo) as Hkey.
  assert (forall j t, ths !! j = Some t -> j ≠ i -> owned_id t = Some id -> False) as Huniq.
  { intros j t Hj Hne E. by apply Hne, (H5 j i t th id). }
  split; cbn; rewrite ?Es, ?En; try done.
  - intros j t k id' Hj E. rewrite Hf. thread_cases; try congruence. rewrite decide_False; [by eauto|].
    intros ->. pose proof (H3 _ _ _ _ Hj E). assert (id' = id) as -> by congruence.
    pose proof (H5 _ _ _ _ _ Hj Hi (owns_owned_id _ _ _ E) Eid). done.
  - intros k id' E. rewrite Hf in E. case_decide as Hk; [done|].
    apply (keep_thread owns ths i th); [done|congruence|by apply H4].
  - intros j k t t' id' Hj Hk E E'. thread_cases; eauto.
    all: match goal with Ho : owned_id _ = Some ?x |- _ => pose proof (Ei _ Ho); subst x end.
    all: exfalso; eauto.
  - intros j t id' Hj E. thread_cases; [rewrite Eu in E|]; eauto.
  - intros id' E. apply (keep_thread unsettled ths i th); [done|congruence|by apply H7].
  - intros j k id' e Hj. thread_cases; first [by eapply H8|by edestruct Hr].
  - intros j id' Hj. thread_cases; first [by eapply H9|by edestruct Hw].
Qed.

(** The owner settles its promise. *)
Lemma system_ok_settle c ths rs rs' i th th' id r :
  system_ok (System c ths rs) -> ths !! i = Some th ->
  unsettled th = Some id -> unsettled th' = None -> owns th' = owns th ->
  (forall id', owned_id th' = Some id' -> id' = id) ->
  (forall k id' e, th' = Removing k id' e -> id' = id /\ r = inr e) -> (forall id', th' ≠ Waiting id') ->
  (forall x, x ∈ rs' -> x ∈ rs \/ x = (id, r)) ->
  system_ok (System (Cache (m_shards c) (<[id := Fulfilled r]> (c_states c)) (c_next c)) (<[i := th']> ths) rs').
Proof.
  intros [H1 H2 H3 H4 H5 H6 H7 H8 H9 H10] Hi Eu Eu' Eo Ei Hr Hw Hrs. cbn in *.
  pose proof (unsettled_owned_id _ _ Eu) as Eid. pose proof (H6 _ _ _ Hi Eu) as Hs.
  assert (forall j t, ths !! j = Some t -> j ≠ i -> owned_id t = Some id -> False) as Huniq.
  { intros j t Hj Hne E. by apply Hne, (H5 j i t th id). }
  assert (forall id' x, c_states c !! id' = Some (Fulfilled x) -> <[id := Fulfilled r]> (c_states c) !! id' = Some (Fulfilled x)) as Hkeep.
  { intros id' x E. rewrite lookup_insert_ne; [done|]. intros <-. congruence. }
  split; cbn; try done.
  - by destruct H1.
  - intros id' [x Hx]. apply lookup_insert_Some in Hx as [[<- _]|[_ Hx]]; apply H2; by eexists.
  - intros j t k id' Hj E. change (flight hash c k = Some id'). thread_cases; [rewrite Eo in E|]; eauto.
  - intros k id' E. apply (keep_thread owns ths i th); [done|congruence|by apply H4].
  - intros j k t t' id' Hj Hk E E'. thread_cases; eauto.
    all: match goal with Ho : owned_id _ = Some ?x |- _ => pose proof (Ei _ Ho); subst x end.
    all: exfalso; eauto.
  - intros j t id' Hj E. thread_cases; try congruence. rewrite lookup_insert_ne; [by eauto|]. intros <-.
    eapply Huniq; [exact Hj|done|by apply unsettled_owned_id].
  - intros id' E. apply lookup_insert_Some in E as [[_ ?]|[Hne E]]; [done|].
    apply (keep_thread unsettled ths i th); [done|congruence|by apply H7].
  - intros j k id' e Hj. thread_cases; [|by eapply Hkeep, H8].
    destruct (Hr _ _ _ eq_refl) as [-> ->]. by rewrite lookup_insert_eq.
  - intros j id' Hj. thread_cases; try (by edestruct Hw). destruct (H9 _ _ Hj) as [x Hx].
    destruct (decide (id' = id)) as [->|]; [rewrite lookup_insert_eq|rewrite lookup_insert_ne by done; rewrite Hx]; by eexists.
  - intros id' r' [Hin|[= -> ->]]%Hrs; [by apply Hkeep, H10|by rewrite lookup_insert_eq].
Qed.

(** *** The sections that only touch values *)

Definition values_only (c c' : concurrent_cache K V) : Prop :=
  cache_ok hash c' /\ c_states c' = c_states c /\ c_next c' = c_next c /\
  (forall k, flight hash c' k = flight hash c k).

Lemma set_values_only c key sh vs :
  cache_ok hash c -> m_shards c !! shard_index hash c key = Some sh ->
  only_key key sh (Shard vs (in_flight sh)) ->
  values_only c (set_shard hash c key (Shard vs (in_flight sh))).
Proof.
  intros Hok Hsh Ho. destruct (set_shard_ok hash c key sh _ Hok Hsh Ho) as (Hok' & _ & Hf).
  split_and!; try done. intros k. rewrite Hf. case_decide; [subst|done]. simpl. unfold flight. by rewrite Hsh.
Qed.

Lemma insert_values_only c key options value now c' v :
  cache_ok hash c -> insert_or_assign hash c key options value now = Ret (c', v) -> values_only c c'.
Proof.
  intros Hok. destruct (shard_view hash c key Hok) as (sh & E & Hsh & _). unfold insert_or_assign.
  rewrite E. cbn [mbind outcome_bind]. destruct (expiration_time options now); [|done..].
  cbn [mbind outcome_bind]. intros [= <- _]. apply set_values_only; [done..|apply only_key_insert].
Qed.

Lemma erase_values_only c key c' b :
  cache_ok hash c -> erase hash c key = Ret (c', b) -> values_only c c'.
Proof.
  intros Hok. destruct (shard_view hash c key Hok) as (sh & E & Hsh & _). unfold erase.
  rewrite E. cbn [mbind outcome_bind]. destruct (values sh !! key); intros [= <- _]; [|done].
  apply set_values_only; [done..|apply only_key_delete].
Qed.

Lemma get_remove_values_only c key now c' :
  cache_ok hash c -> get_remove hash c key now = Ret c' -> values_only c c'.
Proof.
  intros Hok. destruct (shard_view hash c key Hok) as (sh & E & Hsh & _). unfold get_remove.
  rewrite E. cbn [mbind outcome_bind]. destruct (values sh !! key) as [e|]; [destruct (negb (expired e now))|];
    intros [= <-]; [|done..]. apply set_values_only; [done..|apply only_key_delete].
Qed.

Lemma purge_values_only c j sh now :
  cache_ok hash c -> m_shards c !! j = Some sh ->
  values_only c (Cache (<[j := (purge_shard sh now).1]> (m_shards c)) (c_states c) (c_next c)).
Proof.
  intros [Hne Hv Hf] Hj. set (c' := Cache _ _ _).
  assert (forall k, shard_index hash c' k = shard_index hash c k) as Hidx.
  { intros k. unfold shard_index, len. simpl. by rewrite length_insert. }
  split_and!; [split| | |]; try done.
  - simpl. intros E. apply (f_equal length) in E. rewrite length_insert in E. by destruct (m_shards c).
  - intros i s k Hi [e He]. rewrite Hidx. simpl in Hi. apply list_lookup_insert_Some in Hi as [(<- & <- & _)|[_ Hi]].
    + simpl in He. apply map_lookup_filter_Some in He as [He _]. eapply Hv; [exact Hj|by exists e].
    + eapply Hv; [exact Hi|by exists e].
  - intros i s k Hi Hk. rewrite Hidx. simpl in Hi. apply list_lookup_insert_Some in Hi as [(<- & <- & _)|[_ Hi]]; eauto.
  - intros k. unfold flight. rewrite Hidx. simpl. destruct (decide (j = shard_index hash c k)) as [->|Hn].
    + rewrite list_lookup_insert_eq by (by eapply lookup_lt_Some). by rewrite Hj.
    + by rewrite list_lookup_insert_ne.
Qed.

Lemma fulfil_inv (c : concurrent_cache K V) id r c' :
  fulfil c id r = Ret c' -> c' = Cache (m_shards c) (<[id := Fulfilled r]> (c_states c)) (c_next c).
Proof. unfold fulfil. destruct (c_states c !! id) as [[]|]; congruence. Qed.

Lemma creation_step_preserves s s' : system_ok s -> step s s' -> system_ok s'.
Proof.
  intros Hs Hstep. pose proof (so_cache _ Hs) as Hok. destruct Hstep as
    [c ths rs i key options now c' st Hi Hrun|c ths rs i key options id value now x Hi Hx
    |c ths rs i key options id e Hi|c ths rs i key id new_entry now c' value Hi Hrun
    |c ths rs i key id value c' Hi Hrun|c ths rs i key id e c' Hi Hrun|c ths rs i key id e c' Hi Hrun
    |c ths rs i id r Hi Hr|c ths rs key options value now c' v Hrun|c ths rs key c' b Hrun
    |c ths rs key now c' Hrun|c ths rs j sh now Hj]; cbn in Hok.
  - destruct (create_enter_ok hash c key now Hok) as (c1 & st1 & E & Hok1 & _ & Hst). rewrite Hrun in E.
    injection E as <- <-. destruct st as [v|id|id]; cbn.
    + destruct Hst as [-> _]. eapply system_ok_plain; [exact Hs|exact Hi|done|by left|apply Hs].
    + destruct Hst as (-> & _ & Hfl). eapply system_ok_plain; [exact Hs|exact Hi|done| |apply Hs].
      right. exists id. split; [done|]. destruct (so_flight _ Hs _ _ Hfl) as (j & th & Hj & Ho).
      apply owns_owned_id, owned_cases in Ho as [Hu|(k & e & ->)].
      * eexists. exact (so_unsettled _ Hs _ _ _ Hj Hu).
      * eexists. exact (so_removing _ Hs _ _ _ _ Hj).
    + destruct Hst as (_ & Hn & -> & En & Es & Hf). by eapply system_ok_own.
  - by eapply creation_system_ok_move.
  - by eapply creation_system_ok_move.
  - destruct (create_publish_ok hash c key new_entry now Hok) as (c1 & E & Hok1 & Es & En & _ & Hf).
    rewrite Hrun in E. injection E as <- _.
    eapply (system_ok_unlist c c' ths rs rs i _ _ key id); try done; [by intros ? [= <-]|apply Hs].
  - apply fulfil_inv in Hrun as ->.
    eapply (system_ok_settle c ths rs _ i _ Idle id (inl value)); try done. intros x. rewrite elem_of_app, list_elem_of_singleton. tauto.
  - apply fulfil_inv in Hrun as ->.
    eapply (system_ok_settle c ths rs rs i _ (Removing key id e) id (inr e)); try done;
      [by intros ? [= <-]|by intros k id' e' [= -> -> ->]|by left].
  - pose proof (so_removing _ Hs _ _ _ _ Hi) as Hr. pose proof (so_owner _ Hs _ _ _ _ Hi eq_refl) as Hfl. cbn in Hr, Hfl.
    destruct (remove_in_flight_ok hash c key id Hok) as (c1 & E & Hok1 & Es & En & _ & Hf).
    rewrite Hrun in E. injection E as <-.
    eapply (system_ok_unlist c c' ths rs _ i _ _ key id); try done.
    + intros k. rewrite Hf. destruct (decide (k = key)) as [->|Hk].
      * by rewrite decide_True.
      * rewrite decide_False; [done|]. tauto.
    + intros id' r [Hin|Hin%list_elem_of_singleton]%elem_of_app; [by apply (so_results _ Hs)|]. by simplify_eq.
  - eapply system_ok_plain; [exact Hs|exact Hi|done|by left|].
    intros id' r' [Hin|Hin%list_elem_of_singleton]%elem_of_app; [by apply (so_results _ Hs)|]. by simplify_eq.
  - destruct (insert_values_only _ _ _ _ _ _ _ Hok Hrun) as (? & ? & ? & ?). by eapply system_ok_values.
  - destruct (erase_values_only _ _ _ _ Hok Hrun) as (? & ? & ? & ?). by eapply system_ok_values.
  - destruct (get_remove_values_only _ _ _ _ Hok Hrun) as (? & ? & ? & ?). by eapply system_ok_values.
  - destruct (purge_values_only _ _ _ now Hok Hj) as (? & ? & ? & ?). by eapply system_ok_values.
Qed.

Definition initial (c : concurrent_cache K V) (n : nat) : system := System c (replicate n Idle) [].

Lemma creation_initial_ok shards c n : make_cache shards = Ret c -> system_ok (initial c n).
Proof.
  intros Hc. pose proof (make_cache_ok hash shards c Hc) as (Hok & _ & Hf).
  assert (c_states c = ∅) as Es by (unfold make_cache in Hc; case_match; by simplify_eq).
  assert (forall i th, replicate n Idle !! i = Some th -> th = Idle) as Hr by (by intros i th [-> _]%lookup_replicate).
  split; cbn; try done.
  - intros id [x Hx]. by rewrite Es, lookup_empty in Hx.
  - by intros i th key id ->%Hr.
  - intros key id E. by rewrite Hf in E.
  - by intros i j th th' id ->%Hr.
  - by intros i th id ->%Hr.
  - intros id E. by rewrite Es, lookup_empty in E.
  - by intros i key id e ?%Hr.
  - by intros i id ?%Hr.
  - by intros id r ?%not_elem_of_nil.
Qed.

Lemma creation_reachable_ok shards c n s :
  make_cache shards = Ret c -> rtc step (initial c n) s -> system_ok s.
Proof.
  intros Hc Hrun. eapply (rtc_invariant step system_ok); [|exact Hrun|by eapply creation_initial_ok].
  intros s1 s2. apply creation_step_preserves.
Qed.

(** C12: stampede protection: at any moment at most one thread runs the
    factory of a key, whatever the other threads insert, erase or purge. *)
Theorem single_factory shards c n s i j key o1 id1 o2 id2
    (Hc : make_cache shards = Ret c) (Hrun : rtc step (initial c n) s)
    (Hi : s_threads s !! i = Some (Running key o1 id1)) (Hj : s_threads s !! j = Some (Running key o2 id2)) :
  i = j.
Proof.
  pose proof (creation_reachable_ok shards c n s Hc Hrun) as Hok.
  pose proof (so_owner _ Hok _ _ _ _ Hi eq_refl) as E1. pose proof (so_owner _ Hok _ _ _ _ Hj eq_refl) as E2.
  assert (id1 = id2) as -> by congruence. by eapply (so_unique _ Hok).
Qed.

(** C35: nobody waits in vain: a thread in [future.get()] either finds the
    result, or another thread is still on its way to set it; and once no
    thread owns a creation, none is left in flight. *)
Theorem waiters_are_served shards c n s
    (Hc : make_cache shards = Ret c) (Hrun : rtc step (initial c n) s) :
  (forall i id, s_threads s !! i = Some (Waiting id) ->
    (exists r, c_states (s_cache s) !! id = Some (Fulfilled r)) \/
    (exists j th, s_threads s !! j = Some th /\ unsettled th = Some id)) /\
  ((forall i th, s_threads s !! i = Some th -> owned_id th = None) ->
    forall key, flight hash (s_cache s) key = None).
Proof.
  pose proof (creation_reachable_ok shards c n s Hc Hrun) as Hok. split.
  - intros i id Hi. destruct (so_waiting _ Hok _ _ Hi) as [[|r] E]; [right|left; by exists r].
    by apply (so_settling _ Hok).
  - intros Hidle key. destruct (flight hash (s_cache s) key) as [id|] eqn:E; [|done].
    destruct (so_flight _ Hok _ _ E) as (i & th & Hi & Ho%owns_owned_id). by rewrite (Hidle _ _ Hi) in Ho.
Qed.

(** Everyone who took part in a creation, its owner and those who waited,
    gets the same outcome. *)
Theorem one_outcome_per_creation shards c n s id r1 r2
    (Hc : make_cache shards = Ret c) (Hrun : rtc step (initial c n) s)
    (H1 : (id, r1) ∈ s_results s) (H2 : (id, r2) ∈ s_results s) :
  r1 = r2.
Proof.
  pose proof (creation_reachable_ok shards c n s Hc Hrun) as Hok.
  pose proof (so_results _ Hok _ _ H1) as E1. pose proof (so_results _ Hok _ _ H2) as E2. congruence.
Qed.

(** No promise is set twice and no section looks for a shard that is not
    there: the steps of a creation never fail. *)
Theorem creation_steps_succeed shards c n s i th now
    (Hc : make_cache shards = Ret c) (Hrun : rtc step (initial c n) s) (Hi : s_threads s !! i = Some th) :
  match th with
  | Returned key id new_entry => exists x, create_publish hash (s_cache s) key new_entry now = Ret x
  | Published _ id value => exists c', fulfil (s_cache s) id (inl value) = Ret c'
  | Failed _ id e => exists c', fulfil (s_cache s) id (inr e) = Ret c'
  | Removing key id _ => exists c', remove_in_flight hash (s_cache s) key id = Ret c'
  | _ => True
  end.
Proof.
  pose proof (creation_reachable_ok shards c n s Hc Hrun) as Hok. pose proof (so_cache _ Hok) as Hcok.
  destruct th as [|key o id|key id e|key id v|key id e|key id e|id]; try done.
  - destruct (create_publish_ok hash (s_cache s) key e now Hcok) as (c' & -> & _). by eexists.
  - unfold fulfil. rewrite (so_unsettled _ Hok _ _ id Hi eq_refl). by eexists.
  - unfold fulfil. rewrite (so_unsettled _ Hok _ _ id Hi eq_refl). by eexists.
  - destruct (remove_in_flight_ok hash (s_cache s) key id Hcok) as (c' & -> & _). by eexists.
Qed.
End system.

(** ** A concrete run: two threads ask for the same key, a third stores it
    meanwhile *)
Section runs.
Definition demo_hash (key : nat) : Z := Z.of_nat key.
Definition demo_cache : concurrent_cache nat nat := Cache (replicate 2 (Shard ∅ ∅)) ∅ 0.

Definition stampede : system (K := nat) (V := nat) :=
  System (Cache [Shard ∅ ∅; Shard ∅ {[ 3%nat := 0%nat ]}] {[ 0%nat := Pending ]} 1)
    [Running 3%nat default_opts 0; Waiting 0] [].

Lemma stampede_run : rtc (step demo_hash) (initial demo_cache 2) stampede.
Proof.
  eapply rtc_l; [eapply (step_enter demo_hash demo_cache [Idle; Idle] [] 0 3%nat default_opts 0); [done|vm_compute; reflexivity]|].
  eapply rtc_l; [eapply (step_enter demo_hash (s_cache stampede) [Running 3%nat default_opts 0; Idle] [] 1 3%nat default_opts 0);
    [done|vm_compute; reflexivity]|].
  apply rtc_refl.
Qed.

(** The owner has published and set the promise; the waiter has its value. *)
Definition stampede_done : system (K := nat) (V := nat) :=
  System (Cache [Shard ∅ ∅; Shard {[ 3%nat := Entry 42%nat no_expiration_time ]} ∅]
    {[ 0%nat := Fulfilled (inl 42%nat) ]} 1) [Idle; Idle] [(0%nat, inl 42%nat); (0%nat, inl 42%nat)].

Lemma stampede_done_run : rtc (step demo_hash) (initial demo_cache 2) stampede_done.
Proof.
  etrans; [apply stampede_run|]. unfold stampede.
  eapply rtc_l; [eapply (step_factory_returns demo_hash _ _ _ 0 3%nat default_opts 0 42%nat 0); done|].
  eapply rtc_l; [eapply (step_publish demo_hash _ _ _ 0 3%nat 0 _ 0); [done|vm_compute; reflexivity]|].
  eapply rtc_l; [eapply (step_set_value demo_hash _ _ _ 0 3%nat 0 42%nat); [done|vm_compute; reflexivity]|].
  eapply rtc_l; [eapply (step_future demo_hash _ _ _ 1 0 (inl 42%nat)); done|].
  apply rtc_refl.
Qed.

Lemma single_factory_witness : 0%nat = 0%nat.
Proof.
  exact (single_factory demo_hash 2 demo_cache 2 stampede 0 0 3%nat default_opts 0 default_opts 0
    eq_refl stampede_run eq_refl eq_refl).
Defined.

Lemma waiters_are_served_witness :
  (forall i id, s_threads stampede !! i = Some (Waiting id) ->
    (exists r, c_states (s_cache stampede) !! id = Some (Fulfilled r)) \/
    (exists j th, s_threads stampede !! j = Some th /\ unsettled th = Some id)) /\
  ((forall i th, s_threads stampede !! i = Some th -> owned_id th = None) ->
    forall key, flight demo_hash (s_cache stampede) key = None).
Proof. exact (waiters_are_served demo_hash 2 demo_cache 2 stampede eq_refl stampede_run). Defined.

Lemma one_outcome_per_creation_witness : (inl 42%nat : nat + exn) = inl 42%nat.
Proof.
  apply (one_outcome_per_creation demo_hash 2 demo_cache 2 stampede_done 0 (inl 42%nat) (inl 42%nat)
    eq_refl stampede_done_run); [by left|by right; left].
Defined.

Lemma creation_steps_succeed_witness :
  match Running 3%nat default_opts 0 with
  | Returned key id new_entry => exists x, create_publish demo_hash (s_cache stampede) key new_entry 0 = Ret x
  | Published _ id value => exists c', fulfil (s_cache stampede) id (inl value) = Ret c'
  | Failed _ id e => exists c', fulfil (s_cache stampede) id (inr e) = Ret c'
  | Removing key id _ => exists c', remove_in_flight demo_hash (s_cache stampede) key id = Ret c'
  | _ => True
  end.
Proof.
  exact (creation_steps_succeed demo_hash 2 demo_cache 2 stampede 0 (Running 3%nat default_opts 0) 0
    eq_refl stampede_run eq_refl).
Defined.
End runs.
