(* ===== verification/LogMessage.v ===== *)
(** [logging/log_message.h]: the messages the logger passes around.  The
    conversions that depend on the machine (the time-zone tables behind
    [gmtime_r] and [localtime_r], the compiler's type names, [std::vformat]
    over the user's argument types) are parameters. *)

From S2P Require Import Prelude Text.

Module log_level.

Inductive log_level := trace | debug | information | warning | error | critical.

#[export] Instance log_level_eq_decision : EqDecision log_level.
Proof. solve_decision. Defined.

End log_level.
Import log_level.

(** [static_cast<std::size_t>(level)] and the order of the enumerators. *)
Definition level_index (l : log_level) : Z :=
  match l with
  | trace => 0 | debug => 1 | information => 2 | warning => 3 | error => 4 | critical => 5
  end.
Definition level_ltb (a b : log_level) : bool := level_index a <? level_index b.

Record exception_info := ExceptionInfo { ex_type : bytes; ex_message : bytes }.

Record source_location := Location { file_name : bytes; line : Z; function_name : bytes }.

(** [std::tm], as far as [strftime] reads it here. *)
Record tm := Tm {
  tm_year : Z; tm_mon : Z; tm_mday : Z; tm_hour : Z; tm_min : Z; tm_sec : Z; tm_gmtoff : Z
}.
Definition empty_tm : tm := Tm 0 0 0 0 0 0 0.

(** [strftime("%Y-%m-%dT%H:%M:%S")] and [strftime("%z")]. *)
Definition two_digits (n : Z) : bytes := zero_pad 2 false (to_decimal n).
Definition strftime_datetime (t : tm) : bytes :=
  to_decimal (tm_year t + 1900) ++ x2d :: two_digits (tm_mon t + 1) ++ x2d :: two_digits (tm_mday t)
  ++ text "T" ++ two_digits (tm_hour t) ++ text ":" ++ two_digits (tm_min t) ++ text ":" ++ two_digits (tm_sec t).
Definition strftime_zone (t : tm) : bytes :=
  let minutes := Z.quot (Z.abs (tm_gmtoff t)) 60 in
  (if tm_gmtoff t <? 0 then x2d else x2b) :: two_digits (minutes / 60) ++ two_digits (minutes mod 60).

(** The argument types [own] distinguishes, and what it stores. *)
Section arguments.
Context {A : Type}.

Inductive argument :=
  | ArgView (s : bytes)              (* std::string_view *)
  | ArgArray (s : bytes)             (* char[N] *)
  | ArgPointer (s : option bytes)    (* char*; None is the null pointer *)
  | ArgOther (a : A).

Inductive owned :=
  | OwnedString (s : bytes)
  | OwnedOther (a : A).

Definition own (value : argument) : owned :=
  match value with
  | ArgView s => OwnedString s
  | ArgArray s => OwnedString s
  | ArgPointer (Some s) => OwnedString s
  | ArgPointer None => OwnedString []
  | ArgOther a => OwnedOther a
  end.

(** [log_message_impl]: the two lazily computed members are [None] until
    their [call_once] has run. *)
Record log_message := LogMessage {
  m_timestamp : Z;                        (* nanoseconds since the epoch *)
  m_exception : option exception_info;
  m_format : bytes;
  m_location : source_location;
  m_level : log_level;
  m_args : list owned;
  m_formatted_message : option bytes;
  m_formatted_args : option (list bytes)
}.

(** The constructor; [now] is [system_clock::now()]. *)
Definition make_message (now : Z) (ex : option exception_info) (location : source_location)
    (level : log_level) (format : bytes) (args : list argument) : log_message :=
  LogMessage now ex format location level (map own args) None None.

Definition has_exception (msg : log_message) : bool :=
  match m_exception msg with Some _ => true | None => false end.

(** [std::vformat_to] and [std::format("{}", arg)]. *)
Context (vformat : bytes -> list owned -> bytes + bytes) (format_arg_of : owned -> bytes).

(** What the first call of [get_formatted_message] computes: [inr what] is
    the exception [std::vformat_to] throws.  The text written before the
    exception is replaced. *)
Definition compute_formatted_message (msg : log_message) : bytes :=
  match vformat (m_format msg) (m_args msg) with
  | inl s => s
  | inr what => format "Error formatting message: {} -> format=`{}`" [Str what; Str (m_format msg)]
  end.

Definition get_formatted_message (msg : log_message) : bytes * log_message :=
  match m_formatted_message msg with
  | Some s => (s, msg)
  | None =>
      let s := compute_formatted_message msg in
      (s, LogMessage (m_timestamp msg) (m_exception msg) (m_format msg) (m_location msg) (m_level msg)
            (m_args msg) (Some s) (m_formatted_args msg))
  end.

Definition get_formatted_args (msg : log_message) : list bytes * log_message :=
  match m_formatted_args msg with
  | Some l => (l, msg)
  | None =>
      let l := map format_arg_of (m_args msg) in
      (l, LogMessage (m_timestamp msg) (m_exception msg) (m_format msg) (m_location msg) (m_level msg)
            (m_args msg) (m_formatted_message msg) (Some l))
  end.

(** [localtime_r] and [gmtime_r]; [None] is the null pointer. *)
Context (localtime gmtime : Z -> option tm).

(** [get_timestamp]: date and time, microseconds, zone.  [to_time_t] and
    [duration_cast] round towards zero, [%] is the C++ remainder. *)
Definition get_timestamp (msg : log_message) (use_local_time : bool) : bytes * Z * bytes :=
  let time := Z.quot (m_timestamp msg) 1000000000 in
  let t := default empty_tm (if use_local_time then localtime time else gmtime time) in
  let microseconds := Z.rem (Z.quot (m_timestamp msg) 1000) 1000000 in
  let tz :=
    if use_local_time then
      let tz := strftime_zone t in
      if len tz =? 5 then take 3 tz ++ x3a :: drop 3 tz else tz
    else text "Z" in
  (strftime_datetime t, microseconds, tz).

(** A message is consistent when what it cached is what it would compute. *)
Record message_ok (msg : log_message) : Prop := {
  ok_formatted : forall s, m_formatted_message msg = Some s -> s = compute_formatted_message msg;
  ok_args : forall l, m_formatted_args msg = Some l -> l = map format_arg_of (m_args msg)
}.

(** The members no lazy computation touches. *)
Definition same_message (msg msg' : log_message) : Prop :=
  m_timestamp msg' = m_timestamp msg /\ m_exception msg' = m_exception msg /\ m_format msg' = m_format msg /\
  m_location msg' = m_location msg /\ m_level msg' = m_level msg /\ m_args msg' = m_args msg.

Lemma get_formatted_message_ok msg :
  message_ok msg ->
  (get_formatted_message msg).1 = compute_formatted_message msg /\
  message_ok (get_formatted_message msg).2 /\ same_message msg (get_formatted_message msg).2.
Proof.
  intros [Hf Ha]. unfold get_formatted_message. destruct (m_formatted_message msg) as [s|] eqn:E; simpl.
  - split_and!; [by apply Hf|by split; [rewrite E|]|done].
  - split_and!; [done| |done]. split; simpl; [by intros s [= <-]|done].
Qed.

Lemma get_formatted_args_ok msg :
  message_ok msg ->
  (get_formatted_args msg).1 = map format_arg_of (m_args msg) /\
  message_ok (get_formatted_args msg).2 /\ same_message msg (get_formatted_args msg).2.
Proof.
  intros [Hf Ha]. unfold get_formatted_args. destruct (m_formatted_args msg) as [l|] eqn:E; simpl.
  - split_and!; [by apply Ha|by split; [|rewrite E]|done].
  - split_and!; [done| |done]. split; simpl; [done|by intros l [= <-]].
Qed.

Lemma make_message_ok now ex location level fmt args : message_ok (make_message now ex location level fmt args).
Proof. by split. Qed.
End arguments.

Arguments argument : clear implicits.
Arguments owned : clear implicits.
Arguments log_message : clear implicits.
