(* ===== verification/Sinks.v ===== *)
(** The options and the text sinks of the logger: [logging/sinks/sinks_opts.h],
    [log_sink.h] and [file_sink.h].  The kernel is the list of its answers
    (System.v); the file system a sink opens its file on is a parameter. *)

From S2P Require Import Prelude Text System LogMessage.
Import log_level.

(** ** [sinks_opts.h] *)

Definition has_non_whitespace (value : bytes) : bool := existsb (fun ch => negb (isspace ch)) value.

Definition validate_required_string (name : string) (value : bytes) : outcome unit :=
  if len value =? 0 then throw invalid_argument (name +:+ " cannot be empty")
  else if negb (has_non_whitespace value) then
    throw invalid_argument (name +:+ " cannot be empty or whitespace")
  else Ret tt.

Definition validate_optional_non_whitespace_string (name : string) (value : bytes) : outcome unit :=
  if len value =? 0 then Ret tt
  else if negb (has_non_whitespace value) then
    throw invalid_argument (name +:+ " cannot be empty or whitespace")
  else Ret tt.

Definition STDOUT_FILENO : Z := 1.

Record log_sink_opts := SinkOpts {
  so_min_log_level : log_level;
  so_fd : Z;
  so_use_local_time : bool;
  so_use_structured_log : bool;
  so_use_colors : bool;
  so_flush_on_write : bool
}.

Definition default_sink_opts : log_sink_opts := SinkOpts information STDOUT_FILENO true false true true.

(** [log_sink_opts::validate()] is empty. *)
Definition validate_sink_opts (opts : log_sink_opts) : outcome unit := Ret tt.

Record file_sink_opts := FileOpts {
  fo_min_log_level : log_level;
  fo_file_path : bytes;
  fo_use_local_time : bool;
  fo_flush_on_write : bool
}.

Definition validate_file_opts (opts : file_sink_opts) : outcome unit :=
  validate_required_string "file_path" (fo_file_path opts).

Record otel_sink_opts := OtelOpts {
  oo_min_log_level : log_level;
  oo_endpoint : bytes;
  oo_auth_token : bytes;
  oo_service_namespace : bytes;
  oo_service_name : bytes;
  oo_service_version : bytes;
  oo_service_instance_id : bytes;
  oo_environment_name : bytes;
  oo_batch_size : Z;
  oo_use_local_time : bool
}.

Definition validate_otel_opts (opts : otel_sink_opts) : outcome unit :=
  _ ← validate_required_string "endpoint" (oo_endpoint opts);
  _ ← validate_required_string "service_namespace" (oo_service_namespace opts);
  _ ← validate_required_string "service_name" (oo_service_name opts);
  _ ← validate_required_string "service_version" (oo_service_version opts);
  _ ← validate_required_string "service_instance_id" (oo_service_instance_id opts);
  _ ← validate_required_string "environment_name" (oo_environment_name opts);
  _ ← validate_optional_non_whitespace_string "auth_token" (oo_auth_token opts);
  if oo_batch_size opts =? 0 then throw invalid_argument "batch_size must be greater than zero"
  else Ret tt.

(** ** [log_sink.h] *)

Record log_sink := Sink {
  sk_opts : log_sink_opts;
  sk_min_log_level : log_level;
  sk_use_local_time : bool;
  sk_use_colors : bool;
  sk_flush_on_write : bool;
  sk_own_channel : bool;
  sk_fd : Z
}.

Definition make_sink (opts : log_sink_opts) (own_channel : bool) : outcome log_sink :=
  _ ← validate_sink_opts opts;
  Ret (Sink opts (so_min_log_level opts) (so_use_local_time opts) (so_use_colors opts)
         (so_flush_on_write opts) own_channel (so_fd opts)).

Definition plain_level_string (l : log_level) : bytes :=
  text match l with
       | trace => "TRACE" | debug => "DEBUG" | information => "INFO."
       | warning => "WARN." | error => "ERROR" | critical => "FATAL"
       end.

(** The escape character is written out. *)
Definition colored_level_string (l : log_level) : bytes :=
  x1b :: text match l with
              | trace => "[90m" | debug => "[36m" | information => "[32m"
              | warning => "[33m" | error => "[31m" | critical => "[35m"
              end ++ plain_level_string l ++ x1b :: text "[0m".

(** [write_to_output]: the loop over [::write].  The bytes the kernel took,
    whether everything was written, and the answers left. *)
Fixpoint write_loop (data : bytes) (offset : Z) (answers : list sys_result)
    : bytes * loop_state bool * list sys_result :=
  if negb (offset <? len data) then ([], LoopDone true, answers)
  else
    match answers with
    | [] => ([], LoopBlocked, [])
    | SysErr EINTR :: answers => write_loop data offset answers
    | SysErr _ :: answers => ([], LoopDone false, answers)
    | SysOk written :: answers =>
        let '(out, st, unused) := write_loop data (offset +! written) answers in
        (substr data (Z.to_nat offset) (Z.to_nat written) ++ out, st, unused)
    end.

(** The last component tells whether [::fsync] is called. *)
Definition write_to_output (flush_on_write : bool) (data : bytes) (answers : list sys_result)
    : bytes * loop_state bool * bool :=
  let '(out, st, _) := write_loop data 0 answers in
  (out, st, match st with LoopDone true => flush_on_write | _ => false end).

Section sink.
Context {A : Type}.
Context (vformat : bytes -> list (owned A) -> bytes + bytes).
Context (localtime gmtime : Z -> option tm).
Implicit Types msg : log_message A.

(** The line [write_message_log] hands to [write_to_output], and the message
    with its text cached. *)
Definition message_line (s : log_sink) msg : bytes * log_message A :=
  let '(fmtd_dt_tm, us, tz) := get_timestamp localtime gmtime msg (sk_use_local_time s) in
  let level_str :=
    if sk_use_colors s then colored_level_string (m_level msg) else plain_level_string (m_level msg) in
  let location := m_location msg in
  let '(formatted, msg) := get_formatted_message vformat msg in
  match m_exception msg with
  | Some ex_info =>
      (format "[{}.{:06}{}] {} <{}:{}> {}
    -> [Exception] {}: {}
" [Str fmtd_dt_tm; Int us; Str tz; Str level_str; Str (file_name location); Int (line location);
   Str formatted; Str (ex_type ex_info); Str (ex_message ex_info)], msg)
  | None =>
      (format "[{}.{:06}{}] {} <{}:{}> {}
" [Str fmtd_dt_tm; Int us; Str tz; Str level_str; Str (file_name location); Int (line location);
   Str formatted], msg)
  end.

Definition write_message_log (s : log_sink) msg (answers : list sys_result)
    : log_message A * (bytes * loop_state bool * bool) :=
  let '(l, msg) := message_line s msg in
  (msg, write_to_output (sk_flush_on_write s) l answers).

(** [write]: [None] when the message is below the sink's level. *)
Definition sink_write (s : log_sink) msg (answers : list sys_result)
    : log_message A * option (bytes * loop_state bool * bool) :=
  if level_ltb (m_level msg) (sk_min_log_level s) then (msg, None)
  else let '(msg, r) := write_message_log s msg answers in (msg, Some r).
End sink.

(** ** [file_sink.h] *)

Record file_sink := FileSink { fs_sink : log_sink; fs_file_path : bytes }.

(** What [open_file] asks the system for, and what destruction asks. *)
Inductive file_call :=
  | CreateDirectories (path : bytes)
  | OpenTruncate (path : bytes)
  | Close (fd : Z).

(** [std::filesystem::path::parent_path()] of a path with '/' separators. *)
Fixpoint last_slash (path : bytes) : option nat :=
  match path with
  | [] => None
  | c :: rest =>
      match last_slash rest with
      | Some i => Some (S i)
      | None => if bool_decide (c = x2f) then Some O else None
      end
  end.
Definition parent_path (path : bytes) : bytes :=
  match last_slash path with
  | None => []
  | Some O => text "/"
  | Some i =>
      (* the separators before the file name are not part of the parent *)
      match find_last_not (fun c => bool_decide (c = x2f)) (take i path) with
      | None => text "/"
      | Some j => take (S j) path
      end
  end.

Section file.
(** [std::filesystem::exists], [create_directories] and [::open]. *)
Context (exists_path : bytes -> bool) (create_directories : bytes -> outcome unit) (open : bytes -> Z).

Definition open_file (s : file_sink) : outcome (file_sink * list file_call) :=
  let parent := parent_path (fs_file_path s) in
  calls ← (if negb (len parent =? 0) && negb (exists_path parent) then
             _ ← create_directories parent; Ret [CreateDirectories parent]
           else Ret []);
  let fd := open (fs_file_path s) in
  if fd <? 0 then throw runtime_error ("failed to open log file: " +:+ String.string_of_list_byte (fs_file_path s))
  else
    let k := fs_sink s in
    Ret (FileSink (Sink (sk_opts k) (sk_min_log_level k) (sk_use_local_time k) (sk_use_colors k)
                     (sk_flush_on_write k) (sk_own_channel k) fd) (fs_file_path s),
         calls ++ [OpenTruncate (fs_file_path s)]).

Definition make_file_sink (opts : file_sink_opts) : outcome (file_sink * list file_call) :=
  base ← make_sink (SinkOpts (fo_min_log_level opts) STDOUT_FILENO (fo_use_local_time opts) false false
                      (fo_flush_on_write opts)) false;
  _ ← validate_file_opts opts;
  open_file (FileSink base (fo_file_path opts)).

Definition destroy_file_sink (s : file_sink) : list file_call :=
  if sk_fd (fs_sink s) >=? 0 then [Close (sk_fd (fs_sink s))] else [].

(** The defaulted move constructor: the new sink and the one moved from.  The
    base class is copied, the descriptor with it. *)
Definition move_file_sink (s : file_sink) : file_sink * file_sink :=
  (s, FileSink (fs_sink s) []).
End file.

(** ** Lemmas *)

Lemma write_loop_spec data offset answers :
  0 <= offset <= len data -> len data < size_modulus -> answers_within (len data - offset) answers ->
  let '(out, st, _) := write_loop data offset answers in
  out `prefix_of` drop (Z.to_nat offset) data /\
  (st = LoopDone true -> out = drop (Z.to_nat offset) data) /\
  (Forall (fun r => retried r = true) answers -> taken_total answers = len data - offset ->
    st = LoopDone true).
Proof.
  intros Ho Hs. revert offset Ho. induction answers as [|r answers IH]; intros o Ho Ha.
  - simpl. destruct (Z.ltb_spec o (len data)); simpl; split_and!; try (done || apply prefix_nil).
    + lia.
    + intros _. rewrite drop_ge; [done|]. unfold len in *. lia.
  - assert (Hdone : ~ o < len data -> drop (Z.to_nat o) data = []) by (intros; apply drop_ge; unfold len in *; lia).
    cbn [write_loop]. destruct (Z.ltb_spec o (len data)) as [Hlt|Hge]; simpl negb; cbn match;
      [|rewrite Hdone by lia; by split_and!].
    destruct r as [n|e]; simpl in Ha.
    + destruct Ha as [Hn Ha]. unwrap. replace (len data - o - n) with (len data - (o + n)) in Ha by lia.
      specialize (IH (o + n) ltac:(lia) Ha). destruct (write_loop data (o + n) answers) as [[out st] rest].
      destruct IH as (Hp & Hd & Hl). unfold substr.
      assert (drop (Z.to_nat o) data = take (Z.to_nat n) (drop (Z.to_nat o) data) ++ drop (Z.to_nat (o + n)) data) as E.
      { rewrite <- (take_drop (Z.to_nat n) (drop (Z.to_nat o) data)) at 1. rewrite drop_drop.
        do 2 f_equal. lia. }
      split_and!.
      * rewrite E at 2. by apply prefix_app.
      * intros Est. rewrite E at 2. by rewrite Hd.
      * intros [Hr Hrs]%Forall_cons. simpl in *. intros Hc. apply Hl; [done|lia].
    + destruct e; cbn.
      * specialize (IH o Ho Ha). destruct (write_loop data o answers) as [[out st] rest].
        destruct IH as (Hp & Hd & Hl). split_and!; [done..|]. intros [_ Hr]%Forall_cons. by apply Hl.
      * split_and!; [apply prefix_nil|done|]. by intros [? _]%Forall_cons.
      * split_and!; [apply prefix_nil|done|]. by intros [? _]%Forall_cons.
Qed.

Lemma write_to_output_spec flush data answers
    (Hlen : len data < size_modulus) (Hkernel : answers_within (len data) answers) :
  let '(out, st, synced) := write_to_output flush data answers in
  out `prefix_of` data /\
  (st = LoopDone true -> out = data) /\
  (synced = true <-> flush = true /\ st = LoopDone true) /\
  (Forall (fun r => retried r = true) answers -> taken_total answers = len data -> st = LoopDone true).
Proof.
  unfold write_to_output. pose proof (len_nonneg data).
  pose proof (write_loop_spec data 0 answers ltac:(lia) Hlen) as Hw. rewrite Z.sub_0_r in Hw.
  specialize (Hw Hkernel). destruct (write_loop data 0 answers) as [[out st] rest].
  change (drop (Z.to_nat 0) data) with data in Hw. destruct Hw as (? & ? & ?).
  split_and!; [done..| |done].
  destruct st as [[]|]; split; intros; destruct_and?; simplify_eq; done.
Qed.

(** ** Properties *)

(** [write_to_output] hands the line to the kernel exactly once and in
    order, whatever partial writes and interruptions happen: what was taken
    is a prefix of the line, all of it when the loop ends normally, and only
    then is the file synced; and the loop ends normally once the kernel has
    taken as many bytes as the line has, in whatever pieces. *)
Theorem write_to_output_correct flush data answers
    (Hlen : len data < size_modulus) (Hkernel : answers_within (len data) answers) :
  let '(out, st, synced) := write_to_output flush data answers in
  out `prefix_of` data /\
  (st = LoopDone true -> out = data) /\
  (synced = true <-> flush = true /\ st = LoopDone true) /\
  (Forall (fun r => retried r = true) answers -> taken_total answers = len data -> st = LoopDone true).
Proof. by apply write_to_output_spec. Qed.

Lemma write_to_output_correct_witness :
  let '(out, st, synced) := write_to_output true (text "hello") [SysOk 2; SysErr EINTR; SysOk 3] in
  out = text "hello" /\ st = LoopDone true /\ synced = true.
Proof.
  pose proof (write_to_output_correct true (text "hello") [SysOk 2; SysErr EINTR; SysOk 3]
    ltac:(done) ltac:(by vm_compute; split_and!)) as H.
  vm_compute in H |- *. by destruct H as (_ & H & _).
Defined.
