(* ===== verification/Json.v ===== *)
(** JSON (RFC 8259) as the specification of the OpenTelemetry serializer:
    values, a compact printer and a parser.  The parser accepts a subset of
    the grammar (no insignificant white space, integers only, escapes up to
    U+007F) and reads bytes: what it accepts is JSON when it is also UTF-8
    (Utf8.v).  [parse_print] shows that it reads every printed value back. *)

From S2P Require Import Prelude Text.

#[local] Unset Elimination Schemes.
Inductive json :=
  | JString (s : bytes)
  | JNumber (n : Z)
  | JArray (l : list json)
  | JObject (l : list (bytes * json)).
#[local] Set Elimination Schemes.

(** ** Reading *)

Definition hex_value (b : byte) : option Z :=
  if isdigit b then Some (code b - 48)
  else if (97 <=? code b) && (code b <=? 102) then Some (code b - 87)
  else if (65 <=? code b) && (code b <=? 70) then Some (code b - 55)
  else None.

Definition hex4 (a b c d : byte) : option Z :=
  a ← hex_value a; b ← hex_value b; c ← hex_value c; d ← hex_value d;
  Some (((a * 16 + b) * 16 + c) * 16 + d).

Definition simple_escape (b : byte) : option byte :=
  match b with
  | x22 => Some x22 | x5c => Some x5c | x2f => Some x2f
  | x62 => Some x08 | x66 => Some x0c | x6e => Some x0a | x72 => Some x0d | x74 => Some x09
  | _ => None
  end.

Definition push_char (c : byte) (r : option (bytes * bytes)) : option (bytes * bytes) :=
  '(s, rest) ← r; Some (c :: s, rest).

(** [c], then the rest. *)
Definition expect (c : byte) (l : bytes) : option bytes :=
  match l with
  | x :: rest => if Byte.eqb x c then Some rest else None
  | [] => None
  end.

(** The characters of a string after its opening quote, and what follows the
    closing one. *)
Fixpoint scan_string (l : bytes) : option (bytes * bytes) :=
  match l with
  | [] => None
  | c :: rest =>
      if Byte.eqb c x22 then Some ([], rest)
      else if Byte.eqb c x5c then
        match rest with
        | [] => None
        | e :: rest1 =>
            if Byte.eqb e x75 then
              match rest1 with
              | h1 :: h2 :: h3 :: h4 :: rest2 =>
                  match hex4 h1 h2 h3 h4 with
                  | Some n => if n <? 128 then push_char (char_of n) (scan_string rest2) else None
                  | None => None
                  end
              | _ => None
              end
            else
              match simple_escape e with
              | Some x => push_char x (scan_string rest1)
              | None => None
              end
        end
      else if code c <? 32 then None
      else push_char c (scan_string rest)
  end.

Definition leading_zero (ds : bytes) : bool :=
  match ds with c :: _ :: _ => Byte.eqb c x30 | _ => false end.

Definition scan_digits (sign : Z) (l : bytes) : option (json * bytes) :=
  let ds := take_digits l in
  if (len ds =? 0) || leading_zero ds then None
  else Some (JNumber (sign * decimal_value ds 0), drop (length ds) l).

Definition scan_number (l : bytes) : option (json * bytes) :=
  match expect x2d l with
  | Some rest => scan_digits (-1) rest
  | None => scan_digits 1 l
  end.

Fixpoint parse_value (fuel : nat) (l : bytes) : option (json * bytes) :=
  match fuel, l with
  | S fuel, c :: rest =>
      if Byte.eqb c x22 then '(s, rest) ← scan_string rest; Some (JString s, rest)
      else if Byte.eqb c x7b then
        match expect x7d rest with
        | Some rest => Some (JObject [], rest)
        | None => '(ms, rest) ← parse_members fuel rest; Some (JObject ms, rest)
        end
      else if Byte.eqb c x5b then
        match expect x5d rest with
        | Some rest => Some (JArray [], rest)
        | None => '(vs, rest) ← parse_elements fuel rest; Some (JArray vs, rest)
        end
      else scan_number l
  | _, _ => None
  end
with parse_members (fuel : nat) (l : bytes) : option (list (bytes * json) * bytes) :=
  match fuel with
  | O => None
  | S fuel =>
      rest ← expect x22 l;
      '(k, rest) ← scan_string rest;
      rest ← expect x3a rest;
      '(v, rest) ← parse_value fuel rest;
      match expect x2c rest with
      | Some rest => '(ms, rest) ← parse_members fuel rest; Some ((k, v) :: ms, rest)
      | None => rest ← expect x7d rest; Some ([(k, v)], rest)
      end
  end
with parse_elements (fuel : nat) (l : bytes) : option (list json * bytes) :=
  match fuel with
  | O => None
  | S fuel =>
      '(v, rest) ← parse_value fuel l;
      match expect x2c rest with
      | Some rest => '(vs, rest) ← parse_elements fuel rest; Some (v :: vs, rest)
      | None => rest ← expect x5d rest; Some ([v], rest)
      end
  end.

(** A whole document. *)
Definition parse_json (l : bytes) : option json :=
  match parse_value (S (length l)) l with
  | Some (v, []) => Some v
  | _ => None
  end.

(** ** Writing *)

Section printing.
(** How a string is escaped; the laws are those [scan_string] needs. *)
Context (escape : bytes -> bytes).

Definition quote (s : bytes) : bytes := x22 :: escape s ++ [x22].

Fixpoint print (j : json) : bytes :=
  match j with
  | JString s => quote s
  | JNumber n => to_decimal n
  | JArray l => x5b :: join_with x2c (map print l) ++ [x5d]
  | JObject l =>
      x7b :: join_with x2c (map (fun '(k, v) => quote k ++ x3a :: print v) l) ++ [x7d]
  end.
End printing.

(** Nesting-and-length measure: enough fuel to read the value back. *)
Fixpoint weight (j : json) : nat :=
  match j with
  | JString _ | JNumber _ => 1
  | JArray l => S (foldr (fun v n => S (weight v + n))%nat O l)
  | JObject l => S (foldr (fun '(_, v) n => S (weight v + n))%nat O l)
  end.

(** ** The parser reads printed values back *)

Lemma json_ind (P : json -> Prop) :
  (forall s, P (JString s)) -> (forall n, P (JNumber n)) ->
  (forall l, Forall P l -> P (JArray l)) ->
  (forall l, Forall (fun kv => P kv.2) l -> P (JObject l)) -> forall j, P j.
Proof.
  intros Hs Hn Ha Ho. fix IH 1. intros [s|n|l|l].
  - apply Hs.
  - apply Hn.
  - apply Ha. induction l as [|v l IHl]; constructor; [apply IH|exact IHl].
  - apply Ho. induction l as [|[k v] l IHl]; constructor; [apply IH|exact IHl].
Qed.

(** What may follow a value: not a digit, which would extend a number. *)
Definition ends_value (rest : bytes) : Prop :=
  match rest with c :: _ => isdigit c = false | [] => True end.

Lemma take_digits_ends rest : ends_value rest -> take_digits rest = [].
Proof. destruct rest as [|c rest]; [done|]. simpl. by intros ->. Qed.

Lemma to_decimal_cases n :
  0 <= n ->
  to_decimal n = [x30] /\ n = 0 \/ exists c ds, to_decimal n = c :: ds /\ c ≠ x30 /\ isdigit c = true.
Proof.
  intros Hn. destruct (decide (n = 0)) as [->|Hz]; [by left|]. right.
  destruct (to_decimal_spec n Hn) as (Hne & Hall & _ & Hh). destruct (to_decimal n) as [|c ds]; [done|].
  exists c, ds. apply Forall_cons in Hall as [? _]. specialize (Hh Hz). simpl in Hh. by split_and!; [|congruence|].
Qed.

Lemma expect_same c rest : expect c (c :: rest) = Some rest.
Proof. unfold expect. by rewrite Byte.byte_dec_lb. Qed.

Lemma scan_digits_print sign n rest :
  0 <= n -> ends_value rest -> scan_digits sign (to_decimal n ++ rest) = Some (JNumber (sign * n), rest).
Proof.
  intros Hn Hr. destruct (to_decimal_spec n Hn) as (Hne & Hall & Hv & _). unfold scan_digits.
  rewrite take_digits_app, take_digits_ends, app_nil_r, drop_app_length, Hv by done.
  destruct (Z.eqb_spec (len (to_decimal n)) 0) as [E|_]; [by apply len_nil_iff in E|].
  assert (leading_zero (to_decimal n) = false) as ->; [|done].
  destruct (to_decimal_cases n Hn) as [[-> _]|(c & ds & -> & Hc & _)]; [done|].
  destruct ds; [done|]. simpl. destruct (Byte.eqb c x30) eqn:E; [|done].
  by apply Byte.byte_dec_bl in E.
Qed.

Lemma digit_not_minus c : isdigit c = true -> Byte.eqb c x2d = false.
Proof. by destruct c. Qed.

Lemma expect_minus n rest : 0 <= n -> expect x2d (to_decimal n ++ rest) = None.
Proof.
  intros Hn. destruct (to_decimal_cases n Hn) as [[-> _]|(c & ds & -> & _ & Hc)]; [done|].
  simpl. by rewrite digit_not_minus.
Qed.

Lemma to_decimal_neg n : n < 0 -> to_decimal n = x2d :: to_decimal (- n).
Proof.
  intros Hn. unfold to_decimal. destruct (Z.ltb_spec n 0); [|lia]. by destruct (Z.ltb_spec (- n) 0); [lia|].
Qed.

Lemma scan_number_print n rest :
  ends_value rest -> scan_number (to_decimal n ++ rest) = Some (JNumber n, rest).
Proof.
  intros Hr. unfold scan_number. destruct (Z.lt_ge_cases n 0) as [Hn|Hn].
  - rewrite to_decimal_neg by done. simpl. rewrite scan_digits_print by (done || lia). do 3 f_equal. lia.
  - rewrite expect_minus, scan_digits_print by done. do 3 f_equal. lia.
Qed.

(** The first character of a number. *)
Lemma to_decimal_head n : exists c ds, to_decimal n = c :: ds /\
  Byte.eqb c x22 = false /\ Byte.eqb c x7b = false /\ Byte.eqb c x5b = false /\ c ≠ x5d.
Proof.
  destruct (Z.lt_ge_cases n 0) as [Hn|Hn]; [rewrite to_decimal_neg by done; by eexists _, _|].
  destruct (to_decimal_cases n Hn) as [[-> _]|(c & ds & -> & _ & Hc)]; [by eexists _, _|].
  exists c, ds. by destruct c.
Qed.

Section roundtrip.
Context (escape : bytes -> bytes).
Hypothesis escape_scan : forall s rest, scan_string (escape s ++ x22 :: rest) = Some (s, rest).
#[local] Abbreviation print := (print escape).
#[local] Abbreviation quote := (quote escape).

Lemma scan_quote s rest : quote s ++ rest = x22 :: (escape s ++ x22 :: rest).
Proof. unfold quote. cbn. by rewrite <- app_assoc. Qed.

Lemma parse_number fuel n rest :
  ends_value rest -> parse_value (S fuel) (to_decimal n ++ rest) = Some (JNumber n, rest).
Proof.
  intros Hr. rewrite <- (scan_number_print n rest Hr).
  destruct (to_decimal_head n) as (c & ds & -> & E1 & E2 & E3 & _). simpl. by rewrite E1, E2, E3.
Qed.

(** What one element of an array or one member of an object needs. *)
Definition reads (j : json) : Prop :=
  forall fuel rest, (weight j <= fuel)%nat -> ends_value rest ->
    parse_value fuel (print j ++ rest) = Some (j, rest).

Lemma parse_elements_print l v fuel rest :
  Forall reads (v :: l) -> (foldr (fun v n => S (weight v + n)) O (v :: l) <= fuel)%nat ->
  parse_elements fuel (join_with x2c (map print (v :: l)) ++ x5d :: rest) = Some (v :: l, rest).
Proof.
  revert v fuel. induction l as [|w l IH]; intros v fuel [Hv Hl]%Forall_cons Hf; simpl in Hf;
    (destruct fuel as [|fuel]; [lia|]).
  - cbn. rewrite (Hv fuel (x5d :: rest)) by (lia || done). done.
  - change (join_with x2c (map print (v :: w :: l)))
      with (print v ++ x2c :: join_with x2c (map print (w :: l))).
    rewrite <- app_assoc. cbn [parse_elements app].
    rewrite (Hv fuel) by (lia || done). cbn [mbind option_bind].
    rewrite expect_same, IH by (done || simpl; lia). done.
Qed.

Lemma parse_members_print l k v fuel rest :
  Forall (fun kv => reads kv.2) ((k, v) :: l) ->
  (foldr (fun '(_, v) n => S (weight v + n)) O ((k, v) :: l) <= fuel)%nat ->
  parse_members fuel (join_with x2c (map (fun '(k, v) => quote k ++ x3a :: print v) ((k, v) :: l)) ++ x7d :: rest)
  = Some ((k, v) :: l, rest).
Proof.
  revert k v fuel. induction l as [|[k' v'] l IH]; intros k v fuel [Hv Hl]%Forall_cons Hf; simpl in Hf, Hv;
    (destruct fuel as [|fuel]; [lia|]).
  - cbn [map join_with]. rewrite <- app_assoc, scan_quote. cbn [parse_members app].
    rewrite expect_same. cbn [mbind option_bind]. rewrite escape_scan. cbn [mbind option_bind].
    rewrite expect_same. cbn [mbind option_bind]. rewrite (Hv fuel) by (lia || done). done.
  - change (join_with x2c (map (fun '(k, v) => quote k ++ x3a :: print v) ((k, v) :: (k', v') :: l)))
      with ((quote k ++ x3a :: print v) ++
            x2c :: join_with x2c (map (fun '(k, v) => quote k ++ x3a :: print v) ((k', v') :: l))).
    rewrite <- !app_assoc, scan_quote. cbn [parse_members app].
    rewrite expect_same. cbn [mbind option_bind]. rewrite escape_scan. cbn [mbind option_bind].
    rewrite expect_same. cbn [mbind option_bind]. rewrite (Hv fuel) by (lia || done).
    cbn [mbind option_bind]. rewrite expect_same, IH by (done || simpl; lia). done.
Qed.

(** No printed value starts with a closing bracket. *)
Lemma print_head j : exists c rest, print j = c :: rest /\ Byte.eqb c x5d = false.
Proof.
  destruct j as [s|n|l|l]; cbn; try by eexists _, _.
  destruct (to_decimal_head n) as (c & ds & -> & _ & _ & _ & Hc). exists c, ds. split; [done|].
  destruct (Byte.eqb c x5d) eqn:E; [|done]. by apply Byte.byte_dec_bl in E.
Qed.

Lemma join_head v l : exists c rest, join_with x2c (map print (v :: l)) = c :: rest /\ Byte.eqb c x5d = false.
Proof.
  destruct (print_head v) as (c & t & Ec & Hc). destruct l as [|w l]; cbn [map join_with]; rewrite Ec.
  - by exists c, t.
  - by eexists c, _.
Qed.

Lemma join_members_head k v l : exists rest,
  join_with x2c (map (fun '(k, v) => quote k ++ x3a :: print v) ((k, v) :: l)) = x22 :: rest.
Proof. destruct l as [|[k' v'] l]; by eexists. Qed.

Lemma parse_print j : reads j.
Proof.
  induction j as [s|n|l Hl|l Hl] using json_ind; intros fuel rest Hf Hr; simpl in Hf;
    (destruct fuel as [|fuel]; [lia|]).
  - cbn [Json.print]. rewrite scan_quote. simpl. by rewrite escape_scan.
  - by apply parse_number.
  - destruct l as [|v l]; [done|]. cbn [Json.print app]. rewrite <- app_assoc. cbn [app].
    pose proof (parse_elements_print l v fuel rest Hl ltac:(simpl in *; lia)) as H.
    destruct (join_head v l) as (c & t & E & Hc). rewrite E in H |- *. cbn [app] in H |- *.
    simpl. rewrite Hc. by rewrite H.
  - destruct l as [|[k v] l]; [done|]. cbn [Json.print app]. rewrite <- app_assoc. cbn [app].
    pose proof (parse_members_print l k v fuel rest Hl ltac:(simpl in *; lia)) as H.
    destruct (join_members_head k v l) as (t & E). rewrite E in H |- *. cbn [app] in H |- *.
    simpl. by rewrite H.
Qed.

Lemma print_length j : (weight j <= length (print j))%nat.
Proof.
  induction j as [s|n|l Hl|l Hl] using json_ind; cbn [weight Json.print].
  - simpl. lia.
  - destruct (to_decimal_head n) as (c & t & -> & _). simpl. lia.
  - cbn [length]. rewrite length_app. cbn [length].
    assert (foldr (fun v n => S (weight v + n)) O l <= S (length (join_with x2c (map print l))))%nat; [|lia].
    induction Hl as [|v l Hv _ IH]; [simpl; lia|]. destruct l as [|w l]; simpl in *; [lia|].
    rewrite length_app. simpl. lia.
  - cbn [length]. rewrite length_app. cbn [length].
    assert (foldr (fun '(_, v) n => S (weight v + n)) O l
      <= S (length (join_with x2c (map (fun '(k, v) => quote k ++ x3a :: print v) l))))%nat; [|lia].
    induction Hl as [|[k v] l Hv _ IH]; [simpl; lia|]. cbn [snd] in Hv. cbn [foldr].
    destruct l as [|[k' v'] l]; [cbn [map join_with foldr]; rewrite !length_app; cbn [length]; lia|].
    change (join_with x2c (map (fun '(k, v) => quote k ++ x3a :: print v) ((k, v) :: (k', v') :: l)))
      with ((quote k ++ x3a :: print v) ++
            x2c :: join_with x2c (map (fun '(k, v) => quote k ++ x3a :: print v) ((k', v') :: l))).
    rewrite !length_app. cbn [length]. lia.
Qed.

Lemma parse_json_print j : parse_json (print j) = Some j.
Proof.
  unfold parse_json. pose proof (print_length j) as Hw.
  pose proof (parse_print j (S (length (print j))) [] ltac:(lia) I) as H. rewrite app_nil_r in H. by rewrite H.
Qed.
End roundtrip.
