(* ===== verification/Utf8.v ===== *)
(** UTF-8 (RFC 3629) as the specification of the serializer's encoding: JSON
    is exchanged in UTF-8 (RFC 8259, section 8.1), and Json.v looks only at
    bytes.  [utf8_valid] runs the automaton of the well-formed sequences; a
    printed JSON value is UTF-8 exactly when its strings and keys are. *)

From S2P Require Import Prelude Text Json.

(** What the automaton waits for: the start of a character, one to three
    continuation bytes, or a second byte of a restricted range (no overlong
    form, no surrogate, nothing above U+10FFFF). *)
Inductive utf8_state :=
  | Start
  | Tail1
  | Tail2
  | Tail3
  | AfterE0
  | AfterED
  | AfterF0
  | AfterF4
  | Invalid.

Definition between (lo hi : Z) (c : byte) : bool := (lo <=? code c) && (code c <=? hi).

Definition utf8_step (s : utf8_state) (c : byte) : utf8_state :=
  match s with
  | Start =>
      if code c <? 128 then Start
      else if between 194 223 c then Tail1
      else if code c =? 224 then AfterE0
      else if code c =? 237 then AfterED
      else if between 225 239 c then Tail2
      else if code c =? 240 then AfterF0
      else if between 241 243 c then Tail3
      else if code c =? 244 then AfterF4
      else Invalid
  | Tail1 => if between 128 191 c then Start else Invalid
  | Tail2 => if between 128 191 c then Tail1 else Invalid
  | Tail3 => if between 128 191 c then Tail2 else Invalid
  | AfterE0 => if between 160 191 c then Tail1 else Invalid
  | AfterED => if between 128 159 c then Tail1 else Invalid
  | AfterF0 => if between 144 191 c then Tail2 else Invalid
  | AfterF4 => if between 128 143 c then Tail2 else Invalid
  | Invalid => Invalid
  end.

Fixpoint utf8_run (s : utf8_state) (l : bytes) : utf8_state :=
  match l with
  | [] => s
  | c :: l => utf8_run (utf8_step s c) l
  end.

Definition utf8_valid (l : bytes) : bool :=
  match utf8_run Start l with Start => true | _ => false end.

(** Every string and key of a value. *)
Fixpoint json_utf8 (j : json) : bool :=
  match j with
  | JString s => utf8_valid s
  | JNumber _ => true
  | JArray l => forallb json_utf8 l
  | JObject l => forallb (fun '(k, v) => utf8_valid k && json_utf8 v) l
  end.

(** ** Lemmas *)

Lemma utf8_run_app s l k : utf8_run s (l ++ k) = utf8_run (utf8_run s l) k.
Proof. revert s. induction l as [|c l IH]; intros s; [done|]. apply IH. Qed.

Lemma utf8_run_invalid l : utf8_run Invalid l = Invalid.
Proof. by induction l. Qed.

Definition ascii_byte (c : byte) : bool := code c <? 128.

(** An ASCII character ends nothing but a whole character. *)
Lemma utf8_step_ascii s c :
  ascii_byte c = true -> utf8_step s c = match s with Start => Start | _ => Invalid end.
Proof. unfold ascii_byte. by destruct s, c. Qed.

(** Between two characters, [p] leads to the end of a character if [b], and
    to no valid text otherwise. *)
Definition encodes (p : bytes) (b : bool) : Prop :=
  forall rest, utf8_run Start (p ++ rest) = if b then utf8_run Start rest else Invalid.

Lemma encodes_app p q b c : encodes p b -> encodes q c -> encodes (p ++ q) (b && c).
Proof.
  intros Hp Hq rest. rewrite <- app_assoc, Hp. destruct b; [apply Hq|done].
Qed.

Lemma encodes_ascii l : Forall (fun c => ascii_byte c = true) l -> encodes l true.
Proof. intros Hl rest. induction Hl as [|c l Hc _ IH]; [done|]. cbn [app utf8_run]. by rewrite utf8_step_ascii. Qed.

Lemma encodes_cons c p b : ascii_byte c = true -> encodes p b -> encodes (c :: p) b.
Proof. intros Hc Hp. by apply (encodes_app [c] p true b); [apply encodes_ascii; by constructor|]. Qed.

Lemma encodes_valid p b : encodes p b -> utf8_valid p = b.
Proof. intros Hp. unfold utf8_valid. rewrite <- (app_nil_r p), Hp. by destruct b. Qed.

(** An ASCII tail changes nothing. *)
Lemma utf8_valid_app_ascii l c k : ascii_byte c = true -> encodes k true -> utf8_valid (l ++ c :: k) = utf8_valid l.
Proof.
  intros Hc Hk. unfold utf8_valid. rewrite utf8_run_app. cbn [utf8_run]. rewrite utf8_step_ascii by done.
  rewrite <- (app_nil_r k). destruct (utf8_run Start l); [by rewrite Hk|by rewrite utf8_run_invalid..].
Qed.

Lemma encodes_decimal n : encodes (to_decimal n) true.
Proof.
  assert (forall n, 0 <= n -> encodes (to_decimal n) true) as H.
  { intros k Hk. apply encodes_ascii. destruct (to_decimal_spec k Hk) as (_ & Hd & _).
    eapply Forall_impl; [exact Hd|]. intros c Hc. by destruct c. }
  destruct (Z.lt_ge_cases n 0); [|by apply H]. rewrite to_decimal_neg by done. apply encodes_cons; [done|]. apply H. lia.
Qed.

Lemma encodes_join (items : list (bytes * bool)) :
  Forall (fun x => encodes x.1 x.2) items -> encodes (join_with x2c (map fst items)) (forallb snd items).
Proof.
  induction 1 as [|[p b] l Hp Hl IH]; [by intros rest|]. destruct l as [|[q c] l].
  - cbn [map join_with forallb fst snd]. by rewrite andb_true_r.
  - change (encodes (p ++ x2c :: join_with x2c (map fst ((q, c) :: l))) (b && forallb snd ((q, c) :: l))).
    apply encodes_app; [exact Hp|]. by apply encodes_cons.
Qed.

Section printed.
Context (escape : bytes -> bytes).
Hypothesis escape_run : forall s v, utf8_run s (escape v) = utf8_run s v.

Lemma encodes_quote s : encodes (quote escape s) (utf8_valid s).
Proof.
  intros rest. unfold quote. cbn [app utf8_run]. rewrite utf8_step_ascii by done.
  rewrite <- app_assoc, utf8_run_app, escape_run. unfold utf8_valid.
  cbn [app utf8_run]. rewrite utf8_step_ascii by done. destruct (utf8_run Start s); (done || apply utf8_run_invalid).
Qed.

Lemma encodes_print j : encodes (print escape j) (json_utf8 j).
Proof.
  induction j as [s|n|l Hl|l Hl] using json_ind; cbn [print json_utf8].
  - apply encodes_quote.
  - apply encodes_decimal.
  - apply encodes_cons; [done|]. rewrite <- (andb_true_r (forallb _ _)). apply encodes_app; [|by apply encodes_ascii; constructor].
    pose proof (encodes_join (map (fun v => (print escape v, json_utf8 v)) l)) as H. rewrite map_map in H.
    assert (forallb snd (map (fun v => (print escape v, json_utf8 v)) l) = forallb json_utf8 l) as E.
    { clear. induction l as [|v l IH]; [done|]. cbn. by rewrite IH. }
    rewrite E in H. apply H. apply Forall_map. exact Hl.
  - apply encodes_cons; [done|]. rewrite <- (andb_true_r (forallb _ _)). apply encodes_app; [|by apply encodes_ascii; constructor].
    set (f := fun kv : bytes * json => (quote escape kv.1 ++ x3a :: print escape kv.2, utf8_valid kv.1 && json_utf8 kv.2)).
    pose proof (encodes_join (map f l)) as H. rewrite map_map in H.
    assert (map (fun x => (f x).1) l = map (fun '(k, v) => quote escape k ++ x3a :: print escape v) l) as E1.
    { apply map_ext. by intros [k v]. }
    assert (forallb snd (map f l) = forallb (fun '(k, v) => utf8_valid k && json_utf8 v) l) as E2.
    { clear. induction l as [|[k v] l IH]; [done|]. cbn in *. by rewrite IH. }
    rewrite E1, E2 in H. apply H. apply Forall_map. eapply Forall_impl; [exact Hl|]. intros [k v] Hv. cbn in *.
    apply encodes_app; [apply encodes_quote|by apply encodes_cons].
Qed.
End printed.
