(* ===== verification/OtelSerializer.v ===== *)
(** [logging/sinks/otel_serializer.h]: messages as OpenTelemetry log records.
    The properties relate the text to the JSON of Json.v: the escapes are read
    back, and a record is the printed form of [record_json].  JSON is also
    UTF-8, which the serializer does not check: by Utf8.v a record is UTF-8
    exactly when every text of its message is.

    A string literal here writes ' for the double quote ([quoted]). *)

From S2P Require Import Prelude Text LogMessage Json Utf8.
Import log_level.

Definition quoted (s : string) : bytes := map (fun c => if Byte.eqb c x27 then x22 else c) (text s).
Definition format_quoted (fmt : string) (args : list format_arg) : bytes := format_loop (quoted fmt) args None.

Definition severity_text (l : log_level) : bytes :=
  text match l with
       | trace => "TRACE" | debug => "DEBUG" | information => "INFO"
       | warning => "WARN" | error => "ERROR" | critical => "FATAL"
       end.

(** The body of the loop of [escape_json]. *)
Definition escape_char (c : byte) : bytes :=
  match c with
  | x22 => [x5c; x22]
  | x5c => [x5c; x5c]
  | x08 => text "\b"
  | x0c => text "\f"
  | x0a => text "\n"
  | x0d => text "\r"
  | x09 => text "\t"
  | _ => if code c <? 32 then format "\u{:04x}" [Int (code c)] else [c]
  end.

Fixpoint escape_json (value : bytes) : bytes :=
  match value with
  | [] => []
  | c :: value => escape_char c ++ escape_json value
  end.

(** The lambda [attribute]: the text so far and [first]. *)
Definition attribute (state : bytes * bool) (key value : bytes) : bytes * bool :=
  let '(json, first) := state in
  ((if first then json else json ++ text ",")
   ++ format_quoted "{{'key':'{}','value':{}}}" [Str key; Str value], false).

(** The loop over the arguments, from index [i] on. *)
Fixpoint arg_values (i : Z) (args : list bytes) (values : bytes) : bytes :=
  match args with
  | [] => values
  | a :: args =>
      let values := if i =? 0 then values else values ++ text "," in
      arg_values (i + 1) args
        (values ++ format_quoted "{{'key':'arg{}','value':{{'stringValue':'{}'}}}}" [Int i; Str (escape_json a)])
  end.

(** How [json] starts in [serialize_record]. *)
Definition record_prefix (time number : Z) (severity body : bytes) : bytes :=
  format_quoted
    "{{'timeUnixNano':'{}','severityNumber':{},'severityText':'{}','body':{{'stringValue':'{}'}},'attributes':["
    [Int time; Int number; Str severity; Str body].

Section serializer.
Context {A : Type}.
Context (vformat : bytes -> list (owned A) -> bytes + bytes) (format_arg_of : owned A -> bytes).
Implicit Types msg : log_message A.

Definition string_value (s : bytes) : bytes := format_quoted "{{'stringValue':'{}'}}" [Str s].

(** The record, and the message with its text and arguments cached. *)
Definition serialize_record msg : bytes * log_message A :=
  let level := level_index (m_level msg) in
  let '(formatted, msg) := get_formatted_message vformat msg in
  let json := record_prefix (m_timestamp msg) (1 + level * 4) (severity_text (m_level msg)) (escape_json formatted) in
  let st := attribute (json, true) (text "log.format") (string_value (escape_json (m_format msg))) in
  let '(args, msg) := get_formatted_args format_arg_of msg in
  let st :=
    if len args =? 0 then st
    else attribute st (text "log.args")
           (format_quoted "{{'kvlistValue':{{'values':[{}]}}}}" [Str (arg_values 0 args [])]) in
  let location := m_location msg in
  let st := attribute st (text "code.file.path")
              (format_quoted "{{'stringValue':'{}:{}'}}"
                 [Str (escape_json (file_name location)); Int (line location)]) in
  let st := attribute st (text "code.function.name") (string_value (escape_json (function_name location))) in
  let st :=
    match m_exception msg with
    | Some ex =>
        let st := attribute st (text "exception.type") (string_value (escape_json (ex_type ex))) in
        attribute st (text "exception.message") (string_value (escape_json (ex_message ex)))
    | None => st
    end in
  (st.1 ++ text "]}", msg).

(** ** The record as a JSON value *)

Definition string_json (s : bytes) : json := JObject [(text "stringValue", JString s)].
Definition attribute_json (key : bytes) (value : json) : json :=
  JObject [(text "key", JString key); (text "value", value)].

Fixpoint args_json (i : Z) (args : list bytes) : list json :=
  match args with
  | [] => []
  | a :: args => attribute_json (text "arg" ++ to_decimal i) (string_json a) :: args_json (i + 1) args
  end.

Definition attributes_json msg : list json :=
  attribute_json (text "log.format") (string_json (m_format msg))
  :: match m_args msg with
     | [] => []
     | args => [attribute_json (text "log.args")
                  (JObject [(text "kvlistValue",
                     JObject [(text "values", JArray (args_json 0 (map format_arg_of args)))])])]
     end
  ++ [attribute_json (text "code.file.path")
        (string_json (file_name (m_location msg) ++ text ":" ++ to_decimal (line (m_location msg))));
      attribute_json (text "code.function.name") (string_json (function_name (m_location msg)))]
  ++ match m_exception msg with
     | Some ex => [attribute_json (text "exception.type") (string_json (ex_type ex));
                   attribute_json (text "exception.message") (string_json (ex_message ex))]
     | None => []
     end.

Definition record_json msg : json :=
  JObject [(text "timeUnixNano", JString (to_decimal (m_timestamp msg)));
           (text "severityNumber", JNumber (1 + level_index (m_level msg) * 4));
           (text "severityText", JString (severity_text (m_level msg)));
           (text "body", string_json (compute_formatted_message vformat msg));
           (text "attributes", JArray (attributes_json msg))].
(** The texts of a message that reach its record. *)
Definition message_texts msg : list bytes :=
  [compute_formatted_message vformat msg; m_format msg]
  ++ map format_arg_of (m_args msg)
  ++ [file_name (m_location msg); function_name (m_location msg)]
  ++ match m_exception msg with Some ex => [ex_type ex; ex_message ex] | None => [] end.
End serializer.

(** ** Escaping *)

(** Escaping replaces ASCII characters by ASCII characters. *)
Lemma utf8_escape_char s c : utf8_run s (escape_char c) = utf8_step s c.
Proof. by destruct s, c. Qed.

Lemma utf8_escape_json s v : utf8_run s (escape_json v) = utf8_run s v.
Proof. revert s. induction v as [|c v IH]; intros s; [done|]. cbn. by rewrite utf8_run_app, utf8_escape_char, IH. Qed.

Lemma scan_escape_char c rest : scan_string (escape_char c ++ rest) = push_char c (scan_string rest).
Proof. by destruct c. Qed.

Lemma scan_escaped s rest : scan_string (escape_json s ++ x22 :: rest) = Some (s, rest).
Proof.
  induction s as [|c s IH]; [done|]. simpl. by rewrite <- app_assoc, scan_escape_char, IH.
Qed.

Lemma escape_json_app s t : escape_json (s ++ t) = escape_json s ++ escape_json t.
Proof. induction s as [|c s IH]; [done|]. simpl. by rewrite IH, app_assoc. Qed.

(** Characters that need no escape. *)
Definition plain (c : byte) : bool := negb (Byte.eqb c x22) && negb (Byte.eqb c x5c) && (32 <=? code c).

Lemma escape_plain s : Forall (fun c => plain c = true) s -> escape_json s = s.
Proof. induction 1 as [|c s Hc _ IH]; [done|]. simpl. rewrite IH. by destruct c. Qed.

Lemma plain_digit c : isdigit c = true -> plain c = true.
Proof. by destruct c. Qed.

Lemma escape_decimal n : escape_json (to_decimal n) = to_decimal n.
Proof.
  apply escape_plain. destruct (Z.lt_ge_cases n 0) as [Hn|Hn].
  - rewrite to_decimal_neg by done. constructor; [done|].
    destruct (to_decimal_spec (- n) ltac:(lia)) as (_ & H & _). by eapply Forall_impl, plain_digit.
  - destruct (to_decimal_spec n Hn) as (_ & H & _). by eapply Forall_impl, plain_digit.
Qed.

Lemma escape_json_bytes s :
  Forall (fun c => 32 <= code c) (escape_json s).
Proof.
  induction s as [|c s IH]; [constructor|]. simpl. apply Forall_app. split; [|done].
  destruct c; vm_compute; repeat constructor; discriminate.
Qed.

(** ** The printed record *)

#[local] Abbreviation print := (print escape_json).

(** The templates, as they are filled in. *)
Lemma format_attribute key value :
  format_quoted "{{'key':'{}','value':{}}}" [Str key; Str value] =
  quoted "{'key':'" ++ key ++ quoted "','value':" ++ value ++ quoted "}".
Proof. reflexivity. Qed.

Lemma string_value_eq s : string_value s = quoted "{'stringValue':'" ++ s ++ quoted "'}".
Proof. reflexivity. Qed.

Lemma format_arg i a :
  format_quoted "{{'key':'arg{}','value':{{'stringValue':'{}'}}}}" [Int i; Str a] =
  quoted "{'key':'arg" ++ to_decimal i ++ quoted "','value':{'stringValue':'" ++ a ++ quoted "'}}".
Proof. reflexivity. Qed.

Lemma format_kvlist values :
  format_quoted "{{'kvlistValue':{{'values':[{}]}}}}" [Str values] =
  quoted "{'kvlistValue':{'values':[" ++ values ++ quoted "]}}".
Proof. reflexivity. Qed.

Lemma format_file_path file line :
  format_quoted "{{'stringValue':'{}:{}'}}" [Str file; Int line] =
  quoted "{'stringValue':'" ++ file ++ text ":" ++ to_decimal line ++ quoted "'}".
Proof. reflexivity. Qed.

Lemma record_prefix_eq time number severity body :
  record_prefix time number severity body =
  quoted "{'timeUnixNano':'" ++ to_decimal time ++ quoted "','severityNumber':" ++ to_decimal number ++
  quoted ",'severityText':'" ++ severity ++ quoted "','body':{'stringValue':'" ++ body ++
  quoted "'},'attributes':[".
Proof. reflexivity. Qed.

#[local] Opaque format_quoted record_prefix string_value.

Lemma print_string s : print (string_json s) = string_value (escape_json s).
Proof. rewrite string_value_eq. cbn. by rewrite <- !app_assoc. Qed.

Lemma print_attribute key v :
  escape_json key = key ->
  print (attribute_json key v) = format_quoted "{{'key':'{}','value':{}}}" [Str key; Str (print v)].
Proof. intros E. rewrite format_attribute. cbn. rewrite E. by rewrite <- !app_assoc. Qed.

Lemma attribute_first base key v :
  escape_json key = key ->
  attribute (base, true) key (print v) = (base ++ join_with x2c [print (attribute_json key v)], false).
Proof. intros E. unfold attribute. rewrite print_attribute by done. reflexivity. Qed.

Lemma attribute_next base ls key v :
  escape_json key = key -> ls ≠ [] ->
  attribute (base ++ join_with x2c ls, false) key (print v) =
  (base ++ join_with x2c (ls ++ [print (attribute_json key v)]), false).
Proof.
  intros E Hls. unfold attribute. rewrite join_snoc, print_attribute by done.
  by rewrite <- !app_assoc.
Qed.

Lemma escape_arg_key i : escape_json (text "arg" ++ to_decimal i) = text "arg" ++ to_decimal i.
Proof. by rewrite escape_json_app, escape_decimal. Qed.

Lemma arg_text i a :
  format_quoted "{{'key':'arg{}','value':{{'stringValue':'{}'}}}}" [Int i; Str (escape_json a)] =
  print (attribute_json (text "arg" ++ to_decimal i) (string_json a)).
Proof.
  rewrite print_attribute, format_attribute, print_string, string_value_eq by apply escape_arg_key.
  rewrite format_arg, <- !app_assoc. reflexivity.
Qed.

Lemma arg_values_json args i ls :
  i = len ls ->
  arg_values i args (join_with x2c ls) = join_with x2c (ls ++ map print (args_json i args)).
Proof.
  revert i ls. induction args as [|a args IH]; intros i ls Hi; cbn [arg_values args_json map].
  { by rewrite app_nil_r. }
  rewrite arg_text. destruct (Z.eqb_spec i 0) as [E|E].
  - assert (ls = []) as -> by (apply len_nil_iff; lia).
    pose proof (IH (i + 1) [print (attribute_json (text "arg" ++ to_decimal i) (string_json a))]) as H.
    cbn [join_with app] in H |- *. rewrite H; [done|]. unfold len in *. simpl in *. lia.
  - assert (ls ≠ []) as Hls by (intros ->; unfold len in Hi; simpl in Hi; lia).
    rewrite cons_middle, (app_assoc ls [_]), <- (IH (i + 1)) by (rewrite len_app, len_singleton; lia).
    rewrite join_snoc by done. f_equal. by rewrite <- app_assoc.
Qed.

Section record.
Context {A : Type}.
Context (vformat : bytes -> list (owned A) -> bytes + bytes) (format_arg_of : owned A -> bytes).
Implicit Types msg : log_message A.

Lemma print_file_path msg :
  format_quoted "{{'stringValue':'{}:{}'}}"
    [Str (escape_json (file_name (m_location msg))); Int (line (m_location msg))] =
  print (string_json (file_name (m_location msg) ++ text ":" ++ to_decimal (line (m_location msg)))).
Proof.
  rewrite print_string, string_value_eq, format_file_path, !escape_json_app, escape_decimal.
  rewrite <- !app_assoc. reflexivity.
Qed.

Lemma print_args l :
  format_quoted "{{'kvlistValue':{{'values':[{}]}}}}" [Str (arg_values 0 l [])] =
  print (JObject [(text "kvlistValue", JObject [(text "values", JArray (args_json 0 l))])]).
Proof.
  pose proof (arg_values_json l 0 [] eq_refl) as H. cbn [join_with app] in H. rewrite H.
  rewrite format_kvlist. cbn. rewrite <- !app_assoc. reflexivity.
Qed.

Lemma escape_severity l : escape_json (severity_text l) = severity_text l.
Proof. by destruct l. Qed.

Lemma print_record msg :
  print (record_json vformat format_arg_of msg) =
  record_prefix (m_timestamp msg) (1 + level_index (m_level msg) * 4) (severity_text (m_level msg))
    (escape_json (compute_formatted_message vformat msg)) ++ join_with x2c (map print (attributes_json format_arg_of msg)) ++ text "]}".
Proof.
  unfold record_json. cbn [Json.print map join_with]. unfold quote.
  rewrite escape_decimal, escape_severity, print_string, string_value_eq, record_prefix_eq.
  repeat (rewrite <- app_assoc || rewrite <- app_comm_cons). reflexivity.
Qed.
Lemma print_attributes msg :
  let a key v := attribute_json (text key) v in
  join_with x2c (map print (attributes_json format_arg_of msg)) =
  join_with x2c
    ((match m_args msg with
      | [] => [print (a "log.format" (string_json (m_format msg)))]
      | args =>
          [print (a "log.format" (string_json (m_format msg)))] ++
          [print (a "log.args" (JObject [(text "kvlistValue",
             JObject [(text "values", JArray (args_json 0 (map format_arg_of args)))])]))]
      end
      ++ [print (a "code.file.path"
            (string_json (file_name (m_location msg) ++ text ":" ++ to_decimal (line (m_location msg)))))]
      ++ [print (a "code.function.name" (string_json (function_name (m_location msg))))])
     ++ match m_exception msg with
        | Some ex => [print (a "exception.type" (string_json (ex_type ex)))] ++
                     [print (a "exception.message" (string_json (ex_message ex)))]
        | None => []
        end).
Proof. unfold attributes_json. by destruct (m_args msg), (m_exception msg). Qed.

Lemma serialize_record_print msg :
  message_ok vformat format_arg_of msg ->
  (serialize_record vformat format_arg_of msg).1 = print (record_json vformat format_arg_of msg) /\
  message_ok vformat format_arg_of (serialize_record vformat format_arg_of msg).2.
Proof.
  intros Hok. destruct (get_formatted_message_ok vformat format_arg_of msg Hok) as (Ef & Hok1 & Hs1).
  unfold serialize_record. destruct (get_formatted_message vformat msg) as [formatted msg1]. cbn in Ef, Hok1, Hs1.
  destruct (get_formatted_args_ok vformat format_arg_of msg1 Hok1) as (Ea & Hok2 & Hs2).
  destruct (get_formatted_args format_arg_of msg1) as [args msg2]. cbn in Ea, Hok2, Hs2.
  destruct Hs1 as (T1 & X1 & F1 & L1 & V1 & A1). destruct Hs2 as (T2 & X2 & F2 & L2 & V2 & A2).
  split; [|done]. rewrite print_record, print_attributes. cbn zeta.
  rewrite T1, F1, V1, L2, L1, X2, X1, Ea, A1, Ef, print_args, print_file_path.
  rewrite <- (print_string (m_format msg)), <- (print_string (function_name (m_location msg))).
  rewrite attribute_first by done.
  assert ((len (map format_arg_of (m_args msg)) =? 0) = match m_args msg with [] => true | _ => false end) as ->.
  { by destruct (m_args msg). }
  destruct (m_args msg) as [|x l], (m_exception msg) as [ex|];
    rewrite <- ?(print_string (ex_type ex)), <- ?(print_string (ex_message ex));
    rewrite !attribute_next by done; cbn [fst snd]; rewrite <- !app_assoc; reflexivity.
Qed.

(** *** The record's texts *)

Lemma utf8_args i l : forallb json_utf8 (args_json i l) = forallb utf8_valid l.
Proof.
  revert i. induction l as [|a l IH]; intros i; [done|]. cbn [args_json forallb]. rewrite IH. f_equal.
  unfold attribute_json, string_json. cbn [json_utf8 forallb].
  rewrite (encodes_valid (text "arg" ++ to_decimal i) true), !andb_true_r; [done|].
  by apply (encodes_app _ _ true true); [apply encodes_ascii; by repeat constructor|apply encodes_decimal].
Qed.

Lemma utf8_attribute key s : json_utf8 (attribute_json (text key) (string_json s)) = utf8_valid (text key) && utf8_valid s.
Proof. unfold attribute_json, string_json. cbn [json_utf8 forallb]. by rewrite !andb_true_r. Qed.

Lemma utf8_record msg :
  json_utf8 (record_json vformat format_arg_of msg) = forallb utf8_valid (message_texts vformat format_arg_of msg).
Proof.
  unfold record_json, message_texts, attributes_json. cbn [json_utf8 forallb app].
  rewrite !forallb_app. cbn [forallb].
  rewrite (encodes_valid (to_decimal (m_timestamp msg)) true) by apply encodes_decimal.
  replace (utf8_valid (severity_text (m_level msg))) with true by (by destruct (m_level msg)).
  unfold string_json at 1. cbn [json_utf8 forallb].
  rewrite !utf8_attribute. change (text ":" ++ ?l) with (x3a :: l).
  rewrite (utf8_valid_app_ascii (file_name (m_location msg)) x3a) by (done || apply encodes_decimal).
  assert (forallb json_utf8 match m_args msg with
    | [] => []
    | _ :: _ => [attribute_json (text "log.args") (JObject [(text "kvlistValue",
        JObject [(text "values", JArray (args_json 0 (map format_arg_of (m_args msg))))])])]
    end = forallb utf8_valid (map format_arg_of (m_args msg))) as E.
  { destruct (m_args msg) as [|a l]; [done|]. unfold attribute_json at 1. cbn [json_utf8 forallb].
    rewrite utf8_args. by rewrite !andb_true_r. }
  destruct (m_args msg) as [|a l], (m_exception msg) as [ex|]; rewrite E; cbn [forallb];
    rewrite ?utf8_attribute, ?andb_true_r; reflexivity.
Qed.

End record.

(** ** Properties *)

(** [escape_json] is undone by a JSON reader: the reader gets the text back
    from the escaped characters between quotes, and stops at the closing
    quote; no control character is left in the output. *)
Theorem escape_json_roundtrip s rest :
  scan_string (escape_json s ++ x22 :: rest) = Some (s, rest) /\
  Forall (fun c => 32 <= code c) (escape_json s).
Proof. split; [apply scan_escaped|apply escape_json_bytes]. Qed.

(** C25: what [serialize_record] writes reads back, by the grammar of JSON, as
    the record of the OpenTelemetry log model: the time, the severity, the
    message and the attributes, for every message text, every argument and
    every exception text.  Its encoding is UTF-8, which JSON requires,
    exactly when all these texts are UTF-8: the bytes of a text that is not
    are passed on. *)
Theorem serialize_record_correct {A} vformat format_arg_of (msg : log_message A)
    (Hok : message_ok vformat format_arg_of msg) :
  let '(json, msg') := serialize_record vformat format_arg_of msg in
  parse_json json = Some (record_json vformat format_arg_of msg) /\
  utf8_valid json = forallb utf8_valid (message_texts vformat format_arg_of msg) /\
  message_ok vformat format_arg_of msg'.
Proof.
  destruct (serialize_record_print vformat format_arg_of msg Hok) as [E Hok'].
  destruct (serialize_record vformat format_arg_of msg) as [json msg']. cbn [fst snd] in E, Hok'. subst json.
  split_and!; [| |done].
  - apply (parse_json_print escape_json scan_escaped (record_json vformat format_arg_of msg)).
  - rewrite <- utf8_record. by apply encodes_valid, (encodes_print escape_json utf8_escape_json).
Qed.

(** A byte that is in no UTF-8 text, in a message: what is sent is not UTF-8,
    so it is not JSON. *)
Theorem invalid_utf8_is_passed_on {A} vformat format_arg_of (msg : log_message A)
    (Hok : message_ok vformat format_arg_of msg) (Hff : m_format msg = [xff]) :
  utf8_valid (serialize_record vformat format_arg_of msg).1 = false.
Proof.
  destruct (serialize_record_print vformat format_arg_of msg Hok) as [-> _].
  rewrite (encodes_valid _ (json_utf8 (record_json vformat format_arg_of msg))) by apply (encodes_print escape_json utf8_escape_json).
  rewrite utf8_record. unfold message_texts. rewrite Hff. cbn. by rewrite andb_false_r.
Qed.

(** ** Instances *)

Definition demo_vformat (fmt : bytes) (args : list (owned Z)) : bytes + bytes := inl fmt.
Definition demo_format_arg (a : owned Z) : bytes :=
  match a with OwnedString s => s | OwnedOther n => to_decimal n end.
Definition demo_message : log_message Z :=
  make_message 1700000000000000000 (Some (ExceptionInfo (text "St9exception") (text "no\way")))
    (Location (text "a.cpp") 7 (text "main")) warning (x22 :: text "hi" ++ [x22; x0a])
    [ArgView (text "x"); ArgOther 5].

Lemma serialize_record_correct_witness :
  parse_json (serialize_record demo_vformat demo_format_arg demo_message).1 =
  Some (record_json demo_vformat demo_format_arg demo_message) /\
  utf8_valid (serialize_record demo_vformat demo_format_arg demo_message).1 = true.
Proof.
  pose proof (serialize_record_correct demo_vformat demo_format_arg demo_message (make_message_ok _ _ _ _ _ _ _ _)) as H.
  destruct (serialize_record demo_vformat demo_format_arg demo_message). destruct H as (Hp & Hu & _).
  split; [exact Hp|]. exact Hu.
Defined.

Lemma invalid_utf8_is_passed_on_witness :
  utf8_valid (serialize_record demo_vformat demo_format_arg
    (make_message 0 None (Location (text "a.cpp") 7 (text "main")) warning [xff] [])).1 = false.
Proof. apply invalid_utf8_is_passed_on; [apply make_message_ok|reflexivity]. Defined.
