(* ===== verification/OtelSink.v ===== *)
(** [logging/sinks/otel_sink.h]: the sink that owns a channel and sends its
    messages in batches from a worker thread.  The worker is cut at its calls
    to the channel, so that the other threads' [write]s and the completion in
    the destructor may come between any two of them. *)

From S2P Require Import Prelude Text System LogMessage Sinks Json OtelSerializer Channel.
Import log_level.

(** [request_header] and [request_footer]. *)
Definition request_header (opts : otel_sink_opts) (hostname : bytes) : bytes :=
  format_quoted
    ("{{'resourceLogs':[{{'resource':{{'attributes':["
     +:+ "{{'key':'service.namespace','value':{{'stringValue':'{}'}}}}"
     +:+ ",{{'key':'service.name','value':{{'stringValue':'{}'}}}}"
     +:+ ",{{'key':'service.version','value':{{'stringValue':'{}'}}}}"
     +:+ ",{{'key':'service.instance.id','value':{{'stringValue':'{}'}}}}"
     +:+ ",{{'key':'host.name','value':{{'stringValue':'{}'}}}}"
     +:+ ",{{'key':'deployment.environment.name','value':{{'stringValue':'{}'}}}}"
     +:+ ",{{'key':'telemetry.sdk.name','value':{{'stringValue':'xtd.logging'}}}}"
     +:+ ",{{'key':'telemetry.sdk.language','value':{{'stringValue':'cpp'}}}}"
     +:+ "]}},'scopeLogs':[{{'scope':{{'name':'xtd.logging','version':'1.0.0'}},'logRecords':[")
    [Str (oo_service_namespace opts); Str (oo_service_name opts); Str (oo_service_version opts);
     Str (oo_service_instance_id opts); Str hostname; Str (oo_environment_name opts)].

#[global] Arguments request_header : simpl never.

Definition request_footer : bytes := text "]}]}]}".

(** [get_hostname]: [gethostname]'s answer, or "unknown". *)
Definition get_hostname (gethostname : option bytes) : bytes :=
  match gethostname with Some name => name | None => text "unknown" end.

Section sink.
Context {A : Type}.
Context (vformat : bytes -> list (owned A) -> bytes + bytes) (format_arg_of : owned A -> bytes).
Context (opts : otel_sink_opts) (hostname : bytes).
#[local] Abbreviation message := (log_message A).

Definition record_text (msg : message) : bytes := (serialize_record vformat format_arg_of msg).1.

(** ** The worker: [process_messages] *)

Inductive worker :=
  | Reading                                 (* calls reader.read() *)
  | Parked (t : stop_token)                 (* waits in it *)
  | Batching (body : bytes) (count : Z)     (* in the inner loop: m_body, msg_count *)
  | Finished.

(** What follows [reader.read()]. *)
Definition begin_batch (step : read_step message) : worker :=
  match step with
  | ReadSleeps t => Parked t
  | ReadFails _ => Finished
  | ReadUnlocks msg _ => Batching (request_header opts hostname ++ record_text msg) 1
  | ReadUndefined => Finished
  end.

(** What follows [reader.try_read()]: the next state, and the body if the
    batch is sent. *)
Definition extend_batch (body : bytes) (count : Z) (step : read_step message) : worker * list bytes :=
  match step with
  | ReadUnlocks msg _ => (Batching (body ++ text "," ++ record_text msg) (count +! 1), [])
  | _ => (Reading, [body ++ request_footer])
  end.

(** One call to the channel and what the worker does until the next: the
    channel, the worker, the bodies given to [send] and the message taken. *)
Definition worker_step (c : channel message) (w : worker)
    : option (channel message * worker * list bytes * list message) :=
  match w with
  | Reading =>
      let '(c', step) := read c no_stop WAIT in Some (c', begin_batch step, [], popped_by step)
  | Parked t =>
      let '(c', step) := read_wait c t in Some (c', begin_batch step, [], popped_by step)
  | Batching body count =>
      if count <? oo_batch_size opts then
        let '(c', step) := try_read c in
        let '(w', sent) := extend_batch body count step in
        Some (c', w', sent, popped_by step)
      else Some (c, Reading, [body ++ request_footer], [])
  | Finished => None
  end.

(** [write]: messages below the level are dropped; [try_push] drops the rest
    only after the completion (the channel is unbounded). *)
Definition otel_write (c : channel message) (msg : message) : channel message * list message :=
  if level_ltb (m_level msg) (oo_min_log_level opts) then (c, [])
  else let '(c', step) := try_push c msg in (c', pushed_by msg step).

(** ** The sink among its callers *)

(** [o_accepted], [o_batches] and [o_current] are history: what [write] put in
    the channel, the batches sent and the batch under construction. *)
Record sink := OtelSink {
  o_channel : channel message;
  o_worker : worker;
  o_requests : list bytes;
  o_accepted : list message;
  o_batches : list (list message);
  o_current : list message
}.

Definition make_otel_sink : sink := OtelSink (make_channel 0) Reading [] [] [] [].

Inductive step : sink -> sink -> Prop :=
  | StepWrite s msg c' accepted :
      otel_write (o_channel s) msg = (c', accepted) ->
      step s (OtelSink c' (o_worker s) (o_requests s) (o_accepted s ++ accepted) (o_batches s) (o_current s))
  | StepComplete s :
      step s (OtelSink (complete_writer (o_channel s)) (o_worker s) (o_requests s) (o_accepted s)
                (o_batches s) (o_current s))
  | StepWorker s c' w' sent taken :
      worker_step (o_channel s) (o_worker s) = Some (c', w', sent, taken) ->
      step s (OtelSink c' w' (o_requests s ++ sent) (o_accepted s)
                (if decide (sent = []) then o_batches s else o_batches s ++ [o_current s ++ taken])
                (if decide (sent = []) then o_current s ++ taken else [])).

(** ** What a request is *)

Definition request_body (batch : list message) : bytes :=
  request_header opts hostname ++ join_with x2c (map record_text batch) ++ request_footer.

Record sink_ok (s : sink) : Prop := {
  ok_fifo : o_accepted s = concat (o_batches s) ++ o_current s ++ m_queue (o_channel s);
  ok_requests : o_requests s = map request_body (o_batches s);
  ok_batches : Forall (fun b => 1 <= len b <= oo_batch_size opts) (o_batches s);
  ok_unbounded : m_capacity (o_channel s) = 0;
  ok_waiters : m_read_waiters (o_channel s) = match o_worker s with Parked _ => 1 | _ => 0 end;
  ok_worker : match o_worker s with
    | Batching body count =>
        count = len (o_current s) /\ 1 <= count <= oo_batch_size opts /\
        body = request_header opts hostname ++ join_with x2c (map record_text (o_current s))
    | Parked t => o_current s = [] /\ t = no_stop
    | Reading => o_current s = []
    | Finished => o_current s = [] /\ m_queue (o_channel s) = [] /\ m_writer_completed (o_channel s) = true
    end
}.

Hypothesis batch_size_ok : 1 <= oo_batch_size opts < size_modulus.

Lemma make_otel_sink_ok : sink_ok make_otel_sink.
Proof. by split. Qed.

Lemma join_texts (batch : list message) msg :
  batch ≠ [] ->
  join_with x2c (map record_text (batch ++ [msg])) =
  join_with x2c (map record_text batch) ++ text "," ++ record_text msg.
Proof. intros H. rewrite map_app. cbn [map]. rewrite join_snoc; [done|]. by destruct batch. Qed.

Lemma write_ok s msg c' accepted :
  sink_ok s -> otel_write (o_channel s) msg = (c', accepted) ->
  sink_ok (OtelSink c' (o_worker s) (o_requests s) (o_accepted s ++ accepted) (o_batches s) (o_current s)).
Proof.
  intros [Hf Hr Hb Hu Hw Hk] E. unfold otel_write in E. destruct (level_ltb _ _).
  { injection E as <- <-. rewrite app_nil_r. by split. }
  unfold try_push, emplace, full in E. rewrite Hu in E. cbn in E.
  destruct (m_writer_completed (o_channel s)) eqn:Ec; cbn in E; injection E as <- <-.
  { rewrite app_nil_r. split; cbn; try done. destruct (o_worker s); [done..|by destruct Hk as (? & ? & _)]. }
  split; cbn; try done.
  - rewrite Hf, <- !app_assoc. done.
  - destruct (o_worker s); try done. destruct Hk as (_ & _ & Hk). congruence.
Qed.

Lemma complete_ok s :
  sink_ok s ->
  sink_ok (OtelSink (complete_writer (o_channel s)) (o_worker s) (o_requests s) (o_accepted s)
             (o_batches s) (o_current s)).
Proof.
  intros [Hf Hr Hb Hu Hw Hk]. split; cbn; try done. destruct (o_worker s); [done..|by destruct Hk as (? & ? & _)].
Qed.

(** A blocking read begins a batch, parks the worker, or ends it. *)
Lemma begin_ok s c' step r :
  sink_ok s -> o_current s = [] ->
  read_effect (o_channel s) c' step r ->
  (match step with ReadSleeps t => t = no_stop | ReadFails _ => m_writer_completed (o_channel s) = true /\
    m_queue (o_channel s) = [] | _ => True end) ->
  r = (if read_sleeps step then 1 else 0) ->
  sink_ok (OtelSink c' (begin_batch step) (o_requests s ++ []) (o_accepted s) (o_batches s)
             (o_current s ++ popped_by step)).
Proof.
  intros [Hf Hr Hb Hu Hw Hk] Hc [Eq Ecap Eco Ew Erd Est] Hstep Hrd. rewrite Hc in *. rewrite app_nil_r.
  split; cbn; try done.
  - rewrite Hf, Eq. done.
  - by rewrite Ecap.
  - rewrite Erd, Hrd. by destruct step.
  - destruct step as [t|e|v n|]; cbn in *; try done.
    + destruct Hstep as [Hco Hq]. rewrite Eco. by rewrite Hq in Eq.
    + split_and!; [done|lia..|done].
Qed.

Lemma worker_ok s c' w' sent taken :
  sink_ok s -> worker_step (o_channel s) (o_worker s) = Some (c', w', sent, taken) ->
  sink_ok (OtelSink c' w' (o_requests s ++ sent) (o_accepted s)
             (if decide (sent = []) then o_batches s else o_batches s ++ [o_current s ++ taken])
             (if decide (sent = []) then o_current s ++ taken else [])).
Proof.
  intros Hok E. pose proof Hok as [Hf Hr Hb Hu Hw Hk]. destruct (o_worker s) as [|t|body count|] eqn:Eo; cbn [worker_step] in E; [| | |done].
  - destruct (read_effect_ok (o_channel s) no_stop WAIT) as [He _]; [by rewrite Hw|].
    pose proof (read_fails (o_channel s)) as Hfail. pose proof (read_calm (o_channel s) WAIT) as Hsleep.
    destruct (read (o_channel s) no_stop WAIT) as [c st]. injection E as <- <- <- <-.
    cbn [fst snd] in *. eapply begin_ok; [done..| |].
    + destruct st as [t|e|v n|]; [by apply Hsleep|by destruct (Hfail e eq_refl)|done..].
    + rewrite Hw. by destruct st.
  - destruct Hk as [Hc ->]. pose proof (read_wait_effect (o_channel s) no_stop) as He.
    pose proof (read_wait_fails (o_channel s)) as Hfail. pose proof (read_wait_calm (o_channel s)) as Hsleep.
    destruct (read_wait (o_channel s) no_stop) as [c st]. injection E as <- <- <- <-.
    cbn [fst snd] in *. eapply begin_ok; [done..| |].
    + destruct st as [t|e|v n|]; [done|by destruct (Hfail e eq_refl)|done..].
    + rewrite Hw. by destruct st.
  - destruct Hk as (-> & Hn & ->). destruct (o_current s) as [|x l] eqn:Ecur; [unfold len in Hn; simpl in Hn; lia|].
    rewrite <- Ecur in *.
    assert (Hsend : sink_ok (OtelSink (o_channel s) Reading
      (o_requests s ++ [(request_header opts hostname ++ join_with x2c (map record_text (o_current s))) ++ request_footer])
      (o_accepted s) (o_batches s ++ [o_current s]) [])).
    { split; cbn; try done.
      - by rewrite Hf, concat_app_singleton, <- app_assoc.
      - rewrite Hr, map_app. cbn. unfold request_body. by rewrite <- app_assoc.
      - apply Forall_app. split; [done|]. by apply Forall_singleton. }
    destruct (Z.ltb_spec (len (o_current s)) (oo_batch_size opts)) as [Hlt|Hge].
    + destruct (read_effect_ok (o_channel s) no_stop TRY) as [He Hns]; [by rewrite Hw|]. specialize (Hns eq_refl).
      unfold try_read in E. destruct (read (o_channel s) no_stop TRY) as [c st]. cbn [fst snd] in *.
      rewrite Hns in He. destruct He as [Eq Ecap Eco Ew Erd Est].
      destruct st as [t|e|v n|]; cbn in E; [done| | |done]; injection E as <- <- <- <-; cbn in Eq.
      * rewrite !decide_False by done. rewrite app_nil_r. destruct Hsend as [H1 H2 H3 H4 H5 H6].
        cbn in *. split; cbn; try done; try congruence.
      * rewrite !decide_True by done. rewrite app_nil_r. split; cbn; try done.
        -- rewrite Hf, Eq. by rewrite <- app_assoc.
        -- by rewrite Ecap.
        -- by rewrite Erd.
        -- rewrite len_app, len_singleton. unwrap. split_and!; [done|lia..|].
           rewrite join_texts by (by rewrite Ecur). by rewrite <- app_assoc.
    + injection E as <- <- <- <-. rewrite !decide_False by done. by rewrite app_nil_r.
Qed.

Lemma otel_step_ok s s' : sink_ok s -> step s s' -> sink_ok s'.
Proof. intros Hok Hs. destruct Hs; eauto using write_ok, complete_ok, worker_ok. Qed.

Lemma otel_reachable_ok s : rtc step make_otel_sink s -> sink_ok s.
Proof. intros H. by eapply rtc_invariant; [apply otel_step_ok|exact H|apply make_otel_sink_ok]. Qed.

(** ** The worker on its own *)

(** The worker's steps with no other thread in between: what happens while
    the destructor waits in [join]. *)
Definition worker_alone (s : sink) : sink :=
  match worker_step (o_channel s) (o_worker s) with
  | None => s
  | Some (c', w', sent, taken) =>
      OtelSink c' w' (o_requests s ++ sent) (o_accepted s)
        (if decide (sent = []) then o_batches s else o_batches s ++ [o_current s ++ taken])
        (if decide (sent = []) then o_current s ++ taken else [])
  end.

Fixpoint run_worker (n : nat) (s : sink) : sink :=
  match n with O => s | S n => run_worker n (worker_alone s) end.

(** What is left to do: three steps a message at most. *)
Definition work_left (s : sink) : nat :=
  (3 * length (m_queue (o_channel s))
   + match o_worker s with Finished => 0 | Batching _ _ => 2 | _ => 1 end)%nat.

Lemma worker_alone_ok s : sink_ok s -> sink_ok (worker_alone s) /\ o_accepted (worker_alone s) = o_accepted s.
Proof.
  intros Hok. unfold worker_alone.
  destruct (worker_step (o_channel s) (o_worker s)) as [[[[c' w'] sent] taken]|] eqn:E; [|done].
  split; [by apply worker_ok|done].
Qed.

Lemma blocking_read_completed (r : channel message * read_step message) c waiters :
  m_writer_completed c = true -> read_effect c r.1 r.2 waiters ->
  (forall t, r.2 = ReadSleeps t -> False) ->
  m_writer_completed r.1 = true /\
  (work_left (OtelSink r.1 (begin_batch r.2) [] [] [] []) <= 3 * length (m_queue c))%nat.
Proof.
  intros Hc [Eq _ Eco _ _ Est] Hs. destruct r as [c' st]. cbn in *. split; [congruence|].
  unfold work_left. cbn. rewrite Eq, length_app. destruct st as [t|e|v n|]; cbn; [by destruct (Hs t)|..]; lia.
Qed.

Lemma blocking_read_awake (r : channel message * read_step message) c waiters t :
  m_writer_completed c = true -> read_effect c r.1 r.2 waiters -> r.2 = ReadSleeps t -> False.
Proof. intros Hc [_ _ _ _ _ Est] E. rewrite E in Est. destruct Est as [Est _]. congruence. Qed.

Lemma work_decreases s :
  sink_ok s -> m_writer_completed (o_channel s) = true -> o_worker s ≠ Finished ->
  m_writer_completed (o_channel (worker_alone s)) = true /\ (work_left (worker_alone s) < work_left s)%nat.
Proof.
  intros [Hf Hr Hb Hu Hw Hk] Hc Hn. unfold worker_alone, work_left at 2.
  destruct (o_worker s) as [|t|body count|] eqn:Eo; cbn [worker_step]; [| | |done].
  - destruct (read_effect_ok (o_channel s) no_stop WAIT) as [He _]; [by rewrite Hw|].
    destruct (blocking_read_completed _ _ _ Hc He (fun t => blocking_read_awake _ _ _ t Hc He)) as [Hc' Hl].
    destruct (read (o_channel s) no_stop WAIT) as [c st]. cbn in *. split; [done|]. unfold work_left in Hl. cbn in Hl. lia.
  - pose proof (read_wait_effect (o_channel s) t) as He.
    destruct (blocking_read_completed _ _ _ Hc He (fun t => blocking_read_awake _ _ _ t Hc He)) as [Hc' Hl].
    destruct (read_wait (o_channel s) t) as [c st]. cbn in *. split; [done|]. unfold work_left in Hl. cbn in Hl. lia.
  - destruct (count <? oo_batch_size opts); [|split; [done|]; unfold work_left; cbn; lia].
    destruct (read_effect_ok (o_channel s) no_stop TRY) as [He Hns]; [by rewrite Hw|]. specialize (Hns eq_refl).
    unfold try_read. destruct (read (o_channel s) no_stop TRY) as [c st]. cbn in *. rewrite Hns in He.
    destruct He as [Eq _ Eco _ _ _]. apply (f_equal length) in Eq. rewrite length_app in Eq.
    destruct st; cbn in *; (split; [congruence|]); unfold work_left; cbn; lia.
Qed.

Lemma finished_alone s : o_worker s = Finished -> worker_alone s = s.
Proof. intros E. unfold worker_alone. by rewrite E. Qed.

Lemma run_worker_finishes n s :
  sink_ok s -> m_writer_completed (o_channel s) = true -> (work_left s <= n)%nat ->
  sink_ok (run_worker n s) /\ o_accepted (run_worker n s) = o_accepted s /\ o_worker (run_worker n s) = Finished.
Proof.
  revert s. induction n as [|n IH]; intros s Hok Hc Hl; cbn [run_worker].
  - split_and!; [done..|]. unfold work_left in Hl. destruct (o_worker s); (done || lia).
  - destruct (worker_alone_ok s Hok) as [Hok' Hacc]. destruct (o_worker s) eqn:Ew.
    4:{ rewrite finished_alone by done. apply IH; [done..|]. unfold work_left in *. rewrite Ew in *.
        destruct Hok as [_ _ _ _ _ Hk]. rewrite Ew in Hk. destruct Hk as (_ & -> & _). simpl. lia. }
    all: destruct (work_decreases s Hok Hc) as [Hc' Hl']; [by rewrite Ew|];
      destruct (IH (worker_alone s)) as (? & ? & ?); [done|done|lia|]; split_and!; [done|congruence|done].
Qed.

(** ** Requests as JSON *)

Definition request_json (batch : list message) : json :=
  let attr k v := attribute_json (text k) (string_json v) in
  JObject [(text "resourceLogs", JArray [JObject
    [(text "resource", JObject [(text "attributes", JArray
        [attr "service.namespace" (oo_service_namespace opts); attr "service.name" (oo_service_name opts);
         attr "service.version" (oo_service_version opts); attr "service.instance.id" (oo_service_instance_id opts);
         attr "host.name" hostname; attr "deployment.environment.name" (oo_environment_name opts);
         attr "telemetry.sdk.name" (text "xtd.logging"); attr "telemetry.sdk.language" (text "cpp")])]);
     (text "scopeLogs", JArray [JObject
        [(text "scope", JObject [(text "name", JString (text "xtd.logging")); (text "version", JString (text "1.0.0"))]);
         (text "logRecords", JArray (map (record_json vformat format_arg_of) batch))]])]])].

(** The fields of the header contain nothing JSON would escape. *)
Definition plain_fields : Prop :=
  Forall (fun s => escape_json s = s)
    [oo_service_namespace opts; oo_service_name opts; oo_service_version opts; oo_service_instance_id opts;
     hostname; oo_environment_name opts].

Lemma request_header_eq :
  request_header opts hostname =
  quoted "{'resourceLogs':[{'resource':{'attributes':[{'key':'service.namespace','value':{'stringValue':'"
  ++ oo_service_namespace opts ++ quoted "'}},{'key':'service.name','value':{'stringValue':'"
  ++ oo_service_name opts ++ quoted "'}},{'key':'service.version','value':{'stringValue':'"
  ++ oo_service_version opts ++ quoted "'}},{'key':'service.instance.id','value':{'stringValue':'"
  ++ oo_service_instance_id opts ++ quoted "'}},{'key':'host.name','value':{'stringValue':'"
  ++ hostname ++ quoted "'}},{'key':'deployment.environment.name','value':{'stringValue':'"
  ++ oo_environment_name opts
  ++ quoted "'}},{'key':'telemetry.sdk.name','value':{'stringValue':'xtd.logging'}},{'key':'telemetry.sdk.language','value':{'stringValue':'cpp'}}]},'scopeLogs':[{'scope':{'name':'xtd.logging','version':'1.0.0'},'logRecords':[".
Proof. reflexivity. Qed.

Lemma map_record_text batch :
  Forall (message_ok vformat format_arg_of) batch ->
  map record_text batch = map (print escape_json) (map (record_json vformat format_arg_of) batch).
Proof.
  induction 1 as [|msg batch Hok _ IH]; [done|]. cbn [map]. rewrite IH. f_equal.
  by apply (serialize_record_print vformat format_arg_of msg Hok).
Qed.

Lemma request_body_print batch :
  plain_fields -> Forall (message_ok vformat format_arg_of) batch ->
  request_body batch = print escape_json (request_json batch).
Proof.
  intros Hp Hok. unfold plain_fields in Hp. rewrite !Forall_cons in Hp. destruct Hp as (E1 & E2 & E3 & E4 & E5 & E6 & _).
  unfold request_body, request_json. rewrite map_record_text, request_header_eq by done.
  generalize (map (record_json vformat format_arg_of) batch). intros records. symmetry. cbn [print map join_with attribute_json string_json]. unfold quote.
  rewrite E1, E2, E3, E4, E5, E6. repeat (rewrite <- app_assoc || rewrite <- app_comm_cons). reflexivity.
Qed.

Lemma request_body_parses batch :
  plain_fields -> Forall (message_ok vformat format_arg_of) batch ->
  parse_json (request_body batch) = Some (request_json batch).
Proof.
  intros Hp Hok. rewrite request_body_print by done. apply (parse_json_print escape_json scan_escaped (request_json batch)).
Qed.
End sink.

(** ** Properties *)
Section properties.
Context {A : Type}.
Context (vformat : bytes -> list (owned A) -> bytes + bytes) (format_arg_of : owned A -> bytes).
Context (opts : otel_sink_opts) (hostname : bytes).

(** C19: whatever the other threads do between the worker's calls, every
    message [write] accepted is in exactly one place, in the order it came:
    in a batch that was sent, in the one under construction or in the
    channel; every request is the body of one batch of 1 to [batch_size]
    messages; and a worker that ended has sent them all. *)
Theorem otel_sink_delivers s
    (Hbatch : 1 <= oo_batch_size opts < size_modulus)
    (Hrun : rtc (step vformat format_arg_of opts hostname) make_otel_sink s) :
  o_accepted s = concat (o_batches s) ++ o_current s ++ m_queue (o_channel s) /\
  o_requests s = map (request_body vformat format_arg_of opts hostname) (o_batches s) /\
  Forall (fun b => 1 <= len b <= oo_batch_size opts) (o_batches s) /\
  (o_worker s = Finished -> o_accepted s = concat (o_batches s)).
Proof.
  destruct (otel_reachable_ok vformat format_arg_of opts hostname Hbatch s Hrun) as [Hf Hr Hb _ _ Hk].
  split_and!; [done..|]. intros E. rewrite E in Hk. destruct Hk as (Hc & Hq & _).
  by rewrite Hf, Hc, Hq, !app_nil_r.
Qed.

(** The destructor loses nothing and ends: once the channel is completed,
    the worker, left alone, ends within [work_left] calls (three a message at
    most), and by then everything accepted was sent. *)
Theorem otel_destructor_drains s n
    (Hbatch : 1 <= oo_batch_size opts < size_modulus)
    (Hrun : rtc (step vformat format_arg_of opts hostname) make_otel_sink s)
    (Hdone : m_writer_completed (o_channel s) = true) (Hn : (work_left s <= n)%nat) :
  let s' := run_worker vformat format_arg_of opts hostname n s in
  o_worker s' = Finished /\ concat (o_batches s') = o_accepted s /\
  o_requests s' = map (request_body vformat format_arg_of opts hostname) (o_batches s').
Proof.
  pose proof (otel_reachable_ok vformat format_arg_of opts hostname Hbatch s Hrun) as Hok.
  destruct (run_worker_finishes vformat format_arg_of opts hostname Hbatch n s Hok Hdone Hn) as (Hok' & Ha & Hw).
  destruct Hok' as [Hf Hr _ _ _ Hk]. cbv zeta. rewrite Hw in Hk. destruct Hk as (Hc & Hq & _).
  rewrite Hc, Hq, !app_nil_r in Hf. split_and!; [done|congruence|done].
Qed.

(** A request reads back as JSON, the OpenTelemetry envelope around the batch's
    records, when the fields of the options need no escaping. *)
Theorem request_body_correct batch
    (Hfields : plain_fields opts hostname) (Hok : Forall (message_ok vformat format_arg_of) batch) :
  parse_json (request_body vformat format_arg_of opts hostname batch) =
  Some (request_json vformat format_arg_of opts hostname batch).
Proof. by apply request_body_parses. Qed.
End properties.

(** ** Instances *)

Definition demo_opts (service_name : bytes) : otel_sink_opts :=
  OtelOpts information (text "http://collector") [] (text "shop") service_name (text "1.0") (text "a1") (text "test")
    2 false.

(** Two messages, the worker at work, a third one, and the completion. *)
Definition demo_run : sink (A := Z) :=
  let w := worker_alone demo_vformat demo_format_arg (demo_opts (text "cart")) (text "host") in
  let write s := let '(c, a) := otel_write (demo_opts (text "cart")) (o_channel s) demo_message in
    OtelSink c (o_worker s) (o_requests s) (o_accepted s ++ a) (o_batches s) (o_current s) in
  let s := w (write (write make_otel_sink)) in
  let s := w (write s) in
  OtelSink (complete_writer (o_channel s)) (o_worker s) (o_requests s) (o_accepted s) (o_batches s) (o_current s).

Lemma demo_run_reachable :
  rtc (step demo_vformat demo_format_arg (demo_opts (text "cart")) (text "host")) make_otel_sink demo_run.
Proof.
  do 2 (eapply rtc_l; [by apply (StepWrite _ _ _ _ _ demo_message)|]).
  eapply rtc_l; [by apply StepWorker|]. eapply rtc_l; [by apply (StepWrite _ _ _ _ _ demo_message)|].
  eapply rtc_l; [by apply StepWorker|]. eapply rtc_l; [by apply StepComplete|]. reflexivity.
Qed.

Lemma otel_sink_delivers_witness :
  o_accepted demo_run = concat (o_batches demo_run) ++ o_current demo_run ++ m_queue (o_channel demo_run) /\
  length (o_current demo_run) = 2%nat /\ length (m_queue (o_channel demo_run)) = 1%nat.
Proof.
  split; [|by vm_compute].
  by apply (otel_sink_delivers demo_vformat demo_format_arg (demo_opts (text "cart")) (text "host") demo_run
    ltac:(done) demo_run_reachable).
Defined.

Lemma otel_destructor_drains_witness :
  o_worker (run_worker demo_vformat demo_format_arg (demo_opts (text "cart")) (text "host") 9 demo_run) = Finished.
Proof.
  by apply (otel_destructor_drains demo_vformat demo_format_arg (demo_opts (text "cart")) (text "host") demo_run 9
    ltac:(done) demo_run_reachable eq_refl); vm_compute; lia.
Defined.

Lemma request_body_correct_witness :
  parse_json (request_body demo_vformat demo_format_arg (demo_opts (text "cart")) (text "host") [demo_message]) =
  Some (request_json demo_vformat demo_format_arg (demo_opts (text "cart")) (text "host") [demo_message]).
Proof.
  apply request_body_correct.
  - repeat constructor.
  - apply Forall_singleton, make_message_ok.
Defined.

(** A service name that closes its string and adds an attribute. *)
Definition injected_name : bytes := quoted "x'}},{'key':'admin','value':{'stringValue':'yes".

(** The header copies the options into the request without escaping: a
    service name that [validate] accepts changes the JSON around it; the
    request still parses, as another document. *)
Theorem service_fields_are_not_escaped :
  validate_otel_opts (demo_opts injected_name) = Ret tt /\
  exists document,
    parse_json (request_body demo_vformat demo_format_arg (demo_opts injected_name) (text "host") [demo_message])
      = Some document /\
    document ≠ request_json demo_vformat demo_format_arg (demo_opts injected_name) (text "host") [demo_message].
Proof.
  split; [by vm_compute|]. eexists. split; [vm_compute; reflexivity|]. vm_compute. discriminate.
Qed.
