(* ===== verification/Logger.v ===== *)
(** [logging/logging.h]: the logger, its callers and its worker thread.

    The sinks are seen through an interface, the class [LogSink]: what
    [logging/sinks/log_sink.h] promises the logger.  [deliver] is
    [sink->write(message)].  The logger's two vectors are not locked, so
    [add_sink] may not run while a call of [log] or the worker iterates over
    them: the step relation adds sinks between them only. *)

From S2P Require Import Prelude Channel System LogMessage Sinks Text.
Import log_level.

(** ** The interface of a sink *)

Class LogSink (S M : Type) := {
  own_channel : S -> bool;
  write : M -> S -> S;
  own_channel_write : forall m s, own_channel (write m s) = own_channel s
}.

Section logger.
Context {S M : Type} `{!LogSink S M}.

(** A sink with its history: its state when it was added, how many messages
    had come by then, and what it was given since. *)
Record sink_entry := Entry { e_sink : S; e_first : S; e_since : nat; e_got : list M }.

Definition add_entry (s : S) (since : nat) : sink_entry := Entry s s since [].

Definition deliver (msg : M) (e : sink_entry) : sink_entry :=
  Entry (write msg (e_sink e)) (e_first e) (e_since e) (e_got e ++ [msg]).

Inductive worker :=
  | Reading
  | Parked (t : stop_token)             (* in [read], inside [read_all] *)
  | Writing (msg : M) (next : nat)      (* the index of the next sink *)
  | Ended.

Inductive caller :=
  | Idle
  | Logging (msg : M) (next : nat).

(** The members, and as history what [log] was called with (in the order of
    its last step), what the channel accepted and what the worker took. *)
Record logger := Logger {
  m_channel : channel M;
  m_sinks : list sink_entry;
  m_own_channel_sinks : list sink_entry;
  m_worker : worker;
  callers : list caller;
  logged : list M;
  pushed : list M;
  taken : list M
}.

Definition make_logger (threads : nat) : logger :=
  Logger (make_channel 0) [] [] Reading (replicate threads Idle) [] [] [].

(** ** Operations *)

Definition add_sink (s : S) (l : logger) : logger :=
  if own_channel s then
    Logger (m_channel l) (m_sinks l) (m_own_channel_sinks l ++ [add_entry s (length (logged l))])
      (m_worker l) (callers l) (logged l) (pushed l) (taken l)
  else
    Logger (m_channel l) (m_sinks l ++ [add_entry s (length (taken l))]) (m_own_channel_sinks l)
      (m_worker l) (callers l) (logged l) (pushed l) (taken l).

(** [log] by thread [i]: the message is made; then, a step each, one
    iteration of its loop, or what follows it. *)
Definition call_log (i : nat) (msg : M) (l : logger) : logger :=
  Logger (m_channel l) (m_sinks l) (m_own_channel_sinks l) (m_worker l) (<[i := Logging msg 0]> (callers l))
    (logged l) (pushed l) (taken l).

Definition log_step (i : nat) (msg : M) (next : nat) (l : logger) : logger :=
  if Nat.ltb next (length (m_own_channel_sinks l)) then
    Logger (m_channel l) (m_sinks l) (alter (deliver msg) next (m_own_channel_sinks l)) (m_worker l)
      (<[i := Logging msg (1 + next)]> (callers l)) (logged l) (pushed l) (taken l)
  else
    let '(c, ps) :=
      if negb (len (m_sinks l) =? 0) then
        let '(c, step) := try_push (m_channel l) msg in (c, pushed_by msg step)
      else (m_channel l, []) in
    Logger c (m_sinks l) (m_own_channel_sinks l) (m_worker l) (<[i := Idle]> (callers l))
      (logged l ++ [msg]) (pushed l ++ ps) (taken l).

Definition worker_after (step : read_step M) : worker :=
  match step with
  | ReadSleeps t => Parked t
  | ReadUnlocks msg _ => Writing msg 0
  | _ => Ended
  end.

(** [process_logs]: the generator's next read, or one sink's [write]. *)
Definition process_step (c : channel M) (sinks : list sink_entry) (w : worker)
    : channel M * list sink_entry * worker * list M :=
  match w with
  | Reading => let '(c, step) := read c no_stop WAIT in (c, sinks, worker_after step, popped_by step)
  | Parked t => let '(c, step) := read_wait c t in (c, sinks, worker_after step, popped_by step)
  | Writing msg next =>
      if Nat.ltb next (length sinks) then (c, alter (deliver msg) next sinks, Writing msg (1 + next), [])
      else (c, sinks, Reading, [])
  | Ended => (c, sinks, Ended, [])
  end.

Definition process_logs (l : logger) : logger :=
  let '(c, sinks, w, ms) := process_step (m_channel l) (m_sinks l) (m_worker l) in
  Logger c sinks (m_own_channel_sinks l) w (callers l) (logged l) (pushed l) (taken l ++ ms).

(** The destructor completes the channel and joins the worker, which runs on
    by itself. *)
Definition complete_logger (l : logger) : logger :=
  Logger (complete_writer (m_channel l)) (m_sinks l) (m_own_channel_sinks l) (m_worker l) (callers l)
    (logged l) (pushed l) (taken l).

Fixpoint join_worker (fuel : nat) (l : logger) : logger :=
  match fuel with O => l | Datatypes.S fuel => join_worker fuel (process_logs l) end.

Definition writing (w : worker) : bool := match w with Writing _ _ => true | _ => false end.
Definition idle (c : caller) : bool := match c with Idle => true | _ => false end.

Inductive step : logger -> logger -> Prop :=
  | StepAddSink l s :
      writing (m_worker l) = false -> forallb idle (callers l) = true -> step l (add_sink s l)
  | StepCall l i msg :
      callers l !! i = Some Idle ->
      step l (call_log i msg l)
  | StepLog l i msg next :
      callers l !! i = Some (Logging msg next) -> step l (log_step i msg next l)
  | StepWorker l : step l (process_logs l)
  | StepDestroy l : forallb idle (callers l) = true -> step l (complete_logger l).

(** ** The invariant *)

(** What the worker has taken and sink [i] not yet seen. *)
Definition outstanding (w : worker) (i : nat) : list M :=
  match w with Writing msg next => if Nat.ltb i next then [] else [msg] | _ => [] end.

(** What calls still running have given to their sink [k]. *)
Definition given (k : nat) (c : caller) : option M :=
  match c with Logging msg next => if Nat.ltb k next then Some msg else None | Idle => None end.
Definition in_flight (k : nat) (cs : list caller) : list M := omap (given k) cs.

Definition entry_ok (own : bool) (e : sink_entry) : Prop :=
  e_sink e = foldl (fun s m => write m s) (e_first e) (e_got e) /\ own_channel (e_sink e) = own.

Record logger_ok (l : logger) : Prop := {
  ok_fifo : pushed l = taken l ++ m_queue (m_channel l);
  ok_capacity : m_capacity (m_channel l) = 0;
  ok_waiters : m_read_waiters (m_channel l) = match m_worker l with Parked _ => 1 | _ => 0 end;
  ok_shared_entries : Forall (entry_ok false) (m_sinks l);
  ok_own_entries : Forall (entry_ok true) (m_own_channel_sinks l);
  ok_shared : forall i e, m_sinks l !! i = Some e ->
    (e_since e + length (outstanding (m_worker l) i) <= length (taken l))%nat /\
    e_got e ++ outstanding (m_worker l) i = drop (e_since e) (taken l);
  ok_own : forall k e, m_own_channel_sinks l !! k = Some e ->
    (e_since e <= length (logged l))%nat /\
    e_got e ≡ₚ drop (e_since e) (logged l) ++ in_flight k (callers l);
  ok_missed : m_sinks l = [] -> pushed l = [];
  ok_worker : match m_worker l with
    | Parked t => t = no_stop
    | Ended => m_queue (m_channel l) = [] /\ m_writer_completed (m_channel l) = true
    | _ => True
    end
}.

Local Ltac members :=
  cbn [m_channel m_sinks m_own_channel_sinks m_worker callers logged pushed taken].

Lemma make_logger_ok threads : logger_ok (make_logger threads).
Proof. split; cbn; (done || by intros ? ? []). Qed.

Lemma deliver_ok own msg e : entry_ok own e -> entry_ok own (deliver msg e).
Proof. intros [E Ho]. split; cbn; [by rewrite foldl_app, E|]. by rewrite own_channel_write. Qed.

Lemma add_entry_ok s n : entry_ok (own_channel s) (add_entry s n).
Proof. done. Qed.

Lemma all_idle_in_flight k cs : forallb idle cs = true -> in_flight k cs = [].
Proof.
  induction cs as [|c cs IH]; [done|]. cbn. intros [Hc Hcs]%andb_true_iff. destruct c; [|done]. by apply IH.
Qed.

Lemma not_writing_outstanding w i : writing w = false -> outstanding w i = [].
Proof. by destruct w. Qed.

Lemma add_sink_ok s l :
  writing (m_worker l) = false -> forallb idle (callers l) = true -> logger_ok l -> logger_ok (add_sink s l).
Proof.
  intros Hw Hi [Hf Hc Hwt Hse Hoe Hs Ho Hm Hk]. unfold add_sink.
  destruct (own_channel s) eqn:Es; split; members; try done.
  - apply Forall_app. split; [done|]. apply Forall_singleton. rewrite <- Es. apply add_entry_ok.
  - intros k e [Hk'|[_ Hk']]%lookup_app_Some; [by apply Ho|]. apply list_lookup_singleton_Some in Hk' as [_ <-].
    cbn [add_entry e_since e_got]. split; [lia|]. by rewrite drop_all, all_idle_in_flight.
  - apply Forall_app. split; [done|]. apply Forall_singleton. rewrite <- Es. apply add_entry_ok.
  - intros k e [Hk'|[_ Hk']]%lookup_app_Some; [by apply Hs|]. apply list_lookup_singleton_Some in Hk' as [_ <-].
    cbn. rewrite not_writing_outstanding by done. cbn. split; [lia|]. by rewrite drop_all.
  - by intros []%app_nil.
Qed.

Lemma call_ok l i msg :
  callers l !! i = Some Idle -> logger_ok l ->
  logger_ok (call_log i msg l).
Proof.
  intros Hi [Hf Hc Hwt Hse Hoe Hs Ho Hm Hk]. split; cbn; try done.
  intros k e He. destruct (Ho k e He) as [Hn Hp]. split; [done|]. rewrite Hp. f_equiv.
  pose proof (omap_insert_permutation (given k) (callers l) i Idle (Logging msg 0) Hi) as E.
  cbn [given option_list] in E. rewrite !app_nil_r in E. by symmetry.
Qed.

(** The call that gives [msg] to the own-channel sink [next]. *)
Lemma log_write_ok l i msg next :
  callers l !! i = Some (Logging msg next) -> (next < length (m_own_channel_sinks l))%nat -> logger_ok l ->
  logger_ok (log_step i msg next l).
Proof.
  intros Hi Hlt [Hf Hc Hwt Hse Hoe Hs Ho Hm Hk]. unfold log_step.
  rewrite (proj2 (Nat.ltb_lt _ _) Hlt). split; members; try done.
  - apply Forall_alter; [done|]. intros e _. apply deliver_ok.
  - intros k e He. pose proof (omap_insert_permutation (given k) (callers l) i _ (Logging msg (1 + next)) Hi) as E.
    destruct (decide (k = next)) as [->|Hne].
    + cbn [given] in E. rewrite list_lookup_alter_eq in He. apply fmap_Some in He as (e' & He & ->).
      destruct (Ho next e' He) as [Hn Hp]. cbn [deliver e_since e_got]. split; [done|]. rewrite Hp.
      rewrite Nat.ltb_irrefl, (proj2 (Nat.ltb_lt next (1 + next))) in E by lia. cbn [option_list] in E.
      rewrite app_nil_r in E. unfold in_flight. rewrite E. by rewrite app_assoc.
    + cbn [given] in E. rewrite list_lookup_alter_ne in He by done. destruct (Ho k e He) as [Hn Hp]. split; [done|]. rewrite Hp. f_equiv.
      replace (Nat.ltb k (1 + next)) with (Nat.ltb k next) in E by (destruct (Nat.ltb_spec k next), (Nat.ltb_spec k (1 + next)); lia).
      symmetry. eapply Permutation_app_inv_r. exact E.
Qed.

(** What the last step of [log] does to the channel. *)
Lemma try_push_unbounded (c c' : channel M) msg st :
  m_capacity c = 0 -> try_push c msg = (c', st) ->
  m_queue c' = m_queue c ++ pushed_by msg st /\ m_capacity c' = 0 /\ m_read_waiters c' = m_read_waiters c /\
  m_writer_completed c' = m_writer_completed c /\
  (m_writer_completed c = false -> pushed_by msg st = [msg]) /\
  (m_writer_completed c = true -> pushed_by msg st = []).
Proof.
  intros Hc E. unfold try_push, emplace, full in E. rewrite Hc in E. cbn in E.
  destruct (m_writer_completed c) eqn:Ec; cbn in E; injection E as <- <-; split_and!; cbn; try done.
  by rewrite app_nil_r.
Qed.

Lemma log_last_ok l i msg next :
  callers l !! i = Some (Logging msg next) -> (length (m_own_channel_sinks l) <= next)%nat -> logger_ok l ->
  logger_ok (log_step i msg next l).
Proof.
  intros Hi Hge [Hf Hc Hwt Hse Hoe Hs Ho Hm Hk]. unfold log_step. rewrite (proj2 (Nat.ltb_ge _ _) Hge).
  assert (Hown : forall k e, m_own_channel_sinks l !! k = Some e ->
    (e_since e <= length (logged l ++ [msg]))%nat /\
    e_got e ≡ₚ drop (e_since e) (logged l ++ [msg]) ++ in_flight k (<[i := Idle]> (callers l))).
  { intros k e He. destruct (Ho k e He) as [Hn Hp]. apply lookup_lt_Some in He. rewrite length_app. split; [lia|].
    rewrite Hp, drop_app_le by lia. rewrite <- app_assoc. f_equiv.
    pose proof (omap_insert_permutation (given k) (callers l) i _ Idle Hi) as E. cbn [given] in E.
    rewrite (proj2 (Nat.ltb_lt k next)) in E by lia. cbn [option_list] in E. rewrite app_nil_r in E.
    unfold in_flight. rewrite <- E. by rewrite Permutation_app_comm. }
  destruct (Z.eqb_spec (len (m_sinks l)) 0) as [E0|E0]; cbn [negb].
  - apply len_nil_iff in E0. split; members; try done; rewrite ?app_nil_r; try done.
  - destruct (try_push (m_channel l) msg) as [c st] eqn:Ep.
    destruct (try_push_unbounded _ _ _ _ Hc Ep) as (Eq & Ecap & Er & Ew & Hopen & Hshut).
    split; members; try done.
    + by rewrite Hf, Eq, app_assoc.
    + by rewrite Er.
    + intros E. by rewrite E in E0.
    + destruct (m_worker l); try done. destruct Hk as [Hk1 Hk2]. by rewrite Eq, Ew, Hshut, Hk1.
Qed.

(** The worker after a read. *)
Lemma after_read_ok l c st r :
  writing (m_worker l) = false -> logger_ok l -> read_effect (m_channel l) c st r ->
  match st with
  | ReadSleeps t => t = no_stop
  | ReadFails _ => m_queue (m_channel l) = [] /\ m_writer_completed (m_channel l) = true
  | _ => True
  end ->
  r = (if read_sleeps st then 1 else 0) ->
  logger_ok (Logger c (m_sinks l) (m_own_channel_sinks l) (worker_after st) (callers l) (logged l) 
    (pushed l) (taken l ++ popped_by st)).
Proof.
  intros Hw [Hf Hc Hwt Hse Hoe Hs Ho Hm Hk] [Eq Ecap Eco _ Erd Est] Hst Hr. split; members; try done.
  - by rewrite Hf, Eq, app_assoc.
  - by rewrite Ecap.
  - rewrite Erd, Hr. by destruct st.
  - intros i e He. destruct (Hs i e He) as [Hn Hp]. rewrite not_writing_outstanding in Hn, Hp by done.
    rewrite app_nil_r in Hp. cbn in Hn. destruct st; cbn; rewrite ?app_nil_r, ?length_app; cbn; try (split; [lia|done]).
    split; [lia|]. by rewrite drop_app_le, Hp by lia.
  - destruct st as [t|e|v n|]; cbn in *; try done. destruct Hst as [Hq Hcm]. rewrite Eco, Hcm. by rewrite Hq in Eq.
Qed.

Lemma logger_worker_ok l : logger_ok l -> logger_ok (process_logs l).
Proof.
  intros Hok. pose proof Hok as [Hf Hc Hwt Hse Hoe Hs Ho Hm Hk]. unfold process_logs, process_step.
  destruct (m_worker l) as [|t|msg next|] eqn:Ew.
  - destruct (read_effect_ok (m_channel l) no_stop WAIT) as [He _]; [by rewrite Hwt|].
    pose proof (read_fails (m_channel l)) as Hfail. pose proof (read_calm (m_channel l) WAIT) as Hsleep.
    destruct (read (m_channel l) no_stop WAIT) as [c st]. cbn [fst snd] in *.
    eapply after_read_ok; [by rewrite Ew|done..| |].
    + destruct st as [t|e|v n|]; [by apply Hsleep|by apply (Hfail e)|done..].
    + rewrite Hwt. by destruct st.
  - subst t. pose proof (read_wait_effect (m_channel l) no_stop) as He.
    pose proof (read_wait_fails (m_channel l)) as Hfail. pose proof (read_wait_calm (m_channel l)) as Hsleep.
    destruct (read_wait (m_channel l) no_stop) as [c st]. cbn [fst snd] in *.
    eapply after_read_ok; [by rewrite Ew|done..| |].
    + destruct st as [t|e|v n|]; [done|by apply (Hfail e)|done..].
    + rewrite Hwt. by destruct st.
  - destruct (Nat.ltb_spec next (length (m_sinks l))) as [Hlt|Hge]; split; members; rewrite ?app_nil_r; try done.
    + apply Forall_alter; [done|]. intros e _. apply deliver_ok.
    + intros i e. rewrite list_lookup_alter. destruct (decide (next = i)) as [<-|Hne].
      * intros (e' & He & ->)%fmap_Some. destruct (Hs _ _ He) as [Hn Hp]. cbn [outstanding] in *.
        rewrite Nat.ltb_irrefl in Hn, Hp. rewrite (proj2 (Nat.ltb_lt next (1 + next))) by lia. cbn in *.
        rewrite app_nil_r. split; [lia|done].
      * intros He. destruct (Hs _ _ He) as [Hn Hp]. cbn [outstanding] in *.
        by replace (Nat.ltb i (1 + next)) with (Nat.ltb i next)
          by (destruct (Nat.ltb_spec i next), (Nat.ltb_spec i (1 + next)); lia).
    + intros E. apply Hm. apply (f_equal length) in E. rewrite length_alter in E. by apply nil_length_inv.
    + intros i e He. destruct (Hs i e He) as [Hn Hp]. apply lookup_lt_Some in He as Hi. cbn [outstanding] in *.
      rewrite (proj2 (Nat.ltb_lt i next)) in Hn, Hp by lia. done.
  - rewrite app_nil_r. destruct l. cbn in *. by subst.
Qed.

Lemma complete_logger_ok l : logger_ok l -> logger_ok (complete_logger l).
Proof.
  intros [Hf Hc Hwt Hse Hoe Hs Ho Hm Hk]. split; members; cbn; try done.
  destruct (m_worker l); try done. by destruct Hk.
Qed.

Lemma logger_step_ok l l' : logger_ok l -> step l l' -> logger_ok l'.
Proof.
  intros Hok Hs. destruct Hs as [l s Hw Hi|l i msg Hi|l i msg next Hi|l|l Hi];
    eauto using add_sink_ok, call_ok, logger_worker_ok, complete_logger_ok.
  destruct (decide (next < length (m_own_channel_sinks l))%nat); [by apply log_write_ok|].
  apply log_last_ok; [done|lia|done].
Qed.

Lemma logger_reachable_ok threads l : rtc step (make_logger threads) l -> logger_ok l.
Proof. intros H. by eapply rtc_invariant; [apply logger_step_ok|exact H|apply make_logger_ok]. Qed.

(** ** The worker on its own *)

(** What is left to do: a call per sink and two for the read, per message. *)
Definition logger_work (l : logger) : nat :=
  ((length (m_sinks l) + 2) * length (m_queue (m_channel l))
   + match m_worker l with
     | Reading | Parked _ => 1
     | Writing _ next => length (m_sinks l) - next + 2
     | Ended => 0
     end)%nat.

Definition ended (w : worker) : bool := match w with Ended => true | _ => false end.

Lemma process_logs_frame l :
  pushed (process_logs l) = pushed l /\ logged (process_logs l) = logged l /\
  m_own_channel_sinks (process_logs l) = m_own_channel_sinks l /\ callers (process_logs l) = callers l.
Proof. unfold process_logs. by destruct (process_step _ _ _) as [[[c sinks] w] ms]. Qed.

Lemma process_logs_sinks l : length (m_sinks (process_logs l)) = length (m_sinks l).
Proof.
  unfold process_logs, process_step. destruct (m_worker l) as [|t|msg next|]; [| | |done].
  - by destruct (read _ _ _).
  - by destruct (read_wait _ _).
  - destruct (Nat.ltb next _); [|done]. cbn. by rewrite length_alter.
Qed.

(** A read of a completed channel does not park, and takes a message or ends. *)
Lemma completed_read (c c' : channel M) st r :
  m_writer_completed c = true -> read_effect c c' st r ->
  m_writer_completed c' = true /\
  match worker_after st with
  | Writing _ next => next = O /\ (1 + length (m_queue c'))%nat = length (m_queue c)
  | Ended => length (m_queue c') = length (m_queue c)
  | _ => False
  end.
Proof.
  intros Hc [Eq _ Eco _ _ Est]. rewrite Eco. split; [done|].
  destruct st as [t|e|v n|]; cbn in *; [destruct Est; congruence|by rewrite Eq|by rewrite Eq|done].
Qed.

Lemma logger_work_decreases l :
  logger_ok l -> m_writer_completed (m_channel l) = true ->
  m_writer_completed (m_channel (process_logs l)) = true /\
  (ended (m_worker l) = false -> (logger_work (process_logs l) < logger_work l)%nat).
Proof.
  intros [Hf Hcap Hwt _ _ _ _ _ Hk] Hc. unfold process_logs, process_step, logger_work at 2.
  destruct (m_worker l) as [|t|msg next|] eqn:Ew.
  - destruct (read_effect_ok (m_channel l) no_stop WAIT) as [He _]; [by rewrite Hwt|].
    destruct (read (m_channel l) no_stop WAIT) as [c st]. cbn [fst snd] in He.
    destruct (completed_read _ _ _ _ Hc He) as [Hc' Hw]. unfold logger_work. members. split; [done|].
    intros _. destruct (worker_after st); [done..| |]; [destruct Hw as [-> Hw]|]; lia.
  - pose proof (read_wait_effect (m_channel l) t) as He. destruct (read_wait (m_channel l) t) as [c st].
    cbn [fst snd] in He. destruct (completed_read _ _ _ _ Hc He) as [Hc' Hw]. unfold logger_work. members.
    split; [done|]. intros _. destruct (worker_after st); [done..| |]; [destruct Hw as [-> Hw]|]; lia.
  - destruct (Nat.ltb_spec next (length (m_sinks l))); unfold logger_work; members;
      (split; [done|]); intros _; rewrite ?length_alter; lia.
  - unfold logger_work. members. by split.
Qed.

Lemma completed_stays l l' :
  logger_ok l -> step l l' -> m_writer_completed (m_channel l) = true -> m_writer_completed (m_channel l') = true.
Proof.
  intros Hok Hs Hc. destruct Hs as [l s Hw Hi|l i msg Hi|l i msg next Hi|l|l Hi]; try done.
  - unfold add_sink. by destruct (own_channel s).
  - unfold log_step. destruct (Nat.ltb next _); [done|]. destruct (negb _); [|done].
    destruct (try_push (m_channel l) msg) as [c st] eqn:Ep.
    destruct (try_push_unbounded _ _ _ _ (ok_capacity l Hok) Ep) as (_ & _ & _ & Ew & _). cbn. by rewrite Ew.
  - by apply logger_work_decreases.
Qed.

Lemma join_worker_ends fuel l :
  logger_ok l -> m_writer_completed (m_channel l) = true -> (logger_work l <= fuel)%nat ->
  logger_ok (join_worker fuel l) /\ pushed (join_worker fuel l) = pushed l /\ m_worker (join_worker fuel l) = Ended.
Proof.
  revert l. induction fuel as [|fuel IH]; intros l Hok Hc Hl; cbn [join_worker].
  - split_and!; [done..|]. unfold logger_work in Hl. destruct (m_worker l); (done || lia).
  - destruct (logger_work_decreases l Hok Hc) as [Hc' Hlt]. destruct (process_logs_frame l) as [Hp _].
    destruct (ended (m_worker l)) eqn:He.
    + assert (m_worker l = Ended) as Hw by (by destruct (m_worker l)).
      destruct (IH (process_logs l)) as (? & ? & ?); [by apply logger_worker_ok|done| |by split_and!; [|congruence|]].
      assert (logger_work (process_logs l) = logger_work l) as ->.
      { unfold process_logs, process_step, logger_work. by rewrite Hw. }
      pose proof (ok_worker l Hok) as Hk. rewrite Hw in Hk. unfold logger_work. rewrite Hw. destruct Hk as [-> _]. cbn. lia.
    + specialize (Hlt eq_refl). destruct (IH (process_logs l)) as (? & ? & ?); [by apply logger_worker_ok|done|lia|].
      by split_and!; [|congruence|].
Qed.

Lemma logger_drained threads l fuel
    (Hrun : rtc step (make_logger threads) l) (Hdone : m_writer_completed (m_channel l) = true)
    (Hfuel : (logger_work l <= fuel)%nat) :
  let l' := join_worker fuel l in
  m_worker l' = Ended /\ pushed l' = pushed l /\
  forall i e, m_sinks l' !! i = Some e ->
    e_got e = drop (e_since e) (pushed l) /\
    e_sink e = foldl (fun s m => write m s) (e_first e) (drop (e_since e) (pushed l)).
Proof.
  destruct (join_worker_ends fuel l (logger_reachable_ok threads l Hrun) Hdone Hfuel) as (Hok & Hp & Hw).
  cbv zeta. split_and!; [done..|]. intros i e He. destruct Hok as [Hf _ _ Hse _ Hs _ _ Hk].
  destruct (Hs i e He) as [_ Hgot]. rewrite Hw in Hgot, Hk. cbn in Hgot. destruct Hk as [Hq _].
  rewrite Hq, app_nil_r, Hp in Hf. rewrite app_nil_r, <- Hf in Hgot. split; [done|]. rewrite Forall_lookup in Hse.
  rewrite <- Hgot. by apply (Hse i).
Qed.

(** ** Properties *)

(** While the channel is open, a step with a shared sink there logs what it
    queues. *)
Lemma logged_is_queued l l' :
  logger_ok l -> step l l' -> m_sinks l ≠ [] -> m_writer_completed (m_channel l') = false ->
  m_sinks l' ≠ [] /\ m_writer_completed (m_channel l) = false /\
  exists new, logged l' = logged l ++ new /\ pushed l' = pushed l ++ new.
Proof.
  intros Hok Hs Hne Hopen. destruct Hs as [l s Hw Hi|l i msg Hi|l i msg next Hi|l|l Hi]; [| | | |done].
  - unfold add_sink in *. destruct (own_channel s); cbn in *;
      (split_and!; [try done|done|exists []; by rewrite !app_nil_r]). by intros []%app_nil.
  - split_and!; [done..|]. exists []. by rewrite !app_nil_r.
  - unfold log_step in *. destruct (Nat.ltb next _); [members; split_and!; [done..|exists []; by rewrite !app_nil_r]|].
    destruct (Z.eqb_spec (len (m_sinks l)) 0) as [E|_]; [by apply len_nil_iff in E|]. cbn [negb] in *.
    destruct (try_push (m_channel l) msg) as [c st] eqn:Ep.
    destruct (try_push_unbounded _ _ _ _ (ok_capacity l Hok) Ep) as (_ & _ & _ & Ew & Hq & _). cbn [m_channel] in Hopen.
    rewrite Ew in Hopen. members. split_and!; [done..|]. exists [msg]. by rewrite Hq.
  - destruct (process_logs_frame l) as (Ep & El & _). rewrite Ep, El. split_and!.
    + intros E. apply Hne, nil_length_inv. by rewrite <- process_logs_sinks, E.
    + destruct (m_writer_completed (m_channel l)) eqn:Ec; [|done].
      destruct (logger_work_decreases l Hok Ec) as [Hc' _]. congruence.
    + exists []. by rewrite !app_nil_r.
Qed.

Lemma logged_since_is_queued l1 l :
  logger_ok l1 -> rtc step l1 l -> m_sinks l1 ≠ [] -> m_writer_completed (m_channel l) = false ->
  exists new, logged l = logged l1 ++ new /\ pushed l = pushed l1 ++ new.
Proof.
  intros Hok Hrun Hne. revert l Hrun.
  assert (forall l, rtc step l1 l -> logger_ok l /\ (m_writer_completed (m_channel l) = false ->
    m_sinks l ≠ [] /\ exists new, logged l = logged l1 ++ new /\ pushed l = pushed l1 ++ new)) as H.
  { apply (rtc_ind_r (fun l => logger_ok l /\ (m_writer_completed (m_channel l) = false ->
      m_sinks l ≠ [] /\ exists new, logged l = logged l1 ++ new /\ pushed l = pushed l1 ++ new))).
    - split; [done|]. intros _. split; [done|]. exists []. by rewrite !app_nil_r.
    - intros l2 l3 _ Hst [Hok2 IH]. split; [by eapply logger_step_ok|]. intros Ho.
      assert (m_writer_completed (m_channel l2) = false) as Hc2.
      { destruct (m_writer_completed (m_channel l2)) eqn:Ec; [|done].
        by rewrite (completed_stays l2 l3 Hok2 Hst Ec) in Ho. }
      destruct (IH Hc2) as (Hne2 & new0 & El0 & Ep0).
      destruct (logged_is_queued l2 l3 Hok2 Hst Hne2 Ho) as (Hne3 & _ & new & El & Ep). split; [done|]. exists (new0 ++ new). by rewrite El, Ep, El0, Ep0, !app_assoc. }
  intros l Hrun Ho. by destruct (H l Hrun) as [_ [_ Hx]].
Qed.

(** C9: whatever the callers and the worker do in between: each shared sink
    has been given, in order and once, the messages the channel accepted
    since it was added, up to what the worker has not taken or not yet handed
    to it; each own-channel sink has been given exactly the messages of the
    calls that returned since it was added and of those that have passed it;
    and the state of every sink is what these writes make of it.  From the
    moment there is a shared sink until the destructor completes the channel,
    the channel accepts exactly the messages that are logged, in that order;
    without a shared sink it accepts none. *)
Theorem logger_delivers threads l (Hrun : rtc step (make_logger threads) l) :
  (forall i e, m_sinks l !! i = Some e ->
    e_sink e = foldl (fun s m => write m s) (e_first e) (e_got e) /\
    e_got e ++ outstanding (m_worker l) i ++ m_queue (m_channel l) = drop (e_since e) (pushed l)) /\
  (forall k e, m_own_channel_sinks l !! k = Some e ->
    e_sink e = foldl (fun s m => write m s) (e_first e) (e_got e) /\
    e_got e ≡ₚ drop (e_since e) (logged l) ++ in_flight k (callers l)) /\
  (forall l1, rtc step (make_logger threads) l1 -> rtc step l1 l -> m_sinks l1 ≠ [] ->
    m_writer_completed (m_channel l) = false ->
    exists new, logged l = logged l1 ++ new /\ pushed l = pushed l1 ++ new) /\
  (m_sinks l = [] -> pushed l = []).
Proof.
  destruct (logger_reachable_ok threads l Hrun) as [Hf _ _ Hse Hoe Hs Ho Hm _]. split_and!; [| | |done].
  - intros i e He. destruct (Hs i e He) as [Hn Hp]. rewrite Forall_lookup in Hse.
    split; [by apply (Hse i)|]. rewrite app_assoc, Hp, Hf, drop_app_le by lia. done.
  - intros k e He. rewrite Forall_lookup in Hoe. split; [by apply (Hoe k)|by apply Ho].
  - intros l1 H1 H2 Hne Hopen. by apply logged_since_is_queued; [apply (logger_reachable_ok threads)|..].
Qed.

(** C31: the destructor ends and loses nothing: after it has completed the
    channel, the worker left alone ends within [logger_work] calls, and every
    shared sink has then been given everything accepted since it was added. *)
Theorem logger_destructor_drains threads l fuel
    (Hrun : rtc step (make_logger threads) l) (Hdone : m_writer_completed (m_channel l) = true)
    (Hfuel : (logger_work l <= fuel)%nat) :
  let l' := join_worker fuel l in
  m_worker l' = Ended /\ pushed l' = pushed l /\
  forall i e, m_sinks l' !! i = Some e ->
    e_got e = drop (e_since e) (pushed l) /\
    e_sink e = foldl (fun s m => write m s) (e_first e) (drop (e_since e) (pushed l)).
Proof. by apply (logger_drained threads). Qed.
End logger.

(** ** A file behind the logger

    The console and file sinks under the interface: the sink's settings and
    what its descriptor has received.  [kernel] gives the answers of
    [::write] to the line being written. *)
Section stream.
Context {A : Type} (vformat : bytes -> list (owned A) -> bytes + bytes) (localtime gmtime : Z -> option tm).
Context (kernel : bytes -> list sys_result).

Definition line_of (s : log_sink) (msg : log_message A) : bytes :=
  (message_line vformat localtime gmtime s msg).1.

Definition stream_write (msg : log_message A) (s : log_sink * bytes) : log_sink * bytes :=
  match (sink_write vformat localtime gmtime s.1 msg (kernel (line_of s.1 msg))).2 with
  | Some (written, _, _) => (s.1, s.2 ++ written)
  | None => s
  end.

Lemma stream_write_sink msg s : (stream_write msg s).1 = s.1.
Proof. unfold stream_write. by destruct (sink_write _ _ _ _ _ _).2 as [[[? ?] ?]|]. Qed.

#[export] Program Instance stream_sink : LogSink (log_sink * bytes) (log_message A) := {
  own_channel s := sk_own_channel s.1;
  write := stream_write
}.
Next Obligation. intros msg s. cbn. by rewrite stream_write_sink. Qed.

(** The lines of the messages a sink does not filter out. *)
Definition lines_of (s : log_sink) (msgs : list (log_message A)) : bytes :=
  concat (map (line_of s) (List.filter (fun msg => negb (level_ltb (m_level msg) (sk_min_log_level s))) msgs)).

(** The kernel takes every line in the end. *)
Definition kernel_serves : Prop := forall data, serves (len data) (kernel data).

Lemma stream_write_line s out msg :
  kernel_serves -> len (line_of s msg) < size_modulus ->
  stream_write msg (s, out) = (s, out ++ lines_of s [msg]).
Proof.
  intros Hk Hlen. unfold stream_write, sink_write, lines_of. cbn [fst snd List.filter].
  destruct (level_ltb (m_level msg) (sk_min_log_level s)); cbn [negb]; [by rewrite app_nil_r|].
  unfold write_message_log. cbn [map concat]. unfold line_of in *.
  destruct (message_line vformat localtime gmtime s msg) as [line msg']. cbn [fst snd] in *.
  destruct (Hk line) as (Hw & Hr & Hp).
  pose proof (write_to_output_spec (sk_flush_on_write s) line (kernel line) Hlen Hw) as H.
  destruct (write_to_output (sk_flush_on_write s) line (kernel line)) as [[written st] synced].
  destruct H as (_ & Hd & _ & Hl). rewrite app_nil_r, (Hd (Hl Hr Hp)). done.
Qed.

Lemma stream_writes s out msgs :
  kernel_serves -> Forall (fun msg => len (line_of s msg) < size_modulus) msgs ->
  foldl (fun s msg => stream_write msg s) (s, out) msgs = (s, out ++ lines_of s msgs).
Proof.
  intros Hk Hlen. revert out. induction Hlen as [|msg msgs Hl _ IH]; intros out; cbn [foldl].
  { unfold lines_of. cbn. by rewrite app_nil_r. }
  rewrite stream_write_line, IH by done. unfold lines_of. cbn [List.filter].
  destruct (negb _); cbn [map concat]; by rewrite ?app_nil_r, ?app_assoc.
Qed.

(** C26: after the destructor, the descriptor behind a console or file sink has
    received, in order and whole, one line for each accepted message whose
    level reaches the sink's, whatever partial writes and interruptions
    occurred. *)
Theorem stream_sink_output threads l fuel i e s out
    (Hkernel : kernel_serves) (Hrun : rtc step (make_logger threads) l)
    (Hdone : m_writer_completed (m_channel l) = true) (Hfuel : (logger_work l <= fuel)%nat)
    (He : m_sinks (join_worker fuel l) !! i = Some e) (Hfirst : e_first e = (s, out))
    (Hlen : Forall (fun msg => len (line_of s msg) < size_modulus) (pushed l)) :
  e_sink e = (s, out ++ lines_of s (drop (e_since e) (pushed l))).
Proof.
  destruct (logger_drained threads l fuel Hrun Hdone Hfuel) as (_ & _ & Hd).
  destruct (Hd i e He) as [_ ->]. rewrite Hfirst. apply stream_writes; [done|]. by apply Forall_drop.
Qed.
End stream.

(** ** Instances *)

Definition verbatim (fmt : bytes) (args : list (owned Z)) : bytes + bytes := inl fmt.

(** A sink that records what it is given. *)
#[export] Instance recorder : LogSink (bool * list nat) nat := {
  own_channel s := s.1;
  write m s := (s.1, s.2 ++ [m]);
  own_channel_write m s := eq_refl
}.

(** Two calls at once, a shared and an own-channel sink, the worker halfway. *)
Definition demo_configured : logger (S := bool * list nat) (M := nat) :=
  add_sink (true, []) (add_sink (false, []) (make_logger 2)).
Definition demo_logger : logger (S := bool * list nat) (M := nat) :=
  (process_logs (log_step 1 8 1 (log_step 1 8 0 (log_step 0 7 0 (call_log 1 8 (call_log 0 7 demo_configured))))))%nat.

Lemma demo_configured_reachable : rtc step (make_logger 2) demo_configured.
Proof. unfold demo_configured. do 2 (eapply rtc_r; [|by apply StepAddSink]). reflexivity. Qed.

Lemma demo_logger_run : rtc step demo_configured demo_logger.
Proof.
  unfold demo_logger.
  eapply rtc_r; [|by apply StepWorker]. do 3 (eapply rtc_r; [|by apply StepLog]).
  eapply rtc_r; [|by apply (StepCall _ 1 8%nat)]. eapply rtc_r; [|by apply (StepCall _ 0 7%nat)]. reflexivity.
Qed.

Lemma demo_logger_reachable : rtc step (make_logger 2) demo_logger.
Proof. etrans; [exact demo_configured_reachable|exact demo_logger_run]. Qed.

Lemma logger_delivers_witness :
  (forall k e, m_own_channel_sinks demo_logger !! k = Some e ->
    e_got e ≡ₚ drop (e_since e) (logged demo_logger) ++ in_flight k (callers demo_logger)) /\
  logged demo_logger = [8%nat] /\ in_flight 0 (callers demo_logger) = [7%nat] /\
  (exists new, logged demo_logger = [] ++ new /\ pushed demo_logger = [] ++ new).
Proof.
  destruct (logger_delivers 2 demo_logger demo_logger_reachable) as (_ & Ho & Hq & _).
  split_and!; [|by vm_compute|by vm_compute|].
  - intros k e He. by apply (Ho k e He).
  - by apply (Hq demo_configured demo_configured_reachable demo_logger_run).
Defined.

(** Both calls over, the logger is destroyed. *)
Definition demo_destroyed : logger := complete_logger (log_step 0 7%nat 1 demo_logger).

Lemma demo_destroyed_reachable : rtc step (make_logger 2) demo_destroyed.
Proof.
  eapply rtc_r; [eapply rtc_r; [exact demo_logger_reachable|by apply (StepLog _ 0 7%nat 1)]|by apply StepDestroy].
Qed.

Lemma logger_destructor_drains_witness :
  m_worker (join_worker 8 demo_destroyed) = Ended /\
  map e_sink (m_sinks (join_worker 8 demo_destroyed)) = [(false, [8%nat; 7%nat])].
Proof.
  split; [|by vm_compute].
  by apply (logger_destructor_drains 2 demo_destroyed 8 demo_destroyed_reachable eq_refl); vm_compute; lia.
Defined.

(** A kernel that takes two bytes at a time. *)
Fixpoint by_twos (fuel : nat) (n : Z) : list sys_result :=
  match fuel with
  | O => []
  | S fuel => if n <? 2 then (if n =? 1 then [SysOk 1] else []) else SysErr EINTR :: SysOk 2 :: by_twos fuel (n - 2)
  end.
Definition demo_kernel (data : bytes) : list sys_result := by_twos (S (length data)) (len data).

Lemma by_twos_serves fuel n : 0 <= n < Z.of_nat fuel -> serves n (by_twos fuel n).
Proof.
  revert n. induction fuel as [|fuel IH]; intros n Hn; [lia|]. cbn [by_twos]. destruct (Z.ltb_spec n 2).
  - assert (n = 0 \/ n = 1) as [-> | ->] by lia; unfold serves; cbn; split_and!; (done || lia || by repeat constructor).
  - destruct (IH (n - 2) ltac:(lia)) as (H1 & H2 & H3). unfold serves. cbn.
    split_and!; [lia|lia|done|by repeat constructor|lia].
Qed.

Lemma demo_kernel_serves : kernel_serves demo_kernel.
Proof. intros data. apply by_twos_serves. unfold len. lia. Qed.

Definition demo_stream : log_sink := Sink default_sink_opts information false false true false 3.
Definition no_zone (time : Z) : option tm := None.

(** The logger over that file, one message of each side of the level. *)
#[local] Definition demo_line_sink : LogSink (log_sink * bytes) (log_message Z) :=
  stream_sink verbatim no_zone no_zone demo_kernel.
#[local] Existing Instance demo_line_sink.

Definition quiet_message : log_message Z := make_message 0 None (Location (text "b.cpp") 9 (text "g")) debug (text "hush") [].
Definition plain_message : log_message Z := make_message 0 None (Location (text "b.cpp") 8 (text "f")) warning (text "loud") [].

Definition demo_file_logger : logger (S := log_sink * bytes) (M := log_message Z) :=
  let l := add_sink (demo_stream, text "old") (make_logger 1) in
  let say m l := log_step 0 m 0 (call_log 0 m l) in
  complete_logger (say plain_message (say quiet_message l)).

Lemma demo_file_logger_reachable : rtc step (make_logger 1) demo_file_logger.
Proof.
  unfold demo_file_logger. cbv zeta. eapply rtc_r; [|by apply StepDestroy].
  do 2 (eapply rtc_r; [|by apply StepLog]; eapply rtc_r; [|by apply StepCall]).
  eapply rtc_once. by apply StepAddSink.
Qed.

Lemma stream_sink_output_witness :
  map e_sink (m_sinks (join_worker 9 demo_file_logger)) =
  [(demo_stream, text "old" ++ lines_of verbatim no_zone no_zone demo_stream [plain_message])].
Proof.
  destruct (m_sinks (join_worker 9 demo_file_logger)) as [|e [|? ?]] eqn:E; [by vm_compute in E| |by vm_compute in E].
  cbn [map]. f_equal.
  rewrite (stream_sink_output verbatim no_zone no_zone demo_kernel 1 demo_file_logger 9 0 e demo_stream (text "old")
    demo_kernel_serves demo_file_logger_reachable eq_refl).
  - vm_compute in E. injection E as <-. by vm_compute.
  - by apply Nat.leb_le; vm_compute.
  - exact (f_equal (fun l => l !! 0%nat) E).
  - vm_compute in E. by injection E as <-.
  - repeat constructor.
Defined.
