(* ===== verification/LoggingSystem.v ===== *)
(** A logger with its sinks at work: the threads that log and the worker of
    Logger.v, and for every [otel_sink] its channel and worker of OtelSink.v,
    all interleaved; and the destructors, as [~logger] runs them.

    A text sink is written to by the logger's worker.  An [otel_sink] has its
    own channel: the threads that log write to it themselves. *)

From S2P Require Import Prelude Channel System LogMessage Sinks Json OtelSerializer OtelSink Logger.

(** A sink as the logger sees it; the state of an [otel_sink] is beside the
    logger, for its worker changes it too. *)
Inductive any_sink :=
  | TextSink (s : log_sink * bytes)
  | OtelPort.

Section logging.
Context {A : Type} (vformat : bytes -> list (owned A) -> bytes + bytes) (localtime gmtime : Z -> option tm).
Context (kernel : bytes -> list sys_result) (format_arg_of : owned A -> bytes) (hostname : bytes).
#[local] Abbreviation message := (log_message A).

Definition any_own_channel (s : any_sink) : bool :=
  match s with TextSink s => sk_own_channel s.1 | OtelPort => true end.

Definition any_write (msg : message) (s : any_sink) : any_sink :=
  match s with TextSink s => TextSink (stream_write vformat localtime gmtime kernel msg s) | OtelPort => OtelPort end.

Lemma any_write_own_channel msg s : any_own_channel (any_write msg s) = any_own_channel s.
Proof. destruct s; cbn; [by rewrite stream_write_sink|done]. Qed.

#[export] Instance any_log_sink : LogSink any_sink message := {
  own_channel := any_own_channel;
  write := any_write;
  own_channel_write := any_write_own_channel
}.

(** An [otel_sink] with its options. *)
Definition exporter : Type := otel_sink_opts * OtelSink.sink (A := A).

(** [lg_exporters] are the states of the [m_own_channel_sinks], in order;
    [lg_destroyed]: [~logger] has begun. *)
Record logging := LoggingState {
  lg_logger : logger (S := any_sink) (M := message);
  lg_exporters : list exporter;
  lg_destroyed : bool
}.

Definition make_logging (threads : nat) : logging := LoggingState (make_logger threads) [] false.

(** *** What the threads do with an [otel_sink] *)

Definition write_to (msg : message) (x : exporter) : exporter :=
  let '(c, accepted) := otel_write x.1 (o_channel x.2) msg in
  (x.1, OtelSink c (o_worker x.2) (o_requests x.2) (o_accepted x.2 ++ accepted) (o_batches x.2) (o_current x.2)).

Definition export_step (x : exporter) : exporter := (x.1, worker_alone vformat format_arg_of x.1 hostname x.2).

Definition complete_exporter (x : exporter) : exporter :=
  (x.1, OtelSink (complete_writer (o_channel x.2)) (o_worker x.2) (o_requests x.2) (o_accepted x.2) (o_batches x.2)
     (o_current x.2)).

(** [~otel_sink]: the completion, and the worker left alone. *)
Definition destroy_exporter (fuel : nat) (x : exporter) : exporter :=
  let x := complete_exporter x in (x.1, run_worker vformat format_arg_of x.1 hostname fuel x.2).

(** *** Steps *)

Definition quiet (l : logger (S := any_sink) (M := message)) : bool :=
  negb (writing (m_worker l)) && forallb idle (callers l).

Definition attach_text_sink (s : log_sink * bytes) (g : logging) : logging :=
  LoggingState (add_sink (TextSink s) (lg_logger g)) (lg_exporters g) (lg_destroyed g).

Definition attach_otel_sink (opts : otel_sink_opts) (g : logging) : outcome logging :=
  _ ← validate_otel_opts opts;
  Ret (LoggingState (add_sink OtelPort (lg_logger g)) (lg_exporters g ++ [(opts, make_otel_sink)]) (lg_destroyed g)).

(** One iteration of [log]'s loop over the own-channel sinks, or its end. *)
Definition log_next (i : nat) (msg : message) (next : nat) (g : logging) : logging :=
  LoggingState (log_step i msg next (lg_logger g)) (alter (write_to msg) next (lg_exporters g)) (lg_destroyed g).

Inductive logging_step : logging -> logging -> Prop :=
  | AddText g s :
      quiet (lg_logger g) = true -> lg_destroyed g = false -> sk_own_channel s.1 = false ->
      logging_step g (attach_text_sink s g)
  | AddOtel g opts g' :
      quiet (lg_logger g) = true -> lg_destroyed g = false -> is_size (oo_batch_size opts) ->
      attach_otel_sink opts g = Ret g' -> logging_step g g'
  | CallLog g i now ex location level fmt args :
      callers (lg_logger g) !! i = Some Idle -> lg_destroyed g = false ->
      logging_step g (LoggingState (call_log i (make_message now ex location level fmt args) (lg_logger g)) (lg_exporters g) false)
  | LogNext g i msg next :
      callers (lg_logger g) !! i = Some (Logging msg next) -> logging_step g (log_next i msg next g)
  | LogWorker g : logging_step g (LoggingState (process_logs (lg_logger g)) (lg_exporters g) (lg_destroyed g))
  | ExportStep g k : logging_step g (LoggingState (lg_logger g) (alter export_step k (lg_exporters g)) (lg_destroyed g))
  | Destroy g :
      forallb idle (callers (lg_logger g)) = true ->
      logging_step g (LoggingState (complete_logger (lg_logger g)) (lg_exporters g) true)
  | DestroyExporter g k :
      lg_destroyed g = true -> ended (m_worker (lg_logger g)) = true ->
      logging_step g (LoggingState (lg_logger g) (alter complete_exporter k (lg_exporters g)) true).

(** [~logger], with no other thread but the workers: the completion, the
    join, and the destructors of the sinks. *)
Definition destroy_logging (fuel : nat) (g : logging) : logging :=
  LoggingState (join_worker fuel (complete_logger (lg_logger g))) (map (destroy_exporter fuel) (lg_exporters g)) true.

(** ** The invariant *)

Definition passes (opts : otel_sink_opts) (msg : message) : bool := negb (level_ltb (m_level msg) (oo_min_log_level opts)).

(** An exporter accepted what the logger gave it, less what its level drops. *)
Record exporter_ok (x : exporter) (e : sink_entry (S := any_sink) (M := message)) : Prop := {
  xo_batch : 1 <= oo_batch_size x.1 < size_modulus;
  xo_sink : sink_ok vformat format_arg_of x.1 hostname x.2;
  xo_accepted : o_accepted x.2 = List.filter (passes x.1) (e_got e);
  xo_messages : Forall (message_ok vformat format_arg_of) (e_got e)
}.

Definition caller_ok (c : caller (M := message)) : Prop :=
  match c with Logging msg _ => message_ok vformat format_arg_of msg | Idle => True end.

Definition open_exporter (x : exporter) : Prop := m_writer_completed (o_channel x.2) = false.

Record logging_ok (g : logging) : Prop := {
  go_logger : logger_ok (lg_logger g);
  go_exporters : Forall2 exporter_ok (lg_exporters g) (m_own_channel_sinks (lg_logger g));
  go_callers : Forall caller_ok (callers (lg_logger g));
  go_open : lg_destroyed g = false -> Forall open_exporter (lg_exporters g);
  go_destroyed : lg_destroyed g = true ->
    m_writer_completed (m_channel (lg_logger g)) = true /\ forallb idle (callers (lg_logger g)) = true
}.

Lemma make_logging_ok threads : logging_ok (make_logging threads).
Proof. split; try done. by apply Forall_replicate. Qed.

Lemma validated_batch opts :
  is_size (oo_batch_size opts) -> validate_otel_opts opts = Ret tt -> 1 <= oo_batch_size opts < size_modulus.
Proof.
  intros [H0 H1] E. unfold validate_otel_opts in E.
  repeat match type of E with
  | mbind _ ?o = _ => destruct o; cbn [mbind outcome_bind] in E; [|done..]
  end. destruct (Z.eqb_spec (oo_batch_size opts) 0); [done|lia].
Qed.

Lemma write_to_ok msg x e :
  exporter_ok x e -> open_exporter x -> message_ok vformat format_arg_of msg ->
  exporter_ok (write_to msg x) (deliver msg e) /\ open_exporter (write_to msg x).
Proof.
  intros [Hb Hs Ha Hm] Ho Hmsg. destruct x as [opts s]. unfold write_to, open_exporter in *. cbn [fst snd] in *.
  destruct (otel_write opts (o_channel s) msg) as [c accepted] eqn:E.
  pose proof (write_ok vformat format_arg_of opts hostname s msg c accepted Hs E) as Hok.
  unfold otel_write, try_push, emplace, full in E. rewrite (ok_unbounded _ _ _ _ _ Hs) in E. cbn in E. rewrite Ho in E.
  split; [split; cbn [fst snd o_accepted deliver e_got]; [done|exact Hok| |by apply Forall_app; split; [|apply Forall_singleton]]|].
  - rewrite List.filter_app, Ha. f_equal. cbn. unfold passes.
    destruct (level_ltb (m_level msg) (oo_min_log_level opts)); cbn in E |- *; by injection E as _ <-.
  - cbn. destruct (level_ltb (m_level msg) (oo_min_log_level opts)); cbn in E; by injection E as <- _.
Qed.

Lemma worker_alone_completed opts (s : OtelSink.sink (A := A)) :
  1 <= oo_batch_size opts < size_modulus -> sink_ok vformat format_arg_of opts hostname s ->
  m_writer_completed (o_channel (worker_alone vformat format_arg_of opts hostname s)) = m_writer_completed (o_channel s).
Proof.
  intros Hb [_ _ _ _ Hw _]. unfold worker_alone. destruct (o_worker s) as [|t|body count|] eqn:Eo; cbn [worker_step]; [| | |done].
  - destruct (read_effect_ok (o_channel s) no_stop WAIT) as [[_ _ Eco _ _ _] _]; [by rewrite Hw|].
    by destruct (read (o_channel s) no_stop WAIT) as [c st].
  - destruct (read_wait_effect (o_channel s) t) as [_ _ Eco _ _ _]. by destruct (read_wait (o_channel s) t) as [c st].
  - destruct (count <? oo_batch_size opts); [|done].
    destruct (read_effect_ok (o_channel s) no_stop TRY) as [[_ _ Eco _ _ _] _]; [by rewrite Hw|].
    unfold try_read. destruct (read (o_channel s) no_stop TRY) as [c st]. by destruct st.
Qed.

Lemma export_step_ok x e : exporter_ok x e -> exporter_ok (export_step x) e.
Proof.
  intros [Hb Hs Ha Hm]. destruct (worker_alone_ok vformat format_arg_of x.1 hostname Hb x.2 Hs) as [Hs' Ha'].
  split; cbn [export_step fst snd]; [done|done|congruence|done].
Qed.

Lemma complete_exporter_ok x e : exporter_ok x e -> exporter_ok (complete_exporter x) e.
Proof. intros [Hb Hs Ha Hm]. split; cbn [complete_exporter fst snd]; [done|by apply complete_ok|done|done]. Qed.

(** *** Preservation *)

Local Ltac members :=
  cbn [lg_logger lg_exporters lg_destroyed m_channel m_sinks m_own_channel_sinks m_worker callers logged pushed taken].

Lemma quiet_split l : quiet l = true -> writing (m_worker l) = false /\ forallb idle (callers l) = true.
Proof. unfold quiet. intros [Hw Hi]%andb_true_iff. by destruct (writing _). Qed.

Lemma attach_text_sink_ok s g :
  quiet (lg_logger g) = true -> lg_destroyed g = false -> sk_own_channel s.1 = false ->
  logging_ok g -> logging_ok (attach_text_sink s g).
Proof.
  intros [Hw Hi]%quiet_split Hd Hs [Hl Hx Hc Ho Hdes]. unfold attach_text_sink.
  split; members; [by apply add_sink_ok|..]; unfold add_sink; cbn [own_channel any_log_sink any_own_channel]; rewrite ?Hs; by members.
Qed.

Lemma attach_otel_sink_ok opts g g' :
  quiet (lg_logger g) = true -> lg_destroyed g = false -> is_size (oo_batch_size opts) ->
  attach_otel_sink opts g = Ret g' -> logging_ok g -> logging_ok g'.
Proof.
  intros [Hw Hi]%quiet_split Hd Hb E [Hl Hx Hc Ho Hdes]. unfold attach_otel_sink in E.
  destruct (validate_otel_opts opts) as [[]| |] eqn:Ev; cbn [mbind outcome_bind] in E; [|done..]. injection E as <-.
  pose proof (validated_batch opts Hb Ev) as Hbatch.
  split; members; [by apply add_sink_ok|..]; unfold add_sink; cbn [own_channel any_log_sink any_own_channel]; members; [|done| |by rewrite Hd].
  - apply Forall2_app; [done|]. apply Forall2_cons. split; [|done]. split; cbn; try done.
  - intros Hd'. apply Forall_app. split; [by apply Ho|]. by apply Forall_singleton.
Qed.

Lemma call_log_ok g i msg :
  callers (lg_logger g) !! i = Some Idle -> lg_destroyed g = false -> message_ok vformat format_arg_of msg ->
  logging_ok g -> logging_ok (LoggingState (call_log i msg (lg_logger g)) (lg_exporters g) false).
Proof.
  intros Hi Hd Hm [Hl Hx Hc Ho Hdes]. split; members; [by apply call_ok|exact Hx| |intros _; by apply Ho|done].
  cbn [call_log callers]. by apply Forall_insert.
Qed.

(** An iteration of [log]'s loop gives the message to one exporter. *)
Lemma log_next_ok g i msg next :
  callers (lg_logger g) !! i = Some (Logging msg next) -> logging_ok g -> logging_ok (log_next i msg next g).
Proof.
  intros Hi [Hl Hx Hc Ho Hdes].
  assert (lg_destroyed g = false) as Hd.
  { destruct (lg_destroyed g); [|done]. destruct (Hdes eq_refl) as [_ Hidle]. rewrite forallb_forall in Hidle.
    by specialize (Hidle _ (proj1 (list_elem_of_In _ _) (list_elem_of_lookup_2 _ _ _ Hi))). }
  pose proof (proj1 (Forall_lookup _ _) Hc i _ Hi) as Hm. cbn in Hm. specialize (Ho Hd).
  pose proof (Forall2_length _ _ _ Hx) as Hlen.
  assert (logger_ok (log_step i msg next (lg_logger g))) as Hok by (eapply logger_step_ok; [exact Hl|by apply StepLog]).
  unfold log_next. split; members; [exact Hok|..|by rewrite Hd].
  - unfold log_step. destruct (Nat.ltb_spec next (length (m_own_channel_sinks (lg_logger g)))) as [Hlt|Hge].
    + members. apply Forall2_alter; [done|]. intros x e Hx' He Hxe.
      destruct (write_to_ok msg x e) as [? _]; [done|by eapply (proj1 (Forall_lookup _ _) Ho)|done|done].
    + assert (alter (write_to msg) next (lg_exporters g) = lg_exporters g) as ->.
      { apply list_eq. intros j. rewrite list_lookup_alter. case_decide; [subst j|done]. by rewrite lookup_ge_None_2 by lia. }
      destruct (negb (len (m_sinks (lg_logger g)) =? 0)); [destruct (try_push _ _)|]; exact Hx.
  - unfold log_step. destruct (Nat.ltb next _); [members; by apply Forall_insert|].
    destruct (negb (len (m_sinks (lg_logger g)) =? 0)); [destruct (try_push _ _)|]; members; by apply Forall_insert.
  - intros _. apply Forall_lookup. intros k x. rewrite list_lookup_alter. case_decide as Hk; [|by apply (proj1 (Forall_lookup _ _) Ho)].
    subst k. intros (x0 & Hx0 & ->)%fmap_Some. destruct (Forall2_lookup_l _ _ _ _ _ Hx Hx0) as (e & _ & Hxe).
    apply (write_to_ok msg x0 e Hxe); [by eapply (proj1 (Forall_lookup _ _) Ho)|done].
Qed.

Lemma log_worker_ok g :
  logging_ok g -> logging_ok (LoggingState (process_logs (lg_logger g)) (lg_exporters g) (lg_destroyed g)).
Proof.
  intros [Hl Hx Hc Ho Hdes]. destruct (process_logs_frame (lg_logger g)) as (_ & _ & Eo & Ec).
  split; members; [by apply logger_worker_ok|by rewrite Eo|by rewrite Ec|done|].
  intros Hd. destruct (Hdes Hd) as [Hcm Hi]. rewrite Ec. split; [|done]. by apply logger_work_decreases.
Qed.

Lemma export_ok g k :
  logging_ok g -> logging_ok (LoggingState (lg_logger g) (alter export_step k (lg_exporters g)) (lg_destroyed g)).
Proof.
  intros [Hl Hx Hc Ho Hdes]. split; members; [done| |done| |done].
  - apply Forall2_alter_l; [done|]. intros x e _ _. apply export_step_ok.
  - intros Hd. specialize (Ho Hd). apply Forall_lookup. intros j x. rewrite list_lookup_alter.
    case_decide as Hk; [|by apply (proj1 (Forall_lookup _ _) Ho)]. subst j. intros (x0 & Hx0 & ->)%fmap_Some.
    destruct (Forall2_lookup_l _ _ _ _ _ Hx Hx0) as (e & _ & [Hb Hs _ _]). unfold open_exporter. cbn [export_step snd].
    rewrite worker_alone_completed by done. by eapply (proj1 (Forall_lookup _ _) Ho).
Qed.

Lemma logging_step_ok g g' : logging_ok g -> logging_step g g' -> logging_ok g'.
Proof.
  intros Hok Hs. destruct Hs as [g s Hq Hd Hs|g opts g' Hq Hd Hb E|g i now ex location level fmt args Hi Hd|g i msg next Hi|g|g k|g Hi|g k Hd He];
    [by apply attach_text_sink_ok|by eapply attach_otel_sink_ok|apply call_log_ok; [done|done|apply make_message_ok|done]| |by apply log_worker_ok|by apply export_ok|..].
  - by apply log_next_ok.
  - destruct Hok as [Hl Hx Hc Ho Hdes]. split; members; [by apply complete_logger_ok|done..].
  - destruct Hok as [Hl Hx Hc Ho Hdes]. split; members; [done| |done|done|by intros _; apply Hdes].
    apply Forall2_alter_l; [done|]. intros x e _ _. apply complete_exporter_ok.
Qed.

Lemma logging_reachable_ok threads g : rtc logging_step (make_logging threads) g -> logging_ok g.
Proof. intros H. by eapply rtc_invariant; [apply logging_step_ok|exact H|apply make_logging_ok]. Qed.

(** ** The destructors *)

Lemma filter_proper (f : message -> bool) l k : l ≡ₚ k -> List.filter f l ≡ₚ List.filter f k.
Proof.
  induction 1 as [|x l k _ IH|x y l|l k k' _ IH1 _ IH2]; cbn; [done| | |by etrans].
  - destruct (f x); [by f_equiv|done].
  - destruct (f x), (f y); (done || apply Permutation_swap).
Qed.

Lemma alter_twice {B} (f h : B -> B) (k : nat) (xs : list B) : alter f k (alter h k xs) = alter (fun x => f (h x)) k xs.
Proof. revert k. induction xs as [|x xs IH]; intros [|k]; try done. cbn. f_equal. apply IH. Qed.

Lemma filter_subset (f : message -> bool) l x : x ∈ List.filter f l -> x ∈ l.
Proof. rewrite !list_elem_of_In. intros Hx. by apply filter_In in Hx as [? _]. Qed.

Lemma export_runs n k l xs :
  rtc logging_step (LoggingState l xs true)
    (LoggingState l (alter (fun x => (x.1, run_worker vformat format_arg_of x.1 hostname n x.2)) k xs) true).
Proof.
  revert xs. induction n as [|n IH]; intros xs.
  - rewrite list_alter_id by (by intros []). done.
  - eapply rtc_l; [by apply (ExportStep _ k)|]. members. etrans; [apply IH|]. by rewrite alter_twice.
Qed.

Lemma alter_middle {B} (f : B -> B) l x k : alter f (length l) (l ++ x :: k) = l ++ f x :: k.
Proof. induction l as [|y l IH]; [done|]. cbn. by f_equal. Qed.

Lemma destroy_each n l before after :
  ended (m_worker l) = true ->
  rtc logging_step (LoggingState l (before ++ after) true) (LoggingState l (before ++ map (destroy_exporter n) after) true).
Proof.
  intros He. revert before. induction after as [|x after IH]; intros before; [done|].
  eapply rtc_l; [by apply (DestroyExporter _ (length before))|]. members. rewrite alter_middle.
  etrans; [apply (export_runs n (length before))|]. rewrite alter_middle. cbn [map].
  specialize (IH (before ++ [destroy_exporter n x])). rewrite <- !app_assoc in IH. exact IH.
Qed.

Lemma join_runs n l xs :
  rtc logging_step (LoggingState l xs true) (LoggingState (join_worker n l) xs true).
Proof.
  revert l. induction n as [|n IH]; intros l; [done|]. eapply rtc_l; [apply LogWorker|]. apply IH.
Qed.

(** The fuel that [destroy_logging] needs. *)
Definition enough (fuel : nat) (g : logging) : Prop :=
  (logger_work (lg_logger g) <= fuel)%nat /\ Forall (fun x => (work_left x.2 <= fuel)%nat) (lg_exporters g).

Lemma destroy_runs fuel g :
  logging_ok g -> forallb idle (callers (lg_logger g)) = true -> enough fuel g ->
  rtc logging_step g (destroy_logging fuel g) /\ m_worker (lg_logger (destroy_logging fuel g)) = Ended.
Proof.
  intros Hok Hi [Hl _]. destruct (join_worker_ends fuel (complete_logger (lg_logger g))) as (_ & _ & Hw);
    [by apply complete_logger_ok, go_logger|done|exact Hl|].
  split; [|exact Hw]. eapply rtc_l; [by apply Destroy|]. etrans; [apply (join_runs fuel)|].
  apply (destroy_each fuel _ []). by rewrite Hw.
Qed.

Lemma destroy_exporter_ok fuel x e :
  exporter_ok x e -> (work_left x.2 <= fuel)%nat ->
  exporter_ok (destroy_exporter fuel x) e /\ o_worker (destroy_exporter fuel x).2 = Finished.
Proof.
  intros Hx%complete_exporter_ok Hf. destruct Hx as [Hb Hs Ha Hm]. unfold destroy_exporter. cbv zeta.
  destruct (run_worker_finishes vformat format_arg_of x.1 hostname Hb fuel (complete_exporter x).2 Hs) as (Hs' & Ha' & Hw);
    [done|exact Hf|]. split; [|exact Hw]. split; cbn [fst snd]; [done|exact Hs'|exact (eq_trans Ha' Ha)|done].
Qed.
End logging.

(** ** Properties *)
Section properties.
Context {A : Type} (vformat : bytes -> list (owned A) -> bytes + bytes) (localtime gmtime : Z -> option tm).
Context (kernel : bytes -> list sys_result) (format_arg_of : owned A -> bytes) (hostname : bytes).
#[local] Existing Instance any_log_sink.

(** C20: From [log] to the requests: whatever threads logged in whatever
    interleaving, once no call is running [~logger] ends within the given
    fuel, as a run of the system, and then every [otel_sink] has put each
    message logged since it was added, and of its level or above, in exactly
    one batch, the batches have 1 to [batch_size] messages, and each request
    reads back, by the grammar of JSON (Json.v), as the request for its batch
    (when the options' fields need no escaping). *)
Theorem logged_messages_are_exported threads (g : logging (A := A)) fuel
    (Hrun : rtc (logging_step vformat localtime gmtime kernel format_arg_of hostname) (make_logging threads) g)
    (Hidle : forallb idle (callers (lg_logger g)) = true) (Hfuel : enough fuel g) :
  let g' := destroy_logging vformat localtime gmtime kernel format_arg_of hostname fuel g in
  rtc (logging_step vformat localtime gmtime kernel format_arg_of hostname) g g' /\
  m_worker (lg_logger g') = Ended /\
  Forall2 (fun x e =>
    o_worker x.2 = Finished /\
    concat (o_batches x.2) ≡ₚ List.filter (passes x.1) (drop (e_since e) (logged (lg_logger g))) /\
    Forall2 (fun request batch => 1 <= len batch <= oo_batch_size x.1 /\
      (plain_fields x.1 hostname ->
       parse_json request = Some (request_json vformat format_arg_of x.1 hostname batch)))
      (o_requests x.2) (o_batches x.2))
    (lg_exporters g') (m_own_channel_sinks (lg_logger g)).
Proof.
  pose proof (logging_reachable_ok _ _ _ _ _ _ threads g Hrun) as Hok.
  destruct (destroy_runs _ localtime gmtime kernel _ hostname fuel g Hok Hidle Hfuel) as [Hd Hw]. cbv zeta.
  split; [exact Hd|]. split; [exact Hw|]. destruct Hfuel as [_ Hfuel]. destruct Hok as [Hl Hx _ _ _].
  cbn [destroy_logging lg_exporters]. apply Forall2_fmap_l, Forall2_same_length_lookup. split; [by eapply Forall2_length|].
  intros k x e Hk He. pose proof (proj1 (Forall_lookup _ _) Hfuel k x Hk) as Hwork.
  pose proof (Forall2_lookup_lr _ _ _ _ _ _ Hx Hk He) as Hxe.
  destruct (destroy_exporter_ok _ _ hostname fuel x e Hxe Hwork) as [[Hb [Hf Hr Hbs _ _ Hwk] Ha Hm] Hfin].
  destruct (ok_own _ Hl k e He) as [_ Hgot]. rewrite all_idle_in_flight, app_nil_r in Hgot by done.
  rewrite Hfin in Hwk. destruct Hwk as (Hc & Hq & _). rewrite Hc, Hq, !app_nil_r in Hf.
  rewrite Hf in Ha. change (destroy_exporter _ _ _ fuel x).1 with x.1 in *.
  split; [exact Hfin|]. split; [rewrite Ha; by apply filter_proper|].
  rewrite Hr. apply Forall2_fmap_l, Forall_Forall2_diag, Forall_lookup. intros j batch Hj.
  split; [by apply (proj1 (Forall_lookup _ _) Hbs j)|]. intros Hplain. apply request_body_parses; [done|].
  apply Forall_forall. intros msg Hmsg. rewrite Forall_forall in Hm. apply Hm.
  apply (filter_subset (passes x.1)). rewrite <- Ha. apply list_elem_of_In, in_concat. exists batch.
  split; apply list_elem_of_In; [by eapply list_elem_of_lookup_2|done].
Qed.
End properties.

(** ** A run *)

(** Two threads log at once, under a console and an [otel_sink]: the first
    message is below the level of the [otel_sink]. *)
Definition demo_logging : logging (A := Z) :=
  let say i level msg g :=
    LoggingState (call_log i (make_message 0 None (Location (text "c.cpp") 1 (text "h")) level msg []) (lg_logger g)) (lg_exporters g) false in
  let next i level msg n g :=
    log_next verbatim no_zone no_zone demo_kernel i (make_message 0 None (Location (text "c.cpp") 1 (text "h")) level msg []) n g in
  let g := attach_text_sink verbatim no_zone no_zone demo_kernel (demo_stream, []) (make_logging 2) in
  let g := default (make_logging 2) (match attach_otel_sink verbatim no_zone no_zone demo_kernel (demo_opts (text "cart")) g with Ret g => Some g | _ => None end) in
  (next 0 log_level.warning (text "b") 1 (next 0 log_level.warning (text "b") 0
    (next 1 log_level.debug (text "a") 1 (next 1 log_level.debug (text "a") 0
      (say 1 log_level.debug (text "a") (say 0 log_level.warning (text "b") g))))))%nat.

Lemma demo_logging_reachable :
  rtc (logging_step verbatim no_zone no_zone demo_kernel demo_format_arg (text "host")) (make_logging 2) demo_logging.
Proof.
  unfold demo_logging. cbv zeta.
  do 4 (eapply rtc_r; [|by apply LogNext]). do 2 (eapply rtc_r; [|by apply CallLog]).
  eapply rtc_r; [|by apply (AddOtel _ _ _ _ _ _ (attach_text_sink verbatim no_zone no_zone demo_kernel (demo_stream, []) (make_logging 2))
    (demo_opts (text "cart")))]. eapply rtc_once. by apply AddText.
Qed.

Lemma logged_messages_are_exported_witness :
  let g' := destroy_logging verbatim no_zone no_zone demo_kernel demo_format_arg (text "host") 20 demo_logging in
  m_worker (lg_logger g') = Ended /\
  map (fun x => (length (o_requests x.2), map m_format (concat (o_batches x.2)))) (lg_exporters g') = [(1%nat, [text "b"])].
Proof.
  split; [|by vm_compute].
  apply (logged_messages_are_exported verbatim no_zone no_zone demo_kernel demo_format_arg (text "host") 2 demo_logging 20
    demo_logging_reachable eq_refl). split; [by apply Nat.leb_le; vm_compute|]. repeat constructor; by apply Nat.leb_le; vm_compute.
Defined.
