(* ===== verification/HttpRequest.v ===== *)
(** How the receiver of an HTTP request reads it (RFC 9112, with a
    Content-Length): header lines up to an empty line, each ended by CR LF,
    then as many bytes of body as the header announces.  This is the
    specification against which NativeTransport.v states what it sends. *)

From S2P Require Import Prelude Text.

Definition length_field : bytes := text "Content-Length: ".

(** The lines up to the empty one, and what follows it; [line] is the current
    line so far. *)
Fixpoint header_lines (line l : bytes) : option (list bytes * bytes) :=
  match l with
  | x0d :: x0a :: rest =>
      match line with
      | [] => Some ([], rest)
      | _ => '(lines, rest) ← header_lines [] rest; Some (line :: lines, rest)
      end
  | c :: rest => header_lines (line ++ [c]) rest
  | [] => None
  end.

(** The value of the first Content-Length line. *)
Fixpoint announced_length (lines : list bytes) : option Z :=
  match lines with
  | [] => None
  | line :: lines =>
      if bool_decide (take (length length_field) line = length_field) then
        let value := drop (length length_field) line in
        if negb (len value =? 0) && forallb isdigit value then Some (decimal_value value 0) else None
      else announced_length lines
  end.

(** The header's lines, the body, and the bytes after the request. *)
Definition read_request (l : bytes) : option (list bytes * bytes * bytes) :=
  '(lines, rest) ← header_lines [] l;
  n ← announced_length lines;
  if len rest <? n then None else Some (lines, take (Z.to_nat n) rest, drop (Z.to_nat n) rest).

(** ** Lemmas *)

Definition header_line (line : bytes) : Prop := line ≠ [] /\ x0d ∉ line.

Lemma header_lines_scan line l rest :
  x0d ∉ l -> header_lines line (l ++ x0d :: x0a :: rest) = header_lines (line ++ l) (x0d :: x0a :: rest).
Proof.
  revert line. induction l as [|c l IH]; intros line; [by rewrite app_nil_r|].
  intros [Hc Hl]%not_elem_of_cons.
  replace (line ++ c :: l) with ((line ++ [c]) ++ l) by (by rewrite <- app_assoc).
  rewrite <- IH by done. destruct c; try done.
Qed.

Lemma header_lines_join lines rest :
  Forall header_line lines ->
  header_lines [] (concat (map (fun l => l ++ [x0d; x0a]) lines) ++ x0d :: x0a :: rest) = Some (lines, rest).
Proof.
  induction 1 as [|l lines [Hne Hl] _ IH]; [done|]. cbn [map concat]. rewrite <- !app_assoc. cbn [app].
  rewrite header_lines_scan, app_nil_l by done. cbn [header_lines]. destruct l as [|c l]; [done|]. by rewrite IH.
Qed.

Lemma announced_length_last lines n :
  Forall (fun l => take (length length_field) l ≠ length_field) lines -> 0 <= n ->
  announced_length (lines ++ [length_field ++ to_decimal n]) = Some n.
Proof.
  intros Hl Hn. induction Hl as [|l lines Hne _ IH].
  - destruct (to_decimal_spec n Hn) as (Hne & Hd & Hv & _). cbn [app announced_length].
    rewrite bool_decide_true by apply take_app_length. rewrite drop_app_length, Hv.
    destruct (Z.eqb_spec (len (to_decimal n)) 0) as [E|]; [by apply len_nil_iff in E|].
    replace (forallb isdigit (to_decimal n)) with true; [done|].
    symmetry. apply forallb_forall. intros x Hx. rewrite Forall_forall in Hd. by apply Hd, list_elem_of_In.
  - cbn [app announced_length]. by rewrite bool_decide_false.
Qed.

(** A request of header lines, a Content-Length line and a body is read back
    when the line announces the length of the body. *)
Lemma read_request_join lines body :
  Forall header_line lines -> Forall (fun l => take (length length_field) l ≠ length_field) lines ->
  read_request (concat (map (fun l => l ++ [x0d; x0a]) lines)
    ++ (length_field ++ to_decimal (len body) ++ [x0d; x0a] ++ [x0d; x0a]) ++ body) =
  Some (lines ++ [length_field ++ to_decimal (len body)], body, []).
Proof.
  intros Hl Hf. pose proof (len_nonneg body) as Hn. unfold read_request.
  assert (concat (map (fun l => l ++ [x0d; x0a]) lines)
      ++ (length_field ++ to_decimal (len body) ++ [x0d; x0a] ++ [x0d; x0a]) ++ body =
    concat (map (fun l => l ++ [x0d; x0a]) (lines ++ [length_field ++ to_decimal (len body)])) ++ x0d :: x0a :: body) as ->.
  { rewrite map_app, concat_app. cbn [map concat]. by rewrite app_nil_r, <- !app_assoc. }
  rewrite header_lines_join.
  - cbn [mbind option_bind]. rewrite announced_length_last by done. cbn [mbind option_bind].
    rewrite Z.ltb_irrefl. rewrite take_ge, drop_ge by (unfold len; lia). done.
  - apply Forall_app. split; [done|]. apply Forall_singleton. split; [by unfold length_field|].
    intros [Hin|Hin]%elem_of_app; [by apply (bool_decide_unpack (x0d ∉ length_field)) in Hin; vm_compute|].
    destruct (to_decimal_spec (len body) Hn) as (_ & Hd & _). rewrite Forall_forall in Hd. by apply Hd in Hin.
Qed.
