(* ===== verification/NativeTransport.v ===== *)
(** [logging/sinks/otel_transports/native.h] and [transport_base.h]: the HTTP
    client over plain sockets.  The kernel is the list of its answers
    (System.v); name resolution is the list of addresses it found. *)

From S2P Require Import Prelude Text System LogMessage Sinks HttpRequest.

(** [otel_transport_base]. *)
Record otel_transport_base := Transport {
  m_host : bytes;
  m_path : bytes;
  m_request_prefix : bytes;
  m_ipv6 : bool;
  m_port : Z
}.

Definition CRLF : bytes := [x0d; x0a].

(** ** The endpoint *)

Definition host_header_for (host : bytes) (is_ipv6 : bool) (port : Z) : bytes :=
  if is_ipv6 then format "[{}]:{}" [Str host; Int port] else format "{}:{}" [Str host; Int port].

Definition parse_port (value : bytes) : outcome Z :=
  if len value =? 0 then throw invalid_argument "invalid endpoint port"
  else
    '(port, parsed) ← stoi value;
    if negb (parsed =? len value) || (port <=? 0) || (port >? 65535)
    then throw invalid_argument "invalid endpoint port"
    else Ret port.

(** [std::string::find(c)] and [rfind(c)]. *)
Definition find_char (c : byte) (l : bytes) : option nat := find_first_not (fun x => negb (Byte.eqb x c)) l.
Definition rfind_char (c : byte) (l : bytes) : option nat := find_last_not (fun x => negb (Byte.eqb x c)) l.

Definition has_prefix (prefix l : bytes) : bool := bool_decide (take (length prefix) l = prefix).

(** The authority: host, IPv6, port. *)
Definition parse_authority (authority : bytes) : outcome (bytes * bool * Z) :=
  match authority with
  | [] => throw invalid_argument "invalid endpoint host"
  | front :: _ =>
      if Byte.eqb front x5b then
        match find_char x5d authority with
        | None => throw invalid_argument "invalid endpoint host"
        | Some closing_bracket =>
            let host := substr authority 1 (closing_bracket - 1) in
            match authority !! S closing_bracket with
            | Some c =>
                if negb (Byte.eqb c x3a) then throw invalid_argument "invalid endpoint"
                else port ← parse_port (drop (closing_bracket + 2) authority); Ret (host, true, port)
            | None => Ret (host, true, 80)
            end
        end
      else
        match rfind_char x3a authority with
        | None => Ret (authority, false, 80)
        | Some colon =>
            port ← parse_port (drop (S colon) authority);
            Ret (take colon authority, false, port)
        end
  end.

Definition parse_endpoint (endpoint : bytes) : outcome otel_transport_base :=
  if has_prefix (text "https://") endpoint then
    throw invalid_argument "https is not supported by this transport"
  else
    let endpoint := if has_prefix (text "http://") endpoint then drop 7 endpoint else endpoint in
    let slash := find_char x2f endpoint in
    let authority := match slash with None => endpoint | Some i => take i endpoint end in
    let path := match slash with None => text "/" | Some i => drop i endpoint end in
    '(host, ipv6, port) ← parse_authority authority;
    if len host =? 0 then throw invalid_argument "invalid endpoint host"
    else Ret (Transport host path [] ipv6 port).

Definition build_request_prefix (t : otel_transport_base) (opts : otel_sink_opts) : otel_transport_base :=
  let host_header := host_header_for (m_host t) (m_ipv6 t) (m_port t) in
  let request_prefix :=
    text "POST " ++ m_path t ++ text " HTTP/1.1" ++ CRLF ++ text "Host: " ++ host_header ++ CRLF in
  let request_prefix :=
    if len (oo_auth_token opts) =? 0 then request_prefix
    else request_prefix ++ text "Authorization: " ++ oo_auth_token opts ++ CRLF in
  let request_prefix := request_prefix ++ text "stream-name: " ++ oo_service_namespace opts ++ CRLF in
  let request_prefix :=
    request_prefix ++ text "Content-Type: application/json" ++ CRLF ++ text "Connection: close" ++ CRLF in
  Transport (m_host t) (m_path t) request_prefix (m_ipv6 t) (m_port t).

Definition make_native_transport (opts : otel_sink_opts) : outcome otel_transport_base :=
  t ← parse_endpoint (oo_endpoint opts); Ret (build_request_prefix t opts).

(** ** Sending *)

(** [send_all]: the bytes the kernel took, the result, and the answers left. *)
Fixpoint send_all (data : bytes) (answers : list sys_result) : bytes * loop_state bool * list sys_result :=
  match data, answers with
  | [], _ => ([], LoopDone true, answers)
  | _, [] => ([], LoopBlocked, [])
  | _, SysOk sent :: answers =>
      if sent >? 0 then
        let '(out, st, unused) := send_all (drop (Z.to_nat sent) data) answers in
        (take (Z.to_nat sent) data ++ out, st, unused)
      else ([], LoopDone false, answers)
  | _, SysErr EINTR :: answers => send_all data answers
  | _, SysErr _ :: answers => ([], LoopDone false, answers)
  end.

(** [discard_response]: how many answers the loop of [recv] takes. *)
Fixpoint discard_response (answers : list sys_result) : loop_state unit :=
  match answers with
  | [] => LoopBlocked
  | SysOk received :: answers => if received >? 0 then discard_response answers else LoopDone tt
  | SysErr EINTR :: answers => discard_response answers
  | SysErr _ :: _ => LoopDone tt
  end.

Definition content_length_line (json_body : bytes) : bytes :=
  text "Content-Length: " ++ to_decimal (len json_body) ++ CRLF ++ CRLF.

(** [send], once [connect_to_host] returned [fd]: what went over the
    connection, and whether the descriptor was closed. *)
Definition send_request (t : otel_transport_base) (fd : Z) (json_body : bytes)
    (answers receive_answers : list sys_result) : bytes * loop_state bool :=
  if fd <? 0 then ([], LoopDone false)
  else
    let '(out1, st1, answers) := send_all (m_request_prefix t) answers in
    match st1 with
    | LoopBlocked => (out1, LoopBlocked)
    | LoopDone false => (out1, LoopDone true)
    | LoopDone true =>
        let '(out2, st2, answers) := send_all (content_length_line json_body) answers in
        match st2 with
        | LoopBlocked => (out1 ++ out2, LoopBlocked)
        | LoopDone false => (out1 ++ out2, LoopDone true)
        | LoopDone true =>
            let '(out3, st3, answers) := send_all json_body answers in
            match st3 with
            | LoopBlocked => (out1 ++ out2 ++ out3, LoopBlocked)
            | LoopDone false => (out1 ++ out2 ++ out3, LoopDone true)
            | LoopDone true =>
                match discard_response receive_answers with
                | LoopBlocked => (out1 ++ out2 ++ out3, LoopBlocked)
                | LoopDone _ => (out1 ++ out2 ++ out3, LoopDone true)
                end
            end
        end
    end.

(** ** Connecting *)

(** The kernel's answers for one of the addresses [getaddrinfo] found. *)
Record address := Address {
  a_socket : Z;
  a_getfl : Z;
  a_setfl : Z;
  a_connect : sys_result;
  a_poll : list sys_result;
  a_sockopt : option Z;   (* SO_ERROR, or None when getsockopt fails *)
  a_restore : Z
}.

Inductive socket_call :=
  | Opened (fd : Z)
  | Closed (fd : Z)
  | TimeoutsSet (fd : Z).

(** [do { poll } while (poll_result < 0 && errno == EINTR)]: whether the
    result is positive. *)
Fixpoint poll_loop (answers : list sys_result) : loop_state bool :=
  match answers with
  | [] => LoopBlocked
  | SysErr EINTR :: answers => poll_loop answers
  | SysErr _ :: _ => LoopDone false
  | SysOk n :: _ => LoopDone (n >? 0)
  end.

Definition is_connected (a : address) : loop_state bool :=
  match a_connect a with
  | SysOk n =>
      if n =? 0 then LoopDone true
      else LoopDone false (* errno is not EINPROGRESS *)
  | SysErr (EOTHER 115) => (* EINPROGRESS *)
      match poll_loop (a_poll a) with
      | LoopBlocked => LoopBlocked
      | LoopDone false => LoopDone false
      | LoopDone true => LoopDone (match a_sockopt a with Some 0 => true | _ => false end)
      end
  | SysErr _ => LoopDone false
  end.

(** The loop over the addresses: the calls, and the descriptor ([-1] when no
    address could be reached). *)
Fixpoint connect_loop (addresses : list address) : list socket_call * loop_state Z :=
  match addresses with
  | [] => ([], LoopDone (-1))
  | a :: addresses =>
      let fd := a_socket a in
      if fd <? 0 then connect_loop addresses
      else if (a_getfl a <? 0) || (a_setfl a <? 0) then
        let '(calls, r) := connect_loop addresses in (Opened fd :: Closed fd :: calls, r)
      else
        match is_connected a with
        | LoopBlocked => ([Opened fd], LoopBlocked)
        | LoopDone false =>
            let '(calls, r) := connect_loop addresses in (Opened fd :: Closed fd :: calls, r)
        | LoopDone true =>
            if a_restore a <? 0 then
              let '(calls, r) := connect_loop addresses in (Opened fd :: Closed fd :: calls, r)
            else ([Opened fd; TimeoutsSet fd], LoopDone fd)
        end
  end.

(** [None]: [getaddrinfo] failed. *)
Definition connect_to_host (addresses : option (list address)) : list socket_call * loop_state Z :=
  match addresses with
  | None => ([], LoopDone (-1))
  | Some addresses => connect_loop addresses
  end.

(** ** Debugging aids *)

(** The loop of [parse_status_code], on an [int]. *)
Fixpoint status_digits (l : bytes) (acc : Z) : outcome Z :=
  match l with
  | [] => Ret acc
  | c :: l =>
      if isdigit c then
        let acc := acc * 10 + (code c - 48) in
        if acc >? int_max then Undef else status_digits l acc
      else Ret 0
  end.

Definition parse_status_code (response : bytes) : outcome Z :=
  match find_char x20 response with
  | None => Ret 0
  | Some sp1 =>
      status_digits (take_until (fun c => bool_decide (c ∈ [x20; x0d; x0a])) (drop (S sp1) response)) 0
  end.

(** [read_response]: the bytes of the answers until the peer closes. *)
Fixpoint read_response (chunks : list (bytes + errno_t)) : bytes * loop_state unit :=
  match chunks with
  | [] => ([], LoopBlocked)
  | inl [] :: _ => ([], LoopDone tt)
  | inl chunk :: chunks => let '(rest, st) := read_response chunks in (chunk ++ rest, st)
  | inr EINTR :: chunks => read_response chunks
  | inr _ :: _ => ([], LoopDone tt)
  end.

(** ** Lemmas *)

Lemma find_char_app c l r : Forall (fun x => x ≠ c) l -> find_char c (l ++ c :: r) = Some (length l).
Proof.
  unfold find_char. induction 1 as [|x l Hx _ IH]; simpl; [by rewrite Byte.byte_dec_lb|].
  destruct (Byte.eqb x c) eqn:E; [by apply Byte.byte_dec_bl in E|]. simpl. by rewrite IH.
Qed.

Lemma find_char_none c l : Forall (fun x => x ≠ c) l -> find_char c l = None.
Proof.
  unfold find_char. induction 1 as [|x l Hx _ IH]; [done|]. simpl.
  destruct (Byte.eqb x c) eqn:E; [by apply Byte.byte_dec_bl in E|]. simpl. by rewrite IH.
Qed.

Lemma rfind_char_none c l : Forall (fun x => x ≠ c) l -> rfind_char c l = None.
Proof.
  unfold rfind_char. induction 1 as [|x l Hx _ IH]; [done|]. simpl. rewrite IH.
  destruct (Byte.eqb x c) eqn:E; [by apply Byte.byte_dec_bl in E|]. done.
Qed.

Lemma rfind_char_app c l r : Forall (fun x => x ≠ c) r -> rfind_char c (l ++ c :: r) = Some (length l).
Proof.
  intros Hr. unfold rfind_char. rewrite find_last_not_app. simpl.
  pose proof (rfind_char_none c r Hr) as E. unfold rfind_char in E. rewrite E, Byte.byte_dec_lb by done.
  simpl. f_equal. lia.
Qed.

Lemma has_prefix_app p l : has_prefix p (p ++ l) = true.
Proof. unfold has_prefix. by rewrite take_app_length, bool_decide_true. Qed.

Lemma parse_port_decimal n : 1 <= n <= 65535 -> parse_port (to_decimal n) = Ret n.
Proof.
  intros Hn. destruct (to_decimal_spec n ltac:(lia)) as (Hne & _). unfold parse_port.
  destruct (Z.eqb_spec (len (to_decimal n)) 0) as [E|_]; [by apply len_nil_iff in E|].
  rewrite stoi_to_decimal by (unfold int_max; lia). cbn. rewrite Z.eqb_refl. cbn.
  destruct (Z.leb_spec n 0); [lia|]. by destruct (Z.gtb_spec n 65535); [lia|].
Qed.

Lemma parse_port_range value p : parse_port value = Ret p -> 1 <= p <= 65535.
Proof.
  unfold parse_port. destruct (len value =? 0); [done|]. destruct (stoi value) as [[port parsed]| |]; cbn; [|done..].
  destruct (negb _); [done|]. cbn. destruct (Z.leb_spec port 0); [done|].
  destruct (Z.gtb_spec port 65535); [done|]. intros [= <-]. lia.
Qed.

(** A refused endpoint is one of two exceptions. *)
Definition refused {B} (r : outcome B) : Prop :=
  match r with
  | Ret _ => True
  | Throw e => exn_class e = invalid_argument \/ exn_class e = out_of_range
  | Undef => False
  end.

Lemma refused_bind {B C} (r : outcome B) (k : B -> outcome C) :
  refused r -> (forall b, refused (k b)) -> refused (r ≫= k).
Proof. intros Hr Hk. destruct r; [apply Hk | exact Hr | exact Hr]. Qed.

Lemma parse_port_refused v : refused (parse_port v).
Proof.
  unfold parse_port. destruct (len v =? 0); [by left|]. apply refused_bind.
  - unfold stoi. destruct (scan_sign _) as [sign signless]. destruct (len (take_digits signless) =? 0); [by left|].
    destruct (_ || _); [by right|done].
  - intros [port parsed]. destruct (_ || _); [by left|done].
Qed.

Lemma parse_authority_refused a : refused (parse_authority a).
Proof.
  unfold parse_authority. destruct a as [|f a]; [by left|]. destruct (Byte.eqb f x5b).
  - destruct (find_char x5d (f :: a)) as [k|]; [|by left]. destruct ((f :: a) !! S k) as [c|]; [|done].
    destruct (Byte.eqb c x3a); [|by left]. cbn [negb]. apply refused_bind; [apply parse_port_refused|done].
  - destruct (rfind_char x3a (f :: a)) as [k|]; [|done]. apply refused_bind; [apply parse_port_refused|done].
Qed.

Lemma digits_avoid c n :
  0 <= n -> isdigit c = false -> Forall (fun x => x ≠ c) (to_decimal n).
Proof.
  intros Hn Hc. destruct (to_decimal_spec n Hn) as (_ & H & _). eapply Forall_impl; [exact H|].
  intros x Hx ->. simpl in Hx. congruence.
Qed.

Lemma parse_authority_port a h i p : parse_authority a = Ret (h, i, p) -> 1 <= p <= 65535.
Proof.
  unfold parse_authority. destruct a as [|f a]; [done|]. destruct (Byte.eqb f x5b).
  - destruct (find_char _ _) as [k|]; [|done]. destruct ((f :: a) !! S k) as [c|].
    + destruct (Byte.eqb c x3a); [|done]. cbn [negb].
      destruct (parse_port _) eqn:E; cbn; [|done..]. intros [= <- <- <-]. by eapply parse_port_range.
    + intros [= <- <- <-]. lia.
  - destruct (rfind_char _ _) as [k|].
    + destruct (parse_port _) eqn:E; cbn; [|done..]. intros [= <- <- <-]. by eapply parse_port_range.
    + intros [= <- <- <-]. lia.
Qed.

Lemma parse_authority_outcome a :
  match parse_authority a with
  | Ret (_, _, p) => 1 <= p <= 65535
  | r => refused r
  end.
Proof.
  pose proof (parse_authority_refused a). destruct (parse_authority a) as [[[h i] p]|e|] eqn:E; [|done..].
  by eapply parse_authority_port.
Qed.

Lemma find_char_drop c l i : find_char c l = Some i -> exists r, drop i l = c :: r.
Proof.
  unfold find_char. revert i. induction l as [|x l IH]; intros i; [done|]. simpl.
  destruct (Byte.eqb x c) eqn:E; simpl.
  - intros [= <-]. apply Byte.byte_dec_bl in E as ->. by eexists.
  - destruct (find_first_not _ l) as [j|]; [|done]. intros [= <-]. by apply IH.
Qed.

Lemma drop_past {B} (l r : list B) x : drop (S (length l)) (l ++ x :: r) = r.
Proof. induction l as [|y l IH]; [done|]. apply IH. Qed.

(** The authority of an IPv4 or named host, and of an IPv6 one. *)
Lemma parse_authority_name h p :
  h ≠ [] -> head h ≠ Some x5b -> Forall (fun x => x ≠ x3a) h -> 1 <= p <= 65535 ->
  parse_authority (h ++ x3a :: to_decimal p) = Ret (h, false, p).
Proof.
  intros Hne Hh Hc Hp. unfold parse_authority.
  destruct (h ++ x3a :: to_decimal p) as [|f a] eqn:E; [by destruct h|].
  assert (Byte.eqb f x5b = false) as ->.
  { destruct h as [|y h]; [done|]. simplify_eq/=. destruct (Byte.eqb f x5b) eqn:Ef; [|done].
    by apply Byte.byte_dec_bl in Ef as ->. }
  rewrite <- E, rfind_char_app by (apply digits_avoid; [lia|done]).
  by rewrite take_app_length, drop_past, parse_port_decimal.
Qed.

Lemma parse_authority_ipv6 h p :
  Forall (fun x => x ≠ x5d) h -> 1 <= p <= 65535 ->
  parse_authority (x5b :: h ++ x5d :: x3a :: to_decimal p) = Ret (h, true, p).
Proof.
  intros Hc Hp. unfold parse_authority. change (Byte.eqb x5b x5b) with true. cbn iota.
  pose proof (find_char_app x5d (x5b :: h) (x3a :: to_decimal p)) as Hf. cbn [app] in Hf.
  rewrite Hf by by constructor. cbn [length]. unfold substr.
  assert ((x5b :: h ++ x5d :: x3a :: to_decimal p) !! S (S (length h)) = Some x3a) as ->.
  { change ((h ++ x5d :: x3a :: to_decimal p) !! S (length h) = Some x3a). rewrite lookup_app_r by lia. by replace (S (length h) - length h)%nat with 1%nat by lia. }
  change (Byte.eqb x3a x3a) with true. cbn [negb].
  replace (S (length h) - 1)%nat with (length h) by lia.
  change (drop 1 (x5b :: h ++ x5d :: x3a :: to_decimal p)) with (h ++ x5d :: x3a :: to_decimal p).
  rewrite take_app_length.
  assert (drop (S (length h) + 2) (x5b :: h ++ x5d :: x3a :: to_decimal p) = to_decimal p) as ->.
  { replace (S (length h) + 2)%nat with (S (S (S (length h)))) by lia. cbn [drop].
    rewrite cons_middle, app_assoc. pose proof (drop_past (h ++ [x5d]) (to_decimal p) x3a) as Hd.
    by rewrite length_app, Nat.add_1_r in Hd. }
  by rewrite parse_port_decimal.
Qed.

Lemma host_header_eq host (is_ipv6 : bool) port :
  host_header_for host is_ipv6 port =
  if is_ipv6 then x5b :: host ++ x5d :: x3a :: to_decimal port else host ++ x3a :: to_decimal port.
Proof. destruct is_ipv6; cbn; by rewrite app_nil_r. Qed.

(** *** What a receiver reads *)

Lemma parse_authority_subset a h i p c : parse_authority a = Ret (h, i, p) -> c ∈ h -> c ∈ a.
Proof.
  unfold parse_authority. destruct a as [|f a]; [done|]. destruct (Byte.eqb f x5b).
  - destruct (find_char _ _) as [k|]; [|done]. destruct ((f :: a) !! S k) as [d|].
    + destruct (negb _); [done|]. destruct (parse_port _); cbn; [|done..]. intros [= <- _ _] Hc.
      unfold substr in Hc. by apply subseteq_take, subseteq_drop in Hc.
    + intros [= <- _ _] Hc. unfold substr in Hc. by apply subseteq_take, subseteq_drop in Hc.
  - destruct (rfind_char _ _) as [k|]; [|by intros [= <- _ _]].
    destruct (parse_port _); cbn; [|done..]. intros [= <- _ _] Hc. by apply subseteq_take in Hc.
Qed.

Lemma parse_endpoint_subset endpoint t c :
  parse_endpoint endpoint = Ret t -> c ≠ x2f -> c ∈ m_host t \/ c ∈ m_path t -> c ∈ endpoint.
Proof.
  unfold parse_endpoint. destruct (has_prefix (text "https://") endpoint); [done|].
  set (e := if has_prefix (text "http://") endpoint then _ else _).
  set (a := match find_char x2f e with None => e | Some i => take i e end).
  assert (forall d, d ∈ e -> d ∈ endpoint) as He.
  { intros d. unfold e. destruct (has_prefix _ _); [|done]. apply subseteq_drop. }
  assert (forall d, d ∈ a -> d ∈ e) as Ha.
  { intros d. unfold a. destruct (find_char x2f e); [|done]. apply subseteq_take. }
  destruct (parse_authority a) as [[[h i] p]|ex|] eqn:Ea; cbn; [|done..]. destruct (len h =? 0); [done|].
  intros [= <-] Hne [Hh|Hp]; cbn in *; [by eapply He, Ha, parse_authority_subset|].
  destruct (find_char x2f e) as [k|]; [|by apply list_elem_of_singleton in Hp]. by eapply He, subseteq_drop.
Qed.

Lemma parse_endpoint_port endpoint t : parse_endpoint endpoint = Ret t -> 1 <= m_port t <= 65535.
Proof.
  unfold parse_endpoint. destruct (has_prefix (text "https://") endpoint); [done|]. cbv zeta.
  match goal with |- (x ← parse_authority ?a; _) = _ -> _ => pose proof (parse_authority_port a) as Ha;
    destruct (parse_authority a) as [[[h i] p]|ex|]; cbn; [|done..] end.
  destruct (len h =? 0); [done|]. intros [= <-]. by eapply Ha.
Qed.

(** The lines of the request before the Content-Length line. *)
Definition request_lines (t : otel_transport_base) (opts : otel_sink_opts) : list bytes :=
  [text "POST " ++ m_path t ++ text " HTTP/1.1"; text "Host: " ++ host_header_for (m_host t) (m_ipv6 t) (m_port t)]
  ++ (if len (oo_auth_token opts) =? 0 then [] else [text "Authorization: " ++ oo_auth_token opts])
  ++ [text "stream-name: " ++ oo_service_namespace opts; text "Content-Type: application/json"; text "Connection: close"].

Lemma request_prefix_lines opts t :
  make_native_transport opts = Ret t ->
  m_request_prefix t = concat (map (fun l => l ++ [x0d; x0a]) (request_lines t opts)).
Proof.
  unfold make_native_transport. destruct (parse_endpoint _) as [t0| |]; cbn [mbind outcome_bind]; [|done..].
  intros [= <-]. unfold build_request_prefix, request_lines, CRLF.
  cbn [m_request_prefix m_path m_host m_ipv6 m_port].
  destruct (len (oo_auth_token opts) =? 0); cbn [app map concat]; rewrite ?app_nil_r;
    do 8 (rewrite <- ?app_assoc; cbn [app]); reflexivity.
Qed.

Lemma request_lines_ok opts t :
  make_native_transport opts = Ret t ->
  x0d ∉ oo_endpoint opts -> x0d ∉ oo_auth_token opts -> x0d ∉ oo_service_namespace opts ->
  Forall header_line (request_lines t opts) /\
  Forall (fun l => take (length length_field) l ≠ length_field) (request_lines t opts).
Proof.
  unfold make_native_transport. destruct (parse_endpoint _) as [t0| |] eqn:Et; cbn [mbind outcome_bind]; [|done..].
  intros [= <-] He Ha Hn. unfold build_request_prefix, request_lines. cbn [m_path m_host m_ipv6 m_port].
  assert (x0d ∉ m_path t0) by (intros ?; apply He; eapply parse_endpoint_subset; eauto).
  assert (x0d ∉ m_host t0) by (intros ?; apply He; eapply parse_endpoint_subset; eauto).
  assert (0 <= m_port t0) as Hp.
  { pose proof (parse_endpoint_port _ _ Et). lia. }
  assert (x0d ∉ host_header_for (m_host t0) (m_ipv6 t0) (m_port t0)) as Hh.
  { pose proof (digits_avoid x0d (m_port t0) Hp eq_refl) as Hd. rewrite Forall_forall in Hd.
    assert (x0d ∉ to_decimal (m_port t0)) by (intros Hin; by apply Hd in Hin).
    rewrite host_header_eq. destruct (m_ipv6 t0);
      rewrite ?not_elem_of_cons, ?not_elem_of_app, ?not_elem_of_cons; by split_and!. }
  split; (apply Forall_app; split; [|apply Forall_app; split; [destruct (len (oo_auth_token opts) =? 0)|]]);
    repeat first [apply Forall_nil | apply Forall_cons; split]; try (by vm_compute);
    try (split; [done|]; repeat (rewrite elem_of_app; intros [Hin|Hin]; revert Hin);
      (done || by apply (bool_decide_unpack _); vm_compute)).
Qed.

(** *** The loops over the socket *)

Lemma send_all_spec data answers :
  let '(out, st, unused) := send_all data answers in
  out `prefix_of` data /\ (st = LoopDone true -> out = data) /\
  (Forall (fun r => retried r = true) answers ->
   Forall (fun r => retried r = true) unused /\
   (st = LoopDone true -> progress_count answers <= len data + progress_count unused) /\
   (len data <= progress_count answers -> st = LoopDone true)).
Proof.
  revert data. induction answers as [|r answers IH]; intros data.
  - destruct data as [|x data]; cbn; (split_and!; [apply prefix_nil|done|]); intros _; by split_and!.
  - destruct data as [|x data].
    { cbn. split_and!; [apply prefix_nil|done|]. intros Hr. by split_and!. }
    cbn [send_all]. destruct r as [n|e].
    + destruct (Z.gtb_spec n 0) as [Hn|Hn].
      * specialize (IH (drop (Z.to_nat n) (x :: data))).
        destruct (send_all (drop (Z.to_nat n) (x :: data)) answers) as [[out st] unused].
        destruct IH as (Hp & Hd & Hl).
        pose proof (take_drop (Z.to_nat n) (x :: data)) as E.
        assert (len (drop (Z.to_nat n) (x :: data)) <= len (x :: data) - 1) as Hlen.
        { unfold len. rewrite length_drop. cbn [length]. lia. }
        split_and!.
        -- rewrite <- E at 2. by apply prefix_app.
        -- intros Est. rewrite Hd by done. done.
        -- intros [Hr Hrs]%Forall_cons. destruct (Hl Hrs) as (Hu & Hc & Hfin).
           rewrite progress_count_cons. assert (progress (SysOk n) = true) as -> by (simpl; lia).
           split_and!; [done| |]; [intros Est; specialize (Hc Est); lia|intros; apply Hfin; lia].
      * cbn. split_and!; [apply prefix_nil|done|]. intros [Hr _]%Forall_cons. simpl in Hr. lia.
    + destruct e; cbn; try (split_and!; [apply prefix_nil|done|]; by intros [? _]%Forall_cons).
      specialize (IH (x :: data)). destruct (send_all (x :: data) answers) as [[out st] unused].
      destruct IH as (Hp & Hd & Hl). split_and!; [done..|]. intros [_ Hrs]%Forall_cons.
      rewrite progress_count_cons. by apply Hl.
Qed.

Definition request_bytes (t : otel_transport_base) (json_body : bytes) : bytes :=
  m_request_prefix t ++ content_length_line json_body ++ json_body.

Definition opened (fd : Z) (c : socket_call) : bool := match c with Opened f => f =? fd | _ => false end.
Definition closed (fd : Z) (c : socket_call) : bool := match c with Closed f => f =? fd | _ => false end.

Lemma connect_loop_balance addresses fd :
  let '(calls, r) := connect_loop addresses in
  match r with
  | LoopDone result =>
      countb (opened fd) calls =
      (countb (closed fd) calls + if ((0 <=? result) && (result =? fd))%Z then 1 else 0)%nat /\ -1 <= result
  | LoopBlocked => True
  end.
Proof.
  induction addresses as [|a addresses IH]; cbn [connect_loop].
  { cbn. split; [|lia]. done. }
  destruct (Z.ltb_spec (a_socket a) 0) as [|Hfd]; [done|].
  assert (Hskip : let '(calls, r) := (let '(calls, r) := connect_loop addresses in
      (Opened (a_socket a) :: Closed (a_socket a) :: calls, r)) in
    match r with
    | LoopDone result =>
        countb (opened fd) calls =
        (countb (closed fd) calls + if ((0 <=? result) && (result =? fd))%Z then 1 else 0)%nat /\ -1 <= result
    | LoopBlocked => True
    end).
  { destruct (connect_loop addresses) as [calls [result|]]; [|done]. destruct IH as [E Hr]. split; [|done].
    cbn. rewrite E. lia. }
  destruct ((a_getfl a <? 0) || (a_setfl a <? 0)); [exact Hskip|].
  destruct (is_connected a) as [[]|]; [|exact Hskip|done].
  destruct (a_restore a <? 0); [exact Hskip|]. cbn. split; [|lia].
  replace (0 <=? a_socket a) with true by lia. cbn. lia.
Qed.

(** ** Properties *)

(** C39: endpoints are read back: the address [host_header_for] writes, behind
    "http://" and before any path, is parsed into the same host, family and
    port, for named hosts and for bracketed IPv6 addresses. *)
Theorem parse_endpoint_roundtrip host (is_ipv6 : bool) port path
    (Hhost : host ≠ [] /\ Forall (fun x => x ≠ x2f) host)
    (Hform : if is_ipv6 then Forall (fun x => x ≠ x5d) host
             else head host ≠ Some x5b /\ Forall (fun x => x ≠ x3a) host)
    (Hport : 1 <= port <= 65535) (Hpath : path = [] \/ head path = Some x2f) :
  parse_endpoint (text "http://" ++ host_header_for host is_ipv6 port ++ path) =
  Ret (Transport host (if decide (path = []) then text "/" else path) [] is_ipv6 port).
Proof.
  destruct Hhost as [Hne Hslash]. unfold parse_endpoint.
  assert (has_prefix (text "https://") (text "http://" ++ host_header_for host is_ipv6 port ++ path) = false) as -> by done.
  rewrite has_prefix_app. change (drop 7 (text "http://" ++ ?l)) with l.
  rewrite host_header_eq.
  set (authority := if is_ipv6 then _ else _).
  assert (parse_authority authority = Ret (host, is_ipv6, port)) as Ha.
  { destruct is_ipv6; [by apply parse_authority_ipv6|]. destruct Hform. by apply parse_authority_name. }
  assert (Forall (fun x => x ≠ x2f) authority) as Hs.
  { pose proof (digits_avoid x2f port ltac:(lia) eq_refl). unfold authority.
    destruct is_ipv6; repeat constructor; try done; apply Forall_app; split; repeat constructor; done. }
  assert ((len host =? 0) = false) as Hl.
  { destruct (Z.eqb_spec (len host) 0) as [E|]; [by apply len_nil_iff in E|done]. }
  destruct Hpath as [->|Hp].
  - rewrite app_nil_r, find_char_none, Ha by done. cbn. by rewrite Hl.
  - destruct path as [|c path]; [done|]. injection Hp as ->.
    rewrite find_char_app, take_app_length, drop_app_length, Ha by done. cbn. by rewrite Hl.
Qed.

Lemma request_read t body opts :
  make_native_transport opts = Ret t ->
  x0d ∉ oo_endpoint opts -> x0d ∉ oo_auth_token opts -> x0d ∉ oo_service_namespace opts ->
  read_request (request_bytes t body) =
    Some (request_lines t opts ++ [text "Content-Length: " ++ to_decimal (len body)], body, []).
Proof.
  intros Ht He Ha Hn. destruct (request_lines_ok opts t Ht He Ha Hn) as [Hl Hf].
  unfold request_bytes. rewrite (request_prefix_lines opts t Ht). by apply read_request_join.
Qed.

(** An endpoint that is accepted has a host, a path that starts with '/'
    and a port between 1 and 65535; everything else is refused with an
    exception, never with undefined behaviour. *)
Theorem parse_endpoint_valid endpoint :
  match parse_endpoint endpoint with
  | Ret t => m_host t ≠ [] /\ head (m_path t) = Some x2f /\ 1 <= m_port t <= 65535 /\ m_request_prefix t = []
  | Throw e => exn_class e = invalid_argument \/ exn_class e = out_of_range
  | Undef => False
  end.
Proof.
  unfold parse_endpoint. destruct (has_prefix (text "https://") endpoint); [by left|].
  set (e := if has_prefix (text "http://") endpoint then _ else _).
  set (a := match find_char x2f e with None => e | Some i => take i e end).
  pose proof (parse_authority_outcome a) as Ha.
  destruct (parse_authority a) as [[[h i] p]|ex|]; cbn; [|done..].
  destruct (Z.eqb_spec (len h) 0) as [|Hh]; [by left|]. cbn. split_and!; [by intros ->| |lia..|done].
  destruct (find_char x2f e) as [k|] eqn:Ek; [|done]. by destruct (find_char_drop _ _ _ Ek) as [r ->].
Qed.

(** C40: [send] puts a prefix of the request on the connection, whatever partial
    sends, interruptions and errors happen, and closes the descriptor when it
    returns; when the kernel keeps making progress the whole request goes
    out.  The receiver of the whole request (HttpRequest.v), of a transport
    built from options without carriage returns, reads back the request's
    header lines, with a Content-Length that is the length of the body, and
    then exactly the body. *)
Theorem send_request_correct t fd body answers receive_answers (Hfd : 0 <= fd) :
  let '(wire, st) := send_request t fd body answers receive_answers in
  wire `prefix_of` request_bytes t body /\
  (forall closed, st = LoopDone closed -> closed = true) /\
  (Forall (fun r => retried r = true) answers -> len (request_bytes t body) <= progress_count answers ->
    wire = request_bytes t body) /\
  (forall opts, make_native_transport opts = Ret t ->
    x0d ∉ oo_endpoint opts -> x0d ∉ oo_auth_token opts -> x0d ∉ oo_service_namespace opts ->
    read_request (request_bytes t body) =
      Some (request_lines t opts ++ [text "Content-Length: " ++ to_decimal (len body)], body, [])).
Proof.
  pose proof (request_read t body) as Hcl.
  unfold send_request, request_bytes. destruct (Z.ltb_spec fd 0) as [|_]; [lia|]. rewrite !len_app.
  pose proof (send_all_spec (m_request_prefix t) answers) as H1.
  destruct (send_all (m_request_prefix t) answers) as [[out1 st1] un1]. destruct H1 as (P1 & D1 & L1).
  assert (Hstop1 : forall rest, out1 `prefix_of` m_request_prefix t ++ rest)
    by (intros; by apply prefix_app_r).
  pose proof (send_all_spec (content_length_line body) un1) as H2.
  destruct (send_all (content_length_line body) un1) as [[out2 st2] un2]. destruct H2 as (P2 & D2 & L2).
  pose proof (send_all_spec body un2) as H3.
  destruct (send_all body un2) as [[out3 st3] un3]. destruct H3 as (P3 & D3 & L3).
  pose proof (len_nonneg body). pose proof (len_nonneg (content_length_line body)).
  assert (Hfull : Forall (fun r => retried r = true) answers ->
    len (m_request_prefix t) + (len (content_length_line body) + len body) <= progress_count answers ->
    st1 = LoopDone true /\ st2 = LoopDone true /\ st3 = LoopDone true).
  { intros Hr Hc. destruct (L1 Hr) as (Hr1 & Hp1 & F1). pose proof (F1 ltac:(lia)) as E1. specialize (Hp1 E1).
    destruct (L2 Hr1) as (Hr2 & Hp2 & F2). pose proof (F2 ltac:(lia)) as E2. specialize (Hp2 E2).
    destruct (L3 Hr2) as (Hr3 & Hp3 & F3). by rewrite E1, E2, (F3 ltac:(lia)). }
  destruct st1 as [[]|]; [rewrite (D1 eq_refl) in *| |].
  2,3: split_and!; [done|by intros ? [= <-]|intros Hr Hc; by destruct (Hfull Hr Hc)|done].
  destruct st2 as [[]|]; [rewrite (D2 eq_refl) in *| |].
  2,3: split_and!; [by apply prefix_app, prefix_app_r|by intros ? [= <-]|intros Hr Hc; by destruct (Hfull Hr Hc) as (? & ? & ?)|done].
  destruct st3 as [[]|]; [rewrite (D3 eq_refl) in *| |].
  2,3: split_and!; [by do 2 apply prefix_app|by intros ? [= <-]|intros Hr Hc; by destruct (Hfull Hr Hc) as (? & ? & ?)|done].
  destruct (discard_response receive_answers); split_and!; try done; by intros ? [= <-].
Qed.

(** [connect_to_host] leaks no descriptor: of the sockets it opened, all
    are closed again but the one it returns; without an answer from the
    resolver it opens none and returns -1. *)
Theorem connect_to_host_no_leak addresses fd :
  let '(calls, r) := connect_to_host addresses in
  match r with
  | LoopDone result =>
      countb (opened fd) calls =
      (countb (closed fd) calls + if ((0 <=? result) && (result =? fd))%Z then 1 else 0)%nat /\
      (result < 0 -> result = -1)
  | LoopBlocked => True
  end.
Proof.
  destruct addresses as [addresses|]; [|done]. cbn [connect_to_host].
  pose proof (connect_loop_balance addresses fd) as H. destruct (connect_loop addresses) as [calls [result|]]; [|done].
  destruct H. split; [done|lia].
Qed.

(** ** Instances *)

Lemma parse_endpoint_roundtrip_witness :
  parse_endpoint (text "http://" ++ host_header_for (text "::1") true 4318 ++ text "/v1/logs") =
  Ret (Transport (text "::1") (text "/v1/logs") [] true 4318).
Proof.
  apply (parse_endpoint_roundtrip (text "::1") true 4318 (text "/v1/logs")).
  - split; [done|]. by repeat constructor.
  - by repeat constructor.
  - lia.
  - by right.
Defined.

Definition demo_options : otel_sink_opts :=
  OtelOpts log_level.trace (text "http://h:80/v1/logs") (text "Basic c2VjcmV0") (text "ns") (text "chat") (text "1") (text "i")
    (text "test") 10 false.
Definition demo_transport : otel_transport_base :=
  match make_native_transport demo_options with Ret t => t | _ => Transport [] [] [] false 0 end.

(** The whole request goes out a byte at a time, and reads back as its header and
    the body. *)
Lemma send_request_correct_witness :
  let answers := SysErr EINTR :: replicate 158 (SysOk 1) in
  let '(wire, st) := send_request demo_transport 3 (text "{}") answers [SysOk 0] in
  wire = request_bytes demo_transport (text "{}") /\ st = LoopDone true /\
  read_request wire =
    Some (request_lines demo_transport demo_options ++ [text "Content-Length: 2"], text "{}", []).
Proof.
  cbv zeta. pose proof (send_request_correct demo_transport 3 (text "{}")
    (SysErr EINTR :: replicate 158 (SysOk 1)) [SysOk 0] ltac:(lia)) as H.
  destruct (send_request _ _ _ _ _) as [wire st] eqn:E. destruct H as (_ & _ & Hw & Hr).
  assert (wire = request_bytes demo_transport (text "{}")) as Ew.
  { apply Hw; [by repeat constructor|by vm_compute]. }
  split_and!; [exact Ew|vm_compute in E; congruence|]. rewrite Ew.
  apply (Hr demo_options); [by vm_compute|by apply (bool_decide_unpack _); vm_compute..].
Defined.
