(* ===== verification/CurlTransport.v ===== *)
(** [logging/sinks/otel_transports/curl.h]: the transport over libcurl.  What
    libcurl answers is a parameter ([Context] of the section); the model is
    the sequence of calls, in which what is acquired must be released. *)

From S2P Require Import Prelude Text Sinks.

Inductive curl_option :=
  | URL (s : bytes) | HTTPHEADER (l : list bytes) | POST | WRITEFUNCTION | NOSIGNAL
  | CONNECTTIMEOUT_MS (n : Z) | TIMEOUT_MS (n : Z) | POSTFIELDS (body : bytes) | POSTFIELDSIZE_LARGE (n : Z).

Inductive curl_call :=
  | EasyInit
  | SlistAppend (header : bytes)
  | SetOpt (option : curl_option)
  | Perform
  | EasyCleanup
  | SlistFreeAll.

(** [m_curl] and [m_headers]; [[]] is the null list. *)
Record curl_transport := CurlTransport { m_curl : bool; m_headers : list bytes }.

Section curl.
(** Whether [curl_easy_init] and [curl_slist_append] return a pointer, and
    the code [curl_easy_setopt] returns (0 is [CURLE_OK]). *)
Context (init_ok : bool) (append_ok : bytes -> bool) (setopt : curl_option -> Z) (strerror : Z -> string).

Definition option_name (o : curl_option) : string :=
  match o with
  | URL _ => "CURLOPT_URL" | HTTPHEADER _ => "CURLOPT_HTTPHEADER" | POST => "CURLOPT_POST"
  | WRITEFUNCTION => "CURLOPT_WRITEFUNCTION" | NOSIGNAL => "CURLOPT_NOSIGNAL"
  | CONNECTTIMEOUT_MS _ => "CURLOPT_CONNECTTIMEOUT_MS" | TIMEOUT_MS _ => "CURLOPT_TIMEOUT_MS"
  | POSTFIELDS _ => "CURLOPT_POSTFIELDS" | POSTFIELDSIZE_LARGE _ => "CURLOPT_POSTFIELDSIZE_LARGE"
  end.

Definition check_setopt (result : Z) (option : string) : outcome unit :=
  if negb (result =? 0) then throw runtime_error (option +:+ " failed: " +:+ strerror result) else Ret tt.

(** The headers the constructor appends, one [append_header] each: the calls,
    [m_headers] after them, and whether one threw. *)
Fixpoint append_headers (headers : list bytes) (m_headers : list bytes)
    : list curl_call * list bytes * outcome unit :=
  match headers with
  | [] => ([], m_headers, Ret tt)
  | h :: headers =>
      if append_ok h then
        let '(calls, l, r) := append_headers headers (m_headers ++ [h]) in (SlistAppend h :: calls, l, r)
      else ([SlistAppend h], m_headers, throw runtime_error "curl_slist_append failed")
  end.

Fixpoint set_options (options : list curl_option) : list curl_call * outcome unit :=
  match options with
  | [] => ([], Ret tt)
  | o :: options =>
      match check_setopt (setopt o) (option_name o) with
      | Ret _ => let '(calls, r) := set_options options in (SetOpt o :: calls, r)
      | e => ([SetOpt o], e)
      end
  end.

(** What a C function sees of [s.c_str()]. *)
Definition c_str (s : bytes) : bytes := take_until (Byte.eqb x00) s.

Definition headers_for (opts : otel_sink_opts) : list bytes :=
  [text "Content-Type: application/json"]
  ++ (if len (oo_auth_token opts) =? 0 then [] else [c_str (text "Authorization: " ++ oo_auth_token opts)])
  ++ [c_str (text "stream-name: " ++ oo_service_namespace opts)].

Definition options_for (opts : otel_sink_opts) (headers : list bytes) : list curl_option :=
  [URL (c_str (oo_endpoint opts)); HTTPHEADER headers; POST; WRITEFUNCTION; NOSIGNAL;
   CONNECTTIMEOUT_MS 1000; TIMEOUT_MS 3000].

(** The [catch (...)] block. *)
Definition release (m_curl : bool) (m_headers : list bytes) : list curl_call :=
  (if m_curl then [EasyCleanup] else []) ++ (if len m_headers =? 0 then [] else [SlistFreeAll]).

Definition make_curl_transport (opts : otel_sink_opts) : list curl_call * outcome curl_transport :=
  if negb init_ok then ([EasyInit], throw runtime_error "curl_easy_init failed")
  else
    let '(calls, headers, r) := append_headers (headers_for opts) [] in
    match r with
    | Ret _ =>
        let '(calls', r') := set_options (options_for opts headers) in
        match r' with
        | Ret _ => (EasyInit :: calls ++ calls', Ret (CurlTransport true headers))
        | Throw e => (EasyInit :: calls ++ calls' ++ release true headers, Throw e)
        | Undef => (EasyInit :: calls ++ calls', Undef)
        end
    | Throw e => (EasyInit :: calls ++ release true headers, Throw e)
    | Undef => (EasyInit :: calls, Undef)
    end.

Definition destroy_curl_transport (t : curl_transport) : list curl_call :=
  release (m_curl t) (m_headers t).

(** [send], without OTEL_DEBUG_TRANSPORT: errors end it silently. *)
Definition curl_send (t : curl_transport) (json_body : bytes) : list curl_call :=
  if negb (setopt (POSTFIELDS json_body) =? 0) then [SetOpt (POSTFIELDS json_body)]
  else if negb (setopt (POSTFIELDSIZE_LARGE (len json_body)) =? 0) then
    [SetOpt (POSTFIELDS json_body); SetOpt (POSTFIELDSIZE_LARGE (len json_body))]
  else [SetOpt (POSTFIELDS json_body); SetOpt (POSTFIELDSIZE_LARGE (len json_body)); Perform].

(** The write callbacks: what they tell libcurl they took, and what
    [write_response] appends. *)
Definition discard_response (size count : Z) : Z := size *! count.
Definition write_response (response data : bytes) (size count : Z) : bytes * Z :=
  let data_size := size *! count in (response ++ take (Z.to_nat data_size) data, data_size).

(** ** Lemmas *)

Definition is_cleanup (c : curl_call) : bool := match c with EasyCleanup => true | _ => false end.
Definition is_free (c : curl_call) : bool := match c with SlistFreeAll => true | _ => false end.

(** Calls that release nothing. *)
Definition keeps (calls : list curl_call) : Prop := countb is_cleanup calls = 0%nat /\ countb is_free calls = 0%nat.

Lemma append_headers_spec headers l :
  let '(calls, l', r) := append_headers headers l in
  keeps calls /\ l `prefix_of` l' /\
  match r with
  | Ret _ => l' = l ++ headers
  | Throw e => exn_class e = runtime_error
  | Undef => False
  end.
Proof.
  revert l. induction headers as [|h headers IH]; intros l; cbn.
  { split_and!; [done|done|by rewrite app_nil_r]. }
  destruct (append_ok h); [|by split_and!].
  specialize (IH (l ++ [h])). destruct (append_headers headers (l ++ [h])) as [[calls l'] r].
  destruct IH as (Hk & Hp & Hr). split_and!; [done| |].
  - etransitivity; [|exact Hp]. by apply prefix_app_r.
  - destruct r; [|done..]. by rewrite Hr, <- app_assoc.
Qed.

Lemma set_options_spec options :
  let '(calls, r) := set_options options in
  keeps calls /\
  match r with
  | Ret _ => calls = map SetOpt options
  | Throw e => exn_class e = runtime_error
  | Undef => False
  end.
Proof.
  induction options as [|o options IH]; cbn; [done|]. unfold check_setopt.
  destruct (negb (setopt o =? 0)); [by split|].
  destruct (set_options options) as [calls r]. destruct IH as (Hk & Hr). split; [done|].
  destruct r; [by rewrite Hr|done..].
Qed.

Lemma release_counts headers :
  countb is_cleanup (release true headers) = 1%nat /\
  countb is_free (release true headers) = (if decide (headers = []) then 0 else 1)%nat.
Proof.
  unfold release. destruct headers as [|h l]; [done|]. rewrite decide_False by done.
  replace (len (h :: l) =? 0) with false by (rewrite len_cons; pose proof (len_nonneg l); lia). done.
Qed.

(** ** Properties *)

(** The constructor neither leaks nor frees twice: when it throws (always
    [std::runtime_error]), the handle and the header list it got are released
    once; when it succeeds nothing was, every header and option is in place,
    and the destructor releases both once. *)
Theorem curl_transport_releases opts :
  let '(calls, r) := make_curl_transport opts in
  match r with
  | Ret t =>
      keeps calls /\ m_headers t = headers_for opts /\
      Forall (fun o => SetOpt o ∈ calls) (options_for opts (headers_for opts)) /\
      countb is_cleanup (destroy_curl_transport t) = 1%nat /\ countb is_free (destroy_curl_transport t) = 1%nat
  | Throw e =>
      exn_class e = runtime_error /\
      countb is_cleanup calls = (if init_ok then 1 else 0)%nat /\
      countb is_free calls = (if init_ok && append_ok (text "Content-Type: application/json") then 1 else 0)%nat
  | Undef => False
  end.
Proof.
  unfold make_curl_transport. destruct init_ok; cbn [negb andb]; [|done].
  pose proof (append_headers_spec (headers_for opts) []) as Ha.
  assert (Hfirst : let '(_, l, _) := append_headers (headers_for opts) [] in
    if append_ok (text "Content-Type: application/json") then l ≠ [] else l = []).
  { unfold headers_for. cbn [app append_headers]. destruct (append_ok (text "Content-Type: application/json")); [|done].
    pose proof (append_headers_spec ((if len (oo_auth_token opts) =? 0 then [] else [c_str (text "Authorization: " ++ oo_auth_token opts)])
      ++ [c_str (text "stream-name: " ++ oo_service_namespace opts)]) [text "Content-Type: application/json"]) as H.
    destruct (append_headers _ [text "Content-Type: application/json"]) as [[calls l] r].
    destruct H as (_ & [k ->] & _). done. }
  destruct (append_headers (headers_for opts) []) as [[calls headers] r]. destruct Ha as ([Hk1 Hk2] & _ & Hr).
  destruct (release_counts headers) as [Hc Hf].
  assert (Hfree : countb is_free (release true headers) =
    (if append_ok (text "Content-Type: application/json") then 1 else 0)%nat).
  { rewrite Hf. destruct (append_ok _); [by rewrite decide_False|by rewrite decide_True]. }
  destruct r as [u|e|]; [|rewrite <- Hfree; cbn [countb is_cleanup is_free]; rewrite !countb_app, Hk1, Hk2, Hc; by split_and!|done].
  cbn [app] in Hr. subst headers. pose proof (set_options_spec (options_for opts (headers_for opts))) as Hs.
  destruct (set_options (options_for opts (headers_for opts))) as [calls' r']. destruct Hs as ([Hs1 Hs2] & Hr').
  destruct r' as [u'|e|]; [|rewrite <- Hfree; cbn [countb is_cleanup is_free]; rewrite !countb_app, Hk1, Hk2, Hs1, Hs2, Hc; by split_and!|done].
  split_and!.
  - unfold keeps. cbn. by rewrite !countb_app, Hk1, Hk2, Hs1, Hs2.
  - done.
  - subst calls'. apply Forall_forall. intros o Ho. apply list_elem_of_further, elem_of_app. right.
    by apply list_elem_of_fmap_2.
  - exact Hc.
  - unfold destroy_curl_transport. cbn [m_curl m_headers]. by rewrite Hf, decide_False.
Qed.
End curl.
