(* ===== verification/Commands.v ===== *)
(** The chat sample's command parser ([samples/chat/commands_parser.h]): a
    line is a view over the connection's pipeline, and [parse_command] walks
    it with the view's operations.  The property relates it to a parser on
    plain bytes. *)

From S2P Require Import Prelude Memory Position ByteView Text.

Module command_type.

Inductive command_type := unknown | message | name | help | quit.

End command_type.
Import command_type.

Record command_definition := CommandDefinition { cd_name : bytes; cd_type : command_type }.

Definition command_definitions : list command_definition :=
  [CommandDefinition (text "name") name;
   CommandDefinition (text "help") help;
   CommandDefinition (text "quit") quit].

(** [" \t\n\r\f\v"]. *)
Definition whitespaces : bytes := [x20; x09; x0a; x0d; x0c; x0b].
Definition is_whitespace (b : byte) : bool := bool_decide (b ∈ whitespaces).

Definition trim (value : bytes) : bytes :=
  match find_first_not is_whitespace value with
  | None => []
  | Some first =>
      match find_last_not is_whitespace value with
      | None => []
      | Some last => substr value first (last - first + 1)
      end
  end.

Definition is_equal_ignore_case (a b : bytes) : bool :=
  if negb (len a =? len b) then false
  else forallb (fun '(x, y) => bool_decide (tolower x = tolower y)) (zip a b).

Section parsing.
Context (m : memory).

Definition parse_command_type (command_bytes : segmented_byte_view) : outcome command_type :=
  command ← to_string m command_bytes;
  match List.find (fun d => is_equal_ignore_case command (cd_name d)) command_definitions with
  | None => Ret unknown
  | Some it => Ret (cd_type it)
  end.

Definition parse_command (line_bytes : segmented_byte_view) : outcome (command_type * bytes) :=
  first ← at_index m line_bytes 0;
  if bool_decide (first = x2f) then
    let separator := position_of_any m line_bytes whitespaces in
    command ← slice_from line_bytes 1 (if position_bool separator then separator else view_end line_bytes);
    type ← parse_command_type command;
    if position_bool separator then
      rest ← slice line_bytes (position_add separator 1) (view_end line_bytes);
      argument ← to_string m rest;
      Ret (type, trim argument)
    else Ret (type, [])
  else
    argument ← to_string m line_bytes;
    Ret (message, argument).
End parsing.

(** ** The same on plain bytes *)

Definition strip (l : bytes) : bytes :=
  reverse (drop_while is_whitespace (reverse (drop_while is_whitespace l))).

Definition command_of (word : bytes) : command_type :=
  let w := map tolower word in
  if bool_decide (w = text "name") then name
  else if bool_decide (w = text "help") then help
  else if bool_decide (w = text "quit") then quit
  else unknown.

(** A line that starts with '/' is a command word and an argument; any other
    is a message. *)
Definition parse_line (line : bytes) : command_type * bytes :=
  match line with
  | x2f :: rest =>
      let word := take_until is_whitespace rest in
      (command_of word, strip (drop (length word) rest))
  | _ => (message, line)
  end.

(** ** Lemmas *)

Lemma find_first_last f l :
  match find_first_not f l, find_last_not f l with
  | Some i, Some j => (i <= j)%nat
  | None, None => True
  | _, _ => False
  end.
Proof.
  induction l as [|x l IH]; [done|]. simpl. destruct (f x); simpl.
  - destruct (find_first_not f l), (find_last_not f l); simpl; (done || lia).
  - destruct (find_last_not f l); lia.
Qed.

Lemma find_last_not_drop f l i j :
  find_first_not f l = Some i -> find_last_not f l = Some j ->
  find_last_not f (drop i l) = Some (j - i)%nat.
Proof.
  revert i j. induction l as [|x l IH]; intros i j Hi Hj; [done|]. simpl in Hi, Hj.
  pose proof (find_first_last f l) as H. destruct (f x) eqn:Ex.
  - destruct (find_first_not f l) as [i'|]; [|done]. destruct (find_last_not f l) as [j'|]; [|done].
    simplify_eq/=. by rewrite (IH i' j').
  - simplify_eq/=. rewrite Nat.sub_0_r, Ex. exact Hj.
Qed.

(** The two searches of [trim] drop the blanks at both ends. *)
Lemma trim_strip l : trim l = strip l.
Proof.
  unfold trim, strip. rewrite reverse_drop_while_find, drop_while_find.
  pose proof (find_first_last is_whitespace l) as H.
  destruct (find_first_not is_whitespace l) as [i|] eqn:Ei; [|done].
  destruct (find_last_not is_whitespace l) as [j|] eqn:Ej; [|done].
  rewrite (find_last_not_drop _ _ _ _ Ei Ej). unfold substr. f_equal. lia.
Qed.

Lemma strip_cons_whitespace x l : is_whitespace x = true -> strip (x :: l) = strip l.
Proof. intros E. unfold strip. simpl. by rewrite E. Qed.

Lemma is_equal_ignore_case_map a b :
  is_equal_ignore_case a b = bool_decide (map tolower a = map tolower b).
Proof.
  unfold is_equal_ignore_case. destruct (Z.eqb_spec (len a) (len b)) as [Hl|Hl]; simpl.
  - unfold len in Hl. apply Nat2Z.inj in Hl. revert b Hl.
    induction a as [|x a IH]; intros [|y b] Hl; simplify_eq/=; [done|].
    rewrite IH by done. destruct (decide (tolower x = tolower y)) as [E|E].
    + rewrite bool_decide_true by done. simpl. apply bool_decide_ext. rewrite E.
      split; [by intros ->|by intros [= ->]].
    + rewrite bool_decide_false by done. simpl. symmetry. apply bool_decide_false. by intros [= ?].
  - symmetry. apply bool_decide_false. intros E. apply (f_equal length) in E.
    rewrite !length_map in E. unfold len in Hl. lia.
Qed.

Lemma parse_command_type_of m v :
  view_ok m v -> parse_command_type m v = Ret (command_of (view_bytes m v)).
Proof.
  intros Hok. unfold parse_command_type. rewrite (to_string_bytes m v Hok). cbn [mbind outcome_bind].
  unfold command_of. simpl List.find. rewrite !is_equal_ignore_case_map.
  change (map tolower (text "name")) with (text "name").
  change (map tolower (text "help")) with (text "help").
  change (map tolower (text "quit")) with (text "quit").
  destruct (bool_decide (_ = text "name")); [done|].
  destruct (bool_decide (_ = text "help")); [done|].
  by destruct (bool_decide (_ = text "quit")).
Qed.

Lemma take_until_index f l :
  match find_index f l with
  | Some i => take_until f l = take i l /\ (exists x, drop i l = x :: drop (S i) l /\ f x = true) /\
      length (take_until f l) = i
  | None => take_until f l = l
  end.
Proof.
  induction l as [|x l IH]; [done|]. simpl. destruct (f x) eqn:Ex.
  - split_and!; [done| |done]. exists x. by rewrite drop_0.
  - destruct (find_index f l) as [i|]; simpl; [|by f_equal].
    destruct IH as (IH & (y & Ey & Hy) & Hl). rewrite IH in *. split_and!; [done| |by f_equal].
    by exists y.
Qed.

Lemma parse_command_bytes m v (Hok : view_ok m v) (Hne : view_bytes m v ≠ []) :
  parse_command m v = Ret (parse_line (view_bytes m v)).
Proof.
  destruct (view_bytes m v) as [|c rest] eqn:Ev; [done|].
  pose proof (view_bytes_len m v Hok) as Hlen. rewrite Ev, len_cons in Hlen.
  pose proof (len_nonneg rest) as Hrl. destruct (Hok) as [_ _ H0 Hlt].
  unfold parse_command. rewrite (at_index_ret m v 0 c) by (done || by rewrite Ev). cbn [mbind outcome_bind].
  case_bool_decide as Hc; [subst c|].
  2:{ rewrite to_string_bytes, Ev by done. cbn. by destruct c. }
  assert (view_end v = position_at (m_begin_offset v + 1 + len rest)) as Eend.
  { unfold view_end. rewrite (end_offset_ok m v) by done. f_equal. lia. }
  rewrite position_of_bytes, Ev, Eend by done. unfold find_first_of. simpl find_index.
  change (bool_decide (x2f ∈ whitespaces)) with false.
  change (fun x : byte => bool_decide (x ∈ whitespaces)) with is_whitespace. cbn match.
  pose proof (take_until_index is_whitespace rest) as Hw. cbn [parse_line].
  destruct (find_index is_whitespace rest) as [i|] eqn:Ei; cbn [fmap option_fmap option_map position_result position_bool found position_at position_none].
  - destruct Hw as (Hw & (y & Ey & Hy) & Hli). pose proof (find_index_lt _ _ _ Ei) as Hi. unfold len in *.
    destruct (slice_from_ret m v 1 (position_at (m_begin_offset v + Z.of_nat (S i)))) as (w & Es & Hwok & Hwb); simpl; [done|lia..|].
    rewrite Es. cbn [mbind outcome_bind]. rewrite parse_command_type_of by done. cbn [mbind outcome_bind].
    destruct (slice_ret m v (position_add (position_at (m_begin_offset v + Z.of_nat (S i))) 1)
      (position_at (m_begin_offset v + 1 + Z.of_nat (length rest)))) as (a & Ea & Haok & _ & _ & Hab).
    1-3: simpl; unwrap; (done || lia).
    rewrite Ea. cbn [mbind outcome_bind]. rewrite to_string_bytes by done. cbn [mbind outcome_bind]. rewrite Hwb, Hab, trim_strip, Ev. simpl. unwrap. do 2 f_equal.
    + rewrite Hw. f_equal. change (Pos.to_nat 1) with 1%nat. simpl. rewrite drop_0. f_equal. lia.
    + rewrite Hli, Ey, strip_cons_whitespace by done.
      replace (Z.to_nat (m_begin_offset v + Z.of_nat (S i) + 1 - m_begin_offset v)) with (S (S i)) by lia.
      simpl. rewrite take_ge; [done|]. rewrite length_drop. lia.
  - destruct (slice_from_ret m v 1 (position_at (m_begin_offset v + 1 + len rest))) as (w & Es & Hwok & Hwb); simpl; [done|lia..|].
    rewrite Es. cbn [mbind outcome_bind]. rewrite parse_command_type_of by done. cbn [mbind outcome_bind]. rewrite Hwb, Hw, Ev. simpl.
    change (Pos.to_nat 1) with 1%nat. simpl. rewrite drop_0, drop_all. do 3 f_equal.
    rewrite take_ge; [done|]. unfold len. lia.
Qed.

(** ** Properties *)

(** C38: [parse_command], which works on a view that may straddle any number of
    segments and start anywhere in the stream, computes what [parse_line]
    computes on the bytes: the command word up to the first blank, compared
    without case, and the rest without surrounding blanks. *)
Theorem parse_command_correct m v (Hok : view_ok m v) (Hne : view_bytes m v ≠ []) :
  parse_command m v = Ret (parse_line (view_bytes m v)).
Proof. by apply parse_command_bytes. Qed.

(** ** Instances *)

Definition command_memory : memory := Mem 3 {[1%N := text "xx/Na"; 2%N := text "me  Ann Lee "]}.
Definition command_view : segmented_byte_view := View [Span (Ptr 1 2) 3; Span (Ptr 2 0) 12] 7 15.

Lemma command_view_ok : view_ok command_memory command_view.
Proof.
  split; try done. repeat constructor; try (simpl; lia); simpl; eexists; (split; [reflexivity|done]).
Qed.

Lemma parse_command_correct_witness :
  parse_command command_memory command_view = Ret (name, text "Ann Lee").
Proof. rewrite (parse_command_correct command_memory command_view command_view_ok); [by vm_compute|done]. Defined.
