(* ===== verification/ChannelSample.v ===== *)
(** [samples/channel.cpp]: two writers of a thousand values each and two
    consumers share a channel, bounded or not; [main] waits for the writers,
    completes the channel and waits for the consumers.

    Thread 0 is [writer_a], 1 [writer_b], 2 [slow_consumer], 3
    [faster_consumer] and 4 [main]; a thread's next step is a function of the
    state and of whom its notification wakes. *)

From Stdlib Require Import Floats.SpecFloat.
From S2P Require Import Prelude Commands Channel ChannelSystem ChannelCalls.

(** ** The values *)

(** [float], IEEE binary32 *)
Definition float := spec_float.
Definition float_of_int (i : Z) : float := binary_normalize 24 128 i 0 false.
Definition float_mul (x y : float) : float := SFmul 24 128 x y.
(** The literal [0.1f]: the quotient of 1 and 10, rounded. *)
Definition float_tenth : float := SFdiv 24 128 (float_of_int 1) (float_of_int 10).

Record TestData := { value : Z; z : float }.

Definition emplaced (i : Z) : TestData := {| value := i; z := float_mul (float_of_int i) float_tenth |}.

(** ** The threads *)

(** Where a thread is; inside a call when the channel's system says so. *)
Inductive pc :=
  | AtBarrier (arrived : bool) (rest : pc) (* before, or inside, arrive_and_wait *)
  | Writing (i : Z)                        (* the loop of a writer *)
  | Consuming (read : option TestData)     (* the loop of a consumer; what its read took *)
  | JoiningWriterA                         (* main *)
  | JoiningWriterB
  | Completing
  | CheckingEmplace                        (* the first assertion *)
  | JoiningSlow
  | JoiningFaster
  | CheckingSize                           (* the second *)
  | Ended                                  (* the thread's function has returned *)
  | Aborted.                               (* an assertion has failed *)

Record sample := Sample {
  sm_system : system TestData;
  sm_barrier : nat;                        (* arrivals *)
  sm_pcs : list pc;
  sm_printed : list (nat * TestData)       (* the lines of the consumers *)
}.

Definition run_sample (capacity : Z) : sample :=
  Sample (initial capacity 5) 0
    [AtBarrier false (Writing 0); AtBarrier false (Writing 0); AtBarrier false (Consuming None);
     AtBarrier false (Consuming None); AtBarrier false JoiningWriterA] [].

Definition set_pc (i : nat) (p : pc) (c : sample) : sample :=
  Sample (sm_system c) (sm_barrier c) (<[i := p]> (sm_pcs c)) (sm_printed c).

Definition has_ended (i : nat) (c : sample) : bool :=
  match sm_pcs c !! i with Some Ended => true | _ => false end.

Definition is_idle (s : system TestData) (i : nat) : bool :=
  match s_threads s !! i with Some Idle => true | _ => false end.

(** What the last section of a system took off the channel. *)
Definition taken (s s' : system TestData) : option TestData := head (drop (length (s_popped s)) (s_popped s')).

Section thread.
Context (spurious : bool) (target : option nat) (i : nat) (c : sample).

Definition calls (op : operation TestData) (after : system TestData -> sample) : option sample :=
  s' ← call_next spurious target i op (sm_system c); Some (after s').

Definition with_system (s' : system TestData) (p : pc) : sample :=
  Sample s' (sm_barrier c) (<[i := p]> (sm_pcs c)) (sm_printed c).

(** The body of a writer's loop. *)
Definition write_next (k : Z) : option sample :=
  if is_idle (sm_system c) i && negb (k <? 1000) then Some (set_pc i Ended c)
  else calls (emplace_call (emplaced k))
         (fun s' => with_system s' (if is_idle s' i then Writing (k + 1) else Writing k)).

(** The condition of a consumer's loop, and the line that its body prints. *)
Definition consume_next (read : option TestData) : option sample :=
  calls read_call (fun s' =>
    match taken (sm_system c) s', is_idle s' i, read with
    | Some value, _, _ => with_system s' (Consuming (Some value))
    | None, true, Some value =>
        Sample s' (sm_barrier c) (<[i := Consuming None]> (sm_pcs c)) (sm_printed c ++ [(i, value)])
    | None, true, None => with_system s' Ended
    | None, false, _ => with_system s' (Consuming read)
    end).

Definition join_next (thread : nat) (next : pc) : option sample :=
  if has_ended thread c then Some (set_pc i next c) else None.

Definition thread_next : option sample :=
  p ← sm_pcs c !! i;
  match p with
  | AtBarrier false rest =>
      Some (Sample (sm_system c) (S (sm_barrier c)) (<[i := AtBarrier true rest]> (sm_pcs c)) (sm_printed c))
  | AtBarrier true rest => if (5 <=? sm_barrier c)%nat then Some (set_pc i rest c) else None
  | Writing k => write_next k
  | Consuming read => consume_next read
  | JoiningWriterA => join_next 0 JoiningWriterB
  | JoiningWriterB => join_next 1 Completing
  | Completing =>
      calls OpComplete (fun s' => with_system s' (if is_idle s' i then CheckingEmplace else Completing))
  | CheckingEmplace =>
      calls (emplace_call {| value := 0; z := float_of_int 0 |}) (fun s' =>
        with_system s'
          (if (length (s_pushed (sm_system c)) <? length (s_pushed s'))%nat then Aborted
           else if is_idle s' i then JoiningSlow else CheckingEmplace))
  | JoiningSlow => join_next 2 JoiningFaster
  | JoiningFaster => join_next 3 CheckingSize
  | CheckingSize => Some (set_pc i (if size (s_channel (sm_system c)) =? 0 then Ended else Aborted) c)
  | Ended | Aborted => None
  end.
End thread.

(** One section of one thread; without spurious wake-ups when [spurious] is
    [false]. *)
Inductive sample_step (spurious : bool) : sample -> sample -> Prop :=
  | SampleStep target i c c' : thread_next spurious target i c = Some c' -> sample_step spurious c c'.

(** [main]: an exit code, or the state in which [run_sample] starts. *)
Definition channel_main (argv : list bytes) : Z + sample :=
  match argv with
  | _ :: mode :: _ =>
      if is_equal_ignore_case mode (text "bounded") then inr (run_sample 500)
      else if is_equal_ignore_case mode (text "unbounded") then inr (run_sample 0)
      else inl 1
  | _ => inl 1
  end.

(** One schedule: the first thread that can run without a spurious wake-up. *)
Fixpoint first_some {A B} (f : A -> option B) (l : list A) : option B :=
  match l with
  | [] => None
  | x :: l => match f x with Some y => Some y | None => first_some f l end
  end.

Definition first_step (c : sample) : option sample :=
  first_some (fun i => first_some (fun target => thread_next false target i c)
    [None; Some 0; Some 1; Some 2; Some 3]%nat) [2; 3; 0; 1; 4]%nat.

Fixpoint run_threads (n : nat) (c : sample) : sample :=
  match n with
  | O => c
  | S n => match first_step c with Some c' => run_threads n c' | None => c end
  end.

Lemma first_some_inv {A B} (f : A -> option B) l y : first_some f l = Some y -> exists x, f x = Some y.
Proof. induction l as [|x l IH]; [done|]. cbn. destruct (f x) eqn:E; [intros [= <-]; eauto|apply IH]. Qed.

Lemma run_threads_steps n c : rtc (sample_step false) c (run_threads n c).
Proof.
  revert c. induction n as [|n IH]; intros c; [done|]. cbn [run_threads]. destruct (first_step c) as [c'|] eqn:E; [|done].
  unfold first_step in E. apply first_some_inv in E as [i E]. apply first_some_inv in E as [target E].
  eapply rtc_l; [by eapply SampleStep|apply IH].
Qed.

(** ** Two sequences merged *)

Inductive interleaving {A} : list A -> list A -> list A -> Prop :=
  | interleaving_nil : interleaving [] [] []
  | interleaving_left x l1 l2 l : interleaving l1 l2 l -> interleaving (l1 ++ [x]) l2 (l ++ [x])
  | interleaving_right x l1 l2 l : interleaving l1 l2 l -> interleaving l1 (l2 ++ [x]) (l ++ [x]).

Lemma interleaving_permutation {A} (l1 l2 l : list A) : interleaving l1 l2 l -> l ≡ₚ l1 ++ l2.
Proof.
  induction 1 as [|x l1 l2 l _ IH|x l1 l2 l _ IH]; [done| |]; rewrite IH; [|by rewrite app_assoc].
  rewrite <- !app_assoc. f_equiv. by rewrite (Permutation_app_comm l2 [x]).
Qed.

Lemma interleaving_length {A} (l1 l2 l : list A) : interleaving l1 l2 l -> length l = (length l1 + length l2)%nat.
Proof. intros H. rewrite (interleaving_permutation _ _ _ H). by rewrite length_app. Qed.

Lemma interleaving_sublists {A} (l1 l2 l : list A) : interleaving l1 l2 l -> l1 `sublist_of` l /\ l2 `sublist_of` l.
Proof.
  induction 1 as [|x l1 l2 l _ [IH1 IH2]|x l1 l2 l _ [IH1 IH2]]; [done| |]; split;
    (by apply sublist_app) || by apply sublist_inserts_r.
Qed.

(** One more value, or none, at the end of one of the two. *)
Lemma interleaving_more_left {A} (l1 l2 l : list A) (o : option A) :
  interleaving l1 l2 l -> interleaving (l1 ++ option_list o) l2 (l ++ option_list o).
Proof. destruct o; cbn; [apply interleaving_left|by rewrite !app_nil_r]. Qed.

Lemma interleaving_more_right {A} (l1 l2 l : list A) (o : option A) :
  interleaving l1 l2 l -> interleaving l1 (l2 ++ option_list o) (l ++ option_list o).
Proof. destruct o; cbn; [apply interleaving_right|by rewrite !app_nil_r]. Qed.

(** ** The invariant *)

(** What a writer has pushed after [k] rounds. *)
Definition written (k : Z) : list TestData := emplaced <$> seqZ 0 k.

Lemma written_S k : 0 <= k -> written (k + 1) = written k ++ [emplaced k].
Proof. intros Hk. unfold written. rewrite seqZ_app by lia. rewrite fmap_app. done. Qed.

(** Where a writer, a consumer and [main] can be, with the shape of their
    channel thread; what the writer has pushed, what the consumer took. *)
Inductive writer_at : pc -> thread TestData -> list TestData -> Prop :=
  | writer_barrier a : writer_at (AtBarrier a (Writing 0)) Idle []
  | writer_loop k : 0 <= k <= 1000 -> writer_at (Writing k) Idle (written k)
  | writer_parked k : 0 <= k < 1000 -> writer_at (Writing k) (WriteParked no_stop (emplaced k) true) (written k)
  | writer_notifying k b : 0 <= k < 1000 -> writer_at (Writing k) (NotifyingNotEmpty b) (written (k + 1))
  | writer_ended : writer_at Ended Idle (written 1000).

Inductive consumer_at (drained : Prop) (printed : list TestData) : pc -> thread TestData -> list TestData -> Prop :=
  | consumer_barrier a : consumer_at drained printed (AtBarrier a (Consuming None)) Idle printed
  | consumer_loop : consumer_at drained printed (Consuming None) Idle printed
  | consumer_parked : consumer_at drained printed (Consuming None) (ReadParked no_stop true) printed
  | consumer_notifying v b :
      consumer_at drained printed (Consuming (Some v)) (NotifyingNotFull b) (printed ++ [v])
  | consumer_ended : drained -> consumer_at drained printed Ended Idle printed.

(** [pa], [pb], [ps], [pf]: where the others are. *)
Inductive main_at (pa pb ps pf : pc) : pc -> thread TestData -> bool -> Prop :=
  | main_barrier a : main_at pa pb ps pf (AtBarrier a JoiningWriterA) Idle false
  | main_writer_a : main_at pa pb ps pf JoiningWriterA Idle false
  | main_writer_b : pa = Ended -> main_at pa pb ps pf JoiningWriterB Idle false
  | main_complete : pa = Ended -> pb = Ended -> main_at pa pb ps pf Completing Idle false
  | main_completing th : pa = Ended -> pb = Ended -> th = CompletingNotEmpty \/ th = CompletingNotFull ->
      main_at pa pb ps pf Completing th true
  | main_check : pa = Ended -> pb = Ended -> main_at pa pb ps pf CheckingEmplace Idle true
  | main_slow : pa = Ended -> pb = Ended -> main_at pa pb ps pf JoiningSlow Idle true
  | main_faster : pa = Ended -> pb = Ended -> ps = Ended -> main_at pa pb ps pf JoiningFaster Idle true
  | main_last p : pa = Ended -> pb = Ended -> ps = Ended -> pf = Ended -> p = CheckingSize \/ p = Ended ->
      main_at pa pb ps pf p Idle true.

Definition arrived (p : pc) : bool := match p with AtBarrier false _ => false | _ => true end.

Definition printed_by (i : nat) (c : sample) : list TestData :=
  snd <$> filter (fun line => line.1 = i) (sm_printed c).

Definition drained (s : system TestData) : Prop := completed s = true /\ m_queue (s_channel s) = [].

Record sample_ok (c : sample) : Prop := {
  sk_system : system_ok (sm_system c);
  sk_wakeups : wakeups_ok (sm_system c);
  sk_barrier : sm_barrier c = countb arrived (sm_pcs c);
  sk_threads : exists pa pb ps pf pm ta tb ts tf tm wa wb gs gf,
    sm_pcs c = [pa; pb; ps; pf; pm] /\ shapes (sm_system c) = [ta; tb; ts; tf; tm] /\
    writer_at pa ta wa /\ writer_at pb tb wb /\
    consumer_at (drained (sm_system c)) (printed_by 2 c) ps ts gs /\
    consumer_at (drained (sm_system c)) (printed_by 3 c) pf tf gf /\
    main_at pa pb ps pf pm tm (completed (sm_system c)) /\
    interleaving wa wb (s_pushed (sm_system c)) /\ interleaving gs gf (s_popped (sm_system c))
}.

(** ** Termination: the work that is left *)

Fixpoint pc_work (p : pc) : nat :=
  match p with
  | AtBarrier a rest => (if a then 1 else 2) + pc_work rest
  | Writing k => S (Z.to_nat (1000 - k))
  | Consuming _ => 4
  | JoiningWriterA => 80 | JoiningWriterB => 79 | Completing => 78 | CheckingEmplace => 40
  | JoiningSlow => 3 | JoiningFaster => 2 | CheckingSize => 1
  | Ended | Aborted => 0
  end.

Definition work (c : sample) : Z :=
  let s := sm_system c in
  20 * (4000 - len (s_pushed s) - len (s_popped s)) + (if completed s then 0 else 40) +
  Z.of_nat (sum_list_with pc_work (sm_pcs c)) + Z.of_nat (weights (s_threads s)).

(** ** One thread's step *)

(** Thread [i] went from [p] to [p'] and has the shape [th]; [pushed],
    [popped] and [printed] say what it did. *)
Record effect (spurious : bool) (i : nat) (c c' : sample) (p p' : pc) (th : thread TestData)
    (pushed popped printed : option TestData) : Prop := {
  ef_pcs : sm_pcs c' = <[i := p']> (sm_pcs c);
  ef_shapes : shapes (sm_system c') = <[i := th]> (shapes (sm_system c));
  ef_pushed : s_pushed (sm_system c') = s_pushed (sm_system c) ++ option_list pushed;
  ef_popped : s_popped (sm_system c') = s_popped (sm_system c) ++ option_list popped;
  ef_printed : sm_printed c' = sm_printed c ++ ((i,.) <$> option_list printed);
  ef_barrier : (sm_barrier c' + (if arrived p then 1 else 0) = sm_barrier c + (if arrived p' then 1 else 0))%nat;
  ef_system : system_ok (sm_system c') /\ wakeups_ok (sm_system c');
  ef_work : spurious = false -> work c' < work c
}.

Lemma thread_of_shape (s : system TestData) i th :
  shapes s !! i = Some th -> exists th0, s_threads s !! i = Some th0 /\ wake th0 = th.
Proof.
  unfold shapes. rewrite list_lookup_fmap. destruct (s_threads s !! i) as [th0|]; [|done]. intros [= <-]. eauto.
Qed.

Lemma shapes_length (s : system TestData) : length (shapes s) = length (s_threads s).
Proof. apply length_fmap. Qed.

Section effects.
Context (spurious : bool) (target : option nat) (i : nat) (c : sample) (p : pc) (th0 : thread TestData).
Context (Hok : system_ok (sm_system c)) (Hwk : wakeups_ok (sm_system c)).
Context (Hlen : length (s_threads (sm_system c)) = 5%nat).
Context (Hp : sm_pcs c !! i = Some p) (Hth : s_threads (sm_system c) !! i = Some th0).

Lemma pc_work_insert p' :
  (sum_list_with pc_work (<[i := p']> (sm_pcs c)) + pc_work p = sum_list_with pc_work (sm_pcs c) + pc_work p')%nat.
Proof. by apply sum_list_with_insert. Qed.

(** No call: the system is as before. *)
Lemma local_effect p' b :
  (b + (if arrived p then 1 else 0) = sm_barrier c + (if arrived p' then 1 else 0))%nat -> (pc_work p' < pc_work p)%nat ->
  effect spurious i c (Sample (sm_system c) b (<[i := p']> (sm_pcs c)) (sm_printed c)) p p' (wake th0) None None None.
Proof.
  intros Hb Hw. split; cbn [sm_system sm_pcs sm_barrier sm_printed option_list]; rewrite ?app_nil_r; try done.
  - symmetry. apply list_insert_id. unfold shapes. rewrite list_lookup_fmap, Hth. done.
  - intros _. unfold work. cbn [sm_system sm_pcs]. pose proof (pc_work_insert p'). lia.
Qed.

(** A section of a call. *)
Lemma call_effect op s' p' th pushed popped printed :
  call_next spurious target i op (sm_system c) = Some s' -> calm_operation op ->
  moved (sm_system c) i s' th (option_list pushed) (option_list popped) ->
  arrived p = true -> arrived p' = true ->
  (spurious = false -> parked th0 = false ->
    Z.of_nat (pc_work p' + weight th + wakes 5 th0) + (if completed s' then 0 else 40)
    < 20 * (len (option_list pushed) + len (option_list popped)) + (if completed (sm_system c) then 0 else 40)
      + Z.of_nat (pc_work p + weight th0)) ->
  effect spurious i c
    (Sample s' (sm_barrier c) (<[i := p']> (sm_pcs c)) (sm_printed c ++ ((i,.) <$> option_list printed)))
    p p' (wake th) pushed popped printed.
Proof.
  intros E Hcalm [Hs Hws _ Hpu Hpo] Ha Ha' Hw. pose proof (call_next_steps _ _ _ _ _ _ _ Hcalm E) as Hstep.
  split; cbn [sm_system sm_pcs sm_barrier sm_printed]; try done.
  - by rewrite Ha, Ha'.
  - split; [by eapply chan_step_preserves|by eapply chan_step_wakeups].
  - intros ->. specialize (Hws th0 Hth). rewrite Hlen in Hws. pose proof (pc_work_insert p').
    assert (parked th0 = false) as Hpk.
    { unfold call_next in E. rewrite Hth in E. cbn in E. by destruct th0 as [|? ? []|? []|? []| | | |]. }
    specialize (Hw eq_refl Hpk). unfold work. cbn [sm_system sm_pcs]. rewrite Hpu, Hpo, !len_app. lia.
Qed.

Lemma calls_inv op after c' :
  calls spurious target i c op after = Some c' ->
  exists s', call_next spurious target i op (sm_system c) = Some s' /\ c' = after s'.
Proof. unfold calls. destruct (call_next _ _ _ _ _) as [s'|]; [|done]. intros [= <-]. eauto. Qed.

Lemma idle_after s' th pu po : moved (sm_system c) i s' th pu po -> is_idle s' i = match th with Idle => true | _ => false end.
Proof. intros [_ _ Hm _ _]. unfold is_idle. by rewrite Hm. Qed.
End effects.

Lemma with_system_prints i c s' p :
  with_system i c s' p = Sample s' (sm_barrier c) (<[i := p]> (sm_pcs c)) (sm_printed c ++ ((i,.) <$> option_list None)).
Proof. unfold with_system. cbn. by rewrite app_nil_r. Qed.

Definition settled (c : sample) : Prop :=
  system_ok (sm_system c) /\ wakeups_ok (sm_system c) /\ length (s_threads (sm_system c)) = 5%nat.

(** The barrier, for any thread. *)
Lemma barrier_effect spurious target i c c' a rest th :
  settled c -> arrived rest = true ->
  sm_pcs c !! i = Some (AtBarrier a rest) -> shapes (sm_system c) !! i = Some th ->
  thread_next spurious target i c = Some c' ->
  exists p', effect spurious i c c' (AtBarrier a rest) p' th None None None /\ sm_system c' = sm_system c /\
    p' = if a then rest else AtBarrier true rest.
Proof.
  intros (Hok & Hwk & Hlen) Ha Hp Hth E. apply thread_of_shape in Hth as (th0 & Hth & <-). unfold thread_next in E. rewrite Hp in E. cbn -[Nat.leb] in E.
  destruct a.
  - destruct (5 <=? sm_barrier c)%nat; [|done]. injection E as <-. exists rest. split; [|done].
    eapply local_effect; try done; cbn; rewrite ?Ha; lia.
  - injection E as <-. exists (AtBarrier true rest). split; [|done]. eapply local_effect; try done; cbn; lia.
Qed.

(** Decides an inequality between amounts of work. *)
Ltac count_work :=
  change (len (option_list (@None TestData))) with 0;
  repeat match goal with |- context [len (option_list (Some ?v))] => change (len (option_list (Some v))) with 1 end;
  cbn; lia.

(** What a step of a writer amounts to; [w] is what it had pushed before. *)
Definition writer_effect (spurious : bool) (i : nat) (c c' : sample) (p : pc) (w : list TestData) : Prop :=
  exists p' th' more, effect spurious i c c' p p' th' more None None /\
    completed (sm_system c') = completed (sm_system c) /\ (is_Some more -> completed (sm_system c) = false) /\
    writer_at p' th' (w ++ option_list more).

Lemma writer_pushes spurious target i c s' k th0 :
  settled c -> sm_pcs c !! i = Some (Writing k) -> s_threads (sm_system c) !! i = Some th0 -> 0 <= k < 1000 ->
  th0 = Idle \/ (exists woken, th0 = WriteParked no_stop (emplaced k) woken) ->
  completed (sm_system c) = false -> call_next spurious target i (emplace_call (emplaced k)) (sm_system c) = Some s' ->
  pushes (sm_system c) i (emplaced k) s' ->
  writer_effect spurious i c (with_system i c s' (if is_idle s' i then Writing (k + 1) else Writing k)) (Writing k) (written k).
Proof.
  intros (Hok & Hwk & Hlen) Hp Hth Hk Hth0 Hopen E (Ec & [[Hm _]|[[_ Hd]|[_ [notify Hm]]]]); [|congruence|];
    unfold writer_effect, is_idle; rewrite (mv_thread _ _ _ _ _ _ Hm), with_system_prints.
  - exists (Writing k), (wake (WriteParked no_stop (emplaced k) false)), None. split_and!; try done.
    + eapply call_effect; try done. intros _ Hpk. rewrite Ec, Hopen.
      destruct Hth0 as [->|[[] ->]]; [|clear Hpk|done]; count_work.
    + rewrite app_nil_r. by constructor.
  - exists (Writing k), (wake (NotifyingNotEmpty notify)), (Some (emplaced k)). split_and!; try done.
    + eapply call_effect; try done. intros _ Hpk. rewrite Ec, Hopen.
      destruct Hth0 as [->|[[] ->]]; [|clear Hpk|done]; count_work.
    + cbn [option_list]. rewrite <- written_S by lia. by constructor.
Qed.

Lemma writer_next spurious target i c c' p th w :
  settled c -> sm_pcs c !! i = Some p -> shapes (sm_system c) !! i = Some th -> writer_at p th w ->
  (completed (sm_system c) = true -> p = Ended) -> thread_next spurious target i c = Some c' ->
  writer_effect spurious i c c' p w.
Proof.
  intros Hs Hp Hsh Hat Hc E. destruct (Hs) as (Hok & Hwk & Hlen). pose proof (thread_of_shape _ _ _ Hsh) as (th0 & Hth & Hw).
  assert (p ≠ Ended -> completed (sm_system c) = false) as Hopen by (intros ?; destruct (completed _); [by destruct Hc|done]).
  unfold thread_next in E. rewrite Hp in E. cbn -[Nat.leb] in E.
  destruct Hat as [a|k Hk|k Hk|k b Hk|]; [|specialize (Hopen ltac:(done)); unfold write_next, is_idle in E; rewrite Hth in E..|done].
  - destruct (barrier_effect spurious target i c c' a (Writing 0) Idle) as (p' & He & Es & ->); try done.
    { unfold thread_next. by rewrite Hp. }
    exists (if a then Writing 0 else AtBarrier true (Writing 0)), Idle, None. rewrite Es. split_and!; try done.
    destruct a; constructor. lia.
  - destruct th0; try done. cbn [andb] in E. destruct (Z.ltb_spec k 1000) as [Hlt|Hge]; cbn [negb] in E.
    + apply calls_inv in E as (s' & E & ->). eapply writer_pushes; try done; [lia|by left|].
      by apply (emplace_call_next _ _ _ _ _ _ _ Hok Hth E).
    + injection E as <-. assert (k = 1000) as -> by lia. exists Ended, Idle, None. split_and!; try done.
      * eapply (local_effect spurious i c (Writing 1000) Idle); (done || cbn; lia).
      * rewrite app_nil_r. constructor.
  - destruct th0 as [|t0 v0 woken| | | | | |]; try done. injection Hw as -> ->. cbn [andb] in E.
    apply calls_inv in E as (s' & E & ->). eapply writer_pushes; try done; [by right; eexists|].
    by apply (emplace_call_next _ _ _ _ _ _ _ Hok Hth E).
  - destruct th0 as [| | | |b0| | |]; try done. cbn [andb] in E. apply calls_inv in E as (s' & E & ->).
    pose proof (emplace_call_next _ _ _ _ _ _ _ Hok Hth E) as [Ec Hm].
    unfold is_idle. rewrite (mv_thread _ _ _ _ _ _ Hm), with_system_prints.
    exists (Writing (k + 1)), (wake Idle), None. split_and!; try done.
    + eapply call_effect; try done. intros _ _. rewrite Ec. count_work.
    + rewrite app_nil_r. constructor. lia.
Qed.

Lemma taken_moved (s s' : system TestData) i th pushed popped :
  moved s i s' th pushed (option_list popped) -> taken s s' = popped.
Proof. intros [_ _ _ _ Hpo]. unfold taken. rewrite Hpo, drop_app_length. by destruct popped. Qed.

(** What a step of a consumer amounts to; it had printed [before] and taken
    [got]. *)
Definition consumer_effect (spurious : bool) (i : nat) (c c' : sample) (p : pc) (before got : list TestData) : Prop :=
  exists p' th' popped printed, effect spurious i c c' p p' th' None popped printed /\
    completed (sm_system c') = completed (sm_system c) /\
    consumer_at (drained (sm_system c)) (before ++ option_list printed) p' th' (got ++ option_list popped).

Lemma consumer_pops spurious target i c s' th0 before :
  settled c -> sm_pcs c !! i = Some (Consuming None) -> s_threads (sm_system c) !! i = Some th0 ->
  th0 = Idle \/ (exists woken, th0 = ReadParked no_stop woken) ->
  call_next spurious target i read_call (sm_system c) = Some s' -> pops (sm_system c) i s' ->
  consumer_effect spurious i c
    (match taken (sm_system c) s', is_idle s' i with
     | Some value, _ => with_system i c s' (Consuming (Some value))
     | None, true => with_system i c s' Ended
     | None, false => with_system i c s' (Consuming None)
     end) (Consuming None) before before.
Proof.
  intros (Hok & Hwk & Hlen) Hp Hth Hth0 E (Ec & [[Hm _]|[[Hm Hd]|(v & notify & Hm)]]).
  - pose proof (taken_moved _ _ _ _ _ None Hm) as Ht. unfold is_idle. rewrite Ht, (mv_thread _ _ _ _ _ _ Hm), with_system_prints.
    exists (Consuming None), (wake (ReadParked no_stop false)), None, None. split_and!; try done.
    + eapply call_effect; try done. intros _ Hpk. rewrite Ec. destruct Hth0 as [->|[[] ->]]; [|clear Hpk|done]; count_work.
    + rewrite !app_nil_r. constructor.
  - pose proof (taken_moved _ _ _ _ _ None Hm) as Ht. unfold is_idle. rewrite Ht, (mv_thread _ _ _ _ _ _ Hm), with_system_prints.
    exists Ended, (wake Idle), None, None. split_and!; try done.
    + eapply call_effect; try done. intros _ Hpk. rewrite Ec. destruct Hth0 as [->|[[] ->]]; [|clear Hpk|done]; count_work.
    + rewrite !app_nil_r. by constructor.
  - pose proof (taken_moved _ _ _ _ _ (Some v) Hm) as Ht. rewrite Ht, with_system_prints.
    exists (Consuming (Some v)), (wake (NotifyingNotFull notify)), (Some v), None. split_and!; try done.
    + eapply call_effect; try done. intros _ Hpk. rewrite Ec. destruct Hth0 as [->|[[] ->]]; [|clear Hpk|done]; count_work.
    + cbn [option_list]. rewrite app_nil_r. constructor.
Qed.

Lemma consumer_next spurious target i c c' p th before got :
  settled c -> sm_pcs c !! i = Some p -> shapes (sm_system c) !! i = Some th ->
  consumer_at (drained (sm_system c)) before p th got -> thread_next spurious target i c = Some c' ->
  consumer_effect spurious i c c' p before got.
Proof.
  intros Hs Hp Hsh Hat E. destruct (Hs) as (Hok & Hwk & Hlen). pose proof (thread_of_shape _ _ _ Hsh) as (th0 & Hth & Hw).
  unfold thread_next in E. rewrite Hp in E. cbn -[Nat.leb] in E. destruct Hat as [a| | |v b|]; [|unfold consume_next in E..|done].
  - destruct (barrier_effect spurious target i c c' a (Consuming None) Idle) as (p' & He & Es & ->); try done.
    { unfold thread_next. by rewrite Hp. }
    exists (if a then Consuming None else AtBarrier true (Consuming None)), Idle, None, None. rewrite Es, !app_nil_r. split_and!; try done.
    destruct a; constructor.
  - destruct th0; try done. apply calls_inv in E as (s' & E & ->). eapply consumer_pops; try done; [by left|].
    by apply (read_call_next _ _ _ _ _ _ Hok Hth E).
  - destruct th0 as [| |t0 woken| | | | |]; try done. injection Hw as ->.
    apply calls_inv in E as (s' & E & ->). eapply consumer_pops; try done; [by right; eexists|].
    by apply (read_call_next _ _ _ _ _ _ Hok Hth E).
  - destruct th0 as [| | | | |b0| |]; try done. apply calls_inv in E as (s' & E & ->).
    pose proof (read_call_next _ _ _ _ _ _ Hok Hth E) as [Ec Hm].
    unfold is_idle. rewrite (taken_moved _ _ _ _ _ None Hm), (mv_thread _ _ _ _ _ _ Hm).
    exists (Consuming None), (wake Idle), None, (Some v). split_and!; try done.
    + eapply (call_effect spurious target i c (Consuming (Some v)) _ Hok Hwk Hlen Hp Hth _ s' _ Idle None None (Some v)); try done.
      intros _ _. rewrite Ec. count_work.
    + cbn [option_list]. rewrite app_nil_r. constructor.
Qed.

(** What a step of [main] amounts to. *)
Definition main_effect (spurious : bool) (c c' : sample) (pa pb ps pf p : pc) : Prop :=
  exists p' th', effect spurious 4 c c' p p' th' None None None /\
    (completed (sm_system c) = true -> completed (sm_system c') = true) /\
    main_at pa pb ps pf p' th' (completed (sm_system c')).

Lemma main_local spurious c pa pb ps pf p p' th0 :
  settled c -> sm_pcs c !! 4%nat = Some p -> s_threads (sm_system c) !! 4%nat = Some th0 ->
  arrived p = true -> arrived p' = true -> (pc_work p' < pc_work p)%nat ->
  main_at pa pb ps pf p' (wake th0) (completed (sm_system c)) ->
  main_effect spurious c (set_pc 4 p' c) pa pb ps pf p.
Proof.
  intros (Hok & Hwk & Hlen) Hp Hth Ha Ha' Hw Hat. exists p', (wake th0). split_and!; [|done..].
  apply local_effect; try done. by rewrite Ha, Ha'.
Qed.

Lemma main_call spurious target c s' pa pb ps pf op p p' th0 th :
  settled c -> sm_pcs c !! 4%nat = Some p -> s_threads (sm_system c) !! 4%nat = Some th0 ->
  call_next spurious target 4 op (sm_system c) = Some s' -> calm_operation op -> moved (sm_system c) 4 s' th [] [] ->
  arrived p = true -> arrived p' = true ->
  (Z.of_nat (pc_work p' + weight th + wakes 5 th0) + (if completed s' then 0 else 40)
    < (if completed (sm_system c) then 0 else 40) + Z.of_nat (pc_work p + weight th0)) ->
  (completed (sm_system c) = true -> completed s' = true) -> main_at pa pb ps pf p' (wake th) (completed s') ->
  main_effect spurious c (with_system 4 c s' p') pa pb ps pf p.
Proof.
  intros (Hok & Hwk & Hlen) Hp Hth E Hcalm Hm Ha Ha' Hw Hc Hat. rewrite with_system_prints.
  exists p', (wake th). split_and!; [|done..]. eapply call_effect; try done.
Qed.

Lemma main_next_effect spurious target c c' pa pb ps pf p th :
  settled c -> sm_pcs c = [pa; pb; ps; pf; p] -> shapes (sm_system c) !! 4%nat = Some th ->
  main_at pa pb ps pf p th (completed (sm_system c)) -> (ps = Ended -> drained (sm_system c)) ->
  thread_next spurious target 4 c = Some c' -> main_effect spurious c c' pa pb ps pf p.
Proof.
  intros Hs Hpcs Hsh Hat Hd E. pose proof (thread_of_shape _ _ _ Hsh) as (th0 & Hth & Hw).
  assert (sm_pcs c !! 4%nat = Some p) as Hp by (by rewrite Hpcs).
  destruct (Hs) as (Hok & Hwk & Hlen). remember (completed (sm_system c)) as closed eqn:Hc. pose proof E as Enext.
  unfold thread_next in E. rewrite Hp in E. cbn -[Nat.leb] in E.
  destruct Hat as [a| |Ha|Ha Hb|th' Ha Hb [-> | ->]|Ha Hb|Ha Hb|Ha Hb Hps|p Ha Hb Hps Hpf [-> | ->]];
    unfold join_next, has_ended in E; rewrite ?Hpcs in E; cbn -[Nat.leb] in E.
  - destruct (barrier_effect spurious target 4 c c' a JoiningWriterA Idle) as (p' & He & Es & ->); try done.
    exists (if a then JoiningWriterA else AtBarrier true JoiningWriterA), Idle. rewrite Es, <- Hc. split_and!; try done.
    destruct a; constructor.
  - destruct pa; try done. injection E as <-. eapply main_local; (done || (cbn; lia) || (rewrite Hw, <- Hc; by constructor)).
  - destruct pb; try done. injection E as <-. eapply main_local; (done || (cbn; lia) || (rewrite Hw, <- Hc; by constructor)).
  - destruct th0; try done. apply calls_inv in E as (s' & E & ->). pose proof (complete_call_next _ _ _ _ _ _ Hth E) as [Ec Hm].
    unfold is_idle. rewrite (mv_thread _ _ _ _ _ _ Hm). eapply main_call; try done; rewrite Ec, <- ?Hc; [cbn; lia|]. constructor; auto.
  - destruct th0; try done. apply calls_inv in E as (s' & E & ->). pose proof (complete_call_next _ _ _ _ _ _ Hth E) as [Ec Hm].
    unfold is_idle. rewrite (mv_thread _ _ _ _ _ _ Hm). eapply main_call; try done; rewrite Ec, <- ?Hc; [cbn; lia|done|]. constructor; auto.
  - destruct th0; try done. apply calls_inv in E as (s' & E & ->). pose proof (complete_call_next _ _ _ _ _ _ Hth E) as [Ec Hm].
    unfold is_idle. rewrite (mv_thread _ _ _ _ _ _ Hm). eapply main_call; try done; rewrite Ec, <- ?Hc; [cbn; lia|done|]. constructor; auto.
  - destruct th0; try done. apply calls_inv in E as (s' & E & ->).
    pose proof (emplace_call_next _ _ _ _ _ _ _ Hok Hth E) as (Ec & [[_ ?]|[[Hm _]|[? _]]]); [congruence| |congruence].
    unfold is_idle. rewrite (mv_thread _ _ _ _ _ _ Hm), (mv_pushed _ _ _ _ _ _ Hm), app_nil_r, Nat.ltb_irrefl.
    eapply main_call; try done; rewrite Ec, <- ?Hc; [cbn; lia|done|]. by constructor.
  - destruct ps; try done. injection E as <-. eapply main_local; (done || (cbn; lia) || (rewrite Hw, <- Hc; by constructor)).
  - destruct pf; try done. injection E as <-. eapply main_local; (done || (cbn; lia) || (rewrite Hw, <- Hc; apply main_last; auto)).
  - destruct (Hd Hps) as [_ Hq]. unfold size in E. rewrite Hq in E. injection E as <-.
    eapply main_local; (done || (cbn; lia) || (rewrite Hw, <- Hc; apply main_last; auto)).
  - done.
Qed.

(** ** Every step keeps the invariant *)

Lemma drained_stable (s s' : system TestData) :
  system_ok s -> system_ok s' -> drained s -> completed s' = true -> s_pushed s' = s_pushed s ->
  (exists popped, s_popped s' = s_popped s ++ popped) -> drained s'.
Proof.
  intros Hok Hok' [_ Hq] Hc Hpu [popped Hpo]. split; [done|]. pose proof (so_stream _ Hok) as E. pose proof (so_stream _ Hok') as E'.
  rewrite Hq, app_nil_r in E. rewrite Hpu, Hpo, E, <- app_assoc in E'. rewrite <- (app_nil_r (s_popped s)) in E' at 1.
  apply app_inv_head in E'. by destruct popped, (m_queue (s_channel s')).
Qed.

Lemma consumer_at_mono (D D' : Prop) printed p th got :
  (D -> D') -> consumer_at D printed p th got -> consumer_at D' printed p th got.
Proof. intros HD []; constructor; auto. Qed.

Lemma main_at_mono pa pb ps pf pa' pb' ps' pf' p th closed :
  (pa = Ended -> pa' = Ended) -> (pb = Ended -> pb' = Ended) -> (ps = Ended -> ps' = Ended) -> (pf = Ended -> pf' = Ended) ->
  main_at pa pb ps pf p th closed -> main_at pa' pb' ps' pf' p th closed.
Proof. intros ? ? ? ? []; [constructor|constructor|constructor|constructor|apply main_completing|constructor|constructor|constructor|apply main_last]; auto. Qed.

Lemma main_at_closed pa pb ps pf p th : main_at pa pb ps pf p th true -> pa = Ended /\ pb = Ended.
Proof. intros H. by inversion H. Qed.

Lemma printed_by_effect spurious i j c c' p p' th pushed popped printed :
  effect spurious i c c' p p' th pushed popped printed ->
  printed_by j c' = printed_by j c ++ (if decide (i = j) then option_list printed else []).
Proof.
  intros He. unfold printed_by. rewrite (ef_printed _ _ _ _ _ _ _ _ _ _ He), filter_app, fmap_app. f_equal.
  destruct printed as [v|]; [|by case_decide]. cbn. repeat (case_decide; cbn in *); done.
Qed.

Lemma barrier_step spurious i c c' p p' th pushed popped printed :
  effect spurious i c c' p p' th pushed popped printed -> sm_pcs c !! i = Some p ->
  sm_barrier c = countb arrived (sm_pcs c) -> sm_barrier c' = countb arrived (sm_pcs c').
Proof.
  intros He Hp Hb. pose proof (ef_barrier _ _ _ _ _ _ _ _ _ _ He) as E. rewrite (ef_pcs _ _ _ _ _ _ _ _ _ _ He).
  pose proof (countb_insert arrived (sm_pcs c) i p p' Hp). lia.
Qed.

Lemma ended_thread_stays spurious target i c c' p :
  sm_pcs c !! i = Some p -> thread_next spurious target i c = Some c' -> p ≠ Ended.
Proof. intros Hp E ->. unfold thread_next in E. by rewrite Hp in E. Qed.

Lemma settled_ok c : sample_ok c -> settled c.
Proof.
  intros [Hok Hwk _ (pa & pb & ps & pf & pm & ta & tb & ts & tf & tm & wa & wb & gs & gf & _ & Hsh & _)].
  split_and!; [done..|]. by rewrite <- shapes_length, Hsh.
Qed.

Definition step_ok (spurious : bool) (c c' : sample) : Prop := sample_ok c' /\ (spurious = false -> work c' < work c).

(** The threads that a step of another one leaves as they are. *)
Lemma drained_kept spurious i c c' p p' th pushed popped printed :
  sample_ok c -> effect spurious i c c' p p' th pushed popped printed ->
  (completed (sm_system c) = true -> completed (sm_system c') = true) ->
  (is_Some pushed -> completed (sm_system c) = false) -> drained (sm_system c) -> drained (sm_system c').
Proof.
  intros Hok He Hc Hp Hd. destruct He as [_ _ Epu Epo _ _ [Hok' _] _].
  apply (drained_stable (sm_system c)); [by apply Hok|done|done|by apply Hc, Hd| |by eexists].
  destruct pushed; [|by rewrite Epu, app_nil_r]. destruct Hd as [Hd _]. rewrite Hp in Hd by eauto. done.
Qed.

Lemma sample_writer_step spurious target i c c' :
  sample_ok c -> (i = 0 \/ i = 1)%nat -> thread_next spurious target i c = Some c' -> step_ok spurious c c'.
Proof.
  intros Hok Hi E. pose proof (settled_ok c Hok) as Hset.
  destruct (Hok) as [_ _ Hbar (pa & pb & ps & pf & pm & ta & tb & ts & tf & tm & wa & wb & gs & gf & Hpcs & Hsh & Ha & Hb & Hs & Hf & Hm & Hpu & Hpo)].
  destruct Hi as [-> | ->];
    [assert (sm_pcs c !! 0%nat = Some pa) as Hp by (by rewrite Hpcs); assert (shapes (sm_system c) !! 0%nat = Some ta) as Ht by (by rewrite Hsh);
     edestruct (writer_next spurious target 0 c c' pa ta wa) as (p' & th' & more & He & Hc & Hmore & Hat)
    |assert (sm_pcs c !! 1%nat = Some pb) as Hp by (by rewrite Hpcs); assert (shapes (sm_system c) !! 1%nat = Some tb) as Ht by (by rewrite Hsh);
     edestruct (writer_next spurious target 1 c c' pb tb wb) as (p' & th' & more & He & Hc & Hmore & Hat)]; try done.
  all: try (intros Hclosed; rewrite Hclosed in Hm; by apply main_at_closed in Hm as [? ?]).
  all: pose proof (ended_thread_stays _ _ _ _ _ _ Hp E) as Hne.
  all: assert (drained (sm_system c) -> drained (sm_system c')) as Hdr by (eapply drained_kept; [done|exact He|by rewrite Hc|done]).
  all: pose proof (printed_by_effect _ _ 2 _ _ _ _ _ _ _ _ He) as E2; pose proof (printed_by_effect _ _ 3 _ _ _ _ _ _ _ _ He) as E3.
  all: cbn in E2, E3; rewrite app_nil_r in E2, E3.
  all: split; [|apply He]; split; [apply He|apply He|by eapply barrier_step|].
  all: destruct He as [Ep Esh Epu Epo _ _ _ _]; rewrite Hpcs in Ep; rewrite Hsh in Esh; cbn in Ep, Esh, Epo; rewrite app_nil_r in Epo.
  - exists p', pb, ps, pf, pm, th', tb, ts, tf, tm, (wa ++ option_list more), wb, gs, gf. rewrite E2, E3, Epu, Epo, Hc.
    split_and!; try done; [by eapply consumer_at_mono..| |by apply interleaving_more_left].
    eapply main_at_mono; [..|exact Hm]; done.
  - exists pa, p', ps, pf, pm, ta, th', ts, tf, tm, wa, (wb ++ option_list more), gs, gf. rewrite E2, E3, Epu, Epo, Hc.
    split_and!; try done; [by eapply consumer_at_mono..| |by apply interleaving_more_right].
    eapply main_at_mono; [..|exact Hm]; done.
Qed.

Lemma sample_consumer_step spurious target i c c' :
  sample_ok c -> (i = 2 \/ i = 3)%nat -> thread_next spurious target i c = Some c' -> step_ok spurious c c'.
Proof.
  intros Hok Hi E. pose proof (settled_ok c Hok) as Hset.
  destruct (Hok) as [_ _ Hbar (pa & pb & ps & pf & pm & ta & tb & ts & tf & tm & wa & wb & gs & gf & Hpcs & Hsh & Ha & Hb & Hs & Hf & Hm & Hpu & Hpo)].
  destruct Hi as [-> | ->];
    [assert (sm_pcs c !! 2%nat = Some ps) as Hp by (by rewrite Hpcs); assert (shapes (sm_system c) !! 2%nat = Some ts) as Ht by (by rewrite Hsh);
     destruct (consumer_next spurious target 2 c c' ps ts _ gs Hset Hp Ht Hs E) as (p' & th' & popped & printed & He & Hc & Hat)
    |assert (sm_pcs c !! 3%nat = Some pf) as Hp by (by rewrite Hpcs); assert (shapes (sm_system c) !! 3%nat = Some tf) as Ht by (by rewrite Hsh);
     destruct (consumer_next spurious target 3 c c' pf tf _ gf Hset Hp Ht Hf E) as (p' & th' & popped & printed & He & Hc & Hat)].
  all: pose proof (ended_thread_stays _ _ _ _ _ _ Hp E) as Hne.
  all: assert (drained (sm_system c) -> drained (sm_system c')) as Hdr by (eapply drained_kept; [done|exact He|by rewrite Hc|by intros []]).
  all: pose proof (printed_by_effect _ _ 2 _ _ _ _ _ _ _ _ He) as E2; pose proof (printed_by_effect _ _ 3 _ _ _ _ _ _ _ _ He) as E3.
  all: cbn in E2, E3; rewrite ?app_nil_r in E2; rewrite ?app_nil_r in E3.
  all: split; [|apply He]; split; [apply He|apply He|by eapply barrier_step|].
  all: destruct He as [Ep Esh Epu Epo _ _ _ _]; rewrite Hpcs in Ep; rewrite Hsh in Esh; cbn in Ep, Esh, Epu; rewrite app_nil_r in Epu.
  - exists pa, pb, p', pf, pm, ta, tb, th', tf, tm, wa, wb, (gs ++ option_list popped), gf. rewrite E2, E3, Epu, Epo, Hc.
    split_and!; try done; [by eapply consumer_at_mono..| |by apply interleaving_more_left].
    eapply main_at_mono; [..|exact Hm]; done.
  - exists pa, pb, ps, p', pm, ta, tb, ts, th', tm, wa, wb, gs, (gf ++ option_list popped). rewrite E2, E3, Epu, Epo, Hc.
    split_and!; try done; [by eapply consumer_at_mono..| |by apply interleaving_more_right].
    eapply main_at_mono; [..|exact Hm]; done.
Qed.

Lemma sample_main_step spurious target c c' :
  sample_ok c -> thread_next spurious target 4 c = Some c' -> step_ok spurious c c'.
Proof.
  intros Hok E. pose proof (settled_ok c Hok) as Hset.
  destruct (Hok) as [_ _ Hbar (pa & pb & ps & pf & pm & ta & tb & ts & tf & tm & wa & wb & gs & gf & Hpcs & Hsh & Ha & Hb & Hs & Hf & Hm & Hpu & Hpo)].
  assert (sm_pcs c !! 4%nat = Some pm) as Hp by (by rewrite Hpcs).
  destruct (main_next_effect spurious target c c' pa pb ps pf pm tm) as (p' & th' & He & Hc & Hat); try done; [by rewrite Hsh|..].
  { intros ->. by inversion Hs. }
  assert (drained (sm_system c) -> drained (sm_system c')) as Hdr by (eapply drained_kept; [done|exact He|done|by intros []]).
  pose proof (printed_by_effect _ _ 2 _ _ _ _ _ _ _ _ He) as E2. pose proof (printed_by_effect _ _ 3 _ _ _ _ _ _ _ _ He) as E3.
  cbn in E2, E3. rewrite app_nil_r in E2, E3. split; [|apply He]. split; [apply He|apply He|by eapply barrier_step|].
  destruct He as [Ep Esh Epu Epo _ _ _ _]. rewrite Hpcs in Ep. rewrite Hsh in Esh. cbn in Ep, Esh, Epu, Epo. rewrite app_nil_r in Epu, Epo.
  exists pa, pb, ps, pf, p', ta, tb, ts, tf, th', wa, wb, gs, gf. rewrite E2, E3, Epu, Epo.
  split_and!; try done; by eapply consumer_at_mono.
Qed.

Lemma sample_step_ok spurious c c' : sample_ok c -> sample_step spurious c c' -> step_ok spurious c c'.
Proof.
  intros Hok Hstep. destruct Hstep as [target i c c' E]. destruct i as [|[|[|[|[|i]]]]].
  - eapply sample_writer_step; [done| |done]. by left.
  - eapply sample_writer_step; [done| |done]. by right.
  - eapply sample_consumer_step; [done| |done]. by left.
  - eapply sample_consumer_step; [done| |done]. by right.
  - by eapply sample_main_step.
  - destruct (Hok) as [_ _ _ (? & ? & ? & ? & ? & ? & ? & ? & ? & ? & ? & ? & ? & ? & Hpcs & _)].
    unfold thread_next in E. by rewrite Hpcs in E.
Qed.

Lemma run_sample_ok capacity : sample_ok (run_sample capacity).
Proof.
  split; [by apply chan_initial_ok|apply initial_wakeups|done|].
  eexists _, _, _, _, _, _, _, _, _, _, [], [], [], []. split; [done|]. split; [done|]. split_and!; constructor.
Qed.

Lemma sample_reachable_ok spurious capacity c : rtc (sample_step spurious) (run_sample capacity) c -> sample_ok c.
Proof.
  intros Hrun. eapply (rtc_invariant (sample_step spurious) sample_ok); [|exact Hrun|apply run_sample_ok].
  intros c1 c2 Hok Hstep. by apply (sample_step_ok spurious c1 c2).
Qed.

(** ** Nobody waits for ever *)

Definition can_step (c : sample) : Prop := exists c', sample_step false c c'.

(** Why a thread cannot run. *)
Definition stuck_at (c : sample) (p : pc) (th : thread TestData) : Prop :=
  match p with
  | AtBarrier a _ => a = true /\ (sm_barrier c < 5)%nat
  | Writing _ | Consuming _ | Completing | CheckingEmplace => parked th = true
  | JoiningWriterA => has_ended 0 c = false
  | JoiningWriterB => has_ended 1 c = false
  | JoiningSlow => has_ended 2 c = false
  | JoiningFaster => has_ended 3 c = false
  | CheckingSize => False
  | Ended | Aborted => True
  end.

Lemma calls_progress c i p th op after :
  sm_pcs c !! i = Some p -> s_threads (sm_system c) !! i = Some th ->
  (forall target, thread_next false target i c = calls false target i c op after) -> can_step c \/ parked th = true.
Proof.
  intros Hp Hth Hn. destruct (parked th) eqn:Epk; [by right|]. left.
  destruct (call_next_enabled (sm_system c) i op th Hth Epk) as (target & s' & E).
  exists (after s'). apply (SampleStep false target i). rewrite Hn. unfold calls. by rewrite E.
Qed.

Lemma thread_progress c i p th :
  sm_pcs c !! i = Some p -> s_threads (sm_system c) !! i = Some th -> can_step c \/ stuck_at c p th.
Proof.
  intros Hp Hth.
  assert (forall target c', thread_next false target i c = Some c' -> can_step c) as Hstep.
  { intros target c' E. exists c'. by apply (SampleStep false target i). }
  specialize (Hstep None). unfold thread_next in Hstep. rewrite Hp in Hstep. cbn -[Nat.leb] in Hstep.
  destruct p as [[] rest|k|read| | | | | | | | |]; cbn [stuck_at]; try (by left; eapply Hstep); try by right.
  - destruct (Nat.leb_spec 5 (sm_barrier c)); [left; by eapply Hstep|by right].
  - unfold write_next in Hstep. destruct (is_idle (sm_system c) i && negb (k <? 1000)) eqn:Ei; [by left; eapply Hstep|].
    eapply calls_progress; [done..|]. intros target. unfold thread_next. rewrite Hp. cbn. unfold write_next. by rewrite Ei.
  - eapply calls_progress; [done..|]. intros target. unfold thread_next. by rewrite Hp.
  - unfold join_next in Hstep. destruct (has_ended 0 c); [by left; eapply Hstep|by right].
  - unfold join_next in Hstep. destruct (has_ended 1 c); [by left; eapply Hstep|by right].
  - eapply calls_progress; [done..|]. intros target. unfold thread_next. by rewrite Hp.
  - eapply calls_progress; [done..|]. intros target. unfold thread_next. by rewrite Hp.
  - unfold join_next in Hstep. destruct (has_ended 2 c); [by left; eapply Hstep|by right].
  - unfold join_next in Hstep. destruct (has_ended 3 c); [by left; eapply Hstep|by right].
Qed.

(** A stuck writer has ended, or sleeps with its value; a stuck consumer has
    ended, or sleeps. *)
Lemma stuck_writer c p th w :
  stuck_at c p th -> sm_barrier c = 5%nat -> writer_at p (wake th) w ->
  (p = Ended /\ th = Idle) \/ exists k, th = WriteParked no_stop (emplaced k) false.
Proof.
  intros Hst Hb Hat. destruct p as [a rest|k|read| | | | | | | | |]; cbn in Hst; try by inversion Hat.
  - lia.
  - right. exists k. inversion Hat; subst; destruct th as [|? ? []|? []|? []| | | |]; simplify_eq/=; done.
  - left. inversion Hat. by destruct th.
Qed.

Lemma stuck_consumer c p th D printed got :
  stuck_at c p th -> sm_barrier c = 5%nat -> consumer_at D printed p (wake th) got ->
  (p = Ended /\ th = Idle /\ D) \/ th = ReadParked no_stop false.
Proof.
  intros Hst Hb Hat. destruct p as [a rest|k|read| | | | | | | | |]; cbn in Hst; try by inversion Hat.
  - lia.
  - right. inversion Hat; subst; destruct th as [|? ? []|? []|? []| | | |]; simplify_eq/=; done.
  - left. inversion Hat. by destruct th.
Qed.

Lemma stuck_main c pa pb ps pf p th closed :
  stuck_at c p th -> sm_barrier c = 5%nat -> main_at pa pb ps pf p (wake th) closed -> sm_pcs c = [pa; pb; ps; pf; p] ->
  th = Idle /\ (p = Ended \/ pa ≠ Ended \/ pb ≠ Ended \/ closed = true /\ (ps ≠ Ended \/ pf ≠ Ended)).
Proof.
  intros Hst Hb Hat Hpcs. unfold stuck_at, has_ended in Hst. rewrite Hpcs in Hst. cbn in Hst.
  inversion Hat as [| | | |th' ? ? [E|E]| | | |? ? ? ? ? [E|E]]; subst; destruct th; try done; try lia; split; try done; naive_solver.
Qed.

Definition main_ended (c : sample) : Prop := sm_pcs c !! 4%nat = Some Ended.

Lemma writer_pushed p th w : writer_at p th w -> (length w <= 1000)%nat /\ (p = Ended -> w = written 1000).
Proof. intros []; unfold written; rewrite ?length_fmap, ?length_seqZ; (split; [cbn; lia|done]). Qed.

Lemma stuck_arrived c p th : stuck_at c p th -> arrived p = true.
Proof. destruct p as [[] rest| | | | | | | | | | |]; cbn; try done. by intros [? _]. Qed.

(** With [main] not in a call: the writers have ended, and when the channel
    is completed so have the consumers. *)
Lemma sleepers_gone (s : system TestData) xa xb xs xf (Da Db Ds Df : Prop) :
  system_ok s -> wakeups_ok s -> s_threads s = [xa; xb; xs; xf; Idle] ->
  (Da /\ xa = Idle) \/ (exists k, xa = WriteParked no_stop (emplaced k) false) ->
  (Db /\ xb = Idle) \/ (exists k, xb = WriteParked no_stop (emplaced k) false) ->
  (Ds /\ xs = Idle /\ drained s) \/ xs = ReadParked no_stop false ->
  (Df /\ xf = Idle /\ drained s) \/ xf = ReadParked no_stop false ->
  Da /\ Db /\ (completed s = true -> Ds /\ Df).
Proof.
  intros Hso Hwk Hths Wa Wb Ws Wf. destruct (quiet_channel s Hso Hwk) as [Hr Hw].
  { rewrite Hths. repeat (apply Forall_cons; split); try apply Forall_nil_2; try (by left);
      [destruct Wa as [(_ & ->)|[k ->]]|destruct Wb as [(_ & ->)|[k ->]]|destruct Ws as [(_ & -> & _)| ->]|destruct Wf as [(_ & -> & _)| ->]];
      auto. }
  rewrite Hths in Hr, Hw.
  assert (forall k, WriteParked no_stop (emplaced k) false ∉ [xa; xb; xs; xf; Idle]) as Hnw.
  { intros k Hin. destruct (Hw _ _ Hin) as [Hfull Hopen]. pose proof (full_capacity _ Hfull). pose proof (full_no_slot _ Hfull) as Hroom.
    destruct Ws as [(_ & _ & [Hd _])| ->]; [unfold completed in Hd; congruence|].
    destruct (Hr no_stop) as [Hq _]; [by apply (list_elem_of_lookup_2 _ 2)|].
    rewrite Hq in Hroom. change (len (@nil TestData)) with 0 in Hroom. lia. }
  destruct Wa as [[? _]|[k ->]]; [|by destruct (Hnw k); apply (list_elem_of_lookup_2 _ 0)].
  destruct Wb as [[? _]|[k ->]]; [|by destruct (Hnw k); apply (list_elem_of_lookup_2 _ 1)].
  split_and!; [done..|]. unfold completed. intros Hclosed.
  destruct Ws as [(? & _)| ->]; [|destruct (Hr no_stop) as [_ ?]; [by apply (list_elem_of_lookup_2 _ 2)|congruence]].
  destruct Wf as [(? & _)| ->]; [done|destruct (Hr no_stop) as [_ ?]; [by apply (list_elem_of_lookup_2 _ 3)|congruence]].
Qed.

Lemma sample_progress c : sample_ok c -> main_ended c \/ can_step c.
Proof.
  intros Hok. pose proof (settled_ok c Hok) as (Hso & Hwk & _).
  destruct (Hok) as [_ _ Hbar (pa & pb & ps & pf & pm & ta & tb & ts & tf & tm & wa & wb & gs & gf & Hpcs & Hsh & Ha & Hb & Hs & Hf & Hm & _)].
  destruct (s_threads (sm_system c)) as [|xa [|xb [|xs [|xf [|xm [|]]]]]] eqn:Hths;
    try (unfold shapes in Hsh; rewrite Hths in Hsh; discriminate Hsh).
  assert (forall i p th, sm_pcs c !! i = Some p -> s_threads (sm_system c) !! i = Some th -> can_step c \/ stuck_at c p th) as Hp
    by (intros; by eapply thread_progress).
  rewrite Hpcs, Hths in Hp. unfold shapes in Hsh. rewrite Hths in Hsh. injection Hsh as <- <- <- <- <-.
  destruct (Hp 0%nat pa xa) as [?|Sa]; [done..|by right|]. destruct (Hp 1%nat pb xb) as [?|Sb]; [done..|by right|].
  destruct (Hp 2%nat ps xs) as [?|Ss]; [done..|by right|]. destruct (Hp 3%nat pf xf) as [?|Sf]; [done..|by right|].
  destruct (Hp 4%nat pm xm) as [?|Sm]; [done..|by right|]. clear Hp.
  assert (sm_barrier c = 5%nat) as H5.
  { rewrite Hbar, Hpcs. cbn [countb].
    by rewrite (stuck_arrived _ _ _ Sa), (stuck_arrived _ _ _ Sb), (stuck_arrived _ _ _ Ss), (stuck_arrived _ _ _ Sf), (stuck_arrived _ _ _ Sm). }
  pose proof (stuck_writer _ _ _ _ Sa H5 Ha) as Wa. pose proof (stuck_writer _ _ _ _ Sb H5 Hb) as Wb.
  pose proof (stuck_consumer _ _ _ _ _ _ Ss H5 Hs) as Ws. pose proof (stuck_consumer _ _ _ _ _ _ Sf H5 Hf) as Wf.
  destruct (stuck_main _ _ _ _ _ _ _ _ Sm H5 Hm Hpcs) as [-> Wm].
  destruct (sleepers_gone _ _ _ _ _ _ _ _ _ Hso Hwk Hths Wa Wb Ws Wf) as (-> & -> & Hgone).
  left. unfold main_ended. rewrite Hpcs. cbn. f_equal. destruct Wm as [?|[?|[?|[Hclosed Hne]]]]; [done..|].
  destruct (Hgone Hclosed) as [-> ->]. by destruct Hne.
Qed.

Lemma work_nonneg c : sample_ok c -> 0 <= work c.
Proof.
  intros [Hso _ _ (pa & pb & ps & pf & pm & ta & tb & ts & tf & tm & wa & wb & gs & gf & _ & _ & Ha & Hb & _ & _ & _ & Hpu & Hpo)].
  pose proof (so_stream _ Hso) as E. apply (f_equal len) in E. rewrite len_app in E.
  pose proof (len_nonneg (m_queue (s_channel (sm_system c)))). apply interleaving_length in Hpu.
  destruct (writer_pushed _ _ _ Ha), (writer_pushed _ _ _ Hb). unfold work, len in *. destruct (completed _); lia.
Qed.

(** Quiet runs are bounded, and go on until [main] has returned. *)
Lemma quiet_runs_bounded n c c' : sample_ok c -> nsteps (sample_step false) n c c' -> Z.of_nat n <= work c.
Proof.
  intros Hok Hn. revert Hok. induction Hn as [c|n c c1 c' Hstep _ IH]; intros Hok; [by apply work_nonneg|].
  destruct (sample_step_ok false c c1 Hok Hstep) as [Hok1 Hw]. specialize (IH Hok1). specialize (Hw eq_refl). lia.
Qed.

Lemma quiet_run_ends c : sample_ok c -> exists c', rtc (sample_step false) c c' /\ main_ended c'.
Proof.
  intros Hok. remember (Z.to_nat (work c)) as n eqn:Hn. revert c Hok Hn.
  induction n as [n IH] using lt_wf_ind. intros c Hok ->. destruct (sample_progress c Hok) as [?|[c1 Hstep]]; [by exists c|].
  destruct (sample_step_ok false c c1 Hok Hstep) as [Hok1 Hw]. specialize (Hw eq_refl). pose proof (work_nonneg c1 Hok1).
  destruct (IH (Z.to_nat (work c1)) ltac:(lia) c1 Hok1 eq_refl) as (c' & Hrun & Hend). exists c'. split; [by eapply rtc_l|done].
Qed.

Lemma sample_result c :
  sample_ok c -> main_ended c ->
  m_queue (s_channel (sm_system c)) = [] /\
  exists order, interleaving (written 1000) (written 1000) order /\ interleaving (printed_by 2 c) (printed_by 3 c) order.
Proof.
  intros [Hso _ _ (pa & pb & ps & pf & pm & ta & tb & ts & tf & tm & wa & wb & gs & gf & Hpcs & _ & Ha & Hb & Hs & Hf & Hm & Hpu & Hpo)] Hend.
  unfold main_ended in Hend. rewrite Hpcs in Hend. injection Hend as ->. inversion Hm; subst.
  destruct (writer_pushed _ _ _ Ha) as [_ Ewa], (writer_pushed _ _ _ Hb) as [_ Ewb]. rewrite Ewa, Ewb in Hpu by done.
  assert (drained (sm_system c)) as [_ Hq] by (by inversion Hs). split; [done|]. exists (s_pushed (sm_system c)).
  pose proof (so_stream _ Hso) as E. rewrite Hq, app_nil_r in E. rewrite E at 2. by inversion Hs; inversion Hf; subst.
Qed.

Lemma sample_never_aborts c : sample_ok c -> Aborted ∉ sm_pcs c.
Proof.
  intros [_ _ _ (pa & pb & ps & pf & pm & ta & tb & ts & tf & tm & wa & wb & gs & gf & Hpcs & _ & Ha & Hb & Hs & Hf & Hm & _)].
  rewrite Hpcs. intros Hin. repeat (apply elem_of_cons in Hin as [<-|Hin]); [by inversion Ha|by inversion Hb|by inversion Hs|by inversion Hf| |by apply elem_of_nil in Hin].
  inversion Hm; subst; destruct_or?; done.
Qed.

Lemma weights_bound (ths : list (thread TestData)) : (weights ths <= length ths * 32)%nat.
Proof.
  unfold weights. induction ths as [|th ths IH]; [done|]. cbn [sum_list_with length].
  assert (weight th <= 32)%nat by (destruct th as [|? ? []|? []|? []| | | |]; cbn; lia). lia.
Qed.

Lemma work_bound c : sample_ok c -> work c <= 83000.
Proof.
  intros [_ _ _ (pa & pb & ps & pf & pm & ta & tb & ts & tf & tm & wa & wb & gs & gf & Hpcs & Hsh & Ha & Hb & Hs & Hf & Hm & _)].
  pose proof (weights_bound (s_threads (sm_system c))) as Hws. rewrite <- shapes_length, Hsh in Hws. cbn [length] in Hws.
  assert (forall p th w, writer_at p th w -> pc_work p <= 1003)%nat as Hw by (intros ? ? ? []; cbn [pc_work]; try destruct a; lia).
  assert (forall D l p th got, consumer_at D l p th got -> pc_work p <= 6)%nat as Hc by (intros ? ? ? ? ? []; cbn [pc_work]; try destruct a; lia).
  assert (pc_work pm <= 82)%nat by (destruct Hm; destruct_or?; subst; cbn [pc_work]; try destruct a; lia).
  pose proof (Hw _ _ _ Ha). pose proof (Hw _ _ _ Hb). pose proof (Hc _ _ _ _ _ Hs). pose proof (Hc _ _ _ _ _ Hf).
  unfold work. rewrite Hpcs. cbn [sum_list_with]. pose proof (len_nonneg (s_pushed (sm_system c))). pose proof (len_nonneg (s_popped (sm_system c))).
  destruct (completed _); lia.
Qed.

Lemma channel_main_ok argv c0 c : channel_main argv = inr c0 -> rtc (sample_step true) c0 c -> sample_ok c.
Proof.
  intros Hmain Hrun. destruct argv as [|arg0 [|mode rest]]; try done. cbn in Hmain.
  repeat case_match; simplify_eq; by eapply sample_reachable_ok.
Qed.

(** A run without spurious wake-ups is a run. *)
Lemma thread_next_spurious target i c c' :
  thread_next false target i c = Some c' -> thread_next true target i c = Some c'.
Proof.
  assert (forall op (s s' : system TestData), call_next false target i op s = Some s' -> call_next true target i op s = Some s') as Hcall.
  { intros op s s' E. unfold call_next in *. destruct (s_threads s !! i) as [th|]; [|done]. cbn in *.
    by destruct th as [|? ? []|? []|? []| | | |]. }
  assert (forall op after c1 c2, calls false target i c1 op after = Some c2 -> calls true target i c1 op after = Some c2) as Hcalls.
  { intros op after c1 c2 E. apply calls_inv in E as (s' & E & ->). unfold calls. by rewrite (Hcall _ _ _ E). }
  unfold thread_next. destruct (sm_pcs c !! i) as [p|]; [|done]. cbn -[Nat.leb].
  destruct p as [[] rest|k|read| | | | | | | | |]; try done; unfold write_next, consume_next; repeat case_match; try done; auto.
Qed.

Lemma quiet_run_run c c' : rtc (sample_step false) c c' -> rtc (sample_step true) c c'.
Proof.
  intros Hrun. induction Hrun as [|c c1 c' Hstep _ IH]; [done|]. eapply rtc_l; [|exact IH].
  destruct Hstep as [target i c c1 E]. eapply SampleStep. by eapply thread_next_spurious.
Qed.

(** C17: channel.cpp, with either kind of channel, under every interleaving and
    spurious wake-up: no assertion fails; until [main] has returned some
    thread can run without being woken spuriously; and when it has, the
    consumers have printed both writers' thousand values, each once: one order
    in which the writers took turns is the order in which the consumers did. *)
Theorem channel_sample_delivers argv c0 c
    (Hmain : channel_main argv = inr c0) (Hrun : rtc (sample_step true) c0 c) :
  (Aborted ∉ sm_pcs c) /\ (main_ended c \/ can_step c) /\
  (main_ended c ->
    size (s_channel (sm_system c)) = 0 /\
    exists order, interleaving (written 1000) (written 1000) order /\
      interleaving (printed_by 2 c) (printed_by 3 c) order).
Proof.
  pose proof (channel_main_ok argv c0 c Hmain Hrun) as Hok.
  split_and!; [by apply sample_never_aborts|by apply sample_progress|]. intros Hend.
  destruct (sample_result c Hok Hend) as [Hq Ho]. split; [|done]. unfold size. by rewrite Hq.
Qed.

(** C18: channel.cpp ends: from every state the program can be in, the threads
    take at most 83,000 steps without spurious wake-ups, and those can be
    taken until [main] has returned. *)
Theorem channel_sample_ends argv c0 c
    (Hmain : channel_main argv = inr c0) (Hrun : rtc (sample_step true) c0 c) :
  (forall n c', nsteps (sample_step false) n c c' -> Z.of_nat n <= 83000) /\
  (exists c', rtc (sample_step false) c c' /\ main_ended c').
Proof.
  pose proof (channel_main_ok argv c0 c Hmain Hrun) as Hok. split; [|by apply quiet_run_ends].
  intros n c' Hn. pose proof (quiet_runs_bounded n c c' Hok Hn). pose proof (work_bound c Hok). lia.
Qed.

Definition bounded_args : list bytes := [text "channel"; text "Bounded"].

Lemma channel_sample_delivers_witness :
  exists c, main_ended c /\
    exists order, interleaving (written 1000) (written 1000) order /\
      interleaving (printed_by 2 c) (printed_by 3 c) order.
Proof.
  destruct (quiet_run_ends (run_sample 500) (run_sample_ok 500)) as (c & Hrun & Hend). exists c. split; [exact Hend|].
  destruct (channel_sample_delivers bounded_args (run_sample 500) c) as (_ & _ & Hres).
  - vm_compute. reflexivity.
  - by apply quiet_run_run.
  - by apply Hres.
Defined.

(** After the barrier and the first value, which [slow_consumer] prints. *)
Lemma channel_sample_ends_witness :
  sm_printed (run_threads 15 (run_sample 500)) = [(2%nat, emplaced 0)] /\
  exists c', rtc (sample_step false) (run_threads 15 (run_sample 500)) c' /\ main_ended c'.
Proof.
  split; [vm_compute; reflexivity|]. apply (channel_sample_ends bounded_args (run_sample 500)).
  - vm_compute. reflexivity.
  - apply quiet_run_run, run_threads_steps.
Defined.
