(* ===== verification/Connection.v ===== *)
(** The chat sample's connection handler
    ([samples/chat/connection_handler.h]): a thread that reads the
    connection's pipeline line by line and acts on the server.

    The calls on [m_server] and the log entries are recorded as [action]s; the
    server's side of them is Server.v.  [process_line] is one iteration of
    the inner loop; ConnectionSystem.v runs it against the writer. *)

From S2P Require Import Prelude Memory Position ByteView Lines Text LogMessage Commands.
Import log_level command_type.

Inductive action :=
  | Reply (client_id : Z) (message : bytes)
  | Broadcast (message : bytes)
  | UserQuit (client_id : Z)
  | Log (level : log_level) (message : bytes).

Definition UNKNOWN_COMMAND_RESPONSE : bytes :=
  text "[⚠️: Unknown command. -- Send `/help` to see more options]
".

Definition HELP_RESPONSE : bytes :=
  text "
[ℹ️: Use `/help` to see this help message.]
[ℹ️: Use `/name <your_name>` to change your name.]
[ℹ️: Use `/quit` to disconnect from the chat.]

".

Definition MOTD : string :=
  "
[✨ Welcome `{}`]
[💬 Type a message and press Enter to chat]
[🌸 Be kind, have fun, and enjoy your stay]
[ℹ️: Send `/help` for more information]

".

Section handler.
Context (m_unique_id : Z).

(** The constructor's name and what it sends; what the destructor sends. *)
Definition initial_name : bytes := to_decimal m_unique_id.

Definition greet (m_name : bytes) : list action :=
  [Reply m_unique_id (format MOTD [Str m_name]);
   Broadcast (format "[📣: `{}` joined the chat! Say hello!]
" [Str m_name])].

Definition farewell (m_name : bytes) : list action :=
  [Broadcast (format "[📣: `{}` has left the chat.]
" [Str m_name]);
   Log information (format "handler for client fd {} (AKA: `{}`) destroyed" [Int m_unique_id; Str m_name])].

(** The cases of [process_command]'s switch; [line] is the whole line. *)
Definition on_message (m_name argument : bytes) : bytes * list action :=
  (m_name,
   [Log information (format "client fd {} (AKA: `{}`) sent message: {}" [Int m_unique_id; Str m_name; Str argument]);
    Broadcast (format "[💬 {}]: {}
" [Str m_name; Str argument])]).

Definition on_name (m_name argument : bytes) : bytes * list action :=
  let requested :=
    Log information (format "client fd {} (AKA: `{}`) requested name change to: {}"
      [Int m_unique_id; Str m_name; Str argument]) in
  if (len argument =? 0) || (len argument >? 32) then
    (m_name,
     [requested;
      Log warning (format "client fd {} (AKA: `{}`) name change request failed: invalid name length"
        [Int m_unique_id; Str m_name]);
      Reply m_unique_id (text "[⚠️: Name must be between 1 and 32 characters.]
")])
  else
    let old_name := m_name in
    (argument,
     [requested;
      Log information (format "client fd {} (AKA: `{}`) changed name to: {}"
        [Int m_unique_id; Str old_name; Str argument]);
      Broadcast (format "[📣: `{}` is now known as `{}`]
" [Str old_name; Str argument])]).

Definition on_help (m_name : bytes) : bytes * list action :=
  (m_name,
   [Log information (format "client fd {} (AKA: `{}`) requested help" [Int m_unique_id; Str m_name]);
    Reply m_unique_id HELP_RESPONSE]).

Definition on_quit (m_name argument : bytes) : bytes * list action :=
  (m_name,
   [Log information (format "client fd {} (AKA: `{}`) requested to quit" [Int m_unique_id; Str m_name])]
   ++ (if negb (len argument =? 0) then
         [Broadcast (format "[💬 {}]: {}
" [Str m_name; Str argument])]
       else [])
   ++ [Reply m_unique_id (text "[📣: Disconnecting... Bye! 👋]
"); UserQuit m_unique_id]).

Definition on_unknown (m_name line : bytes) : bytes * list action :=
  (m_name,
   [Log warning (format "client fd {} (AKA: `{}`) sent unknown command: {}" [Int m_unique_id; Str m_name; Str line]);
    Reply m_unique_id UNKNOWN_COMMAND_RESPONSE]).

Definition process_command (m : memory) (m_name : bytes) (line_bytes : segmented_byte_view)
    : outcome (bytes * list action) :=
  if view_empty line_bytes then Ret (m_name, [])
  else
    '(cmd_type, argument) ← parse_command m line_bytes;
    match cmd_type with
    | message => Ret (on_message m_name argument)
    | name => Ret (on_name m_name argument)
    | help => Ret (on_help m_name)
    | quit => Ret (on_quit m_name argument)
    | unknown => line ← to_string m line_bytes; Ret (on_unknown m_name line)
    end.

(** One iteration of the loop over the lines, past the stop check: the name,
    the actions and the data that is left. *)
Definition process_line (m : memory) (m_name : bytes) (data : segmented_byte_view) (newLine : position)
    : outcome (bytes * list action * segmented_byte_view) :=
  line_bytes ← slice_end data newLine;
  '(m_name, actions) ←
    (if negb (view_empty line_bytes) then
       last ← at_from_end m line_bytes (FromEnd 1);
       line_bytes ← (if Byte.eqb last x0d then slice_end line_bytes (position_sub newLine 1) else Ret line_bytes);
       process_command m m_name line_bytes
     else Ret (m_name, []));
  data ← slice_in_place data (position_add newLine 1) (view_end data);
  Ret (m_name, actions, data).

(** ** The same on plain bytes *)

Definition strip_cr (line : bytes) : bytes :=
  match last line with
  | Some c => if Byte.eqb c x0d then take (length line - 1) line else line
  | None => line
  end.

Definition handle_command (m_name line : bytes) : bytes * list action :=
  let '(cmd_type, argument) := parse_line line in
  match cmd_type with
  | message => on_message m_name argument
  | name => on_name m_name argument
  | help => on_help m_name
  | quit => on_quit m_name argument
  | unknown => on_unknown m_name line
  end.

Definition handle_line (m_name line : bytes) : bytes * list action :=
  let line := strip_cr line in
  if decide (line = []) then (m_name, []) else handle_command m_name line.

(** The name and the actions after a list of lines. *)
Fixpoint handle_lines (m_name : bytes) (lines : list bytes) : bytes * list action :=
  match lines with
  | [] => (m_name, [])
  | line :: lines =>
      let '(m_name, actions) := handle_line m_name line in
      let '(m_name, more) := handle_lines m_name lines in
      (m_name, actions ++ more)
  end.
End handler.

(** ** Lemmas *)

Section handling.
Context (m_unique_id : Z).

Lemma handle_lines_app nm ls ks :
  handle_lines m_unique_id nm (ls ++ ks) =
  let '(nm, a) := handle_lines m_unique_id nm ls in
  let '(nm, b) := handle_lines m_unique_id nm ks in (nm, a ++ b).
Proof.
  revert nm. induction ls as [|l ls IH]; intros nm; cbn.
  { by destruct (handle_lines m_unique_id nm ks). }
  destruct (handle_line m_unique_id nm l) as [nm1 a]. rewrite IH.
  destruct (handle_lines m_unique_id nm1 ls) as [nm2 b]. destruct (handle_lines m_unique_id nm2 ks) as [nm3 c].
  by rewrite app_assoc.
Qed.

Lemma process_command_ok m nm v :
  view_ok m v ->
  process_command m_unique_id m nm v =
  Ret (if decide (view_bytes m v = []) then (nm, []) else handle_command m_unique_id nm (view_bytes m v)).
Proof.
  intros Hok. unfold process_command, view_empty. pose proof (view_bytes_len m v Hok) as Hlen.
  destruct (Z.eqb_spec (m_size v) 0) as [E|E].
  - rewrite E in Hlen. apply len_nil_iff in Hlen. by rewrite decide_True.
  - assert (view_bytes m v ≠ []) as Hne by (intros E'; rewrite E' in Hlen; by rewrite <- Hlen in E).
    rewrite decide_False by done. rewrite parse_command_bytes by done. cbn [mbind outcome_bind].
    unfold handle_command. destruct (parse_line (view_bytes m v)) as [ct arg]. destruct ct; try done.
    by rewrite to_string_bytes.
Qed.

(** The last byte of a line, and the slice without it if it is a carriage
    return. *)
Lemma strip_slice m line pos :
  view_ok m line -> view_empty line = false -> m_offset pos = m_begin_offset line + m_size line ->
  exists c line', at_from_end m line (FromEnd 1) = Ret c /\
    (if Byte.eqb c x0d then slice_end line (position_sub pos 1) else Ret line) = Ret line' /\
    view_ok m line' /\ view_bytes m line' = strip_cr (view_bytes m line).
Proof.
  intros Hok He Hpos. pose proof (view_bytes_len m line Hok) as Hlen. destruct (Hok) as [_ _ Hb Hmax].
  unfold view_empty in He. apply Z.eqb_neq in He. pose proof (len_nonneg (view_bytes m line)) as Hnn.
  destruct (last (view_bytes m line)) as [c|] eqn:Ec; [|apply last_None in Ec; rewrite Ec in Hlen; change (len []) with 0 in Hlen; lia].
  pose proof (at_from_end_ret m line (m_size line - 1) c Hok ltac:(lia)) as Hat.
  replace (m_size line - (m_size line - 1)) with 1 in Hat by lia.
  unfold strip_cr. rewrite Ec. rewrite last_lookup in Ec. exists c.
  assert (at_from_end m line (FromEnd 1) = Ret c) as -> by (apply Hat; rewrite <- Ec; f_equal; unfold len in *; lia).
  destruct (Byte.eqb c x0d); [|by exists line].
  change (slice_end line (position_sub pos 1)) with (slice line (view_begin line) (position_sub pos 1)).
  destruct (slice_ret m line (view_begin line) (position_sub pos 1)) as (line' & -> & Hok' & _ & _ & Hby);
    [done|cbn; unwrap; lia|cbn; unwrap; lia|].
  exists line'. split_and!; [done..|]. rewrite Hby. cbn. unwrap. rewrite Z.sub_diag, drop_0. f_equal. unfold len in *. lia.
Qed.

Lemma process_line_ok m nm data i :
  view_ok m data -> memchr (view_bytes m data) x0a = Some i ->
  exists data',
    process_line m_unique_id m nm data (position_of m data x0a) =
      Ret (handle_line m_unique_id nm (take i (view_bytes m data)), data') /\
    tail_of data data' (Z.of_nat (S i)).
Proof.
  intros Hok Hi. destruct (line_slices m data i Hok Hi) as (line & data' & Hlv & Hby & Hpos & Es & Esi & Ht).
  exists data'. split; [|exact Ht]. unfold process_line. rewrite Es, Esi. cbn [mbind outcome_bind]. rewrite <- Hby.
  destruct (view_empty line) eqn:He; cbn [negb].
  - unfold view_empty in He. apply Z.eqb_eq in He. pose proof (view_bytes_len m line Hlv) as Hlen. rewrite He in Hlen.
    apply len_nil_iff in Hlen. by rewrite Hlen.
  - destruct (strip_slice m line (position_of m data x0a) Hlv He Hpos) as (c & line' & -> & E & Hok' & Hs).
    cbn [mbind outcome_bind]. rewrite E. cbn [mbind outcome_bind]. rewrite process_command_ok, Hs by done.
    unfold handle_line. destruct (decide _); [done|]. by destruct (handle_command m_unique_id nm (strip_cr (view_bytes m line))).
Qed.

(** *** Names and broadcasts *)

(** A name is short, not empty and within one line. *)
Definition name_ok (m_name : bytes) : Prop := 1 <= len m_name <= 32 /\ x0a ∉ m_name.

(** The messages broadcast by a sequence of actions. *)
Definition broadcasts (actions : list action) : list bytes :=
  omap (fun a => match a with Broadcast b => Some b | _ => None end) actions.

(** A broadcast ends its line and contains no other newline. *)
Definition single_line (a : action) : Prop :=
  match a with Broadcast b => exists l, b = l ++ [x0a] /\ (x0a ∉ l) | _ => True end.

(** What the formats of the broadcasts come to. *)
Lemma chat_line nm arg :
  format "[💬 {}]: {}
" [Str nm; Str arg] = (text "[💬 " ++ nm ++ text "]: " ++ arg) ++ [x0a].
Proof. rewrite <- !app_assoc. reflexivity. Qed.

Lemma rename_line old new :
  format "[📣: `{}` is now known as `{}`]
" [Str old; Str new] = (text "[📣: `" ++ old ++ text "` is now known as `" ++ new ++ text "`]") ++ [x0a].
Proof. rewrite <- !app_assoc. reflexivity. Qed.

Lemma chat_single nm arg : x0a ∉ nm -> x0a ∉ arg ->
  single_line (Broadcast (format "[💬 {}]: {}
" [Str nm; Str arg])).
Proof.
  intros Hn Ha. eexists. split; [apply chat_line|].
  repeat apply no_newline_app; (done || by apply (bool_decide_unpack _); vm_compute).
Qed.

Lemma rename_single old new : x0a ∉ old -> x0a ∉ new ->
  single_line (Broadcast (format "[📣: `{}` is now known as `{}`]
" [Str old; Str new])).
Proof.
  intros Ho Hn. eexists. split; [apply rename_line|].
  repeat apply no_newline_app; (done || by apply (bool_decide_unpack _); vm_compute).
Qed.

(** The join and the leave broadcast: one line, with the name. *)
Lemma greet_line :
  x0a ∉ initial_name m_unique_id ->
  exists joined, broadcasts (greet m_unique_id (initial_name m_unique_id)) = [joined ++ [x0a]] /\
    joined = text "[📣: `" ++ initial_name m_unique_id ++ text "` joined the chat! Say hello!]" /\ x0a ∉ joined.
Proof.
  intros Hn. eexists. split; [|split; [reflexivity|]].
  - rewrite <- !app_assoc. reflexivity.
  - repeat apply no_newline_app; (done || by apply (bool_decide_unpack _); vm_compute).
Qed.

Lemma farewell_line nm :
  x0a ∉ nm ->
  exists left, broadcasts (farewell m_unique_id nm) = [left ++ [x0a]] /\
    left = text "[📣: `" ++ nm ++ text "` has left the chat.]" /\ x0a ∉ left.
Proof.
  intros Hn. eexists. split; [|split; [reflexivity|]].
  - rewrite <- !app_assoc. reflexivity.
  - repeat apply no_newline_app; (done || by apply (bool_decide_unpack _); vm_compute).
Qed.

Lemma strip_subset c l : c ∈ strip l -> c ∈ l.
Proof.
  unfold strip. rewrite elem_of_reverse. intros Hc.
  assert (forall l, c ∈ drop_while is_whitespace l -> c ∈ l) as Hd.
  { clear. induction l as [|x l IH]; [done|]. cbn. destruct (is_whitespace x); [|done]. intros ?. right. by apply IH. }
  apply Hd in Hc. rewrite elem_of_reverse in Hc. by apply Hd.
Qed.

Lemma parse_line_argument line : x0a ∉ line -> x0a ∉ (parse_line line).2.
Proof.
  intros Hl Ha. apply Hl. destruct line as [|c rest]; [done|].
  assert (x0a ∈ (parse_line (c :: rest)).2 -> x0a ∈ c :: rest) as Hsub; [|by apply Hsub].
  unfold parse_line. destruct c; cbn [snd]; try done. intros Hs%strip_subset. right. by eapply subseteq_drop.
Qed.

Lemma handle_command_lines nm line :
  name_ok nm -> x0a ∉ line ->
  name_ok (handle_command m_unique_id nm line).1 /\ Forall single_line (handle_command m_unique_id nm line).2.
Proof.
  intros [Hlen Hn] Hl. pose proof (parse_line_argument line Hl) as Ha. unfold handle_command.
  destruct (parse_line line) as [ct arg]. cbn [snd] in Ha. destruct ct.
  - split; [done|]. by repeat constructor.
  - split; [done|]. cbn [snd on_message]. apply Forall_cons. split; [done|]. apply Forall_singleton. by apply chat_single.
  - unfold on_name. destruct (Z.eqb_spec (len arg) 0) as [|H0]; [split; [done|]; by repeat constructor|].
    destruct (Z.gtb_spec (len arg) 32) as [|H32]; cbn [orb fst snd]; [split; [done|]; by repeat constructor|].
    pose proof (len_nonneg arg). split; [split; [lia|done]|]. do 2 (apply Forall_cons; split; [done|]).
    apply Forall_singleton. by apply rename_single.
  - split; [done|]. by repeat constructor.
  - split; [done|]. cbn [snd on_quit app]. apply Forall_cons. split; [done|].
    apply Forall_app. split; [|by repeat constructor].
    destruct (negb (len arg =? 0)); [|constructor]. apply Forall_singleton. by apply chat_single.
Qed.

Lemma strip_cr_subset c l : c ∈ strip_cr l -> c ∈ l.
Proof.
  unfold strip_cr. destruct (last l) as [d|]; [|done]. destruct (Byte.eqb d x0d); [|done]. intros (i & Hi & _)%elem_of_take. by eapply list_elem_of_lookup_2.
Qed.

Lemma handle_lines_ok nm ls :
  name_ok nm -> Forall (fun line => x0a ∉ line) ls ->
  name_ok (handle_lines m_unique_id nm ls).1 /\ Forall single_line (handle_lines m_unique_id nm ls).2.
Proof.
  intros Hn Hls. revert nm Hn. induction Hls as [|line ls Hl _ IH]; intros nm Hn; [by split; [|constructor]|].
  cbn [handle_lines]. assert (name_ok (handle_line m_unique_id nm line).1 /\
    Forall single_line (handle_line m_unique_id nm line).2) as [Hn1 Ha1].
  { unfold handle_line. case_decide; [by split; [|constructor]|]. apply handle_command_lines; [done|].
    intros Hc. by apply Hl, strip_cr_subset. }
  destruct (handle_line m_unique_id nm line) as [nm1 a1]. cbn [fst snd] in *. destruct (IH nm1 Hn1) as [Hn2 Ha2].
  destruct (handle_lines m_unique_id nm1 ls) as [nm2 a2]. cbn [fst snd] in *. split; [done|]. by apply Forall_app.
Qed.
End handling.

(** The descriptor in decimal is a name. *)
Lemma initial_name_ok id : 0 <= id <= int_max -> name_ok (initial_name id).
Proof.
  intros Hid. unfold initial_name. destruct (to_decimal_spec id ltac:(lia)) as (Hne & Hd & _).
  split.
  - pose proof (len_nonneg (to_decimal id)). assert (len (to_decimal id) ≠ 0) by (by rewrite len_nil_iff).
    pose proof (to_decimal_length 10 id ltac:(unfold int_max in *; lia) ltac:(lia)). unfold len in *. lia.
  - intros Hin. rewrite Forall_forall in Hd. by apply Hd in Hin.
Qed.
