(* ===== verification/ConnectionSystem.v ===== *)
(** The connection handler of Connection.v at work: its thread reads the
    pipeline while the server's thread writes what it receives and closes it.
    The steps are those of PipelineSystem.v, line by line on the reader's
    side; the theorems say that the handler acts on the lines of the stream,
    however the bytes arrive and whatever the threads do in between. *)

From S2P Require Import Prelude Memory Position ByteView Resource Pools Segment Pipeline PipelineProofs PipelineSystem.
From S2P Require Import PipelineEvents Lines Text LogMessage Commands Connection.

(** Where [process_incoming_data] is. *)
Inductive phase :=
  | Waiting                                                   (* before or inside [read] *)
  | Processing (result : read_result) (data : segmented_byte_view)
  | Advanced (completed : bool)                               (* [advance] has left its lock *)
  | Leaving                                                   (* out of the loop *)
  | Completing                                                (* [complete] has left its lock *)
  | Finished.

Section connection.
Context {R : Type} `{ResourceLaws R}.
Context (m_unique_id : Z).

Record connection := Conn {
  c_system : @system R;
  c_phase : phase;
  c_name : bytes;
  c_actions : list action; (* of the thread, in order *)
  m_closed : bool;
  c_stop : bool
}.

(** The constructor, over a fresh pipeline. *)
Definition make_connection (p : pipeline R) (m : memory) : connection :=
  Conn (initial p m) Waiting (initial_name m_unique_id) [] false false.

(** The phase after a section of [read]: a result is a view to work on, and a
    cancelled result ends the loop. *)
Definition phase_after (r : reader_state) : phase :=
  match r with
  | RHolding result => Processing result (rr_buffer result)
  | RParked _ _ _ => Waiting
  | _ => Leaving
  end.

Definition with_system (s : @system R) (ph : phase) (c : connection) : connection :=
  Conn s ph (c_name c) (c_actions c) (m_closed c) (c_stop c).

(** The [catch] blocks. *)
Definition caught (c : connection) : connection :=
  Conn (c_system c) Leaving (c_name c) (c_actions c ++ [Log log_level.error (text "client error")])
    (m_closed c) (c_stop c).

Definition new_line (c : connection) (data : segmented_byte_view) : position :=
  position_of (s_memory (c_system c)) data x0a.

Inductive conn_step : connection -> connection -> Prop :=
  (* receive_data, unless closed, and the writer's other sections *)
  | ConnReceive c data s' :
      m_closed c = false -> data ≠ [] -> exec (CallWrite data no_stop) (c_system c) = Some s' ->
      conn_step c (with_system s' (c_phase c) c)
  | ConnWriter c s' :
      exec WriterRuns (c_system c) = Some s' -> conn_step c (with_system s' (c_phase c) c)
  (* close: exchange, request_stop, complete *)
  | ConnClose c :
      m_closed c = false ->
      conn_step c (Conn (c_system c) (c_phase c) (c_name c) (c_actions c) true (c_stop c))
  | ConnStop c :
      m_closed c = true ->
      conn_step c (Conn (c_system c) (c_phase c) (c_name c) (c_actions c) true true)
  | ConnComplete c s' :
      c_stop c = true -> exec CallCompleteWriter (c_system c) = Some s' ->
      conn_step c (with_system s' (c_phase c) c)
  (* process_incoming_data *)
  | ConnRead c e s' :
      c_phase c = Waiting -> e = CallRead 0 no_stop \/ e = ReaderRuns ->
      exec e (c_system c) = Some s' ->
      conn_step c (with_system s' (phase_after (s_reader s')) c)
  | ConnReadThrows c e :
      c_phase c = Waiting -> s_reader (c_system c) = RIdle ->
      read_at_least (s_pipeline (c_system c)) 0 no_stop = Throw e -> conn_step c (caught c)
  | ConnLine c result data m_name actions data' :
      c_phase c = Processing result data -> position_bool (new_line c data) = true ->
      c_stop c = false ->
      process_line m_unique_id (s_memory (c_system c)) (c_name c) data (new_line c data) = Ret (m_name, actions, data') ->
      conn_step c (Conn (c_system c) (Processing result data') m_name (c_actions c ++ actions) (m_closed c) (c_stop c))
  | ConnLineThrows c result data e :
      c_phase c = Processing result data -> position_bool (new_line c data) = true ->
      process_line m_unique_id (s_memory (c_system c)) (c_name c) data (new_line c data) = Throw e ->
      conn_step c (caught c)
  | ConnAdvance c result data s' :
      c_phase c = Processing result data ->
      position_bool (new_line c data) = false \/ c_stop c = true ->
      exec (CallAdvance (view_begin data) (view_end data)) (c_system c) = Some s' ->
      conn_step c (with_system s' (Advanced (rr_completed result)) c)
  | ConnAdvanceThrows c result data e :
      c_phase c = Processing result data ->
      advance (s_pipeline (c_system c)) (s_memory (c_system c)) (view_begin data) (view_end data) = Throw e ->
      conn_step c (caught c)
  | ConnAdvanced c completed s' :
      c_phase c = Advanced completed -> exec ReaderRuns (c_system c) = Some s' ->
      conn_step c (with_system s' (if completed || c_stop c then Leaving else Waiting) c)
  | ConnLeave c s' :
      c_phase c = Leaving -> exec CallCompleteReader (c_system c) = Some s' ->
      conn_step c (with_system s' Completing c)
  | ConnFinish c s' :
      c_phase c = Completing -> exec ReaderRuns (c_system c) = Some s' ->
      conn_step c (with_system s' Finished c).

(** ** The invariant *)

(** The actions are those of the lines of [processed], which ends where a
    line does. *)
Definition handled (c : connection) (processed : bytes) : Prop :=
  (split_lines processed).2 = [] /\
  (c_name c, c_actions c) = handle_lines m_unique_id (initial_name m_unique_id) (split_lines processed).1.

Definition phase_ok (c : connection) : Prop :=
  let s := c_system c in
  let between := m_reader_completed (s_pipeline s) = false /\ m_has_pending_read (s_pipeline s) = false /\
    handled c (s_consumed s) in
  match c_phase c with
  | Waiting =>
      (s_reader s = RIdle \/ exists woken, s_reader s = RParked 0 no_stop woken) /\ between /\ no_line_examined s
  | Processing result data =>
      s_reader s = RHolding result /\ m_begin_offset (rr_buffer result) = 0 /\ rr_cancelled result = false /\
      exists k, tail_of (rr_buffer result) data k /\
        handled c (s_consumed s ++ take (Z.to_nat k) (view_bytes (s_memory s) (rr_buffer result)))
  | Advanced completed =>
      (exists notify, s_reader s = RNotifying notify) /\ between /\
      (c_stop c = false -> no_line_examined s)
  | Leaving => s_reader s = RIdle /\ between
  | Completing => s_reader s = RCompleting /\ handled c (s_consumed s)
  | Finished => s_reader s = RIdle /\ handled c (s_consumed s)
  end.

Record conn_ok (c : connection) : Prop := {
  co_system : system_ok (c_system c);
  co_phase : phase_ok c;
  co_consumed : s_consumed (c_system c) `prefix_of` s_written (c_system c)
}.

Lemma make_connection_ok p m : fresh p m -> m_reader_completed p = false -> m_has_pending_read p = false ->
  conn_ok (make_connection p m).
Proof.
  intros Hf Ho Hp. split; [by apply pipe_initial_ok| |done]. cbn. split_and!; [by left|done..|].
  unfold no_line_examined. cbn. rewrite (fr_empty _ _ Hf), take_nil. apply not_elem_of_nil.
Qed.

(** ** What the writer's steps leave alone *)

Lemma writer_event_conn_ok c e s' :
  conn_ok c -> writer_event e = true -> (forall data t, e = CallWrite data t -> data ≠ [] /\ t = no_stop) ->
  exec e (c_system c) = Some s' -> conn_ok (with_system s' (c_phase c) c).
Proof.
  intros [Hok Hph Hco] He Hd E. pose proof (writer_event_frame _ _ _ Hok He E) as Hf.
  pose proof (writer_event_step _ _ _ He Hd Hok E) as Hok'. destruct (Hf) as [Fc Fw Fcon Fe Fr Fp Frd].
  split; cbn [c_system with_system]; [done| |rewrite Fc; by etrans].
  unfold phase_ok in *. cbn [c_system c_phase c_stop with_system] in *. unfold handled in *. cbn [c_name c_actions with_system].
  rewrite Fc, Fr, Fp. destruct (c_phase c) as [|result data|completed| | |].
  - destruct Hph as (Hr & Hb & Hn). split; [|split; [exact Hb|]].
    + destruct Hr as [Hr|[wk Hr]], Frd as [->| ->]; rewrite Hr; eauto.
    + eapply (no_line_examined_frame (c_system c)); [done|apply Hb|done|done].
  - destruct Hph as (Hr & Hb & Hc & k & Ht & Hh). assert (s_reader s' = RHolding result) as Hr'.
    { destruct Frd as [->| ->]; by rewrite Hr. }
    split_and!; [done..|]. exists k. by rewrite (holding_stable (c_system c) s' result) by done.
  - destruct Hph as ([n Hr] & Hb & Hn). split; [|split; [exact Hb|]].
    + exists n. destruct Frd as [->| ->]; by rewrite Hr.
    + intros Hs. eapply (no_line_examined_frame (c_system c)); [done|apply Hb|done|by apply Hn].
  - destruct Hph as (Hr & Hb). split; [|done]. destruct Frd as [->| ->]; by rewrite Hr.
  - destruct Hph as (Hr & Hb). split; [|done]. destruct Frd as [->| ->]; by rewrite Hr.
  - destruct Hph as (Hr & Hb). split; [|done]. destruct Frd as [->| ->]; by rewrite Hr.
Qed.

(** ** The reader's steps *)

Lemma read_section_conn_ok c p m w r wr co p' st :
  c_system c = System p m w r wr co -> conn_ok c -> c_phase c = Waiting ->
  section_of_read p m p' st -> system_ok (System p' m w (reader_after 0 st) wr co) ->
  conn_ok (with_system (System p' m w (reader_after 0 st) wr co) (phase_after (reader_after 0 st)) c).
Proof.
  intros Ec [Hok Hph Hco] Ew Hs Hok'. unfold phase_ok in Hph. rewrite Ew, Ec in Hph. rewrite Ec in *.
  cbn in Hph, Hco. destruct Hph as (_ & Hb & Hn). split; [done| |done].
  destruct Hs as [-> Hp|q result -> Hq [-> _ Hc Hv Hby Hbe _]]; unfold phase_ok; cbn [reader_after].
  - cbn. split_and!; try (destruct Hp as [-> | ->]; apply Hb || exact Hn); try apply Hb.
    right. by exists false.
  - rewrite Hc. cbn. split_and!; [done..|]. exists 0. split; [by apply (tail_of_refl m)|].
    cbn. rewrite take_0, app_nil_r. apply Hb.
Qed.

Lemma read_conn_ok c e s' :
  conn_ok c -> c_phase c = Waiting -> e = CallRead 0 no_stop \/ e = ReaderRuns ->
  exec e (c_system c) = Some s' -> conn_ok (with_system s' (phase_after (s_reader s')) c).
Proof.
  intros Hok Ew He E. pose proof (co_phase _ Hok) as Hph. unfold phase_ok in Hph. rewrite Ew in Hph.
  assert (system_ok s') as Hok'.
  { apply (other_event_step e (c_system c)); [by destruct He as [-> | ->]|apply Hok|done]. }
  pose proof (sy_pipeline _ (co_system _ Hok)) as Hp.
  destruct (c_system c) as [p m w r wr co] eqn:Ec. cbn in Hph, Hp. destruct Hph as ([->|[b ->]] & _), He as [-> | ->]; cbn in E; try done.
  - destruct (read_at_least p 0 no_stop) as [[p' st]| |] eqn:Er; try done. injection E as <-.
    by eapply read_section_conn_ok; [done|done|done|apply read_at_least_section|].
  - destruct (read_wait p 0 no_stop) as [p' st] eqn:Er. injection E as <-.
    by eapply read_section_conn_ok; [done|done|done|apply read_wait_section|].
Qed.

(** *** Lines *)

Lemma processing_ok c result data :
  conn_ok c -> c_phase c = Processing result data ->
  view_ok (s_memory (c_system c)) data /\
  position_bool (new_line c data) = bool_decide (is_Some (memchr (view_bytes (s_memory (c_system c)) data) x0a)) /\
  exists k, tail_of (rr_buffer result) data k /\
    handled c (s_consumed (c_system c) ++ take (Z.to_nat k) (view_bytes (s_memory (c_system c)) (rr_buffer result))) /\
    holding_ok (s_pipeline (c_system c)) (s_memory (c_system c)) result /\ s_reader (c_system c) = RHolding result /\
    view_bytes (s_memory (c_system c)) data = drop (Z.to_nat k) (view_bytes (s_memory (c_system c)) (rr_buffer result)) /\
    m_begin_offset (rr_buffer result) = 0.
Proof.
  intros [Hok Hph _] Ep. unfold phase_ok in Hph. rewrite Ep in Hph. destruct Hph as (Hr & Hb & _ & k & Ht & Hh).
  pose proof (sy_reader _ Hok) as Hho. rewrite Hr in Hho. cbn in Hho.
  destruct Ht as (Hk & Htb & Hts & Ht). destruct (Ht _ (ho_view _ _ _ Hho)) as [Hv Hby].
  split_and!; [done| |by exists k; split_and!].
  unfold new_line. rewrite position_of_byte by done. by destruct (memchr _ _).
Qed.

Lemma handled_line c a line nm acts c' :
  handled c a -> x0a ∉ line -> handle_line m_unique_id (c_name c) line = (nm, acts) ->
  c_name c' = nm -> c_actions c' = c_actions c ++ acts -> handled c' (a ++ line ++ [x0a]).
Proof.
  intros [Hr Hh] Hl E En Ea. pose proof (split_lines_first line [] Hl) as Es. cbn in Es.
  unfold handled. rewrite split_lines_app, Es by done. cbn. split; [done|].
  rewrite handle_lines_app, <- Hh. cbn. rewrite E, En, Ea. by rewrite app_nil_r.
Qed.

Lemma line_result c result data :
  conn_ok c -> c_phase c = Processing result data -> position_bool (new_line c data) = true ->
  exists nm acts data',
    process_line m_unique_id (s_memory (c_system c)) (c_name c) data (new_line c data) = Ret (nm, acts, data') /\
    forall c', c_system c' = c_system c -> c_phase c' = Processing result data' -> c_name c' = nm ->
      c_actions c' = c_actions c ++ acts -> conn_ok c'.
Proof.
  intros Hok Ep Hnl. destruct (processing_ok c result data Hok Ep) as (Hv & En & k & Ht & Hh & Hho & Hr & Hby & Hbe).
  rewrite En in Hnl. apply bool_decide_eq_true in Hnl as [i Hi].
  destruct (process_line_ok m_unique_id (s_memory (c_system c)) (c_name c) data i Hv Hi) as (d' & Epl & Htl).
  destruct (handle_line _ _ _) as [nm acts] eqn:Ehl.
  exists nm, acts, d'. split; [exact Epl|].
  intros c' Ec Eph En' Ea. destruct Hok as [Hsys Hph Hco]. split; rewrite ?Ec; [done| |done].
  unfold phase_ok. rewrite Eph, Ec. unfold phase_ok in Hph. rewrite Ep in Hph. destruct Hph as (_ & _ & Hc & _).
  split_and!; [done..|]. exists (k + Z.of_nat (S i)). split; [by eapply tail_of_trans|].
  destruct (memchr_split _ _ _ Hi) as (Esplit & Hnot & Hlt). destruct Ht as (Hk & _ & _).
  rewrite Z2Nat.inj_add, Nat2Z.id, <- take_take_drop, <- Hby, app_assoc by lia.
  replace (take (S i) (view_bytes (s_memory (c_system c)) data))
    with (take i (view_bytes (s_memory (c_system c)) data) ++ [x0a]).
  - by eapply handled_line.
  - rewrite Esplit at 2. rewrite take_app_ge by (rewrite length_take; lia). f_equal.
    rewrite length_take. replace (S i - _)%nat with 1%nat by lia. done.
Qed.

(** *** Advancing and leaving *)

Lemma advance_result c result data :
  conn_ok c -> c_phase c = Processing result data ->
  exists p' m' notify k,
    advance (s_pipeline (c_system c)) (s_memory (c_system c)) (view_begin data) (view_end data) = Ret (p', m', notify) /\
    m_reader_completed p' = false /\ m_has_pending_read p' = false /\
    position_ok (view_begin data) /\ position_ok (view_end data) /\ sequence_offset (view_begin data) = k /\
    handled c (s_consumed (c_system c) ++ take (Z.to_nat k) (view_bytes (s_memory (c_system c)) (rr_buffer result))) /\
    (position_bool (new_line c data) = false ->
      x0a ∉ take (Z.to_nat (m_examined_size p')) (content p' m')).
Proof.
  intros Hok Ep. destruct (processing_ok c result data Hok Ep) as (Hv & En & k & Ht & Hh & Hho & Hr & Hby & Hbe).
  destruct Hok as [Hsys _ _]. destruct (c_system c) as [p m w r wr co]. cbn in *.
  destruct Ht as (Hk & Htb & Hts & _). pose proof (end_offset_ok m data Hv) as Hend.
  pose proof (view_bytes_len _ _ (ho_view _ _ _ Hho)) as Hlen. pose proof (view_bytes_len _ _ Hv) as Hlend.
  pose proof (ho_size _ _ _ Hho) as Hsz. destruct Hv as [_ _ Hv0 Hvm].
  destruct (advance_ok p m (view_begin data) (view_end data)) as (p' & m' & E & _ & Hfr & Hcont & _ & Hex & _ & Hp' & _);
    [apply Hsys|apply Hho|apply Hho|cbn; unfold view_end; lia|cbn; lia|].
  eexists p', m', _, k. split; [exact E|]. split_and!; [rewrite (af_reader _ _ Hfr); apply Hho|done| | |cbn; lia|done|].
  - unfold position_ok, is_size. cbn. lia.
  - unfold position_ok, is_size. cbn. lia.
  - intros Hn. rewrite En in Hn. apply bool_decide_eq_false in Hn. rewrite <- eq_None_not_Some in Hn.
    apply memchr_none in Hn. rewrite Hcont, Hex. cbn. destruct (ho_prefix _ _ _ Hho) as [rest ->].
    rewrite drop_app_le by (unfold len in *; lia). rewrite Htb, Hbe, Z.add_0_l, <- Hby, take_app_le by (unfold len in *; lia).
    rewrite take_ge; [done|]. unfold len in *. lia.
Qed.

Lemma advance_conn_ok c result data s' :
  conn_ok c -> c_phase c = Processing result data ->
  position_bool (new_line c data) = false \/ c_stop c = true ->
  exec (CallAdvance (view_begin data) (view_end data)) (c_system c) = Some s' ->
  conn_ok (with_system s' (Advanced (rr_completed result)) c).
Proof.
  intros Hok Ep Hend E. destruct (advance_result c result data Hok Ep) as (p' & m' & notify & k & Ea & Ho & Hp & Hb & He & Hk & Hh & Hn).
  destruct (processing_ok c result data Hok Ep) as (_ & _ & _ & _ & _ & _ & Hr & _).
  assert (system_ok s') as Hok' by (by eapply (other_event_step (CallAdvance _ _)), E; [split|apply Hok]).
  destruct (c_system c) as [p m w r wr co]. cbn in *. subst r. rewrite Ea in E. injection E as <-.
  split; [done| |].
  - unfold phase_ok. cbn. rewrite Hk in *. split; [by eexists|]. split; [done|]. intros Hs.
    destruct Hend as [Hend|Hend]; [by apply Hn|cbn in Hs; congruence].
  - pose proof (sy_stream _ Hok' Ho) as Hs. cbn in Hs |- *. rewrite Hs. by apply prefix_app_r.
Qed.

Lemma runs_conn_ok c s' ph :
  conn_ok c -> exec ReaderRuns (c_system c) = Some s' ->
  (exists completed, c_phase c = Advanced completed /\ ph = if completed || c_stop c then Leaving else Waiting) \/
  (c_phase c = Completing /\ ph = Finished) ->
  conn_ok (with_system s' ph c).
Proof.
  intros [Hok Hph Hco] E Hcase. assert (system_ok s') as Hok' by (by eapply (other_event_step ReaderRuns), E).
  unfold phase_ok in Hph. destruct (c_system c) as [p m w r wr co]. cbn in Hph, Hco, E.
  destruct Hcase as [(b & Eb & ->)|[Eb ->]]; rewrite Eb in Hph.
  - destruct Hph as ([n ->] & Hbt & Hn). injection E as <-. split; [done| |done].
    unfold phase_ok. cbn. destruct b, (c_stop c); cbn; try (by split).
    split; [by left|]. split; [done|]. exact (Hn eq_refl).
  - destruct Hph as [-> Hh]. injection E as <-. by split.
Qed.

Lemma leave_conn_ok c s' :
  conn_ok c -> c_phase c = Leaving -> exec CallCompleteReader (c_system c) = Some s' ->
  conn_ok (with_system s' Completing c).
Proof.
  intros [Hok Hph Hco] Ep E. assert (system_ok s') as Hok' by (by eapply (other_event_step CallCompleteReader), E).
  unfold phase_ok in Hph. rewrite Ep in Hph. destruct (c_system c) as [p m w r wr co]. cbn in Hph, Hco, E.
  destruct Hph as (-> & _ & _ & Hh). injection E as <-. split; [done| |done]. by split.
Qed.

(** What ends the loop by an exception does not happen. *)
Lemma conn_no_throw c :
  conn_ok c ->
  (c_phase c = Waiting -> forall e, read_at_least (s_pipeline (c_system c)) 0 no_stop ≠ Throw e) /\
  (forall result data, c_phase c = Processing result data ->
    (position_bool (new_line c data) = true -> forall e,
      process_line m_unique_id (s_memory (c_system c)) (c_name c) data (new_line c data) ≠ Throw e) /\
    (forall e, advance (s_pipeline (c_system c)) (s_memory (c_system c)) (view_begin data) (view_end data) ≠ Throw e)).
Proof.
  intros Hok. split.
  - intros Ew. destruct Hok as [_ Hph _]. unfold phase_ok in Hph. rewrite Ew in Hph. destruct Hph as (_ & (Ho & Hp & _) & _).
    intros e. unfold read_at_least. rewrite Ho, Hp. by destruct (m_writer_completed _).
  - intros result data Ep. split.
    + intros Hn e. by destruct (line_result c result data Hok Ep Hn) as (? & ? & ? & -> & _).
    + intros e. by destruct (advance_result c result data Hok Ep) as (? & ? & ? & ? & -> & _).
Qed.

Lemma conn_step_ok c c' : conn_ok c -> conn_step c c' -> conn_ok c'.
Proof.
  intros Hok Hs. destruct (conn_no_throw c Hok) as [Hnr Hnp]. destruct Hs as
    [c data s' Hc Hd E|c s' E|c Hc|c Hc|c s' Hs E|c e s' Hp He E|c e Hp Hr E|c r d nm a d' Hp Hn Hs E
    |c r d e Hp Hn E|c r d s' Hp Hn E|c r d e Hp E|c b s' Hp E|c s' Hp E|c s' Hp E].
  - eapply (writer_event_conn_ok c (CallWrite data no_stop)); [done|done|by intros ? ? [= <- <-]|done].
  - by eapply (writer_event_conn_ok c WriterRuns).
  - by destruct Hok.
  - destruct Hok as [Hok Hph Hco]. split; [done| |done]. unfold phase_ok in *. cbn.
    destruct (c_phase c); try done. by destruct Hph as (? & ? & _).
  - by eapply (writer_event_conn_ok c CallCompleteWriter).
  - by eapply read_conn_ok.
  - by destruct (Hnr Hp e).
  - destruct (line_result c r d Hok Hp Hn) as (? & ? & ? & E' & Hnew). rewrite E in E'. injection E' as <- <- <-.
    by apply Hnew.
  - by destruct (proj1 (Hnp r d Hp) Hn e).
  - by eapply advance_conn_ok.
  - by destruct (proj2 (Hnp r d Hp) e).
  - eapply runs_conn_ok; [done..|]. left. by eexists.
  - by eapply leave_conn_ok.
  - eapply runs_conn_ok; [done..|]. by right.
Qed.

(** *** Runs *)

Lemma conn_reachable_ok p m c :
  fresh p m -> m_reader_completed p = false -> m_has_pending_read p = false ->
  rtc conn_step (make_connection p m) c -> conn_ok c.
Proof.
  intros Hf Ho Hp Hrun. eapply (rtc_invariant conn_step conn_ok); [apply conn_step_ok|exact Hrun|by apply make_connection_ok].
Qed.

(** A run of the connection is a run of its pipeline. *)
Lemma conn_step_system c c' :
  conn_ok c -> conn_step c c' -> rtc (step (fun t => t = no_stop)) (c_system c) (c_system c').
Proof.
  intros Hok Hs.
  assert (forall e s', event_allowed (fun t => t = no_stop) e -> exec e (c_system c) = Some s' ->
    rtc (step (fun t => t = no_stop)) (c_system c) s') as Hone.
  { intros e s' He E. apply rtc_once. by eapply pipe_exec_step. }
  destruct Hs as [c data s' Hc Hd E|c s' E|c Hc|c Hc|c s' Hs E|c e s' Hp He E|c e Hp Hr E|c r d nm a d' Hp Hn Hs E
    |c r d e Hp Hn E|c r d s' Hp Hn E|c r d e Hp E|c b s' Hp E|c s' Hp E|c s' Hp E]; try reflexivity.
  - by apply (Hone (CallWrite data no_stop)).
  - by apply (Hone WriterRuns).
  - by apply (Hone CallCompleteWriter).
  - apply (Hone e); [by destruct He as [-> | ->]|done].
  - destruct (advance_result c r d Hok Hp) as (? & ? & ? & ? & _ & _ & _ & Hb & He & _).
    by apply (Hone (CallAdvance (view_begin d) (view_end d))).
  - by apply (Hone ReaderRuns).
  - by apply (Hone CallCompleteReader).
  - by apply (Hone ReaderRuns).
Qed.

Lemma conn_run_system p m c :
  fresh p m -> m_reader_completed p = false -> m_has_pending_read p = false ->
  rtc conn_step (make_connection p m) c -> rtc (step (fun t => t = no_stop)) (initial p m) (c_system c).
Proof.
  intros Hf Ho Hp Hrun. pose proof (make_connection_ok p m Hf Ho Hp) as Hok.
  change (initial p m) with (c_system (make_connection p m)). induction Hrun as [|c1 c2 c3 Hs Hrun IH]; [done|].
  etrans; [by apply conn_step_system|]. apply IH. by eapply conn_step_ok.
Qed.

(** What has been handled is what was consumed, or a little more. *)
Lemma conn_handled c :
  conn_ok c -> exists processed, s_consumed (c_system c) `prefix_of` processed /\
    processed `prefix_of` s_written (c_system c) /\ handled c processed.
Proof.
  intros Hok. pose proof Hok as [Hsys Hph Hco]. unfold phase_ok in Hph. destruct (c_phase c) as [|result data|completed| | |] eqn:Ep.
  2:{ destruct (processing_ok c result data Hok Ep) as (_ & _ & k & Ht & Hh & Hho & _).
      eexists. split; [|split; [|exact Hh]]; [by apply prefix_app_r|].
      rewrite (sy_stream _ Hsys (ho_open _ _ _ Hho)). apply prefix_app. etrans; [|apply Hho].
      apply prefix_take. }
  all: exists (s_consumed (c_system c)); split; [done|]; split; [done|]; destruct_and?; done.
Qed.

(** ** The thread on its own *)

(** The next step of the thread, computed; [None] when it has none. *)
Definition thread_step (c : connection) : option connection :=
  let run e (after : @system R -> phase) :=
    s' ← exec e (c_system c); Some (with_system s' (after s') c) in
  match c_phase c with
  | Waiting =>
      run (match s_reader (c_system c) with RIdle => CallRead 0 no_stop | _ => ReaderRuns end)
        (fun s' => phase_after (s_reader s'))
  | Processing result data =>
      if position_bool (new_line c data) && negb (c_stop c) then
        match process_line m_unique_id (s_memory (c_system c)) (c_name c) data (new_line c data) with
        | Ret (m_name, actions, data') =>
            Some (Conn (c_system c) (Processing result data') m_name (c_actions c ++ actions) (m_closed c) (c_stop c))
        | _ => None
        end
      else run (CallAdvance (view_begin data) (view_end data)) (fun _ => Advanced (rr_completed result))
  | Advanced completed => run ReaderRuns (fun _ => if completed || c_stop c then Leaving else Waiting)
  | Leaving => run CallCompleteReader (fun _ => Completing)
  | Completing => run ReaderRuns (fun _ => Finished)
  | Finished => None
  end.

Fixpoint run_thread (n : nat) (c : connection) : connection :=
  match n with
  | O => c
  | S n => match thread_step c with Some c' => run_thread n c' | None => c end
  end.

Lemma thread_step_conn_step c c' : thread_step c = Some c' -> conn_step c c'.
Proof.
  unfold thread_step. intros E. destruct (c_phase c) as [|result data|completed| | |] eqn:Ep; try done.
  - destruct (exec _ (c_system c)) as [s'|] eqn:Es; [|done]. injection E as <-.
    eapply (ConnRead c); [done| |exact Es]. destruct (s_reader (c_system c)); by (left + right).
  - destruct (position_bool (new_line c data)) eqn:En; cbn [andb] in E.
    + destruct (c_stop c) eqn:Es; cbn [negb] in E.
      * destruct (exec _ (c_system c)) as [s'|] eqn:Ex; [|done]. injection E as <-.
        eapply ConnAdvance; [done|by right|done].
      * destruct (process_line _ _ _ _ _) as [[[nm a] d']| |] eqn:Epl; try done. injection E as <-.
        rewrite <- Es. by eapply ConnLine.
    + destruct (exec _ (c_system c)) as [s'|] eqn:Ex; [|done]. injection E as <-.
      eapply ConnAdvance; [done|by left|done].
  - destruct (exec _ (c_system c)) as [s'|] eqn:Es; [|done]. injection E as <-. by eapply ConnAdvanced.
  - destruct (exec _ (c_system c)) as [s'|] eqn:Es; [|done]. injection E as <-. by eapply ConnLeave.
  - destruct (exec _ (c_system c)) as [s'|] eqn:Es; [|done]. injection E as <-. by eapply ConnFinish.
Qed.

Definition steps_left (ph : phase) : nat :=
  match ph with
  | Waiting => 5 | Processing _ _ => 4 | Advanced _ => 3 | Leaving => 2 | Completing => 1 | Finished => 0
  end.

Lemma completed_read_returns (q : pipeline R) :
  m_reader_completed q = false -> m_has_pending_read q = false -> m_writer_completed q = true ->
  exists p' result, read_at_least q 0 no_stop = Ret (p', ReadReturns result) /\ rr_cancelled result = false.
Proof.
  intros Ho Hp Hw. unfold read_at_least. rewrite Ho, Hp, Hw. by do 2 eexists.
Qed.

Lemma completed_wait_returns (q : pipeline R) :
  m_writer_completed q = true ->
  exists p' result, read_wait q 0 no_stop = (p', ReadReturns result) /\ rr_cancelled result = false.
Proof.
  intros Hw. unfold read_wait, data_available. rewrite Hw, cv_return_no_stop. by do 2 eexists.
Qed.

(** Once asked to stop, the thread is a step closer to its end after each. *)
Lemma stopping_thread_moves c :
  conn_ok c -> c_stop c = true -> (c_phase c = Waiting -> m_writer_completed (s_pipeline (c_system c)) = true) ->
  c_phase c ≠ Finished ->
  exists c', thread_step c = Some c' /\ c_stop c' = true /\ (steps_left (c_phase c') < steps_left (c_phase c))%nat.
Proof.
  intros Hok Hs Hw Hf. pose proof (co_phase _ Hok) as Hph. unfold phase_ok in Hph. unfold thread_step.
  destruct (c_phase c) as [|result data|completed| | |] eqn:Ep; try done.
  - specialize (Hw eq_refl). destruct (c_system c) as [p m w r wr co]. cbn in Hph, Hw.
    destruct Hph as ([->|[b ->]] & (Ho & Hp & _) & _); cbn.
    + destruct (completed_read_returns p Ho Hp Hw) as (p' & result & -> & Hc). cbn. rewrite Hc. eexists. split_and!; [done|done|].
      cbn. lia.
    + destruct (completed_wait_returns p Hw) as (p' & result & -> & Hc). cbn. rewrite Hc. eexists. split_and!; [done|done|].
      cbn. lia.
  - rewrite Hs, andb_false_r. destruct (advance_result c result data Hok Ep) as (p' & m' & n & k & Ea & _).
    destruct (c_system c) as [p m w r wr co]. cbn in Hph, Ea. destruct Hph as (-> & _). cbn. rewrite Ea. cbn.
    eexists. split_and!; [done|done|]. cbn. lia.
  - destruct (c_system c) as [p m w r wr co]. cbn in Hph. destruct Hph as ([n ->] & _). cbn. rewrite Hs, orb_true_r.
    eexists. split_and!; [done|done|]. cbn. lia.
  - destruct (c_system c) as [p m w r wr co]. cbn in Hph. destruct Hph as (-> & _). cbn. eexists. split_and!; [done|done|]. cbn. lia.
  - destruct (c_system c) as [p m w r wr co]. cbn in Hph. destruct Hph as (-> & _). cbn. eexists. split_and!; [done|done|]. cbn. lia.
Qed.

Lemma stopping_thread_finishes n c :
  conn_ok c -> c_stop c = true -> (c_phase c = Waiting -> m_writer_completed (s_pipeline (c_system c)) = true) ->
  (steps_left (c_phase c) <= n)%nat -> c_phase (run_thread n c) = Finished /\ rtc conn_step c (run_thread n c).
Proof.
  revert c. induction n as [|n IH]; intros c Hok Hs Hw Hn; cbn [run_thread].
  - split; [|done]. destruct (c_phase c); cbn in Hn; (done || lia).
  - destruct (thread_step c) as [c'|] eqn:E.
    + pose proof (thread_step_conn_step _ _ E) as Hst.
      destruct (stopping_thread_moves c Hok Hs Hw) as (c1 & E1 & Hs1 & Hlt).
      { intros Ef. unfold thread_step in E. by rewrite Ef in E. }
      rewrite E in E1. injection E1 as <-. destruct (IH c') as [Hfin Hrun]; [by eapply conn_step_ok|done| |lia|].
      * intros Ew. rewrite Ew in Hlt. cbn in Hlt. destruct (c_phase c); cbn in Hlt; lia.
      * split; [done|]. by eapply rtc_l.
    + split; [|done]. destruct (decide (steps_left (c_phase c) = 0%nat)) as [E0|E0]; [by destruct (c_phase c)|].
      destruct (stopping_thread_moves c Hok Hs Hw) as (c1 & E1 & _); [by intros Ef; rewrite Ef in E0|]. congruence.
Qed.
End connection.

(** ** Properties *)
Section properties.
Context {R : Type} `{ResourceLaws R}.
Context (m_unique_id : Z) (p : pipeline R) (m : memory).
Context (Hfresh : fresh p m) (Hopen : m_reader_completed p = false) (Hidle : m_has_pending_read p = false).

(** C7: the handler refines a fold over lines: in every reachable state, with
    the bytes received in any pieces and the threads interleaved in any way,
    its name and its actions are those of the lines (newline and a carriage
    return removed, empty lines skipped) of a prefix of the stream that ends
    at a newline; no byte is lost, repeated or seen twice. *)
Theorem connection_refines_lines c (Hrun : rtc (conn_step m_unique_id) (make_connection m_unique_id p m) c) :
  exists processed,
    s_consumed (c_system c) `prefix_of` processed /\ processed `prefix_of` s_written (c_system c) /\
    (split_lines processed).2 = [] /\
    (c_name c, c_actions c) = handle_lines m_unique_id (initial_name m_unique_id) (split_lines processed).1.
Proof. destruct (conn_handled m_unique_id c) as (a & ? & ? & ? & ?); [by eapply conn_reachable_ok|by exists a]. Qed.

(** C32: no line is left behind: when the handler waits and no notification is
    on its way, it has handled every line received so far, however the
    newlines fell among the writes. *)
Theorem waiting_connection_is_up_to_date c
    (Hrun : rtc (conn_step m_unique_id) (make_connection m_unique_id p m) c)
    (Hwait : s_reader (c_system c) = RParked 0 no_stop false)
    (Hquiet : reader_notification_pending (s_writer (c_system c)) = false) :
  (c_name c, c_actions c) =
  handle_lines m_unique_id (initial_name m_unique_id) (split_lines (s_written (c_system c))).1.
Proof.
  pose proof (conn_reachable_ok m_unique_id p m c Hfresh Hopen Hidle Hrun) as [Hsys Hph _].
  pose proof (conn_run_system m_unique_id p m c Hfresh Hopen Hidle Hrun) as Hrun'.
  destruct (reachable_wakeups p m (c_system c) Hfresh Hrun') as [_ Hr _].
  destruct (Hr 0 no_stop Hwait) as [Hd|E]; [|congruence].
  unfold phase_ok in Hph. destruct (c_phase c); destruct_and?; try congruence;
    try (match goal with E : exists n, s_reader _ = RNotifying n |- _ => destruct E; congruence end).
  match goal with E : m_reader_completed _ = false |- _ => rename E into Ho end.
  match goal with E : handled _ _ _ |- _ => destruct E as [Hres ->] end.
  match goal with E : no_line_examined _ |- _ => rename E into Hn end.
  destruct (po_open _ _ (sy_pipeline _ Hsys) Ho) as (Eb & _ & He & _).
  rewrite <- (content_len _ _ (sy_pipeline _ Hsys)) in Eb.
  unfold no_line_examined in Hn. rewrite take_ge in Hn.
  2:{ unfold data_available in Hd. destruct (m_writer_completed _); [done|]. cbn [orb] in Hd. unfold len in *. lia. }
  rewrite (sy_stream _ Hsys Ho), split_lines_app, (split_lines_no_newline (content _ _)) by done. cbn [fst]. by rewrite app_nil_r.
Qed.

(** The [catch] blocks of the thread are not reached: neither [read] nor
    the processing of a line nor [advance] throws, whatever the client sends. *)
Theorem connection_never_throws c (Hrun : rtc (conn_step m_unique_id) (make_connection m_unique_id p m) c) :
  (c_phase c = Waiting -> s_reader (c_system c) = RIdle ->
    forall e, read_at_least (s_pipeline (c_system c)) 0 no_stop ≠ Throw e) /\
  (forall result data, c_phase c = Processing result data ->
    (position_bool (new_line c data) = true ->
      exists r, process_line m_unique_id (s_memory (c_system c)) (c_name c) data (new_line c data) = Ret r) /\
    (exists r, advance (s_pipeline (c_system c)) (s_memory (c_system c)) (view_begin data) (view_end data) = Ret r)).
Proof.
  pose proof (conn_reachable_ok m_unique_id p m c Hfresh Hopen Hidle Hrun) as Hok.
  destruct (conn_no_throw m_unique_id c Hok) as [Hr _]. split; [by intros E _; apply Hr|]. intros result data Ep. split.
  - intros Hn. destruct (line_result m_unique_id c result data Hok Ep Hn) as (? & ? & ? & -> & _). by eexists.
  - destruct (advance_result m_unique_id c result data Hok Ep) as (? & ? & ? & ? & -> & _). by eexists.
Qed.

(** C34: a client stays within its lines: its name always has 1 to 32 bytes and
    no newline, the constructor broadcasts one line, with the name the client
    starts with, the destructor one line, with the name it has then, and every
    broadcast that the thread makes in between is one line, so that no message
    and no name can pass for a second one. *)
Theorem connection_names_and_broadcasts c
    (Hid : 0 <= m_unique_id <= int_max)
    (Hrun : rtc (conn_step m_unique_id) (make_connection m_unique_id p m) c) :
  name_ok (c_name c) /\
  (exists joined, broadcasts (greet m_unique_id (initial_name m_unique_id)) = [joined ++ [x0a]] /\
     joined = text "[📣: `" ++ initial_name m_unique_id ++ text "` joined the chat! Say hello!]" /\ x0a ∉ joined) /\
  Forall single_line (c_actions c) /\
  (exists left, broadcasts (farewell m_unique_id (c_name c)) = [left ++ [x0a]] /\
     left = text "[📣: `" ++ c_name c ++ text "` has left the chat.]" /\ x0a ∉ left).
Proof.
  destruct (conn_handled m_unique_id c) as (a & _ & _ & _ & E); [by eapply conn_reachable_ok|].
  pose proof (initial_name_ok m_unique_id Hid) as Hi.
  destruct (handle_lines_ok m_unique_id (initial_name m_unique_id) (split_lines a).1) as [Hn Ha];
    [done|apply split_lines_join|]. rewrite <- E in Hn, Ha. destruct Hi, Hn.
  split_and!; [done|by apply greet_line|done|by apply farewell_line].
Qed.

(** C33: the destructor's [join] returns: after [close] (the stop request and
    the completion of the writer), a thread parked in [read] has a
    notification on its way, and the thread, left alone, ends within five
    steps, whatever is still buffered. *)
Theorem closed_connection_ends c
    (Hrun : rtc (conn_step m_unique_id) (make_connection m_unique_id p m) c)
    (Hstop : c_stop c = true) (Hdone : m_writer_completed (s_pipeline (c_system c)) = true) :
  (s_reader (c_system c) = RParked 0 no_stop false -> reader_notification_pending (s_writer (c_system c)) = true) /\
  c_phase (run_thread m_unique_id 5 c) = Finished /\ rtc (conn_step m_unique_id) c (run_thread m_unique_id 5 c).
Proof.
  pose proof (conn_reachable_ok m_unique_id p m c Hfresh Hopen Hidle Hrun) as Hok. split.
  - intros Hr. destruct (reachable_wakeups p m (c_system c) Hfresh) as [_ Hwk _];
      [by apply (conn_run_system m_unique_id)|].
    destruct (Hwk 0 no_stop Hr) as [Hd|]; [|done]. unfold data_available in Hd. by rewrite Hdone in Hd.
  - apply stopping_thread_finishes; [done..|]. destruct (c_phase c); cbn; lia.
Qed.
End properties.

(** ** Scheduled runs *)
Section schedules.
Context {R : Type} `{ResourceLaws R}.
Context (m_unique_id : Z).

Inductive conn_event :=
  | Receive (data : bytes)   (* receive_data, up to the first lock *)
  | WriterStep               (* the writer's next section *)
  | CallClose | RequestStop | CompleteWriter
  | ThreadStep.

Definition conn_exec (e : conn_event) (c : @connection R) : option connection :=
  match e with
  | Receive data =>
      if negb (m_closed c) && negb (len data =? 0) then
        s' ← exec (CallWrite data no_stop) (c_system c); Some (with_system s' (c_phase c) c)
      else None
  | WriterStep => s' ← exec WriterRuns (c_system c); Some (with_system s' (c_phase c) c)
  | CallClose =>
      if m_closed c then None
      else Some (Conn (c_system c) (c_phase c) (c_name c) (c_actions c) true (c_stop c))
  | RequestStop =>
      if m_closed c then Some (Conn (c_system c) (c_phase c) (c_name c) (c_actions c) true true) else None
  | CompleteWriter =>
      if c_stop c then s' ← exec CallCompleteWriter (c_system c); Some (with_system s' (c_phase c) c) else None
  | ThreadStep => thread_step m_unique_id c
  end.

Fixpoint conn_exec_all (es : list conn_event) (c : @connection R) : option connection :=
  match es with
  | [] => Some c
  | e :: es => c' ← conn_exec e c; conn_exec_all es c'
  end.

Lemma conn_exec_step e c c' : conn_exec e c = Some c' -> conn_step m_unique_id c c'.
Proof.
  destruct e; cbn [conn_exec]; intros E.
  - destruct (m_closed c) eqn:Ec; [done|]. destruct (Z.eqb_spec (len data) 0) as [|Hne]; [done|]. cbn [negb andb] in E.
    destruct (exec _ (c_system c)) as [s'|] eqn:Es; [|done]. injection E as <-.
    eapply ConnReceive; [done| |done]. by intros ->.
  - destruct (exec _ (c_system c)) as [s'|] eqn:Es; [|done]. injection E as <-. by eapply ConnWriter.
  - destruct (m_closed c) eqn:Ec; [done|]. injection E as <-. by apply ConnClose.
  - destruct (m_closed c) eqn:Ec; [|done]. injection E as <-. by apply ConnStop.
  - destruct (c_stop c) eqn:Ec; [|done]. destruct (exec _ (c_system c)) as [s'|] eqn:Es; [|done]. injection E as <-.
    by eapply ConnComplete.
  - by apply thread_step_conn_step.
Qed.

Lemma conn_exec_all_run es c c' : conn_exec_all es c = Some c' -> rtc (conn_step m_unique_id) c c'.
Proof.
  revert c. induction es as [|e es IH]; intros c E; cbn in E; [by simplify_eq|].
  destruct (conn_exec e c) as [c1|] eqn:E1; [|done]. eapply rtc_l; [by eapply conn_exec_step|by apply IH].
Qed.
End schedules.

(** ** Concrete runs *)

Definition demo_connection : connection := make_connection 7 demo empty_memory.

Definition conn_after (es : list conn_event) : connection := default demo_connection (conn_exec_all 7 es demo_connection).

Lemma conn_after_run es :
  is_Some (conn_exec_all 7 es demo_connection) -> rtc (conn_step 7) demo_connection (conn_after es).
Proof. intros [c E]. unfold conn_after. rewrite E. by eapply conn_exec_all_run. Qed.

(** A name split over two writes, with a carriage return, and a message whose
    newline is still to come. *)
Definition greeting_schedule : list conn_event :=
  [Receive (text "/nam"); WriterStep; WriterStep; ThreadStep; ThreadStep; ThreadStep; ThreadStep;
   Receive (text "e Ann" ++ [x0d; x0a] ++ text "hi"); WriterStep; WriterStep;
   ThreadStep; ThreadStep; ThreadStep; ThreadStep; ThreadStep].

Lemma connection_refines_lines_witness :
  exists processed, processed `prefix_of` s_written (c_system (conn_after greeting_schedule)) /\
    (c_name (conn_after greeting_schedule), c_actions (conn_after greeting_schedule)) =
      handle_lines 7 (initial_name 7) (split_lines processed).1 /\
    c_name (conn_after greeting_schedule) = text "Ann".
Proof.
  destruct (connection_refines_lines 7 demo empty_memory demo_fresh eq_refl eq_refl (conn_after greeting_schedule))
    as (a & _ & Hp & _ & E); [apply conn_after_run; vm_compute; by eexists|].
  exists a. split_and!; [done|done|by vm_compute].
Defined.

Lemma waiting_connection_is_up_to_date_witness :
  (c_name (conn_after greeting_schedule), c_actions (conn_after greeting_schedule)) =
  handle_lines 7 (initial_name 7) [text "/name Ann" ++ [x0d]] /\
  length (c_actions (conn_after greeting_schedule)) = 3%nat.
Proof.
  split; [|by vm_compute].
  rewrite (waiting_connection_is_up_to_date 7 demo empty_memory demo_fresh eq_refl eq_refl (conn_after greeting_schedule));
    [f_equal; by vm_compute|apply conn_after_run; vm_compute; by eexists|by vm_compute|by vm_compute].
Defined.

(** The same, while the name's line is being processed. *)
Definition middle_schedule : list conn_event := take 11 greeting_schedule.

Lemma connection_never_throws_witness :
  exists r, process_line 7 (s_memory (c_system (conn_after middle_schedule))) (c_name (conn_after middle_schedule))
    (match c_phase (conn_after middle_schedule) with Processing _ data => data | _ => empty_view end)
    (new_line (conn_after middle_schedule)
      (match c_phase (conn_after middle_schedule) with Processing _ data => data | _ => empty_view end)) = Ret r.
Proof.
  destruct (connection_never_throws 7 demo empty_memory demo_fresh eq_refl eq_refl (conn_after middle_schedule)) as [_ Hp];
    [apply conn_after_run; vm_compute; by eexists|].
  destruct (c_phase (conn_after middle_schedule)) as [|result data|b| | |] eqn:E; try (vm_compute in E; discriminate E).
  apply (proj1 (Hp result data eq_refl)). vm_compute in E. injection E as <- <-. by vm_compute.
Defined.

Lemma connection_names_and_broadcasts_witness :
  name_ok (c_name (conn_after greeting_schedule)) /\
  (exists joined, broadcasts (greet 7 (text "7")) = [joined ++ [x0a]] /\ x0a ∉ joined) /\
  Forall single_line (c_actions (conn_after greeting_schedule)) /\
  (exists left, broadcasts (farewell 7 (text "Ann")) = [left ++ [x0a]] /\ x0a ∉ left).
Proof.
  destruct (connection_names_and_broadcasts 7 demo empty_memory demo_fresh eq_refl eq_refl (conn_after greeting_schedule))
    as (Hn & (j & Hj & _ & Hj') & Ha & l & Hl & _ & Hl'); [by vm_compute|apply conn_after_run; vm_compute; by eexists|].
  replace (c_name (conn_after greeting_schedule)) with (text "Ann") in Hl by (by vm_compute).
  split_and!; [done|by exists j|done|by exists l].
Defined.

(** Closed with half a line buffered. *)
Definition closing_schedule : list conn_event := greeting_schedule ++ [CallClose; RequestStop; CompleteWriter].

Lemma closed_connection_ends_witness :
  c_phase (run_thread 7 5 (conn_after closing_schedule)) = Finished.
Proof.
  apply (closed_connection_ends 7 demo empty_memory demo_fresh eq_refl eq_refl (conn_after closing_schedule));
    [apply conn_after_run; vm_compute; by eexists|by vm_compute|by vm_compute].
Defined.

(** ** A line longer than the pipeline *)

Definition long_line_schedule : list conn_event :=
  [Receive (replicate 20 x61); WriterStep; WriterStep; WriterStep;
   ThreadStep; ThreadStep; ThreadStep; ThreadStep; ThreadStep].

(** A line without a newline that fills the pipeline up to its pause
    threshold stops both threads for good: the writer, which is the server's
    only event loop, sleeps until the reader consumes, the reader until a byte
    arrives that it has not examined; neither predicate holds, no
    notification is on its way and nothing was closed. *)
Theorem long_line_blocks_the_server :
  exists c l, rtc (conn_step 7) demo_connection c /\
    s_writer (c_system c) = WParked l false /\ w_data l = replicate 4 x61 /\
    s_reader (c_system c) = RParked 0 no_stop false /\
    space_available (s_pipeline (c_system c)) = false /\ data_available (s_pipeline (c_system c)) 0 = false /\
    m_closed c = false /\ c_actions c = [].
Proof.
  exists (conn_after long_line_schedule). eexists. split; [apply conn_after_run; vm_compute; by eexists|].
  split; [by vm_compute|]. by split_and!; vm_compute.
Qed.
