(* ===== verification/Server.v ===== *)
(** The chat server's dealings with the kernel, one operation at a time
    ([samples/chat/server.h]): sending, receiving, the event names, the
    listening socket, the constructor and the accept loop.  The answers of
    the system calls are arguments (System.v).  The table of clients, which
    several threads share, is ServerClients.v. *)

From S2P Require Import Prelude Text System.

Definition EPOLL_MAX_BUFFER_SIZE : Z := 4096.

(** ** Sending *)

(** [::poll]'s answer with the [revents] it leaves. *)
Definition poll_result : Type := sys_result * Z.

Definition POLLOUT : Z := 4.
Definition POLLERR : Z := 8.
Definition POLLHUP : Z := 16.
Definition POLLNVAL : Z := 32.

(** [x & mask], as a condition. *)
Definition has_flags (x mask : Z) : bool := negb (Z.land x mask =? 0).

Fixpoint wait_writable (polls : list poll_result) : loop_state bool * list poll_result :=
  match polls with
  | [] => (LoopBlocked, [])
  | (SysErr EINTR, _) :: polls => wait_writable polls
  | (SysErr _, _) :: polls => (LoopDone false, polls)
  | (SysOk result, revents) :: polls =>
      (LoopDone ((result >? 0) && has_flags revents POLLOUT
                 && negb (has_flags revents (Z.lor POLLERR (Z.lor POLLHUP POLLNVAL)))), polls)
  end.

(** The loop of [send_data]: the bytes the kernel took and the result. *)
Fixpoint send_loop (message : bytes) (sends : list sys_result) (polls : list poll_result)
    : bytes * loop_state bool :=
  match message with
  | [] => ([], LoopDone true)
  | _ =>
      match sends with
      | [] => ([], LoopBlocked)
      | SysErr EINTR :: sends => send_loop message sends polls
      | SysOk sent :: sends =>
          if sent >? 0 then
            let '(wire, st) := send_loop (drop (Z.to_nat sent) message) sends polls in
            (take (Z.to_nat sent) message ++ wire, st)
          else ([], LoopDone false)
      | SysErr EAGAIN :: sends =>
          match wait_writable polls with
          | (LoopDone true, polls) => send_loop message sends polls
          | (LoopDone false, _) => ([], LoopDone false)
          | (LoopBlocked, _) => ([], LoopBlocked)
          end
      | SysErr _ :: _ => ([], LoopDone false)
      end
  end.

Definition send_data (fd : Z) (message : bytes) (sends : list sys_result) (polls : list poll_result)
    : bytes * loop_state bool :=
  if fd <? 0 then ([], LoopDone false) else send_loop message sends polls.

(** ** Receiving *)

(** The loop of [receive_data]: the pieces given to the handler and the
    result.  [closed] answers whether [client.fd] reads negative; [retrying]
    is set inside [retry], where the descriptor is not read again. *)
Fixpoint receive_loop (retrying : bool) (closed : stop_token) (answers : list recv_result)
    : list bytes * loop_state bool :=
  let '(is_closed, closed) := if retrying then (false, closed) else stop_requested closed in
  if is_closed then ([], LoopDone false)
  else
    match answers with
    | [] => ([], LoopBlocked)
    | RecvError EINTR :: answers => receive_loop true closed answers
    | RecvData data :: answers =>
        if len data >? 0 then
          let '(pieces, st) := receive_loop false closed answers in (data :: pieces, st)
        else ([], LoopDone false)
    | RecvError EAGAIN :: _ => ([], LoopDone true)
    | RecvError _ :: _ => ([], LoopDone false)
    end.

Definition receive_data (closed : stop_token) (answers : list recv_result) : list bytes * loop_state bool :=
  receive_loop false closed answers.

Fixpoint enter_pressed (answers : list recv_result) : outcome (loop_state bool) :=
  match answers with
  | [] => Ret LoopBlocked
  | RecvError EINTR :: answers => enter_pressed answers
  | RecvError _ :: _ => throw system_error "failed to read stdin"
  | RecvData data :: _ => Ret (LoopDone ((len data >? 0) && bool_decide (x0a ∈ data)))
  end.

(** ** Events *)

Definition EPOLLIN : Z := 1.
Definition EPOLLPRI : Z := 2.
Definition EPOLLOUT : Z := 4.
Definition EPOLLERR : Z := 8.
Definition EPOLLHUP : Z := 16.
Definition EPOLLRDHUP : Z := 8192.
Definition EPOLLONESHOT : Z := 1073741824.
Definition EPOLLET : Z := 2147483648.

Record event_flag := EventFlag { mask : Z; flag_name : bytes }.

Definition flags : list event_flag :=
  [EventFlag EPOLLIN (text "EPOLLIN"); EventFlag EPOLLOUT (text "EPOLLOUT"); EventFlag EPOLLERR (text "EPOLLERR");
   EventFlag EPOLLHUP (text "EPOLLHUP"); EventFlag EPOLLRDHUP (text "EPOLLRDHUP"); EventFlag EPOLLPRI (text "EPOLLPRI");
   EventFlag EPOLLET (text "EPOLLET"); EventFlag EPOLLONESHOT (text "EPOLLONESHOT")].

(** The loop over the flags: the text so far and the bits not named yet. *)
Fixpoint name_flags (events : Z) (fs : list event_flag) (result : bytes) (remaining : Z) : bytes * Z :=
  match fs with
  | [] => (result, remaining)
  | flag :: fs =>
      if Z.land events (mask flag) =? 0 then name_flags events fs result remaining
      else
        let result := if negb (len result =? 0) then result ++ text "|" else result in
        name_flags events fs (result ++ flag_name flag) (Z.ldiff remaining (mask flag))
  end.

Definition epoll_events_to_string (events : Z) : bytes :=
  let '(result, remaining) := name_flags events flags [] events in
  if negb (remaining =? 0) || (len result =? 0) then
    (if negb (len result =? 0) then result ++ text "|" else result) ++ format "0x{:X}" [Int remaining]
  else result.

(** Whether [process_client_event] disconnects the client: [received] is what
    [receive_data] would return, [None] when it throws. *)
Definition process_client_event (events : Z) (received : option bool) : bool :=
  let failed := Z.lor EPOLLERR (Z.lor EPOLLHUP EPOLLRDHUP) in
  match (if has_flags events EPOLLIN then received else Some true) with
  | Some alive => negb (alive && negb (has_flags events failed))
  | None => true
  end.

(** What [run] does with an event. *)
Inductive event_target := Incoming | Stdin | Client (fd : Z).

Definition event_target_of (m_listenFd fd : Z) : event_target :=
  if fd =? m_listenFd then Incoming else if fd =? 0 then Stdin else Client fd.

(** [handle_incoming_connections]: the descriptors given to
    [start_connection_handler], whose result and exceptions do not stop it. *)
Fixpoint handle_incoming_connections (accepts : list sys_result) : list Z * outcome (loop_state unit) :=
  match accepts with
  | [] => ([], Ret LoopBlocked)
  | SysErr EINTR :: accepts => handle_incoming_connections accepts
  | SysErr EAGAIN :: _ => ([], Ret (LoopDone tt))
  | SysErr _ :: _ => ([], throw system_error "failed to accept connection")
  | SysOk fd :: accepts => let '(fds, r) := handle_incoming_connections accepts in (fd :: fds, r)
  end.

(** ** The event loop *)

(** An event [epoll_wait] reports, with the answers the calls it leads to
    will get. *)
Record epoll_event := EpollEvent {
  ev_fd : Z;
  ev_events : Z;
  ev_accepts : list sys_result;   (* accept4, for the listening socket *)
  ev_reads : list recv_result     (* read, for standard input *)
}.

Inductive server_action :=
  | StartConnection (fd : Z)
  | ProcessClient (fd events : Z)
  | BroadcastShutdown.

(** The loop over one batch of events; [true] when Enter was pressed. *)
Fixpoint process_events (m_listenFd : Z) (events : list epoll_event)
    : list server_action * outcome (loop_state bool) :=
  match events with
  | [] => ([], Ret (LoopDone false))
  | event :: events =>
      match event_target_of m_listenFd (ev_fd event) with
      | Incoming =>
          let '(fds, r) := handle_incoming_connections (ev_accepts event) in
          match r with
          | Ret (LoopDone _) =>
              let '(actions, r) := process_events m_listenFd events in (map StartConnection fds ++ actions, r)
          | Ret LoopBlocked => (map StartConnection fds, Ret LoopBlocked)
          | Throw e => (map StartConnection fds, Throw e)
          | Undef => (map StartConnection fds, Undef)
          end
      | Stdin =>
          match enter_pressed (ev_reads event) with
          | Ret (LoopDone true) => ([BroadcastShutdown], Ret (LoopDone true))
          | Ret (LoopDone false) => process_events m_listenFd events
          | Ret LoopBlocked => ([], Ret LoopBlocked)
          | Throw e => ([], Throw e)
          | Undef => ([], Undef)
          end
      | Client fd =>
          let '(actions, r) := process_events m_listenFd events in (ProcessClient fd (ev_events event) :: actions, r)
      end
  end.

(** [waits] are the answers of [epoll_wait]. *)
Fixpoint run (m_listenFd : Z) (waits : list (list epoll_event + errno_t))
    : list server_action * outcome (loop_state unit) :=
  match waits with
  | [] => ([], Ret LoopBlocked)
  | inr EINTR :: waits => run m_listenFd waits
  | inr _ :: _ => ([], throw system_error "epoll_wait failed")
  | inl events :: waits =>
      let '(actions, r) := process_events m_listenFd events in
      match r with
      | Ret (LoopDone true) => (actions, Ret (LoopDone tt))
      | Ret (LoopDone false) => let '(actions', r) := run m_listenFd waits in (actions ++ actions', r)
      | Ret LoopBlocked => (actions, Ret LoopBlocked)
      | Throw e => (actions, Throw e)
      | Undef => (actions, Undef)
      end
  end.

(** ** Descriptors of the server *)

Inductive fd_call := FdOpened (fd : Z) | FdClosed (fd : Z).

(** [create_listen_socket], for what [socket], [setsockopt], [bind] and
    [listen] return. *)
Definition create_listen_socket (fd setsockopt bind listen : Z) : list fd_call * outcome Z :=
  if fd <? 0 then ([], throw system_error "failed to create listen socket")
  else
    let calls := [FdOpened fd] in
    if setsockopt <? 0 then (calls ++ [FdClosed fd], throw system_error "failed to set SO_REUSEADDR")
    else if bind <? 0 then (calls ++ [FdClosed fd], throw system_error "failed to bind on port ")
    else if listen <? 0 then (calls ++ [FdClosed fd], throw system_error "failed to listen")
    else (calls, Ret fd).

Record server_fds := ServerFds { m_listenFd : Z; m_epollFd : Z }.

(** The end of [cleanup], after the clients. *)
Definition cleanup_fds (s : server_fds) : list fd_call * server_fds :=
  ((if m_listenFd s >=? 0 then [FdClosed (m_listenFd s)] else [])
   ++ (if m_epollFd s >=? 0 then [FdClosed (m_epollFd s)] else []),
   ServerFds (if m_listenFd s >=? 0 then -1 else m_listenFd s) (if m_epollFd s >=? 0 then -1 else m_epollFd s)).

(** The constructor: [epoll] is what [epoll_create1] returns, the last two
    whether [add_to_epoll] succeeds. *)
Definition make_server (listen : list fd_call * outcome Z) (epoll : Z) (add_listen add_stdin : bool)
    : list fd_call * outcome server_fds :=
  let fail calls s what := (calls ++ (cleanup_fds s).1, throw system_error what) in
  let '(calls, r) := listen in
  match r with
  | Ret listen_fd =>
      if epoll <? 0 then fail calls (ServerFds listen_fd epoll) "failed to create epoll"%string
      else
        let calls := calls ++ [FdOpened epoll] in
        let s := ServerFds listen_fd epoll in
        if negb add_listen then fail calls s "failed to add listen socket to epoll"%string
        else if negb add_stdin then fail calls s "failed to add stdin to epoll"%string
        else (calls, Ret s)
  | Throw e => (calls ++ (cleanup_fds (ServerFds (-1) (-1))).1, Throw e)
  | Undef => (calls, Undef)
  end.

(** ** Lemmas *)

Lemma send_loop_spec message sends polls :
  let '(wire, st) := send_loop message sends polls in
  wire `prefix_of` message /\ (st = LoopDone true <-> wire = message).
Proof.
  revert message polls. induction sends as [|r sends IH]; intros message polls.
  { destruct message; cbn; (split; [apply prefix_nil|done]). }
  destruct message as [|x message]; [by cbn|]. cbn [send_loop]. destruct r as [n|e].
  - destruct (Z.gtb_spec n 0) as [Hn|Hn]; [|by split; [apply prefix_nil|]].
    specialize (IH (drop (Z.to_nat n) (x :: message)) polls).
    destruct (send_loop (drop (Z.to_nat n) (x :: message)) sends polls) as [wire st]. destruct IH as [Hp Hd].
    rewrite <- (take_drop (Z.to_nat n) (x :: message)) at 2 4. split; [by apply prefix_app|].
    rewrite Hd. split; [by intros ->|]. by intros ?%app_inv_head.
  - destruct e; [by apply IH| |by split; [apply prefix_nil|]].
    destruct (wait_writable polls) as [[[]|] polls']; [by apply IH|by split; [apply prefix_nil|]..].
Qed.

(** Enough answers: as many as the message has bytes, each taking at least
    one, with interruptions and waits in between. *)
Lemma send_loop_ends message sends polls :
  Forall (fun r => match r with SysOk n => 0 < n | SysErr e => e = EINTR \/ e = EAGAIN end) sends ->
  Forall (fun q => q = (SysOk 1, POLLOUT)) polls ->
  (countb (fun r => bool_decide (r = SysErr EAGAIN)) sends <= length polls)%nat ->
  len message <= progress_count sends -> (send_loop message sends polls).2 = LoopDone true.
Proof.
  intros Hs. revert message polls. induction Hs as [|r sends Hr _ IH]; intros message polls Hp Hw Hc.
  { destruct message; [done|]. rewrite progress_count_nil, len_cons in Hc. pose proof (len_nonneg message). lia. }
  destruct message as [|x message]; [done|]. rewrite progress_count_cons in Hc. cbn [send_loop countb] in *.
  destruct r as [n|e]; cbn in Hc.
  - destruct (Z.gtb_spec n 0); [|lia]. assert ((send_loop (drop (Z.to_nat n) (x :: message)) sends polls).2 = LoopDone true) as E.
    { apply IH; [done|by rewrite bool_decide_false in Hw|]. replace (0 <? n) with true in Hc by lia.
      unfold len in *. rewrite length_drop. cbn [length] in *. lia. }
    by destruct (send_loop (drop (Z.to_nat n) (x :: message)) sends polls).
  - destruct Hr as [-> | ->].
    + apply IH; [done|by rewrite bool_decide_false in Hw|lia].
    + rewrite bool_decide_true in Hw by done. destruct polls as [|q polls]; [cbn in Hw; lia|].
      apply Forall_cons in Hp as [-> Hp]. cbn. apply IH; [done|cbn in Hw; lia|lia].
Qed.

(** *** The event loop *)

Definition is_shutdown (a : server_action) : bool := match a with BroadcastShutdown => true | _ => false end.

(** The events on clients among the actions, and among what was reported. *)
Definition client_action (a : server_action) : option (Z * Z) :=
  match a with ProcessClient fd events => Some (fd, events) | _ => None end.
Definition client_event (m_listenFd : Z) (e : epoll_event) : option (Z * Z) :=
  match event_target_of m_listenFd (ev_fd e) with Client fd => Some (fd, ev_events e) | _ => None end.
Definition reported (waits : list (list epoll_event + errno_t)) : list epoll_event :=
  concat (map (fun w => match w with inl events => events | inr _ => [] end) waits).

Lemma started_no_shutdown fds : countb is_shutdown (map StartConnection fds) = 0%nat.
Proof. induction fds as [|fd fds IH]; [done|exact IH]. Qed.

Lemma started_no_clients fds : omap client_action (map StartConnection fds) = [].
Proof. induction fds as [|fd fds IH]; [done|exact IH]. Qed.

(** The calls an event leads to return. *)
Definition answered (e : epoll_event) : Prop :=
  (handle_incoming_connections (ev_accepts e)).2 ≠ Ret LoopBlocked /\ enter_pressed (ev_reads e) ≠ Ret LoopBlocked.

Lemma process_events_answered m_listenFd events :
  Forall answered events -> (process_events m_listenFd events).2 ≠ Ret LoopBlocked.
Proof.
  induction 1 as [|event events [Ha He] _ IH]; cbn [process_events]; [done|].
  destruct (process_events m_listenFd events) as [actions r]. destruct (event_target_of _ _).
  - by destruct (handle_incoming_connections (ev_accepts event)) as [fds [[[]|]| |]].
  - by destruct (enter_pressed (ev_reads event)) as [[[]|]| |].
  - done.
Qed.

Lemma process_events_spec m_listenFd events :
  let '(actions, r) := process_events m_listenFd events in
  omap client_action actions `prefix_of` omap (client_event m_listenFd) events /\
  match r with
  | Ret (LoopDone true) => exists before, actions = before ++ [BroadcastShutdown] /\ countb is_shutdown before = O
  | Ret (LoopDone false) =>
      countb is_shutdown actions = O /\ omap client_action actions = omap (client_event m_listenFd) events
  | _ => countb is_shutdown actions = O
  end.
Proof.
  induction events as [|event events IH]; cbn [process_events]; [done|].
  destruct (process_events m_listenFd events) as [actions r]. destruct IH as [Hp Hr].
  assert (client_event m_listenFd event =
    match event_target_of m_listenFd (ev_fd event) with Client fd => Some (fd, ev_events event) | _ => None end) as Ec by done.
  cbn [omap list_omap]. rewrite !Ec. destruct (event_target_of m_listenFd (ev_fd event)) as [| |fd].
  - destruct (handle_incoming_connections (ev_accepts event)) as [fds [[[]|]| |]]; cbn beta iota;
      rewrite ?omap_app, ?countb_app, ?started_no_clients, ?started_no_shutdown;
      try (split; [apply prefix_nil|done]).
    split; [done|]. destruct r as [[[]|]| |]; try done. destruct Hr as (before & -> & Hb).
    exists (map StartConnection fds ++ before). by rewrite app_assoc, countb_app, started_no_shutdown, Hb.
  - destruct (enter_pressed (ev_reads event)) as [[[]|]| |]; try (by split; [apply prefix_nil|]).
    + split; [apply prefix_nil|]. by exists [].
    + by split.
  - cbn [omap list_omap client_action countb is_shutdown]. split; [by apply prefix_cons|].
    destruct r as [[[]|]| |]; try done.
    + destruct Hr as (before & -> & Hb). by exists (ProcessClient fd (ev_events event) :: before).
    + destruct Hr as [Hb E]. by rewrite E.
Qed.

Lemma run_spec m_listenFd waits :
  let '(actions, r) := run m_listenFd waits in
  omap client_action actions `prefix_of` omap (client_event m_listenFd) (reported waits) /\
  match r with
  | Ret (LoopDone _) => exists before, actions = before ++ [BroadcastShutdown] /\ countb is_shutdown before = O
  | _ => countb is_shutdown actions = O
  end /\
  (r = Ret LoopBlocked -> Forall answered (reported waits) ->
    omap client_action actions = omap (client_event m_listenFd) (reported waits)).
Proof.
  induction waits as [|[events|e] waits IH]; cbn [run]; [done| |].
  - change (reported (inl events :: waits)) with (events ++ reported waits). rewrite omap_app.
    pose proof (process_events_spec m_listenFd events) as He. pose proof (process_events_answered m_listenFd events) as Ha.
    destruct (process_events m_listenFd events) as [actions [[[]|]| |]]; destruct He as [Hp Hr].
    + split_and!; [by apply prefix_app_r|done|done].
    + destruct (run m_listenFd waits) as [actions' r]. destruct IH as (Hp' & Hr' & Heq), Hr as [Hb E].
      rewrite omap_app, E. split_and!; [by apply prefix_app| |].
      * destruct r as [[[]|]| |]; rewrite ?countb_app, ?Hb; try done. destruct Hr' as (before & -> & Hb').
        exists (actions ++ before). by rewrite app_assoc, countb_app, Hb, Hb'.
      * intros Hr [_ Hw]%Forall_app. by rewrite Heq.
    + split_and!; [by apply prefix_app_r|done|]. intros _ [Hw _]%Forall_app. by destruct (Ha Hw).
    + by split_and!; [apply prefix_app_r|..].
    + by split_and!; [apply prefix_app_r|..].
  - destruct e; [done|by split; [apply prefix_nil|]..].
Qed.

(** What the loop over the flags has named, and what it has left. *)
Definition named (events : Z) (fs : list event_flag) : list event_flag :=
  List.filter (fun f => negb (Z.land events (mask f) =? 0)) fs.

Definition masks (fs : list event_flag) : Z := foldr (fun f z => Z.lor (mask f) z) 0 fs.

Lemma name_flags_spec events fs done_flags remaining :
  Forall (fun f => flag_name f ≠ []) (done_flags ++ fs) ->
  name_flags events fs (join_with x7c (map flag_name done_flags)) remaining =
  (join_with x7c (map flag_name (done_flags ++ named events fs)), Z.ldiff remaining (masks (named events fs))).
Proof.
  revert done_flags remaining. induction fs as [|f fs IH]; intros fl remaining Hne; cbn [name_flags named List.filter].
  { cbn. by rewrite app_nil_r, Z.ldiff_0_r. }
  destruct (Z.land events (mask f) =? 0) eqn:Ef; cbn [negb].
  { apply IH. rewrite Forall_app in *. destruct Hne as [? [? ?]%Forall_cons]. by split. }
  assert ((if negb (len (join_with x7c (map flag_name fl)) =? 0) then join_with x7c (map flag_name fl) ++ text "|"
    else join_with x7c (map flag_name fl)) ++ flag_name f = join_with x7c (map flag_name (fl ++ [f]))) as ->.
  { rewrite map_app. cbn [map]. destruct fl as [|g fl]; [done|].
    rewrite join_snoc by done. destruct (Z.eqb_spec (len (join_with x7c (map flag_name (g :: fl)))) 0) as [E|_].
    - apply len_nil_iff in E. apply Forall_app in Hne as [[Hg _]%Forall_cons _]. exfalso. apply Hg.
      cbn [map join_with] in E. by destruct (map flag_name fl), (flag_name g).
    - cbn [negb]. by rewrite <- app_assoc. }
  rewrite IH by (by rewrite <- app_assoc). rewrite <- app_assoc. f_equal. cbn [masks foldr]. fold (named events fs) (masks (named events fs)).
  apply Z.bits_inj. intros i. rewrite !Z.ldiff_spec, Z.lor_spec. by destruct (Z.testbit remaining i), (Z.testbit (mask f) i).
Qed.

Definition opens (fd : Z) (c : fd_call) : bool := match c with FdOpened f => f =? fd | FdClosed _ => false end.
Definition closes (fd : Z) (c : fd_call) : bool := match c with FdClosed f => f =? fd | FdOpened _ => false end.

(** Each flag is one bit. *)
Lemma flag_is_bit f : f ∈ flags -> exists k, 0 <= k /\ mask f = 2 ^ k.
Proof.
  unfold flags. rewrite !elem_of_cons. intros H. destruct_or?; subst; cbn [mask].
  - by exists 0. - by exists 2. - by exists 3. - by exists 4. - by exists 13. - by exists 1. - by exists 31.
  - by exists 30.
  - by apply not_elem_of_nil in H.
Qed.

Lemma land_bit events k : 0 <= k -> Z.land events (2 ^ k) ≠ 0 -> Z.testbit events k = true.
Proof.
  intros Hk Hne. apply not_false_iff_true. intros E. apply Hne, Z.bits_inj. intros i.
  rewrite Z.land_spec, Z.pow2_bits_eqb, Z.bits_0 by done. destruct (Z.eqb_spec k i) as [->|]; [by rewrite E|].
  by rewrite andb_false_r.
Qed.

Lemma named_masks events fs i :
  Forall (fun f => exists k, 0 <= k /\ mask f = 2 ^ k) fs ->
  Z.testbit (masks (named events fs)) i = true -> Z.testbit events i = true.
Proof.
  induction 1 as [|f fs (k & Hk & Ek) _ IH]; cbn [named List.filter]; [by rewrite Z.bits_0|].
  destruct (Z.eqb_spec (Z.land events (mask f)) 0) as [|Hne]; cbn [negb]; [done|].
  cbn [masks foldr]. rewrite Z.lor_spec. intros [Hi|Hi]%orb_true_iff; [|by apply IH].
  rewrite Ek in Hi, Hne. rewrite Z.pow2_bits_eqb in Hi by done. apply Z.eqb_eq in Hi as <-. by apply land_bit.
Qed.

Lemma flags_nonempty : Forall (fun f => flag_name f ≠ []) flags.
Proof. by repeat constructor. Qed.

Lemma named_nonempty events : Forall (fun f => flag_name f ≠ []) (named events flags).
Proof.
  apply Forall_forall. intros f Hf. apply list_elem_of_In, filter_In in Hf as [Hf _]. apply list_elem_of_In in Hf.
  revert f Hf. apply Forall_forall, flags_nonempty.
Qed.

Lemma name_all_flags events :
  name_flags events flags [] events =
  (join_with x7c (map flag_name (named events flags)), Z.ldiff events (masks (named events flags))).
Proof. exact (name_flags_spec events flags [] events flags_nonempty). Qed.

(** The end of [epoll_events_to_string]. *)
Lemma append_rest known rest hex :
  Forall (fun f => flag_name f ≠ []) known ->
  let result := join_with x7c (map flag_name known) in
  (if negb (rest =? 0) || (len result =? 0) then
     (if negb (len result =? 0) then result ++ text "|" else result) ++ hex
   else result) =
  join_with x7c (map flag_name known ++ if decide (rest ≠ 0 \/ known = []) then [hex] else []).
Proof.
  intros Hne. cbv zeta. destruct known as [|g known].
  { rewrite decide_True by (by right). cbn [map join_with len length app]. by rewrite orb_true_r. }
  assert (len (join_with x7c (map flag_name (g :: known))) ≠ 0) as Hl.
  { intros E. apply len_nil_iff in E. apply Forall_cons in Hne as [Hg _]. apply Hg. cbn [map join_with] in E.
    by destruct (map flag_name known), (flag_name g). }
  destruct (Z.eqb_spec (len (join_with x7c (map flag_name (g :: known)))) 0); [done|]. rewrite orb_false_r. cbn [negb].
  destruct (Z.eqb_spec rest 0) as [E0|E0]; cbn [negb].
  - rewrite decide_False by (intros [?|?]; done). by rewrite app_nil_r.
  - rewrite decide_True by (by left). rewrite join_snoc by done. by rewrite <- app_assoc.
Qed.

(** ** Properties *)

(** [send_data] puts a prefix of the message on the connection, whatever
    partial sends, interruptions and waits happen, and reports success exactly
    when all of it went out; a closed client is refused; and it ends, with the
    whole message, when the kernel keeps taking bytes and the waits succeed. *)
Theorem send_data_correct fd message sends polls :
  let '(wire, st) := send_data fd message sends polls in
  wire `prefix_of` message /\
  (0 <= fd -> (st = LoopDone true <-> wire = message)) /\
  (fd < 0 -> wire = [] /\ st = LoopDone false) /\
  (0 <= fd ->
   Forall (fun r => match r with SysOk n => 0 < n | SysErr e => e = EINTR \/ e = EAGAIN end) sends ->
   Forall (fun q => q = (SysOk 1, POLLOUT)) polls ->
   (countb (fun r => bool_decide (r = SysErr EAGAIN)) sends <= length polls)%nat ->
   len message <= progress_count sends -> st = LoopDone true).
Proof.
  unfold send_data. destruct (Z.ltb_spec fd 0).
  { split_and!; [apply prefix_nil|lia|done|lia]. }
  pose proof (send_loop_spec message sends polls) as Hs. pose proof (send_loop_ends message sends polls) as He.
  destruct (send_loop message sends polls) as [wire st]. destruct Hs as [Hp Hd].
  split_and!; [done|done|lia|]. intros _ H1 H2 H3 H4. by apply He.
Qed.

(** [epoll_events_to_string] accounts for every bit: it lists, separated by
    bars, the names of the flags that are set, then in hexadecimal the bits
    without a name (also when there are none at all); the flags named and the
    rest make up the value. *)
Theorem epoll_events_to_string_complete events :
  let known := named events flags in
  let rest := Z.ldiff events (masks known) in
  epoll_events_to_string events =
    join_with x7c (map flag_name known
      ++ if decide (rest ≠ 0 \/ known = []) then [format "0x{:X}" [Int rest]] else []) /\
  Z.lor (masks known) rest = events /\ Z.land (masks known) rest = 0.
Proof.
  cbv zeta. assert (Forall (fun f => exists k, 0 <= k /\ mask f = 2 ^ k) flags) as Hbits.
  { apply Forall_forall. apply flag_is_bit. }
  split_and!.
  - unfold epoll_events_to_string. destruct (name_flags events flags [] events) as [result remaining] eqn:E.
    rewrite (name_all_flags events) in E. injection E as <- <-. apply append_rest, named_nonempty.
  - apply Z.bits_inj. intros i. rewrite Z.lor_spec, Z.ldiff_spec.
    destruct (Z.testbit (masks (named events flags)) i) eqn:E; [|by rewrite andb_true_r].
    by rewrite (named_masks events flags i Hbits E).
  - apply Z.bits_inj. intros i. rewrite Z.land_spec, Z.ldiff_spec, Z.bits_0.
    by destruct (Z.testbit (masks (named events flags)) i), (Z.testbit events i).
Qed.

(** The server's own descriptors: the constructor either returns with the
    listening socket and the epoll instance open, which [cleanup] then closes
    once each, or throws [std::system_error] having closed once whatever it
    had opened, at whatever point the kernel refused. *)
Theorem make_server_no_leak fd setsockopt bind listen epoll add_listen add_stdin :
  let '(calls, r) := make_server (create_listen_socket fd setsockopt bind listen) epoll add_listen add_stdin in
  match r with
  | Ret s =>
      m_listenFd s = fd /\ m_epollFd s = epoll /\
      forall x, countb (closes x) calls = O /\ countb (opens x) calls = countb (closes x) (cleanup_fds s).1
  | Throw e => exn_class e = system_error /\ forall x, countb (opens x) calls = countb (closes x) calls
  | Undef => False
  end.
Proof.
  unfold make_server, create_listen_socket, cleanup_fds.
  destruct (Z.ltb_spec fd 0); [by split|].
  destruct (setsockopt <? 0); [split; [done|]; intros x; cbn; by destruct (fd =? x)|].
  destruct (bind <? 0); [split; [done|]; intros x; cbn; by destruct (fd =? x)|].
  destruct (listen <? 0); [split; [done|]; intros x; cbn; by destruct (fd =? x)|].
  cbn [m_listenFd m_epollFd]. replace (fd >=? 0) with true by lia.
  destruct (Z.ltb_spec epoll 0).
  { replace (epoll >=? 0) with false by lia. split; [done|]. intros x. cbn. by destruct (fd =? x). }
  replace (epoll >=? 0) with true by lia.
  destruct add_listen, add_stdin; cbn [negb].
  1: split; [done|]; split; [done|].
  2-4: split; [done|].
  all: intros x; cbn; repeat rewrite (proj2 (Z.geb_le _ _)) by done; cbn; by destruct (fd =? x), (epoll =? x).
Qed.

(** The event loop returns exactly when a newline arrives on standard
    input: the farewell is then its last action and its only one of that
    kind.  Until then, and until an error is thrown, the events of clients are
    processed once each and in the order reported, whatever the batches. *)
Theorem run_correct m_listenFd waits :
  let '(actions, r) := run m_listenFd waits in
  omap client_action actions `prefix_of` omap (client_event m_listenFd) (reported waits) /\
  (r = Ret (LoopDone tt) <-> exists before, actions = before ++ [BroadcastShutdown]) /\
  (countb is_shutdown actions <= 1)%nat /\
  (r = Ret LoopBlocked -> Forall answered (reported waits) ->
    omap client_action actions = omap (client_event m_listenFd) (reported waits)).
Proof.
  pose proof (run_spec m_listenFd waits) as H. destruct (run m_listenFd waits) as [actions r].
  destruct H as (Hp & Hr & Heq). split; [done|]. rewrite (assoc and). split; [|done].
  assert (r = Ret (LoopDone tt) \/ countb is_shutdown actions = O) as [->|H0].
  { destruct r as [[[]|]| |]; auto. }
  - destruct Hr as (before & -> & Hb). rewrite countb_app, Hb. split; [|done]. split; [|done]. intros _. by exists before.
  - rewrite H0. split; [|lia]. split.
    + intros ->. destruct Hr as (before & -> & _). rewrite countb_app in H0. cbn in H0. lia.
    + intros [before ->]. rewrite countb_app in H0. cbn in H0. lia.
Qed.
