(* ===== verification/ServerClients.v ===== *)
(** The chat server's table of clients ([samples/chat/server.h]), shared by
    the event loop and by the thread of every connection: registration,
    disconnection, closing, sending, and the lifetime of [connection_data],
    which [std::shared_ptr]s decide.

    A [task] is what a thread is in the middle of with a client: holding a
    pointer to it, past the [extract] of [disconnect_client], between the
    [exchange] and the [::close] of [close_connection], or inside the lock of
    [send_data].  [server_exec] takes one step, a section of one operation;
    any thread may take the next one. *)

From S2P Require Import Prelude.

Inductive thread := Main | HandlerThread (client : nat).

#[export] Instance thread_eq_decision : EqDecision thread.
Proof. solve_decision. Defined.

(** [connection_data], with its handler's [m_unique_id], whether
    [m_connection] is set and whether the handler's thread still runs. *)
Record connection_data := ConnectionData {
  fd : Z;
  unique_id : Z;
  m_connection : bool;
  running : bool
}.

Inductive task :=
  | Held (client : nat)                (* a [client_ptr] *)
  | Extracted (client : nat)           (* [close_connection] is next *)
  | Exchanged (client : nat) (fd : Z)  (* [::close(fd)] is next *)
  | Sending (client : nat) (fd : Z).   (* [send_data], inside the lock *)

#[export] Instance task_eq_decision : EqDecision task.
Proof. solve_decision. Defined.

Definition task_client (k : task) : nat :=
  match k with Held c | Extracted c | Exchanged c _ | Sending c _ => c end.

(** [open_fds] are the client sockets the kernel has open; [terminated] is set
    by [std::terminate]. *)
Record server := Server {
  clients : list connection_data; (* every one made so far *)
  m_clients : gmap Z nat;
  open_fds : gset Z;
  tasks : list (thread * task);
  terminated : bool
}.

Definition make_server_clients : server := Server [] ∅ ∅ [] false.

Inductive server_event :=
  | Accept (new_fd : Z)              (* accept4 and the emplace of start_connection_handler *)
  | StartHandler (client : nat)      (* make_unique<connection_handler> *)
  | FindClient (t : thread) (id : Z) (* in reply, user_quit and the event loop *)
  | Broadcast (t : thread)           (* broadcast, up to its for_each *)
  | Disconnect (t : thread) (id : Z) (* disconnect_client, up to the extract *)
  | RunTask (i : nat)                (* the next section of task [i] *)
  | Lock (i : nat)                   (* send_data and user_quit, up to the load of the descriptor *)
  | ThreadEnds (client : nat)
  | Cleanup.

Definition set_fd (z : Z) (c : connection_data) : connection_data :=
  ConnectionData z (unique_id c) (m_connection c) (running c).
Definition set_running (b : bool) (c : connection_data) : connection_data :=
  ConnectionData (fd c) (unique_id c) (m_connection c) b.

(** Threads that can run. *)
Definition alive (s : server) (t : thread) : bool :=
  match t with
  | Main => true
  | HandlerThread c => match clients s !! c with Some d => running d | None => false end
  end.

Definition on_client (c : nat) (k : thread * task) : bool := Nat.eqb (task_client k.2) c.
Definition sending_to (c : nat) (k : thread * task) : bool :=
  match k.2 with Sending c' _ => Nat.eqb c' c | _ => false end.
Definition by_thread (t : thread) (k : thread * task) : bool := bool_decide (k.1 = t).

Definition in_table (s : server) (c : nat) : bool :=
  existsb (fun '(_, c') => Nat.eqb c' c) (map_to_list (m_clients s)).

(** [start_connection_handler] up to its [emplace]; a descriptor already
    registered is closed again. *)
Definition accept (new_fd : Z) (s : server) : option server :=
  if (new_fd <? 0) || bool_decide (new_fd ∈ open_fds s) then None (* the kernel does not answer this *)
  else
    let c := length (clients s) in
    let made := clients s ++ [ConnectionData new_fd new_fd false false] in
    let opened := {[new_fd]} ∪ open_fds s in
    match m_clients s !! new_fd with
    | None => Some (Server made (<[new_fd := c]> (m_clients s)) opened (tasks s ++ [(Main, Held c)]) (terminated s))
    | Some _ => Some (Server made (m_clients s) opened (tasks s ++ [(Main, Extracted c)]) (terminated s))
    end.

Definition start_handler (c : nat) (s : server) : option server :=
  d ← clients s !! c;
  if bool_decide ((Main, Held c) ∈ tasks s) && negb (m_connection d) then
    Some (Server (<[c := ConnectionData (fd d) (unique_id d) true true]> (clients s)) (m_clients s) (open_fds s)
            (tasks s) (terminated s))
  else None.

Definition find_client (t : thread) (id : Z) (s : server) : option server :=
  if negb (alive s t) then None
  else
    match m_clients s !! id with
    | None => Some s
    | Some c => Some (Server (clients s) (m_clients s) (open_fds s) (tasks s ++ [(t, Held c)]) (terminated s))
    end.

(** [broadcast] copies the pointers of all clients; the parallel loop's
    workers act for [t], whose vector keeps every pointer until the end. *)
Definition broadcast (t : thread) (s : server) : option server :=
  if negb (alive s t) then None
  else
    Some (Server (clients s) (m_clients s) (open_fds s)
            (tasks s ++ map (fun '(_, c) => (t, Held c)) (map_to_list (m_clients s))) (terminated s)).

Definition disconnect_client (t : thread) (id : Z) (s : server) : option server :=
  if negb (alive s t) then None
  else
    match m_clients s !! id with
    | None => Some s
    | Some c =>
        Some (Server (clients s) (delete id (m_clients s)) (open_fds s) (tasks s ++ [(t, Extracted c)]) (terminated s))
    end.

(** The two sections of [close_connection], by task [i]. *)
Definition close_exchange (i : nat) (t : thread) (c : nat) (s : server) : option server :=
  d ← clients s !! c;
  if fd d <? 0 then
    Some (Server (clients s) (m_clients s) (open_fds s) (<[i := (t, Held c)]> (tasks s)) (terminated s))
  else
    Some (Server (<[c := set_fd (-1) d]> (clients s)) (m_clients s) (open_fds s)
            (<[i := (t, Exchanged c (fd d))]> (tasks s)) (terminated s)).

Definition close_descriptor (i : nat) (t : thread) (c : nat) (z : Z) (s : server) : option server :=
  if existsb (sending_to c) (tasks s) then None (* waits for the lock *)
  else
    Some (Server (clients s) (m_clients s) (open_fds s ∖ {[z]}) (<[i := (t, Held c)]> (tasks s)) (terminated s)).

(** A [client_ptr] goes away; the last one destroys the client, whose handler
    joins its thread: [std::thread::join] on the calling thread throws, in a
    destructor. *)
Definition drop_client (i : nat) (t : thread) (c : nat) (s : server) : option server :=
  let rest := delete i (tasks s) in
  if existsb (on_client c) rest || in_table s c then
    Some (Server (clients s) (m_clients s) (open_fds s) rest (terminated s))
  else
    d ← clients s !! c;
    if negb (m_connection d) then Some (Server (clients s) (m_clients s) (open_fds s) rest (terminated s))
    else if bool_decide (t = HandlerThread c) then
      Some (Server (clients s) (m_clients s) (open_fds s) rest true)
    else if running d then None (* waits in join *)
    else Some (Server (<[c := ConnectionData (fd d) (unique_id d) false false]> (clients s)) (m_clients s) (open_fds s)
                 rest (terminated s)).

(** [send_data] and [user_quit] up to the load of the descriptor; what they do
    with it, sending or shutting down, changes neither table. *)
Definition lock_client (i : nat) (s : server) : option server :=
  match tasks s !! i with
  | Some (t, Held c) =>
      if existsb (sending_to c) (tasks s) then None
      else
        d ← clients s !! c;
        if fd d <? 0 then Some s
        else Some (Server (clients s) (m_clients s) (open_fds s) (<[i := (t, Sending c (fd d))]> (tasks s)) (terminated s))
  | _ => None
  end.

Definition run_task (i : nat) (s : server) : option server :=
  match tasks s !! i with
  | Some (t, Held c) => drop_client i t c s
  | Some (t, Extracted c) => close_exchange i t c s
  | Some (t, Exchanged c z) => close_descriptor i t c z s
  | Some (t, Sending c _) =>
      Some (Server (clients s) (m_clients s) (open_fds s) (<[i := (t, Held c)]> (tasks s)) (terminated s))
  | None => None
  end.

Definition thread_ends (c : nat) (s : server) : option server :=
  if existsb (by_thread (HandlerThread c)) (tasks s) then None
  else
    d ← clients s !! c;
    Some (Server (<[c := set_running false d]> (clients s)) (m_clients s) (open_fds s) (tasks s) (terminated s)).

(** [cleanup], up to its loop. *)
Definition cleanup (s : server) : server :=
  Server (clients s) ∅ (open_fds s)
    (tasks s ++ map (fun '(_, c) => (Main, Extracted c)) (map_to_list (m_clients s))) (terminated s).

Definition server_exec (e : server_event) (s : server) : option server :=
  if terminated s then None
  else
    match e with
    | Accept new_fd => accept new_fd s
    | StartHandler c => start_handler c s
    | FindClient t id => find_client t id s
    | Broadcast t => broadcast t s
    | Disconnect t id => disconnect_client t id s
    | RunTask i => run_task i s
    | Lock i => lock_client i s
    | ThreadEnds c => thread_ends c s
    | Cleanup => Some (cleanup s)
    end.

Inductive server_step (s s' : server) : Prop :=
  | ServerStep e : server_exec e s = Some s' -> server_step s s'.

Fixpoint server_exec_all (es : list server_event) (s : server) : option server :=
  match es with
  | [] => Some s
  | e :: es => s' ← server_exec e s; server_exec_all es s'
  end.

Lemma server_exec_all_run es s s' : server_exec_all es s = Some s' -> rtc server_step s s'.
Proof.
  revert s. induction es as [|e es IH]; intros s E; cbn in E; [by simplify_eq|].
  destruct (server_exec e s) as [s1|] eqn:E1; [|done]. eapply rtc_l; [by eapply ServerStep|by apply IH].
Qed.

(** ** The invariant *)

Definition owns (z : Z) (c : connection_data) : bool := fd c =? z.
Definition closing (z : Z) (k : thread * task) : bool :=
  match k.2 with Exchanged _ z' => z' =? z | _ => false end.

(** How many owners a descriptor has. *)
Definition owners (z : Z) (s : server) : nat := (countb (owns z) (clients s) + countb (closing z) (tasks s))%nat.

Record server_ok (s : server) : Prop := {
  ok_owners : forall z, 0 <= z -> owners z s = if decide (z ∈ open_fds s) then 1%nat else 0%nat;
  ok_open : forall z, z ∈ open_fds s -> 0 <= z;
  ok_table : forall id c, m_clients s !! id = Some c -> 0 <= id /\ exists d, clients s !! c = Some d /\ fd d = id;
  ok_extracted : forall t c, (t, Extracted c) ∈ tasks s -> forall id, m_clients s !! id ≠ Some c;
  ok_tasks : forall t k, (t, k) ∈ tasks s -> (task_client k < length (clients s))%nat;
  ok_sending : forall t c z, (t, Sending c z) ∈ tasks s ->
    0 <= z /\ ((exists d, clients s !! c = Some d /\ fd d = z) \/ exists t', (t', Exchanged c z) ∈ tasks s);
  ok_exchanged : forall t c z, (t, Exchanged c z) ∈ tasks s -> 0 <= z;
  ok_reachable : forall c d, clients s !! c = Some d -> 0 <= fd d ->
    m_clients s !! fd d = Some c \/ exists t, (t, Extracted c) ∈ tasks s
}.

Lemma make_server_clients_ok : server_ok make_server_clients.
Proof. split; cbn; try done; try (by intros; set_solver). Qed.

(** *** Lists of tasks *)

Lemma elem_of_insert_inv {A} (l : list A) i x y : y ∈ <[i := x]> l -> y = x \/ y ∈ l.
Proof.
  intros (j & Hj)%list_elem_of_lookup. destruct (decide (i = j)) as [<-|Hne].
  - apply list_lookup_insert_Some in Hj as [(_ & <- & _)|[? _]]; [by left|done].
  - rewrite list_lookup_insert_ne in Hj by done. right. by eapply list_elem_of_lookup_2.
Qed.

Lemma elem_of_insert_other {A} (l : list A) i x x' y : l !! i = Some x -> y ∈ l -> y ≠ x -> y ∈ <[i := x']> l.
Proof.
  intros Hi (j & Hj)%list_elem_of_lookup Hne. assert (i ≠ j) by (intros ->; congruence).
  apply (list_elem_of_lookup_2 _ j). by rewrite list_lookup_insert_ne.
Qed.

Lemma elem_of_insert_self {A} (l : list A) i x x' : l !! i = Some x -> x' ∈ <[i := x']> l.
Proof. intros Hi. apply (list_elem_of_lookup_2 _ i), list_lookup_insert_eq. by eapply lookup_lt_Some. Qed.

Lemma elem_of_delete_inv {A} (l : list A) i y : y ∈ delete i l -> y ∈ l.
Proof.
  rewrite delete_take_drop. intros [(j & Hj & _)%elem_of_take|Hd]%elem_of_app; [by eapply list_elem_of_lookup_2|].
  by eapply subseteq_drop.
Qed.

Lemma elem_of_delete_other {A} (l : list A) i x y : l !! i = Some x -> y ∈ l -> y ≠ x -> y ∈ delete i l.
Proof. intros Hi Hy Hne. rewrite (delete_Permutation l i x Hi) in Hy. by apply elem_of_cons in Hy as [|]. Qed.

Lemma countb_delete {A} (f : A -> bool) (l : list A) i x :
  l !! i = Some x -> (countb f (delete i l) + (if f x then 1 else 0) = countb f l)%nat.
Proof.
  revert i. induction l as [|z l IH]; intros [|i] Hi; simplify_eq/=; [lia|].
  specialize (IH i Hi). lia.
Qed.

(** *** The steps *)

(** Tasks that only hold or use a client come and go freely. *)
Lemma neutral_tasks_ok s ks b :
  server_ok s ->
  (forall z, countb (closing z) ks = countb (closing z) (tasks s)) ->
  (forall t k, (t, k) ∈ ks -> (t, k) ∈ tasks s \/
    (task_client k < length (clients s))%nat /\
    match k with
    | Held _ => True
    | Sending c z => 0 <= z /\ exists d, clients s !! c = Some d /\ fd d = z
    | _ => False
    end) ->
  (forall t k, (t, k) ∈ tasks s -> match k with Extracted _ | Exchanged _ _ => (t, k) ∈ ks | _ => True end) ->
  server_ok (Server (clients s) (m_clients s) (open_fds s) ks b).
Proof.
  intros [Ho Hop Ht Hx Htk Hs He Hr] Hc Hin Hout. split; cbn; try done.
  - intros z Hz. rewrite <- Ho by done. unfold owners. cbn. by rewrite Hc.
  - intros t c [Hk|[_ []]]%Hin. by eapply Hx.
  - intros t k [Hk|[Hk _]]%Hin; [by eapply Htk|done].
  - intros t c z [Hk|[_ [Hz Hk]]]%Hin; [|by split; [|left]].
    destruct (Hs _ _ _ Hk) as [Hz [Hd|[t' Hk']]]; (split; [done|]); [by left|].
    right. exists t'. by apply (Hout _ _ Hk').
  - intros t c z [Hk|[_ []]]%Hin. by eapply He.
  - intros c d Hd Hfd. destruct (Hr c d Hd Hfd) as [|[t Hk]]; [by left|]. right. exists t. by apply (Hout _ _ Hk).
Qed.

(** A client changes without its descriptor. *)
Lemma same_fd_ok s c d d' b :
  server_ok s -> clients s !! c = Some d -> fd d' = fd d ->
  server_ok (Server (<[c := d']> (clients s)) (m_clients s) (open_fds s) (tasks s) b).
Proof.
  intros [Ho Hop Ht Hx Htk Hs He Hr] Hd Hfd.
  assert (forall c0 d0, clients s !! c0 = Some d0 -> exists d1, <[c := d']> (clients s) !! c0 = Some d1 /\ fd d1 = fd d0) as Hfwd.
  { intros c0 d0 Hc0. destruct (decide (c = c0)) as [<-|]; [|exists d0; by rewrite list_lookup_insert_ne].
    exists d'. split; [apply list_lookup_insert_eq; by eapply lookup_lt_Some|congruence]. }
  assert (forall c0 d1, <[c := d']> (clients s) !! c0 = Some d1 -> exists d0, clients s !! c0 = Some d0 /\ fd d1 = fd d0) as Hbwd.
  { intros c0 d1 [(<- & <- & _)|[? ?]]%list_lookup_insert_Some; [by exists d|by exists d1]. }
  split; cbn; try done.
  - intros z Hz. rewrite <- Ho by done. unfold owners. cbn. pose proof (countb_insert (owns z) (clients s) c d d' Hd) as E.
    unfold owns in *. rewrite Hfd in E. lia.
  - intros id c0 Hc0. destruct (Ht id c0 Hc0) as (? & d0 & Hd0 & <-). split; [done|]. by apply Hfwd.
  - intros t k. rewrite length_insert. apply Htk.
  - intros t c0 z Hk. destruct (Hs _ _ _ Hk) as [Hz [(d0 & Hd0 & <-)|Hk']]; (split; [done|]); [|by right].
    left. by apply Hfwd.
  - intros c0 d1 (d0 & Hd0 & E)%Hbwd. rewrite E. by apply Hr.
Qed.

Lemma owned_open s c d : server_ok s -> clients s !! c = Some d -> 0 <= fd d -> fd d ∈ open_fds s.
Proof.
  intros Hok Hd Hfd. pose proof (ok_owners _ Hok (fd d) Hfd) as E. unfold owners in E.
  assert (0 < countb (owns (fd d)) (clients s))%nat by (eapply countb_pos; [exact Hd|apply Z.eqb_refl]).
  destruct (decide (fd d ∈ open_fds s)); [done|lia].
Qed.

Lemma exchanged_open s t c z : server_ok s -> (t, Exchanged c z) ∈ tasks s -> z ∈ open_fds s.
Proof.
  intros Hok Hk. pose proof (ok_owners _ Hok z (ok_exchanged _ Hok _ _ _ Hk)) as E. unfold owners in E.
  apply list_elem_of_lookup in Hk as [i Hi].
  assert (0 < countb (closing z) (tasks s))%nat by (eapply countb_pos; [exact Hi|apply Z.eqb_refl]).
  destruct (decide (z ∈ open_fds s)); [done|lia].
Qed.

Lemma not_registered s z : server_ok s -> z ∉ open_fds s -> m_clients s !! z = None.
Proof.
  intros Hok Hz. destruct (m_clients s !! z) as [c|] eqn:E; [|done]. exfalso. apply Hz.
  destruct (ok_table _ Hok z c E) as (H0 & d & Hd & <-). by eapply owned_open.
Qed.

(** New tasks at the end of the list. *)
Lemma in_snoc {A} (l : list A) x y : y ∈ l ++ [x] <-> y ∈ l \/ y = x.
Proof. by rewrite elem_of_app, list_elem_of_singleton. Qed.

Lemma accept_ok new_fd s s' : server_ok s -> accept new_fd s = Some s' -> server_ok s'.
Proof.
  intros Hok E. unfold accept in E. destruct (Z.ltb_spec new_fd 0) as [|Hpos]; [done|].
  case_bool_decide as Hnew; [done|]. cbn [orb] in E. rewrite not_registered in E by done. injection E as <-.
  pose proof Hok as [Ho Hop Ht Hx Htk Hs He Hr]. split; cbn.
  - intros z Hz. unfold owners. cbn. rewrite !countb_app. cbn. specialize (Ho z Hz). unfold owners in Ho.
    unfold owns at 2. cbn. assert (z ∈ {[new_fd]} ∪ open_fds s <-> z = new_fd \/ z ∈ open_fds s) as Hiff
      by (by rewrite elem_of_union, elem_of_singleton).
    destruct (Z.eqb_spec new_fd z) as [Heq|Hne], (decide (z ∈ open_fds s)) as [Hd|Hd],
      (decide (z ∈ {[new_fd]} ∪ open_fds s)) as [Hd'|Hd']; rewrite Hiff in Hd'; try lia; exfalso; intuition congruence.
  - intros z [->%elem_of_singleton|Hz]%elem_of_union; [done|by apply Hop].
  - intros id c [[<- <-]|[Hne Hc]]%lookup_insert_Some.
    + split; [done|]. eexists. split; [by apply list_lookup_middle|done].
    + destruct (Ht id c Hc) as (? & d & Hd & Hid). split; [done|]. exists d. split; [by apply lookup_app_l_Some|done].
  - intros t c [Hk|[=]]%in_snoc id [[_ <-]|[_ Hc]]%lookup_insert_Some; [|by apply (Hx t c Hk id)].
    apply Htk in Hk. cbn in Hk. lia.
  - intros t k Hk%in_snoc. rewrite length_app. cbn. destruct Hk as [Hk|[= -> ->]]; [specialize (Htk _ _ Hk)|cbn]; lia.
  - intros t c z [Hk|[=]]%in_snoc.
    destruct (Hs _ _ _ Hk) as [Hz [(d & Hd & Hfd)|[t' Hk']]]; (split; [done|]).
    + left. exists d. split; [by apply lookup_app_l_Some|done].
    + right. exists t'. apply in_snoc. by left.
  - intros t c z [Hk|[=]]%in_snoc. by eapply He.
  - intros c d [Hd|[Hlen Hd]]%lookup_app_Some Hfd.
    + destruct (Hr c d Hd Hfd) as [Hc|[t Hk]].
      * left. apply lookup_insert_Some. right. split; [|done]. intros Heq. apply Hnew. rewrite Heq. by eapply owned_open.
      * right. exists t. apply in_snoc. by left.
    + apply list_lookup_singleton_Some in Hd as [Hc <-]. left. cbn. assert (c = length (clients s)) as -> by lia.
      by rewrite lookup_insert_eq.
Qed.

Lemma disconnect_ok t id s s' : server_ok s -> disconnect_client t id s = Some s' -> server_ok s'.
Proof.
  intros Hok E. unfold disconnect_client in E. destruct (negb (alive s t)); [done|].
  destruct (m_clients s !! id) as [c|] eqn:Ec; [|by injection E as <-]. injection E as <-.
  destruct Hok as [Ho Hop Ht Hx Htk Hs He Hr]. destruct (Ht _ _ Ec) as (_ & dc & Hdc & Hid). split; cbn; try done.
  - intros z Hz. rewrite <- Ho by done. unfold owners. cbn. rewrite countb_app. cbn. lia.
  - intros id' c' [_ Hc']%lookup_delete_Some. by apply Ht.
  - intros t' c' [Hk|[= -> ->]]%in_snoc id' [Hne Hc']%lookup_delete_Some; [by apply (Hx t' c' Hk id')|].
    destruct (Ht _ _ Hc') as (_ & d & Hd & Hid'). congruence.
  - intros t' k [Hk|[= -> ->]]%in_snoc; [by eapply Htk|]. by eapply lookup_lt_Some.
  - intros t' c' z [Hk|[=]]%in_snoc.
    destruct (Hs _ _ _ Hk) as [Hz [Hd|[t1 Hk1]]]; (split; [done|]); [by left|].
    right. exists t1. apply in_snoc. by left.
  - intros t' c' z [Hk|[=]]%in_snoc. by eapply He.
  - intros c' d Hd Hfd. destruct (Hr c' d Hd Hfd) as [Hc|[t1 Hk1]].
    + destruct (decide (id = fd d)) as [->|Hne]; [|left; by apply lookup_delete_Some].
      rewrite Hc in Ec. injection Ec as ->. right. exists t. apply in_snoc. by right.
    + right. exists t1. apply in_snoc. by left.
Qed.

Lemma exchange_ok i t c s s' :
  server_ok s -> tasks s !! i = Some (t, Extracted c) -> close_exchange i t c s = Some s' -> server_ok s'.
Proof.
  intros Hok Hi E. unfold close_exchange in E. destruct (clients s !! c) as [d|] eqn:Ed; [|done]. cbn in E.
  pose proof (list_elem_of_lookup_2 _ _ _ Hi) as Hin.
  destruct Hok as [Ho Hop Ht Hx Htk Hs He Hr]. destruct (Z.ltb_spec (fd d) 0) as [Hneg|Hpos]; injection E as <-.
  - split; cbn; try done.
    + intros z Hz. rewrite <- Ho by done. unfold owners. cbn.
      pose proof (countb_insert (closing z) (tasks s) i _ (t, Held c) Hi) as E. cbn in E. lia.
    + intros t' c' [[=]|Hk]%elem_of_insert_inv. by eapply Hx.
    + intros t' k [[= -> ->]|Hk]%elem_of_insert_inv; [by apply (Htk _ _ Hin)|by eapply Htk].
    + intros t' c' z [[=]|Hk]%elem_of_insert_inv.
      destruct (Hs _ _ _ Hk) as [Hz [Hd|[t1 Hk1]]]; (split; [done|]); [by left|].
      right. exists t1. by eapply elem_of_insert_other.
    + intros t' c' z [[=]|Hk]%elem_of_insert_inv. by eapply He.
    + intros c' d' Hd' Hfd. destruct (Hr c' d' Hd' Hfd) as [Hc|[t1 Hk1]]; [by left|]. right. exists t1.
      eapply elem_of_insert_other; [done..|]. intros [= -> ->]. rewrite Ed in Hd'. injection Hd' as <-. lia.
  - split; cbn; try done.
    + intros z Hz. rewrite <- Ho by done. unfold owners. cbn.
      pose proof (countb_insert (closing z) (tasks s) i _ (t, Exchanged c (fd d)) Hi) as E1.
      pose proof (countb_insert (owns z) (clients s) c d (set_fd (-1) d) Ed) as E2. unfold owns, closing in *.
      assert ((-1 =? z) = false) as Hneg by lia. cbn [snd set_fd fd] in E1, E2. rewrite Hneg in E2. lia.
    + intros id c' Hc'. destruct (Ht id c' Hc') as (Hid & d' & Hd' & Efd). split; [done|].
      assert (c ≠ c') by (intros <-; by apply (Hx t c Hin id)). exists d'. by rewrite list_lookup_insert_ne.
    + intros t' c' [[=]|Hk]%elem_of_insert_inv. by eapply Hx.
    + intros t' k. rewrite length_insert. intros [[= -> ->]|Hk]%elem_of_insert_inv; [by apply (Htk _ _ Hin)|by eapply Htk].
    + intros t' c' z [[=]|Hk]%elem_of_insert_inv.
      destruct (Hs _ _ _ Hk) as [Hz [(d' & Hd' & Hfd)|[t1 Hk1]]]; (split; [done|]).
      * destruct (decide (c = c')) as [<-|Hne]; [|left; exists d'; by rewrite list_lookup_insert_ne].
        right. exists t. rewrite Ed in Hd'. injection Hd' as ->. rewrite Hfd. by eapply elem_of_insert_self.
      * right. exists t1. by eapply elem_of_insert_other.
    + intros t' c' z [[= -> -> ->]|Hk]%elem_of_insert_inv; [done|by eapply He].
    + intros c' d' [(<- & <- & _)|[Hne Hd']]%list_lookup_insert_Some Hfd; [by cbn in Hfd|].
      destruct (Hr c' d' Hd' Hfd) as [Hc|[t1 Hk1]]; [by left|]. right. exists t1.
      eapply elem_of_insert_other; [done..|]. intros [= -> ->]. done.
Qed.

Lemma close_ok i t c z s s' :
  server_ok s -> tasks s !! i = Some (t, Exchanged c z) -> close_descriptor i t c z s = Some s' -> server_ok s'.
Proof.
  intros Hok Hi E. unfold close_descriptor in E. destruct (existsb (sending_to c) (tasks s)) eqn:Elock; [done|]. injection E as <-.
  pose proof (list_elem_of_lookup_2 _ _ _ Hi) as Hin. pose proof (exchanged_open s t c z Hok Hin) as Hopen.
  destruct Hok as [Ho Hop Ht Hx Htk Hs He Hr]. pose proof (He _ _ _ Hin) as Hz.
  assert (Hcount : forall y, 0 <= y -> owners y (Server (clients s) (m_clients s) (open_fds s ∖ {[z]})
    (<[i := (t, Held c)]> (tasks s)) (terminated s)) = if decide (y ∈ open_fds s ∖ {[z]}) then 1%nat else 0%nat).
  { intros y Hy. specialize (Ho y Hy). unfold owners in *. cbn.
    pose proof (countb_insert (closing y) (tasks s) i _ (t, Held c) Hi) as E. unfold closing in *. cbn in E.
    assert (y ∈ open_fds s ∖ {[z]} <-> y ∈ open_fds s /\ y ≠ z) as Hiff
      by (by rewrite elem_of_difference, elem_of_singleton).
    destruct (Z.eqb_spec z y) as [Heq|Hne], (decide (y ∈ open_fds s)) as [Hd|Hd],
      (decide (y ∈ open_fds s ∖ {[z]})) as [Hd'|Hd']; rewrite Hiff in Hd'; try lia; exfalso; intuition congruence. }
  split; cbn; try done.
  - intros y [Hy _]%elem_of_difference. by apply Hop.
  - intros t' c' [[=]|Hk]%elem_of_insert_inv. by eapply Hx.
  - intros t' k [[= -> ->]|Hk]%elem_of_insert_inv; [by apply (Htk _ _ Hin)|by eapply Htk].
  - intros t' c' y [[=]|Hk]%elem_of_insert_inv.
    destruct (Hs _ _ _ Hk) as [Hy [Hd|[t1 Hk1]]]; (split; [done|]); [by left|].
    right. exists t1. eapply elem_of_insert_other; [done..|]. intros [= -> -> ->].
    apply not_true_iff_false in Elock. apply Elock. apply existsb_exists. exists (t', Sending c z).
    split; [by apply list_elem_of_In|]. apply Nat.eqb_refl.
  - intros t' c' y [[=]|Hk]%elem_of_insert_inv. by eapply He.
  - intros c' d Hd Hfd. destruct (Hr c' d Hd Hfd) as [Hc|[t1 Hk1]]; [by left|]. right. exists t1.
    by eapply elem_of_insert_other.
Qed.

Lemma cleanup_ok s : server_ok s -> server_ok (cleanup s).
Proof.
  intros [Ho Hop Ht Hx Htk Hs He Hr].
  assert (Hin : forall t k, (t, k) ∈ tasks (cleanup s) <->
    (t, k) ∈ tasks s \/ exists id c, m_clients s !! id = Some c /\ t = Main /\ k = Extracted c).
  { intros t k. cbn. rewrite elem_of_app. f_equiv. rewrite list_elem_of_In, in_map_iff. split.
    - intros ([id c] & [= <- <-] & Hm%list_elem_of_In%elem_of_map_to_list). by exists id, c.
    - intros (id & c & Hm & -> & ->). exists (id, c). split; [done|]. by apply list_elem_of_In, elem_of_map_to_list. }
  split; try done.
  - intros z Hz. rewrite <- Ho by done. unfold owners. cbn. rewrite countb_app.
    enough (countb (closing z) (map (fun '(_, c) => (Main, Extracted c)) (map_to_list (m_clients s))) = 0%nat) by lia.
    apply countb_zero. intros j x Hj. apply list_lookup_fmap_Some in Hj as ([id c] & -> & _). done.
  - intros t k [Hk|(id & c & Hc & _ & ->)]%Hin; [by eapply Htk|]. cbn [task_client].
    destruct (Ht _ _ Hc) as (_ & d & Hd & _). by eapply lookup_lt_Some.
  - intros t c z [Hk|(id & c' & _ & _ & [=])]%Hin.
    destruct (Hs _ _ _ Hk) as [Hz [Hd|[t1 Hk1]]]; (split; [done|]); [by left|]. right. exists t1. apply Hin. by left.
  - intros t c z [Hk|(id & c' & _ & _ & [=])]%Hin. by eapply He.
  - intros c d Hd Hfd. right. destruct (Hr c d Hd Hfd) as [Hc|[t Hk]].
    + exists Main. apply Hin. right. by exists (fd d), c.
    + exists t. apply Hin. by left.
Qed.

Lemma start_handler_ok c s s' : server_ok s -> start_handler c s = Some s' -> server_ok s'.
Proof.
  intros Hok E. unfold start_handler in E. destruct (clients s !! c) as [d|] eqn:Ed; [|done]. cbn in E.
  destruct (_ && _); [|done]. injection E as <-. by eapply same_fd_ok.
Qed.

(** New pointers to clients. *)
Lemma hold_ok s ks b :
  server_ok s -> (forall t k, (t, k) ∈ ks -> exists c, k = Held c /\ (c < length (clients s))%nat) ->
  server_ok (Server (clients s) (m_clients s) (open_fds s) (tasks s ++ ks) b).
Proof.
  intros Hok Hks. apply neutral_tasks_ok; [done|..].
  - intros z. rewrite countb_app. enough (countb (closing z) ks = 0%nat) by lia.
    apply countb_zero. intros i [t k] Hi. by destruct (Hks t k) as (c & -> & _); [eapply list_elem_of_lookup_2|].
  - intros t k [Hk|Hk]%elem_of_app; [by left|]. destruct (Hks t k Hk) as (c & -> & ?). by right.
  - intros t k Hk. destruct k; try done; apply elem_of_app; by left.
Qed.

Lemma registered_client s id c : server_ok s -> m_clients s !! id = Some c -> (c < length (clients s))%nat.
Proof. intros Hok Hc. destruct (ok_table _ Hok _ _ Hc) as (_ & d & Hd & _). by eapply lookup_lt_Some. Qed.

Lemma find_ok t id s s' : server_ok s -> find_client t id s = Some s' -> server_ok s'.
Proof.
  intros Hok E. unfold find_client in E. destruct (negb (alive s t)); [done|].
  destruct (m_clients s !! id) as [c|] eqn:Ec; injection E as <-; [|done]. apply hold_ok; [done|].
  intros t' k [= -> ->]%list_elem_of_singleton. exists c. split; [done|by eapply registered_client].
Qed.

Lemma broadcast_ok t s s' : server_ok s -> broadcast t s = Some s' -> server_ok s'.
Proof.
  intros Hok E. unfold broadcast in E. destruct (negb (alive s t)); [done|]. injection E as <-. apply hold_ok; [done|].
  intros t' k ([id c] & [= -> ->] & Hm%elem_of_map_to_list)%list_elem_of_fmap. exists c.
  split; [done|by eapply registered_client].
Qed.

(** A task [(t, k)] that holds or uses a client becomes another of that kind. *)
Lemma replace_neutral_ok i t k k' s :
  server_ok s -> tasks s !! i = Some (t, k) -> task_client k' = task_client k ->
  (forall z, closing z (t, k) = false) ->
  match k with Held _ | Sending _ _ => True | _ => False end ->
  match k' with
  | Held _ => True
  | Sending c z => 0 <= z /\ exists d, clients s !! c = Some d /\ fd d = z
  | _ => False
  end ->
  server_ok (Server (clients s) (m_clients s) (open_fds s) (<[i := (t, k')]> (tasks s)) (terminated s)).
Proof.
  intros Hok Hi Hc Hcl Hk Hk'. pose proof (list_elem_of_lookup_2 _ _ _ Hi) as Hin. apply neutral_tasks_ok; [done|..].
  - intros z. pose proof (countb_insert (closing z) (tasks s) i _ (t, k') Hi) as E. rewrite Hcl in E.
    assert (closing z (t, k') = false) as E' by (by destruct k'). rewrite E' in E. lia.
  - intros t' k1 [[= -> ->]|Hk1]%elem_of_insert_inv; [|by left]. right. split; [|done]. rewrite Hc. by apply (ok_tasks _ Hok _ _ Hin).
  - intros t' k1 Hk1. destruct k1; try done; (eapply elem_of_insert_other; [done..|]); intros [= -> <-]; done.
Qed.

Lemma drop_ok i t c s s' :
  server_ok s -> tasks s !! i = Some (t, Held c) -> drop_client i t c s = Some s' -> server_ok s'.
Proof.
  intros Hok Hi E. unfold drop_client in E.
  assert (forall b, server_ok (Server (clients s) (m_clients s) (open_fds s) (delete i (tasks s)) b)) as Hdrop.
  { intros b. apply neutral_tasks_ok; [done|..].
    - intros z. pose proof (countb_delete (closing z) (tasks s) i _ Hi) as Ec. cbn in Ec. lia.
    - intros t' k Hk%elem_of_delete_inv. by left.
    - intros t' k Hk. destruct k; try done; by eapply elem_of_delete_other. }
  destruct (_ || _); [by injection E as <-|]. destruct (clients s !! c) as [d|] eqn:Ed; [|done]. cbn in E.
  destruct (negb (m_connection d)); [by injection E as <-|]. case_bool_decide; [by injection E as <-|].
  destruct (running d); [done|]. injection E as <-.
  by apply (same_fd_ok (Server (clients s) (m_clients s) (open_fds s) (delete i (tasks s)) (terminated s)) c d).
Qed.

Lemma server_exec_ok e s s' : server_ok s -> server_exec e s = Some s' -> server_ok s'.
Proof.
  intros Hok E. unfold server_exec in E. destruct (terminated s); [done|].
  destruct e as [z|c|t id|t|t id|i|i|c|].
  - by eapply accept_ok.
  - by eapply start_handler_ok.
  - by eapply find_ok.
  - by eapply broadcast_ok.
  - by eapply disconnect_ok.
  - unfold run_task in E. destruct (tasks s !! i) as [[t [c|c|c z|c z]]|] eqn:Ei; [| | | |done].
    + by eapply drop_ok.
    + by eapply exchange_ok.
    + by eapply close_ok.
    + injection E as <-. by eapply replace_neutral_ok.
  - unfold lock_client in E. destruct (tasks s !! i) as [[t [c|c|c z|c z]]|] eqn:Ei; try done.
    destruct (existsb _ _); [done|]. destruct (clients s !! c) as [d|] eqn:Ed; [|done]. cbn in E.
    destruct (Z.ltb_spec (fd d) 0); injection E as <-; [done|]. eapply replace_neutral_ok; try done.
    split; [done|]. by exists d.
  - unfold thread_ends in E. destruct (existsb _ _); [done|]. destruct (clients s !! c) as [d|] eqn:Ed; [|done].
    injection E as <-. by eapply same_fd_ok.
  - injection E as <-. by apply cleanup_ok.
Qed.

Lemma server_reachable_ok s : rtc server_step make_server_clients s -> server_ok s.
Proof.
  intros Hrun. eapply (rtc_invariant server_step server_ok); [|exact Hrun|apply make_server_clients_ok].
  intros s1 s2 Hok [e E]. by eapply server_exec_ok.
Qed.

(** ** Properties *)

(** C23: the sockets of the clients, whatever the threads do: a registered
    client's descriptor is open, and the kernel cannot hand it out again, so
    that the duplicate branch of [start_connection_handler] is dead; a
    descriptor about to be closed is open and nobody else's, so that it is
    closed once; [send_data] uses an open descriptor for as long as it holds
    the lock; and once every client was removed and closed none is left
    open. *)
Theorem client_sockets_closed_once s (Hrun : rtc server_step make_server_clients s) :
  (forall id c, m_clients s !! id = Some c -> id ∈ open_fds s) /\
  (forall i t c z, tasks s !! i = Some (t, Exchanged c z) ->
    z ∈ open_fds s /\ m_clients s !! z = None /\
    (forall c' d, clients s !! c' = Some d -> fd d ≠ z) /\
    (forall j t' c', tasks s !! j = Some (t', Exchanged c' z) -> j = i)) /\
  (forall i t c z, tasks s !! i = Some (t, Sending c z) -> z ∈ open_fds s) /\
  (m_clients s = ∅ ->
   (forall i t c z, tasks s !! i = Some (t, Extracted c) \/ tasks s !! i = Some (t, Exchanged c z) -> False) ->
   open_fds s = ∅).
Proof.
  pose proof (server_reachable_ok s Hrun) as Hok. split_and!.
  - intros id c Hc. destruct (ok_table _ Hok _ _ Hc) as (H0 & d & Hd & <-). by eapply owned_open.
  - intros i t c z Hi. pose proof (list_elem_of_lookup_2 _ _ _ Hi) as Hin.
    pose proof (exchanged_open _ _ _ _ Hok Hin) as Hz. pose proof (ok_exchanged _ Hok _ _ _ Hin) as H0.
    pose proof (ok_owners _ Hok z H0) as Ho. rewrite decide_True in Ho by done. unfold owners in Ho.
    pose proof (countb_delete (closing z) (tasks s) i _ Hi) as Hc.
    assert (closing z (t, Exchanged c z) = true) as Hcl by apply Z.eqb_refl. rewrite Hcl in Hc.
    assert (Hnone : forall c' d, clients s !! c' = Some d -> fd d ≠ z).
    { intros c' d Hd E. assert (0 < countb (owns z) (clients s))%nat by (eapply countb_pos; [exact Hd|by apply Z.eqb_eq]). lia. }
    split_and!; [done| |done|].
    + destruct (m_clients s !! z) as [c'|] eqn:E; [|done]. destruct (ok_table _ Hok _ _ E) as (_ & d & Hd & Hfd).
      by destruct (Hnone _ _ Hd).
    + intros j t' c' Hj. destruct (decide (j = i)) as [|Hne]; [done|]. exfalso.
      assert (exists j', delete i (tasks s) !! j' = Some (t', Exchanged c' z)) as [j' Hj'].
      { destruct (decide (j < i)%nat); [exists j; by rewrite list_lookup_delete_lt|].
        exists (j - 1)%nat. rewrite list_lookup_delete_ge by lia. by replace (S (j - 1)) with j by lia. }
      assert (0 < countb (closing z) (delete i (tasks s)))%nat by (eapply countb_pos; [exact Hj'|apply Z.eqb_refl]). lia.
  - intros i t c z Hi. apply list_elem_of_lookup_2 in Hi. destruct (ok_sending _ Hok _ _ _ Hi) as [H0 [(d & Hd & <-)|[t' Hx]]].
    + by eapply owned_open.
    + by eapply exchanged_open.
  - intros Hm Ht. apply set_eq. intros z. split; [|by intros ?%elem_of_empty]. intros Hz. exfalso.
    pose proof (ok_open _ Hok z Hz) as H0. pose proof (ok_owners _ Hok z H0) as Ho. rewrite decide_True in Ho by done.
    unfold owners in Ho. assert (countb (closing z) (tasks s) = 0%nat) as Ez.
    { apply countb_zero. intros i [t k] Hi. destruct k; try done. by destruct (Ht i t client fd0); right. }
    assert (countb (owns z) (clients s) = 0%nat) as Eo; [|lia].
    apply countb_zero. intros c d Hd. unfold owns. apply Z.eqb_neq. intros E.
    destruct (ok_reachable _ Hok c d Hd) as [Hc|[t Hx]]; [lia|by rewrite Hm in Hc|].
    apply list_elem_of_lookup in Hx as [i Hi]. apply (Ht i t c 0). by left.
Qed.

(** ** Runs *)

Definition server_after (es : list server_event) : server :=
  default make_server_clients (server_exec_all es make_server_clients).

Lemma server_after_run es :
  is_Some (server_exec_all es make_server_clients) -> rtc server_step make_server_clients (server_after es).
Proof. intros [s E]. unfold server_after. rewrite E. by eapply server_exec_all_run. Qed.

(** A client is registered and its handler started. *)
Definition registration (new_fd : Z) (client : nat) : list server_event :=
  [Accept new_fd; StartHandler client; RunTask 0].

(** The event loop is about to close descriptor 7 while a handler sends to 8. *)
Definition closing_run : list server_event :=
  registration 7 0 ++ registration 8 1 ++
  [FindClient (HandlerThread 0) 8; Lock 0; Disconnect Main 7; RunTask 1].

Lemma client_sockets_closed_once_witness :
  tasks (server_after closing_run) = [(HandlerThread 0, Sending 1 8); (Main, Exchanged 0 7)] /\
  7 ∈ open_fds (server_after closing_run) /\ 8 ∈ open_fds (server_after closing_run).
Proof.
  destruct (client_sockets_closed_once (server_after closing_run)) as (_ & Hx & Hs & _);
    [apply server_after_run; vm_compute; by eexists|].
  split_and!; [by vm_compute|by apply (Hx 1%nat Main 0%nat)|by apply (Hs 0%nat (HandlerThread 0) 1%nat)].
Defined.

(** A reply fails: the handler's own thread disconnects its client. *)
Definition failed_reply : list server_event :=
  registration 7 0 ++
  [FindClient (HandlerThread 0) 7; Lock 0; RunTask 0; (* send_data returns false *)
   Disconnect (HandlerThread 0) 7; RunTask 1; RunTask 1; RunTask 1; (* disconnect_client *)
   RunTask 0].                                                     (* the end of reply *)

(** A handler whose own reply cannot be sent destroys itself on its own
    thread: [reply] removes the client from the table and then drops the last
    pointer to it, the destructor joins the thread it runs on, and the
    exception of that join leaves a destructor. *)
Theorem failed_reply_terminates_the_server :
  exists s, rtc server_step make_server_clients s /\ terminated s = true /\
    Forall (fun e => match e with
      | FindClient t _ | Disconnect t _ => t = HandlerThread 0
      | _ => True
      end) failed_reply.
Proof.
  exists (server_after failed_reply). split; [apply server_after_run; vm_compute; by eexists|].
  split; [by vm_compute|by repeat constructor].
Qed.

(** Client 7 is closed while another handler still points to it; a new client
    gets the descriptor. *)
Definition reused_descriptor : list server_event :=
  registration 7 0 ++ registration 8 1 ++
  [Broadcast (HandlerThread 1);
   Disconnect Main 7; RunTask 2; RunTask 2; RunTask 2]        (* closed by the event loop *)
  ++ [Accept 7; StartHandler 2; RunTask 2].

(** Handlers name their client by its descriptor: one that is still running
    a command when its client is closed finds, under the same number, the
    client accepted next, and replies to it (or shuts it down). *)
Theorem reply_reaches_another_client :
  exists s s' d, rtc server_step make_server_clients s /\
    clients s !! 0%nat = Some d /\ running d = true /\ fd d = -1 /\
    server_exec (FindClient (HandlerThread 0) (unique_id d)) s = Some s' /\
    (HandlerThread 0, Held 2) ∈ tasks s'.
Proof.
  exists (server_after reused_descriptor). eexists. eexists.
  split; [apply server_after_run; vm_compute; by eexists|].
  split; [by vm_compute|]. split; [done|]. split; [done|]. split; [by vm_compute|].
  apply (list_elem_of_lookup_2 _ 2). by vm_compute.
Qed.
