(* ===== verification/ServerLoop.v ===== *)
(** The event loop at work on the table of clients ([samples/chat/server.h]):
    the operations of Server.v's actions on the table of ServerClients.v, with
    nothing of another thread between their sections: handlers' threads make
    no call, and [receive_data] always returns.  Each is the sequence
    of sections the function goes through, so that what it does is also a run
    of [server_step]; the theorems of ServerClients.v hold in between.

    A call that drops the last pointer to a client waits for the client's
    thread, which ends there, and tells the other clients ([release_pointer]); so does
    the start of a handler ([send_greetings]).  Who does not receive such a message is
    disconnected, and its departure told in turn: [release_nested] has fuel
    for three levels, which is enough ([release_last]), because one action
    finds the same sockets able to receive throughout ([ans_sent]).  The loop
    of [broadcast] takes one client after the other.  Exceptions for want of
    memory, of [std::make_shared] and of the [emplace], are left out. *)

From S2P Require Import Prelude System Text Server ServerClients.

(** ** Operations *)

(** [add_to_epoll], for what [epoll_ctl] returns. *)
Definition add_to_epoll (ctl : Z) : bool := negb (ctl <? 0).

(** [close_connection], by the task [i] that is about to call it. *)
Definition close_connection (i : nat) (s : server) : option server :=
  s1 ← run_task i s;
  match tasks s1 !! i with
  | Some (_, Exchanged _ _) => run_task i s1
  | _ => Some s1
  end.

(** A [client_ptr] goes out of scope; when it was the last, the handler's
    destructor waits for its thread to end. *)
Definition drop_pointer (i : nat) (s : server) : option server :=
  match tasks s !! i with
  | Some (t, Held c) =>
      match drop_client i t c s with
      | Some s' => Some s'
      | None => s1 ← thread_ends c s; drop_client i t c s1
      end
  | _ => None
  end.

Fixpoint repeat_at (f : nat -> server -> option server) (ix : list nat) (s : server) : option server :=
  match ix with
  | [] => Some s
  | i :: ix => s1 ← f i s; repeat_at f ix s1
  end.

Definition has_handler (s : server) (c : nat) : bool :=
  match clients s !! c with Some d => m_connection d | None => false end.

Section sending.
(** To which descriptors the loop of [send_data] succeeds, during one action. *)
Context (sent : Z -> bool).

(** What follows drops pointers, which may call [broadcast] again. *)
Section with_release.
Context (release : nat -> server -> option server).

(** The whole of [disconnect_client]. *)
Definition disconnect (t : thread) (id : Z) (s : server) : option server :=
  s1 ← disconnect_client t id s;
  match m_clients s !! id with
  | None => Some s1
  | Some _ => let i := length (tasks s) in s2 ← close_connection i s1; release i s2
  end.

(** [send_data] to the client of task [i], and [disconnect_client] when it
    fails, with what the caller names the client by: one round of the loop of
    [broadcast], and [reply]. *)
Definition send_or_disconnect (name : connection_data -> Z) (t : thread) (i : nat) (s : server) : option server :=
  s1 ← lock_client i s;
  match tasks s1 !! i with
  | Some (_, Sending c z) =>
      s2 ← run_task i s1;
      if sent z then Some s2 else d ← clients s2 !! c; disconnect t (name d) s2
  | Some (_, Held c) => d ← clients s1 !! c; disconnect t (name d) s1
  | _ => None
  end.

(** [broadcast], a client after the other, and the destruction of its vector. *)
Definition broadcast_all (s : server) : option server :=
  let i := length (tasks s) in
  let n := length (map_to_list (m_clients s)) in
  s1 ← broadcast Main s;
  s2 ← repeat_at (send_or_disconnect fd Main) (seq i n) s1;
  repeat_at release (replicate n i) s2.
End with_release.

(** A [client_ptr] goes away, with the farewell that a handler's destructor
    broadcasts; no more than three levels nest, see [release_last]. *)
Fixpoint release_nested (fuel : nat) (i : nat) (s : server) : option server :=
  match fuel with
  | O => None
  | S fuel =>
      match tasks s !! i with
      | Some (_, Held c) =>
          s1 ← drop_pointer i s;
          if has_handler s c && negb (has_handler s1 c) then broadcast_all (release_nested fuel) s1 else Some s1
      | _ => None
      end
  end.
Definition release_pointer : nat -> server -> option server := release_nested 3.

(** How the start of a handler goes: its constructor may throw, before it
    starts the thread, and [epoll_ctl] may fail. *)
Inductive handler_start := HandlerThrows | HandlerStarted (ctl : Z).

(** The messages of the handler's constructor, to the client and to all. *)
Definition send_greetings (id : Z) (s : server) : option server :=
  s1 ← find_client Main id s;
  s2 ← (match m_clients s !! id with
        | Some _ => let i := length (tasks s) in s2 ← send_or_disconnect release_pointer (fun _ => id) Main i s1; release_pointer i s2
        | None => Some s1
        end);
  broadcast_all release_pointer s2.

(** [start_connection_handler], with its result; [epoll_ctl] fails on a
    descriptor that the greeting closed. *)
Definition start_connection_handler (new_fd : Z) (start : handler_start) (s : server) : option (bool * server) :=
  let i := length (tasks s) in
  let c := length (clients s) in
  s1 ← accept new_fd s;
  match tasks s1 !! i with
  | Some (_, Extracted _) => (* already registered *)
      s2 ← close_connection i s1; s3 ← release_pointer i s2; Some (false, s3)
  | _ =>
      match start with
      | HandlerThrows => s2 ← disconnect release_pointer Main new_fd s1; s3 ← release_pointer i s2; Some (false, s3)
      | HandlerStarted ctl =>
          s2 ← send_greetings new_fd s1;
          s3 ← start_handler c s2;
          if bool_decide (new_fd ∈ open_fds s3) && add_to_epoll ctl then s4 ← release_pointer i s3; Some (true, s4)
          else s4 ← disconnect release_pointer Main new_fd s3; s5 ← release_pointer i s4; Some (false, s5)
      end
  end.

(** [process_client_event] on the table; what it decides from the event and
    from [receive_data] is Server.v's. *)
Definition handle_client (id events : Z) (received : option bool) (s : server) : option server :=
  s1 ← find_client Main id s;
  match m_clients s !! id with
  | None => Some s1
  | Some _ =>
      s2 ← (if process_client_event events received then disconnect release_pointer Main id s1 else Some s1);
      release_pointer (length (tasks s)) s2
  end.

(** [cleanup] up to its descriptors: all clients are closed, then the table
    that was swapped out is destroyed. *)
Definition cleanup_clients (s : server) : option server :=
  let i := length (tasks s) in
  let n := length (map_to_list (m_clients s)) in
  s1 ← repeat_at close_connection (seq i n) (cleanup s);
  repeat_at release_pointer (replicate n i) s1.
End sending.

(** What the actions of [run] get from the kernel and from the sockets. *)
Record action_answers := Answers {
  ans_start : handler_start;
  ans_received : option bool;
  ans_sent : Z -> bool
}.

Definition perform (a : server_action) (ans : action_answers) (s : server) : option server :=
  match a with
  | StartConnection new_fd => r ← start_connection_handler (ans_sent ans) new_fd (ans_start ans) s; Some r.2
  | ProcessClient id events => handle_client (ans_sent ans) id events (ans_received ans) s
  | BroadcastShutdown => broadcast_all (ans_sent ans) (release_pointer (ans_sent ans)) s
  end.

Fixpoint perform_all (actions : list (server_action * action_answers)) (s : server) : option server :=
  match actions with
  | [] => Some s
  | (a, ans) :: actions => s1 ← perform a ans s; perform_all actions s1
  end.

(** A server's life: what [run] does, and the destructor. *)
Definition serve_and_close (m_listenFd : Z) (waits : list (list epoll_event + errno_t)) (answers : list action_answers)
    (last_sent : Z -> bool) : option server :=
  s ← perform_all (combine (run m_listenFd waits).1 answers) make_server_clients;
  cleanup_clients last_sent s.

(** ** Between two sections of the event loop *)

(** Who still points to client [c]. *)
Definition held (s : server) (c : nat) : Prop :=
  (exists id, m_clients s !! id = Some c) \/ exists t k, (t, k) ∈ tasks s /\ task_client k = c.

(** The event loop is the only one with tasks; the clients that someone points
    to are those with a handler, and perhaps [unmade], which has none yet. *)
Record alone (unmade : option nat) (s : server) : Prop := {
  alone_run : rtc server_step make_server_clients s;
  alone_live : terminated s = false;
  alone_tasks : forall t k, (t, k) ∈ tasks s -> t = Main /\ match k with Sending _ _ => False | _ => True end;
  alone_handlers : forall c d, clients s !! c = Some d -> running d = true -> m_connection d = true;
  alone_held : forall c, has_handler s c = true -> held s c;
  alone_made : forall c, held s c -> unmade ≠ Some c -> has_handler s c = true;
  alone_unmade : forall c, unmade = Some c -> has_handler s c = false
}.

(** An operation that ends, with these tasks and this table. *)
Definition leads_to (unmade : option nat) (ks : list (thread * task)) (table : gmap Z nat) (r : option server) : Prop :=
  exists s', r = Some s' /\ alone unmade s' /\ tasks s' = ks /\ m_clients s' = table.

Lemma leads_to_bind u ks table u' ks' table' r (f : server -> option server) :
  leads_to u ks table r ->
  (forall s, alone u s -> tasks s = ks -> m_clients s = table -> leads_to u' ks' table' (f s)) ->
  leads_to u' ks' table' (r ≫= f).
Proof. intros (s & -> & Ha & Hk & Ht) Hf. by apply Hf. Qed.

Lemma leads_to_some u s : alone u s -> leads_to u (tasks s) (m_clients s) (Some s).
Proof. intros Ha. by exists s. Qed.

Lemma alone_ok u s : alone u s -> server_ok s.
Proof. intros Ha. by apply server_reachable_ok, (alone_run _ _ Ha). Qed.

Lemma alone_step u s e s' :
  alone u s -> server_exec e s = Some s' -> rtc server_step make_server_clients s'.
Proof. intros Ha E. eapply rtc_r; [apply (alone_run _ _ Ha)|by eapply ServerStep]. Qed.

Lemma nobody_sends u s c : alone u s -> existsb (sending_to c) (tasks s) = false.
Proof.
  intros Ha. apply not_true_iff_false. intros ([t k] & Hin%list_elem_of_In & Hs)%existsb_exists.
  apply (alone_tasks _ _ Ha) in Hin as [_ Hin]. by destruct k.
Qed.

(** The test of [drop_client]: is this the last pointer? *)
Lemma held_spec s ks c :
  existsb (on_client c) ks || in_table s c = true <->
  (exists id, m_clients s !! id = Some c) \/ exists t k, (t, k) ∈ ks /\ task_client k = c.
Proof.
  unfold in_table. rewrite orb_true_iff, !existsb_exists. split.
  - intros [([t k] & Hin%list_elem_of_In & Hc%Nat.eqb_eq)|([id c'] & Hin%list_elem_of_In & Hc%Nat.eqb_eq)].
    + right. by exists t, k.
    + left. exists id. apply elem_of_map_to_list in Hin. congruence.
  - intros [[id Hid]|(t & k & Hin & Hc)].
    + right. exists (id, c). split; [by apply list_elem_of_In, elem_of_map_to_list|by apply Nat.eqb_eq].
    + left. exists (t, k). split; [by apply list_elem_of_In|by apply Nat.eqb_eq].
Qed.

Lemma held_mono s s' c :
  (forall id, m_clients s !! id = Some c -> m_clients s' !! id = Some c \/ exists t k, (t, k) ∈ tasks s' /\ task_client k = c) ->
  (forall t k, (t, k) ∈ tasks s -> task_client k = c -> exists t' k', (t', k') ∈ tasks s' /\ task_client k' = c) ->
  held s c -> held s' c.
Proof.
  intros Ht Hk [[id Hid]|(t & k & Hin & Hc)].
  - destruct (Ht _ Hid) as [|]; [left; by eexists|by right].
  - right. by eapply Hk.
Qed.

(** Clients change at most their descriptor. *)
Definition handler_of (d : connection_data) : bool * bool := (m_connection d, running d).
Definition same_handlers (s s' : server) : Prop :=
  forall c, handler_of <$> clients s' !! c = handler_of <$> clients s !! c.

Lemma same_handlers_refl s : same_handlers s s.
Proof. done. Qed.

Lemma same_handlers_has s s' c : same_handlers s s' -> has_handler s' c = has_handler s c.
Proof.
  intros Hs. specialize (Hs c). unfold has_handler. destruct (clients s' !! c), (clients s !! c); try done.
  by injection Hs as ? ?.
Qed.

Lemma same_handlers_insert s c d d' l :
  clients s !! c = Some d -> handler_of d' = handler_of d -> l = <[c := d']> (clients s) ->
  forall c', handler_of <$> l !! c' = handler_of <$> clients s !! c'.
Proof.
  intros E Hd -> c'. destruct (decide (c = c')) as [<-|]; [|by rewrite list_lookup_insert_ne].
  rewrite list_lookup_insert_eq by (by eapply lookup_lt_Some). rewrite E. cbn. by rewrite Hd.
Qed.

(** The tasks and the table change, the handlers do not. *)
Lemma alone_frame u s s' :
  alone u s -> rtc server_step make_server_clients s' -> terminated s' = false -> same_handlers s s' ->
  (forall t k, (t, k) ∈ tasks s' -> t = Main /\ match k with Sending _ _ => False | _ => True end) ->
  (forall c, has_handler s c = true -> held s c -> held s' c) ->
  (forall c, held s' c -> held s c) ->
  alone u s'.
Proof.
  intros Ha Hrun Hlive Hs Hk Hh Hh'. split; [done..| | | |].
  - intros c d' E Hr. specialize (Hs c). rewrite E in Hs. destruct (clients s !! c) as [d|] eqn:Ed; [|done].
    injection Hs as -> E2. apply (alone_handlers _ _ Ha c d Ed). congruence.
  - intros c. rewrite (same_handlers_has _ _ _ Hs). intros Hm. apply Hh; [done|by apply (alone_held _ _ Ha)].
  - intros c Hc Hu. rewrite (same_handlers_has _ _ _ Hs). apply (alone_made _ _ Ha); [by apply Hh'|done].
  - intros c Hu. rewrite (same_handlers_has _ _ _ Hs). by apply (alone_unmade _ _ Ha).
Qed.

(** One task of the event loop becomes another for the same client. *)
Lemma alone_replace u s s' i c k k' :
  alone u s -> rtc server_step make_server_clients s' -> terminated s' = false -> same_handlers s s' ->
  tasks s !! i = Some (Main, k) -> tasks s' = <[i := (Main, k')]> (tasks s) -> m_clients s' = m_clients s ->
  task_client k = c -> task_client k' = c -> match k' with Sending _ _ => False | _ => True end ->
  alone u s'.
Proof.
  intros Ha Hrun Hlive Hs Hi Hk Ht Hc Hc' Hsend.
  assert (Hmove : forall s1 s2 k1 k2, tasks s1 !! i = Some (Main, k1) -> tasks s2 = <[i := (Main, k2)]> (tasks s1) ->
    m_clients s2 = m_clients s1 -> task_client k1 = task_client k2 -> forall c', held s1 c' -> held s2 c').
  { intros s1 s2 k1 k2 H1 Hk2 Ht2 E c'. apply held_mono; [intros id Hid; left; congruence|]. intros t k0 Hin Hc0. rewrite Hk2.
    destruct (decide ((t, k0) = (Main, k1))) as [[= -> ->]|Hne].
    - exists Main, k2. split; [by eapply elem_of_insert_self|congruence].
    - exists t, k0. split; [by eapply elem_of_insert_other|done]. }
  eapply alone_frame; [done..| | |].
  - intros t k1. rewrite Hk. intros [[= -> ->]|Hin]%elem_of_insert_inv; [done|]. by apply (alone_tasks _ _ Ha).
  - intros c1 _. eapply Hmove; [done..|congruence].
  - intros c1. apply (Hmove s' s k' k); [|by rewrite Hk, list_insert_insert_eq, list_insert_id|done|congruence].
    rewrite Hk. apply list_lookup_insert_eq. by eapply lookup_lt_Some.
Qed.

Lemma task_client_known u s t k : alone u s -> (t, k) ∈ tasks s -> exists d, clients s !! task_client k = Some d.
Proof. intros Ha Hin. apply lookup_lt_is_Some, (ok_tasks _ (alone_ok _ _ Ha) _ _ Hin). Qed.

Lemma lone_step u s e s' : alone u s -> server_exec e s = Some s' -> terminated s' = terminated s ->
  rtc server_step make_server_clients s' /\ terminated s' = false.
Proof. intros Ha E Et. split; [by eapply alone_step|]. rewrite Et. by apply (alone_live _ _ Ha). Qed.

Lemma run_task_exec u s i : alone u s -> server_exec (RunTask i) s = run_task i s.
Proof. intros Ha. unfold server_exec. by rewrite (alone_live _ _ Ha). Qed.

(** [close_connection] ends, and leaves the pointer it was called with. *)
Lemma close_connection_leads u s i c :
  alone u s -> tasks s !! i = Some (Main, Extracted c) ->
  leads_to u (<[i := (Main, Held c)]> (tasks s)) (m_clients s) (close_connection i s).
Proof.
  intros Ha Hi. pose proof (list_elem_of_lookup_2 _ _ _ Hi) as Hin.
  destruct (task_client_known _ _ _ _ Ha Hin) as [d Hd]. cbn in Hd. pose proof (lookup_lt_Some _ _ _ Hi) as Hlt.
  unfold close_connection.
  assert (run_task i s = close_exchange i Main c s) as -> by (unfold run_task; by rewrite Hi).
  assert (Hx : server_exec (RunTask i) s = close_exchange i Main c s)
    by (erewrite run_task_exec by done; unfold run_task; by rewrite Hi).
  unfold close_exchange in *. rewrite Hd in *. cbn [mbind option_bind] in *.
  destruct (fd d <? 0); cbn [mbind option_bind tasks];
    (destruct (lone_step _ _ _ _ Ha Hx) as [Hrun Hlive]; [done|]); rewrite list_lookup_insert_eq by done.
  - eexists. split_and!; [done| |done..]. by eapply alone_replace.
  - set (s1 := Server _ _ _ _ _) in *.
    assert (alone u s1) as Ha1 by (eapply alone_replace; try done; intros c'; by apply (same_handlers_insert _ c d (set_fd (-1) d))).
    assert (tasks s1 !! i = Some (Main, Exchanged c (fd d))) as Hi1 by (by apply list_lookup_insert_eq).
    pose proof (run_task_exec _ _ i Ha1) as Hx2. unfold run_task in *. rewrite Hi1 in *. unfold close_descriptor in *.
    rewrite (nobody_sends _ _ c Ha1) in *. eexists. split_and!; [done| |cbn; apply list_insert_insert_eq|done].
    destruct (lone_step _ _ _ _ Ha1 Hx2) as [Hrun2 Hlive2]; [done|]. by eapply alone_replace.
Qed.

Lemma held_without s i c c1 b l :
  tasks s !! i = Some (Main, Held c) -> c1 ≠ c ->
  held s c1 -> held (Server l (m_clients s) (open_fds s) (delete i (tasks s)) b) c1.
Proof.
  intros Hi Hne. apply held_mono; [by left|]. intros t k Hin Hk. exists t, k. split; [|done]. cbn.
  eapply elem_of_delete_other; [done..|]. intros [= -> ->]. by cbn in Hk.
Qed.

Lemma held_with s i c b l : held (Server l (m_clients s) (open_fds s) (delete i (tasks s)) b) c -> held s c.
Proof. apply held_mono; [by left|]. intros t k Hin%elem_of_delete_inv Hk. by exists t, k. Qed.

(** Dropping a pointer that is not the last, or whose client has no handler. *)
Lemma alone_drop u s i c b :
  alone u s -> rtc server_step make_server_clients (Server (clients s) (m_clients s) (open_fds s) (delete i (tasks s)) b) ->
  b = false -> tasks s !! i = Some (Main, Held c) ->
  (has_handler s c = true -> existsb (on_client c) (delete i (tasks s)) || in_table s c = true) ->
  alone u (Server (clients s) (m_clients s) (open_fds s) (delete i (tasks s)) b).
Proof.
  intros Ha Hrun -> Hi Hc. eapply alone_frame; try done.
  - intros t k Hk%elem_of_delete_inv. by apply (alone_tasks _ _ Ha).
  - intros c1 Hm. destruct (decide (c1 = c)) as [->|Hne]; [|by eapply held_without].
    intros _. specialize (Hc Hm). by apply (held_spec s (delete i (tasks s)) c) in Hc.
  - intros c1. apply held_with.
Qed.

(** Destroying a client that nobody points to any more. *)
Lemma alone_destroy u s i c d :
  alone u s -> tasks s !! i = Some (Main, Held c) -> clients s !! c = Some d ->
  existsb (on_client c) (delete i (tasks s)) || in_table s c = false ->
  let s' := Server (<[c := ConnectionData (fd d) (unique_id d) false false]> (clients s)) (m_clients s) (open_fds s)
              (delete i (tasks s)) (terminated s) in
  rtc server_step make_server_clients s' -> alone u s'.
Proof.
  intros Ha Hi Hd Hc s' Hrun. pose proof (lookup_lt_Some _ _ _ Hd) as Hlt.
  assert (Hother : forall c1, c1 ≠ c -> has_handler s' c1 = has_handler s c1).
  { intros c1 Hne. unfold has_handler. cbn. by rewrite list_lookup_insert_ne. }
  assert (Hgone : has_handler s' c = false) by (unfold has_handler; cbn; by rewrite list_lookup_insert_eq).
  split; [done|apply (alone_live _ _ Ha)| | | | |].
  - intros t k Hk%elem_of_delete_inv. by apply (alone_tasks _ _ Ha).
  - intros c1 d1 [(<- & <- & _)|[Hne Hd1]]%list_lookup_insert_Some; [done|]. by eapply (alone_handlers _ _ Ha).
  - intros c1 Hm. destruct (decide (c1 = c)) as [->|Hne]; [congruence|]. rewrite Hother in Hm by done.
    eapply held_without; [done..|]. by apply (alone_held _ _ Ha).
  - intros c1 Hc1 Hu. destruct (decide (c1 = c)) as [->|Hne].
    + exfalso. apply not_true_iff_false in Hc. by apply Hc, held_spec.
    + rewrite Hother by done. apply (alone_made _ _ Ha); [by eapply held_with|done].
  - intros c1 Hu. destruct (decide (c1 = c)) as [->|Hne]; [done|]. rewrite Hother by done. by apply (alone_unmade _ _ Ha).
Qed.

(** The destructor that waited for the handler's thread. *)
Lemma drop_after_join i c d s :
  clients s !! c = Some d -> m_connection d = true ->
  existsb (on_client c) (delete i (tasks s)) || in_table s c = false ->
  drop_client i Main c (Server (<[c := set_running false d]> (clients s)) (m_clients s) (open_fds s) (tasks s) (terminated s)) =
  Some (Server (<[c := ConnectionData (fd d) (unique_id d) false false]> (clients s)) (m_clients s) (open_fds s)
          (delete i (tasks s)) (terminated s)).
Proof.
  intros Hd Hm Hlast. unfold drop_client, in_table in *. cbn [tasks m_clients clients open_fds terminated]. rewrite Hlast.
  rewrite list_lookup_insert_eq by (by eapply lookup_lt_Some). cbn. rewrite Hm. cbn. by rewrite list_insert_insert_eq.
Qed.

Lemma threads_end u s c d :
  alone u s -> clients s !! c = Some d ->
  thread_ends c s = Some (Server (<[c := set_running false d]> (clients s)) (m_clients s) (open_fds s) (tasks s) (terminated s)).
Proof.
  intros Ha Hd. unfold thread_ends. rewrite Hd. assert (existsb (by_thread (HandlerThread c)) (tasks s) = false) as ->; [|done].
  apply not_true_iff_false. intros ([t k] & Hk%list_elem_of_In & Hb)%existsb_exists.
  apply (alone_tasks _ _ Ha) in Hk as [-> _]. by apply bool_decide_eq_true in Hb.
Qed.

(** A pointer that is not the last goes away, and nothing else. *)
Lemma drop_pointer_kept u s i c :
  alone u s -> tasks s !! i = Some (Main, Held c) ->
  existsb (on_client c) (delete i (tasks s)) || in_table s c = true ->
  exists s', drop_pointer i s = Some s' /\ alone u s' /\ tasks s' = delete i (tasks s) /\
    m_clients s' = m_clients s /\ clients s' = clients s.
Proof.
  intros Ha Hi Hlast. pose proof (run_task_exec _ _ i Ha) as Hs. unfold run_task in Hs. rewrite Hi in Hs.
  unfold drop_pointer, drop_client in *. rewrite Hi. rewrite Hlast in *. eexists. split_and!; [done| |done..].
  destruct (lone_step _ _ _ _ Ha Hs) as [Hrun Hl]; [done|]. by eapply alone_drop.
Qed.

Lemma drop_pointer_leads u s i c :
  alone u s -> tasks s !! i = Some (Main, Held c) ->
  leads_to u (delete i (tasks s)) (m_clients s) (drop_pointer i s).
Proof.
  intros Ha Hi. destruct (existsb (on_client c) (delete i (tasks s)) || in_table s c) eqn:Hlast.
  { destruct (drop_pointer_kept _ _ _ _ Ha Hi Hlast) as (s' & E & Ha' & Hk & Ht & _). by exists s'. }
  destruct (task_client_known _ _ _ _ Ha (list_elem_of_lookup_2 _ _ _ Hi)) as [d Hd]. cbn in Hd.
  pose proof (alone_live _ _ Ha) as Hlive.
  assert (Hx : forall s1, terminated s1 = false -> tasks s1 = tasks s -> server_exec (RunTask i) s1 = drop_client i Main c s1)
    by (intros s1 Hl Hk; unfold server_exec, run_task; by rewrite Hl, Hk, Hi).
  pose proof (Hx s Hlive eq_refl) as Hs. unfold drop_pointer. rewrite Hi. unfold drop_client at 1. unfold drop_client in Hs.
  rewrite Hlast, Hd in *. cbn [mbind option_bind] in *. destruct (m_connection d) eqn:Hm; cbn [negb] in *.
  2: { destruct (lone_step _ _ _ _ Ha Hs) as [Hrun Hl]; [done|]. eexists. split_and!; [done| |done..].
       eapply alone_drop; try done. unfold has_handler. rewrite Hd. congruence. }
  rewrite bool_decide_eq_false_2 in * by done. destruct (running d) eqn:Hr.
  - pose proof (threads_end _ _ _ _ Ha Hd) as Ht. rewrite Ht. cbn [mbind option_bind].
    pose proof (drop_after_join i c d s Hd Hm Hlast) as Hdrop. rewrite Hdrop.
    eexists. split_and!; [done| |done..]. eapply alone_destroy; try done.
    assert (server_exec (ThreadEnds c) s = thread_ends c s) as He by (unfold server_exec; by rewrite Hlive).
    rewrite Ht in He. rewrite <- Hx in Hdrop by done.
    eapply rtc_r; [by eapply alone_step|by eapply ServerStep].
  - eexists. split_and!; [done| |done..]. eapply alone_destroy; try done. by eapply alone_step.
Qed.

(** Tasks at the end of the list. *)
Lemma insert_last {A} (l : list A) x y : <[length l := y]> (l ++ [x]) = l ++ [y].
Proof. rewrite insert_app_r_alt by done. by rewrite Nat.sub_diag. Qed.
Lemma delete_last {A} (l : list A) x : delete (length l) (l ++ [x]) = l.
Proof. rewrite delete_take_drop, take_app_length, drop_ge by (rewrite length_app; cbn; lia). apply app_nil_r. Qed.

Lemma leads_to_step u u' s e s' ks table :
  alone u s -> server_exec e s = Some s' -> tasks s' = ks -> m_clients s' = table ->
  (rtc server_step make_server_clients s' -> alone u' s') -> leads_to u' ks table (Some s').
Proof. intros Ha E <- <- Hs. apply leads_to_some, Hs. by eapply alone_step. Qed.

(** A new pointer to clients that someone points to already. *)
Lemma hold_leads u s ks e :
  alone u s -> (forall t k, (t, k) ∈ ks -> t = Main /\ exists c, k = Held c /\ held s c) ->
  server_exec e s = Some (Server (clients s) (m_clients s) (open_fds s) (tasks s ++ ks) (terminated s)) ->
  leads_to u (tasks s ++ ks) (m_clients s) (server_exec e s).
Proof.
  intros Ha Hks E. rewrite E. eapply leads_to_step; [done..|]. intros Hrun.
  eapply alone_frame; try done; cbn.
  - apply (alone_live _ _ Ha).
  - intros t k [Hk|Hk]%elem_of_app; [by apply (alone_tasks _ _ Ha)|]. by destruct (Hks t k Hk) as (-> & c & -> & _).
  - intros c _. apply held_mono; [by left|]. intros t k Hin Hk. exists t, k. split; [|done]. cbn. apply elem_of_app. by left.
  - intros c [Hc|(t & k & [Hin|Hin]%elem_of_app & Hk)]; [by left|right; by exists t, k|].
    destruct (Hks t k Hin) as (_ & c' & -> & Hc). cbn in Hk. congruence.
Qed.

(** *** Releasing pointers *)

(** How a way to release pointers behaves while another pointer is left, and
    when all sockets accept what is sent. *)
Definition keeps (release : nat -> server -> option server) : Prop :=
  forall u s i c, alone u s -> tasks s !! i = Some (Main, Held c) ->
    existsb (on_client c) (delete i (tasks s)) || in_table s c = true ->
    leads_to u (delete i (tasks s)) (m_clients s) (release i s).

Section sending_proofs.
Context (sent : Z -> bool).

(** The part of a table whose sockets accept what is sent. *)
Definition receiving (table : gmap Z nat) : gmap Z nat := filter (fun p => sent p.1 = true) table.

Lemma receiving_lookup table id : receiving table !! id = if sent id then table !! id else None.
Proof.
  unfold receiving. destruct (sent id) eqn:E.
  - destruct (table !! id) as [c|] eqn:Hc; [by apply map_lookup_filter_Some|by apply map_lookup_filter_None; left].
  - apply map_lookup_filter_None. right. intros c _. cbn. congruence.
Qed.

Definition cleans (release : nat -> server -> option server) : Prop :=
  forall u s i c, alone u s -> tasks s !! i = Some (Main, Held c) -> receiving (m_clients s) = m_clients s ->
    leads_to u (delete i (tasks s)) (m_clients s) (release i s).

Section with_release.
Context (release : nat -> server -> option server) (Hkeeps : keeps release).

(** [disconnect_client], from its lock to its return, by a caller that has
    another pointer to the client. *)
Lemma disconnect_leads u s id :
  alone u s -> (forall c, m_clients s !! id = Some c -> existsb (on_client c) (tasks s) = true) ->
  leads_to u (tasks s) (delete id (m_clients s)) (disconnect release Main id s).
Proof.
  intros Ha Hother. unfold disconnect, disconnect_client. cbn [negb alive].
  destruct (m_clients s !! id) as [c|] eqn:Hid.
  2: { rewrite delete_id by done. by apply leads_to_some. }
  set (ks := tasks s ++ [(Main, Extracted c)]).
  eapply (leads_to_bind u ks (delete id (m_clients s))).
  - eapply (leads_to_step u u s (Disconnect Main id)); [done| |done..|].
    + unfold server_exec, disconnect_client. rewrite (alone_live _ _ Ha), Hid. done.
    + intros Hrun. eapply alone_frame; try done; cbn.
      * apply (alone_live _ _ Ha).
      * intros t k [Hk|[= -> ->]]%in_snoc; [by apply (alone_tasks _ _ Ha)|done].
      * intros c1 _. apply held_mono; cbn.
        -- intros id1 Hid1. destruct (decide (id = id1)) as [<-|Hne]; [|left; by rewrite lookup_delete_ne].
           right. exists Main, (Extracted c). split; [apply in_snoc; by right|cbn; congruence].
        -- intros t k Hin Hc. exists t, k. split; [apply in_snoc; by left|done].
      * intros c1 [(id1 & Hc1)|(t & k & [Hin|[= -> ->]]%in_snoc & Hk)].
        -- cbn in Hc1. apply lookup_delete_Some in Hc1 as [_ Hc1]. left. by exists id1.
        -- right. by exists t, k.
        -- cbn in Hk. subst c1. left. by exists id.
  - intros s1 Ha1 Hk Ht. eapply (leads_to_bind u (tasks s ++ [(Main, Held c)])).
    + rewrite <- (insert_last (tasks s) (Main, Extracted c)). fold ks. rewrite <- Hk.
      apply close_connection_leads; [done|]. rewrite Hk. by apply list_lookup_middle.
    + intros s2 Ha2 Hk2 Ht2.
      destruct (Hkeeps u s2 (length (tasks s)) c) as (s3 & E3 & Ha3 & Hk3 & Ht3); [done|..].
      * rewrite Hk2. by apply list_lookup_middle.
      * rewrite Hk2, delete_last, Hother; done.
      * exists s3. split_and!; [done..| |congruence]. rewrite Hk3, Hk2. apply delete_last.
Qed.

(** One message to one client. *)
Lemma send_leads name u s i id c :
  alone u s -> tasks s !! i = Some (Main, Held c) -> m_clients s !! id = Some c ->
  (forall d, fd d = id -> name d = id) ->
  leads_to u (tasks s) (if sent id then m_clients s else delete id (m_clients s)) (send_or_disconnect sent release name Main i s).
Proof.
  intros Ha Hi Hid Hname. destruct (ok_table _ (alone_ok _ _ Ha) _ _ Hid) as (Hpos & d & Hd & Hfd).
  pose proof (lookup_lt_Some _ _ _ Hi) as Hlt.
  unfold send_or_disconnect, lock_client. rewrite Hi, (nobody_sends _ _ c Ha), Hd. cbn [mbind option_bind].
  destruct (Z.ltb_spec (fd d) 0); [lia|]. cbn [mbind option_bind tasks]. rewrite list_lookup_insert_eq by done.
  unfold run_task. cbn [tasks clients m_clients open_fds terminated]. rewrite list_lookup_insert_eq by done.
  cbn [mbind option_bind clients]. rewrite list_insert_insert_eq, list_insert_id by done. rewrite Hd, Hfd.
  assert (Server (clients s) (m_clients s) (open_fds s) (tasks s) (terminated s) = s) as -> by (by destruct s).
  destruct (sent id); [by apply leads_to_some|]. cbn [mbind option_bind]. rewrite Hname by done.
  apply disconnect_leads; [done|]. intros c' Hc'. assert (c' = c) as -> by congruence.
  apply existsb_exists. exists (Main, Held c). split; [by eapply list_elem_of_In, list_elem_of_lookup_2|apply Nat.eqb_refl].
Qed.

(** What is left of a table when sending failed to some of these clients. *)
Definition served (l : list (Z * nat)) (table : gmap Z nat) : gmap Z nat :=
  foldl (fun table '(id, _) => if sent id then table else delete id table) table l.

Lemma served_lookup l table id :
  served l table !! id = if bool_decide (id ∈ l.*1) && negb (sent id) then None else table !! id.
Proof.
  revert table. induction l as [|[id1 c1] l IH]; intros table; cbn; [by rewrite bool_decide_eq_false_2 by apply not_elem_of_nil|].
  unfold served in IH. rewrite IH. destruct (decide (id = id1)) as [->|Hne].
  - rewrite (bool_decide_eq_true_2 (id1 ∈ id1 :: l.*1)) by left.
    destruct (sent id1); cbn; rewrite ?andb_false_r; [done|]. rewrite lookup_delete_eq. by destruct (_ && _).
  - assert (bool_decide (id ∈ id1 :: l.*1) = bool_decide (id ∈ l.*1)) as ->.
    { apply bool_decide_ext. rewrite elem_of_cons. by intuition. }
    destruct (sent id1); [done|]. by rewrite lookup_delete_ne.
Qed.

Lemma served_all table : served (map_to_list table) table = receiving table.
Proof.
  apply map_eq. intros id. rewrite served_lookup, receiving_lookup. destruct (table !! id) as [c|] eqn:Hc.
  - rewrite bool_decide_eq_true_2 by (by apply (list_elem_of_fmap_2 fst _ (id, c)), elem_of_map_to_list).
    by destruct (sent id).
  - by destruct (_ && _), (sent id).
Qed.

(** Rounds of the broadcast. *)
Lemma repeat_send_leads u (l : list (Z * nat)) ks s :
  alone u s -> NoDup l.*1 -> (forall id c, (id, c) ∈ l -> m_clients s !! id = Some c) ->
  tasks s = ks ++ map (fun p => (Main, Held p.2)) l ->
  leads_to u (tasks s) (served l (m_clients s))
    (repeat_at (send_or_disconnect sent release fd Main) (seq (length ks) (length l)) s).
Proof.
  revert ks s. induction l as [|[id c] l IH]; intros ks s Ha Hdup Hl Hk; cbn in *; [by apply leads_to_some|].
  apply NoDup_cons in Hdup as [Hfresh Hdup].
  eapply leads_to_bind.
  { apply (send_leads fd u _ _ id c); [done|rewrite Hk; by apply list_lookup_middle|apply Hl; by left|done]. }
  intros s1 Ha1 Hk1 Ht1. rewrite <- Ht1, <- Hk1. rewrite <- Nat.add_1_r.
  replace (length ks + 1)%nat with (length (ks ++ [(Main, Held c)])) by (by rewrite length_app).
  apply IH; [done..| |by rewrite <- app_assoc, Hk1].
  intros id1 c1 Hin. rewrite Ht1. assert (m_clients s !! id1 = Some c1) as Hid1 by (apply Hl; by right).
  destruct (sent id); [done|]. rewrite lookup_delete_ne; [done|]. intros ->. apply Hfresh. by apply (list_elem_of_fmap_2 fst) in Hin.
Qed.

(** Pointers are dropped, one after the other, without changing the table. *)
Lemma repeat_release_leads u (l : list nat) ks table s :
  (forall s i c, alone u s -> tasks s !! i = Some (Main, Held c) -> m_clients s = table -> c ∈ l ->
    leads_to u (delete i (tasks s)) table (release i s)) ->
  alone u s -> m_clients s = table -> tasks s = ks ++ map (fun c => (Main, Held c)) l ->
  leads_to u ks table (repeat_at release (replicate (length l) (length ks)) s).
Proof.
  revert s. induction l as [|c l IH]; intros s Hrel Ha Ht Hk; cbn in *.
  - rewrite app_nil_r in Hk. rewrite <- Hk, <- Ht. by apply leads_to_some.
  - eapply leads_to_bind; [apply (Hrel _ _ c); [done|rewrite Hk; by apply list_lookup_middle|done|by left]|].
    intros s1 Ha1 Hk1 Ht1. apply IH; [|done..|].
    + intros s2 i c2 Ha2 Hi Ht2 Hin. apply (Hrel _ _ c2); try done. by right.
    + rewrite Hk1, Hk. by apply delete_middle.
Qed.

Lemma pointers_of_table (k : nat -> task) (l : list (Z * nat)) :
  map (fun '(_, c) => (Main, k c)) l = map (fun c => (Main, k c)) l.*2.
Proof. rewrite <- list_fmap_compose. apply map_ext. by intros []. Qed.

(** A broadcast, by what releasing its pointers does. *)
Lemma broadcast_leads u s :
  alone u s ->
  (forall s1 i c, alone u s1 -> tasks s1 !! i = Some (Main, Held c) -> m_clients s1 = receiving (m_clients s) ->
    c ∈ (map_to_list (m_clients s)).*2 -> leads_to u (delete i (tasks s1)) (receiving (m_clients s)) (release i s1)) ->
  leads_to u (tasks s) (receiving (m_clients s)) (broadcast_all sent release s).
Proof.
  intros Ha Hrel. unfold broadcast_all. set (l := map_to_list (m_clients s)).
  assert (server_exec (Broadcast Main) s = broadcast Main s) as Ex
    by (unfold server_exec; by rewrite (alone_live _ _ Ha) at 1).
  set (ks := tasks s ++ map (fun '(_, c) => (Main, Held c)) l).
  eapply (leads_to_bind u ks (m_clients s)); [rewrite <- Ex; apply hold_leads; [done| |by rewrite Ex]|].
  { intros t k ([id c] & [= -> ->] & Hin%elem_of_map_to_list)%list_elem_of_fmap. split; [done|].
    exists c. split; [done|left; by exists id]. }
  intros s1 Ha1 Hk1 Ht1. eapply (leads_to_bind u (tasks s1)); [apply (repeat_send_leads u l); [done|..]|].
  - apply NoDup_fst_map_to_list.
  - intros id c Hin%elem_of_map_to_list. by rewrite Ht1.
  - rewrite Hk1. unfold ks. f_equal. apply map_ext. by intros [].
  - intros s2 Ha2 Hk2 Ht2. replace (length l) with (length l.*2) by apply length_fmap.
    apply repeat_release_leads; [done..| |].
    + rewrite Ht2, Ht1. apply served_all.
    + rewrite Hk2, Hk1. unfold ks. f_equal. apply (pointers_of_table Held).
Qed.

(** When every socket accepts the message, no client is destroyed. *)
Lemma broadcast_receiving u s :
  alone u s -> receiving (m_clients s) = m_clients s ->
  leads_to u (tasks s) (m_clients s) (broadcast_all sent release s).
Proof.
  intros Ha Hall. rewrite <- Hall at 1. apply broadcast_leads; [done|]. rewrite Hall.
  intros s1 i c Ha1 Hi Ht ([id c1] & -> & Hc%elem_of_map_to_list)%list_elem_of_fmap. rewrite <- Ht.
  apply (Hkeeps _ _ _ c1); [done..|]. apply held_spec. left. exists id. by rewrite Ht.
Qed.
End with_release.

(** *** The three levels of release *)

Lemma release_known n i s c :
  tasks s !! i = Some (Main, Held c) ->
  release_nested sent (S n) i s =
    (s1 ← drop_pointer i s;
     if has_handler s c && negb (has_handler s1 c) then broadcast_all sent (release_nested sent n) s1 else Some s1).
Proof. intros Hi. cbn. by rewrite Hi. Qed.

(** Level one: another pointer is left. *)
Lemma release_keeps n : keeps (release_nested sent (S n)).
Proof.
  intros u s i c Ha Hi Hlast. rewrite (release_known _ _ _ c) by done.
  destruct (drop_pointer_kept u s i c Ha Hi Hlast) as (s1 & E & Ha1 & Hk1 & Ht1 & Hc1). rewrite E. cbn [mbind option_bind].
  unfold has_handler. rewrite Hc1. rewrite andb_negb_r. by exists s1.
Qed.

(** Level two: the farewell reaches everybody. *)
Lemma release_cleans n : cleans (release_nested sent (S (S n))).
Proof.
  intros u s i c Ha Hi Hall. rewrite (release_known _ _ _ c) by done.
  eapply leads_to_bind; [by eapply drop_pointer_leads|]. intros s1 Ha1 Hk1 Ht1. rewrite <- Hk1, <- Ht1.
  destruct (_ && _); [|by apply leads_to_some].
  apply (broadcast_receiving _ (release_keeps n)); [done|by rewrite Ht1].
Qed.

(** A broadcast removes the clients that do not receive it. *)
Lemma broadcast_all_leads u s :
  alone u s -> leads_to u (tasks s) (receiving (m_clients s)) (broadcast_all sent (release_nested sent 2) s).
Proof.
  intros Ha. apply (broadcast_leads _ (release_keeps 1)); [done|]. intros s1 i c Ha1 Hi Ht _. rewrite <- Ht.
  apply (release_cleans 0 _ _ _ c); [done..|]. rewrite Ht. apply map_eq. intros id. rewrite !receiving_lookup.
  by destruct (sent id).
Qed.

Lemma receiving_idem table : receiving (receiving table) = receiving table.
Proof. apply map_eq. intros id. rewrite !receiving_lookup. by destruct (sent id). Qed.

Lemma broadcast_release_leads u s :
  alone u s -> leads_to u (tasks s) (receiving (m_clients s)) (broadcast_all sent (release_pointer sent) s).
Proof.
  intros Ha. apply (broadcast_leads _ (release_keeps 2)); [done|]. intros s1 i c Ha1 Hi Ht _. rewrite <- Ht.
  apply (release_cleans 1 _ _ _ c); [done..|]. by rewrite Ht, receiving_idem.
Qed.

(** Level three: the last pointer to a client with a handler. *)
Lemma release_last u s i c :
  alone u s -> tasks s !! i = Some (Main, Held c) -> has_handler s c = true ->
  existsb (on_client c) (delete i (tasks s)) || in_table s c = false ->
  leads_to u (delete i (tasks s)) (receiving (m_clients s)) (release_pointer sent i s).
Proof.
  intros Ha Hi Hm Hlast. unfold release_pointer. rewrite (release_known _ _ _ c) by done.
  eapply leads_to_bind; [by eapply drop_pointer_leads|]. intros s1 Ha1 Hk1 Ht1. rewrite <- Hk1, <- Ht1.
  assert (has_handler s1 c = false) as Hgone.
  { apply not_true_is_false. intros Hm1%(alone_held _ _ Ha1). apply not_true_iff_false in Hlast. apply Hlast, held_spec.
    unfold held in Hm1. by rewrite Hk1, Ht1 in Hm1. }
  rewrite Hm, Hgone. by apply broadcast_all_leads.
Qed.

(** A client without a handler says nothing. *)
Lemma release_silent u s i c :
  alone u s -> tasks s !! i = Some (Main, Held c) -> has_handler s c = false ->
  leads_to u (delete i (tasks s)) (m_clients s) (release_pointer sent i s).
Proof.
  intros Ha Hi Hm. unfold release_pointer. rewrite (release_known _ _ _ c) by done. rewrite Hm. cbn [andb].
  destruct (drop_pointer_leads u s i c Ha Hi) as (s1 & E & H). exists s1. by rewrite E.
Qed.

(** ** The operations, from a state without tasks *)

(** The caller's pointer is the only one, and not in the table. *)
Lemma lone_pointer u s c :
  alone u s -> tasks s = [(Main, Held c)] -> (forall id, m_clients s !! id ≠ Some c) ->
  existsb (on_client c) (delete 0%nat (tasks s)) || in_table s c = false.
Proof.
  intros Ha Hk Hc. apply not_true_is_false. intros [[id Hid]|(t & k & Hin & _)]%held_spec; [by destruct (Hc id)|].
  rewrite Hk in Hin. by apply not_elem_of_nil in Hin.
Qed.

Lemma registered_once u s id id' c :
  alone u s -> m_clients s !! id = Some c -> m_clients s !! id' = Some c -> id = id'.
Proof.
  intros Ha Hc Hc'. destruct (ok_table _ (alone_ok _ _ Ha) _ _ Hc) as (_ & d & Hd & <-).
  destruct (ok_table _ (alone_ok _ _ Ha) _ _ Hc') as (_ & d' & Hd' & <-). congruence.
Qed.

Lemma find_leads u s id c :
  alone u s -> m_clients s !! id = Some c ->
  leads_to u (tasks s ++ [(Main, Held c)]) (m_clients s) (find_client Main id s).
Proof.
  intros Ha Hid. assert (server_exec (FindClient Main id) s = find_client Main id s) as Ex
    by (unfold server_exec; by rewrite (alone_live _ _ Ha) at 1).
  rewrite <- Ex. apply hold_leads; [done| |].
  - intros t k [= -> ->]%list_elem_of_singleton. split; [done|]. exists c. split; [done|]. left. by exists id.
  - rewrite Ex. unfold find_client. cbn. by rewrite Hid.
Qed.

(** [process_client_event]: a client that is disconnected says farewell to
    the others. *)
Lemma handle_client_leads s id events received :
  alone None s -> tasks s = [] ->
  leads_to None []
    (if process_client_event events received && bool_decide (is_Some (m_clients s !! id))
     then receiving (delete id (m_clients s)) else m_clients s)
    (handle_client sent id events received s).
Proof.
  intros Ha Hk. unfold handle_client. destruct (m_clients s !! id) as [c|] eqn:Hid.
  2: { unfold find_client. rewrite Hid. cbn. rewrite andb_false_r, <- Hk. by apply leads_to_some. }
  rewrite bool_decide_eq_true_2, andb_true_r by by eexists. rewrite Hk. cbn [length].
  eapply leads_to_bind; [by eapply find_leads|]. rewrite Hk. intros s1 Ha1 Hk1 Ht1. cbn in Hk1.
  assert (Hother : forall c', m_clients s1 !! id = Some c' -> existsb (on_client c') (tasks s1) = true).
  { intros c' Hc'. assert (c' = c) as -> by congruence. rewrite Hk1. cbn. unfold on_client. cbn. by rewrite Nat.eqb_refl. }
  assert (Hdel : forall s2, tasks s2 = [(Main, Held c)] -> delete 0%nat (tasks s2) = []) by (by intros s2 ->).
  destruct (process_client_event _ _).
  - eapply leads_to_bind; [by apply disconnect_leads; [apply release_keeps|..]|]. intros s2 Ha2 Hk2 Ht2.
    rewrite <- (Hdel s2), <- Ht1, <- Ht2 by congruence. apply (release_last _ _ _ c); [done|by rewrite Hk2, Hk1|..].
    + apply (alone_made _ _ Ha2); [|done]. right. exists Main, (Held c). rewrite Hk2, Hk1. split; [by left|done].
    + apply (lone_pointer None); [done|congruence|]. intros id' Hid'. rewrite Ht2, Ht1 in Hid'.
      apply lookup_delete_Some in Hid' as [Hne Hid']. by pose proof (registered_once _ _ _ _ _ Ha Hid Hid').
  - cbn [mbind option_bind]. rewrite <- (Hdel s1), <- Ht1 by done. apply (release_keeps 2 _ _ _ c); [done|by rewrite Hk1|].
    apply held_spec. left. exists id. congruence.
Qed.

Lemma alone_all_made c s : alone (Some c) s -> ~ held s c -> alone None s.
Proof.
  intros [Hrun Hl Hk Hh Hheld Hm _] Hc. split; try done. intros c1 Hc1 _. apply Hm; [done|]. by intros [= ->].
Qed.

Lemma held_some_task s c : tasks s = [(Main, Held c)] -> held s c.
Proof. intros Hk. right. exists Main, (Held c). rewrite Hk. split; [by left|done]. Qed.

(** The first half of [start_connection_handler]: the client is registered. *)
Lemma accept_leads s new_fd :
  alone None s -> tasks s = [] -> 0 <= new_fd -> new_fd ∉ open_fds s ->
  leads_to (Some (length (clients s))) [(Main, Held (length (clients s)))]
    (<[new_fd := length (clients s)]> (m_clients s)) (accept new_fd s).
Proof.
  intros Ha Hidle Hpos Hnew. pose proof (not_registered _ _ (alone_ok _ _ Ha) Hnew) as Hnone.
  assert (accept new_fd s = Some (Server (clients s ++ [ConnectionData new_fd new_fd false false])
    (<[new_fd := length (clients s)]> (m_clients s)) ({[new_fd]} ∪ open_fds s)
    [(Main, Held (length (clients s)))] (terminated s))) as E.
  { unfold accept. rewrite bool_decide_eq_false_2, Hnone, Hidle by done. by destruct (Z.ltb_spec new_fd 0); [lia|]. }
  rewrite E. eapply (leads_to_step None _ s (Accept new_fd)); [done| |done..|].
  { unfold server_exec. by rewrite (alone_live _ _ Ha) at 1. }
  intros Hrun. set (s1 := Server _ _ _ _ _) in *.
  assert (Hhas : forall c, has_handler s1 c = has_handler s c).
  { intros c. unfold has_handler, s1. cbn [clients]. destruct (clients s !! c) as [d|] eqn:Hd; [by erewrite lookup_app_l_Some|].
    destruct ((clients s ++ _) !! c) as [d|] eqn:Hd1; [|done]. apply lookup_app_Some in Hd1 as [Hd1|[_ Hd1]]; [congruence|].
    by apply list_lookup_singleton_Some in Hd1 as [_ <-]. }
  split; [done|apply (alone_live _ _ Ha)|..].
  - by intros t k [= -> ->]%list_elem_of_singleton.
  - intros c d [Hd|[_ Hd]]%lookup_app_Some Hr; [by eapply (alone_handlers _ _ Ha)|].
    by apply list_lookup_singleton_Some in Hd as [_ <-].
  - intros c. rewrite Hhas. intros Hm%(alone_held _ _ Ha). eapply held_mono, Hm.
    + intros id Hid. left. cbn. rewrite lookup_insert_ne; [done|]. intros ->. by rewrite Hid in Hnone.
    + intros t k Hin. rewrite Hidle in Hin. by apply not_elem_of_nil in Hin.
  - intros c Hc Hu. rewrite Hhas. apply (alone_made _ _ Ha); [|done].
    destruct Hc as [[id Hid]|(t & k & [= -> ->]%list_elem_of_singleton & Hk)]; [|cbn in Hk; congruence].
    cbn in Hid. apply lookup_insert_Some in Hid as [[_ <-]|[_ Hid]]; [done|]. left. by exists id.
  - intros c [= <-]. rewrite Hhas. unfold has_handler. by rewrite lookup_ge_None_2.
Qed.

(** The handler's constructor reaches those who can be reached. *)
Lemma send_greetings_leads s id c :
  alone (Some c) s -> tasks s = [(Main, Held c)] -> m_clients s !! id = Some c ->
  leads_to (Some c) [(Main, Held c)] (receiving (m_clients s)) (send_greetings sent id s).
Proof.
  intros Ha Hk Hid. unfold send_greetings. rewrite Hid, Hk. cbn [length].
  set (table := if sent id then m_clients s else delete id (m_clients s)).
  eapply leads_to_bind; [by eapply find_leads|]. intros s1 Ha1 Hk1 Ht1. rewrite Hk in Hk1. cbn in Hk1.
  eapply (leads_to_bind _ [(Main, Held c)] table).
  - eapply leads_to_bind.
    + apply (send_leads _ (release_keeps 2) (fun _ => id) _ _ _ id c); [done|by rewrite Hk1|congruence|done].
    + intros s2 Ha2 Hk2 Ht2.
      destruct (release_keeps 2 (Some c) s2 1%nat c Ha2) as (s3 & E3 & Ha3 & Hk3 & Ht3).
      * by rewrite Hk2, Hk1.
      * apply held_spec. right. exists Main, (Held c). rewrite Hk2, Hk1. split; [by left|done].
      * exists s3. split_and!; [done..|by rewrite Hk3, Hk2, Hk1|]. rewrite Ht3, Ht2, Ht1. done.
  - intros s2 Ha2 Hk2 Ht2. assert (receiving (m_clients s) = receiving (m_clients s2)) as ->.
    { rewrite Ht2. unfold table. destruct (sent id) eqn:Es; [done|]. apply map_eq. intros id'. rewrite !receiving_lookup.
      destruct (decide (id = id')) as [<-|]; [by rewrite Es|by rewrite lookup_delete_ne]. }
    rewrite <- Hk2. by apply broadcast_release_leads.
Qed.

(** The second half: the handler is made. *)
Lemma start_handler_leads s c :
  alone (Some c) s -> tasks s = [(Main, Held c)] ->
  leads_to None (tasks s) (m_clients s) (start_handler c s).
Proof.
  intros Ha Hk. assert ((Main, Held c) ∈ tasks s) as Hin by (rewrite Hk; by left).
  destruct (task_client_known _ _ _ _ Ha Hin) as [d Hd]. cbn in Hd. pose proof (lookup_lt_Some _ _ _ Hd) as Hlt.
  assert (m_connection d = false) as Hm by (pose proof (alone_unmade _ _ Ha c eq_refl) as Hm; unfold has_handler in Hm; by rewrite Hd in Hm).
  assert (start_handler c s = Some (Server (<[c := ConnectionData (fd d) (unique_id d) true true]> (clients s)) (m_clients s)
    (open_fds s) (tasks s) (terminated s))) as E.
  { unfold start_handler. rewrite Hd. cbn. by rewrite bool_decide_eq_true_2, Hm. }
  rewrite E. eapply (leads_to_step (Some c) _ s (StartHandler c)); [done| |done..|].
  { unfold server_exec. by rewrite (alone_live _ _ Ha) at 1. }
  intros Hrun. set (s1 := Server _ _ _ _ _) in *.
  assert (Hhas : forall c1, has_handler s1 c1 = bool_decide (c = c1) || has_handler s c1).
  { intros c1. unfold has_handler. cbn. case_bool_decide as Hc; [subst c1; by rewrite list_lookup_insert_eq|].
    by rewrite list_lookup_insert_ne. }
  split; [done|apply (alone_live _ _ Ha)|by apply (alone_tasks _ _ Ha)|..|done].
  - intros c1 d1 [(<- & <- & _)|[_ Hd1]]%list_lookup_insert_Some Hr; [done|]. by eapply (alone_handlers _ _ Ha).
  - intros c1. rewrite Hhas. case_bool_decide as Hc; [subst c1; intros _; by apply (held_some_task s1)|].
    apply (alone_held _ _ Ha).
  - intros c1 Hc1 _. rewrite Hhas. case_bool_decide as Hc; [done|]. apply (alone_made _ _ Ha); [done|congruence].
Qed.

Definition added (new_fd : Z) (start : handler_start) : bool :=
  match start with HandlerThrows => false | HandlerStarted ctl => sent new_fd && add_to_epoll ctl end.

(** The open sockets are those in the table, but for what is being closed. *)
Lemma held_sockets u s :
  alone u s -> (forall t k, (t, k) ∈ tasks s -> exists c, k = Held c) -> open_fds s = dom (m_clients s).
Proof.
  intros Ha Hk. pose proof (alone_ok _ _ Ha) as Hok. apply set_eq. intros z. rewrite elem_of_dom. split.
  - intros Hz. pose proof (ok_open _ Hok z Hz) as Hpos. pose proof (ok_owners _ Hok z Hpos) as Ho.
    rewrite decide_True in Ho by done. unfold owners in Ho.
    assert (countb (closing z) (tasks s) = 0%nat) as Hc0.
    { apply countb_zero. intros i [t k] Hi. by destruct (Hk t k) as [c ->]; [by eapply list_elem_of_lookup_2|]. }
    destruct (m_clients s !! z) as [c|] eqn:Hc; [by eexists|]. exfalso.
    assert (countb (owns z) (clients s) = 0%nat); [|lia]. apply countb_zero. intros c d Hd. apply Z.eqb_neq. intros E.
    destruct (ok_reachable _ Hok c d Hd) as [Hr|[t Hr]]; [lia|congruence|]. by destruct (Hk _ _ Hr).
  - intros [c Hc]. destruct (ok_table _ Hok _ _ Hc) as (Hpos & d & Hd & <-). by eapply owned_open.
Qed.

Lemma receiving_insert_delete id c table :
  table !! id = None -> delete id (receiving (<[id := c]> table)) = receiving table.
Proof.
  intros Hid. apply map_eq. intros id'. destruct (decide (id = id')) as [<-|Hne].
  - rewrite lookup_delete_eq, receiving_lookup, Hid. by destruct (sent id).
  - by rewrite lookup_delete_ne, !receiving_lookup, lookup_insert_ne.
Qed.

(** The failed start of a handler, once the client's own pointer is left. *)
Lemma undo_leads u s new_fd c table :
  alone u s -> tasks s = [(Main, Held c)] -> m_clients s !! new_fd = None \/ m_clients s !! new_fd = Some c ->
  delete new_fd (m_clients s) = table ->
  leads_to u [(Main, Held c)] table (disconnect (release_pointer sent) Main new_fd s).
Proof.
  intros Ha Hk Hid <-. rewrite <- Hk. apply disconnect_leads; [apply release_keeps|done|]. intros c' Hc'.
  assert (c' = c) as -> by (destruct Hid; congruence). rewrite Hk. cbn. unfold on_client. cbn. by rewrite Nat.eqb_refl.
Qed.

(** [start_connection_handler], on every branch the kernel leaves it. *)
Lemma start_connection_leads s new_fd start :
  alone None s -> tasks s = [] -> 0 <= new_fd -> new_fd ∉ open_fds s ->
  exists s', start_connection_handler sent new_fd start s = Some (added new_fd start, s') /\
    leads_to None []
      (match start with
       | HandlerThrows => m_clients s
       | HandlerStarted _ =>
           receiving (if added new_fd start then <[new_fd := length (clients s)]> (m_clients s) else m_clients s)
       end) (Some s').
Proof.
  intros Ha Hidle Hpos Hnew. pose proof (not_registered _ _ (alone_ok _ _ Ha) Hnew) as Hnone.
  set (c := length (clients s)).
  assert (forall id, m_clients s !! id ≠ Some c) as Hfresh
    by (intros id Hid; pose proof (registered_client _ _ _ (alone_ok _ _ Ha) Hid); unfold c in *; lia).
  destruct (accept_leads s new_fd Ha Hidle Hpos Hnew) as (s1 & E1 & Ha1 & Hk1 & Ht1). fold c in Ha1, Hk1, Ht1.
  assert (m_clients s1 !! new_fd = Some c) as Hid1 by (rewrite Ht1; apply lookup_insert_eq).
  unfold start_connection_handler. rewrite E1, Hidle. cbn [mbind option_bind length]. rewrite Hk1. cbn [lookup list_lookup].
  fold c. destruct start as [|ctl]; cbn [added].
  - destruct (undo_leads (Some c) s1 new_fd c (m_clients s)) as (s2 & E2 & Ha2 & Hk2 & Ht2); [done|done|by right|by rewrite Ht1, delete_insert_id|].
    rewrite E2. cbn [mbind option_bind].
    destruct (release_silent (Some c) s2 0%nat c) as (s3 & E3 & Ha3 & Hk3 & Ht3); [done|by rewrite Hk2|by apply (alone_unmade _ _ Ha2)|].
    rewrite Hk2 in Hk3. rewrite E3. cbn [mbind option_bind]. eexists. split; [done|]. exists s3. split_and!; [done| |done|congruence].
    eapply alone_all_made; [done|]. intros [[id Hid]|(t & k & Hin & _)].
    + apply (Hfresh id). congruence.
    + rewrite Hk3 in Hin. by apply not_elem_of_nil in Hin.
  - destruct (send_greetings_leads s1 new_fd c Ha1 Hk1 Hid1) as (s2 & E2 & Ha2 & Hk2 & Ht2). rewrite E2. cbn [mbind option_bind].
    destruct (start_handler_leads s2 c Ha2 Hk2) as (s3 & E3 & Ha3 & Hk3 & Ht3). rewrite E3. cbn [mbind option_bind].
    rewrite Hk2 in Hk3. rewrite Ht2, Ht1 in Ht3.
    assert (m_clients s3 !! new_fd = if sent new_fd then Some c else None) as Hid3
      by (rewrite Ht3, receiving_lookup, lookup_insert_eq; done).
    assert (bool_decide (new_fd ∈ open_fds s3) = sent new_fd) as ->.
    { rewrite (held_sockets _ _ Ha3) by (rewrite Hk3; intros t k [= -> ->]%list_elem_of_singleton; by eexists).
      rewrite (bool_decide_ext _ (sent new_fd = true)); [by destruct (sent new_fd)|].
      rewrite elem_of_dom, Hid3. destruct (sent new_fd); split; [done|by eexists|by intros []|done]. }
    destruct (sent new_fd && add_to_epoll ctl) eqn:Eadd.
    + apply andb_true_iff in Eadd as [Es _]. rewrite Es in Hid3.
      destruct (release_keeps 2 None s3 0%nat c Ha3) as (s4 & E4 & Ha4 & Hk4 & Ht4); [by rewrite Hk3| |].
      { apply held_spec. left. by exists new_fd. }
      fold (release_pointer sent) in E4. rewrite E4. cbn [mbind option_bind]. eexists. split; [done|]. exists s4. rewrite Hk3 in Hk4. split_and!; [done..|congruence].
    + destruct (undo_leads None s3 new_fd c (receiving (m_clients s))) as (s4 & E4 & Ha4 & Hk4 & Ht4);
        [done|done|rewrite Hid3; destruct (sent new_fd); [by right|by left]|by rewrite Ht3, receiving_insert_delete|].
      rewrite E4. cbn [mbind option_bind].
      destruct (release_last None s4 0%nat c) as (s5 & E5 & Ha5 & Hk5 & Ht5); [done|by rewrite Hk4| | |].
      * apply (alone_made _ _ Ha4); [by apply held_some_task|done].
      * apply (lone_pointer None); [done..|]. intros id. rewrite Ht4, receiving_lookup.
        destruct (sent id); [apply Hfresh|done].
      * rewrite Hk4 in Hk5. rewrite Ht4, receiving_idem in Ht5. rewrite E5. cbn [mbind option_bind].
        eexists. split; [done|]. by exists s5.
Qed.

(** Clients are closed, one after the other. *)
Lemma repeat_close_leads (l : list nat) ks s :
  alone None s -> tasks s = ks ++ map (fun c => (Main, Extracted c)) l ->
  leads_to None (ks ++ map (fun c => (Main, Held c)) l) (m_clients s)
    (repeat_at close_connection (seq (length ks) (length l)) s).
Proof.
  revert ks s. induction l as [|c l IH]; intros ks s Ha Hk; cbn in *.
  - rewrite <- Hk. by apply leads_to_some.
  - eapply leads_to_bind; [apply (close_connection_leads _ _ _ c); [done|rewrite Hk; by apply list_lookup_middle]|].
    intros s1 Ha1 Hk1 Ht1. rewrite <- Ht1. specialize (IH (ks ++ [(Main, Held c)]) s1 Ha1).
    rewrite <- !app_assoc, length_app, Nat.add_1_r in IH. apply IH. rewrite Hk1, Hk.
    rewrite insert_app_r_alt by done. by rewrite Nat.sub_diag.
Qed.

(** [cleanup], up to its loop. *)
Lemma swap_leads s :
  alone None s -> tasks s = [] ->
  leads_to None (map (fun c => (Main, Extracted c)) (map_to_list (m_clients s)).*2) ∅ (Some (cleanup s)).
Proof.
  intros Ha Hk.
  assert (server_exec Cleanup s = Some (cleanup s)) as Ex by (unfold server_exec; by rewrite (alone_live _ _ Ha)).
  eapply (leads_to_step None _ s Cleanup); [done|done| |done|].
  { cbn. rewrite Hk. apply (pointers_of_table Extracted). }
  intros Hrun. eapply alone_frame; [done..|apply (alone_live _ _ Ha)|done| | |].
  - intros t k. cbn. rewrite Hk. by intros ([id c] & [= -> ->] & _)%list_elem_of_fmap.
  - intros c _. apply held_mono; cbn.
    + intros id Hid. right. exists Main, (Extracted c). split; [|done]. apply elem_of_app. right.
      apply list_elem_of_fmap. exists (id, c). split; [done|by apply elem_of_map_to_list].
    + intros t k Hin Hc. exists t, k. split; [apply elem_of_app; by left|done].
  - intros c [(id & Hid)|(t & k & Hin & Hc)]; [by cbn in Hid; rewrite lookup_empty in Hid|].
    cbn in Hin. rewrite Hk in Hin. apply list_elem_of_fmap in Hin as ([id c'] & [= -> ->] & Hin%elem_of_map_to_list).
    cbn in Hc. subst c'. left. by exists id.
Qed.

(** [cleanup]: every client is closed, and its handler has ended. *)
Lemma cleanup_leads s : alone None s -> tasks s = [] -> leads_to None [] ∅ (cleanup_clients sent s).
Proof.
  intros Ha Hk. unfold cleanup_clients. set (l := map_to_list (m_clients s)). rewrite Hk. cbn [length].
  destruct (swap_leads s Ha Hk) as (s1 & [= <-] & Ha1 & Hk1 & Ht1). fold l in Hk1.
  replace (length l) with (length l.*2) by apply length_fmap.
  eapply leads_to_bind; [by apply (repeat_close_leads l.*2 [])|]. rewrite Ht1. intros s2 Ha2 Hk2 Ht2.
  apply (repeat_release_leads _ None l.*2 []); [|done..].
  intros s3 i c Ha3 Hi Ht3 _. rewrite <- Ht3. apply (release_cleans 1 _ _ _ c); [done..|].
  rewrite Ht3. apply map_eq. intros id. rewrite receiving_lookup, lookup_empty. by destruct (sent id).
Qed.
End sending_proofs.

(** ** The set of clients *)

(** The descriptors registered after an action, and after all: a client that
    is greeted, or whose departure the others are told, leaves those who
    received it. *)
Definition registry_after (a : server_action) (ans : action_answers) (R : gset Z) : gset Z :=
  let reached := filter (fun z => ans_sent ans z = true) in
  match a with
  | StartConnection new_fd =>
      match ans_start ans with
      | HandlerThrows => R
      | HandlerStarted ctl => reached (if add_to_epoll ctl then {[new_fd]} ∪ R else R)
      end
  | ProcessClient id events =>
      if process_client_event events (ans_received ans) && bool_decide (id ∈ R) then reached (R ∖ {[id]}) else R
  | BroadcastShutdown => reached R
  end.

Fixpoint registry (actions : list (server_action * action_answers)) (R : gset Z) : gset Z :=
  match actions with
  | [] => R
  | (a, ans) :: actions => registry actions (registry_after a ans R)
  end.

(** The kernel gives out descriptors that are not open. *)
Fixpoint fresh_descriptors (actions : list (server_action * action_answers)) (R : gset Z) : Prop :=
  match actions with
  | [] => True
  | (a, ans) :: actions =>
      match a with StartConnection new_fd => 0 <= new_fd /\ new_fd ∉ R | _ => True end /\
      fresh_descriptors actions (registry_after a ans R)
  end.

Lemma receiving_dom sent table : dom (receiving sent table) = filter (fun z => sent z = true) (dom table).
Proof.
  apply set_eq. intros z. rewrite elem_of_filter, !elem_of_dom, receiving_lookup.
  destruct (sent z); split; [done|by intros []|by intros []|by intros []].
Qed.

Lemma idle_sockets u s : alone u s -> tasks s = [] -> open_fds s = dom (m_clients s).
Proof. intros Ha Hk. apply (held_sockets _ _ Ha). rewrite Hk. intros t k []%not_elem_of_nil. Qed.

Lemma idle_handlers s c d :
  alone None s -> tasks s = [] -> clients s !! c = Some d ->
  m_connection d = true <-> m_clients s !! fd d = Some c.
Proof.
  intros Ha Hk Hd. assert (has_handler s c = m_connection d) as <- by (unfold has_handler; by rewrite Hd). split.
  - intros [[id Hid]|(t & k & Hin & _)]%(alone_held _ _ Ha).
    + destruct (ok_table _ (alone_ok _ _ Ha) _ _ Hid) as (_ & d' & Hd' & <-). congruence.
    + rewrite Hk in Hin. by apply not_elem_of_nil in Hin.
  - intros Hid. apply (alone_made _ _ Ha); [|done]. left. by eexists.
Qed.

(** An action of the event loop, on the set of clients. *)
Lemma perform_leads a ans s :
  alone None s -> tasks s = [] -> match a with StartConnection new_fd => 0 <= new_fd /\ new_fd ∉ open_fds s | _ => True end ->
  exists s', perform a ans s = Some s' /\ alone None s' /\ tasks s' = [] /\
    dom (m_clients s') = registry_after a ans (dom (m_clients s)).
Proof.
  intros Ha Hk Hfresh. destruct a as [new_fd|id events|]; cbn [perform registry_after].
  - destruct (start_connection_leads (ans_sent ans) s new_fd (ans_start ans) Ha Hk) as (s' & E & s'' & [= <-] & Ha' & Hk' & Ht'); [apply Hfresh..|].
    rewrite E. exists s'. split_and!; [done..|]. rewrite Ht'. destruct (ans_start ans) as [|ctl]; [done|].
    rewrite receiving_dom. cbn [added]. destruct (add_to_epoll ctl), (ans_sent ans new_fd) eqn:Es; cbn [andb];
      [by rewrite dom_insert_L| |done..].
    rewrite filter_union_L, filter_singleton_False_L by (apply _ || by rewrite Es). by rewrite (left_id_L ∅ (∪)).
  - destruct (handle_client_leads (ans_sent ans) s id events (ans_received ans) Ha Hk) as (s' & E & Ha' & Hk' & Ht').
    exists s'. split_and!; [done..|]. rewrite Ht'.
    rewrite (bool_decide_ext (id ∈ dom (m_clients s)) (is_Some (m_clients s !! id))) by apply elem_of_dom.
    destruct (_ && _); [|done]. by rewrite receiving_dom, dom_delete_L.
  - destruct (broadcast_release_leads (ans_sent ans) None s Ha) as (s' & E & Ha' & Hk' & Ht').
    exists s'. split_and!; [done..|congruence|]. rewrite Ht'. apply receiving_dom.
Qed.

Lemma perform_all_leads actions s :
  alone None s -> tasks s = [] -> fresh_descriptors actions (dom (m_clients s)) ->
  exists s', perform_all actions s = Some s' /\ alone None s' /\ tasks s' = [] /\
    dom (m_clients s') = registry actions (dom (m_clients s)).
Proof.
  revert s. induction actions as [|[a ans] actions IH]; intros s Ha Hk Hf; cbn in *; [by exists s|].
  destruct Hf as [Hnew Hf]. destruct (perform_leads a ans s Ha Hk) as (s1 & E & Ha1 & Hk1 & Ht1).
  { by rewrite (idle_sockets _ _ Ha Hk). }
  rewrite E. cbn. rewrite <- Ht1 in Hf |- *. by apply IH.
Qed.

Lemma make_server_clients_alone : alone None make_server_clients.
Proof.
  split; try done; [by intros t k ?%not_elem_of_nil|]. by intros c [[id Hid]|(t & k & ?%not_elem_of_nil & _)].
Qed.

(** ** Properties *)

(** C24: the event loop, run alone, keeps the table, the sockets and the
    handlers together: after whatever [epoll_wait] reported, the open sockets
    of clients are those in the table, they are the accepted ones whose handler
    and registration with epoll succeeded less those that an event or a failed
    send disconnected (greetings and farewells, which disconnecting a client
    sends in turn, included), exactly their clients have a handler, and no
    pointer is left; and the destructor then closes every socket, empties the
    table and has ended every handler's thread.  Run alone means that no
    handler's thread makes a call of its own (it only ends, when its handler
    is destroyed), that [receive_data] always returns, and that every call of
    the kernel is answered.  Only of such runs is it shown that every call of
    the loop returns and that the process is not terminated: with handlers
    that reply it may be ([failed_reply_terminates_the_server]), and
    [receive_data] may wait for ever ([long_line_blocks_the_server]). *)
Theorem event_loop_keeps_registry m_listenFd waits answers last_sent
    (actions := combine (run m_listenFd waits).1 answers) (Hfresh : fresh_descriptors actions ∅) :
  exists s s', perform_all actions make_server_clients = Some s /\
    serve_and_close m_listenFd waits answers last_sent = Some s' /\
    (rtc server_step make_server_clients s /\ terminated s = false /\ tasks s = [] /\
     dom (m_clients s) = registry actions ∅ /\ open_fds s = registry actions ∅ /\
     forall c d, clients s !! c = Some d ->
       (m_connection d = true <-> m_clients s !! fd d = Some c) /\ (running d = true -> m_connection d = true)) /\
    (rtc server_step make_server_clients s' /\ terminated s' = false /\ tasks s' = [] /\
     m_clients s' = ∅ /\ open_fds s' = ∅ /\
     forall c d, clients s' !! c = Some d -> m_connection d = false /\ running d = false).
Proof.
  destruct (perform_all_leads actions make_server_clients make_server_clients_alone) as (s & E & Ha & Hk & Ht); [done..|].
  destruct (cleanup_leads last_sent s Ha Hk) as (s' & E' & Ha' & Hk' & Ht').
  exists s, s'. split_and!; try done; try apply Ha; try apply Ha'.
  - unfold serve_and_close. fold actions. by rewrite E.
  - by rewrite (idle_sockets _ _ Ha Hk), Ht.
  - intros c d Hd. split; [|by eapply (alone_handlers _ _ Ha)]. by apply (idle_handlers s).
  - by rewrite (idle_sockets _ _ Ha' Hk'), Ht', dom_empty_L.
  - intros c d Hd. assert (m_connection d = false) as Hm.
    { apply not_true_is_false. intros Hm%(idle_handlers s' c d Ha' Hk' Hd). by rewrite Ht', lookup_empty in Hm. }
    split; [done|]. apply not_true_is_false. intros Hr. by rewrite (alone_handlers _ _ Ha' _ _ Hd Hr) in Hm.
Qed.

(** Four clients come: epoll does not take the second, the handler of the
    fourth cannot be made; the first hangs up, its number is used again, and
    Enter is pressed, when the third does not receive any more. *)
Definition busy_waits : list (list epoll_event + errno_t) :=
  [inl [EpollEvent 3 EPOLLIN [SysOk 7; SysErr EINTR; SysOk 8; SysOk 9; SysOk 10; SysErr EAGAIN] []];
   inr EINTR;
   inl [EpollEvent 7 (Z.lor EPOLLIN EPOLLHUP) [] []; EpollEvent 3 EPOLLIN [SysOk 7; SysErr EAGAIN] []];
   inl [EpollEvent 9 EPOLLIN [] []; EpollEvent 0 EPOLLIN [] [RecvData [x0a]]]].

Definition busy_answers : list action_answers :=
  let to_all start received := Answers start received (fun _ => true) in
  [to_all (HandlerStarted 0) None; to_all (HandlerStarted (-1)) None; to_all (HandlerStarted 0) None;
   to_all HandlerThrows None; to_all HandlerThrows (Some true); to_all (HandlerStarted 0) None;
   to_all HandlerThrows (Some true); Answers HandlerThrows None (fun z => negb (z =? 9))].

Lemma event_loop_keeps_registry_witness :
  exists s s', perform_all (combine (run 3 busy_waits).1 busy_answers) make_server_clients = Some s /\
    open_fds s = {[7]} /\ serve_and_close 3 busy_waits busy_answers (fun _ => true) = Some s' /\ open_fds s' = ∅.
Proof.
  destruct (event_loop_keeps_registry 3 busy_waits busy_answers (fun _ => true)) as (s & s' & E & E' & Hs & Hs').
  - vm_compute. repeat split; try done; intros H; set_solver.
  - exists s, s'. split_and!; [done| |done|by apply Hs'].
    destruct Hs as (_ & _ & _ & _ & -> & _). by vm_compute.
Defined.

(** A greeting that cannot be sent closes the client before its handler is in
    place: nothing of it is left. *)
Example unreachable_client :
  exists s, start_connection_handler (fun _ => false) 7 (HandlerStarted 0) make_server_clients = Some (false, s) /\
    m_clients s = ∅ /\ open_fds s = ∅ /\ tasks s = [].
Proof. eexists. split; [by vm_compute|]. by vm_compute. Qed.

(** A handler's failed broadcast closes client 7 while the batch of events at
    hand still has one for it; an accept earlier in the batch gets number 7. *)
Definition closed_behind : list server_event :=
  registration 7 0 ++ registration 8 1 ++
  [Disconnect (HandlerThread 1) 7; RunTask 0; RunTask 0; ThreadEnds 0; RunTask 0].

(** The event reported for the client that is gone disconnects the one that
    was accepted next. *)
Theorem stale_event_disconnects_new_client :
  let sent := fun _ : Z => true in
  exists s s1 s2, rtc server_step make_server_clients s /\ m_clients s !! 7 = None /\
    start_connection_handler sent 7 (HandlerStarted 0) s = Some (true, s1) /\ m_clients s1 !! 7 = Some 2%nat /\
    handle_client sent 7 EPOLLHUP None s1 = Some s2 /\ m_clients s2 !! 7 = None.
Proof.
  exists (server_after closed_behind). eexists. eexists.
  split; [apply server_after_run; vm_compute; by eexists|].
  split; [by vm_compute|]. split; [by vm_compute|]. split; [by vm_compute|]. split; by vm_compute.
Qed.
