(* ===== verification/ChatSystem.v ===== *)
(** The whole chat: the table of clients of ServerClients.v, a handler of
    ConnectionSystem.v for every client, and what their threads ask of the
    server, [reply], [broadcast] and [user_quit] of [samples/chat/server.h],
    down to the bytes that [send_data] of Server.v puts on each socket.

    A handler's thread goes through the actions of a line one after the
    other, and reads on only then; main greets a client before it does
    anything else.  What the model leaves open is more than the code does: any
    thread may disconnect a client at any time, and main may look up clients
    and close the server at any time.  The farewell that a handler's
    destructor broadcasts, from whichever thread destroys it, is left out. *)

From stdpp Require Import functions.
From S2P Require Import Prelude Memory Resource Pools Pipeline PipelineProofs PipelineTheorems PipelineSystem Text System Lines Commands.
From S2P Require Import Connection ConnectionSystem Server ServerClients.

(** A call of the server: the clients still to be served, and as history the
    table it found, how many clients there had been, and for each client it
    has served the bytes sent and the result. *)
Record server_call := Call {
  sc_action : action;
  sc_table : gmap Z nat;
  sc_known : nat;
  sc_rest : list nat;
  sc_results : list (nat * (bytes * bool))
}.

(** A thread's actions to come, the call it is in, and the calls it has made. *)
Record thread_work := Work {
  w_todo : list action;
  w_now : option server_call;
  w_done : list server_call
}.

Definition no_work : thread_work := Work [] None [].

Definition idle_work (w : thread_work) : bool :=
  match w_todo w, w_now w with [], None => true | _, _ => false end.

(** The clients a call goes to, from the table it finds. *)
Definition addressed (a : action) (table : gmap Z nat) : list nat :=
  match a with
  | Reply id _ | UserQuit id => option_list (table !! id)
  | Connection.Broadcast _ => map snd (map_to_list table)
  | Log _ _ => []
  end.

Definition lookup_event (t : thread) (a : action) : option server_event :=
  match a with
  | Reply id _ | UserQuit id => Some (FindClient t id)
  | Connection.Broadcast _ => Some (Broadcast t)
  | Log _ _ => None
  end.

Definition message_of (a : action) : option bytes :=
  match a with Reply _ message | Connection.Broadcast message => Some message | _ => None end.

(** Under the lock: [send_data], or the shutdown of [user_quit]. *)
Definition serve_under_lock (a : action) (fd : Z) (sends : list sys_result) (polls : list poll_result) : bytes * loop_state bool :=
  match message_of a with
  | Some message => send_data fd message sends polls
  | None => ([], LoopDone true)
  end.

Fixpoint take_out (c : nat) (l : list nat) : option (list nat) :=
  match l with
  | [] => None
  | c' :: l => if Nat.eqb c' c then Some l else l ← take_out c l; Some (c' :: l)
  end.

(** Client [c] has been served. *)
Definition after_serving (c : nat) (r : bytes * bool) (w : thread_work) : option thread_work :=
  call ← w_now w;
  rest ← take_out c (sc_rest call);
  Some (Work (w_todo w)
    (Some (Call (sc_action call) (sc_table call) (sc_known call) rest (sc_results call ++ [(c, r)]))) (w_done w)).

Section chat.
Context {R : Type} `{ResourceLaws R}.
Context (p : pipeline R) (m : memory). (* a handler's new pipeline *)

(** [ch_sent]: what each call of [send_data] put on a client's socket, and the
    thread that made it. *)
Record chat := Chat {
  ch_server : server;
  ch_conns : gmap nat (Z * connection (R := R));
  ch_works : thread -> thread_work;
  ch_sent : nat -> list (thread * bytes)
}.

Definition start_chat : chat := Chat make_server_clients ∅ (fun _ => no_work) (fun _ => []).

Inductive chat_event :=
  | Table (e : server_event)                 (* a step of the table that is no part of a call *)
  | Connect (client : nat)                   (* the handler of a new client *)
  | Handler (client : nat) (e : conn_event)  (* a step of a handler's pipeline or thread *)
  | Shutdown                                 (* enter was pressed *)
  | BeginCall (t : thread)                       (* the next action, up to the lookup of the clients *)
  | LockClient (t : thread) (i : nat)
  | Serve (t : thread) (i : nat) (sends : list sys_result) (polls : list poll_result)
  | EndCall (t : thread)
  | HandlerEnds (client : nat).

(** The pointers of a call are kept until its end. *)
Definition free_event (e : server_event) (ch : chat) : bool :=
  match e with
  | Accept _ | Disconnect _ _ | Cleanup => true
  | FindClient t _ => bool_decide (t = Main)
  | RunTask i =>
      match tasks (ch_server ch) !! i with
      | Some (t, Held _) => match w_now (ch_works ch t) with None => true | Some _ => false end
      | Some (_, Sending _ _) => false
      | _ => true
      end
  | _ => false
  end.

Definition with_server (s : server) (ch : chat) : chat := Chat s (ch_conns ch) (ch_works ch) (ch_sent ch).

Definition with_work (s : server) (t : thread) (w : thread_work) (ch : chat) : chat :=
  Chat s (ch_conns ch) (<[t := w]> (ch_works ch)) (ch_sent ch).

Definition connect (c : nat) (ch : chat) : option chat :=
  d ← clients (ch_server ch) !! c;
  s ← server_exec (StartHandler c) (ch_server ch);
  let id := unique_id d in
  if idle_work (ch_works ch Main) && bool_decide (ch_conns ch !! c = None) then
    Some (Chat s (<[c := (id, make_connection id p m)]> (ch_conns ch))
      (<[Main := Work (greet id (initial_name id)) None (w_done (ch_works ch Main))]> (ch_works ch)) (ch_sent ch))
  else None.

(** [run] before it returns. *)
Definition shutdown (ch : chat) : option chat :=
  if idle_work (ch_works ch Main) then
    Some (with_work (ch_server ch) Main
      (Work [Connection.Broadcast (text "[📣: I'm shutting down... Bye! 👋]
")] None (w_done (ch_works ch Main))) ch)
  else None.

(** The thread of a handler goes on when its actions are done. *)
Definition handler_step (c : nat) (e : conn_event) (ch : chat) : option chat :=
  match ch_conns ch !! c with
  | None => None
  | Some (id, conn) =>
      let w := ch_works ch (HandlerThread c) in
      if match e with ThreadStep => idle_work w | _ => true end then
        conn' ← conn_exec id e conn;
        let actions := drop (length (c_actions conn)) (c_actions conn') in
        Some (Chat (ch_server ch) (<[c := (id, conn')]> (ch_conns ch))
          (<[HandlerThread c := Work (w_todo w ++ actions) (w_now w) (w_done w)]> (ch_works ch)) (ch_sent ch))
      else None
  end.

Definition begin_call (t : thread) (ch : chat) : option chat :=
  match ch_works ch t with
  | Work (a :: todo) None finished =>
      let table := m_clients (ch_server ch) in
      let call := Call a table (length (clients (ch_server ch))) (addressed a table) [] in
      s ← match lookup_event t a with Some e => server_exec e (ch_server ch) | None => Some (ch_server ch) end;
      Some (with_work s t (Work todo (Some call) finished) ch)
  | _ => None
  end.

(** Thread [t] has served client [c]. *)
Definition serve_done (s : server) (t : thread) (c : nat) (r : bytes * bool) (ch : chat) : option chat :=
  call ← w_now (ch_works ch t);
  w ← after_serving c r (ch_works ch t);
  Some (Chat s (ch_conns ch) (<[t := w]> (ch_works ch))
    (match message_of (sc_action call) with
     | Some _ => alter (fun l => l ++ [(t, r.1)]) c (ch_sent ch)
     | None => ch_sent ch
     end)).

(** The lock of [send_data] or [user_quit], and the load of the descriptor;
    a client that was closed is not served. *)
Definition lock_for (t : thread) (i : nat) (ch : chat) : option chat :=
  match tasks (ch_server ch) !! i with
  | Some (t', Held c) =>
      d ← clients (ch_server ch) !! c;
      s ← server_exec (Lock i) (ch_server ch);
      if negb (bool_decide (t' = t)) then None
      else if fd d <? 0 then serve_done s t c ([], false) ch
      else if existsb (fun call => bool_decide (c ∈ sc_rest call)) (option_list (w_now (ch_works ch t)))
      then Some (with_server s ch) else None
  | _ => None
  end.

Definition serve_client (t : thread) (i : nat) (sends : list sys_result) (polls : list poll_result) (ch : chat)
    : option chat :=
  match tasks (ch_server ch) !! i, w_now (ch_works ch t) with
  | Some (t', Sending c fd), Some call =>
      match serve_under_lock (sc_action call) fd sends polls with
      | (wire, LoopDone ok) =>
          s ← server_exec (RunTask i) (ch_server ch);
          if bool_decide (t' = t) then serve_done s t c (wire, ok) ch else None
      | _ => None
      end
  | _, _ => None
  end.

Definition end_call (t : thread) (ch : chat) : option chat :=
  match ch_works ch t with
  | Work todo (Some call) finished =>
      match sc_rest call with
      | [] => Some (with_work (ch_server ch) t (Work todo None (finished ++ [call])) ch)
      | _ => None
      end
  | _ => None
  end.

Definition handler_ends (c : nat) (ch : chat) : option chat :=
  match ch_conns ch !! c with
  | Some (id, conn) =>
      s ← server_exec (ThreadEnds c) (ch_server ch);
      match c_phase conn with
      | Finished => if idle_work (ch_works ch (HandlerThread c)) then Some (with_server s ch) else None
      | _ => None
      end
  | None => None
  end.

Definition chat_exec (e : chat_event) (ch : chat) : option chat :=
  match e with
  | Table e => if free_event e ch then s ← server_exec e (ch_server ch); Some (with_server s ch) else None
  | Connect c => connect c ch
  | Handler c e => handler_step c e ch
  | Shutdown => shutdown ch
  | BeginCall t => begin_call t ch
  | LockClient t i => lock_for t i ch
  | Serve t i sends polls => serve_client t i sends polls ch
  | EndCall t => end_call t ch
  | HandlerEnds c => handler_ends c ch
  end.

Inductive chat_step (ch ch' : chat) : Prop :=
  | ChatStep e : chat_exec e ch = Some ch' -> chat_step ch ch'.

Fixpoint chat_exec_all (es : list chat_event) (ch : chat) : option chat :=
  match es with
  | [] => Some ch
  | e :: es => ch' ← chat_exec e ch; chat_exec_all es ch'
  end.

Lemma chat_exec_all_run es ch ch' : chat_exec_all es ch = Some ch' -> rtc chat_step ch ch'.
Proof.
  revert ch. induction es as [|e es IH]; intros ch E; cbn in E; [by simplify_eq|].
  destruct (chat_exec e ch) as [ch1|] eqn:E1; [|done]. eapply rtc_l; [by eapply ChatStep|by apply IH].
Qed.

(** ** What an event leaves of the table *)

(** Clients stay in the list, with their identifiers; a new one comes last,
    under a descriptor that was closed; the table loses entries, or gains the
    new client. *)
Record table_frame (s s' : server) : Prop := {
  tf_clients c d : clients s !! c = Some d -> exists d', clients s' !! c = Some d' /\ unique_id d' = unique_id d;
  tf_new c d' : clients s' !! c = Some d' -> (length (clients s) <= c)%nat -> unique_id d' ∉ open_fds s;
  tf_length : (length (clients s) <= length (clients s') <= S (length (clients s)))%nat;
  tf_table z b : m_clients s' !! z = Some b -> m_clients s !! z = Some b \/ b = length (clients s)
}.

Lemma table_frame_same s s' :
  clients s' = clients s -> (forall z b, m_clients s' !! z = Some b -> m_clients s !! z = Some b) -> table_frame s s'.
Proof.
  intros Ec Em. split; rewrite ?Ec; [eauto|intros c d Hc%lookup_lt_Some; lia|lia|intros z b Hb; left; by apply Em].
Qed.

(** One client changes, and keeps its identifier. *)
Lemma table_frame_insert s s' c d d' :
  clients s !! c = Some d -> clients s' = <[c := d']> (clients s) -> unique_id d' = unique_id d ->
  m_clients s' = m_clients s -> table_frame s s'.
Proof.
  intros Hd Ec Ei Em. split; rewrite ?Ec, ?Em, ?length_insert; [|intros c' d1 Hc%lookup_lt_Some; rewrite length_insert in Hc; lia|lia|by left].
  intros c' d1 Hd1. destruct (decide (c = c')) as [<-|Hne]; [|exists d1; by rewrite list_lookup_insert_ne].
  exists d'. rewrite Hd in Hd1. injection Hd1 as <-. split; [|done]. apply list_lookup_insert_eq. by eapply lookup_lt_Some.
Qed.

Lemma accept_frame new_fd s s' : accept new_fd s = Some s' -> table_frame s s'.
Proof.
  intros E. unfold accept in E. destruct (Z.ltb_spec new_fd 0); [done|]. case_bool_decide as Hnew; [done|]. cbn [orb] in E.
  assert (clients s' = clients s ++ [ConnectionData new_fd new_fd false false] /\
    forall z b, m_clients s' !! z = Some b -> m_clients s !! z = Some b \/ b = length (clients s)) as [Ec Em].
  { destruct (m_clients s !! new_fd) eqn:Et; injection E as <-; (split; [done|]); cbn; intros z b Hb; [by left|].
    apply lookup_insert_Some in Hb as [[_ <-]|[_ Hb]]; [by right|by left]. }
  split; rewrite ?Ec, ?length_app; cbn [length]; [| |lia|exact Em].
  - intros c d Hc. exists d. split; [by apply lookup_app_l_Some|done].
  - intros c d' [Hc%lookup_lt_Some|[_ Hc]]%lookup_app_Some Hge; [lia|]. by apply list_lookup_singleton_Some in Hc as [_ <-].
Qed.

Lemma server_exec_frame e s s' : server_exec e s = Some s' -> table_frame s s'.
Proof.
  intros E. unfold server_exec in E. destruct (terminated s); [done|]. destruct e as [z|c|t id|t|t id|i|i|c|].
  - by eapply accept_frame.
  - unfold start_handler in E. destruct (clients s !! c) as [d|] eqn:Ed; [|done]. cbn in E. destruct (_ && _); [|done].
    injection E as <-. by eapply table_frame_insert.
  - unfold find_client in E. destruct (negb _); [done|]. destruct (m_clients s !! id); injection E as <-; by apply table_frame_same.
  - unfold broadcast in E. destruct (negb _); [done|]. injection E as <-. by apply table_frame_same.
  - unfold disconnect_client in E. destruct (negb _); [done|]. destruct (m_clients s !! id); injection E as <-; [|by apply table_frame_same].
    apply table_frame_same; [done|]. intros z b Hb. cbn in Hb. by apply lookup_delete_Some in Hb as [_ Hb].
  - unfold run_task in E. destruct (tasks s !! i) as [[t [c|c|c z|c z]]|]; [..|done].
    + unfold drop_client in E. destruct (_ || _); [injection E as <-; by apply table_frame_same|].
      destruct (clients s !! c) as [d|] eqn:Ed; [|done]. cbn in E.
      destruct (negb _); [injection E as <-; by apply table_frame_same|].
      case_bool_decide; [injection E as <-; by apply table_frame_same|]. destruct (running d); [done|].
      injection E as <-. by eapply table_frame_insert.
    + unfold close_exchange in E. destruct (clients s !! c) as [d|] eqn:Ed; [|done]. cbn in E.
      destruct (fd d <? 0); injection E as <-; [by apply table_frame_same|by eapply table_frame_insert].
    + unfold close_descriptor in E. destruct (existsb _ _); [done|]. injection E as <-. by apply table_frame_same.
    + injection E as <-. by apply table_frame_same.
  - unfold lock_client in E. destruct (tasks s !! i) as [[t [c|c|c z|c z]]|]; try done. destruct (existsb _ _); [done|].
    destruct (clients s !! c) as [d|]; [|done]. cbn in E. destruct (fd d <? 0); injection E as <-; by apply table_frame_same.
  - unfold thread_ends in E. destruct (existsb _ _); [done|]. destruct (clients s !! c) as [d|] eqn:Ed; [|done]. cbn in E.
    injection E as <-. by eapply table_frame_insert.
  - injection E as <-. by apply table_frame_same.
Qed.

Lemma table_injective s z z' b : server_ok s -> m_clients s !! z = Some b -> m_clients s !! z' = Some b -> z = z'.
Proof.
  intros Hok Hz Hz'. destruct (ok_table _ Hok _ _ Hz) as (_ & d & Hd & <-). destruct (ok_table _ Hok _ _ Hz') as (_ & d' & Hd' & <-).
  congruence.
Qed.

Lemma table_open s z b : server_ok s -> m_clients s !! z = Some b -> z ∈ open_fds s.
Proof. intros Hok Hz. destruct (ok_table _ Hok _ _ Hz) as (Hpos & d & Hd & <-). by eapply owned_open. Qed.

(** ** The invariant *)

(** A thread's calls, the last of them perhaps still running. *)
Definition calls (w : thread_work) : list server_call := w_done w ++ option_list (w_now w).

(** What a call did for client [b]; its bytes on the client's socket. *)
Definition results_at (b : nat) (call : server_call) : list (bytes * bool) :=
  omap (fun '(c, r) => if Nat.eqb c b then Some r else None) (sc_results call).

Definition wires_at (b : nat) (call : server_call) : list bytes :=
  match message_of (sc_action call) with Some _ => map fst (results_at b call) | None => [] end.

(** What thread [t] put on a client's socket. *)
Definition sent_by (t : thread) (sent : list (thread * bytes)) : list bytes :=
  omap (fun '(t', wire) => if decide (t' = t) then Some wire else None) sent.

(** What a [send_data] of [message] leaves behind. *)
Definition result_ok (a : action) (r : bytes * bool) : Prop :=
  forall message, message_of a = Some message -> r.1 `prefix_of` message /\ (r.2 = true -> r.1 = message).

Record call_ok (s : server) (call : server_call) : Prop := {
  cl_addressed : map fst (sc_results call) ++ sc_rest call ≡ₚ addressed (sc_action call) (sc_table call);
  cl_results : Forall (fun r => result_ok (sc_action call) r.2) (sc_results call);
  cl_known : (sc_known call <= length (clients s))%nat;
  cl_old z b : sc_table call !! z = Some b -> (b < sc_known call)%nat;
  cl_injective z z' b : sc_table call !! z = Some b -> sc_table call !! z' = Some b -> z = z';
  cl_still z b : m_clients s !! z = Some b -> (b < sc_known call)%nat -> sc_table call !! z = Some b
}.

(** The identifier of a client is not the key of an older one. *)
Definition ids_new (s : server) : Prop :=
  forall c d z b, clients s !! c = Some d -> m_clients s !! z = Some b -> (b < c)%nat -> z ≠ unique_id d.

Record conn_works (s : server) (c : nat) (id : Z) (conn : connection (R := R)) (w : thread_work) : Prop := {
  cw_ok : conn_ok id conn;
  cw_actions : map sc_action (calls w) ++ w_todo w = c_actions conn;
  cw_known : Forall (fun call => (c < sc_known call)%nat) (calls w);
  cw_client : exists d, clients s !! c = Some d /\ unique_id d = id
}.

Record chat_ok (ch : chat) : Prop := {
  ck_server : server_ok (ch_server ch);
  ck_ids : ids_new (ch_server ch);
  ck_conns c : match ch_conns ch !! c with
    | Some (id, conn) => conn_works (ch_server ch) c id conn (ch_works ch (HandlerThread c))
    | None => ch_works ch (HandlerThread c) = no_work
    end;
  ck_calls t : Forall (call_ok (ch_server ch)) (calls (ch_works ch t));
  ck_done t : Forall (fun call => sc_rest call = []) (w_done (ch_works ch t));
  ck_sent t b : sent_by t (ch_sent ch b) = concat (map (wires_at b) (calls (ch_works ch t)))
}.

Lemma start_chat_ok : chat_ok start_chat.
Proof. split; [apply make_server_clients_ok|done|done|constructor|constructor|done]. Qed.

(** *** Steps of the table *)

Lemma call_ok_frame s s' call : table_frame s s' -> call_ok s call -> call_ok s' call.
Proof.
  intros [_ _ Hl Ht] [Ha Hr Hk Ho Hi Hs]. split; try done; [lia|].
  intros z b [Hb|Hb]%Ht Hlt; [by apply Hs|lia].
Qed.

Lemma ids_new_frame s s' : server_ok s -> table_frame s s' -> ids_new s -> ids_new s'.
Proof.
  intros Hok [Hc Hn Hl Ht] Hids c d' z b Hd' Hb Hlt. destruct (Ht _ _ Hb) as [Hb'|Hb']; [|apply lookup_lt_Some in Hd'; lia].
  destruct (clients s !! c) as [d|] eqn:Hd.
  - destruct (Hc _ _ Hd) as (d1 & Hd1 & E). rewrite Hd' in Hd1. injection Hd1 as <-. rewrite E. by eapply Hids.
  - apply lookup_ge_None in Hd. intros ->. by apply (Hn _ _ Hd' Hd), (table_open _ _ b).
Qed.

Lemma conn_works_frame s s' c id conn w : table_frame s s' -> conn_works s c id conn w -> conn_works s' c id conn w.
Proof.
  intros [Hc _ _ _] [Hok Ha Hk (d & Hd & <-)]. split; try done. destruct (Hc _ _ Hd) as (d' & Hd' & E). by exists d'.
Qed.

(** The server takes a step; what the threads have done stays. *)
Lemma with_server_ok s ch :
  server_ok s -> table_frame (ch_server ch) s -> chat_ok ch -> chat_ok (with_server s ch).
Proof.
  intros Hs Hf [Hok Hids Hc Hcl Hd Hse]. split; cbn [with_server ch_server ch_conns ch_works ch_sent]; try done.
  - by eapply ids_new_frame.
  - intros c. specialize (Hc c). destruct (ch_conns ch !! c) as [[id conn]|]; [by eapply conn_works_frame|done].
  - intros t. eapply Forall_impl; [apply Hcl|]. intros call. by apply call_ok_frame.
Qed.

Lemma server_step_ok e s ch : chat_ok ch -> server_exec e (ch_server ch) = Some s -> chat_ok (with_server s ch).
Proof.
  intros Hok E. apply with_server_ok; [|by eapply server_exec_frame|done]. by eapply server_exec_ok; [apply ck_server|].
Qed.

(** *** Steps of a call *)

(** Thread [t] goes on with its actions. *)
Lemma work_step_ok s t w' sent' ch :
  chat_ok ch -> server_ok s -> table_frame (ch_server ch) s -> ch_works ch t ≠ no_work ->
  map sc_action (calls w') ++ w_todo w' = map sc_action (calls (ch_works ch t)) ++ w_todo (ch_works ch t) ->
  Forall (fun call => sc_known call ∈ map sc_known (calls (ch_works ch t)) \/ sc_known call = length (clients (ch_server ch)))
    (calls w') ->
  Forall (call_ok s) (calls w') -> Forall (fun call => sc_rest call = []) (w_done w') ->
  (forall b, sent_by t (sent' b) = concat (map (wires_at b) (calls w'))) ->
  (forall t' b, t' ≠ t -> sent_by t' (sent' b) = sent_by t' (ch_sent ch b)) ->
  chat_ok (Chat s (ch_conns ch) (<[t := w']> (ch_works ch)) sent').
Proof.
  intros Hok Hs Hf Hw Ha Hk Hcl Hd Hst Hso. destruct (with_server_ok s ch Hs Hf Hok) as [_ Hids Hc Hcls Hds Hse].
  cbn [with_server ch_server ch_conns ch_works ch_sent] in *. split; cbn [ch_server ch_conns ch_works ch_sent]; try done.
  - intros c. specialize (Hc c). destruct (decide (t = HandlerThread c)) as [->|Hne]; [|by rewrite fn_lookup_insert_ne].
    rewrite fn_lookup_insert. pose proof (ck_conns _ Hok c) as Hc0. destruct (ch_conns ch !! c) as [[id conn]|]; [|done].
    destruct Hc as [Hco Hac Hkn Hcli]. destruct Hc0 as [_ _ _ (d0 & Hd0%lookup_lt_Some & _)].
    split; [done|by rewrite Ha| |done]. eapply Forall_impl; [exact Hk|]. cbn.
    intros call [(call0 & -> & Hin)%list_elem_of_fmap| ->]; [|done]. by apply (proj1 (Forall_forall _ _) Hkn).
  - intros t'. destruct (decide (t = t')) as [<-|Hne]; [by rewrite fn_lookup_insert|rewrite fn_lookup_insert_ne by done; apply Hcls].
  - intros t'. destruct (decide (t = t')) as [<-|Hne]; [by rewrite fn_lookup_insert|rewrite fn_lookup_insert_ne by done; apply Hds].
  - intros t' b. destruct (decide (t = t')) as [<-|Hne]; [by rewrite fn_lookup_insert|].
    rewrite fn_lookup_insert_ne, Hso by done. apply Hse.
Qed.

Lemma addressed_table s a :
  server_ok s -> call_ok s (Call a (m_clients s) (length (clients s)) (addressed a (m_clients s)) []).
Proof.
  intros Hok. split; cbn; try done.
  - intros z b Hb. destruct (ok_table _ Hok _ _ Hb) as (_ & d & Hd%lookup_lt_Some & _). done.
  - intros z z' b. by apply table_injective.
Qed.

Lemma begin_call_ok t ch ch' : chat_ok ch -> begin_call t ch = Some ch' -> chat_ok ch'.
Proof.
  intros Hok E. unfold begin_call in E. destruct (ch_works ch t) as [[|a todo] [|] finished] eqn:Ew; try done.
  pose proof (ck_server _ Hok) as Hs. pose proof (addressed_table (ch_server ch) a Hs) as Hnew.
  destruct (match lookup_event t a with Some e => server_exec e (ch_server ch) | None => Some (ch_server ch) end) as [s|] eqn:Es; [|done].
  injection E as <-. assert (server_ok s /\ table_frame (ch_server ch) s) as [Hs' Hf].
  { destruct (lookup_event t a) as [e|]; [split; [by eapply server_exec_ok|by eapply server_exec_frame]|].
    injection Es as <-. split; [done|by apply table_frame_same]. }
  pose proof (ck_calls _ Hok t) as Hcl. pose proof (ck_done _ Hok t) as Hd. pose proof (ck_sent _ Hok t) as Hse. rewrite Ew in Hcl, Hd, Hse.
  unfold with_work, calls in *. cbn [w_done w_now w_todo option_list] in *. rewrite app_nil_r in Hcl, Hse.
  apply work_step_ok; rewrite ?Ew; unfold calls; cbn [w_done w_now w_todo option_list]; rewrite ?app_nil_r; try done.
  - by rewrite map_app, <- app_assoc.
  - apply Forall_app. split; [|apply Forall_singleton; by right]. apply Forall_forall. intros call Hin. left. by apply list_elem_of_fmap_2.
  - apply Forall_app. split; [|apply Forall_singleton; by eapply call_ok_frame].
    eapply Forall_impl; [exact Hcl|]. intros call. by apply call_ok_frame.
  - intros b. rewrite Hse, map_app, concat_app. cbn. unfold wires_at at 3. cbn. by destruct (message_of a); rewrite app_nil_r.
Qed.

Lemma end_call_ok t ch ch' : chat_ok ch -> end_call t ch = Some ch' -> chat_ok ch'.
Proof.
  intros Hok E. unfold end_call in E. destruct (ch_works ch t) as [todo [call|] finished] eqn:Ew; [|done].
  destruct (sc_rest call) eqn:Er; [|done]. injection E as <-.
  pose proof (ck_calls _ Hok t) as Hcl. pose proof (ck_done _ Hok t) as Hd. pose proof (ck_sent _ Hok t) as Hse. rewrite Ew in Hcl, Hd, Hse.
  unfold with_work, calls in *. cbn [w_done w_now w_todo option_list] in *.
  apply work_step_ok; rewrite ?Ew; unfold calls; cbn [w_done w_now w_todo option_list]; rewrite ?app_nil_r; try done.
  - apply Hok.
  - by apply table_frame_same.
  - apply Forall_forall. intros call' Hin. left. by apply list_elem_of_fmap_2.
  - apply Forall_app. split; [done|by apply Forall_singleton].
Qed.

(** *** Serving a client *)

Lemma take_out_permutation c l k : take_out c l = Some k -> l ≡ₚ c :: k.
Proof.
  revert k. induction l as [|c' l IH]; intros k E; [done|]. cbn in E. destruct (Nat.eqb_spec c' c) as [->|]; [by injection E as <-|].
  destruct (take_out c l) as [k'|]; [|done]. injection E as <-. rewrite (IH k' eq_refl). apply Permutation_swap.
Qed.

Lemma sent_by_app t l k : sent_by t (l ++ k) = sent_by t l ++ sent_by t k.
Proof. apply omap_app. Qed.

(** The new entry is the thread's, on the client's socket. *)
Lemma sent_alter t t' c b wire (sent : nat -> list (thread * bytes)) :
  sent_by t' (alter (fun l => l ++ [(t, wire)]) c sent b) =
  sent_by t' (sent b) ++ (if decide (t = t' /\ c = b) then [wire] else []).
Proof.
  destruct (decide (c = b)) as [<-|Hne].
  - rewrite fn_lookup_alter, sent_by_app. f_equal. unfold sent_by. cbn.
    destruct (decide (t = t')), (decide (t = t' /\ c = c)); tauto.
  - rewrite fn_lookup_alter_ne by done. rewrite decide_False by tauto. by rewrite app_nil_r.
Qed.

Lemma after_serving_inv c r w w' :
  after_serving c r w = Some w' ->
  exists call rest, w_now w = Some call /\ sc_rest call ≡ₚ c :: rest /\
    w' = Work (w_todo w) (Some (Call (sc_action call) (sc_table call) (sc_known call) rest (sc_results call ++ [(c, r)]))) (w_done w).
Proof.
  unfold after_serving. destruct (w_now w) as [call|]; [|done]. cbn. destruct (take_out c (sc_rest call)) as [rest|] eqn:E; [|done].
  intros [= <-]. exists call, rest. split; [done|]. split; [by apply take_out_permutation|done].
Qed.

Lemma serve_done_ok s t c r ch ch' :
  chat_ok ch -> server_ok s -> table_frame (ch_server ch) s ->
  (forall call, w_now (ch_works ch t) = Some call -> result_ok (sc_action call) r) ->
  serve_done s t c r ch = Some ch' -> chat_ok ch'.
Proof.
  intros Hok Hs Hf Hr E. unfold serve_done in E. destruct (w_now (ch_works ch t)) as [call0|] eqn:En; [|done]. cbn in E.
  destruct (after_serving c r (ch_works ch t)) as [w'|] eqn:Ew; [|done]. cbn in E. injection E as <-.
  destruct (after_serving_inv _ _ _ _ Ew) as (call & rest & En' & Hrest & ->). rewrite En in En'. injection En' as ->.
  specialize (Hr call eq_refl). pose proof (ck_calls _ Hok t) as Hcl. pose proof (ck_done _ Hok t) as Hd. pose proof (ck_sent _ Hok t) as Hse.
  unfold calls in Hcl, Hse. rewrite En in Hcl, Hse. cbn [option_list] in Hcl, Hse. apply Forall_app in Hcl as [Hcl [Hc _]%Forall_cons].
  apply work_step_ok; unfold calls; cbn [w_done w_now w_todo option_list]; try done.
  - intros Ew0. by rewrite Ew0 in En.
  - rewrite En. cbn [option_list]. by rewrite !map_app.
  - rewrite En. cbn [option_list]. apply Forall_app. split.
    + apply Forall_forall. intros call' Hin. left. apply list_elem_of_fmap_2, elem_of_app. by left.
    + apply Forall_singleton. left. cbn. apply list_elem_of_fmap_2, elem_of_app. right. by apply list_elem_of_singleton.
  - apply Forall_app. split; [eapply Forall_impl; [exact Hcl|]; intros call'; by apply call_ok_frame|].
    apply Forall_singleton. destruct (call_ok_frame _ _ _ Hf Hc) as [Ha Hres Hk Ho Hi Hst]. split; cbn; try done.
    + rewrite <- Ha, map_app, Hrest, <- app_assoc. done.
    + apply Forall_app. split; [done|]. by apply Forall_singleton.
  - intros b. change (option_list (Some ?x)) with [x]. assert (concat (map (wires_at b) (w_done (ch_works ch t) ++
      [Call (sc_action call) (sc_table call) (sc_known call) rest (sc_results call ++ [(c, r)])])) =
      sent_by t (ch_sent ch b) ++ match message_of (sc_action call) with Some _ => if decide (c = b) then [r.1] else [] | None => [] end) as ->.
    { rewrite Hse, !map_app, !concat_app, <- app_assoc. f_equal. cbn. rewrite !app_nil_r. unfold wires_at, results_at. cbn.
      rewrite omap_app. cbn. destruct (message_of _); [|done]. rewrite map_app. f_equal.
      destruct (Nat.eqb_spec c b), (decide (c = b)); done. }
    destruct (message_of (sc_action call)); [|by rewrite app_nil_r]. rewrite sent_alter. f_equal.
    destruct (decide (t = t /\ c = b)), (decide (c = b)); tauto.
  - intros t' b Hne. destruct (message_of (sc_action call)); [|done]. rewrite sent_alter, decide_False by (by intros [<- _]). by rewrite app_nil_r.
Qed.

Lemma serve_result a fd sends polls wire ok :
  0 <= fd -> serve_under_lock a fd sends polls = (wire, LoopDone ok) -> result_ok a (wire, ok).
Proof.
  intros Hfd E message Em. unfold serve_under_lock in E. rewrite Em in E. unfold send_data in E. destruct (Z.ltb_spec fd 0); [lia|].
  pose proof (send_loop_spec message sends polls) as Hs. rewrite E in Hs. destruct Hs as [Hp Hd]. split; [done|]. cbn. intros ->. by apply Hd.
Qed.

Lemma lock_for_ok t i ch ch' : chat_ok ch -> lock_for t i ch = Some ch' -> chat_ok ch'.
Proof.
  intros Hok E. unfold lock_for in E. destruct (tasks (ch_server ch) !! i) as [[t' [c|c|c z|c z]]|]; try done.
  destruct (clients (ch_server ch) !! c) as [d|]; [|done]. cbn in E.
  destruct (server_exec (Lock i) (ch_server ch)) as [s|] eqn:Es; [|done]. cbn in E. destruct (negb _); [done|].
  destruct (fd d <? 0).
  - eapply serve_done_ok, E; [done|by eapply server_exec_ok; [apply Hok|]|by eapply server_exec_frame|].
    intros call _ message _. split; [apply prefix_nil|done].
  - destruct (existsb _ _); [|done]. injection E as <-. by eapply server_step_ok.
Qed.

Lemma serve_client_ok t i sends polls ch ch' : chat_ok ch -> serve_client t i sends polls ch = Some ch' -> chat_ok ch'.
Proof.
  intros Hok E. unfold serve_client in E. destruct (tasks (ch_server ch) !! i) as [[t' [c|c|c z|c z]]|] eqn:Ei; try done.
  destruct (w_now (ch_works ch t)) as [call|] eqn:En; [|done].
  destruct (serve_under_lock (sc_action call) z sends polls) as [wire [ok|]] eqn:Ese; [|done].
  destruct (server_exec (RunTask i) (ch_server ch)) as [s|] eqn:Es; [|done]. cbn in E.
  case_bool_decide; [|done]. pose proof (ck_server _ Hok) as Hs. eapply serve_done_ok, E; [done|by eapply server_exec_ok|by eapply server_exec_frame|].
  intros call' Ec. rewrite En in Ec. injection Ec as <-. eapply serve_result, Ese.
  by apply (ok_sending _ Hs t' c z), (list_elem_of_lookup_2 _ i).
Qed.

(** *** Steps of the handlers *)

Context (Hfresh : fresh p m) (Hopen : m_reader_completed p = false) (Hidle : m_has_pending_read p = false).

Lemma conn_step_actions id (conn conn' : connection (R := R)) :
  conn_step id conn conn' -> c_actions conn `prefix_of` c_actions conn'.
Proof. intros Hs. by destruct Hs; cbn; first [apply prefix_app_r|done]. Qed.

(** The thread of a handler gets more to do. *)
Lemma handler_work_ok ch c id conn w' :
  chat_ok ch -> calls w' = calls (ch_works ch (HandlerThread c)) -> w_done w' = w_done (ch_works ch (HandlerThread c)) ->
  conn_works (ch_server ch) c id conn w' ->
  chat_ok (Chat (ch_server ch) (<[c := (id, conn)]> (ch_conns ch)) (<[HandlerThread c := w']> (ch_works ch)) (ch_sent ch)).
Proof.
  intros [Hs Hids Hc Hcl Hd Hse] Ec Ed Hw. split; cbn [ch_server ch_conns ch_works ch_sent]; try done.
  - intros c'. specialize (Hc c'). destruct (decide (c = c')) as [<-|Hne]; [by rewrite lookup_insert_eq, fn_lookup_insert|].
    rewrite lookup_insert_ne, fn_lookup_insert_ne; [done|congruence|done].
  - intros t. destruct (decide (HandlerThread c = t)) as [<-|Hne]; [rewrite fn_lookup_insert, Ec|rewrite fn_lookup_insert_ne by done]; apply Hcl.
  - intros t. destruct (decide (HandlerThread c = t)) as [<-|Hne]; [rewrite fn_lookup_insert, Ed|rewrite fn_lookup_insert_ne by done]; apply Hd.
  - intros t b. destruct (decide (HandlerThread c = t)) as [<-|Hne]; [rewrite fn_lookup_insert, Ec|rewrite fn_lookup_insert_ne by done]; apply Hse.
Qed.

Lemma handler_step_ok c e ch ch' : chat_ok ch -> handler_step c e ch = Some ch' -> chat_ok ch'.
Proof.
  intros Hok E. unfold handler_step in E. pose proof (ck_conns _ Hok c) as Hc.
  destruct (ch_conns ch !! c) as [[id conn]|]; [|done].
  destruct (match e with ThreadStep => _ | _ => true end); [|done]. destruct (conn_exec id e conn) as [conn'|] eqn:Ee; [|done].
  injection E as <-. apply conn_exec_step in Ee. destruct Hc as [Hco Ha Hk Hcli].
  apply handler_work_ok; [done..|]. split; [by eapply conn_step_ok| |done|done].
  destruct (conn_step_actions _ _ _ Ee) as [more Hmore]. cbn [w_todo]. unfold calls in *. cbn [w_done w_now].
  by rewrite Hmore, drop_app_length, app_assoc, Ha.
Qed.

(** Main, between two calls, gets more to do. *)
Lemma main_work_ok ch todo :
  chat_ok ch -> idle_work (ch_works ch Main) = true ->
  chat_ok (with_work (ch_server ch) Main (Work todo None (w_done (ch_works ch Main))) ch).
Proof.
  intros [Hs Hids Hc Hcl Hdn Hse] Hi. assert (calls (Work todo None (w_done (ch_works ch Main))) = calls (ch_works ch Main)) as Ec.
  { unfold idle_work in Hi. unfold calls. cbn. destruct (w_todo _); [|done]. by destruct (w_now _). }
  split; cbn [with_work ch_server ch_conns ch_works ch_sent]; try done.
  - intros t. destruct (decide (Main = t)) as [<-|Hne]; [rewrite fn_lookup_insert, Ec|rewrite fn_lookup_insert_ne by done]; apply Hcl.
  - intros t. destruct (decide (Main = t)) as [<-|Hne]; [rewrite fn_lookup_insert|rewrite fn_lookup_insert_ne by done]; apply Hdn.
  - intros t b. destruct (decide (Main = t)) as [<-|Hne]; [rewrite fn_lookup_insert, Ec|rewrite fn_lookup_insert_ne by done]; apply Hse.
Qed.

Lemma connect_ok c ch ch' : chat_ok ch -> connect c ch = Some ch' -> chat_ok ch'.
Proof.
  intros Hok E. unfold connect in E. destruct (clients (ch_server ch) !! c) as [d|] eqn:Hd; [|done]. cbn [mbind option_bind] in E.
  destruct (server_exec (StartHandler c) (ch_server ch)) as [s|] eqn:Es; [|done]. cbn [mbind option_bind] in E.
  destruct (idle_work _) eqn:Hi; [|done]. case_bool_decide as Hn; [|done]. injection E as <-.
  pose proof (server_exec_frame _ _ _ Es) as Hf. destruct (tf_clients _ _ Hf c d Hd) as (d' & Hd' & Hid).
  destruct (main_work_ok (with_server s ch) (greet (unique_id d) (initial_name (unique_id d))) (server_step_ok _ _ _ Hok Es) Hi)
    as [Hs Hids Hc Hcl Hdn Hse].
  cbn [with_server with_work ch_server ch_conns ch_works ch_sent] in *. split; cbn [ch_server ch_conns ch_works ch_sent]; try done.
  intros c'. specialize (Hc c'). destruct (decide (c = c')) as [<-|Hne]; [|by rewrite lookup_insert_ne].
  rewrite lookup_insert_eq. rewrite Hn in Hc. rewrite Hc. split; [by apply make_connection_ok|done|constructor|by exists d'].
Qed.

Lemma chat_step_ok ch ch' : chat_ok ch -> chat_step ch ch' -> chat_ok ch'.
Proof.
  intros Hok [e E]. destruct e as [e|c|c e| |t|t i|t i sends polls|t|c]; cbn [chat_exec] in E.
  - destruct (free_event e ch); [|done]. destruct (server_exec e (ch_server ch)) eqn:Es; [|done]. injection E as <-. by eapply server_step_ok.
  - by eapply connect_ok.
  - by eapply handler_step_ok.
  - unfold shutdown in E. destruct (idle_work _) eqn:Hi; [|done]. injection E as <-. by apply main_work_ok.
  - by eapply begin_call_ok.
  - by eapply lock_for_ok.
  - by eapply serve_client_ok.
  - by eapply end_call_ok.
  - unfold handler_ends in E. destruct (ch_conns ch !! c) as [[id conn]|]; [|done].
    destruct (server_exec (ThreadEnds c) (ch_server ch)) as [s|] eqn:Es; [|done]. cbn in E.
    destruct (c_phase conn); try done. destruct (idle_work _); [|done]. injection E as <-. by eapply server_step_ok.
Qed.

Lemma chat_reachable_ok ch : rtc chat_step start_chat ch -> chat_ok ch.
Proof. intros Hrun. eapply (rtc_invariant chat_step chat_ok); [apply chat_step_ok|exact Hrun|apply start_chat_ok]. Qed.

(** ** What a client gets *)

(** The message a call has for client [b]: a broadcast, if [b] was already
    among the clients; a reply, if the table had [b] under its identifier. *)
Definition expected (b : nat) (call : server_call) : option bytes :=
  match sc_action call with
  | Connection.Broadcast message => if Nat.ltb b (sc_known call) then Some message else None
  | Reply id message => if decide (sc_table call !! id = Some b) then Some message else None
  | _ => None
  end.

(** What the calls of [send_data] for client [b] answered, in a thread's
    finished calls. *)
Definition outcome_at (b : nat) (call : server_call) : list (bytes * bool) :=
  match message_of (sc_action call) with Some _ => results_at b call | None => [] end.

Lemma results_at_none b (l : list (nat * (bytes * bool))) :
  b ∉ map fst l -> omap (fun '(c, r) => if Nat.eqb c b then Some r else None) l = [].
Proof.
  induction l as [|[c r] l IH]; [done|]. cbn. intros [Hne Hn]%not_elem_of_cons.
  destruct (Nat.eqb_spec c b); [by subst|by apply IH].
Qed.

Lemma results_at_one b (l : list (nat * (bytes * bool))) :
  NoDup (map fst l) -> b ∈ map fst l ->
  exists r, omap (fun '(c, r) => if Nat.eqb c b then Some r else None) l = [r] /\ (b, r) ∈ l.
Proof.
  induction l as [|[c r] l IH]; cbn; [by intros _ ?%elem_of_nil|]. intros [Hn Hnd]%NoDup_cons [<-|Hb]%elem_of_cons.
  - exists r. rewrite Nat.eqb_refl, results_at_none by done. split; [done|left].
  - destruct (Nat.eqb_spec c b); [by subst|]. destruct (IH Hnd Hb) as (r' & E & Hin). exists r'. split; [done|by right].
Qed.

Lemma addressed_nodup a (table : gmap Z nat) :
  (forall z z' b, table !! z = Some b -> table !! z' = Some b -> z = z') -> NoDup (addressed a table).
Proof.
  intros Hi. assert (forall o : option nat, NoDup (option_list o)) as Ho by (intros [?|]; [apply NoDup_singleton|constructor]).
  destruct a; cbn [addressed]; [apply Ho| |apply Ho|constructor].
  apply (NoDup_fmap_2_strong (snd : Z * nat -> nat) (map_to_list table)); [|apply NoDup_map_to_list].
  intros [z b] [z' b'] Hz%elem_of_map_to_list Hz'%elem_of_map_to_list E. cbn in E. subst b'. f_equal. by eapply Hi.
Qed.

(** A finished call has served [b] once, or had nothing for it. *)
Lemma finished_outcome s call b z :
  call_ok s call -> sc_rest call = [] -> m_clients s !! z = Some b ->
  Forall2 (fun message r => r.1 `prefix_of` message /\ (r.2 = true -> r.1 = message)) (option_list (expected b call)) (outcome_at b call).
Proof.
  intros [Ha Hr Hk Ho Hi Hst] Hrest Hz. rewrite Hrest, app_nil_r in Ha.
  pose proof (addressed_nodup (sc_action call) (sc_table call) Hi) as Hnd. rewrite <- Ha in Hnd.
  assert (forall message, message_of (sc_action call) = Some message -> b ∈ addressed (sc_action call) (sc_table call) ->
    Forall2 (fun message r => r.1 `prefix_of` message /\ (r.2 = true -> r.1 = message)) [message] (results_at b call)) as Hin.
  { intros message Em Hb. rewrite <- Ha in Hb. destruct (results_at_one b (sc_results call) Hnd Hb) as (r & E & Hr').
    unfold results_at. rewrite E. constructor; [|constructor]. rewrite Forall_forall in Hr. by apply (Hr _ Hr'). }
  assert (b ∉ addressed (sc_action call) (sc_table call) -> results_at b call = []) as Hout.
  { intros Hb. rewrite <- Ha in Hb. by apply results_at_none. }
  unfold expected, outcome_at. destruct (sc_action call) as [id message|message|id|level message] eqn:Ea; cbn [message_of] in *; try done.
  - case_decide as Ht; [apply Hin; [done|]; cbn [addressed]; rewrite Ht; by apply list_elem_of_singleton|].
    rewrite Hout; [done|]. cbn [addressed]. destruct (sc_table call !! id) as [b'|]; cbn; [|apply not_elem_of_nil].
    intros Hb%list_elem_of_singleton. apply Ht. by rewrite Hb.
  - destruct (Nat.ltb_spec b (sc_known call)) as [Hlt|Hge].
    + apply Hin; [done|]. cbn. apply list_elem_of_fmap. exists (z, b). split; [done|]. apply elem_of_map_to_list. by apply Hst.
    + rewrite Hout; [done|]. cbn. intros ([z' b'] & -> & Hz'%elem_of_map_to_list)%list_elem_of_fmap. apply Ho in Hz'. cbn in Hge. lia.
Qed.

(** The handler of a client names no other client. *)
Lemma handle_lines_ids id nm ls :
  Forall (fun a => match a with Reply i _ | UserQuit i => i = id | _ => True end) (handle_lines id nm ls).2.
Proof.
  revert nm. induction ls as [|line ls IH]; intros nm; [constructor|]. cbn [handle_lines].
  assert (Forall (fun a => match a with Reply i _ | UserQuit i => i = id | _ => True end) (handle_line id nm line).2) as Hl.
  { unfold handle_line. case_decide; [constructor|]. unfold handle_command. destruct (parse_line _) as [[] arg].
    - by repeat constructor.
    - by repeat constructor.
    - unfold on_name. destruct (_ || _); by repeat constructor.
    - by repeat constructor.
    - unfold on_quit. destruct (negb _); by repeat constructor. }
  destruct (handle_line id nm line) as [nm1 a1]. specialize (IH nm1). destruct (handle_lines id nm1 ls) as [nm2 a2]. by apply Forall_app.
Qed.

Lemma finished_outcomes s l b z :
  Forall (call_ok s) l -> Forall (fun call => sc_rest call = []) l -> m_clients s !! z = Some b ->
  Forall2 (fun message r => r.1 `prefix_of` message /\ (r.2 = true -> r.1 = message))
    (omap (expected b) l) (concat (map (outcome_at b) l)).
Proof.
  intros Hl Hr Hz. induction l as [|call l IH]; [constructor|].
  apply Forall_cons in Hl as [Hc Hl]. apply Forall_cons in Hr as [Hr Hrl]. specialize (IH Hl Hrl).
  pose proof (finished_outcome s call b z Hc Hr Hz) as Hf. cbn [map concat].
  assert (omap (expected b) (call :: l) = option_list (expected b call) ++ omap (expected b) l) as ->.
  { cbn. by destruct (expected b call). }
  by apply Forall2_app.
Qed.

Lemma wires_outcomes b l : concat (map (wires_at b) l) = map fst (concat (map (outcome_at b) l)).
Proof.
  induction l as [|call l IH]; [done|]. cbn [map concat]. rewrite map_app, IH. f_equal. unfold wires_at, outcome_at.
  by destruct (message_of _).
Qed.

(** What an older client, still registered, is to get from a handler: its
    broadcasts. *)
Lemma older_expected ch a id conn b z :
  chat_ok ch -> ch_conns ch !! a = Some (id, conn) -> m_clients (ch_server ch) !! z = Some b -> (b < a)%nat ->
  omap (expected b) (w_done (ch_works ch (HandlerThread a))) =
  broadcasts (map sc_action (w_done (ch_works ch (HandlerThread a)))).
Proof.
  intros Hok Hconn Hz Hlt. pose proof (ck_conns _ Hok a) as Hc. rewrite Hconn in Hc. destruct Hc as [Hco Ha Hk (d & Hd & Hid)].
  pose proof (ck_calls _ Hok (HandlerThread a)) as Hcl. unfold calls in *. apply Forall_app in Hk as [Hk _]. apply Forall_app in Hcl as [Hcl _].
  assert (Forall (fun a => match a with Reply i _ | UserQuit i => i = id | _ => True end) (c_actions conn)) as Hids.
  { destruct (conn_handled id conn Hco) as (seen & _ & _ & _ & E). apply (f_equal snd) in E. cbn in E. rewrite E. apply handle_lines_ids. }
  rewrite <- Ha, map_app, <- app_assoc in Hids. apply Forall_app in Hids as [Hids _].
  set (l := w_done (ch_works ch (HandlerThread a))) in *. clearbody l. clear Ha. induction l as [|call l IH]; [done|].
  apply Forall_cons in Hk as [Hk Hkl]. apply Forall_cons in Hcl as [Hcall Hcl]. cbn [map] in Hids. apply Forall_cons in Hids as [Hi Hidl].
  specialize (IH Hkl Hcl Hidl). unfold broadcasts in *.
  assert (expected b call = match sc_action call with Connection.Broadcast message => Some message | _ => None end) as E.
  { unfold expected. destruct (sc_action call) as [i message|message|i|level message]; try done.
    - subst i. rewrite decide_False; [done|]. intros Ht.
      assert (z = id) as Ezi by (eapply (cl_injective _ _ Hcall); [apply (cl_still _ _ Hcall); [exact Hz|lia]|exact Ht]).
      destruct (ck_ids _ Hok a d z b Hd Hz Hlt). congruence.
    - destruct (Nat.ltb_spec b (sc_known call)); [done|lia]. }
  cbn. rewrite E. destruct (sc_action call); by rewrite IH.
Qed.

(** C8: a message reaches everyone, in order and once.  In every run of the
    chat, with any number of clients that come and go, all threads
    interleaved and the bytes received in any pieces: the calls a handler
    [a] has made, with those it still has to make, are the actions of the
    complete lines of a prefix of what was received from its client; and a
    client [b] that is still registered got from its thread one send for each
    broadcast made since [b] registered, and for each reply that the table
    directed to [b], in the order of the calls: a prefix of the message, and
    all of it if [send_data] succeeded.  To a client that registered before
    [a] go exactly the broadcasts. *)
Theorem messages_reach_clients ch a id conn b z
    (Hrun : rtc chat_step start_chat ch) (Hconn : ch_conns ch !! a = Some (id, conn))
    (Hb : m_clients (ch_server ch) !! z = Some b) :
  let w := ch_works ch (HandlerThread a) in
  (exists processed,
    processed `prefix_of` s_written (c_system conn) /\ (split_lines processed).2 = [] /\
    map sc_action (calls w) ++ w_todo w = (handle_lines id (initial_name id) (split_lines processed).1).2) /\
  sent_by (HandlerThread a) (ch_sent ch b) =
    map fst (concat (map (outcome_at b) (w_done w))) ++
    match w_now w with Some call => wires_at b call | None => [] end /\
  Forall2 (fun message r => r.1 `prefix_of` message /\ (r.2 = true -> r.1 = message))
    (omap (expected b) (w_done w)) (concat (map (outcome_at b) (w_done w))) /\
  ((b < a)%nat -> omap (expected b) (w_done w) = broadcasts (map sc_action (w_done w))).
Proof.
  pose proof (chat_reachable_ok ch Hrun) as Hok. cbv zeta.
  pose proof (ck_conns _ Hok a) as Hc. rewrite Hconn in Hc. destruct Hc as [Hco Ha _ _].
  pose proof (ck_calls _ Hok (HandlerThread a)) as Hcl. unfold calls in Hcl. apply Forall_app in Hcl as [Hcl _]. split_and!.
  - destruct (conn_handled id conn Hco) as (seen & _ & Hp & Hl & E). exists seen. rewrite Ha. apply (f_equal snd) in E. cbn in E. by rewrite E.
  - rewrite (ck_sent _ Hok). unfold calls. rewrite map_app, concat_app, wires_outcomes. f_equal.
    destruct (w_now _); cbn; by rewrite ?app_nil_r.
  - eapply finished_outcomes; [exact Hcl|apply Hok|exact Hb].
  - intros Hlt. by eapply older_expected.
Qed.
End chat.

(** ** A run *)

(** Everything a call has to send goes out at once. *)
Definition serve_all (t : thread) (i : nat) : list chat_event := [LockClient t i; Serve t i [SysOk 10000] []].

(** Client 7 joins and is greeted; client 8 joins, and says hi. *)
Definition chat_schedule : list chat_event :=
  [Table (Accept 7); Connect 0; BeginCall Main] ++ serve_all Main 0 ++ [EndCall Main; BeginCall Main] ++ serve_all Main 0
  ++ [EndCall Main; Table (RunTask 0); Table (RunTask 0); Table (RunTask 0); Table (Accept 8); Connect 1;
      Handler 1 (Receive (text "hi
"))]
  ++ [Handler 1 WriterStep; Handler 1 WriterStep; Handler 1 ThreadStep; Handler 1 ThreadStep;
      BeginCall (HandlerThread 1); EndCall (HandlerThread 1); BeginCall (HandlerThread 1); LockClient (HandlerThread 1) 1;
      Serve (HandlerThread 1) 1 [SysOk 3; SysErr EINTR; SysOk 100] []]
  ++ serve_all (HandlerThread 1) 2 ++ [EndCall (HandlerThread 1)].

Definition chat_after (n : nat) : chat := default start_chat (chat_exec_all demo empty_memory (take n chat_schedule) start_chat).

Lemma chat_after_run n :
  is_Some (chat_exec_all demo empty_memory (take n chat_schedule) start_chat) ->
  rtc (chat_step demo empty_memory) start_chat (chat_after n).
Proof. intros [ch E]. unfold chat_after. rewrite E. by eapply chat_exec_all_run. Qed.

Lemma messages_reach_clients_witness :
  sent_by (HandlerThread 1) (ch_sent (chat_after 40) 0%nat) = [text "[💬 8]: hi
"] /\
  Forall2 (fun message r => r.1 `prefix_of` message /\ (r.2 = true -> r.1 = message))
    (broadcasts (map sc_action (w_done (ch_works (chat_after 40) (HandlerThread 1)))))
    (concat (map (outcome_at 0) (w_done (ch_works (chat_after 40) (HandlerThread 1))))).
Proof.
  split; [by vm_compute|].
  destruct (ch_conns (chat_after 40) !! 1%nat) as [[id conn]|] eqn:Ec; [|by vm_compute in Ec].
  destruct (messages_reach_clients demo empty_memory demo_fresh eq_refl eq_refl (chat_after 40) 1 id conn 0 7)
    as (_ & _ & Hsent & Hold); [apply chat_after_run; vm_compute; by eexists|exact Ec|by vm_compute|].
  rewrite Hold in Hsent by lia. exact Hsent.
Defined.
