(* ===== verification/ChatMain.v ===== *)
(** [samples/chat.cpp]: the sinks it adds to the logger, the heartbeat thread,
    the port, and [main] from there to its exit code. *)

From S2P Require Import Prelude Text System LogMessage Sinks CurlTransport Server.
Import log_level.

(** ** The sinks *)

Definition console_opts : log_sink_opts :=
  SinkOpts information STDOUT_FILENO true false true true.
Definition plain_opts (exe_fullpath : bytes) : file_sink_opts :=
  FileOpts information (exe_fullpath ++ text ".plain.log") true true.
Definition trace_opts (exe_fullpath : bytes) : file_sink_opts :=
  FileOpts trace (exe_fullpath ++ text ".trace.log") false true.
Definition chat_otel_opts : otel_sink_opts :=
  OtelOpts trace (text "http://localhost:4318/v1/logs") [] (text "chat-app") (text "chat-app") (text "1.0.0")
    (text "instance-1") (text "development") 100 false.

(** ** The heartbeat thread

    [t]: the token as the polls of the loop and of [wait_for], one a second,
    see it.  The heartbeats logged in [fuel] rounds, and whether the loop was
    left. *)
Fixpoint heartbeat (fuel : nat) (t : stop_token) : nat * bool :=
  match fuel with
  | O => (0%nat, false)
  | S fuel =>
      let '(stop, t) := stop_requested t in
      if stop then (0%nat, true)
      else
        let '(_, t) := cv_wait_round false t in
        let '(stop, t) := stop_requested t in
        if stop then (0%nat, true)
        else let '(logged, ended) := heartbeat fuel t in (S logged, ended)
  end.

(** ** [main] *)

(** [argv] with the name of the program. *)
Definition chat_port (argv : list bytes) : outcome Z :=
  '(port, _) ← stoi (match argv with _ :: arg :: _ => arg | _ => text "9090" end);
  if (port <? 1) || (port >? 65535) then throw invalid_argument "invalid port" else Ret port.

Section main.
(** The file system, libcurl and the kernel: [read_symlink] of
    /proc/self/exe ([None]: it throws), the answers of Sinks.v and
    CurlTransport.v, those that the server's constructor gets, and those of
    [epoll_wait]. *)
Context (read_symlink : option bytes) (exists_path : bytes -> bool) (create_directories : bytes -> outcome unit) (open : bytes -> Z).
Context (init_ok : bool) (append_ok : bytes -> bool) (setopt : curl_option -> Z) (strerror : Z -> string).
Context (socket setsockopt : Z) (bind : Z -> Z) (listen epoll : Z) (add_listen add_stdin : bool).
Context (waits : list (list epoll_event + errno_t)).

Definition add_otel_sink (opts : otel_sink_opts) : outcome unit :=
  _ ← make_sink (SinkOpts (oo_min_log_level opts) (-1) (oo_use_local_time opts) true false true) true;
  _ ← validate_otel_opts opts;
  _ ← (make_curl_transport init_ok append_ok setopt strerror opts).2;
  Ret tt.

Definition add_sinks : outcome unit :=
  exe_fullpath ← match read_symlink with Some path => Ret path | None => throw system_error "read_symlink" end;
  _ ← make_sink console_opts false;
  _ ← make_file_sink exists_path create_directories open (plain_opts exe_fullpath);
  _ ← make_file_sink exists_path create_directories open (trace_opts exe_fullpath);
  add_otel_sink chat_otel_opts.

(** The block around the server: its descriptors, its actions, how it is
    left; the destructor runs in each case. *)
Definition run_server (port : Z) : list fd_call * list server_action * outcome (loop_state unit) :=
  let '(calls, r) := make_server (create_listen_socket socket setsockopt (bind port) listen) epoll add_listen add_stdin in
  match r with
  | Ret server =>
      let '(actions, r) := run (m_listenFd server) waits in
      match r with
      | Ret LoopBlocked => (calls, actions, r)
      | _ => (calls ++ (cleanup_fds server).1, actions, r)
      end
  | Throw e => (calls, [], Throw e)
  | Undef => (calls, [], Undef)
  end.

(** The exit code; every exception reaches the handler, which logs it. *)
Definition exit_code (r : outcome (loop_state unit)) : outcome (loop_state Z) :=
  match r with
  | Ret (LoopDone _) => Ret (LoopDone 0)
  | Ret LoopBlocked => Ret LoopBlocked
  | Throw _ => Ret (LoopDone 1)
  | Undef => Undef
  end.

Definition chat_main (argv : list bytes) : list fd_call * list server_action * outcome (loop_state Z) :=
  match (_ ← add_sinks; chat_port argv) with
  | Ret port => let '(calls, actions, r) := run_server port in (calls, actions, exit_code r)
  | Throw e => ([], [], exit_code (Throw e))
  | Undef => ([], [], Undef)
  end.
End main.

(** ** Nothing undefined *)

Lemma defined_bind {A B} (o : outcome A) (f : A -> outcome B) :
  o ≠ Undef -> (forall x, f x ≠ Undef) -> (x ← o; f x) ≠ Undef.
Proof. intros Ho Hf. by destruct o; [apply Hf|..]. Qed.

Lemma chat_port_defined argv : chat_port argv ≠ Undef.
Proof.
  apply defined_bind; [|intros [port n]; by destruct (_ || _)]. unfold stoi. destruct (scan_sign _) as [sign signless].
  by repeat case_match.
Qed.

Lemma run_defined m_listenFd waits : (run m_listenFd waits).2 ≠ Undef.
Proof.
  assert (forall accepts, (handle_incoming_connections accepts).2 ≠ Undef) as Hacc.
  { intros accepts. induction accepts as [|[fd|[]] accepts IH]; try done. cbn [handle_incoming_connections].
    by destruct (handle_incoming_connections accepts). }
  assert (forall reads, enter_pressed reads ≠ Undef) as Henter.
  { intros reads. induction reads as [|[|[]] reads IH]; done. }
  assert (forall events, (process_events m_listenFd events).2 ≠ Undef) as Hev.
  { intros events. induction events as [|event events IH]; [done|]. cbn [process_events].
    specialize (Hacc (ev_accepts event)). specialize (Henter (ev_reads event)).
    destruct (event_target_of m_listenFd (ev_fd event)), (process_events m_listenFd events) as [actions r]; [| |done].
    - by destruct (handle_incoming_connections (ev_accepts event)) as [fds [[[]|]| |]].
    - by destruct (enter_pressed (ev_reads event)) as [[[]|]| |]. }
  induction waits as [|[events|[]] waits IH]; try done. cbn [run]. specialize (Hev events).
  destruct (process_events m_listenFd events) as [actions [[[]|]| |]]; try done. by destruct (run m_listenFd waits).
Qed.

Section exits.
Context (read_symlink : option bytes) (exists_path : bytes -> bool) (create_directories : bytes -> outcome unit) (open : bytes -> Z).
Context (init_ok : bool) (append_ok : bytes -> bool) (setopt : curl_option -> Z) (strerror : Z -> string).
Context (socket setsockopt : Z) (bind : Z -> Z) (listen epoll : Z) (add_listen add_stdin : bool).
Context (waits : list (list epoll_event + errno_t)).
Context (Hdirs : forall path, create_directories path ≠ Undef).

Abbreviation sinks := (add_sinks read_symlink exists_path create_directories open init_ok append_ok setopt strerror).
Abbreviation served := (run_server socket setsockopt bind listen epoll add_listen add_stdin waits).
Abbreviation main := (chat_main read_symlink exists_path create_directories open init_ok append_ok setopt strerror
  socket setsockopt bind listen epoll add_listen add_stdin waits).

Lemma file_sink_defined opts : make_file_sink exists_path create_directories open opts ≠ Undef.
Proof.
  unfold make_file_sink, open_file, validate_file_opts, validate_required_string. cbn.
  repeat first [apply defined_bind; [|intros ?] | case_match | done | apply Hdirs].
Qed.

Lemma curl_defined opts : (make_curl_transport init_ok append_ok setopt strerror opts).2 ≠ Undef.
Proof.
  assert (forall hs l, (append_headers append_ok hs l).2 ≠ Undef) as Ha.
  { intros hs. induction hs as [|h hs IH]; intros l; [done|]. cbn. destruct (append_ok h); [|done].
    specialize (IH (l ++ [h])). by destruct (append_headers _ hs (l ++ [h])) as [[? ?] ?]. }
  assert (forall os, (set_options setopt strerror os).2 ≠ Undef) as Hs.
  { intros os. induction os as [|o os IH]; [done|]. cbn. unfold check_setopt. destruct (negb (setopt o =? 0)); [done|].
    by destruct (set_options _ _ os). }
  unfold make_curl_transport. destruct init_ok; [|done]. cbn [negb]. specialize (Ha (headers_for opts) []).
  destruct (append_headers append_ok (headers_for opts) []) as [[calls headers] [[]| |]]; try done.
  specialize (Hs (options_for opts headers)). by destruct (set_options setopt strerror (options_for opts headers)) as [calls' [[]| |]].
Qed.

Lemma add_sinks_defined : sinks ≠ Undef.
Proof.
  unfold add_sinks, add_otel_sink. apply defined_bind; [by destruct read_symlink|intros exe].
  apply defined_bind; [done|intros _]. do 2 (apply defined_bind; [apply file_sink_defined|intros _]).
  apply defined_bind; [done|intros _]. apply defined_bind; [by vm_compute|intros _].
  by apply defined_bind; [apply curl_defined|].
Qed.

(** ** The descriptors *)

(** Nothing is left open that was opened, and nothing closed twice. *)
Definition balanced (calls : list fd_call) : Prop :=
  forall x, countb (opens x) calls = countb (closes x) calls.

Lemma cleanup_opens s x : countb (opens x) (cleanup_fds s).1 = 0%nat.
Proof. unfold cleanup_fds. cbn. by destruct (m_listenFd s >=? 0), (m_epollFd s >=? 0). Qed.

Lemma run_server_spec port :
  let '(calls, actions, r) := served port in
  match r with
  | Ret LoopBlocked => forall x, countb (closes x) calls = 0%nat
  | Ret (LoopDone _) => balanced calls /\ exists before, actions = before ++ [BroadcastShutdown]
  | Throw _ => balanced calls /\ BroadcastShutdown ∉ actions
  | Undef => False
  end.
Proof.
  unfold run_server. pose proof (make_server_no_leak socket setsockopt (bind port) listen epoll add_listen add_stdin) as Hs.
  destruct (make_server _ _ _ _) as [calls [s|e|]]; [|split; [exact (proj2 Hs)|apply not_elem_of_nil]|done].
  destruct Hs as (_ & _ & Hc). pose proof (run_spec (m_listenFd s) waits) as Hr. pose proof (run_defined (m_listenFd s) waits) as Hd.
  assert (balanced (calls ++ (cleanup_fds s).1)) as Hb.
  { intros x. rewrite !countb_app, cleanup_opens. destruct (Hc x) as [E1 E2]. lia. }
  destruct (run (m_listenFd s) waits) as [actions [[[]|]|e|]]; destruct Hr as (_ & Hr & _); [| | |done].
  - split; [done|]. destruct Hr as (before & -> & _). by exists before.
  - intros x. apply Hc.
  - split; [done|]. intros [i Hi]%list_elem_of_lookup. by pose proof (countb_pos is_shutdown _ _ _ Hi eq_refl); lia.
Qed.

(** C37: chat.cpp's [main], whatever the file system, libcurl, the kernel and the
    arguments do, lets no exception out: it returns 0 exactly when Enter ended
    the event loop of a server on a valid port, and the last thing the loop did
    was to say goodbye; in every other case in which it returns it returns 1,
    the clients were not told, and whatever the server had opened is closed
    once. *)
Theorem chat_main_exits argv :
  let '(calls, actions, r) := main argv in
  match r with
  | Ret (LoopDone code) =>
      balanced calls /\
      ((code = 0 /\ (exists port, chat_port argv = Ret port /\ 1 <= port <= 65535) /\
        exists before, actions = before ++ [BroadcastShutdown]) \/
       (code = 1 /\ BroadcastShutdown ∉ actions))
  | Ret LoopBlocked => forall x, countb (closes x) calls = 0%nat
  | _ => False
  end.
Proof.
  unfold chat_main. pose proof add_sinks_defined as Hsinks. destruct sinks as [[]|e|]; [|cbn|done].
  2: { split; [done|]. right. split; [done|apply not_elem_of_nil]. }
  cbn [mbind outcome_bind]. pose proof (chat_port_defined argv) as Hdef. destruct (chat_port argv) as [port|e|] eqn:Ep; [|cbn|done].
  2: { split; [done|]. right. split; [done|apply not_elem_of_nil]. }
  assert (1 <= port <= 65535) as Hport.
  { unfold chat_port in Ep. destruct (stoi _) as [[n k]| |]; [|done..]. cbn in Ep.
    destruct (Z.ltb_spec n 1), (Z.gtb_spec n 65535); cbn in Ep; try done. injection Ep as <-. lia. }
  pose proof (run_server_spec port) as Hs. destruct (served port) as [[calls actions] [[u|]|e|]]; cbn; [| | |done].
  - destruct Hs as [Hb Ha]. split; [done|]. left. eauto 6.
  - done.
  - destruct Hs as [Hb Ha]. split; [done|]. by right.
Qed.
End exits.

(** The heartbeat thread polls its token three times a round; once a stop is
    requested it logs nothing more and ends. *)
Theorem heartbeat_ends fuel polls (Hfuel : (polls / 3 < fuel)%nat) : heartbeat fuel (Some polls) = ((polls / 3)%nat, true).
Proof.
  revert polls Hfuel. induction fuel as [|fuel IH]; intros polls Hfuel; [lia|].
  destruct polls as [|[|[|polls]]]; try done. cbn [heartbeat stop_requested cv_wait_round].
  replace (S (S (S polls)) / 3)%nat with (S (polls / 3)) in * by
    (replace (S (S (S polls))) with (polls + 1 * 3)%nat by lia; rewrite Nat.div_add by done; lia).
  by rewrite IH by lia.
Qed.

(** Every port can be chosen, 9090 is the default, and text after the number
    is ignored. *)
Theorem chat_port_decimal name n (Hn : 1 <= n <= 65535) :
  chat_port [name; to_decimal n] = Ret n /\ chat_port [name] = Ret 9090 /\
  chat_port [name; text "8080x"] = Ret 8080.
Proof.
  split_and!; [|by vm_compute..]. unfold chat_port. rewrite stoi_to_decimal by (unfold int_max; lia). cbn.
  destruct (Z.ltb_spec n 1), (Z.gtb_spec n 65535); (done || lia).
Qed.

(** A run: Enter is pressed after the first event. *)
Definition chat_run : list fd_call * list server_action * outcome (loop_state Z) :=
  chat_main (Some (text "/opt/chat")) (fun _ => true) (fun _ => Ret tt) (fun _ => 5) true (fun _ => true) (fun _ => 0)
    (fun _ => EmptyString) 3 0 (fun _ => 0) 0 4 true true
    [inr EINTR; inl [EpollEvent 0 1 [] [RecvData [x0a]]]] [text "chat"; text "8080"].

Lemma chat_main_exits_witness :
  chat_run = ([FdOpened 3; FdOpened 4; FdClosed 3; FdClosed 4], [BroadcastShutdown], Ret (LoopDone 0)) /\
  balanced chat_run.1.1.
Proof.
  split; [vm_compute; reflexivity|].
  pose proof (chat_main_exits (Some (text "/opt/chat")) (fun _ => true) (fun _ => Ret tt) (fun _ => 5) true (fun _ => true) (fun _ => 0)
    (fun _ => EmptyString) 3 0 (fun _ => 0) 0 4 true true
    [inr EINTR; inl [EpollEvent 0 1 [] [RecvData [x0a]]]] (fun path => ltac:(discriminate)) [text "chat"; text "8080"]) as H.
  assert (chat_run = ([FdOpened 3; FdOpened 4; FdClosed 3; FdClosed 4], [BroadcastShutdown], Ret (LoopDone 0))) as E
    by (vm_compute; reflexivity).
  unfold chat_run in E |- *. rewrite E in H |- *. exact (proj1 H).
Defined.
